(* ===== verification/_CoqProject ===== *)
-Q . S2P
Prelude.v
Machine.v
Buffer.v
Framing.v
Slicer.v
Datagram.v
Stream.v
Inet.v
Sys.v
TcpSocket.v
TcpBase.v
Samples.v
TcpSend.v
TcpRecv.v
EndToEnd.v
TcpLife.v
TcpConn.v
Timer.v
Listener.v
ListenerProps.v
TcpListener.v
EventLoop.v
EventLoopProps.v
Shutdown.v
Workers.v
Mutex.v
Threads.v
ThreadsSafe.v
ThreadsLive.v
ThreadsRaces.v
ThreadsSolo.v
ThreadsEndToEnd.v
Registry.v
RegistryProps.v
RegistryRaces.v
Dispatch.v
DispatchSafe.v
TcpWaiters.v
DispatchTcp.v
DispatchSolo.v
TimerThreads.v
TimerThreadsProps.v
TimerThreadsLive.v
TimerThreadsSolo.v
Delayed.v
DelayedProps.v
DelayedThreads.v
DelayedThreadsProps.v
DelayedThreadsLive.v
Inherited.v
Tls.v
TlsBase.v
TlsLife.v
TlsProps.v
TlsChannel.v
TlsInput.v
TlsRecords.v
TlsEndToEnd.v
TlsSamples.v
