(* ===== verification/Prelude.v ===== *)
(** yael (Yet Another Event Loop): verification library - root file.

    yael is a C++ library for message-based networking on Linux: sockets that
    frame a byte stream into messages, listeners that own a socket (or a timer)
    and call the application back, and an event loop that hands epoll events to
    listeners on a pool of threads. This library models the library's own code
    and proves what its parts promise to each other and to an application.

    * Parts and how they interact

    An event loop (src/EventLoop.cpp) keeps a map from descriptors to listeners.
    A worker waits in epoll, and calls the listener's [on_read_ready],
    [on_write_ready] or [on_error], then [re_register]. A network listener
    (src/NetworkSocketListener.cpp) reads messages from its socket and passes them
    to the application, and sends what the application gives it. A TCP socket
    (src/network/TcpSocket.cpp) fills a fixed buffer from its descriptor and lets
    a message slicer (src/network/DatagramMessageSlicer.h or
    StreamMessageSlicer.h) cut it into messages; in the other direction it queues
    messages and writes them out as far as the descriptor takes them. A time
    listener (src/TimeEventListener.cpp) keeps deadlines behind one timerfd. A TLS
    socket (src/network/TlsSocket.cpp) is a TCP socket whose bytes go through a
    channel of the library Botan: its context (src/network/TlsContext.cpp) gives
    messages and received bytes to the channel, which calls back to write to the
    descriptor, to hand over records, and to close the socket.

    * Files

    - [Prelude]: outcomes of a call ([Val], [Exn] for an exception, [Halt] for
      LOG(FATAL), undefined behaviour or a loop out of fuel), the state and
      exception monad [M], loops [iter], weakest preconditions [wp] with the rules
      every component uses, [wp_step].
    - [Machine]: machine integers as [Z] with their wrap-around ([u16], [u32],
      [u64], [i32], [i64]), little-endian bytes, bounded reads and writes of
      arrays.
    - [Buffer]: include/yael/network/buffer.h.
    - [Framing]: the wire format as a reference parser on byte lists, independent
      of the code: [encode], [parse_byte], [parse].
    - [Slicer]: include/yael/network/MessageSlicer.h as the class
      [MessageSlicer], and [SlicerLaws], what a socket relies on.
    - [Datagram], [Stream]: the two slicers, each an instance of [SlicerLaws].
    - [Inet]: network/Address.h and network/Address.cpp.
    - [Sys]: the system calls of a socket as the class [Sys], their documented
      behaviour as [SysLaws], and a scripted system that satisfies it.
    - [TcpSocket]: src/network/TcpSocket.cpp, every member function. [TcpBase]:
      stepping rules. [Samples]: concrete sockets for the examples.
    - [TcpSend], [TcpRecv]: sending and receiving. [EndToEnd]: a sender and a
      receiver together. [TcpLife]: every sequence of calls. [TcpConn]: opening,
      accepting, closing.
    - [Timer]: src/TimeEventListener.cpp.
    - [Listener]: src/NetworkSocketListener.cpp over the interface [Socket] of
      include/yael/network/Socket.h. [ListenerProps]: its theorems, over any
      socket with [SocketLaws]. [TcpListener]: a TCP socket satisfies them, and
      what follows for listeners over TCP.
    - [TimerThreads]: workers and threads of the application on one
      [TimeEventListener] in the event loop, as interleaved steps. [TimerThreadsProps]:
      their invariant. [TimerThreadsLive]: every deadline fires once, no wake-up is
      lost, no deadlock; interleavings that go wrong. [TimerThreadsSolo]: one thread
      runs as [Timer] says.
    - [Delayed]: src/DelayedNetworkSocketListener.cpp, on top of [Timer] and
      [Listener]. [DelayedProps]: what it does with the messages it holds back.
      [DelayedThreads]: sending threads, closes and workers on one delayed sender, on
      top of [TimerThreads], as interleaved steps. [DelayedThreadsProps]: their
      invariant. [DelayedThreadsLive]: messages and deadlines match, no deadlock
      between the two mutexes; interleavings that go wrong.
    - [Inherited]: the member functions of [TcpSocket] as a derived class inherits
      them, calling the overriding [close]; when it does what [TcpSocket::close]
      does, they do what they do in [TcpSocket].
    - [Tls]: src/network/TlsSocket.cpp, TlsContext.cpp, TlsPolicy.h and the
      credentials, over channels as the class [Botan]. [TlsBase]: stepping rules,
      [BotanLaws], and what a call does to the fields of the object ([moves]).
      [TlsLife]: every sequence of calls. [TlsProps]: states, closing, writing.
      [TlsChannel]: what a channel has been given, followed through the calls.
      [TlsInput]: received bytes. [TlsRecords], [TlsEndToEnd]: messages in records, from sender to receiver.
      [TlsSamples]: a channel in plain text and the theorems at concrete sockets.
    - [EventLoop]: src/EventLoop.cpp. [EventLoopProps]: dispatch, failing waits,
      the registry. [Shutdown]: network listeners as listeners of the event loop,
      and [stop]. [Workers]: the worker threads and [stop] as interleaved steps.
    - [Mutex]: who owns a mutex, for the machines of threads below.
    - [Threads]: several threads on one [TcpSocket] ([send], [do_send],
      [wait_send_queue_empty], [close]) as interleaved steps, with its two mutexes
      and the condition variable. [ThreadsSafe]: the order of what is sent.
      [ThreadsLive]: no deadlock, no lost wake-up, termination. [ThreadsRaces]:
      interleavings of [close] that go wrong. [ThreadsSolo]: one thread runs as
      [TcpSocket] says. [ThreadsEndToEnd]: with a receiver.
    - [Registry]: threads that register, close and change the mode of listeners in
      one event loop, as interleaved steps, with descriptors that are used again.
      [RegistryProps]: the registry is exact, registrations return.
      [RegistryRaces]: interleavings that go wrong.
    - [Dispatch]: workers and threads of the application on one
      [NetworkSocketListener] in the event loop, as interleaved steps, over any
      socket with [SocketLaws] and [SharedSocketLaws], with the two mutexes and the
      condition variable of the socket's send queue ([SendQueue], [SendQueueLaws]).
      [DispatchSafe]: no event is lost, no wake-up is lost, no deadlock.
      [TcpWaiters]: which calls of a TCP socket notify its condition variable.
      [DispatchTcp]: TCP sockets, and interleavings that go wrong. [DispatchSolo]:
      one thread runs as [Listener] says.

    * State

    Objects are records with the fields of the class (m_...). A member function is
    a definition of the same name in [M] over a world: the object, the system it
    talks to, and a trace of what it did there. [TcpSocket.world] holds the
    socket, the system, errno and the trace of descriptors opened, closed, read
    and written; [Listener.lworld] the listener, the trace of its calls of the
    event loop and of the application's callbacks, whether there is an event
    loop, and the application's state; [EventLoop.eworld] the singleton, the
    system and the listeners; [Inherited.derived] adds the fields of a derived
    class to the world of its base. A call of a TLS channel is a [Tls.run]: it
    returns, throws, or makes a callback and goes on from the answer, in a state
    that the callback may have changed by calling the channel again. Bytes are [Byte.byte]; heap arrays are lists of
    optional bytes where the code can read them before writing. Time is in
    milliseconds where the code has it so, and the timerfd in nanoseconds.

    Threads: the files above are sequential. In [Listener], [EventLoop] and [Tls] a
    mutex is a flag, and locking it twice is a deadlock ([Halt]); in [TcpSocket] and
    [Timer] an operation is atomic, as its lock makes it; where a thread sleeps (in
    [wait_send_queue_empty], on a condition variable, in epoll_wait), what other
    threads do meanwhile is a parameter. In the machines of threads a thread that
    waits on a condition variable is asleep until [notify_all] or a spurious
    wake-up, and then tests again: in [Threads] and [Registry] the code says where it
    notifies, in [Dispatch] the socket does ([sk_notified]), as its calls are one
    step there. [Workers], [Threads], [Registry],
    [Dispatch], [TimerThreads] and [DelayedThreads] interleave threads: a control
    point ([pc], [frame], [spc]) for every access to what the threads share, [code] for what a thread does there (acquire or release a
    mutex, access the shared state, sleep), and a step relation in which any thread
    may go on, so that every interleaving is one of its runs. The accesses are those
    of the source in its order; what a mutex protects is touched in one step of its
    owner. A [frame] is on a stack, because the application may call the listener
    from [on_network_message]; a thread on a delayed sender has a control point there
    and one in the timer it calls. The sequential operations are the runs of a single
    thread ([one_thread_is_sequential], [listener_alone_is_sequential],
    [timer_alone_is_sequential]).

    * What is proved

    - The slicers: [process_buffer] refines the reference parser on every input
      and never leaves an array; framing round-trips; stream mode keeps chunks.
    - A TCP socket: [do_send] writes the queued bytes in order and nothing else;
      [pull_messages] hands over every byte once; end to end, the receiver holds
      a prefix of the accepted messages, and all of them once everything has
      arrived; from every reachable state no permitted call aborts the process or
      leaves an array; size of the queue, descriptors closed exactly once,
      outcomes of [connect], [listen], [accept], [close].
    - A timer: in every reachable state an open timer with queued deadlines is
      set; a wake-up fires exactly what is due.
    - Threads on a timer: every deadline that is queued leads to one call of
      [on_time_event], never early; when all threads rest, an open timer is watched
      and set; no thread waits for ever, and nothing aborts as long as the timer is
      closed only from its own callback. All this takes a clock that nobody sets
      ([SteadyClock], the flag [settable] of [treach] and [sreach]); [timer_races]
      sets it back and aborts.
    - A listener: in every reachable state no mutex is held, data that waits is
      announced to the event loop, the application is told of the end at most
      once (for applications that are [well_behaved]); messages come in order and
      before the disconnect.
    - Threads on a TCP socket: whatever the interleaving, the wire carries the queued
      messages whole and in order, the receiver gets a prefix of them, and threads
      that do not close gracefully never deadlock, abort or miss a wake-up.
    - Threads on a listener: when all threads rest, a valid socket is watched by
      epoll in the mode its listener believes it is in, which includes writing when
      data waits; the two mutexes never deadlock; a thread that sleeps until the send
      queue is empty has data queued on a valid socket, unless [close] gave the
      descriptor up without notifying ([given_up_forgets]).
    - The registry under threads: a listener whose registration has returned is the
      one found under its descriptor, and watched; a registration that waits for
      the listener that had the descriptor before it is woken up.
    - A delayed listener: a wake-up sends one message per due deadline, oldest
      first; with a constant delay messages keep their order and delay. Between
      threads: messages leave the list in the order they entered it, and when all
      threads rest, as many wait as deadlines are queued in the timer, which is set;
      the mutex of the sender and that of the timer never deadlock.
    - A TLS socket: from every reachable state, and whatever the library does that
      keeps [BotanLaws], no permitted call aborts, deadlocks or leaves an object;
      the state of the connection moves along a table; [send] gives the library
      the frame the slicer would make; [pull_messages] gives it every byte once and
      in order; the receiver queues exactly the messages
      the sender's library took, wherever they are cut into records.
    - The event loop: dispatch of every combination of flags; [stop] closes every
      listener and returns; the workers all end after it; [wait] joins them once, and
      [destroy] needs both.
    - What goes wrong: a number of theorems state behaviour that contradicts a
      comment or the evident intent (they are marked by what they say: a leak, a
      deadlock, lost messages, a loop that does not end, a receiver that refuses
      everything after an empty message); [close_races], [registry_races],
      [dispatch_races], [timer_races] and [delayed_races] are interleavings.

    * Bounds and fuel

    Loops that the code bounds by its data ([do_send], the loop over due events,
    the byte loops of a slicer, [stop]) are proved to end: the theorems ask for
    fuel above a measure of the state (bytes and messages to send, chunks to
    receive, registered listeners). Loops that wait for the outside ([receive] and
    [accept] read while the network delivers, [send] retries while the queue is
    full) may run out of fuel in a theorem about every state; theorems that
    describe what the outside does give the fuel that is enough. [Tls.close] can be
    called again by the channel it calls; two levels are enough
    ([close_reenters_once]). More fuel never changes a result ([iter_more_fuel]).

    * Not modelled

    In the machines of threads: receiving on a [TcpSocket] is not interleaved with
    itself ([Threads] has the calls that send, wait and close, among them the
    close(true) of a receiver), and a system call is made with the descriptor loaded
    in the step before it; in [Dispatch] a call on the socket is one step, the socket
    is a connection that is not released, the event loop is not stopped (see
    [Workers] and [Shutdown]), the other callbacks than [on_network_message] do
    nothing, and no other file gets the number of the closed descriptor. In
    [Registry] descriptors are used again, but a critical section of
    [m_event_listeners_mutex] is one step, events are not delivered (a worker appears
    through its [re_register]), and the event loop is not stopped; [registry_exact]
    and [registrations_return] are about listeners that are closed after their
    registration has returned. In [TimerThreads] the event loop exists and is not
    stopped, epoll reports nothing but that the timerfd has expired, and no other
    file gets the number of the closed descriptor; reading the timerfd is the step at
    which read() returns (before it, the thread is blocked in it), and the clock is
    set between such steps. In [DelayedThreads] this holds as
    well, sending a message on the listener is one step, and a send whose socket
    fails closes the listener in the same thread.

    The environment: descriptor 0 stays open, so that no new connection gets it
    ([Host]); the application ignores SIGPIPE, which nothing in the sources does, so
    that a write on a connection that is gone returns EPIPE ([Sys]). In [Shutdown]
    what a listener asks of the event loop is carried out when its call returns,
    which is the same for the callbacks there, which do nothing.

    Botan itself: channels, keys and certificates are parameters, with documented
    behaviour as laws ([BotanLaws], [SecurePipe], [SecureInput]); that records arrive
    as they were sent is a hypothesis of [tls_end_to_end]. A TLS socket is not an
    instance of [SocketLaws]: it can count as connected without a descriptor
    ([session_established_after_close]) and its writes wait in a busy loop
    ([emit_data_ends]), so that the theorems on listeners are about TCP. Logging,
    tests and benchmarks. The memory model is sequentially consistent; allocation
    does not fail. *)
From stdpp Require Export base tactics numbers list option strings.
From Stdlib Require Export ZArith Lia.
From Stdlib Require Export Strings.Byte.

Local Open Scope Z_scope.

(** Division and remainder by constants (the wrap-around of machine integers)
    are decided by [lia] once they are turned into equations. *)
Ltac Zify.zify_post_hook ::= Z.to_euclidean_division_equations.

(** * Outcomes of a call *)

(** The C++ exceptions the sources throw, and those of the libraries they call.
    All derive from [std::exception]. *)
Inductive exn :=
| socket_error (msg : string)
| send_queue_full
| runtime_error (msg : string)
| invalid_argument (msg : string)
| library_error (msg : string).

(** Ways in which a call does not come back: [LOG(FATAL)] aborts the process,
    [UB] marks an access outside an object (undefined behaviour), [OutOfFuel] is
    the bound of a loop of the model being reached. *)
Inductive halt_reason :=
| Fatal (msg : string)
| UB (msg : string)
| OutOfFuel.

Inductive outcome (A : Type) :=
| Val (a : A)
| Exn (e : exn)
| Halt (h : halt_reason).
Arguments Val {A} a.
Arguments Exn {A} e.
Arguments Halt {A} h.

(** * The state and exception monad

    A member function that reads and writes an object of type [S] and returns an
    [A]. The state is kept when an exception is thrown, as in C++. *)
Definition M (S A : Type) : Type := S → outcome A * S.

#[export] Instance M_ret {S} : MRet (M S) := λ A a s, (Val a, s).

#[export] Instance M_bind {S} : MBind (M S) := λ A B k m s,
  match m s with
  | (Val a, s') => k a s'
  | (Exn e, s') => (Exn e, s')
  | (Halt h, s') => (Halt h, s')
  end.

Definition get {S} : M S S := λ s, (Val s, s).

Definition modify {S} (f : S → S) : M S unit := λ s, (Val tt, f s).

Definition throw {S A} (e : exn) : M S A := λ s, (Exn e, s).

Definition halt {S A} (h : halt_reason) : M S A := λ s, (Halt h, s).

Definition fatal {S A} (msg : string) : M S A := halt (Fatal msg).

Definition lift {S A} (o : outcome A) : M S A := λ s, (o, s).

(** [try { m } catch (e) { h e }]. *)
Definition catch {S A} (m : M S A) (h : exn → M S A) : M S A := λ s,
  match m s with
  | (Exn e, s') => h e s'
  | r => r
  end.

(** Run [k] after [m], whether it returned or threw. *)
Definition finally {S A} (m : M S A) (k : M S unit) : M S A := λ s,
  match m s with
  | (Val a, s') => (k;; mret a) s'
  | (Exn e, s') => (k;; throw e) s'
  | (Halt h, s') => (Halt h, s')
  end.

Definition when {S} (b : bool) (m : M S unit) : M S unit :=
  if b then m else mret tt.

(** Run [m] on a part of the state. *)
Definition zoom {S T A} (sel : S → T) (upd : T → S → S) (m : M T A) : M S A :=
  λ s, let '(o, t) := m (sel s) in (o, upd t s).

(** [while (true) { body }]: [None] starts the next iteration, [Some a] leaves
    the loop with [a]. *)
Fixpoint iter {S A} (fuel : nat) (body : M S (option A)) : M S A :=
  match fuel with
  | O => halt OutOfFuel
  | Datatypes.S n =>
      r ← body;
      match r with
      | Some a => mret a
      | None => iter n body
      end
  end.

(** * Reasoning about [M]: weakest preconditions *)

(** [wp m s Q]: running [m] in [s] ends in an outcome and a state that [Q]
    accepts. Total: a loop that runs out of fuel ends in [Halt OutOfFuel]. *)
Definition wp {S A} (m : M S A) (s : S) (Q : outcome A → S → Prop) : Prop :=
  Q (m s).1 (m s).2.

(** What remains to be shown after the first part of a sequence. *)
Definition seq_post {S A B} (k : A → M S B) (Q : outcome B → S → Prop)
    (o : outcome A) (s : S) : Prop :=
  match o with
  | Val a => wp (k a) s Q
  | Exn e => Q (Exn e) s
  | Halt h => Q (Halt h) s
  end.

(** What one iteration of a loop has to establish. *)
Definition iter_post {S A} (I : S → Prop) (μ : S → nat) (Q : outcome A → S → Prop)
    (s : S) (o : outcome (option A)) (s' : S) : Prop :=
  match o with
  | Val None => I s' ∧ (μ s' < μ s)%nat
  | Val (Some a) => Q (Val a) s'
  | Exn e => Q (Exn e) s'
  | Halt h => Q (Halt h) s'
  end.

Section wp_rules.
Context {S : Type}.
Implicit Types (s : S).

Lemma wp_mono {A} (m : M S A) s (P Q : outcome A → S → Prop) :
  wp m s P → (∀ o s', P o s' → Q o s') → wp m s Q.
Proof. unfold wp; eauto. Qed.

Lemma wp_conj {A} (m : M S A) s (P Q : outcome A → S → Prop) :
  wp m s P → wp m s Q → wp m s (λ o s', P o s' ∧ Q o s').
Proof. by split. Qed.

(** Running a call to a known result. *)
Lemma wp_run {A} (m : M S A) s r :
  wp m s (λ o s', (o, s') = r) → m s = r.
Proof. unfold wp. by destruct (m s). Qed.

Lemma wp_outcome {A} (m : M S A) s (Q : outcome A → S → Prop) :
  (∀ o s', (o, s') = m s → Q o s') → wp m s Q.
Proof. intros HQ. apply HQ. by destruct (m s). Qed.

(** The state after a call whose outcome is known. *)
Lemma wp_result {A} (m : M S A) s o (Q : outcome A → S → Prop) :
  wp m s Q → (m s).1 = o → Q o (m s).2.
Proof. intros HQ <-. exact HQ. Qed.

Lemma wp_run_post {A} (m : M S A) s o s' (Q : outcome A → S → Prop) :
  wp m s Q → m s = (o, s') → Q o s'.
Proof. unfold wp. by intros HQ E; rewrite E in HQ. Qed.

Lemma wp_ret {A} (a : A) s (Q : outcome A → S → Prop) :
  Q (Val a) s → wp (mret a) s Q.
Proof. done. Qed.

Lemma wp_bind {A B} (m : M S A) (k : A → M S B) s Q :
  wp m s (seq_post k Q) → wp (m ≫= k) s Q.
Proof.
  unfold wp, seq_post, mbind, M_bind. by destruct (m s) as [[a|e|h] s'].
Qed.

Lemma wp_bind_inv {A B} (m : M S A) (k : A → M S B) s Q :
  wp (m ≫= k) s Q → wp m s (seq_post k Q).
Proof.
  unfold wp, seq_post, mbind, M_bind. by destruct (m s) as [[a|e|h] s'].
Qed.

Lemma wp_get s (Q : outcome S → S → Prop) : Q (Val s) s → wp get s Q.
Proof. done. Qed.

Lemma wp_modify (f : S → S) s Q : Q (Val tt) (f s) → wp (modify f) s Q.
Proof. done. Qed.

Lemma wp_throw {A} e s (Q : outcome A → S → Prop) : Q (Exn e) s → wp (throw e) s Q.
Proof. done. Qed.

Lemma wp_halt {A} h s (Q : outcome A → S → Prop) : Q (Halt h) s → wp (halt h) s Q.
Proof. done. Qed.

Lemma wp_lift {A} o s (Q : outcome A → S → Prop) : Q o s → wp (lift o) s Q.
Proof. done. Qed.

Lemma wp_catch {A} (m : M S A) h s Q :
  wp m s (λ o s', match o with Exn e => wp (h e) s' Q | _ => Q o s' end) →
  wp (catch m h) s Q.
Proof. unfold wp, catch. by destruct (m s) as [[a|e|x] s']. Qed.

Lemma wp_when b (m : M S unit) s Q :
  (b = true → wp m s Q) → (b = false → Q (Val tt) s) → wp (when b m) s Q.
Proof.
  unfold when. destruct b; intros Ht Hf; [by apply Ht|by apply Hf].
Qed.

Lemma wp_zoom {T A} (sel : S → T) upd (m : M T A) s Q :
  wp m (sel s) (λ o t, Q o (upd t s)) → wp (zoom sel upd m) s Q.
Proof. unfold wp, zoom. by destruct (m (sel s)). Qed.

(** Total correctness of a loop: an invariant and a measure that every iteration
    decreases; any fuel above the measure is enough. *)
Lemma wp_iter {A} (I : S → Prop) (μ : S → nat) (body : M S (option A)) Q :
  (∀ s, I s → wp body s (iter_post I μ Q s)) →
  ∀ fuel s, I s → (μ s < fuel)%nat → wp (iter fuel body) s Q.
Proof.
  intros Hbody fuel. induction fuel as [|n IH]; intros s HI Hμ; [lia|].
  simpl. apply wp_bind. eapply wp_mono; [by apply Hbody|].
  intros [[a|]|e|h] s'; simpl; [done| |done|done].
  intros [HI' Hlt]. apply IH; [done|lia].
Qed.

(** The same with an invariant that carries its own bound. *)
Lemma wp_iter_indexed {A} (I : nat → S → Prop) (body : M S (option A)) Q :
  (∀ n s, I n s → wp body s (λ o s',
    match o with
    | Val None => ∃ n', (n' < n)%nat ∧ I n' s'
    | Val (Some a) => Q (Val a) s'
    | Exn e => Q (Exn e) s'
    | Halt h => Q (Halt h) s'
    end)) →
  ∀ fuel n s, I n s → (n < fuel)%nat → wp (iter fuel body) s Q.
Proof.
  intros Hbody fuel. induction fuel as [|k IH]; intros n s HI Hlt; [lia|].
  simpl. apply wp_bind. eapply wp_mono; [by apply (Hbody n)|].
  intros [[a|]|e|h] s'; simpl; [done| |done|done].
  intros (n' & Hlt' & HI'). apply (IH n'); [done|lia].
Qed.

(** Partial correctness of a loop that may never end: the invariant alone, and
    running out of fuel is one of the outcomes. *)
Lemma wp_iter_partial {A} (I : S → Prop) (body : M S (option A)) (Q : outcome A → S → Prop) :
  (∀ s, I s → Q (Halt OutOfFuel) s) →
  (∀ s, I s → wp body s (λ o s',
    match o with
    | Val None => I s'
    | Val (Some a) => Q (Val a) s'
    | Exn e => Q (Exn e) s'
    | Halt h => Q (Halt h) s'
    end)) →
  ∀ fuel s, I s → wp (iter fuel body) s Q.
Proof.
  intros Hfuel Hbody fuel. induction fuel as [|n IH]; intros s HI.
  { by apply wp_halt, Hfuel. }
  simpl. apply wp_bind. eapply wp_mono; [by apply Hbody|].
  intros [[a|]|e|h] s'; simpl; [done|apply IH|done|done].
Qed.

(** More fuel does not change a result. *)
Lemma iter_more_fuel {A} (body : M S (option A)) n m s :
  (iter n body s).1 ≠ Halt OutOfFuel → (n ≤ m)%nat → iter m body s = iter n body s.
Proof.
  revert m s. induction n as [|n IH]; intros m s Hne Hle; [done|].
  destruct m as [|m]; [lia|]. revert Hne. simpl. unfold mbind, M_bind.
  destruct (body s) as [[[a|]|e|h] s'] eqn:E; [done| |done|done].
  intros Hne. apply IH; [done|lia].
Qed.
End wp_rules.

(** * Programs that behave the same

    Two programs are equal when they have the same outcome and final state from
    every state; [bind], [catch] and [iter] respect it, so that it can be used to
    rewrite inside a program. *)
Definition meq {S A} (m1 m2 : M S A) : Prop := ∀ s, m1 s = m2 s.
Infix "≈" := meq (at level 70) : stdpp_scope.

#[export] Instance meq_equivalence {S A} : Equivalence (@meq S A).
Proof. split; [done|by intros ? ? ? ?|intros ? ? ? H1 H2 s; by rewrite H1, H2]. Qed.

#[export] Instance bind_meq {S A B} :
  Proper (pointwise_relation A meq ==> meq ==> meq) (@mbind (M S) _ A B).
Proof.
  intros k k' Hk m m' Hm s. unfold mbind, M_bind. rewrite Hm.
  destruct (m' s) as [[a|e|h] s']; [apply Hk|done|done].
Qed.

#[export] Instance catch_meq {S A} :
  Proper (meq ==> pointwise_relation exn meq ==> meq) (@catch S A).
Proof.
  intros m m' Hm h h' Hh s. unfold catch. rewrite Hm.
  destruct (m' s) as [[a|e|x] s']; [done|apply Hh|done].
Qed.

#[export] Instance iter_meq {S A} n : Proper (meq ==> meq) (@iter S A n).
Proof.
  intros m m' Hm. induction n as [|n IH]; intros s; [done|]. simpl.
  apply (bind_meq (λ r, match r with Some a => mret a | None => iter n m end)
                  (λ r, match r with Some a => mret a | None => iter n m' end)); [|done].
  intros [a|]; [done|exact IH].
Qed.

Lemma wp_meq {S A} (m m' : M S A) s Q : m ≈ m' → wp m' s Q → wp m s Q.
Proof. unfold wp. by intros ->. Qed.

(** * Programs that move the state along a relation

    However the program ends, the state afterwards is related to the one before. *)
Definition along {S A} (R : relation S) (m : M S A) : Prop := ∀ s, R s (m s).2.

Section along.
Context {S : Type} (R : relation S) `{!PreOrder R}.

Lemma along_still {A} (m : M S A) : (∀ s, (m s).2 = s) → along R m.
Proof. intros Hm s. by rewrite Hm. Qed.

Lemma along_bind {A B} (m : M S A) (k : A → M S B) :
  along R m → (∀ a, along R (k a)) → along R (m ≫= k).
Proof.
  intros Hm Hk s. specialize (Hm s). unfold mbind, M_bind.
  destruct (m s) as [[a|e|h] s']; [|done|done]. by transitivity s'; [|apply Hk].
Qed.

Lemma along_catch {A} (m : M S A) h :
  along R m → (∀ e, along R (h e)) → along R (catch m h).
Proof.
  intros Hm Hh s. specialize (Hm s). unfold catch.
  destruct (m s) as [[a|e|x] s']; [done| |done]. by transitivity s'; [|apply Hh].
Qed.

Lemma along_finally {A} (m : M S A) k : along R m → along R k → along R (finally m k).
Proof.
  intros Hm Hk s. specialize (Hm s). unfold finally.
  destruct (m s) as [[a|e|x] s']; [| |done]; (transitivity s'; [done|]);
    (apply along_bind; [done|]); intros _; by apply along_still.
Qed.

Lemma along_iter {A} n (m : M S (option A)) : along R m → along R (iter n m).
Proof.
  intros Hm. induction n as [|n IH]; simpl; [by apply along_still|].
  apply along_bind; [done|]. intros [a|]; [by apply along_still|done].
Qed.
End along.

(** * Lists *)

Lemma length_pos {A} (l : list A) : l ≠ [] ↔ (0 < length l)%nat.
Proof. destruct l; simpl; split; (done || lia). Qed.

(** Replacing one entry changes a sum by the difference. *)
Lemma sum_list_with_insert {A} (f : A → nat) xs i x y :
  xs !! i = Some x → (sum_list_with f (<[i := y]> xs) + f x = sum_list_with f xs + f y)%nat.
Proof.
  revert i. induction xs as [|z xs IH]; intros [|i] Hi; simpl in *; simplify_eq; [lia|].
  specialize (IH i Hi). lia.
Qed.

Lemma filter_all {A} (P : A → Prop) `{∀ x, Decision (P x)} l : Forall P l → filter P l = l.
Proof. induction 1; [done|]. rewrite filter_cons_True by done. by f_equal. Qed.

Lemma filter_none {A} (P : A → Prop) `{∀ x, Decision (P x)} l :
  Forall (λ x, ¬ P x) l → filter P l = [].
Proof. induction 1; [done|]. by rewrite filter_cons_False. Qed.

(** [wp_step] applies the rule of the statement at the head of the goal. *)
Ltac wp_step :=
  lazymatch goal with
  | |- wp (_ ≫= _) _ _ => apply wp_bind
  | |- wp (mret _) _ _ => apply wp_ret
  | |- wp get _ _ => apply wp_get
  | |- wp (modify _) _ _ => apply wp_modify
  | |- wp (throw _) _ _ => apply wp_throw
  | |- wp (halt _) _ _ => apply wp_halt
  | |- wp (fatal _) _ _ => apply wp_halt
  | |- wp (lift _) _ _ => apply wp_lift
  | |- wp (catch _ _) _ _ => apply wp_catch
  | |- wp (zoom _ _ _) _ _ => apply wp_zoom
  | |- wp (when _ _) _ _ => apply wp_when; intros ?
  | |- seq_post _ _ _ _ => progress simpl
  | |- wp (if ?b then _ else _) _ _ => destruct b eqn:?
  | |- wp (match ?x with _ => _ end) _ _ => destruct x eqn:?
  end.

Ltac wp_auto := repeat (wp_step; simpl).

(** Turn the boolean tests of the code into propositions. *)
Ltac bool_to_prop :=
  repeat match goal with
  | H : (_ <? _) = true |- _ => apply Z.ltb_lt in H
  | H : (_ <? _) = false |- _ => apply Z.ltb_ge in H
  | H : (_ <=? _) = true |- _ => apply Z.leb_le in H
  | H : (_ <=? _) = false |- _ => apply Z.leb_gt in H
  | H : (_ =? _) = true |- _ => apply Z.eqb_eq in H
  | H : (_ =? _) = false |- _ => apply Z.eqb_neq in H
  | H : negb _ = true |- _ => apply negb_true_iff in H
  | H : negb _ = false |- _ => apply negb_false_iff in H
  | H : _ && _ = true |- _ => apply andb_true_iff in H as [? ?]
  | H : _ || _ = false |- _ => apply orb_false_iff in H as [? ?]
  end.

(** Case analysis on a boolean test of the goal. *)
Ltac case_bool :=
  match goal with
  | |- context [if ?b then _ else _] =>
      lazymatch type of b with bool => destruct b eqn:? end
  end; simpl; bool_to_prop.
