(* ===== verification/Machine.v ===== *)
(** Machine-level data: fixed-width integers with their wrap-around, the
    little-endian bytes of a [uint32_t], and arrays accessed by [memcpy]. *)
From S2P Require Import Prelude.
Local Open Scope Z_scope.

(** * Fixed-width integers *)

Definition two16 : Z := 65536.
Definition two32 : Z := 4294967296.
Definition two64 : Z := 18446744073709551616.

(** Conversions to [uint16_t], [uint32_t], [uint64_t] (also [size_t]) and
    [int32_t]. *)
Definition u16 (z : Z) : Z := z mod 65536.
Definition u32 (z : Z) : Z := z mod 4294967296.
Definition u64 (z : Z) : Z := z mod 18446744073709551616.
Definition i32 (z : Z) : Z := (z + 2147483648) mod 4294967296 - 2147483648.
Definition i64 (z : Z) : Z := (z + 9223372036854775808) mod 18446744073709551616 - 9223372036854775808.

Lemma u16_small z : 0 ≤ z < 65536 → u16 z = z.
Proof. apply Z.mod_small. Qed.

Lemma u32_small z : 0 ≤ z < 4294967296 → u32 z = z.
Proof. apply Z.mod_small. Qed.

Lemma u64_small z : 0 ≤ z < 18446744073709551616 → u64 z = z.
Proof. apply Z.mod_small. Qed.

Lemma i32_small z : -2147483648 ≤ z < 2147483648 → i32 z = z.
Proof. unfold i32. lia. Qed.

Lemma i64_small z : -9223372036854775808 ≤ z < 9223372036854775808 → i64 z = z.
Proof. unfold i64. lia. Qed.

Lemma u32_bound z : 0 ≤ u32 z < 4294967296.
Proof. unfold u32. lia. Qed.

Lemma u64_bound z : 0 ≤ u64 z < 18446744073709551616.
Proof. unfold u64. lia. Qed.

Lemma u64_add_l a b : u64 (u64 a + b) = u64 (a + b).
Proof. apply Zplus_mod_idemp_l. Qed.

Lemma u64_sub_l a b : u64 (u64 a - b) = u64 (a - b).
Proof. apply Zminus_mod_idemp_l. Qed.

(** * Bytes *)

Definition byte_val (b : byte) : Z := Z.of_N (Byte.to_N b).

Definition byte_of (z : Z) : byte :=
  match Byte.of_N (Z.to_N (z mod 256)) with Some b => b | None => x00 end.

#[export] Instance byte_eq_dec : EqDecision byte := Byte.byte_eq_dec.

Lemma byte_val_bound b : 0 ≤ byte_val b < 256.
Proof. unfold byte_val. pose proof (Byte.to_N_bounded b). lia. Qed.

Lemma byte_val_of z : byte_val (byte_of z) = z mod 256.
Proof.
  unfold byte_of, byte_val.
  destruct (Byte.of_N (Z.to_N (z mod 256))) as [b|] eqn:E.
  - apply Byte.to_of_N in E. rewrite E. lia.
  - apply Byte.of_N_None_iff in E. lia.
Qed.

Lemma byte_of_val b : byte_of (byte_val b) = b.
Proof.
  unfold byte_of. rewrite Z.mod_small by apply byte_val_bound.
  unfold byte_val. by rewrite N2Z.id, Byte.of_to_N.
Qed.

(** The [n] low-order bytes of an integer, least significant first (the object
    representation on the little-endian hosts the library runs on), and back. *)
Fixpoint le_bytes (n : nat) (z : Z) : list byte :=
  match n with
  | O => []
  | S n' => byte_of z :: le_bytes n' (z / 256)
  end.

Fixpoint le_value (bs : list byte) : Z :=
  match bs with
  | [] => 0
  | b :: bs' => byte_val b + 256 * le_value bs'
  end.

Lemma length_le_bytes n z : length (le_bytes n z) = n.
Proof. revert z. induction n as [|n IH]; intros z; simpl; [done|]. by rewrite IH. Qed.

Lemma le_value_bytes n z : 0 ≤ z < 256 ^ Z.of_nat n → le_value (le_bytes n z) = z.
Proof.
  revert z. induction n as [|n IH]; intros z Hz; simpl; [simpl in Hz; lia|].
  rewrite Nat2Z.inj_succ, Z.pow_succ_r in Hz by lia.
  rewrite byte_val_of, IH by lia. lia.
Qed.

Lemma le_bytes_value bs : le_bytes (length bs) (le_value bs) = bs.
Proof.
  induction bs as [|b bs IH]; simpl; [done|].
  pose proof (byte_val_bound b). f_equal.
  - transitivity (byte_of (byte_val b)); [|apply byte_of_val].
    unfold byte_of. by replace ((byte_val b + 256 * le_value bs) mod 256)
      with (byte_val b mod 256) by lia.
  - by replace ((byte_val b + 256 * le_value bs) / 256) with (le_value bs) by lia.
Qed.

Lemma le_value_bound bs : 0 ≤ le_value bs < 256 ^ Z.of_nat (length bs).
Proof.
  induction bs as [|b bs IH]; simpl; [lia|]. pose proof (byte_val_bound b).
  rewrite Nat2Z.inj_succ, Z.pow_succ_r by lia. lia.
Qed.

Arguments le_bytes : simpl never.
Arguments le_value : simpl never.

(** * Arrays

    The bytes of an object, indexed from 0. [slice] and [splice] are the read
    and the write of a [memcpy]; [in_range] is the condition under which they
    stay inside the object. *)
Definition slice {A} (off n : nat) (l : list A) : list A := take n (drop off l).

Definition splice {A} (off : nat) (src l : list A) : list A :=
  take off l ++ src ++ drop (off + length src) l.

Definition in_range (off n size : Z) : bool :=
  (0 <=? off) && (0 <=? n) && (off + n <=? size).

(** [memcpy] from offset [off] of the array [l]: undefined behaviour outside it.
    A negative [n] is a huge [size_t]. *)
Definition read_slice {S A} (off n : Z) (l : list A) : M S (list A) :=
  if in_range off n (Z.of_nat (length l))
  then mret (slice (Z.to_nat off) (Z.to_nat n) l)
  else halt (UB "read outside an object").

Definition write_slice {S A} (off : Z) (src l : list A) : M S (list A) :=
  if in_range off (Z.of_nat (length src)) (Z.of_nat (length l))
  then mret (splice (Z.to_nat off) src l)
  else halt (UB "write outside an object").

(** A heap array: [None] is a byte that has not been written yet. *)
Definition cells : Type := list (option byte).

Definition uninitialised (n : Z) : cells := replicate (Z.to_nat n) None.

Definition initialised (bs : list byte) : cells := Some <$> bs.
Arguments initialised : simpl never.

(** [memset(_, 0, n)]. *)
Definition zero_bytes (n : Z) : list byte := replicate (Z.to_nat n) x00.
Arguments zero_bytes : simpl never.

Lemma in_range_spec off n size :
  in_range off n size = true ↔ 0 ≤ off ∧ 0 ≤ n ∧ off + n ≤ size.
Proof. unfold in_range. rewrite !andb_true_iff, !Z.leb_le. tauto. Qed.

Lemma length_slice {A} off n (l : list A) :
  (off + n ≤ length l)%nat → length (slice off n l) = n.
Proof. intros H. unfold slice. rewrite length_take, length_drop. lia. Qed.

Lemma length_splice {A} off (src l : list A) :
  (off + length src ≤ length l)%nat → length (splice off src l) = length l.
Proof.
  intros H. unfold splice. rewrite !length_app, length_take, length_drop. lia.
Qed.

Lemma take_splice {A} off (src l : list A) :
  (off ≤ length l)%nat → take (off + length src) (splice off src l) = take off l ++ src.
Proof.
  intros H. unfold splice. rewrite app_assoc, take_app_le.
  - apply take_ge. rewrite length_app, length_take. lia.
  - rewrite length_app, length_take. lia.
Qed.

Lemma drop_splice {A} off (src l : list A) :
  (off + length src ≤ length l)%nat →
  drop (off + length src) (splice off src l) = drop (off + length src) l.
Proof.
  intros H. unfold splice. rewrite app_assoc, drop_app_length'; [done|].
  rewrite length_app, length_take. lia.
Qed.

(** A slice followed by the rest. *)
Lemma slice_drop {A} off n (l : list A) : slice off n l ++ drop (off + n) l = drop off l.
Proof. unfold slice. rewrite <- drop_drop. apply take_drop. Qed.

Lemma slice_take {A} off n m (l : list A) :
  (off + n ≤ m)%nat → slice off n (take m l) = slice off n l.
Proof.
  intros H. unfold slice. rewrite skipn_firstn_comm, take_take. f_equal. lia.
Qed.

Lemma length_initialised bs : length (initialised bs) = length bs.
Proof. apply length_fmap. Qed.

Lemma initialised_app a b : initialised (a ++ b) = initialised a ++ initialised b.
Proof. apply fmap_app. Qed.

Lemma length_uninitialised n : length (uninitialised n) = Z.to_nat n.
Proof. apply length_replicate. Qed.

Lemma length_zero_bytes n : 0 ≤ n → Z.of_nat (length (zero_bytes n)) = n.
Proof. intros H. unfold zero_bytes. rewrite length_replicate. lia. Qed.

Section memory_wp.
Context {St : Type}.

Lemma wp_read_slice {A} off n (l : list A) (s : St) Q :
  0 ≤ off → 0 ≤ n → off + n ≤ Z.of_nat (length l) →
  Q (Val (slice (Z.to_nat off) (Z.to_nat n) l)) s →
  wp (read_slice off n l) s Q.
Proof.
  intros ??? HQ. unfold read_slice.
  by rewrite (proj2 (in_range_spec off n (Z.of_nat (length l)))).
Qed.

Lemma wp_write_slice {A} off (src l : list A) (s : St) Q :
  0 ≤ off → off + Z.of_nat (length src) ≤ Z.of_nat (length l) →
  Q (Val (splice (Z.to_nat off) src l)) s →
  wp (write_slice off src l) s Q.
Proof.
  intros ?? HQ. unfold write_slice.
  by rewrite (proj2 (in_range_spec off _ (Z.of_nat (length l)))) by lia.
Qed.
End memory_wp.

Create Rewrite HintDb ints.
#[export] Hint Rewrite u16_small u32_small u64_small i32_small using lia : ints.
#[export] Hint Rewrite @length_splice @length_slice using lia : ints.

(** Remove the wrap-around of operations that stay in range. *)
Ltac ints := autorewrite with ints in *.
