(* ===== verification/Buffer.v ===== *)
(** [buffer_t] of include/yael/network/buffer.h: the receive buffer shared by a
    socket and its message slicer. *)
From S2P Require Import Prelude Machine.
Local Open Scope Z_scope.

Definition MAX_SIZE : Z := 4096.

Record buffer_t := mkBuffer {
  m_data : list byte;
  m_position : Z;
  m_size : Z;
}.

Definition buf_reset (b : buffer_t) : buffer_t :=
  {| m_data := m_data b; m_position := -1; m_size := 0 |}.

(** The constructor leaves the array with whatever bytes [junk] the storage
    held. *)
Definition buf_new (junk : list byte) : buffer_t :=
  buf_reset {| m_data := junk; m_position := 0; m_size := 0 |}.

Definition buf_is_valid (b : buffer_t) : bool := 0 <? m_size b.

Definition buf_at_end (b : buffer_t) : bool := i32 (m_size b) <=? m_position b.

Definition buf_is_empty (b : buffer_t) : bool := m_size b =? 0.

Definition buf_advance_position (advanceby : Z) (b : buffer_t) : buffer_t :=
  {| m_data := m_data b; m_position := i32 (m_position b + advanceby); m_size := m_size b |}.

Definition buf_set_position (newpos : Z) (b : buffer_t) : buffer_t :=
  {| m_data := m_data b; m_position := newpos; m_size := m_size b |}.

Definition buf_set_size (newsize : Z) (b : buffer_t) : buffer_t :=
  {| m_data := m_data b; m_position := m_position b; m_size := u32 newsize |}.

(** Writes through the pointer [data()] returns. *)
Definition buf_set_data (bs : list byte) (b : buffer_t) : buffer_t :=
  {| m_data := bs; m_position := m_position b; m_size := m_size b |}.

(** * Well-formed buffers *)

(** Reset, or holding [m_size] bytes of which [m_position] have been read. *)
Definition buf_wf (b : buffer_t) : Prop :=
  Z.of_nat (length (m_data b)) = MAX_SIZE ∧
  ((m_size b = 0 ∧ m_position b = -1) ∨
   (0 < m_size b ≤ MAX_SIZE ∧ 0 ≤ m_position b ≤ m_size b)).

(** The bytes that have not been read yet. *)
Definition buf_rest (b : buffer_t) : list byte :=
  slice (Z.to_nat (m_position b)) (Z.to_nat (m_size b - m_position b)) (m_data b).

(** A buffer filled by a successful [recv]. *)
Definition buf_fill (bs : list byte) (b : buffer_t) : buffer_t :=
  buf_set_position 0 (buf_set_size (Z.of_nat (length bs))
    (buf_set_data (splice 0 bs (zero_bytes MAX_SIZE)) b)).

Lemma buf_reset_wf b : Z.of_nat (length (m_data b)) = MAX_SIZE → buf_wf (buf_reset b).
Proof. unfold buf_wf, buf_reset. simpl. intros H. split; [done|left; done]. Qed.

Lemma buf_valid_pos b :
  buf_wf b → buf_is_valid b = true →
  0 < m_size b ≤ MAX_SIZE ∧ 0 ≤ m_position b ≤ m_size b.
Proof. unfold buf_wf, buf_is_valid. intros [_ H] Hv. bool_to_prop. lia. Qed.

Lemma buf_at_end_spec b :
  buf_wf b → buf_at_end b = true ↔ m_size b ≤ m_position b.
Proof.
  unfold buf_wf, buf_at_end, MAX_SIZE. intros [_ H].
  rewrite Z.leb_le, i32_small by lia. done.
Qed.

Lemma length_buf_rest b :
  buf_wf b → buf_is_valid b = true →
  Z.of_nat (length (buf_rest b)) = m_size b - m_position b.
Proof.
  intros Hwf Hv. pose proof (buf_valid_pos b Hwf Hv) as H.
  destruct Hwf as [Hlen _]. unfold buf_rest. rewrite length_slice; lia.
Qed.

(** A buffer with [bs] copied to the start of its array [arr]. *)
Lemma buf_load_wf bs arr b :
  0 < Z.of_nat (length bs) ≤ MAX_SIZE → Z.of_nat (length arr) = MAX_SIZE →
  let b' := buf_set_position 0 (buf_set_size (Z.of_nat (length bs))
    (buf_set_data (splice 0 bs arr) b)) in
  buf_wf b' ∧ buf_is_valid b' = true ∧ buf_rest b' = bs.
Proof.
  intros H Harr. unfold MAX_SIZE in *. unfold buf_wf, buf_is_valid, buf_rest; simpl.
  rewrite u32_small by lia. split_and!.
  - rewrite length_splice by (simpl; lia). done.
  - right. unfold MAX_SIZE. lia.
  - apply Z.ltb_lt. lia.
  - unfold slice, splice. rewrite Z.sub_0_r, Nat2Z.id.
    change (Z.to_nat 0) with 0%nat. rewrite take_0, drop_0. simpl.
    by rewrite take_app_length.
Qed.

Lemma buf_fill_wf bs b :
  0 < Z.of_nat (length bs) ≤ MAX_SIZE →
  buf_wf (buf_fill bs b) ∧ buf_is_valid (buf_fill bs b) = true ∧
  buf_rest (buf_fill bs b) = bs.
Proof. intros H. apply buf_load_wf; [done|]. by apply length_zero_bytes. Qed.

(** Reading [n] bytes: what is read, and what is left. *)
Lemma buf_read b n :
  buf_wf b → buf_is_valid b = true → 0 ≤ n ≤ Z.of_nat (length (buf_rest b)) →
  slice (Z.to_nat (m_position b)) (Z.to_nat n) (m_data b) = take (Z.to_nat n) (buf_rest b).
Proof.
  intros Hwf Hv Hn. rewrite length_buf_rest in Hn by done.
  unfold buf_rest, slice. rewrite take_take. f_equal. lia.
Qed.

Lemma buf_advance b n :
  buf_wf b → buf_is_valid b = true → 0 ≤ n ≤ Z.of_nat (length (buf_rest b)) →
  buf_wf (buf_advance_position n b) ∧ buf_is_valid (buf_advance_position n b) = true ∧
  buf_rest (buf_advance_position n b) = drop (Z.to_nat n) (buf_rest b).
Proof.
  intros Hwf Hv Hn. pose proof (buf_valid_pos b Hwf Hv) as Hp.
  rewrite length_buf_rest in Hn by done. destruct Hwf as [Hlen _].
  unfold buf_wf, buf_is_valid, buf_rest, buf_advance_position, MAX_SIZE in *. simpl.
  rewrite i32_small by lia. split_and!; [done|lia|done|].
  unfold slice. rewrite skipn_firstn_comm, drop_drop. f_equal; [lia|f_equal; lia].
Qed.

Lemma buf_advance_0 b : buf_wf b → buf_is_valid b = true → buf_advance_position 0 b = b.
Proof.
  intros Hwf Hv. pose proof (buf_valid_pos b Hwf Hv) as H. unfold MAX_SIZE in H.
  unfold buf_advance_position. rewrite Z.add_0_r, i32_small by lia. by destruct b.
Qed.
