(* ===== verification/Framing.v ===== *)
(** The wire format of datagram mode and its reference parser.

    DatagramMessageSlicer.h documents the format as
    [<size: uint32_t> <bytes: uint8_t[]>]. This file is the specification the
    slicer is proved against: a byte-by-byte automaton that knows nothing about
    buffers, chunks or read positions. *)
From S2P Require Import Prelude Machine.
Local Open Scope Z_scope.

Definition HEADER_SIZE : Z := 4.

(** A framed message: the size field counts the header. *)
Definition encode (payload : list byte) : list byte :=
  le_bytes 4 (Z.of_nat (length payload) + HEADER_SIZE) ++ payload.
Arguments encode : simpl never.

(** Payloads that can be framed: not empty, and the size fits the field. *)
Definition sendable (payload : list byte) : Prop :=
  0 < Z.of_nat (length payload) ∧ Z.of_nat (length payload) + HEADER_SIZE < two32.

Definition encode_all (payloads : list (list byte)) : list byte :=
  concat (encode <$> payloads).

(** Where the receiver is: [got] bytes of a header, or the size field and the
    payload bytes so far. *)
Inductive pstate :=
| InHeader (got : list byte)
| InBody (size : Z) (got : list byte).

(** One byte. A size field that does not leave room for a payload is dropped. *)
Definition parse_byte (st : pstate) (b : byte) : pstate * option (list byte) :=
  match st with
  | InHeader got =>
      let got' := got ++ [b] in
      if Z.of_nat (length got') =? HEADER_SIZE then
        if le_value got' <=? HEADER_SIZE then (InHeader [], None)
        else (InBody (le_value got') [], None)
      else (InHeader got', None)
  | InBody size got =>
      let got' := got ++ [b] in
      if Z.of_nat (length got') =? size - HEADER_SIZE then (InHeader [], Some got')
      else (InBody size got', None)
  end.

(** A stream of bytes: the state after it and the messages completed in it. *)
Fixpoint parse (st : pstate) (bs : list byte) : pstate * list (list byte) :=
  match bs with
  | [] => (st, [])
  | b :: bs' =>
      let '(st1, out) := parse_byte st b in
      let '(st2, msgs) := parse st1 bs' in
      (st2, option_list out ++ msgs)
  end.

(** States between two bytes. *)
Definition pstate_wf (st : pstate) : Prop :=
  match st with
  | InHeader got => Z.of_nat (length got) < HEADER_SIZE
  | InBody size got =>
      HEADER_SIZE < size < two32 ∧ Z.of_nat (length got) < size - HEADER_SIZE
  end.

Lemma parse_app st a b :
  parse st (a ++ b) =
  ((parse (parse st a).1 b).1, (parse st a).2 ++ (parse (parse st a).1 b).2).
Proof.
  revert st. induction a as [|x a IH]; intros st; simpl.
  { by destruct (parse st b). }
  destruct (parse_byte st x) as [st1 out]. rewrite IH.
  destruct (parse st1 a) as [st2 ms]. simpl.
  destruct (parse st2 b) as [st3 ms']. simpl. by rewrite app_assoc.
Qed.

(** A run of header bytes that does not complete the header, and one that does. *)
Lemma parse_header_short got bs :
  Z.of_nat (length got) + Z.of_nat (length bs) < HEADER_SIZE →
  parse (InHeader got) bs = (InHeader (got ++ bs), []).
Proof.
  revert got. induction bs as [|b bs IH]; intros got H; simpl in *.
  { by rewrite app_nil_r. }
  assert ((Z.of_nat (length (got ++ [b])) =? HEADER_SIZE) = false) as ->.
  { apply Z.eqb_neq. rewrite length_app. simpl. lia. }
  rewrite IH by (rewrite length_app; simpl; lia).
  simpl. by rewrite <- app_assoc.
Qed.

Lemma parse_header_full got bs :
  Z.of_nat (length got) < HEADER_SIZE →
  Z.of_nat (length got) + Z.of_nat (length bs) = HEADER_SIZE →
  parse (InHeader got) bs =
  ((if le_value (got ++ bs) <=? HEADER_SIZE then InHeader []
    else InBody (le_value (got ++ bs)) []), []).
Proof.
  intros Hlt Hlen.
  destruct (exists_last (l:=bs)) as (bs' & b & ->).
  { intros ->. simpl in *. lia. }
  rewrite length_app in Hlen. simpl in Hlen.
  rewrite parse_app, parse_header_short by lia. simpl.
  assert ((Z.of_nat (length ((got ++ bs') ++ [b])) =? HEADER_SIZE) = true) as ->.
  { apply Z.eqb_eq. rewrite !length_app. simpl. lia. }
  rewrite <- app_assoc. by destruct (le_value (got ++ bs' ++ [b]) <=? HEADER_SIZE).
Qed.

(** The same for payload bytes. *)
Lemma parse_body_short size got bs :
  Z.of_nat (length got) + Z.of_nat (length bs) < size - HEADER_SIZE →
  parse (InBody size got) bs = (InBody size (got ++ bs), []).
Proof.
  revert got. induction bs as [|b bs IH]; intros got H; simpl in *.
  { by rewrite app_nil_r. }
  assert ((Z.of_nat (length (got ++ [b])) =? size - HEADER_SIZE) = false) as ->.
  { apply Z.eqb_neq. rewrite length_app. simpl. lia. }
  rewrite IH by (rewrite length_app; simpl; lia).
  simpl. by rewrite <- app_assoc.
Qed.

Lemma parse_body_full size got bs :
  Z.of_nat (length got) < size - HEADER_SIZE →
  Z.of_nat (length got) + Z.of_nat (length bs) = size - HEADER_SIZE →
  parse (InBody size got) bs = (InHeader [], [got ++ bs]).
Proof.
  intros Hlt Hlen.
  destruct (exists_last (l:=bs)) as (bs' & b & ->).
  { intros ->. simpl in *. lia. }
  rewrite length_app in Hlen. simpl in Hlen.
  rewrite parse_app, parse_body_short by lia. simpl.
  assert ((Z.of_nat (length ((got ++ bs') ++ [b])) =? size - HEADER_SIZE) = true) as ->.
  { apply Z.eqb_eq. rewrite !length_app. simpl. lia. }
  by rewrite <- app_assoc.
Qed.

Lemma parse_byte_wf st b : pstate_wf st → pstate_wf (parse_byte st b).1.
Proof.
  unfold pstate_wf, HEADER_SIZE, two32. destruct st as [got|size got]; simpl; intros H;
    rewrite length_app; simpl; unfold HEADER_SIZE.
  - case_bool; [|rewrite length_app; simpl; lia].
    case_bool; [lia|].
    pose proof (le_value_bound (got ++ [b])) as Hb. rewrite length_app in Hb.
    simpl in Hb.
    replace (length got + 1)%nat with 4%nat in Hb by lia. simpl in Hb. lia.
  - case_bool; [lia|]. rewrite length_app. simpl. lia.
Qed.

Lemma length_encode p : Z.of_nat (length (encode p)) = Z.of_nat (length p) + HEADER_SIZE.
Proof. unfold encode. rewrite length_app, length_le_bytes. unfold HEADER_SIZE. lia. Qed.

(** Parsing one framed message. *)
Lemma parse_encode_one p :
  sendable p → parse (InHeader []) (encode p) = (InHeader [], [p]).
Proof.
  unfold sendable, two32. intros [Hpos Hlt]. unfold encode. rewrite parse_app.
  rewrite parse_header_full by (rewrite ?length_le_bytes; done). simpl.
  rewrite le_value_bytes by (unfold HEADER_SIZE in *; simpl; lia).
  case_bool; [lia|].
  rewrite parse_body_full by (simpl; unfold HEADER_SIZE in *; lia). done.
Qed.

(** Parsing a sequence of framed messages gives them back in order. *)
Lemma parse_encode_all ps :
  Forall sendable ps → parse (InHeader []) (encode_all ps) = (InHeader [], ps).
Proof.
  unfold encode_all. induction 1 as [|p ps Hp Hps IH]; [done|].
  rewrite fmap_cons, concat_cons, parse_app, parse_encode_one by done. simpl. by rewrite IH.
Qed.

(** Bytes of an incomplete message seen so far, header included. *)
Definition held (st : pstate) : Z :=
  match st with
  | InHeader got => Z.of_nat (length got)
  | InBody _ got => HEADER_SIZE + Z.of_nat (length got)
  end.

(** What completed messages cost on the wire. *)
Fixpoint wire_cost (ps : list (list byte)) : Z :=
  match ps with
  | [] => 0
  | p :: ps' => HEADER_SIZE + Z.of_nat (length p) + wire_cost ps'
  end.

Lemma parse_cost st bs :
  0 ≤ held (parse st bs).1 ∧
  held (parse st bs).1 + wire_cost (parse st bs).2 ≤ held st + Z.of_nat (length bs).
Proof.
  revert st. induction bs as [|b bs IH]; intros st.
  { destruct st; simpl; unfold HEADER_SIZE; lia. }
  assert (held (parse_byte st b).1 + wire_cost (option_list (parse_byte st b).2) ≤ held st + 1)
    as Hb.
  { destruct st as [got|size got]; simpl; case_bool; try case_bool;
      rewrite ?length_app in *; simpl in *; unfold HEADER_SIZE in *; lia. }
  simpl. destruct (parse_byte st b) as [st1 out]. specialize (IH st1).
  destruct (parse st1 bs) as [st2 ms]. destruct out; simpl in *; lia.
Qed.
