(* ===== verification/Slicer.v ===== *)
(** The interface [MessageSlicer] of include/yael/network/MessageSlicer.h: what a
    socket calls (the virtual member functions) and what it relies on (the laws
    the implementations discharge in Datagram.v and Stream.v). *)
From S2P Require Import Prelude Machine Buffer.
Local Open Scope Z_scope.

(** [message_in_t]: the pointer handed to the application ([None] is a null
    pointer) and the length. *)
Record message_in_t := mkMessageIn {
  msg_data : option cells;
  msg_length : Z;
}.

Inductive MessageMode := Datagram | Stream.

#[export] Instance MessageMode_eq_dec : EqDecision MessageMode.
Proof. solve_decision. Defined.

(** The virtual member functions. [buffer()] returns a reference, hence a getter
    and a setter; [get_message] returns [None] for [false]. *)
Class MessageSlicer (T : Type) := {
  slicer_type : T → MessageMode;
  slicer_has_messages : T → bool;
  slicer_prepare_message : list byte → Z → M T (list byte * Z);
  slicer_buffer : T → buffer_t;
  slicer_set_buffer : buffer_t → T → T;
  slicer_process_buffer : M T unit;
  slicer_get_message : M T (option message_in_t);
}.

(** The message a payload is delivered as. *)
Definition delivered_message (payload : list byte) : message_in_t :=
  {| msg_data := Some (initialised payload); msg_length := Z.of_nat (length payload) |}.

(** The unread bytes of a buffer that holds data, none otherwise. *)
Definition unread (b : buffer_t) : list byte :=
  if buf_is_valid b then buf_rest b else [].

(** * The contract

    A slicer is a transducer: [view] is what it remembers of an incomplete
    message, [step] what a run of bytes does to it and which payloads it
    completes; [delivered] is the queue of payloads it holds. *)
Class SlicerLaws (T : Type) `{MessageSlicer T} := {
  view_t : Type;
  view : T → view_t;
  step : view_t → list byte → view_t * list (list byte);
  delivered : T → list (list byte);
  slicer_wf : T → Prop;

  step_nil v : step v [] = (v, []);
  wf_buffer t : slicer_wf t → buf_wf (slicer_buffer t);
  set_buffer_buffer b t : slicer_buffer (slicer_set_buffer b t) = b;
  set_buffer_twice b b' t : slicer_set_buffer b (slicer_set_buffer b' t) = slicer_set_buffer b t;
  set_buffer_wf b t :
    slicer_wf t → buf_wf b → m_position b ≤ 0 → slicer_wf (slicer_set_buffer b t);
  set_buffer_view b t : view (slicer_set_buffer b t) = view t;
  set_buffer_delivered b t : delivered (slicer_set_buffer b t) = delivered t;
  has_messages_spec t :
    slicer_wf t → slicer_has_messages t = true ↔ delivered t ≠ [];

  (** One call returns or throws a [std::exception], uses up part of the buffer
      and keeps what the bytes seen so far mean. *)
  process_buffer_spec t :
    slicer_wf t → buf_is_valid (slicer_buffer t) = true →
    wp slicer_process_buffer t (λ o t',
      (o = Val tt ∨ ∃ e, o = Exn e) ∧
      slicer_wf t' ∧
      (length (unread (slicer_buffer t')) < length (unread (slicer_buffer t)) ∨
       buf_is_valid (slicer_buffer t') = false)%nat ∧
      ∃ out, delivered t' = delivered t ++ out ∧
        step (view t) (unread (slicer_buffer t)) =
        ((step (view t') (unread (slicer_buffer t'))).1,
         out ++ (step (view t') (unread (slicer_buffer t'))).2));

  (** Outgoing data that fits a size field comes out as an array that is not
      shorter than the length that is reported: at most a header more. *)
  prepare_message_spec data len t :
    0 < len → len + 4 < two32 → len ≤ Z.of_nat (length data) →
    ∃ bs len', slicer_prepare_message data len t = (Val (bs, len'), t) ∧
      len ≤ len' ≤ len + 4 ∧ len' ≤ Z.of_nat (length bs);

  get_message_spec t :
    slicer_wf t →
    wp slicer_get_message t (λ o t',
      slicer_wf t' ∧ view t' = view t ∧ slicer_buffer t' = slicer_buffer t ∧
      match delivered t with
      | [] => o = Val None ∧ t' = t
      | p :: ps => o = Val (Some (delivered_message p)) ∧ delivered t' = ps
      end);
}.

(** Feeding chunk after chunk. *)
Fixpoint steps `{SlicerLaws T} (v : view_t) (chunks : list (list byte))
    : view_t * list (list byte) :=
  match chunks with
  | [] => (v, [])
  | c :: cs => ((steps (step v c).1 cs).1, (step v c).2 ++ (steps (step v c).1 cs).2)
  end.

Lemma unread_reset b : unread (buf_reset b) = [].
Proof. done. Qed.

Lemma unread_fill bs b :
  0 < Z.of_nat (length bs) ≤ MAX_SIZE → unread (buf_fill bs b) = bs.
Proof.
  intros H. destruct (buf_fill_wf bs b H) as (_ & Hv & Hr). unfold unread. by rewrite Hv.
Qed.

Lemma unread_invalid b : buf_is_valid b = false → unread b = [].
Proof. unfold unread. by intros ->. Qed.

Create HintDb slicer.
#[export] Hint Resolve wf_buffer set_buffer_wf : slicer.
#[export] Hint Resolve buf_reset_wf : slicer.
