(* ===== verification/Datagram.v ===== *)
(** [DatagramMessageSlicer] of src/network/DatagramMessageSlicer.h and its
    refinement of the reference parser of Framing.v. *)
From S2P Require Import Prelude Machine Buffer Framing Slicer.
Local Open Scope Z_scope.

(** * Data *)

Module Msg.
(** [DatagramMessageSlicer::message_in_t]: a message being received, header
    included in [length] and [read_pos]; [data] is the payload array or null. *)
Record t := mk {
  length : Z;
  read_pos : Z;
  data : option cells;
}.

Definition new : t := {| length := 0; read_pos := 0; data := None |}.

(** What [std::move] leaves behind. *)
Definition moved_from : t := {| length := 0; read_pos := 0; data := None |}.
End Msg.

Record DatagramMessageSlicer := mkDatagram {
  m_messages : list Msg.t;
  m_buffer : buffer_t;
  m_has_current_message : bool;
  m_current_message : Msg.t;
}.

Definition datagram_new (junk : list byte) : DatagramMessageSlicer :=
  {| m_messages := []; m_buffer := buf_new junk;
     m_has_current_message := false; m_current_message := Msg.new |}.

Definition set_m_buffer (b : buffer_t) (d : DatagramMessageSlicer) :=
  {| m_messages := m_messages d; m_buffer := b;
     m_has_current_message := m_has_current_message d;
     m_current_message := m_current_message d |}.

Definition set_m_messages (ms : list Msg.t) (d : DatagramMessageSlicer) :=
  {| m_messages := ms; m_buffer := m_buffer d;
     m_has_current_message := m_has_current_message d;
     m_current_message := m_current_message d |}.

Definition set_current (has : bool) (m : Msg.t) (d : DatagramMessageSlicer) :=
  {| m_messages := m_messages d; m_buffer := m_buffer d;
     m_has_current_message := has; m_current_message := m |}.

(** * Operations *)

Definition has_messages (d : DatagramMessageSlicer) : bool :=
  match m_messages d with [] => false | _ :: _ => true end.

Section prepare.
Context {S : Type}.

(** [realloc]: the old contents up to the smaller size, the rest uninitialised. *)
Definition realloc (ptr : cells) (size : Z) : cells :=
  take (Z.to_nat size) ptr ++ uninitialised (size - Z.of_nat (length ptr)).

(** [realloc] to make room, move the payload behind the header, write the
    header. [length + sizeof(length)] is a [uint32_t]. *)
Definition prepare_message_raw (cptr : cells) (len : Z) : M S (cells * Z) :=
  let payload_length := len in
  let len' := u32 (len + 4) in
  let ptr := realloc cptr len' in
  payload ← read_slice 0 payload_length ptr;
  ptr ← write_slice 4 payload ptr;
  ptr ← write_slice 0 (initialised (le_bytes 4 len')) ptr;
  mret (ptr, len').

(** The pointer of a [unique_ptr<uint8_t[]>] is handed to [prepare_message_raw]
    and taken back. Sending bytes nobody wrote is counted as undefined. *)
Definition prepare_message (data : list byte) (len : Z) : M S (list byte * Z) :=
  '(ptr, len') ← prepare_message_raw (initialised data) len;
  match mapM id ptr with
  | Some bs => mret (bs, len')
  | None => halt (UB "uninitialised bytes in a message")
  end.
End prepare.

Definition get_message : M DatagramMessageSlicer (option message_in_t) :=
  d ← get;
  if negb (has_messages d) then mret None else
  match m_messages d with
  | [] => halt (UB "front() of an empty list")
  | it :: rest =>
      modify (set_m_messages rest);;
      mret (Some {| msg_data := Msg.data it;
                    msg_length := u32 (Msg.length it - HEADER_SIZE) |})
  end.

(** First part of [process_buffer]: the header of the next datagram. *)
Definition read_header (msg : Msg.t) : M DatagramMessageSlicer Msg.t :=
  d ← get;
  let b := m_buffer d in
  let readlength :=
    Z.min (i32 (u32 (HEADER_SIZE - Msg.read_pos msg)))
          (i32 (u32 (m_size b - m_position b))) in
  src ← read_slice (m_position b) readlength (m_data b);
  field ← write_slice (Msg.read_pos msg) src (le_bytes 4 (Msg.length msg));
  let msg := {| Msg.length := le_value field;
                Msg.read_pos := u32 (Msg.read_pos msg + readlength);
                Msg.data := Msg.data msg |} in
  modify (set_m_buffer (buf_advance_position readlength b));;
  if Msg.read_pos msg =? HEADER_SIZE then
    if Msg.length msg <=? HEADER_SIZE then
      throw (runtime_error "Not a valid message")
    else
      mret {| Msg.length := Msg.length msg; Msg.read_pos := Msg.read_pos msg;
              Msg.data := Some (uninitialised (u32 (Msg.length msg - HEADER_SIZE))) |}
  else mret msg.

(** Second part: payload bytes; the flag is [received_full_msg]. *)
Definition read_body (msg : Msg.t) : M DatagramMessageSlicer (Msg.t * bool) :=
  d ← get;
  let b := m_buffer d in
  let readlength :=
    i32 (Z.min (u32 (Msg.length msg - Msg.read_pos msg)) (u32 (m_size b - m_position b))) in
  msg ← (if 0 <? readlength then
    match Msg.data msg with
    | None => throw (socket_error "Invalid state: message buffer not allocated")
    | Some arr =>
        src ← read_slice (m_position b) readlength (m_data b);
        arr ← write_slice (u32 (Msg.read_pos msg - HEADER_SIZE)) (initialised src) arr;
        modify (set_m_buffer (buf_advance_position readlength b));;
        mret {| Msg.length := Msg.length msg;
                Msg.read_pos := u32 (Msg.read_pos msg + readlength);
                Msg.data := Some arr |}
    end
  else mret msg);
  if Msg.length msg <? Msg.read_pos msg then
    throw (socket_error "Invalid message length")
  else if Msg.read_pos msg =? Msg.length msg then
    modify (λ d, set_m_messages (m_messages d ++ [msg]) d);;
    mret (Msg.moved_from, true)
  else mret (msg, false).

(** The message in progress is moved out of the slicer. *)
Definition take_current : M DatagramMessageSlicer Msg.t :=
  d ← get;
  if m_has_current_message d then
    modify (set_current false Msg.moved_from);;
    mret (m_current_message d)
  else mret Msg.new.

(** Last part: keep an incomplete message, reset a buffer that is used up. *)
Definition finish_buffer (msg : Msg.t) (received_full_msg : bool)
    : M DatagramMessageSlicer unit :=
  when (negb received_full_msg) (modify (set_current true msg));;
  d ← get;
  when (buf_at_end (m_buffer d)) (modify (set_m_buffer (buf_reset (m_buffer d)))).

Definition process_buffer : M DatagramMessageSlicer unit :=
  msg ← take_current;
  msg ← (if Msg.read_pos msg <? HEADER_SIZE then read_header msg else mret msg);
  '(msg, received_full_msg) ←
    (if HEADER_SIZE <=? Msg.read_pos msg then read_body msg else mret (msg, false));
  finish_buffer msg received_full_msg.

#[export] Instance datagram_slicer : MessageSlicer DatagramMessageSlicer := {
  slicer_type _ := Datagram;
  slicer_has_messages := has_messages;
  slicer_prepare_message := prepare_message;
  slicer_buffer := m_buffer;
  slicer_set_buffer := set_m_buffer;
  slicer_process_buffer := process_buffer;
  slicer_get_message := get_message;
}.

(** * Framing outgoing messages *)

Lemma mapM_initialised bs : mapM id (initialised bs) = Some bs.
Proof. unfold initialised. induction bs as [|b bs IH]; [done|]. cbn. by rewrite IH. Qed.

(** The reallocated array: the payload and four bytes of room. *)
Lemma realloc_payload data len :
  0 ≤ len ≤ Z.of_nat (length data) →
  ∃ q, realloc (initialised data) (len + 4) = initialised (take (Z.to_nat len) data) ++ q ∧
    length q = 4%nat.
Proof.
  intros Hlen. unfold realloc, initialised, uninitialised. rewrite length_fmap.
  exists (drop (Z.to_nat len) (take (Z.to_nat (len + 4)) (Some <$> data) ++
    replicate (Z.to_nat (len + 4 - Z.of_nat (length data))) None)). split.
  - rewrite fmap_take. rewrite <- (take_drop (Z.to_nat len) (take _ (Some <$> data) ++ _)) at 1.
    f_equal. rewrite take_app_le by (rewrite length_take, length_fmap; lia).
    rewrite take_take. f_equal. lia.
  - rewrite length_drop, length_app, length_take, length_fmap, length_replicate. lia.
Qed.

(** Moving the payload and writing the header. *)
Lemma splice_framing (p hdr q : cells) :
  length hdr = 4%nat → length q = 4%nat →
  splice 0 hdr (splice 4 p (p ++ q)) = hdr ++ p.
Proof.
  intros Hh Hq. unfold splice at 2. rewrite drop_ge, app_nil_r by (rewrite length_app; lia).
  unfold splice. rewrite take_0, Hh. simpl. f_equal.
  apply drop_app_length'. rewrite length_take, length_app. lia.
Qed.

(** The first [len] bytes of the caller's array, framed. *)
Lemma prepare_message_encode {T} data len (t : T) :
  0 ≤ len → len + HEADER_SIZE < two32 → len ≤ Z.of_nat (length data) →
  prepare_message data len t =
  (Val (encode (take (Z.to_nat len) data), len + HEADER_SIZE), t).
Proof.
  intros H0 H32 Hlen. unfold HEADER_SIZE, two32 in *. apply wp_run.
  destruct (realloc_payload data len) as (q & Hr & Hq); [lia|].
  set (p := take (Z.to_nat len) data) in *.
  assert (length p = Z.to_nat len) as Hp by (unfold p; rewrite length_take; lia).
  assert (length (initialised p) = Z.to_nat len) as Hi
    by (rewrite length_initialised; lia).
  unfold prepare_message, prepare_message_raw. rewrite u32_small by lia. rewrite Hr.
  wp_step. wp_step. apply wp_read_slice; [lia|lia|rewrite length_app; lia|]. simpl.
  change (Z.to_nat 0) with 0%nat. assert (slice 0 (Z.to_nat len) (initialised p ++ q) = initialised p) as ->
    by (unfold slice; rewrite drop_0; by apply take_app_length').
  wp_step. apply wp_write_slice; [lia|rewrite length_app; lia|]. simpl.
  wp_step. apply wp_write_slice; [lia| |].
  { rewrite length_splice; rewrite length_app; [|simpl; lia].
    rewrite length_initialised, length_le_bytes. lia. }
  change (Z.to_nat 0) with 0%nat. change (Z.to_nat 4) with 4%nat. simpl.
  rewrite splice_framing
    by (rewrite ?length_initialised, ?length_le_bytes; done).
  rewrite <- initialised_app. wp_step. simpl. rewrite mapM_initialised. simpl. wp_step. unfold encode, HEADER_SIZE. rewrite Hp.
  rewrite Z2Nat.id by lia. done.
Qed.

(** A length that does not leave room for the header in a [uint32_t] makes the
    reallocated array smaller than the payload. *)
Lemma prepare_message_overflow {T} data len (t : T) :
  two32 - HEADER_SIZE ≤ len < two32 →
  prepare_message data len t = (Halt (UB "read outside an object"), t).
Proof.
  intros H. unfold HEADER_SIZE, two32 in *. apply wp_run.
  unfold prepare_message, prepare_message_raw. wp_step. wp_step. unfold read_slice.
  assert (in_range 0 len (Z.of_nat (length (realloc (initialised data) (u32 (len + 4))))) = false)
    as ->; [|by wp_step].
  apply not_true_iff_false. rewrite in_range_spec. intros (_ & _ & Hr). revert Hr.
  unfold realloc, uninitialised, u32. rewrite length_app, length_take, length_replicate. lia.
Qed.

(** * Invariant and abstraction *)

(** The bytes of an array that have been written. *)
Definition written (data : option cells) : list byte := omap id (default [] data).

Lemma written_initialised p n : written (Some (initialised p ++ uninitialised n)) = p.
Proof.
  unfold written, initialised, uninitialised. simpl. rewrite omap_app.
  replace (omap id (replicate (Z.to_nat n) None)) with (@nil byte)
    by (induction (Z.to_nat n); done).
  rewrite app_nil_r. induction p as [|b p IH]; simpl; [done|]. by f_equal.
Qed.

Lemma written_all p : written (Some (initialised p)) = p.
Proof.
  pose proof (written_initialised p 0) as H. unfold uninitialised in H. simpl in H.
  by rewrite app_nil_r in H.
Qed.

(** A message in progress: part of a header, or a payload array of which the
    first [read_pos - HEADER_SIZE] bytes have been received. *)
Definition msg_wf (m : Msg.t) : Prop :=
  (0 ≤ Msg.read_pos m < HEADER_SIZE ∧ Msg.data m = None) ∨
  (HEADER_SIZE ≤ Msg.read_pos m < Msg.length m ∧ Msg.length m < two32 ∧
   ∃ got, Z.of_nat (length got) = Msg.read_pos m - HEADER_SIZE ∧
     Msg.data m = Some (initialised got ++ uninitialised (Msg.length m - Msg.read_pos m))).

Definition msg_view (m : Msg.t) : pstate :=
  if Msg.read_pos m <? HEADER_SIZE
  then InHeader (take (Z.to_nat (Msg.read_pos m)) (le_bytes 4 (Msg.length m)))
  else InBody (Msg.length m) (written (Msg.data m)).

(** A complete message and its payload. *)
Definition msg_complete (m : Msg.t) : Prop :=
  ∃ p, sendable p ∧ Msg.data m = Some (initialised p) ∧
    Msg.length m = Z.of_nat (length p) + HEADER_SIZE ∧ Msg.read_pos m = Msg.length m.

Definition datagram_wf (d : DatagramMessageSlicer) : Prop :=
  buf_wf (m_buffer d) ∧ Forall msg_complete (m_messages d) ∧
  (m_has_current_message d = true → msg_wf (m_current_message d)).

Definition datagram_view (d : DatagramMessageSlicer) : pstate :=
  if m_has_current_message d then msg_view (m_current_message d) else InHeader [].

Definition datagram_delivered (d : DatagramMessageSlicer) : list (list byte) :=
  (λ m, written (Msg.data m)) <$> m_messages d.

(** * The header *)

Lemma msg_view_header m :
  Msg.read_pos m < HEADER_SIZE →
  msg_view m = InHeader (take (Z.to_nat (Msg.read_pos m)) (le_bytes 4 (Msg.length m))).
Proof. intros H. unfold msg_view. by rewrite (proj2 (Z.ltb_lt _ _) H). Qed.

Lemma msg_view_body m :
  HEADER_SIZE ≤ Msg.read_pos m → msg_view m = InBody (Msg.length m) (written (Msg.data m)).
Proof. intros H. unfold msg_view. by rewrite (proj2 (Z.ltb_ge _ _) H). Qed.

(** Writing header bytes into the length field, seen as bytes. *)
Lemma header_splice len rp src :
  0 ≤ rp → rp + Z.of_nat (length src) ≤ 4 →
  take (Z.to_nat (rp + Z.of_nat (length src)))
    (le_bytes 4 (le_value (splice (Z.to_nat rp) src (le_bytes 4 len)))) =
  take (Z.to_nat rp) (le_bytes 4 len) ++ src.
Proof.
  intros H0 H4.
  assert (length (splice (Z.to_nat rp) src (le_bytes 4 len)) = 4%nat) as Hl.
  { rewrite length_splice; rewrite length_le_bytes; lia. }
  rewrite <- Hl at 1. rewrite le_bytes_value.
  replace (Z.to_nat (rp + Z.of_nat (length src))) with (Z.to_nat rp + length src)%nat by lia.
  apply take_splice. rewrite length_le_bytes. lia.
Qed.

(** What reading the header does: it uses [n] bytes, stops in the middle of the
    header only when the buffer is used up, and moves the parser along. *)
Definition header_post (msg : Msg.t) (d : DatagramMessageSlicer)
    (o : outcome Msg.t) (d' : DatagramMessageSlicer) : Prop :=
  let rest := buf_rest (m_buffer d) in
  let n := Z.min (HEADER_SIZE - Msg.read_pos msg) (Z.of_nat (length rest)) in
  d' = set_m_buffer (buf_advance_position n (m_buffer d)) d ∧
  match o with
  | Val msg' =>
      msg_wf msg' ∧ Msg.read_pos msg' = Msg.read_pos msg + n ∧
      parse (msg_view msg) (take (Z.to_nat n) rest) = (msg_view msg', [])
  | Exn e =>
      e = runtime_error "Not a valid message" ∧ Msg.read_pos msg + n = HEADER_SIZE ∧
      parse (msg_view msg) (take (Z.to_nat n) rest) = (InHeader [], [])
  | Halt _ => False
  end.

Lemma read_header_spec msg d :
  msg_wf msg → Msg.read_pos msg < HEADER_SIZE →
  buf_wf (m_buffer d) → buf_is_valid (m_buffer d) = true →
  wp (read_header msg) d (header_post msg d).
Proof.
  intros Hm Hrp Hwf Hv. destruct Hm as [[[Hrp0 _] Hdata]|[? _]]; [|lia].
  pose proof (buf_valid_pos _ Hwf Hv) as Hp. pose proof (length_buf_rest _ Hwf Hv) as Hlr.
  unfold header_post, read_header. set (rest := buf_rest (m_buffer d)) in *.
  unfold HEADER_SIZE, MAX_SIZE in *.
  set (n := Z.min (4 - Msg.read_pos msg) (Z.of_nat (length rest))).
  assert (Z.min (i32 (u32 (4 - Msg.read_pos msg)))
    (i32 (u32 (m_size (m_buffer d) - m_position (m_buffer d)))) = n) as Hreadlength.
  { rewrite !u32_small, !i32_small by lia. lia. }
  wp_step. wp_step. simpl. rewrite Hreadlength.
  assert (0 ≤ n ≤ Z.of_nat (length rest) ∧ n ≤ 4 - Msg.read_pos msg) as [Hn Hn4] by lia.
  wp_step. apply wp_read_slice; [lia|lia|destruct Hwf as [-> _]; unfold MAX_SIZE; lia|].
  simpl. rewrite buf_read by done. fold rest.
  assert (length (take (Z.to_nat n) rest) = Z.to_nat n) as Hsl by (rewrite length_take; lia).
  wp_step. apply wp_write_slice; [lia|rewrite length_le_bytes, Hsl; lia|].
  simpl. rewrite u32_small by lia. wp_step. wp_step. simpl.
  pose proof (header_splice (Msg.length msg) (Msg.read_pos msg) (take (Z.to_nat n) rest)) as Hhs.
  rewrite Hsl in Hhs. rewrite Z2Nat.id in Hhs by lia.
  specialize (Hhs ltac:(lia) ltac:(lia)). set (field := splice _ _ _) in *.
  assert (length (le_bytes 4 (Msg.length msg)) = 4%nat) as Hl4 by apply length_le_bytes.
  assert (length field = 4%nat) as Hf4 by (unfold field; rewrite length_splice; lia).
  rewrite msg_view_header by (unfold HEADER_SIZE; lia).
  case_bool.
  - (* the header is complete *)
    rewrite parse_header_full
      by (rewrite ?Hsl, length_take, Hl4; unfold HEADER_SIZE; lia).
    rewrite <- Hhs. rewrite take_ge by (rewrite length_le_bytes; lia).
    rewrite <- Hf4, le_bytes_value. unfold HEADER_SIZE.
    pose proof (le_value_bound field) as Hb. rewrite Hf4 in Hb. simpl in Hb.
    case_bool; wp_step; [split; [done|unfold HEADER_SIZE; split_and!; [done|lia|done]]|].
    split; [done|]. split_and!; [|simpl; lia|].
    + right. simpl. unfold HEADER_SIZE, two32. split_and!; [lia..|].
      exists []. simpl. split; [lia|].
      rewrite u32_small by lia. do 2 f_equal. lia.
    + rewrite msg_view_body by (simpl; unfold HEADER_SIZE; lia). simpl.
      do 2 f_equal. symmetry. apply (written_initialised []).
  - (* the buffer ends inside the header *)
    wp_step. split; [done|]. split_and!; [|done|].
    + left. simpl. unfold HEADER_SIZE. split; [lia|done].
    + rewrite parse_header_short
        by (rewrite ?Hsl, length_take, Hl4; unfold HEADER_SIZE; lia).
      rewrite <- Hhs, msg_view_header; [done|simpl; unfold HEADER_SIZE; lia].
Qed.

(** * The payload *)

(** Storing payload bytes behind the ones already received. *)
Lemma payload_splice got src room :
  Z.of_nat (length src) ≤ room →
  splice (length got) (initialised src) (initialised got ++ uninitialised room) =
  initialised (got ++ src) ++ uninitialised (room - Z.of_nat (length src)).
Proof.
  intros H. unfold splice, initialised, uninitialised.
  rewrite length_fmap, take_app_length' by (by rewrite length_fmap).
  rewrite fmap_app, <- !app_assoc. do 2 f_equal.
  rewrite drop_app_ge by (rewrite length_fmap; lia).
  rewrite length_fmap, drop_replicate. f_equal. lia.
Qed.

Lemma set_m_buffer_id d : set_m_buffer (m_buffer d) d = d.
Proof. by destruct d. Qed.

(** What reading payload bytes does: it uses [n] bytes and either completes the
    message, which joins the queue, or uses up the buffer. *)
Definition body_post (msg : Msg.t) (d : DatagramMessageSlicer)
    (o : outcome (Msg.t * bool)) (d' : DatagramMessageSlicer) : Prop :=
  let rest := buf_rest (m_buffer d) in
  let n := Z.min (Msg.length msg - Msg.read_pos msg) (Z.of_nat (length rest)) in
  let d1 := set_m_buffer (buf_advance_position n (m_buffer d)) d in
  match o with
  | Val (_, true) =>
      ∃ m, msg_complete m ∧ d' = set_m_messages (m_messages d ++ [m]) d1 ∧
        parse (msg_view msg) (take (Z.to_nat n) rest) = (InHeader [], [written (Msg.data m)])
  | Val (msg', false) =>
      msg_wf msg' ∧ HEADER_SIZE ≤ Msg.read_pos msg' ∧ d' = d1 ∧
      n = Z.of_nat (length rest) ∧
      parse (msg_view msg) (take (Z.to_nat n) rest) = (msg_view msg', [])
  | _ => False
  end.

(** A payload of which [got] had been received and [piece] is the next part. *)
Definition received_more (len rp : Z) (got piece : list byte) : Msg.t :=
  {| Msg.length := len; Msg.read_pos := rp + Z.of_nat (length piece);
     Msg.data := Some (initialised (got ++ piece) ++
       uninitialised (len - rp - Z.of_nat (length piece))) |}.

Lemma payload_complete len rp got piece :
  Z.of_nat (length got) = rp - HEADER_SIZE → HEADER_SIZE ≤ rp < len → len < two32 →
  rp + Z.of_nat (length piece) = len →
  msg_complete (received_more len rp got piece) ∧
  parse (InBody len got) piece =
    (InHeader [], [written (Msg.data (received_more len rp got piece))]).
Proof.
  intros Hgot Hrp H32 Hend. unfold received_more. simpl. rewrite written_initialised. split.
  - exists (got ++ piece). unfold sendable, HEADER_SIZE in *. simpl. rewrite length_app.
    replace (len - rp - Z.of_nat (length piece)) with 0 by lia.
    split_and!; [lia|lia|f_equal; apply app_nil_r|lia..].
  - by rewrite parse_body_full by (unfold HEADER_SIZE in *; lia).
Qed.

Lemma payload_partial len rp got piece :
  Z.of_nat (length got) = rp - HEADER_SIZE → HEADER_SIZE ≤ rp → len < two32 →
  rp + Z.of_nat (length piece) < len →
  msg_wf (received_more len rp got piece) ∧
  parse (InBody len got) piece = (msg_view (received_more len rp got piece), []).
Proof.
  intros Hgot Hrp H32 Hend. split.
  - right. simpl. split; [lia|]. split; [done|]. exists (got ++ piece). rewrite length_app.
    split; [lia|]. simpl. do 3 f_equal. lia.
  - rewrite parse_body_short, msg_view_body by (simpl; unfold HEADER_SIZE in *; lia). simpl.
    by rewrite written_initialised.
Qed.

Lemma read_body_spec msg d :
  msg_wf msg → HEADER_SIZE ≤ Msg.read_pos msg →
  buf_wf (m_buffer d) → buf_is_valid (m_buffer d) = true →
  wp (read_body msg) d (body_post msg d).
Proof.
  intros Hm Hrp Hwf Hv. destruct Hm as [[? _]|(Hlen & H32 & got & Hgot & Hdata)]; [lia|].
  pose proof (buf_valid_pos _ Hwf Hv) as Hp. pose proof (length_buf_rest _ Hwf Hv) as Hlr.
  unfold body_post, read_body. set (rest := buf_rest (m_buffer d)) in *.
  rewrite msg_view_body, Hdata, written_initialised by done.
  unfold HEADER_SIZE, MAX_SIZE, two32 in *.
  set (n := Z.min (Msg.length msg - Msg.read_pos msg) (Z.of_nat (length rest))).
  assert (i32 (Z.min (u32 (Msg.length msg - Msg.read_pos msg))
    (u32 (m_size (m_buffer d) - m_position (m_buffer d)))) = n) as Hreadlength.
  { rewrite !u32_small, i32_small by lia. lia. }
  assert (0 ≤ n ≤ Z.of_nat (length rest)) as Hn by lia.
  set (piece := take (Z.to_nat n) rest).
  assert (Z.of_nat (length piece) = n) as Hsl by (unfold piece; rewrite length_take; lia).
  wp_step. wp_step. simpl. rewrite Hreadlength. wp_step.
  destruct (0 <? n) eqn:Hpos; bool_to_prop.
  - wp_step. apply wp_read_slice; [lia|lia|destruct Hwf as [-> _]; unfold MAX_SIZE; lia|].
    simpl. rewrite buf_read by done. fold rest. fold piece.
    rewrite (u32_small (Msg.read_pos msg - 4)) by lia.
    wp_step. apply wp_write_slice.
    { lia. }
    { unfold initialised, uninitialised. rewrite length_app, !length_fmap.
      rewrite length_replicate. lia. }
    replace (Z.to_nat (Msg.read_pos msg - 4)) with (length got) by lia.
    rewrite payload_splice by lia.
    simpl. wp_step. wp_step. simpl. wp_step. simpl. rewrite u32_small by lia.
    case_bool; [lia|]. case_bool.
    + (* complete *)
      wp_step. wp_step. simpl. wp_step.
      destruct (payload_complete (Msg.length msg) (Msg.read_pos msg) got piece) as [Hmsg Hparse];
        [unfold HEADER_SIZE, two32; lia..|].
      unfold received_more in *. rewrite Hsl in *. by eexists.
    + (* the buffer is used up *)
      wp_step.
      destruct (payload_partial (Msg.length msg) (Msg.read_pos msg) got piece) as [Hmsg Hparse];
        [unfold HEADER_SIZE, two32; lia..|].
      unfold received_more in *. rewrite Hsl in *. split_and!; [done|simpl; lia|done|lia|done].
  - assert (n = 0) as Hn0 by lia. subst piece. rewrite !Hn0.
    wp_step. simpl. case_bool; [lia|]. case_bool; [lia|]. wp_step.
    split_and!; [|done| |lia|].
    + right. unfold HEADER_SIZE, two32. eauto.
    + by rewrite buf_advance_0, set_m_buffer_id by done.
    + simpl. rewrite msg_view_body by done. by rewrite Hdata, written_initialised.
Qed.

(** * The whole call *)

(** The postcondition of the contract, from parser state [v0], queue [del0] and
    unread bytes [rest0]: the bytes [used] are gone; a call that returns leaves
    the buffer valid only with bytes behind a completed message, one that throws
    completes none. *)
Definition process_post (v0 : pstate) (del0 : list (list byte)) (rest0 : list byte)
    (o : outcome unit) (d' : DatagramMessageSlicer) : Prop :=
  (o = Val tt ∨ (o = Exn (runtime_error "Not a valid message") ∧ datagram_view d' = InHeader [])) ∧
  datagram_wf d' ∧
  (length (unread (m_buffer d')) < length rest0 ∨
   buf_is_valid (m_buffer d') = false)%nat ∧
  ∃ out used, datagram_delivered d' = del0 ++ out ∧ (length out ≤ 1)%nat ∧
    rest0 = used ++ unread (m_buffer d') ∧ parse v0 used = (datagram_view d', out) ∧
    (o = Val tt → buf_is_valid (m_buffer d') = true → unread (m_buffer d') ≠ [] ∧ out ≠ []) ∧
    (o ≠ Val tt → out = []).

Lemma used_parse v0 rest0 used u v out :
  rest0 = used ++ u → parse v0 used = (v, out) →
  parse v0 rest0 = ((parse v u).1, out ++ (parse v u).2).
Proof. intros -> Hp. by rewrite parse_app, Hp. Qed.

Lemma unread_valid b : buf_is_valid b = true → unread b = buf_rest b.
Proof. unfold unread. by intros ->. Qed.

Lemma at_end_rest b :
  buf_wf b → buf_is_valid b = true → buf_at_end b = true ↔ buf_rest b = [].
Proof.
  intros Hwf Hv. rewrite buf_at_end_spec by done.
  pose proof (length_buf_rest b Hwf Hv) as Hl. pose proof (buf_valid_pos b Hwf Hv).
  split; intros H0.
  - destruct (buf_rest b); [done|simpl in Hl; lia].
  - rewrite H0 in Hl. simpl in Hl. lia.
Qed.

Lemma finish_buffer_spec msg full d1 v0 del0 rest0 out used :
  buf_wf (m_buffer d1) → buf_is_valid (m_buffer d1) = true →
  Forall msg_complete (m_messages d1) → m_has_current_message d1 = false →
  (full = false → msg_wf msg) →
  datagram_delivered d1 = del0 ++ out → (length out ≤ 1)%nat →
  rest0 = used ++ buf_rest (m_buffer d1) →
  parse v0 used = (if full then InHeader [] else msg_view msg, out) →
  (buf_rest (m_buffer d1) ≠ [] → out ≠ []) →
  (length (buf_rest (m_buffer d1)) < length rest0 ∨ buf_rest (m_buffer d1) = [])%nat →
  wp (finish_buffer msg full) d1 (process_post v0 del0 rest0).
Proof.
  intros Hwf Hv Hms Hhas Hmsg Hdel Hout Hused Hparse Hleft Hprog. unfold finish_buffer.
  set (d2 := if full then d1 else set_current true msg d1).
  assert (m_buffer d2 = m_buffer d1 ∧ datagram_delivered d2 = del0 ++ out ∧
          datagram_view d2 = (if full then InHeader [] else msg_view msg) ∧
          datagram_wf d2) as (Hb2 & Hd2 & Hv2 & Hwf2).
  { unfold datagram_view, datagram_wf.
    subst d2. destruct full; simpl in *; rewrite ?Hhas; split_and!; auto; congruence. }
  wp_step. apply wp_mono with (P := λ o d, o = Val tt ∧ d = d2).
  { unfold d2. by destruct full. }
  intros ? ? [-> ->]. simpl. wp_step. wp_step. simpl. rewrite Hb2. wp_step.
  - wp_step. split_and!; [by left|..]; simpl.
    + destruct Hwf2 as (_ & ? & ?). split_and!; [|done|done].
      apply buf_reset_wf, Hwf.
    + by right.
    + exists out, used. apply at_end_rest in H; [|done..]. rewrite H in Hused.
      split_and!; [done|done|done| |done|done]. rewrite Hparse, <- Hv2. done.
  - split_and!; [by left|done|..]; rewrite Hb2, unread_valid by done.
    + left. destruct Hprog as [|Hnil]; [done|]. apply (at_end_rest _ Hwf Hv) in Hnil.
      congruence.
    + assert (buf_rest (m_buffer d1) ≠ []) as Hne.
      { intros Hnil. apply (at_end_rest _ Hwf Hv) in Hnil. congruence. }
      exists out, used. rewrite Hv2. split_and!; auto; done.
Qed.

(** [process_buffer] with the message in progress in hand. *)
Lemma process_rest_spec msg d :
  msg_wf msg → m_has_current_message d = false →
  buf_wf (m_buffer d) → buf_is_valid (m_buffer d) = true →
  Forall msg_complete (m_messages d) → HEADER_SIZE ≤ Msg.read_pos msg →
  ∀ v0 rest0 used0,
  rest0 = used0 ++ buf_rest (m_buffer d) → parse v0 used0 = (msg_view msg, []) →
  wp ('(msg, full) ← read_body msg; finish_buffer msg full) d
    (process_post v0 (datagram_delivered d) rest0).
Proof.
  intros Hm Hhas Hwf Hv Hms Hrp v0 rest0 used0 Hrest0 Hparse.
  wp_step. eapply wp_mono; [by apply read_body_spec|].
  set (rest := buf_rest (m_buffer d)) in *.
  set (n := Z.min (Msg.length msg - Msg.read_pos msg) (Z.of_nat (length rest))).
  assert (0 ≤ n ≤ Z.of_nat (length rest) ∧ (rest ≠ [] → 0 < n)) as [Hn Hn0].
  { destruct Hm as [[? _]|[? _]]; [lia|]. split; [lia|]. intros ?%length_pos. lia. }
  destruct (buf_advance (m_buffer d) n Hwf Hv Hn) as (Hwf1 & Hv1 & Hrest1).
  set (left := drop (Z.to_nat n) rest) in *.
  assert (length left < length rest0 ∨ left = [])%nat as Hprog.
  { destruct (decide (rest = [])) as [Hnil|Hne]; [right; unfold left; rewrite Hnil; apply drop_nil|].
    left. rewrite Hrest0, length_app. unfold left. rewrite length_drop.
    specialize (Hn0 Hne). apply length_pos in Hne. lia. }
  assert (rest0 = (used0 ++ take (Z.to_nat n) rest) ++ left) as Hused.
  { unfold left. by rewrite <- app_assoc, take_drop. }
  assert (∀ v out, parse (msg_view msg) (take (Z.to_nat n) rest) = (v, out) →
    parse v0 (used0 ++ take (Z.to_nat n) rest) = (v, out)) as Hpused.
  { intros v out Hp. rewrite parse_app, Hparse. simpl. by rewrite Hp. }
  intros [[m' [|]]|e|h] d'; simpl; try done; fold rest; fold n.
  - intros (m & Hm' & -> & Hp%Hpused).
    apply finish_buffer_spec with (out := [written (Msg.data m)])
      (used := used0 ++ take (Z.to_nat n) rest); simpl;
      rewrite ?Hrest1; try done.
    + apply Forall_app_2; [done|]. by constructor.
    + unfold datagram_delivered. simpl. by rewrite fmap_app.
  - intros (Hm' & _ & -> & Hn' & Hp%Hpused).
    apply finish_buffer_spec with (out := []) (used := used0 ++ take (Z.to_nat n) rest); simpl;
      rewrite ?Hrest1; try done.
    + by rewrite app_nil_r.
    + lia.
    + intros Hne. exfalso. apply Hne, length_zero_iff_nil. rewrite length_drop. fold rest. lia.
Qed.

(** Entry: the message in progress, moved out, accounts for the view. *)
Lemma take_current_spec d :
  datagram_wf d →
  wp take_current d (λ o d', ∃ msg, o = Val msg ∧ msg_wf msg ∧
    msg_view msg = datagram_view d ∧ m_has_current_message d' = false ∧
    m_buffer d' = m_buffer d ∧ m_messages d' = m_messages d).
Proof.
  intros (Hwf & Hms & Hcur). unfold take_current, datagram_view.
  wp_step. wp_step. simpl. destruct (m_has_current_message d) eqn:Hhas.
  - wp_step. wp_step. simpl. wp_step. eexists. by split_and!; auto.
  - wp_step. exists Msg.new. split_and!; try done. left. by simpl.
Qed.

Lemma datagram_process_buffer_spec d :
  datagram_wf d → buf_is_valid (m_buffer d) = true →
  wp process_buffer d
    (process_post (datagram_view d) (datagram_delivered d) (unread (m_buffer d))).
Proof.
  intros Hwfd Hv. pose proof Hwfd as (Hwf & Hms & _). rewrite unread_valid by done.
  unfold process_buffer. wp_step. eapply wp_mono; [by apply take_current_spec|].
  intros ? d0 (msg & -> & Hm & <- & Hhas & Hb & Hmsgs). simpl.
  assert (datagram_delivered d = datagram_delivered d0) as ->
    by (unfold datagram_delivered; by rewrite Hmsgs).
  rewrite <- Hb in *. rewrite <- Hmsgs in Hms. clear Hb Hmsgs Hwfd.
  destruct (Msg.read_pos msg <? HEADER_SIZE) eqn:Hrp; bool_to_prop.
  2:{ wp_step. wp_step. simpl. rewrite (proj2 (Z.leb_le _ _) Hrp).
      by apply process_rest_spec with (used0 := []). }
  wp_step. eapply wp_mono; [by apply read_header_spec|].
  unfold header_post. set (rest := buf_rest (m_buffer d0)).
  set (n := Z.min (HEADER_SIZE - Msg.read_pos msg) (Z.of_nat (length rest))).
  assert (0 ≤ n ≤ Z.of_nat (length rest)) as Hn by lia.
  destruct (buf_advance (m_buffer d0) n Hwf Hv Hn) as (Hwf1 & Hv1 & Hrest1). fold rest in Hrest1.
  intros [msg'|e|h] d1 [-> Ho]; [|destruct Ho as (-> & Hfull & Hp)|done]; simpl.
  - (* the header bytes are in *)
    destruct Ho as (Hm' & Hrp' & Hp).
    destruct (HEADER_SIZE <=? Msg.read_pos msg') eqn:Hrp''; bool_to_prop.
    + change (datagram_delivered d0) with (datagram_delivered
        (set_m_buffer (buf_advance_position n (m_buffer d0)) d0)).
      apply process_rest_spec with (used0 := take (Z.to_nat n) rest); simpl;
        rewrite ?Hrest1; try done. by rewrite take_drop.
    + assert (drop (Z.to_nat n) rest = []) as Hnil.
      { apply length_zero_iff_nil. rewrite length_drop. lia. }
      wp_step. wp_step. simpl.
      eapply finish_buffer_spec with (out := []) (used := take (Z.to_nat n) rest); simpl;
        rewrite ?Hrest1; try done.
      * by rewrite app_nil_r.
      * lia.
      * by rewrite take_drop.
      * by right.
  - (* a size field without room for a payload *)
    split_and!; [right|..]; simpl.
    + unfold datagram_view. simpl. by rewrite Hhas.
    + split_and!; simpl; [done|done|congruence].
    + left. rewrite unread_valid, Hrest1, length_drop by done. lia.
    + exists [], (take (Z.to_nat n) rest). rewrite unread_valid, Hrest1, take_drop by done.
      split_and!; [by rewrite app_nil_r|simpl; lia|done| |done|done]. rewrite Hp.
      unfold datagram_view. simpl. by rewrite Hhas.
Qed.

Lemma datagram_get_message_spec d :
  datagram_wf d →
  wp get_message d (λ o d',
    datagram_wf d' ∧ datagram_view d' = datagram_view d ∧ m_buffer d' = m_buffer d ∧
    match datagram_delivered d with
    | [] => o = Val None ∧ d' = d
    | p :: ps => o = Val (Some (delivered_message p)) ∧ datagram_delivered d' = ps
    end).
Proof.
  intros Hwfd. pose proof Hwfd as (Hwf & Hms & Hcur).
  unfold get_message, datagram_delivered, has_messages. wp_step. wp_step. simpl.
  destruct (m_messages d) as [|m ms] eqn:E; simpl; [by wp_step|].
  wp_step. wp_step. simpl. wp_step.
  inversion_clear Hms as [|? ? (p & [Hp0 Hp1] & Hdata & Hlen & _) Hms']. split_and!; try done.
  rewrite Hdata, Hlen. unfold delivered_message, HEADER_SIZE, two32 in *.
  rewrite u32_small by lia. replace (Z.of_nat (length p) + 4 - 4) with (Z.of_nat (length p)) by lia.
  by rewrite written_all.
Qed.

#[export] Program Instance datagram_laws : SlicerLaws DatagramMessageSlicer := {
  view_t := pstate;
  view := datagram_view;
  step := parse;
  delivered := datagram_delivered;
  slicer_wf := datagram_wf;
}.
Next Obligation. done. Qed.
Next Obligation. intros d H. apply H. Qed.
Next Obligation. done. Qed.
Next Obligation. done. Qed.
Next Obligation. intros b d (_ & ? & ?) ? _. by split_and!. Qed.
Next Obligation. done. Qed.
Next Obligation. done. Qed.
Next Obligation.
  intros d _. simpl. unfold has_messages, datagram_delivered.
  by destruct (m_messages d).
Qed.
Next Obligation.
  intros d Hwf Hv. eapply wp_mono; [by apply datagram_process_buffer_spec|].
  intros o d' (Ho & ? & ? & out & used & ? & _ & Hu & Hp & _). split_and!; [|done..|].
  - destruct Ho as [->|[-> _]]; eauto.
  - exists out. split; [done|]. by eapply used_parse.
Qed.
Next Obligation.
  intros data len t H0 H32 Hlen. exists (encode (take (Z.to_nat len) data)), (len + HEADER_SIZE).
  split; [apply prepare_message_encode; unfold HEADER_SIZE; lia|].
  rewrite length_encode, length_take. unfold HEADER_SIZE. lia.
Qed.
Next Obligation. apply datagram_get_message_spec. Qed.

Lemma datagram_new_wf junk :
  Z.of_nat (length junk) = MAX_SIZE → datagram_wf (datagram_new junk).
Proof. intros H. split_and!; [by apply buf_reset_wf|constructor|done]. Qed.

(** * Properties *)

(** C3: on a well-formed slicer with a valid buffer, [process_buffer] never
    reads or writes outside an object: it returns, or it rejects a size field
    with no room for a payload and starts over at the next byte. It keeps the
    invariant, uses up part of the buffer (or all of it), completes at most one
    message, and what is queued plus what the remaining bytes will give is
    exactly what the reference parser makes of the bytes. *)
Theorem process_buffer_refines_parser d :
  datagram_wf d → buf_is_valid (m_buffer d) = true →
  wp process_buffer d (λ o d',
    (o = Val tt ∨
     (o = Exn (runtime_error "Not a valid message") ∧ datagram_view d' = InHeader [])) ∧
    datagram_wf d' ∧
    (length (unread (m_buffer d')) < length (unread (m_buffer d)) ∨
     buf_is_valid (m_buffer d') = false)%nat ∧
    ∃ out, datagram_delivered d' = datagram_delivered d ++ out ∧ (length out ≤ 1)%nat ∧
      (parse (datagram_view d) (unread (m_buffer d))).1 =
      (parse (datagram_view d') (unread (m_buffer d'))).1 ∧
      (parse (datagram_view d) (unread (m_buffer d))).2 =
      out ++ (parse (datagram_view d') (unread (m_buffer d'))).2).
Proof.
  intros Hwf Hv. eapply wp_mono; [by apply datagram_process_buffer_spec|].
  intros o d' (? & ? & ? & out & used & ? & ? & Hu & Hp & _). split_and!; [done..|].
  exists out. rewrite (used_parse _ _ _ _ _ _ Hu Hp). by split_and!.
Qed.

(** C37: [prepare_message] of the first [len] bytes of an array gives the size
    header (little-endian, header included) followed by these bytes, leaves the
    slicer alone, and the reference parser reads the result back as exactly one
    message, the payload. *)
Theorem prepare_message_roundtrip data len (d : DatagramMessageSlicer) :
  0 < len → len + HEADER_SIZE < two32 → len ≤ Z.of_nat (length data) →
  ∃ bs, prepare_message data len d = (Val (bs, len + HEADER_SIZE), d) ∧
    Z.of_nat (length bs) = len + HEADER_SIZE ∧
    bs = le_bytes 4 (len + HEADER_SIZE) ++ take (Z.to_nat len) data ∧
    parse (InHeader []) bs = (InHeader [], [take (Z.to_nat len) data]).
Proof.
  intros H0 H32 Hlen. set (p := take (Z.to_nat len) data).
  assert (Z.of_nat (length p) = len) as Hp by (unfold p; rewrite length_take; lia).
  exists (encode p). split_and!.
  - apply prepare_message_encode; lia.
  - by rewrite length_encode, Hp.
  - unfold encode. by rewrite Hp.
  - apply parse_encode_one. unfold sendable. by rewrite Hp.
Qed.

(** C39: a payload within four bytes of 4 GiB is not rejected: the 32-bit sum
    with the header size wraps around, the array is reallocated to less than
    four bytes, and moving the payload reads outside it. *)
Theorem prepare_message_size_wraps data len (d : DatagramMessageSlicer) :
  two32 - HEADER_SIZE ≤ len < two32 → len = Z.of_nat (length data) →
  u32 (len + HEADER_SIZE) < HEADER_SIZE ∧
  prepare_message data len d = (Halt (UB "read outside an object"), d).
Proof.
  intros Hlen _. split; [unfold u32, HEADER_SIZE, two32 in *; lia|].
  by apply prepare_message_overflow.
Qed.

(** [get_message] hands out the completed payloads in the order they were
    completed, each with its own length and every byte written, and reports
    [false] exactly when [has_messages] does. *)
Theorem get_message_fifo d :
  datagram_wf d →
  (has_messages d = false → get_message d = (Val None, d)) ∧
  (has_messages d = true → ∃ p ps d', datagram_delivered d = p :: ps ∧
    get_message d = (Val (Some (delivered_message p)), d') ∧ sendable p ∧
    datagram_delivered d' = ps ∧ datagram_wf d' ∧ datagram_view d' = datagram_view d).
Proof.
  intros Hwf. pose proof (datagram_get_message_spec d Hwf) as Hspec. unfold wp in Hspec.
  destruct (get_message d) as [o d'] eqn:E. simpl in Hspec.
  destruct Hspec as (Hwf' & Hv & _ & Ho). pose proof Hwf as (_ & Hms & _).
  unfold has_messages, datagram_delivered in *.
  destruct (m_messages d) as [|m ms]; simpl in *; split; intros Hhas; try done.
  - by destruct Ho as [-> ->].
  - destruct Ho as [-> Hd]. inversion_clear Hms as [|?? (p & Hp & Hdata & _) _].
    exists (written (Msg.data m)), ((λ m0, written (Msg.data m0)) <$> ms), d'.
    split_and!; try done. by rewrite Hdata, written_all.
Qed.

(** ** Witnesses *)

(** Half a header and, in the buffer, the rest of a two-byte message. *)
Definition sample_slicer : DatagramMessageSlicer :=
  set_current true {| Msg.length := 6; Msg.read_pos := 2; Msg.data := None |}
    (set_m_buffer (buf_fill [x00; x00; x68; x69; x05] (buf_new (zero_bytes MAX_SIZE)))
      (datagram_new (zero_bytes MAX_SIZE))).

Lemma sample_slicer_wf : datagram_wf sample_slicer.
Proof.
  split_and!; simpl; [|constructor|].
  - apply buf_fill_wf. unfold MAX_SIZE. simpl. lia.
  - intros _. left. unfold HEADER_SIZE. simpl. split; [lia|done].
Qed.

Lemma process_buffer_refines_parser_witness :
  datagram_delivered (process_buffer sample_slicer).2 = [[x68; x69]] ∧
  (parse (InHeader [x06; x00]) [x00; x00; x68; x69; x05]).2 = [[x68; x69]].
Proof.
  destruct (process_buffer_refines_parser sample_slicer sample_slicer_wf eq_refl)
    as (_ & _ & _ & out & Hd & _ & _ & Hp).
  split; [by vm_compute|]. revert Hd Hp. vm_compute. congruence.
Defined.

Lemma prepare_message_roundtrip_witness :
  ∃ bs, prepare_message [x68; x69] 2 sample_slicer = (Val (bs, 6), sample_slicer) ∧
    parse (InHeader []) bs = (InHeader [], [[x68; x69]]).
Proof.
  destruct (prepare_message_roundtrip [x68; x69] 2 sample_slicer)
    as (bs & Hrun & _ & _ & Hp); [lia|done|simpl; lia|]. by exists bs.
Defined.

Lemma prepare_message_size_wraps_witness :
  ∃ data, Z.of_nat (length data) = two32 - 1 ∧
    prepare_message data (two32 - 1) sample_slicer =
    (Halt (UB "read outside an object"), sample_slicer).
Proof.
  assert (∃ data : list byte, Z.of_nat (length data) = two32 - 1) as [data Hl].
  { exists (zero_bytes (two32 - 1)). apply length_zero_bytes. unfold two32; lia. }
  exists data. split; [done|].
  refine (proj2 (prepare_message_size_wraps data (two32 - 1) sample_slicer _ (eq_sym Hl))).
  unfold HEADER_SIZE, two32; lia.
Defined.

Lemma get_message_fifo_witness :
  let d := (process_buffer sample_slicer).2 in
  datagram_wf d ∧ ∃ d', get_message d = (Val (Some (delivered_message [x68; x69])), d').
Proof.
  intros d. assert (datagram_wf d) as Hwf.
  { apply (datagram_process_buffer_spec sample_slicer sample_slicer_wf eq_refl). }
  split; [done|]. destruct (proj2 (get_message_fifo d Hwf) eq_refl) as (p & ps & d' & Hd & Hg & _).
  vm_compute in Hd. injection Hd as <- <-. by exists d'.
Defined.
