(* ===== verification/Stream.v ===== *)
(** [StreamMessageSlicer] of src/network/StreamMessageSlicer.h: every received
    chunk is a message. *)
From S2P Require Import Prelude Machine Buffer Slicer.
Local Open Scope Z_scope.

Record StreamMessageSlicer := mkStream {
  m_messages : list message_in_t;
  m_buffer : buffer_t;
}.

Definition stream_new (junk : list byte) : StreamMessageSlicer :=
  {| m_messages := []; m_buffer := buf_new junk |}.

Definition set_m_buffer (b : buffer_t) (t : StreamMessageSlicer) :=
  {| m_messages := m_messages t; m_buffer := b |}.

Definition set_m_messages (ms : list message_in_t) (t : StreamMessageSlicer) :=
  {| m_messages := ms; m_buffer := m_buffer t |}.

Definition has_messages (t : StreamMessageSlicer) : bool :=
  match m_messages t with [] => false | _ :: _ => true end.

(** Outgoing data is not touched. *)
Definition prepare_message_raw {S} (cptr : cells) (len : Z) : M S (cells * Z) :=
  mret (cptr, len).

Definition prepare_message {S} (data : list byte) (len : Z) : M S (list byte * Z) :=
  mret (data, len).

Definition get_message : M StreamMessageSlicer (option message_in_t) :=
  t ← get;
  if negb (has_messages t) then mret None else
  match m_messages t with
  | [] => halt (UB "front() of an empty list")
  | it :: rest =>
      modify (set_m_messages rest);;
      mret (Some {| msg_data := msg_data it; msg_length := msg_length it |})
  end.

Definition process_buffer : M StreamMessageSlicer unit :=
  t ← get;
  let b := m_buffer t in
  if buf_is_empty b then mret tt else
  let length := m_size b in
  src ← read_slice 0 length (m_data b);
  arr ← write_slice 0 (initialised src) (uninitialised length);
  modify (λ t, set_m_messages
    (m_messages t ++ [{| msg_data := Some arr; msg_length := length |}]) t);;
  modify (set_m_buffer (buf_reset b)).

#[export] Instance stream_slicer : MessageSlicer StreamMessageSlicer := {
  slicer_type _ := Stream;
  slicer_has_messages := has_messages;
  slicer_prepare_message := prepare_message;
  slicer_buffer := m_buffer;
  slicer_set_buffer := set_m_buffer;
  slicer_process_buffer := process_buffer;
  slicer_get_message := get_message;
}.

(** * The contract *)

Definition stream_wf (t : StreamMessageSlicer) : Prop :=
  buf_wf (m_buffer t) ∧ m_position (m_buffer t) ≤ 0 ∧
  ∃ ps : list (list byte), m_messages t = delivered_message <$> ps.

Definition payload_of (m : message_in_t) : list byte := omap id (default [] (msg_data m)).

Definition stream_delivered (t : StreamMessageSlicer) : list (list byte) :=
  payload_of <$> m_messages t.

(** One chunk, one message. *)
Definition stream_step (v : unit) (bs : list byte) : unit * list (list byte) :=
  (tt, match bs with [] => [] | _ :: _ => [bs] end).

Lemma payload_of_delivered p : payload_of (delivered_message p) = p.
Proof.
  unfold payload_of, delivered_message, initialised. simpl.
  induction p as [|b p IH]; simpl; [done|]. by f_equal.
Qed.

Lemma payloads_of_delivered (ps : list (list byte)) : payload_of <$> (delivered_message <$> ps) = ps.
Proof.
  rewrite <- list_fmap_compose. rewrite <- (list_fmap_id ps) at 2.
  apply list_fmap_ext. intros i p _. apply payload_of_delivered.
Qed.

Lemma stream_process_buffer_spec t :
  stream_wf t → buf_is_valid (m_buffer t) = true →
  wp process_buffer t (λ o t', o = Val tt ∧ stream_wf t' ∧
    buf_is_valid (m_buffer t') = false ∧
    stream_delivered t' = stream_delivered t ++ [unread (m_buffer t)]).
Proof.
  intros (Hwf & Hpos & ps & Hms) Hv. pose proof (buf_valid_pos _ Hwf Hv) as Hp.
  unfold unread. rewrite Hv. unfold buf_rest.
  replace (m_position (m_buffer t)) with 0 by lia. rewrite Z.sub_0_r.
  destruct Hwf as [Hlen _]. unfold MAX_SIZE in *.
  unfold process_buffer, buf_is_empty. wp_step. wp_step. simpl.
  rewrite (proj2 (Z.eqb_neq (m_size (m_buffer t)) 0)) by lia.
  wp_step. apply wp_read_slice; [lia..|]. simpl.
  set (src := slice _ _ _).
  assert (length src = Z.to_nat (m_size (m_buffer t))) as Hsrc
    by (unfold src; rewrite length_slice; lia).
  wp_step. apply wp_write_slice; [lia|rewrite length_initialised, length_uninitialised; lia|].
  change (Z.to_nat 0) with 0%nat. unfold splice. rewrite take_0. simpl.
  rewrite drop_ge, app_nil_r by (rewrite length_initialised, length_uninitialised; lia).
  wp_step. wp_step. wp_step. split_and!; [done| |done|].
  - split_and!; [by apply buf_reset_wf|done|].
    exists (ps ++ [src]). rewrite Hms, fmap_app. simpl. unfold delivered_message at 3.
    rewrite Hsrc. do 4 f_equal. lia.
  - unfold stream_delivered. simpl. rewrite fmap_app. simpl. do 2 f_equal.
    pose proof (payload_of_delivered src) as Hd. unfold delivered_message in Hd.
    rewrite Hsrc, Z2Nat.id in Hd by lia. done.
Qed.

Lemma stream_get_message_spec t :
  stream_wf t →
  wp get_message t (λ o t', stream_wf t' ∧ m_buffer t' = m_buffer t ∧
    match stream_delivered t with
    | [] => o = Val None ∧ t' = t
    | p :: ps => o = Val (Some (delivered_message p)) ∧ stream_delivered t' = ps
    end).
Proof.
  intros (Hwf & Hpos & ps & Hms). unfold stream_delivered, get_message, has_messages.
  wp_step. wp_step. simpl. rewrite Hms, payloads_of_delivered.
  destruct ps as [|p ps]; simpl.
  { wp_step. split; [|done]. split_and!; [done|done|by exists []]. }
  wp_step. wp_step. wp_step. split; [by split_and!; [..|exists ps]|].
  split_and!; [done|done|apply payloads_of_delivered].
Qed.

#[export] Program Instance stream_laws : SlicerLaws StreamMessageSlicer := {
  view_t := unit;
  view _ := tt;
  step := stream_step;
  delivered := stream_delivered;
  slicer_wf := stream_wf;
}.
Next Obligation. by intros []. Qed.
Next Obligation. intros t H. apply H. Qed.
Next Obligation. done. Qed.
Next Obligation. done. Qed.
Next Obligation. intros b t (_ & _ & ?) ??. split_and!; done. Qed.
Next Obligation. done. Qed.
Next Obligation. done. Qed.
Next Obligation.
  intros t _. simpl. unfold has_messages, stream_delivered. by destruct (m_messages t).
Qed.
Next Obligation.
  intros t Hwf Hv. simpl. eapply wp_mono; [by apply stream_process_buffer_spec|].
  intros o t' (-> & Hwf' & Hv' & Hd). split_and!; [by left|done|by right|].
  exists [unread (m_buffer t)]. split; [done|]. rewrite (unread_invalid (m_buffer t')) by done.
  simpl. unfold stream_step. destruct (unread (m_buffer t)) as [|x l] eqn:E; [|done].
  exfalso. pose proof (length_buf_rest (m_buffer t) (proj1 Hwf) Hv) as Hl.
  pose proof (buf_valid_pos _ (proj1 Hwf) Hv). destruct Hwf as (_ & Hp & _).
  simpl in *. unfold unread in E. rewrite Hv in E. rewrite E in Hl. simpl in Hl. lia.
Qed.
Next Obligation.
  intros data len t H0 H32 Hlen. exists data, len. split; [done|lia].
Qed.
Next Obligation.
  intros t Hwf. simpl. eapply wp_mono; [by apply stream_get_message_spec|].
  intros o t' (? & ? & ?). by split_and!.
Qed.

Lemma stream_new_wf junk :
  Z.of_nat (length junk) = MAX_SIZE → stream_wf (stream_new junk).
Proof. intros H. split_and!; [by apply buf_reset_wf|done|by exists []]. Qed.

(** * Properties *)

(** In stream mode a received chunk becomes exactly one message: after a
    [recv] into the buffer, [process_buffer] queues the whole chunk behind the
    messages already there and resets the buffer; outgoing data is passed on
    unchanged. *)
Theorem stream_chunk_is_message c b t :
  stream_wf t → buf_is_valid (m_buffer t) = false → 0 < Z.of_nat (length c) ≤ MAX_SIZE →
  wp process_buffer (set_m_buffer (buf_fill c b) t) (λ o t',
    o = Val tt ∧ stream_wf t' ∧ buf_is_valid (m_buffer t') = false ∧
    m_messages t' = m_messages t ++ [delivered_message c]) ∧
  ∀ len, prepare_message c len t = (Val (c, len), t).
Proof.
  intros (_ & _ & ps & Hms) _ Hc. split; [|done].
  destruct (buf_fill_wf c b Hc) as (Hwf & Hv & _).
  eapply wp_mono; [apply stream_process_buffer_spec; [|done]|].
  { split_and!; [done|done|by exists ps]. }
  intros o t' (-> & Hwf' & Hv' & Hd). split_and!; [done..|].
  pose proof Hwf' as (_ & _ & ps' & Hms'). revert Hd. unfold stream_delivered.
  rewrite Hms'. simpl. rewrite Hms, !payloads_of_delivered, unread_fill by done.
  intros ->. by rewrite fmap_app.
Qed.

Lemma stream_chunk_is_message_witness :
  m_messages (process_buffer (set_m_buffer (buf_fill [x68; x69] (buf_new []))
    (stream_new (zero_bytes MAX_SIZE)))).2 = [delivered_message [x68; x69]].
Proof.
  apply (stream_chunk_is_message [x68; x69] (buf_new []) (stream_new (zero_bytes MAX_SIZE)));
    [by apply stream_new_wf|done|unfold MAX_SIZE; simpl; lia].
Defined.
