(* ===== verification/Inet.v ===== *)
(** Socket addresses: [Address] of include/yael/network/Address.h and
    src/network/Address.cpp, over the C library's address functions. *)
From Stdlib Require Import Strings.Ascii.
From stdpp Require Import pretty.
From S2P Require Import Prelude Machine.
Local Open Scope Z_scope.

(** * What <netinet/in.h>, <arpa/inet.h> and <netdb.h> provide *)

(** Ports are kept in network byte order in these structures. *)
Record sockaddr_in := mkSockaddrIn { sin_port : Z; sin_addr : list byte }.

Record sockaddr_in6 := mkSockaddrIn6 {
  sin6_port : Z;
  sin6_flowinfo : list byte;
  sin6_addr : list byte;
}.

Inductive sockaddr :=
| SaIn (a : sockaddr_in)
| SaIn6 (a : sockaddr_in6).

(** [reinterpret_cast] of a socket address: the port is at the same place in
    both structures, the four address bytes of [sockaddr_in] overlay the flow
    information of [sockaddr_in6]. [tail] is what follows a [sockaddr_in] in
    memory. *)
Definition as_sockaddr_in (sa : sockaddr) : sockaddr_in :=
  match sa with
  | SaIn a => a
  | SaIn6 a => {| sin_port := sin6_port a; sin_addr := sin6_flowinfo a |}
  end.

Definition as_sockaddr_in6 (tail : list byte) (sa : sockaddr) : sockaddr_in6 :=
  match sa with
  | SaIn a => {| sin6_port := sin_port a; sin6_flowinfo := sin_addr a; sin6_addr := tail |}
  | SaIn6 a => a
  end.

(** [htons] and [ntohs] on a little-endian host. *)
Definition htons (port : Z) : Z := u16 (port mod 256 * 256 + port / 256).

Lemma htons_htons p : 0 ≤ p < 65536 → htons (htons p) = p.
Proof. unfold htons, u16. lia. Qed.

Lemma htons_bound p : 0 ≤ htons p < 65536.
Proof. unfold htons, u16. lia. Qed.

Inductive family := AF_INET | AF_INET6 | AF_OTHER.

#[export] Instance family_eq_dec : EqDecision family.
Proof. solve_decision. Defined.

Record addrinfo := mkAddrinfo { ai_family : family; ai_addr : sockaddr }.

(** Text and binary addresses ([true] is IPv6) and host name lookup, whose error
    is the text of [gai_strerror]. *)
Class Inet := {
  ntop : bool → list byte → string;
  pton : bool → string → option (list byte);
  getaddrinfo : string → list addrinfo + string;
}.

Definition addr_size (v6 : bool) : nat := if v6 then 16 else 4.

(** Documented behaviour: a printed address is read back, and the dotted form of
    an IPv4 address has at most 15 characters. *)
Class InetLaws `{Inet} := {
  pton_ntop v6 a : length a = addr_size v6 → pton v6 (ntop v6 a) = Some a;
  ntop4_length a : length a = addr_size false → (String.length (ntop false a) ≤ 15)%nat;
}.

(** [inet_ntop] with a destination of [size] bytes: null when the text and its
    terminator do not fit. *)
Definition inet_ntop `{Inet} (v6 : bool) (a : list byte) (size : Z) : option string :=
  if Z.of_nat (String.length (ntop v6 a)) + 1 <=? size then Some (ntop v6 a) else None.

(** * Address *)

Record Address := mkAddress { IP : string; PortNumber : Z; IPv6 : bool }.

#[export] Instance Address_eq_dec : EqDecision Address.
Proof. solve_decision. Defined.

Definition InvalidPort : Z := 0.

Definition Address_default : Address :=
  {| IP := ""; PortNumber := InvalidPort; IPv6 := false |}.

Definition valid (a : Address) : bool :=
  (0 <? Z.of_nat (String.length (IP a))) && negb (PortNumber a =? 0).

Definition equals (a other : Address) : bool :=
  if negb (PortNumber other =? PortNumber a) then false
  else if negb (Bool.eqb (IPv6 other) (IPv6 a)) then false
  else if negb (String.eqb (IP other) (IP a)) then false
  else true.

(** [operator!=] *)
Definition differs (a other : Address) : bool := negb (equals a other).

(** [operator<<] *)
Definition print_Address (a : Address) : string := IP a +:+ ":" +:+ pretty (PortNumber a).

Definition reset (a : Address) : Address :=
  {| IP := ""; PortNumber := InvalidPort; IPv6 := IPv6 a |}.

Section address.
Context `{Inet}.

Definition Address_of_in6 (addr : sockaddr_in6) : outcome Address :=
  match inet_ntop true (sin6_addr addr) 25 with
  | None => Exn (runtime_error "invalid sock address")
  | Some ip_as_string =>
      Val {| IP := ip_as_string; PortNumber := htons (sin6_port addr); IPv6 := true |}
  end.

Definition Address_of_in (addr : sockaddr_in) : outcome Address :=
  match inet_ntop false (sin_addr addr) 16 with
  | None => Exn (runtime_error "invalid sock address")
  | Some ip_as_string =>
      Val {| IP := ip_as_string; PortNumber := htons (sin_port addr); IPv6 := false |}
  end.

(** Both fill in the structure they are given; [inet_pton] leaves the address
    bytes alone when the text is not an address. *)
Definition get_sock_address6 (a : Address) (addr : sockaddr_in6) : bool * sockaddr_in6 :=
  if negb (IPv6 a) then (false, addr) else
  (true, {| sin6_port := htons (PortNumber a);
            sin6_flowinfo := sin6_flowinfo addr;
            sin6_addr := default (sin6_addr addr) (pton true (IP a)) |}).

Definition get_sock_address (a : Address) (addr : sockaddr_in) : bool * sockaddr_in :=
  if IPv6 a then (false, addr) else
  (true, {| sin_port := htons (PortNumber a);
            sin_addr := default (sin_addr addr) (pton false (IP a)) |}).

(** The loop over the list [getaddrinfo] returns; [tail] is the memory behind
    an entry shorter than a [sockaddr_in6]. *)
Fixpoint find_address (want_v6 : bool) (tail : list byte) (hosts : list addrinfo)
    (address : Address) : outcome Address :=
  match hosts with
  | [] => Val address
  | hosti :: rest =>
      if (want_v6 && negb (bool_decide (ai_family hosti = AF_INET6))) ||
         (negb want_v6 && bool_decide (ai_family hosti = AF_INET6))
      then find_address want_v6 tail rest address
      else if want_v6 then Address_of_in6 (as_sockaddr_in6 tail (ai_addr hosti))
      else Address_of_in (as_sockaddr_in (ai_addr hosti))
  end.

Definition resolve_URL (tail : list byte) (url : string) (port_number : Z) (v6 : bool)
    : outcome Address :=
  match getaddrinfo url with
  | inr error => Exn (runtime_error ("Error getting address: " +:+ error))
  | inl host =>
      match find_address v6 tail host Address_default with
      | Val address => Val {| IP := IP address; PortNumber := port_number; IPv6 := IPv6 address |}
      | Exn e => Exn e
      | Halt h => Halt h
      end
  end.
End address.

(** * A concrete C library

    Dotted decimals for IPv4 and, for IPv6, eight groups of four hexadecimal
    digits (the form without abbreviation): an instance that satisfies the laws. *)

(** Decimal digits of a byte. *)
Definition octet_text (b : byte) : string :=
  let n := byte_val b in
  let digit k := String (Ascii.ascii_of_nat (Z.to_nat (48 + k mod 10))) EmptyString in
  if n <? 10 then digit n
  else if n <? 100 then digit (n / 10) +:+ digit n
  else digit (n / 100) +:+ digit (n / 10) +:+ digit n.

Fixpoint dotted (a : list byte) : string :=
  match a with
  | [] => ""
  | [b] => octet_text b
  | b :: a' => octet_text b +:+ "." +:+ dotted a'
  end.

Definition digit_of (c : Ascii.ascii) : option Z :=
  let n := Z.of_nat (Ascii.nat_of_ascii c) in
  if (48 <=? n) && (n <=? 57) then Some (n - 48) else None.

(** Read dot-separated octets; [acc] is the octet so far, if it has a digit. *)
Fixpoint read_octets (acc : option Z) (s : string) : option (list byte) :=
  match s with
  | EmptyString =>
      match acc with
      | Some n => if n <? 256 then Some [byte_of n] else None
      | None => None
      end
  | String c s' =>
      match digit_of c with
      | Some k => read_octets (Some (default 0 acc * 10 + k)) s'
      | None =>
          if Ascii.eqb c "."%char then
            match acc with
            | Some n =>
                if n <? 256 then cons (byte_of n) <$> read_octets None s' else None
            | None => None
            end
          else None
      end
  end.

Definition hex_digit (k : Z) : Ascii.ascii :=
  Ascii.ascii_of_nat (Z.to_nat (if k <? 10 then 48 + k else 87 + k)).

Definition hex_text (b : byte) : string :=
  String (hex_digit (byte_val b / 16)) (String (hex_digit (byte_val b mod 16)) EmptyString).

Fixpoint hex_groups (a : list byte) : string :=
  match a with
  | b1 :: b2 :: ((_ :: _) as a') => hex_text b1 +:+ hex_text b2 +:+ ":" +:+ hex_groups a'
  | b1 :: b2 :: [] => hex_text b1 +:+ hex_text b2
  | _ => ""
  end.

Definition hex_value (c : Ascii.ascii) : Z :=
  let n := Z.of_nat (Ascii.nat_of_ascii c) in if n <? 58 then n - 48 else n - 87.

Fixpoint read_hex (s : string) : option (list byte) :=
  match s with
  | String c1 (String c2 s' as rest) =>
      if Ascii.eqb c1 ":"%char then read_hex rest
      else cons (byte_of (hex_value c1 * 16 + hex_value c2)) <$> read_hex s'
  | EmptyString => Some []
  | _ => None
  end.

Definition libc (lookup : string → list addrinfo + string) : Inet := {|
  ntop v6 a := if v6 then hex_groups a else dotted a;
  pton v6 s :=
    match (if v6 then read_hex s else read_octets None s) with
    | Some a => if (length a =? addr_size v6)%nat then Some a else None
    | None => None
    end;
  getaddrinfo := lookup;
|}.

Lemma read_octet b s :
  read_octets None (octet_text b +:+ "." +:+ s) = cons b <$> read_octets None s ∧
  read_octets None (octet_text b) = Some [b].
Proof. destruct b; split; reflexivity. Qed.

Lemma length_octet_text b : (String.length (octet_text b) ≤ 3)%nat.
Proof. destruct b; vm_compute; lia. Qed.

Lemma read_hex_byte b s :
  read_hex (hex_text b +:+ s) = cons b <$> read_hex s ∧ read_hex (hex_text b) = Some [b].
Proof. destruct b; split; reflexivity. Qed.

Lemma string_length_app s t :
  String.length (s +:+ t) = (String.length s + String.length t)%nat.
Proof. induction s as [|c s IH]; simpl; [done|]. by f_equal. Qed.

Lemma read_dotted a : a ≠ [] → read_octets None (dotted a) = Some a.
Proof.
  induction a as [|b a IH]; [done|]. intros _. destruct a as [|b' a].
  - apply (read_octet b "").
  - change (dotted (b :: b' :: a)) with (octet_text b +:+ "." +:+ dotted (b' :: a)).
    rewrite (proj1 (read_octet b _)), IH by done. done.
Qed.

Lemma read_hex_groups n a : length a = (2 * n)%nat → read_hex (hex_groups a) = Some a.
Proof.
  revert a. induction n as [|n IH]; intros a Hlen.
  { by destruct a. }
  destruct a as [|b1 [|b2 a]]; [simpl in Hlen; lia..|]. simpl in Hlen.
  specialize (IH a ltac:(lia)). destruct a as [|b3 a].
  - change (hex_groups [b1; b2]) with (hex_text b1 +:+ hex_text b2).
    by rewrite (proj1 (read_hex_byte b1 _)), (proj2 (read_hex_byte b2 "")).
  - change (hex_groups (b1 :: b2 :: b3 :: a))
      with (hex_text b1 +:+ (hex_text b2 +:+ (":" +:+ hex_groups (b3 :: a)))).
    rewrite (proj1 (read_hex_byte b1 _)), (proj1 (read_hex_byte b2 _)).
    assert (∀ s, s ≠ "" → read_hex (":" +:+ s) = read_hex s) as Hcolon
      by (intros [|c s]; done).
    rewrite Hcolon, IH; [done|]. intros E. by rewrite E in IH.
Qed.

Lemma libc_laws lookup : @InetLaws (libc lookup).
Proof.
  constructor.
  - intros [|] a Ha; simpl in *.
    + by rewrite (read_hex_groups 8), Ha by done.
    + rewrite read_dotted, Ha by (by intros ->). done.
  - intros a Ha. simpl in *. destruct a as [|b1 [|b2 [|b3 [|b4 [|]]]]]; try done. simpl.
    rewrite ?string_length_app; simpl; rewrite ?string_length_app; simpl;
      rewrite ?string_length_app; simpl.
    pose proof (length_octet_text b1). pose proof (length_octet_text b2).
    pose proof (length_octet_text b3). pose proof (length_octet_text b4). lia.
Qed.

(** * Properties of addresses *)

Section address_properties.
Context `{Inet} {laws : InetLaws}.

Lemma inet_ntop_spec v6 a size :
  (Z.of_nat (String.length (ntop v6 a)) < size → inet_ntop v6 a size = Some (ntop v6 a)) ∧
  (size ≤ Z.of_nat (String.length (ntop v6 a)) → inet_ntop v6 a size = None).
Proof.
  unfold inet_ntop. split; intros Hs; [rewrite (proj2 (Z.leb_le _ _)) by lia|
    rewrite (proj2 (Z.leb_gt _ _)) by lia]; done.
Qed.

(** C40: an IPv4 socket address converts to an [Address] and back without loss:
    the textual form fits the 16-byte buffer, and [get_sock_address] rebuilds
    port and address bytes over whatever the structure held. *)
Theorem sock_address_roundtrip sa :
  length (sin_addr sa) = addr_size false → 0 ≤ sin_port sa < two16 →
  ∃ a, Address_of_in sa = Val a ∧ IPv6 a = false ∧ 0 ≤ PortNumber a < two16 ∧
    (∀ sa0, get_sock_address a sa0 = (true, sa)) ∧
    (∀ sa6, get_sock_address6 a sa6 = (false, sa6)).
Proof.
  intros Hlen Hport. unfold Address_of_in, two16 in *.
  rewrite (proj1 (inet_ntop_spec _ _ _)) by (pose proof (ntop4_length _ Hlen); lia).
  eexists. split; [done|]. simpl. split; [done|]. split; [apply htons_bound|].
  split; intros sa0; unfold get_sock_address, get_sock_address6; simpl; [|done].
  rewrite pton_ntop, htons_htons by done. by destruct sa.
Qed.

(** For IPv6 the conversion through [Address] is lossless exactly when the
    textual form has at most 24 characters; a longer one (up to 39 are possible)
    does not fit the size passed to [inet_ntop] and the constructor throws. *)
Theorem sock_address6_text_limit sa :
  length (sin6_addr sa) = addr_size true → 0 ≤ sin6_port sa < two16 →
  ((String.length (ntop true (sin6_addr sa)) ≤ 24)%nat →
    ∃ a, Address_of_in6 sa = Val a ∧ IPv6 a = true ∧
      ∀ sa0, sin6_flowinfo sa0 = sin6_flowinfo sa → get_sock_address6 a sa0 = (true, sa)) ∧
  ((25 ≤ String.length (ntop true (sin6_addr sa)))%nat →
    Address_of_in6 sa = Exn (runtime_error "invalid sock address")).
Proof.
  intros Hlen Hport. unfold Address_of_in6, two16 in *. split; intros Htext.
  - rewrite (proj1 (inet_ntop_spec _ _ _)) by lia.
    eexists. split; [done|]. split; [done|].
    intros sa0 Hf. unfold get_sock_address6. simpl.
    rewrite pton_ntop, htons_htons, Hf by done. by destruct sa.
  - by rewrite (proj2 (inet_ntop_spec _ _ _)) by lia.
Qed.
End address_properties.

(** [equals] (and so [operator==]) decides equality of addresses. *)
Theorem equals_spec a b : equals a b = true ↔ a = b.
Proof.
  destruct a as [ip1 p1 v1], b as [ip2 p2 v2]. unfold equals. simpl.
  destruct (Z.eqb_spec p2 p1), (Bool.eqb_spec v2 v1), (String.eqb_spec ip2 ip1); simpl;
    split; congruence.
Qed.

Lemma differs_spec a b : differs a b = true ↔ a ≠ b.
Proof. unfold differs. rewrite negb_true_iff, <- not_true_iff_false. by rewrite equals_spec. Qed.

(** Printing loses the family only, as long as the text of the address and the port
    can be told apart. *)
Lemma print_Address_same_ip a b :
  IP a = IP b → print_Address a = print_Address b → PortNumber a = PortNumber b.
Proof.
  intros Hip Hp. unfold print_Address in Hp. rewrite Hip in Hp.
  apply (inj (String.app (IP b))), (inj (String.app ":")) in Hp. by apply (inj pretty) in Hp.
Qed.

(** The test of the loop of [resolve_URL]. *)
Definition wanted (v6 : bool) (h : addrinfo) : Prop :=
  if v6 then ai_family h = AF_INET6 else ai_family h ≠ AF_INET6.

Lemma find_address_first `{Inet} v6 tail pre h post a :
  Forall (λ x, ¬ wanted v6 x) pre → wanted v6 h →
  find_address v6 tail (pre ++ h :: post) a =
  if v6 then Address_of_in6 (as_sockaddr_in6 tail (ai_addr h))
  else Address_of_in (as_sockaddr_in (ai_addr h)).
Proof.
  unfold wanted. intros Hpre Hh. induction Hpre as [|x pre Hx _ IH]; simpl;
    [|rewrite IH]; destruct v6; simpl; case_bool_decide; simpl; tauto.
Qed.

Lemma find_address_none `{Inet} v6 tail hosts a :
  Forall (λ x, ¬ wanted v6 x) hosts → find_address v6 tail hosts a = Val a.
Proof.
  unfold wanted. induction 1 as [|x hosts Hx _ IH]; simpl; [done|].
  rewrite IH. destruct v6; simpl; case_bool_decide; simpl; tauto.
Qed.

(** [resolve_URL] throws when the lookup fails; otherwise it converts the
    first entry of the wanted family (for IPv4: the first that is not IPv6) and
    sets the port; with no such entry it returns an empty address, not an
    error. *)
Theorem resolve_URL_first `{Inet} tail url port v6 :
  (∀ err, getaddrinfo url = inr err →
    resolve_URL tail url port v6 = Exn (runtime_error ("Error getting address: " +:+ err))) ∧
  (∀ pre h post sa ip p, getaddrinfo url = inl (pre ++ h :: post) →
    Forall (λ x, ¬ wanted v6 x) pre → wanted v6 h → ai_addr h = sa →
    (if v6 then Address_of_in6 (as_sockaddr_in6 tail sa)
     else Address_of_in (as_sockaddr_in sa)) = Val {| IP := ip; PortNumber := p; IPv6 := v6 |} →
    resolve_URL tail url port v6 = Val {| IP := ip; PortNumber := port; IPv6 := v6 |}) ∧
  (∀ hosts, getaddrinfo url = inl hosts → Forall (λ x, ¬ wanted v6 x) hosts →
    resolve_URL tail url port v6 = Val {| IP := ""; PortNumber := port; IPv6 := false |}).
Proof.
  unfold resolve_URL. split_and!.
  - by intros err ->.
  - intros pre h post sa ip p -> Hpre Hh <- Hconv.
    rewrite find_address_first by done. rewrite Hconv. done.
  - intros hosts -> Hnone. by rewrite find_address_none.
Qed.

(** ** Witnesses *)

Definition sample_libc : Inet :=
  libc (λ url, if String.eqb url "localhost" then
    inl [ {| ai_family := AF_INET6; ai_addr := SaIn6 {| sin6_port := 0;
              sin6_flowinfo := [x00;x00;x00;x00];
              sin6_addr := [x20;x01;x0d;xb8;x85;xa3;x12;x34;x56;x78;x8a;x2e;x03;x70;x73;x34] |} |};
          {| ai_family := AF_INET; ai_addr := SaIn {| sin_port := 0;
              sin_addr := [x7f;x00;x00;x01] |} |} ]
  else inr "Name or service not known").

Lemma sock_address_roundtrip_witness :
  ∃ a, @Address_of_in sample_libc {| sin_port := 47090; sin_addr := [x7f;x00;x00;x01] |} = Val a ∧
    IPv6 a = false ∧ 0 ≤ PortNumber a < two16 ∧
    (∀ sa0, @get_sock_address sample_libc a sa0 =
      (true, {| sin_port := 47090; sin_addr := [x7f;x00;x00;x01] |})) ∧
    (∀ sa6, @get_sock_address6 sample_libc a sa6 = (false, sa6)).
Proof.
  apply (@sock_address_roundtrip sample_libc (libc_laws _)
    {| sin_port := 47090; sin_addr := [x7f;x00;x00;x01] |}); simpl; [done|unfold two16; lia].
Defined.

Lemma sock_address6_text_limit_witness :
  @Address_of_in6 sample_libc {| sin6_port := 80; sin6_flowinfo := [x00;x00;x00;x00];
    sin6_addr := [x20;x01;x0d;xb8;x85;xa3;x12;x34;x56;x78;x8a;x2e;x03;x70;x73;x34] |} =
  Exn (runtime_error "invalid sock address").
Proof.
  refine (proj2 (@sock_address6_text_limit sample_libc (libc_laws _) _ _ _) _);
    simpl; [done|unfold two16; lia|vm_compute; lia].
Defined.

Example resolve_localhost :
  @resolve_URL sample_libc [] "localhost" 4242 false =
  Val {| IP := "127.0.0.1"; PortNumber := 4242; IPv6 := false |}.
Proof. vm_compute. reflexivity. Qed.

Lemma resolve_URL_first_witness :
  @resolve_URL sample_libc [] "localhost" 4242 false =
  Val {| IP := "127.0.0.1"; PortNumber := 4242; IPv6 := false |}.
Proof.
  refine (proj1 (proj2 (@resolve_URL_first sample_libc [] "localhost" 4242 false))
    [_] _ [] _ "127.0.0.1" 0 eq_refl _ _ eq_refl eq_refl).
  - repeat constructor. intros Hne. by apply Hne.
  - done.
Defined.
