(* ===== verification/Sys.v ===== *)
(** The operating system as the sockets see it: system calls as parameters, their
    documented behaviour as laws, a trace of the calls that matter, and a
    scripted system for examples. *)
From S2P Require Import Prelude Machine Inet.
Local Open Scope Z_scope.

(** The error numbers the sources distinguish ([EWOULDBLOCK] is [EAGAIN]). *)
Inductive errno := EAGAIN | ECONNRESET | EPIPE | ENOTCONN | EOTHER (code : Z).

#[export] Instance errno_eq_dec : EqDecision errno.
Proof. solve_decision. Defined.

Inductive sockopt := SO_REUSEADDR | TCP_NODELAY.

Definition O_NONBLOCK : Z := 2048.

(** System calls on file descriptors. A call that fails returns its [errno];
    [sys_recv] of zero bytes is the end of the stream. [sys_write] on a connection
    the peer has closed returns [EPIPE], as it does in a process that ignores
    SIGPIPE: nothing in the sources ignores the signal, so the application has to,
    or that [write] ends the process. *)
Class Sys (Σ : Type) := {
  sys_socket : bool → Σ → (Z + errno) * Σ;
  sys_setsockopt : Z → sockopt → Σ → Σ;
  sys_getfl : Z → Σ → Z;
  sys_setfl : Z → Z → Σ → Σ;
  sys_bind : Z → sockaddr → Σ → option errno * Σ;
  sys_listen : Z → Z → Σ → option errno * Σ;
  sys_connect : Z → sockaddr → Σ → option errno * Σ;
  sys_accept : Z → Σ → (Z + errno) * Σ;
  sys_getsockname : Z → Σ → option sockaddr;
  sys_getpeername : Z → Σ → option sockaddr;
  sys_recv : Z → Z → Σ → (list byte + errno) * Σ;
  sys_write : Z → list byte → Σ → (Z + errno) * Σ;
  sys_shutdown : Z → Σ → option errno * Σ;
  sys_close : Z → Σ → Σ;
  strerror : errno → string;
  (** what an uninitialised local socket address holds *)
  uninit_in : sockaddr_in;
  uninit_in6 : sockaddr_in6;
}.

(** Documented behaviour: [recv] returns at most what was asked for, [write]
    accepts at most what it was given and nothing on the descriptor -1, a new
    descriptor is not negative. *)
Class SysLaws (Σ : Type) `{Sys Σ} := {
  recv_bound fd n σ bs σ' :
    0 ≤ n → sys_recv fd n σ = (inl bs, σ') → Z.of_nat (length bs) ≤ n;
  write_bound fd bs σ s σ' :
    sys_write fd bs σ = (inl s, σ') → 0 ≤ s ≤ Z.of_nat (length bs);
  write_bad_fd bs σ s σ' : sys_write (-1) bs σ ≠ (inl s, σ');
  accept_fd fd σ s σ' : sys_accept fd σ = (inl s, σ') → 0 ≤ s;
  socket_fd v6 σ s σ' : sys_socket v6 σ = (inl s, σ') → 0 ≤ s;
}.

(** What a life cycle without [LOG(FATAL)] needs beyond that: [shutdown] of a
    socket fails only because the connection is gone, a new connection
    never gets descriptor 0 (standard input stays open), and addresses have the
    size of their family. *)
Class Host (Σ : Type) `{Sys Σ} := {
  shutdown_fails fd σ e σ' : 0 < fd → sys_shutdown fd σ = (Some e, σ') → e = ENOTCONN;
  accept_not_stdin fd σ s σ' : sys_accept fd σ = (inl s, σ') → s ≠ 0;
  peer_addr fd σ sa : sys_getpeername fd σ = Some sa →
    length (sin_addr (as_sockaddr_in sa)) = addr_size false;
  uninit_addr : length (sin_addr uninit_in) = addr_size false;
}.

(** The calls worth recording: data that left or arrived, and descriptors
    opened and closed. *)
Inductive event :=
| Opened (fd : Z)
| Wrote (fd : Z) (bs : list byte)
| Received (fd : Z) (bs : list byte)
| ShutDown (fd : Z)
| Closed_fd (fd : Z).

(** The bytes written to a descriptor, in order. *)
Fixpoint wire (fd : Z) (tr : list event) : list byte :=
  match tr with
  | [] => []
  | Wrote fd' bs :: tr' => if fd' =? fd then bs ++ wire fd tr' else wire fd tr'
  | _ :: tr' => wire fd tr'
  end.

Lemma wire_app fd t1 t2 : wire fd (t1 ++ t2) = wire fd t1 ++ wire fd t2.
Proof.
  induction t1 as [|e t1 IH]; simpl; [done|].
  destruct e; try done. case_bool; [|done]. by rewrite IH, app_assoc.
Qed.

(** The bytes that arrived, in order. *)
Fixpoint arrived (tr : list event) : list byte :=
  match tr with
  | [] => []
  | Received _ bs :: tr' => bs ++ arrived tr'
  | _ :: tr' => arrived tr'
  end.

Lemma arrived_app t1 t2 : arrived (t1 ++ t2) = arrived t1 ++ arrived t2.
Proof. induction t1 as [|[] t1 IH]; simpl; rewrite ?IH, ?app_assoc; done. Qed.

(** How often a descriptor was closed. *)
Fixpoint closes (fd : Z) (tr : list event) : nat :=
  match tr with
  | [] => 0
  | Closed_fd fd' :: tr' => (if fd' =? fd then 1 else 0) + closes fd tr'
  | _ :: tr' => closes fd tr'
  end.

Lemma closes_app fd t1 t2 : closes fd (t1 ++ t2) = (closes fd t1 + closes fd t2)%nat.
Proof. induction t1 as [|[] t1 IH]; simpl; rewrite ?IH; lia. Qed.

(** * A scripted system

    Every call takes its next result from a list; [recv], [write] and [accept]
    report [EAGAIN] when the list is used up. *)
Record script := mkScript {
  sc_recv : list (list byte + errno);
  sc_write : list (Z + errno);
  sc_accept : list (Z + errno);
  sc_notconn : bool;
  sc_connect : option errno;
  sc_socket : Z + errno;
  sc_flags : Z;
  sc_peer : option (byte * byte * byte * byte * Z * bool);
}.

Definition idle : script :=
  {| sc_recv := []; sc_write := []; sc_accept := []; sc_notconn := false;
     sc_connect := None; sc_socket := inl 7; sc_flags := 0; sc_peer := None |}.

(** What calls on the descriptor -1 report. *)
Definition EBADF : errno := EOTHER 9.

Definition script_recv (n : Z) (σ : script) : (list byte + errno) * script :=
  match sc_recv σ with
  | [] => (inr EAGAIN, σ)
  | r :: rs =>
      (match r with
       | inl bs => inl (take (Z.to_nat n) bs)
       | inr e => inr e
       end,
       {| sc_recv := rs; sc_write := sc_write σ; sc_accept := sc_accept σ;
          sc_notconn := sc_notconn σ; sc_connect := sc_connect σ; sc_socket := sc_socket σ;
          sc_flags := sc_flags σ; sc_peer := sc_peer σ |})
  end.

Definition script_write (bs : list byte) (σ : script) : (Z + errno) * script :=
  match sc_write σ with
  | [] => (inr EAGAIN, σ)
  | r :: rs =>
      (match r with
       | inl s => inl (Z.max 0 (Z.min s (Z.of_nat (length bs))))
       | inr e => inr e
       end,
       {| sc_recv := sc_recv σ; sc_write := rs; sc_accept := sc_accept σ;
          sc_notconn := sc_notconn σ; sc_connect := sc_connect σ; sc_socket := sc_socket σ;
          sc_flags := sc_flags σ; sc_peer := sc_peer σ |})
  end.

Definition script_accept (σ : script) : (Z + errno) * script :=
  match sc_accept σ with
  | [] => (inr EAGAIN, σ)
  | r :: rs =>
      (match r with inl fd => inl (Z.max 1 fd) | inr e => inr e end,
       {| sc_recv := sc_recv σ; sc_write := sc_write σ; sc_accept := rs;
          sc_notconn := sc_notconn σ; sc_connect := sc_connect σ; sc_socket := sc_socket σ;
          sc_flags := sc_flags σ; sc_peer := sc_peer σ |})
  end.

(** The peer: four address bytes (for an IPv6 peer its flow information), the
    port and the family. *)
Definition script_peer (σ : script) : option sockaddr :=
  match sc_peer σ with
  | None => None
  | Some (b1, b2, b3, b4, port, v6) =>
      Some (if v6 : bool
            then SaIn6 {| sin6_port := port; sin6_flowinfo := [b1; b2; b3; b4];
                          sin6_addr := replicate 16 x01 |}
            else SaIn {| sin_port := port; sin_addr := [b1; b2; b3; b4] |})
  end.

#[export] Instance script_sys : Sys script := {
  sys_socket _ σ := (match sc_socket σ with inl fd => inl (Z.max 0 fd) | inr e => inr e end, σ);
  sys_setsockopt _ _ σ := σ;
  sys_getfl _ σ := sc_flags σ;
  sys_setfl _ fl σ :=
    {| sc_recv := sc_recv σ; sc_write := sc_write σ; sc_accept := sc_accept σ;
       sc_notconn := sc_notconn σ; sc_connect := sc_connect σ; sc_socket := sc_socket σ;
       sc_flags := fl; sc_peer := sc_peer σ |};
  sys_bind _ _ σ := (None, σ);
  sys_listen _ _ σ := (None, σ);
  sys_connect _ _ σ := (sc_connect σ, σ);
  sys_accept _ σ := script_accept σ;
  sys_getsockname _ σ := Some (SaIn {| sin_port := 0; sin_addr := [x00;x00;x00;x00] |});
  sys_getpeername _ σ := script_peer σ;
  sys_recv _ n σ := script_recv n σ;
  sys_write fd bs σ := if fd <? 0 then (inr EBADF, σ) else script_write bs σ;
  sys_shutdown fd σ :=
    (if fd <? 0 then Some EBADF else if sc_notconn σ then Some ENOTCONN else None, σ);
  sys_close _ σ := σ;
  strerror _ := "error";
  uninit_in := {| sin_port := 0; sin_addr := [x00;x00;x00;x00] |};
  uninit_in6 := {| sin6_port := 0; sin6_flowinfo := [x00;x00;x00;x00];
                   sin6_addr := replicate 16 x00 |};
}.

#[export] Instance script_laws : SysLaws script.
Proof.
  constructor; simpl.
  - intros fd n σ bs σ' Hn. unfold script_recv. destruct (sc_recv σ) as [|[r|e] rs]; [done| |done].
    intros [= <- _]. rewrite length_take. lia.
  - intros fd bs σ s σ'. destruct (fd <? 0); [done|]. unfold script_write.
    destruct (sc_write σ) as [|[r|e] rs]; [done| |done]. intros [= <- _]. lia.
  - done.
  - intros fd σ s σ'. unfold script_accept.
    destruct (sc_accept σ) as [|[r|e] rs]; [done| |done]. intros [= <- _]. lia.
  - intros v6 σ s σ'. destruct (sc_socket σ); [|done]. intros [= <- _]. lia.
Qed.

#[export] Instance script_host : Host script.
Proof.
  constructor; simpl.
  - intros fd σ e σ' Hfd. rewrite (proj2 (Z.ltb_ge fd 0)) by lia.
    by destruct (sc_notconn σ); intros [= <- _].
  - intros _ σ s σ'. unfold script_accept.
    destruct (sc_accept σ) as [|[r|e] rs]; [done| |done]. intros [= <- _]. lia.
  - intros _ σ sa. unfold script_peer. destruct (sc_peer σ) as [[[[[[b1 b2] b3] b4] p] [|]]|];
      by intros [= <-].
  - done.
Qed.
