(* ===== verification/TcpSocket.v ===== *)
(** [TcpSocket] of include/yael/network/TcpSocket.h and
    src/network/TcpSocket.cpp: data and operations. The slicer is any
    implementation of [MessageSlicer], the operating system any [Sys]. *)
From S2P Require Import Prelude Machine Buffer Slicer Inet Sys Datagram Stream.
Local Open Scope Z_scope.

Inductive State := Listening | Connected | Shutdown | Closed | Unknown.

#[export] Instance State_eq_dec : EqDecision State.
Proof. solve_decision. Defined.

(** [message_out_internal_t]; [mo_data] is the array behind the one of the two
    smart pointers that is used. *)
Record message_out := mkMessageOut {
  mo_length : Z;
  mo_sent_pos : Z;
  mo_is_shared : bool;
  mo_data : list byte;
}.

Record TcpSocket (T : Type) := mkTcpSocket {
  m_port : Z;
  m_is_ipv6 : bool;
  m_fd : Z;
  m_remote_address : Address;
  m_slicer : T;
  m_send_queue : list message_out;
  m_current_message : option message_out;
  m_state : State;
  m_max_send_queue_size : Z;
  m_send_queue_size : Z;
}.
Arguments mkTcpSocket {T}.
Arguments m_port {T}.
Arguments m_is_ipv6 {T}.
Arguments m_fd {T}.
Arguments m_remote_address {T}.
Arguments m_slicer {T}.
Arguments m_send_queue {T}.
Arguments m_current_message {T}.
Arguments m_state {T}.
Arguments m_max_send_queue_size {T}.
Arguments m_send_queue_size {T}.

Definition DEFAULT_MAX_SEND_QUEUE_SIZE : Z := 1024 * 1024.

(** A socket together with the system it runs on, [errno], and the record of its
    calls. *)
Record world (Σ T : Type) := mkWorld {
  w_os : Σ;
  w_errno : errno;
  w_trace : list event;
  w_sock : TcpSocket T;
}.
Arguments mkWorld {Σ T}.
Arguments w_os {Σ T}.
Arguments w_errno {Σ T}.
Arguments w_trace {Σ T}.
Arguments w_sock {Σ T}.

(** * Field updates *)

Section updates.
Context {T : Type}.
Implicit Types s : TcpSocket T.

Definition set_port v s : TcpSocket T := mkTcpSocket v (m_is_ipv6 s) (m_fd s) (m_remote_address s)
  (m_slicer s) (m_send_queue s) (m_current_message s) (m_state s)
  (m_max_send_queue_size s) (m_send_queue_size s).
Definition set_is_ipv6 v s : TcpSocket T := mkTcpSocket (m_port s) v (m_fd s) (m_remote_address s)
  (m_slicer s) (m_send_queue s) (m_current_message s) (m_state s)
  (m_max_send_queue_size s) (m_send_queue_size s).
Definition set_fd v s : TcpSocket T := mkTcpSocket (m_port s) (m_is_ipv6 s) v (m_remote_address s)
  (m_slicer s) (m_send_queue s) (m_current_message s) (m_state s)
  (m_max_send_queue_size s) (m_send_queue_size s).
Definition set_remote_address v s : TcpSocket T := mkTcpSocket (m_port s) (m_is_ipv6 s) (m_fd s) v
  (m_slicer s) (m_send_queue s) (m_current_message s) (m_state s)
  (m_max_send_queue_size s) (m_send_queue_size s).
Definition set_slicer v s : TcpSocket T := mkTcpSocket (m_port s) (m_is_ipv6 s) (m_fd s)
  (m_remote_address s) v (m_send_queue s) (m_current_message s) (m_state s)
  (m_max_send_queue_size s) (m_send_queue_size s).
Definition set_queue q n s : TcpSocket T := mkTcpSocket (m_port s) (m_is_ipv6 s) (m_fd s)
  (m_remote_address s) (m_slicer s) q (m_current_message s) (m_state s)
  (m_max_send_queue_size s) n.
Definition set_current_message v s : TcpSocket T := mkTcpSocket (m_port s) (m_is_ipv6 s) (m_fd s)
  (m_remote_address s) (m_slicer s) (m_send_queue s) v (m_state s)
  (m_max_send_queue_size s) (m_send_queue_size s).
Definition set_state v s : TcpSocket T := mkTcpSocket (m_port s) (m_is_ipv6 s) (m_fd s)
  (m_remote_address s) (m_slicer s) (m_send_queue s) (m_current_message s) v
  (m_max_send_queue_size s) (m_send_queue_size s).
End updates.

Section TcpSocket.
Context {Σ T : Type} `{Sys Σ} `{Inet} `{MessageSlicer T}.

Abbreviation W := (world Σ T).
Implicit Types w : W.

(** Access to the parts of the world. *)
Definition sock : M W (TcpSocket T) := λ w, (Val (w_sock w), w).

Definition upd (f : TcpSocket T → TcpSocket T) : M W unit := λ w,
  (Val tt, mkWorld (w_os w) (w_errno w) (w_trace w) (f (w_sock w))).

Definition on_slicer {A} (m : M T A) : M W A :=
  zoom (λ w, m_slicer (w_sock w))
       (λ t w, mkWorld (w_os w) (w_errno w) (w_trace w) (set_slicer t (w_sock w))) m.

Definition log (e : event) : M W unit := λ w,
  (Val tt, mkWorld (w_os w) (w_errno w) (w_trace w ++ [e]) (w_sock w)).

Definition os_get {A} (f : Σ → A) : M W A := λ w, (Val (f (w_os w)), w).

Definition os_call {A} (f : Σ → A * Σ) : M W A := λ w,
  let '(a, σ) := f (w_os w) in (Val a, mkWorld σ (w_errno w) (w_trace w) (w_sock w)).

Definition os_do (f : Σ → Σ) : M W unit := λ w,
  (Val tt, mkWorld (f (w_os w)) (w_errno w) (w_trace w) (w_sock w)).

Definition get_errno : M W errno := λ w, (Val (w_errno w), w).

Definition set_errno (e : errno) : M W unit := λ w,
  (Val tt, mkWorld (w_os w) e (w_trace w) (w_sock w)).

(** ** State queries *)

Definition is_valid_sock (s : TcpSocket T) : bool := 0 <? m_fd s.

Definition is_valid : M W bool := s ← sock; mret (is_valid_sock s).

Definition is_connected : M W bool :=
  s ← sock; mret (bool_decide (m_state s = Connected)).

Definition is_listening : M W bool :=
  s ← sock; mret (bool_decide (m_state s = Listening)).

Definition has_messages : M W bool :=
  s ← sock; mret (slicer_has_messages (m_slicer s)).

Definition get_fileno : M W Z := s ← sock; mret (m_fd s).

Definition send_queue_size : M W Z := s ← sock; mret (m_send_queue_size s).

Definition max_send_queue_size : M W Z := s ← sock; mret (m_max_send_queue_size s).

Definition wait_connection_established : M W bool := is_connected.

Definition get_remote_address : M W Address := s ← sock; mret (m_remote_address s).

Definition port : M W Z :=
  s ← sock;
  if negb (is_valid_sock s) then
    throw (socket_error "Cannot get port of non-existent socket")
  else mret (m_port s).

(** ** Setting up *)

(** The constructor: no descriptor yet. *)
Definition new_socket (slicer : T) (max : Z) : TcpSocket T :=
  {| m_port := 0; m_is_ipv6 := false; m_fd := -1; m_remote_address := Address_default;
     m_slicer := slicer; m_send_queue := []; m_current_message := None; m_state := Unknown;
     m_max_send_queue_size := max; m_send_queue_size := 0 |}.

Definition set_nonblocking (on : bool) : M W unit :=
  s ← sock;
  flags ← os_get (sys_getfl (m_fd s));
  let flags := u32 (if on then Z.lor flags O_NONBLOCK
                    else Z.land flags (Z.lnot O_NONBLOCK)) in
  os_do (sys_setfl (m_fd s) flags).

Definition create_fd : M W bool :=
  s ← sock;
  r ← os_call (sys_socket (m_is_ipv6 s));
  match r with
  | inl fd => log (Opened fd);; upd (set_fd fd)
  | inr e => set_errno e;; upd (set_fd (-1))
  end;;
  s ← sock;
  if negb (is_valid_sock s) then mret false else
  os_do (sys_setsockopt (m_fd s) TCP_NODELAY);;
  mret true.

(** [getsockname] reports into a structure of the family of the socket; if it
    fails, the port is read from the uninitialised structure. *)
Definition update_port_number : M W unit :=
  s ← sock;
  r ← os_get (sys_getsockname (m_fd s));
  if m_is_ipv6 s then
    let addr := match r with
                | Some sa => as_sockaddr_in6 (sin6_addr uninit_in6) sa
                | None => uninit_in6
                end in
    upd (set_port (htons (sin6_port addr)))
  else
    let addr := match r with Some sa => as_sockaddr_in sa | None => uninit_in end in
    upd (set_port (htons (sin_port addr))).

(** The peer's address is always read as an IPv4 address. *)
Definition calculate_remote_address : M W unit :=
  s ← sock;
  r ← os_get (sys_getpeername (m_fd s));
  when (negb (bool_decide (is_Some r)))
    (upd (λ s, set_remote_address (reset (m_remote_address s)) s));;
  let sin := match r with Some sa => as_sockaddr_in sa | None => uninit_in end in
  let ipstring := inet_ntop false (sin_addr sin) 16 in
  let port := htons (sin_port sin) in
  match ipstring with
  | None => halt (UB "ipstring is not initialised")
  | Some ip =>
      upd (λ s, set_remote_address
        {| IP := ip; PortNumber := port; IPv6 := IPv6 (m_remote_address s) |} s)
  end.

Definition bind_socket (address : Address) : M W bool :=
  upd (set_is_ipv6 (IPv6 address));;
  created ← create_fd;
  if negb created then mret false else
  s ← sock;
  os_do (sys_setsockopt (m_fd s) SO_REUSEADDR);;
  let sock_addr :=
    if m_is_ipv6 s then SaIn6 (get_sock_address6 address uninit_in6).2
    else SaIn (get_sock_address address uninit_in).2 in
  r ← os_call (sys_bind (m_fd s) sock_addr);
  match r with
  | Some e => set_errno e;; mret false
  | None => update_port_number;; mret true
  end.

Definition listen (address : Address) (backlog : Z) : M W bool :=
  bound ← bind_socket address;
  if negb bound then throw (socket_error "Failed to bind socket!") else
  set_nonblocking true;;
  s ← sock;
  r ← os_call (sys_listen (m_fd s) (i32 backlog));
  match r with
  | None => upd (set_state Listening);; mret true
  | Some _ => mret false
  end.

(** [Socket::listen] by name. *)
Definition listen_name (tail : list byte) (name : string) (port backlog : Z) : M W bool :=
  addr ← lift (resolve_URL tail name port false);
  listen addr backlog.

(** ** Closing *)

Definition reset_buffer : M W unit :=
  upd (λ s, set_slicer
    (slicer_set_buffer (buf_reset (slicer_buffer (m_slicer s))) (m_slicer s)) s).

Definition close (fast : bool) : M W bool :=
  s ← sock;
  if bool_decide (m_state s = Connected) && negb fast then
    upd (set_state Shutdown);;
    log (ShutDown (m_fd s));;
    i ← os_call (sys_shutdown (m_fd s));
    match i with
    | None => mret false
    | Some e =>
        set_errno e;;
        if bool_decide (e = ENOTCONN) then
          upd (set_fd (-1));;
          upd (set_state Closed);;
          reset_buffer;;
          mret true
        else fatal ("Socket shutdown() failed: " +:+ strerror e)
    end
  else if 0 <? m_fd s then
    upd (set_state Closed);;
    log (Closed_fd (m_fd s));;
    os_do (sys_close (m_fd s));;
    upd (set_fd (-1));;
    reset_buffer;;
    mret true
  else if bool_decide (m_state s = Closed) || bool_decide (m_state s = Unknown) then
    mret true
  else fatal "Invalid state".

(** The destructor. *)
Definition destroy : M W unit := close true;; mret tt.

(** ** Connecting and accepting *)

Definition require_fd (ok : bool) : M W unit :=
  if ok then mret tt
  else (e ← get_errno; throw (socket_error (strerror e))).

Definition connect (tail : list byte) (address : Address) (name : string) : M W bool :=
  if PortNumber address =? 0 then
    throw (invalid_argument "Need to specify a port number")
  else
  (if String.eqb name "" then
     upd (set_is_ipv6 (IPv6 address));;
     created ← create_fd;
     require_fd created
   else
     my_addr ← lift (resolve_URL tail name 0 (IPv6 address));
     bound ← bind_socket my_addr;
     require_fd bound);;
  set_nonblocking false;;
  s ← sock;
  let sock_addr :=
    if m_is_ipv6 s then SaIn6 (get_sock_address6 address uninit_in6).2
    else SaIn (get_sock_address address uninit_in).2 in
  r ← os_call (sys_connect (m_fd s) sock_addr);
  match r with
  | Some _ => close false;; mret false
  | None =>
      set_nonblocking true;;
      calculate_remote_address;;
      update_port_number;;
      upd (set_state Connected);;
      mret true
  end.

(** [None] stands for the negative result of an [accept] that would block. *)
Definition internal_accept : M W (option Z) :=
  s ← sock;
  r ← os_call (sys_accept (m_fd s));
  match r with
  | inl fd => log (Opened fd);; mret (Some fd)
  | inr e =>
      if negb (bool_decide (e = EAGAIN)) then
        close false;;
        throw (socket_error ("Failed to accept new connection; " +:+ strerror e))
      else mret None
  end.

(** The constructor of an accepted socket, after its initialisers. *)
Definition child_socket (fd : Z) : M W unit :=
  upd (set_fd fd);;
  set_nonblocking true;;
  update_port_number;;
  calculate_remote_address;;
  upd (set_state Connected).

(** Run [m] on another socket of the same system. *)
Definition on_socket {A} (c : TcpSocket T) (m : M W A) : M W A := λ w,
  let '(o, w') := m (mkWorld (w_os w) (w_errno w) (w_trace w) c) in
  (o, mkWorld (w_os w') (w_errno w') (w_trace w') (w_sock w)).

Definition construct_child (slicer : T) (fd max : Z) : M W (TcpSocket T) :=
  on_socket (new_socket slicer max) (child_socket fd;; sock).

(** [mk] builds the slicer of a new socket ([make_unique] in the constructor). *)
Definition accept_step (mk : T) (acc : list (TcpSocket T))
    : M W (list (TcpSocket T) * bool) :=
  fd ← internal_accept;
  match fd with
  | Some fd =>
      s ← sock;
      child ← construct_child mk fd (m_max_send_queue_size s);
      mret (acc ++ [child], true)
  | None => mret (acc, false)
  end.

(** Destroying the vector of accepted sockets. *)
Fixpoint destroy_all (cs : list (TcpSocket T)) : M W unit :=
  match cs with
  | [] => mret tt
  | c :: cs' => on_socket c destroy;; destroy_all cs'
  end.

Fixpoint accept_loop (fuel : nat) (mk : T) (acc : list (TcpSocket T))
    : M W (list (TcpSocket T)) :=
  match fuel with
  | O => halt OutOfFuel
  | S n =>
      '(acc, more) ← catch (accept_step mk acc) (λ e, destroy_all acc;; throw e);
      if more : bool then accept_loop n mk acc else mret acc
  end.

Definition accept (fuel : nat) (mk : T) : M W (list (TcpSocket T)) :=
  listening ← is_listening;
  if negb listening then
    throw (socket_error "Cannot accept on connected TcpTcpSocket")
  else accept_loop fuel mk [].

(** ** Receiving *)

(** One [recv] into an empty buffer. *)
Definition receive_data : M W bool :=
  s ← sock;
  let buffer := slicer_buffer (m_slicer s) in
  if negb (is_valid_sock s) then mret false
  else if buf_is_valid buffer then
    throw (runtime_error "TcpSocket::receive_data failed: Still have data queued up in buffer")
  else
    upd (set_slicer (slicer_set_buffer (buf_set_data (zero_bytes MAX_SIZE) buffer) (m_slicer s)));;
    x ← os_call (sys_recv (m_fd s) MAX_SIZE);
    match x with
    | inl [] => close true;; mret false
    | inl bs =>
        log (Received (m_fd s) bs);;
        data ← write_slice 0 bs (zero_bytes MAX_SIZE);
        upd (set_slicer (slicer_set_buffer
          (buf_set_position 0 (buf_set_size (Z.of_nat (length bs)) (buf_set_data data buffer)))
          (m_slicer s)));;
        mret true
    | inr e =>
        match e with
        | EAGAIN => mret false
        | ECONNRESET => close true;; mret false
        | _ =>
            close true;;
            throw (socket_error ("Failed to receive data; " +:+ strerror e))
        end
    end.

(** One iteration of [pull_messages]: fill the buffer if it is empty, then let
    the slicer take one message; its exceptions are logged and dropped. *)
Definition pull_step : M W (option unit) :=
  s ← sock;
  got ← (if negb (buf_is_valid (slicer_buffer (m_slicer s))) then receive_data else mret true);
  if negb got then mret (Some tt) else
  catch (on_slicer slicer_process_buffer) (λ _, mret tt);;
  mret None.

Definition pull_messages (fuel : nat) : M W unit := iter fuel pull_step.

Definition receive (fuel : nat) : M W (option message_in_t) :=
  pull_messages fuel;;
  s ← sock;
  if slicer_has_messages (m_slicer s) then
    res ← on_slicer slicer_get_message;
    match res with
    | None => throw (socket_error "failed to get message")
    | Some msg => mret (Some msg)
    end
  else mret None.

(** ** Sending *)

(** Take the next message from the queue; [false] when there is none. *)
Definition next_message : M W bool :=
  s ← sock;
  match m_current_message s with
  | Some _ => mret true
  | None =>
      match m_send_queue s with
      | [] => mret false
      | it :: rest =>
          upd (set_current_message (Some it));;
          upd (set_queue rest (u64 (m_send_queue_size s - mo_length it)));;
          mret true
      end
  end.

(** One [write] of the rest of the current message: [None] to go on, [Some r]
    to return [r] from [do_send]. *)
Definition write_step : M W (option (option bool)) :=
  s ← sock;
  match m_current_message s with
  | None => halt (UB "no current message")
  | Some message =>
      if negb (mo_sent_pos message <? mo_length message) then mret (Some None) else
      bytes ← read_slice (mo_sent_pos message) (u32 (mo_length message - mo_sent_pos message))
                (mo_data message);
      r ← os_call (sys_write (m_fd s) bytes);
      match r with
      | inl n =>
          if 0 <? n then
            log (Wrote (m_fd s) (take (Z.to_nat n) bytes));;
            upd (set_current_message (Some
              {| mo_length := mo_length message; mo_sent_pos := u32 (mo_sent_pos message + n);
                 mo_is_shared := mo_is_shared message; mo_data := mo_data message |}));;
            mret None
          else close true;; mret (Some (Some false))
      | inr e =>
          match e with
          | EAGAIN => mret (Some (Some true))
          | ECONNRESET | EPIPE => close true;; mret (Some (Some false))
          | _ => close true;; throw (socket_error (strerror e))
          end
      end
  end.

Definition write_message (fuel : nat) : M W (option bool) := iter fuel write_step.

Definition send_step (fuel : nat) : M W (option bool) :=
  more ← next_message;
  if negb more then mret (Some false) else
  valid ← is_valid;
  if negb valid then throw (socket_error "Socket is closed") else
  r ← write_message fuel;
  match r with
  | Some b => mret (Some b)
  | None => upd (set_current_message None);; mret None
  end.

Definition do_send (fuel : nat) : M W bool := iter fuel (send_step fuel).

(** Append to the send queue (under [m_send_queue_mutex]). *)
Definition enqueue (msg_out : message_out) : M W unit :=
  upd (λ s, set_queue (m_send_queue s ++ [msg_out])
    (u64 (m_send_queue_size s + mo_length msg_out)) s).

Definition check_send (len : Z) : M W unit :=
  if len =? 0 then throw (socket_error "Message size has to be > 0") else
  valid ← is_valid;
  if negb valid then throw (socket_error "Socket is closed") else
  s ← sock;
  if m_max_send_queue_size s <=? m_send_queue_size s then throw send_queue_full
  else mret tt.

(** [send] of a [unique_ptr]: framed by the slicer. *)
Definition send_unique (fuel : nat) (data : list byte) (len : Z) (async : bool) : M W bool :=
  check_send len;;
  '(data, len) ← on_slicer (slicer_prepare_message data len);
  enqueue {| mo_length := len; mo_sent_pos := 0; mo_is_shared := false; mo_data := data |};;
  if async then mret true else do_send fuel.

(** [send] of a [shared_ptr]: queued as it is. *)
Definition send_shared (fuel : nat) (data : list byte) (len : Z) (async : bool) : M W bool :=
  check_send len;;
  enqueue {| mo_length := len; mo_sent_pos := 0; mo_is_shared := true; mo_data := data |};;
  if async then mret true else do_send fuel.

(** [send] of a raw pointer: copied first. *)
Definition send (fuel : nat) (data : list byte) (len : Z) (async : bool) : M W bool :=
  cpy ← read_slice 0 len data;
  send_unique fuel cpy len async.

(** The loop condition of [wait_send_queue_empty]: whether the caller sleeps. *)
Definition must_wait_send_queue : M W bool :=
  s ← sock;
  mret ((0 <? m_send_queue_size s) && is_valid_sock s).
End TcpSocket.
