(* ===== verification/TcpBase.v ===== *)
(** Rules for the primitives of TcpSocket.v and the run of [close], shared by the
    proofs about sending, receiving and the socket's life cycle. *)
From S2P Require Import Prelude Machine Buffer Slicer Inet Sys TcpSocket.
Local Open Scope Z_scope.

Section rules.
Context {Σ T : Type} `{Sys Σ}.
Abbreviation W := (world Σ T).
Implicit Types (w : W).

Lemma wp_sock w (Q : outcome (TcpSocket T) → W → Prop) :
  Q (Val (w_sock w)) w → wp sock w Q.
Proof. done. Qed.

Lemma wp_upd f w (Q : outcome unit → W → Prop) :
  Q (Val tt) (mkWorld (w_os w) (w_errno w) (w_trace w) (f (w_sock w))) → wp (upd f) w Q.
Proof. done. Qed.

Lemma wp_log e w (Q : outcome unit → W → Prop) :
  Q (Val tt) (mkWorld (w_os w) (w_errno w) (w_trace w ++ [e]) (w_sock w)) → wp (log e) w Q.
Proof. done. Qed.

Lemma wp_os_get {A} (f : Σ → A) w (Q : outcome A → W → Prop) :
  Q (Val (f (w_os w))) w → wp (os_get f) w Q.
Proof. done. Qed.

Lemma wp_os_do f w (Q : outcome unit → W → Prop) :
  Q (Val tt) (mkWorld (f (w_os w)) (w_errno w) (w_trace w) (w_sock w)) → wp (os_do f) w Q.
Proof. done. Qed.

Lemma wp_os_call {A} (f : Σ → A * Σ) w (Q : outcome A → W → Prop) :
  (∀ a σ, f (w_os w) = (a, σ) →
    Q (Val a) (mkWorld σ (w_errno w) (w_trace w) (w_sock w))) →
  wp (os_call f) w Q.
Proof. intros HQ. unfold wp, os_call. destruct (f (w_os w)) as [a σ] eqn:E. by apply HQ. Qed.

Lemma wp_get_errno w (Q : outcome errno → W → Prop) :
  Q (Val (w_errno w)) w → wp get_errno w Q.
Proof. done. Qed.

Lemma wp_set_errno e w (Q : outcome unit → W → Prop) :
  Q (Val tt) (mkWorld (w_os w) e (w_trace w) (w_sock w)) → wp (set_errno e) w Q.
Proof. done. Qed.

Lemma wp_on_slicer {A} (m : M T A) w Q :
  wp m (m_slicer (w_sock w)) (λ o t,
    Q o (mkWorld (w_os w) (w_errno w) (w_trace w) (set_slicer t (w_sock w)))) →
  wp (on_slicer m) w Q.
Proof. intros HQ. unfold on_slicer. apply wp_zoom. exact HQ. Qed.

Lemma wp_on_socket {A} c (m : M W A) w Q :
  wp m (mkWorld (w_os w) (w_errno w) (w_trace w) c) (λ o w',
    Q o (mkWorld (w_os w') (w_errno w') (w_trace w') (w_sock w))) →
  wp (on_socket c m) w Q.
Proof. unfold wp, on_socket. by destruct (m _). Qed.

Lemma wp_is_valid w (Q : outcome bool → W → Prop) :
  Q (Val (is_valid_sock (w_sock w))) w → wp is_valid w Q.
Proof. done. Qed.
End rules.

(** [wp_step] extended with the socket primitives. *)
Ltac tcp_step :=
  first
  [ lazymatch goal with
    | |- wp sock _ _ => apply wp_sock
    | |- wp (upd _) _ _ => apply wp_upd
    | |- wp (log _) _ _ => apply wp_log
    | |- wp (os_get _) _ _ => apply wp_os_get
    | |- wp (os_do _) _ _ => apply wp_os_do
    | |- wp (os_call _) _ _ => apply wp_os_call; intros ? ? ?
    | |- wp get_errno _ _ => apply wp_get_errno
    | |- wp (set_errno _) _ _ => apply wp_set_errno
    | |- wp (on_slicer _) _ _ => apply wp_on_slicer
    | |- wp (on_socket _ _) _ _ => apply wp_on_socket
    | |- wp is_valid _ _ => apply wp_is_valid
    end
  | wp_step ].

(** * Running close *)

Section close.
Context {Σ T : Type} `{Sys Σ} `{MessageSlicer T}.
Abbreviation W := (world Σ T).
Implicit Types (w : W).

Definition reset_slicer (t : T) : T :=
  slicer_set_buffer (buf_reset (slicer_buffer t)) t.

(** The world after the descriptor has been closed. *)
Definition closed_world w : W :=
  mkWorld (sys_close (m_fd (w_sock w)) (w_os w)) (w_errno w)
    (w_trace w ++ [Closed_fd (m_fd (w_sock w))])
    (set_slicer (reset_slicer (m_slicer (w_sock w)))
      (set_fd (-1) (set_state Closed (w_sock w)))).

Lemma close_fast_run w :
  0 < m_fd (w_sock w) → close true w = (Val true, closed_world w).
Proof.
  intros Hfd. unfold close, mbind, M_bind, sock.
  by rewrite andb_false_r, (proj2 (Z.ltb_lt _ _) Hfd).
Qed.

Lemma wp_close_fast w (Q : outcome bool → W → Prop) :
  0 < m_fd (w_sock w) → Q (Val true) (closed_world w) → wp (close true) w Q.
Proof. intros Hfd HQ. unfold wp. by rewrite close_fast_run. Qed.
End close.
