(* ===== verification/Samples.v ===== *)
(** Concrete sockets on the scripted system, for the examples that exercise the
    theorems about sockets. *)
From S2P Require Import Prelude Machine Buffer Framing Slicer Datagram Inet Sys TcpSocket.
Local Open Scope Z_scope.

(** A system that delivers, accepts and hands out what the lists say. *)
Definition scripted (recv : list (list byte + errno)) (write accept : list (Z + errno)) : script :=
  {| sc_recv := recv; sc_write := write; sc_accept := accept; sc_notconn := false;
     sc_connect := None; sc_socket := inl 7; sc_flags := 0;
     sc_peer := Some (x7f, x00, x00, x01, 20480, false) |}.

(** The same when [shutdown] finds no connection or [connect] fails. *)
Definition failing (notconn : bool) (connect : option errno) : script :=
  {| sc_recv := []; sc_write := []; sc_accept := []; sc_notconn := notconn;
     sc_connect := connect; sc_socket := inl 7; sc_flags := 0; sc_peer := None |}.

Definition sample_socket (fd : Z) (st : State) : TcpSocket DatagramMessageSlicer :=
  set_state st (set_fd fd (new_socket (datagram_new (zero_bytes MAX_SIZE))
    DEFAULT_MAX_SEND_QUEUE_SIZE)).

Definition sample_world (σ : script) (fd : Z) (st : State)
    : world script DatagramMessageSlicer :=
  mkWorld σ EAGAIN [] (sample_socket fd st).

(** The message [hi] framed. *)
Definition hi : list byte := [x68; x69].

(** A connected socket with one message to write. *)
Definition sending (σ : script) : world script DatagramMessageSlicer :=
  mkWorld σ EAGAIN [] (set_queue
    [{| mo_length := 6; mo_sent_pos := 0; mo_is_shared := false; mo_data := encode hi |}] 6
    (sample_socket 7 Connected)).

(** The C library of the examples: only [localhost] is known. *)
Definition no_hosts : Inet := libc (λ _, inr "Name or service not known").

Lemma no_hosts_laws : @InetLaws no_hosts.
Proof. apply libc_laws. Qed.

Lemma new_slicer_wf : datagram_wf (datagram_new (zero_bytes MAX_SIZE)).
Proof. by apply datagram_new_wf. Qed.
