(* ===== verification/TcpSend.v ===== *)
(** The send side of [TcpSocket]: what is queued reaches the descriptor in order
    and exactly once, the queue's size is accounted for, and [do_send] ends. *)
From S2P Require Import Prelude Machine Buffer Framing Slicer Datagram Inet Sys TcpSocket TcpBase.
From S2P Require Import Samples.
Local Open Scope Z_scope.

(** * What is still to be written *)

Definition rest_of (m : message_out) : list byte :=
  slice (Z.to_nat (mo_sent_pos m)) (Z.to_nat (mo_length m - mo_sent_pos m)) (mo_data m).

(** The message being written, then the queue. *)
Definition outbox {T} (s : TcpSocket T) : list byte :=
  match m_current_message s with Some m => rest_of m | None => [] end ++
  concat (rest_of <$> m_send_queue s).

Definition message_wf (m : message_out) : Prop :=
  0 ≤ mo_sent_pos m ≤ mo_length m ∧ mo_length m < two32 ∧
  mo_length m ≤ Z.of_nat (length (mo_data m)).

Fixpoint queued_bytes (q : list message_out) : Z :=
  match q with [] => 0 | m :: q' => mo_length m + queued_bytes q' end.

Definition send_wf {T} (s : TcpSocket T) : Prop :=
  match m_current_message s with Some m => message_wf m | None => True end ∧
  Forall message_wf (m_send_queue s) ∧
  m_send_queue_size s = u64 (queued_bytes (m_send_queue s)).

Lemma length_rest_of m :
  message_wf m → Z.of_nat (length (rest_of m)) = mo_length m - mo_sent_pos m.
Proof.
  intros (Hpos & _ & Hlen). unfold rest_of. rewrite length_slice; lia.
Qed.

Lemma queued_bytes_snoc q m : queued_bytes (q ++ [m]) = queued_bytes q + mo_length m.
Proof. induction q as [|x q IH]; simpl; lia. Qed.

(** Sending [n] more bytes of a message. *)
Lemma rest_of_advance m n :
  message_wf m → 0 ≤ n ≤ mo_length m - mo_sent_pos m →
  rest_of m = take (Z.to_nat n) (rest_of m) ++
    rest_of {| mo_length := mo_length m; mo_sent_pos := mo_sent_pos m + n;
               mo_is_shared := mo_is_shared m; mo_data := mo_data m |}.
Proof.
  intros (Hpos & _ & Hlen) Hn. rewrite <- (take_drop (Z.to_nat n) (rest_of m)) at 1.
  f_equal. unfold rest_of, slice. simpl. rewrite skipn_firstn_comm, drop_drop.
  f_equal; [lia|f_equal; lia].
Qed.

(** * Progress of the send side *)

Section send.
Context {Σ T : Type} `{SysLaws Σ} `{MessageSlicer T}.
Abbreviation W := (world Σ T).
Implicit Types (w : W).

(** Messages that are not finished: the measure of the outer loop. *)
Definition unfinished w : nat :=
  length (m_send_queue (w_sock w)) +
  match m_current_message (w_sock w) with Some _ => 1 | None => 0 end.

Definition is_closed w : Prop := m_fd (w_sock w) = -1 ∧ m_state (w_sock w) = Closed.

(** What sending leaves alone: the connection is as before or closed, the slicer
    changes only by a reset of its buffer, the queue only loses messages at its
    front. *)
Definition kept w w' : Prop :=
  ((m_fd (w_sock w') = m_fd (w_sock w) ∧ m_state (w_sock w') = m_state (w_sock w)) ∨
   is_closed w') ∧
  (∀ P : T → Prop, (∀ t, P t → P (reset_slicer t)) →
    P (m_slicer (w_sock w)) → P (m_slicer (w_sock w'))) ∧
  m_max_send_queue_size (w_sock w') = m_max_send_queue_size (w_sock w) ∧
  ∃ gone, m_send_queue (w_sock w) = gone ++ m_send_queue (w_sock w').

(** Nothing is lost, duplicated or reordered between two worlds: what was added
    on descriptor [fd] is what left the front of the bytes to be written. *)
Definition conserved (fd : Z) w w' : Prop :=
  send_wf (w_sock w') ∧ kept w w' ∧
  (unfinished w' ≤ unfinished w)%nat ∧
  ∃ sent, wire fd (w_trace w') = wire fd (w_trace w) ++ sent ∧
    outbox (w_sock w) = sent ++ outbox (w_sock w').

(** The connection is as before. *)
Definition same_conn w w' : Prop :=
  m_fd (w_sock w') = m_fd (w_sock w) ∧ m_state (w_sock w') = m_state (w_sock w) ∧
  m_slicer (w_sock w') = m_slicer (w_sock w).

Lemma kept_refl w : kept w w.
Proof. unfold kept. split_and!; [by left|done|done|by exists []]. Qed.

Lemma kept_trans w1 w2 w3 : kept w1 w2 → kept w2 w3 → kept w1 w3.
Proof.
  unfold kept, is_closed. intros (Hc1 & HP1 & Hm1 & g1 & Hg1) (Hc2 & HP2 & Hm2 & g2 & Hg2).
  split_and!; [intuition congruence|intros P HP Hw; by apply HP2, HP1|congruence|].
  exists (g1 ++ g2). by rewrite Hg1, Hg2, app_assoc.
Qed.

Lemma conserved_trans fd w1 w2 w3 : conserved fd w1 w2 → conserved fd w2 w3 → conserved fd w1 w3.
Proof.
  intros (? & ? & ? & s1 & Hw1 & Ho1) (? & ? & ? & s2 & Hw2 & Ho2).
  split_and!; [done|by eapply kept_trans|lia|].
  exists (s1 ++ s2). by rewrite Hw2, Hw1, Ho1, Ho2, !app_assoc.
Qed.

Lemma same_conn_trans w1 w2 w3 : same_conn w1 w2 → same_conn w2 w3 → same_conn w1 w3.
Proof. unfold same_conn. intros (?&?&?) (?&?&?). split_and!; congruence. Qed.

Lemma conserved_refl fd w : send_wf (w_sock w) → conserved fd w w.
Proof. intros Hwf. split_and!; [done|apply kept_refl|done|]. exists []. by rewrite app_nil_r. Qed.

Lemma conserved_closed w fd :
  send_wf (w_sock w) → conserved fd w (closed_world w).
Proof.
  intros Hwf. unfold conserved, closed_world. simpl.
  split_and!; [done| |done|exists []; by rewrite wire_app, !app_nil_r].
  unfold kept. simpl. split_and!; [by right|auto|done|by exists []].
Qed.

(** The outcome of one [do_send], or of one message. *)
Definition sent_post (fd : Z) w (o : outcome bool) w' : Prop :=
  conserved fd w w' ∧
  match o with
  | Val true => same_conn w w' ∧ outbox (w_sock w') ≠ []
  | Val false =>
      is_closed w' ∨
      (same_conn w w' ∧ m_current_message (w_sock w') = None ∧ m_send_queue (w_sock w') = [])
  | Exn e => ∃ msg, e = socket_error msg ∧ ¬ (0 < m_fd (w_sock w'))
  | Halt _ => False
  end.

Definition message_post (fd : Z) w (o : outcome (option bool)) w' : Prop :=
  m_send_queue (w_sock w') = m_send_queue (w_sock w) ∧
  match o with
  | Val None =>
      conserved fd w w' ∧ same_conn w w' ∧
      ∃ m, m_current_message (w_sock w') = Some m ∧ rest_of m = []
  | Val (Some b) => sent_post fd w (Val b) w'
  | Exn e => sent_post fd w (Exn e) w'
  | Halt h => False
  end.

(** Bytes of the current message still to be written: the measure of the inner
    loop. *)
Definition unsent w : nat :=
  match m_current_message (w_sock w) with Some m => length (rest_of m) | None => 0 end.

(** The invariant of the inner loop started in [w0]. *)
Definition write_inv (fd : Z) w0 w : Prop :=
  conserved fd w0 w ∧ same_conn w0 w ∧ 0 < fd ∧ m_fd (w_sock w) = fd ∧
  m_send_queue (w_sock w) = m_send_queue (w_sock w0) ∧
  ∃ m, m_current_message (w_sock w) = Some m.

Lemma close_post fd w0 w :
  conserved fd w0 w → 0 < m_fd (w_sock w) →
  m_send_queue (w_sock w) = m_send_queue (w_sock w0) →
  conserved fd w0 (closed_world w) ∧ is_closed (closed_world w) ∧
  ¬ (0 < m_fd (w_sock (closed_world w))) ∧
  m_send_queue (w_sock (closed_world w)) = m_send_queue (w_sock w0).
Proof.
  intros Hc Hfd Hq. split_and!; simpl; [|done|lia|done].
  eapply conserved_trans; [done|]. apply conserved_closed, Hc.
Qed.

Lemma write_step_spec fd w0 w :
  write_inv fd w0 w →
  wp write_step w (iter_post (write_inv fd w0) unsent (message_post fd w0) w).
Proof.
  intros (Hc & Hs & Hpos & Hfd & Hq & m & Hm). pose proof Hc as ((Hwfm & Hwfq & Hsz) & Hmax & Hun & sent & Hwire & Hout).
  rewrite Hm in Hwfm. pose proof (length_rest_of m Hwfm) as Hlr.
  pose proof Hwfm as (Hsent & H32 & Hlen). unfold two32 in *.
  unfold write_step. tcp_step. tcp_step. simpl. rewrite Hm.
  destruct (mo_sent_pos m <? mo_length m) eqn:Hlt; simpl; bool_to_prop.
  2:{ tcp_step. simpl. split; [done|]. split_and!; [done|done|]. exists m. split; [done|].
      apply length_zero_iff_nil. lia. }
  rewrite u32_small by lia.
  tcp_step. apply wp_read_slice; [lia..|]. fold (rest_of m). simpl.
  tcp_step. tcp_step. simpl.
  destruct a as [n|e].
  - pose proof (write_bound _ _ _ _ _ H2) as Hn. tcp_step.
    + (* some bytes were accepted *)
      bool_to_prop. repeat (tcp_step; simpl). rewrite u32_small by lia.
      set (m' := {| mo_length := _ |}).
      pose proof (rest_of_advance m n Hwfm ltac:(lia)) as Hadv. fold m' in Hadv.
      assert (message_wf m') as Hwf' by (unfold message_wf, m', two32; simpl; lia).
      split; [split; [|by split_and!; simpl; eauto]|].
      * unfold conserved. simpl. split_and!; [done|done|unfold unfinished in *; simpl; by rewrite Hm in Hun|].
        exists (sent ++ take (Z.to_nat n) (rest_of m)). rewrite wire_app, Hwire, Hout, Hfd.
        simpl. rewrite Z.eqb_refl, app_nil_r. split; [by rewrite app_assoc|].
        unfold outbox; simpl. rewrite Hm, Hadv at 1. by rewrite <- !app_assoc.
      * unfold unsent. simpl. rewrite Hm. pose proof (length_rest_of m' Hwf') as Hlr'.
        simpl in Hlr'. lia.
    + (* write returned 0 *)
      destruct (close_post fd w0 (mkWorld σ (w_errno w) (w_trace w) (w_sock w)))
        as (?&?&?&?); simpl; try done; [lia|].
      tcp_step. apply wp_close_fast; simpl; [lia|]. tcp_step. simpl.
      split; [done|]. split; [done|by left].
  - destruct (close_post fd w0 (mkWorld σ (w_errno w) (w_trace w) (w_sock w)))
        as (?&?&?&?); simpl; try done; [lia|].
    destruct e; simpl.
    2-5: tcp_step; apply wp_close_fast; simpl; [lia|]; tcp_step; simpl; split; [done|];
      split; [done|first [by left|by eexists]].
    (* the descriptor is full *)
    tcp_step. simpl. split; [done|]. split_and!; [done|done|].
    unfold outbox. simpl. rewrite Hm. intros Hnil. apply app_eq_nil in Hnil as [Hnil _].
    rewrite Hnil in Hlr. simpl in Hlr. lia.
Qed.

Lemma write_message_spec fd fuel w :
  send_wf (w_sock w) → 0 < fd → m_fd (w_sock w) = fd →
  (∃ m, m_current_message (w_sock w) = Some m) → (unsent w < fuel)%nat →
  wp (write_message fuel) w (message_post fd w).
Proof.
  intros Hwf Hpos Hfd Hm Hfuel.
  apply (wp_iter (write_inv fd w) unsent); [by apply write_step_spec| |done].
  split_and!; try done; by apply conserved_refl.
Qed.

Lemma next_message_spec fd w :
  send_wf (w_sock w) →
  wp next_message w (λ o w',
    (o = Val false ∧ w' = w ∧ m_current_message (w_sock w) = None ∧
     m_send_queue (w_sock w) = []) ∨
    (o = Val true ∧ conserved fd w w' ∧ same_conn w w' ∧ unfinished w' = unfinished w ∧
     ∃ m, m_current_message (w_sock w') = Some m)).
Proof.
  intros Hwf. pose proof Hwf as (Hwfm & Hwfq & Hsz). unfold next_message. tcp_step. tcp_step. simpl.
  destruct (m_current_message (w_sock w)) as [m|] eqn:Hm.
  { tcp_step. right. split_and!; eauto using conserved_refl; done. }
  destruct (m_send_queue (w_sock w)) as [|it rest] eqn:Hq; [tcp_step; by left|].
  repeat (tcp_step; simpl). right. inversion_clear Hwfq as [|?? Hit Hrest].
  assert (unfinished w = S (length rest)) as Hun
    by (unfold unfinished; rewrite Hm, Hq; simpl; lia).
  split_and!; [done| |done|rewrite Hun; unfold unfinished; simpl; lia|by eexists].
  - unfold conserved, send_wf. simpl. split_and!; try done.
    + rewrite Hsz. simpl. rewrite u64_sub_l. f_equal. lia.
    + unfold kept. simpl. split_and!; [by left|done|done|by exists [it]].
    + rewrite Hun. unfold unfinished. simpl. lia.
    + exists []. rewrite app_nil_r. split; [done|]. unfold outbox. simpl. by rewrite Hm, Hq.
Qed.

(** The invariant of [do_send] started in [w0]. *)
Definition do_send_inv (fd : Z) w0 w : Prop :=
  conserved fd w0 w ∧ same_conn w0 w ∧ (m_fd (w_sock w) = fd ∨ m_fd (w_sock w) ≤ 0).

Lemma sent_post_trans fd w0 w o w' :
  conserved fd w0 w → same_conn w0 w → sent_post fd w o w' → sent_post fd w0 o w'.
Proof.
  intros Hc Hs [Hc' Ho]. split; [by eapply conserved_trans|].
  destruct o as [[|]|e|h]; [destruct Ho|destruct Ho as [|[? ?]]| |]; eauto using same_conn_trans.
Qed.

Lemma conserved_outbox fd w w' :
  conserved fd w w' → (length (outbox (w_sock w')) ≤ length (outbox (w_sock w)))%nat.
Proof. intros (_ & _ & _ & sent & _ & ->). rewrite length_app. lia. Qed.

Lemma unsent_outbox w : (unsent w ≤ length (outbox (w_sock w)))%nat.
Proof.
  unfold unsent, outbox. destruct (m_current_message (w_sock w)); simpl; [|lia].
  rewrite length_app. lia.
Qed.

Lemma send_step_spec fd fuel w0 w :
  (length (outbox (w_sock w0)) < fuel)%nat →
  do_send_inv fd w0 w →
  wp (send_step fuel) w (iter_post (do_send_inv fd w0) unfinished (sent_post fd w0) w).
Proof.
  intros Hfuel (Hc & Hs & Hfd). unfold send_step. tcp_step.
  eapply wp_mono; [apply (next_message_spec fd), Hc|].
  intros ? w1 [(-> & -> & Hm & Hq)|(-> & Hc1 & Hs1 & Hun & Hm)]; simpl.
  { tcp_step. split; [done|]. right. by split_and!. }
  assert (conserved fd w0 w1) as Hc01 by by eapply conserved_trans.
  assert (same_conn w0 w1) as Hs01 by by eapply same_conn_trans.
  assert (m_fd (w_sock w1) = m_fd (w_sock w)) as Hfdeq by apply Hs1.
  tcp_step. tcp_step. simpl. unfold is_valid_sock.
  destruct (0 <? m_fd (w_sock w1)) eqn:Hpos; simpl; bool_to_prop.
  2:{ tcp_step. split; [done|]. eexists. split; [done|]. lia. }
  assert (m_fd (w_sock w1) = fd) as Hfd1 by lia.
  pose proof (conserved_outbox fd w0 w1 Hc01). pose proof (unsent_outbox w1).
  tcp_step. eapply wp_mono; [apply write_message_spec with (fd := fd); try done; [apply Hc01|lia..]|].
  intros [[b|]|e|h] w2 [Hq2 Ho]; simpl; [tcp_step; by eapply sent_post_trans| | |done].
  - destruct Ho as (Hc2 & Hs2 & m & Hm2 & Hnil). tcp_step. tcp_step. tcp_step.
    split; [split_and!|]; simpl.
    + eapply conserved_trans; [done|]. destruct Hc2 as ((_ & ? & ?) & ? & ? & sent & ? & Ho).
      split_and!; simpl; [by split_and!|done|unfold unfinished in *; simpl; lia|]. exists sent. split; [done|]. rewrite Ho.
      unfold outbox. simpl. by rewrite Hm2, Hnil.
    + eapply same_conn_trans; done.
    + left. rewrite <- Hfd1. apply Hs2.
    + destruct Hm as [m1 Hm1]. unfold unfinished in *. simpl. rewrite Hq2, Hm1 in *. lia.
  - by eapply sent_post_trans.
Qed.

Lemma do_send_spec fd fuel w :
  send_wf (w_sock w) → m_fd (w_sock w) = fd ∨ m_fd (w_sock w) ≤ 0 →
  (unfinished w + length (outbox (w_sock w)) < fuel)%nat →
  wp (do_send fuel) w (sent_post fd w).
Proof.
  intros Hwf Hfd Hfuel.
  apply (wp_iter (do_send_inv fd w) unfinished); [|split_and!|lia]; try done.
  - intros w' Hinv. apply send_step_spec; [lia|done].
  - by apply conserved_refl.
Qed.

(** C20: [do_send] ends, and whatever the descriptor accepts, refuses or fails
    with, the bytes it adds to the wire are exactly the bytes that leave the
    front of the outgoing data (message in progress, then the queue): nothing is
    lost, repeated or reordered. It returns [true] only when the descriptor is
    full with data left and an unchanged connection, [false] only when all is
    sent or the connection was closed, and throws only a [socket_error] on a
    descriptor that is closed (by it or before). *)
Theorem do_send_in_order fuel w :
  send_wf (w_sock w) → (unfinished w + length (outbox (w_sock w)) < fuel)%nat →
  wp (do_send fuel) w (λ o w',
    send_wf (w_sock w') ∧
    (∃ sent, wire (m_fd (w_sock w)) (w_trace w') = wire (m_fd (w_sock w)) (w_trace w) ++ sent ∧
      outbox (w_sock w) = sent ++ outbox (w_sock w')) ∧
    match o with
    | Val true => same_conn w w' ∧ outbox (w_sock w') ≠ []
    | Val false =>
        is_closed w' ∨
        (same_conn w w' ∧ m_current_message (w_sock w') = None ∧ m_send_queue (w_sock w') = [])
    | Exn e => (∃ msg, e = socket_error msg) ∧ m_fd (w_sock w') ≤ 0
    | Halt _ => False
    end).
Proof.
  intros Hwf Hfuel. eapply wp_mono; [apply (do_send_spec (m_fd (w_sock w))); [done|by left|done]|].
  intros o w' [(Hwf' & _ & _ & sent & Hw & Ho) Hres]. split_and!; [done|by exists sent|].
  destruct o as [[|]|e|h]; try done. destruct Hres as (msg & -> & Hfd). split; [by exists msg|lia].
Qed.
End send.

(** A descriptor that takes two bytes and is full. *)
Lemma do_send_in_order_witness :
  wire 7 (w_trace (do_send 20 (sending (scripted [] [inl 2] []))).2) = [x06; x00] ∧
  outbox (w_sock (do_send 20 (sending (scripted [] [inl 2] []))).2) = [x00; x00; x68; x69].
Proof.
  destruct (do_send_in_order 20 (sending (scripted [] [inl 2] []))) as (_ & (sent & Hw & Ho) & _).
  - split_and!; [done| |done]. constructor; [|constructor].
    unfold message_wf, two32. vm_compute. intuition congruence.
  - vm_compute. lia.
  - vm_compute in Hw, Ho. split; vm_compute; congruence.
Defined.
