(* ===== verification/TcpRecv.v ===== *)
(** The receive side of [TcpSocket]: [pull_messages] and [receive] turn whatever
    chunks the descriptor delivers into the messages the slicer's contract
    promises, and end when the descriptor has nothing more. *)
From S2P Require Import Prelude Machine Buffer Framing Slicer Datagram Stream Inet Sys TcpSocket.
From S2P Require Import TcpBase Samples.
Local Open Scope Z_scope.

(** * What the descriptor delivers *)

Section recv.
Context {Σ T : Type} `{SysLaws Σ} `{SlicerLaws T}.
Abbreviation W := (world Σ T).
Implicit Types (w : W).

(** Successive [recv]s give the chunks [cs] and then [last]: an error or the end
    of the stream. *)
Inductive delivers (fd : Z) : list (list byte) → list byte + errno → Σ → Σ → Prop :=
| delivers_end last σ σ' :
    sys_recv fd MAX_SIZE σ = (last, σ') → (∀ b bs, last ≠ inl (b :: bs)) →
    delivers fd [] last σ σ'
| delivers_chunk c cs last σ σ1 σ' :
    sys_recv fd MAX_SIZE σ = (inl c, σ1) → c ≠ [] →
    delivers fd cs last σ1 σ' → delivers fd (c :: cs) last σ σ'.

(** What becomes of the connection when the stream ends that way. *)
Definition end_post (last : list byte + errno) w (o : outcome unit) w' : Prop :=
  match last with
  | inr EAGAIN =>
      o = Val tt ∧ m_fd (w_sock w') = m_fd (w_sock w) ∧
      m_state (w_sock w') = m_state (w_sock w)
  | inl _ | inr ECONNRESET =>
      o = Val tt ∧ m_fd (w_sock w') = -1 ∧ m_state (w_sock w') = Closed
  | inr e =>
      o = Exn (socket_error ("Failed to receive data; " +:+ strerror e)) ∧
      m_fd (w_sock w') = -1 ∧ m_state (w_sock w') = Closed
  end.

(** The send side is not touched. *)
Definition same_send w w' : Prop :=
  m_send_queue (w_sock w') = m_send_queue (w_sock w) ∧
  m_current_message (w_sock w') = m_current_message (w_sock w) ∧
  m_send_queue_size (w_sock w') = m_send_queue_size (w_sock w).

(** The view and the queue of messages once the unread bytes and the chunks to
    come have been processed. *)
Definition foreseen (cs : list (list byte)) (t : T) : view_t * list (list byte) :=
  let '(v, out) := step (view t) (unread (slicer_buffer t)) in
  ((steps v cs).1, delivered t ++ out ++ (steps v cs).2).

Definition pull_post (final : view_t * list (list byte)) last w (o : outcome unit) w' : Prop :=
  end_post last w o w' ∧ same_send w w' ∧
  slicer_wf (m_slicer (w_sock w')) ∧
  buf_is_valid (slicer_buffer (m_slicer (w_sock w'))) = false ∧
  (view (m_slicer (w_sock w')), delivered (m_slicer (w_sock w'))) = final.

Lemma foreseen_invalid cs t :
  buf_is_valid (slicer_buffer t) = false →
  foreseen cs t = ((steps (view t) cs).1, delivered t ++ (steps (view t) cs).2).
Proof. intros Hv. unfold foreseen. by rewrite unread_invalid, step_nil. Qed.

(** One call of the slicer does not change what is foreseen. *)
Lemma foreseen_process cs t :
  slicer_wf t → buf_is_valid (slicer_buffer t) = true →
  wp slicer_process_buffer t (λ o t',
    (o = Val tt ∨ ∃ e, o = Exn e) ∧ slicer_wf t' ∧
    (length (unread (slicer_buffer t')) < length (unread (slicer_buffer t)) ∨
     buf_is_valid (slicer_buffer t') = false)%nat ∧
    foreseen cs t' = foreseen cs t).
Proof.
  intros Hwf Hv. eapply wp_mono; [by apply process_buffer_spec|].
  intros o t' (Ho & Hwf' & Hprog & out & Hd & Hstep). split_and!; try done.
  unfold foreseen. rewrite Hstep, Hd. destruct (step (view t') _) as [v out'].
  simpl. by rewrite !app_assoc.
Qed.

(** An invalid buffer, or one that has just been filled, can be handed over. *)
Lemma set_buffer_fresh b t :
  slicer_wf t → buf_wf b → buf_is_valid b = false ∨ m_position b = 0 →
  slicer_wf (slicer_set_buffer b t).
Proof.
  intros Hwf Hb Hpos. apply set_buffer_wf; [done|done|].
  destruct Hpos as [Hv|]; [|lia]. destruct Hb as [_ [[_ ->]|[? _]]]; [lia|].
  unfold buf_is_valid in Hv. bool_to_prop. lia.
Qed.

Lemma foreseen_fill c cs t b :
  slicer_wf t → buf_is_valid (slicer_buffer t) = false →
  0 < Z.of_nat (length c) ≤ MAX_SIZE →
  foreseen cs (slicer_set_buffer (buf_fill c b) t) = foreseen (c :: cs) t.
Proof.
  intros Hwf Hv Hc. rewrite (foreseen_invalid (c :: cs) t Hv). unfold foreseen.
  rewrite set_buffer_buffer, set_buffer_view, set_buffer_delivered, unread_fill by done.
  simpl. destruct (step (view t) c) as [v out]. done.
Qed.

(** A slicer whose buffer is replaced by an empty one. *)
Lemma foreseen_empty cs t b :
  slicer_wf t → buf_is_valid (slicer_buffer t) = false → buf_is_valid b = false →
  foreseen cs (slicer_set_buffer b t) = foreseen cs t.
Proof.
  intros Hwf Hv Hb. rewrite !foreseen_invalid by (rewrite ?set_buffer_buffer; done).
  by rewrite set_buffer_view, set_buffer_delivered.
Qed.

(** The zeroed buffer [recv] writes into. *)
Lemma zeroed_wf b : buf_wf b → buf_wf (buf_set_data (zero_bytes MAX_SIZE) b).
Proof.
  intros [_ Hb]. split; [|done]. cbn [m_data buf_set_data]. apply length_zero_bytes. unfold MAX_SIZE. lia.
Qed.

(** ** receive_data *)

Definition recv_post cs last σ' w (o : outcome bool) w' : Prop :=
  same_send w w' ∧ slicer_wf (m_slicer (w_sock w')) ∧
  match cs with
  | [] =>
      buf_is_valid (slicer_buffer (m_slicer (w_sock w'))) = false ∧
      foreseen [] (m_slicer (w_sock w')) = foreseen [] (m_slicer (w_sock w)) ∧
      match o with
      | Val got => got = false ∧ end_post last w (Val tt) w'
      | Exn e => end_post last w (Exn e) w'
      | Halt _ => False
      end
  | c :: cs' =>
      o = Val true ∧ m_fd (w_sock w') = m_fd (w_sock w) ∧
      m_state (w_sock w') = m_state (w_sock w) ∧
      delivers (m_fd (w_sock w)) cs' last (w_os w') σ' ∧
      buf_is_valid (slicer_buffer (m_slicer (w_sock w'))) = true ∧
      unread (slicer_buffer (m_slicer (w_sock w'))) = c ∧
      foreseen cs' (m_slicer (w_sock w')) = foreseen cs (m_slicer (w_sock w))
  end.

Lemma reset_slicer_spec t :
  slicer_wf t →
  slicer_wf (reset_slicer t) ∧ buf_is_valid (slicer_buffer (reset_slicer t)) = false ∧
  view (reset_slicer t) = view t ∧ delivered (reset_slicer t) = delivered t.
Proof.
  intros Hwf. unfold reset_slicer.
  rewrite set_buffer_buffer, set_buffer_view, set_buffer_delivered. split_and!; try done.
  apply set_buffer_wf; [done| |done]. apply buf_reset_wf, wf_buffer, Hwf.
Qed.

Lemma receive_data_spec cs last σ' w :
  slicer_wf (m_slicer (w_sock w)) →
  buf_is_valid (slicer_buffer (m_slicer (w_sock w))) = false →
  0 < m_fd (w_sock w) → delivers (m_fd (w_sock w)) cs last (w_os w) σ' →
  wp receive_data w (recv_post cs last σ' w).
Proof.
  intros Hwf Hv Hfd Hdel. unfold receive_data. tcp_step. tcp_step. cbn [seq_post].
  unfold is_valid_sock. rewrite (proj2 (Z.ltb_lt _ _) Hfd), Hv. cbn [negb].
  set (t := m_slicer (w_sock w)) in *.
  set (t0 := slicer_set_buffer (buf_set_data (zero_bytes MAX_SIZE) (slicer_buffer t)) t).
  pose proof (wf_buffer t Hwf) as Hbwf.
  assert (slicer_wf t0) as Hwf0.
  { apply set_buffer_fresh; [done|by apply zeroed_wf|by left]. }
  assert (buf_is_valid (slicer_buffer t0) = false) as Hv0
    by (unfold t0; by rewrite set_buffer_buffer).
  assert (foreseen [] t0 = foreseen [] t) as Hf0 by (by apply foreseen_empty).
  destruct (reset_slicer_spec t0 Hwf0) as (Hwfr & Hvr & Hview & Hdr).
  assert (foreseen [] (reset_slicer t0) = foreseen [] t) as Hfr.
  { rewrite <- Hf0, !foreseen_invalid by done. by rewrite Hview, Hdr. }
  tcp_step. tcp_step. cbn [seq_post]. tcp_step. tcp_step. cbn [seq_post].
  inversion Hdel as [last' σ0 σ0' Hrecv Hlast|c cs' last' σ0 σ1 σ0' Hrecv Hne Hrest]; subst.
  - (* the stream pauses or ends *)
    simpl in *. rewrite Hrecv in *. match goal with E : (_, _) = (_, _) |- _ => injection E as <- <- end.
    destruct last as [[|b bs]|e]; [|by destruct (Hlast b bs)|].
    + tcp_step. apply wp_close_fast; [done|]. tcp_step. by split_and!.
    + destruct e; repeat first [tcp_step | apply wp_close_fast; [done|]]; simpl; by split_and!.
  - (* a chunk *)
    simpl in *. rewrite Hrecv in *. match goal with E : (_, _) = (_, _) |- _ => injection E as <- <- end.
    assert (0 < Z.of_nat (length c) ≤ MAX_SIZE) as Hc.
    { split; [apply length_pos in Hne; lia|]. eapply recv_bound; [|done]. unfold MAX_SIZE. lia. }
    destruct c as [|b c]; [done|]. set (c' := b :: c) in *.
    tcp_step. tcp_step. cbn [seq_post]. tcp_step.
    apply wp_write_slice; [lia|rewrite length_zero_bytes; unfold MAX_SIZE in *; lia|].
    cbn [seq_post]. tcp_step. tcp_step. tcp_step.
    change (Z.to_nat 0) with 0%nat. fold (buf_fill c' (slicer_buffer t)).
    destruct (buf_fill_wf c' (slicer_buffer t) Hc) as (Hfw & Hfv & Hfr').
    split_and!; try done; simpl; rewrite ?set_buffer_buffer; [|done|by apply unread_fill|].
    + apply set_buffer_fresh; [done|done|by right].
    + by apply foreseen_fill.
Qed.

(** ** pull_messages *)

Fixpoint chunk_cost (cs : list (list byte)) : nat :=
  match cs with [] => 0 | c :: cs' => S (length c) + chunk_cost cs' end.

(** Iterations the unread bytes can still take. *)
Definition unread_cost (t : T) : nat :=
  if buf_is_valid (slicer_buffer t) then S (length (unread (slicer_buffer t))) else 0.

(** The invariant of [pull_messages] started in [w0]. *)
Definition pull_inv final last σ' w0 (n : nat) w : Prop :=
  ∃ cs, delivers (m_fd (w_sock w0)) cs last (w_os w) σ' ∧
    n = (chunk_cost cs + unread_cost (m_slicer (w_sock w)))%nat ∧
    0 < m_fd (w_sock w0) ∧ m_fd (w_sock w) = m_fd (w_sock w0) ∧
    m_state (w_sock w) = m_state (w_sock w0) ∧ same_send w0 w ∧
    slicer_wf (m_slicer (w_sock w)) ∧ foreseen cs (m_slicer (w_sock w)) = final.

Definition pull_step_post final last σ' w0 (n : nat) (o : outcome (option unit)) w : Prop :=
  match o with
  | Val None => ∃ n', (n' < n)%nat ∧ pull_inv final last σ' w0 n' w
  | Val (Some u) => pull_post final last w0 (Val u) w
  | Exn e => pull_post final last w0 (Exn e) w
  | Halt h => pull_post final last w0 (Halt h) w
  end.

Lemma same_send_trans w1 w2 w3 : same_send w1 w2 → same_send w2 w3 → same_send w1 w3.
Proof. unfold same_send. intros (?&?&?) (?&?&?). split_and!; congruence. Qed.

(** The call of the slicer with a valid buffer. *)
Lemma process_step_spec final last σ' w0 cs n w :
  delivers (m_fd (w_sock w0)) cs last (w_os w) σ' →
  (chunk_cost cs + length (unread (slicer_buffer (m_slicer (w_sock w)))) < n)%nat →
  0 < m_fd (w_sock w0) → m_fd (w_sock w) = m_fd (w_sock w0) →
  m_state (w_sock w) = m_state (w_sock w0) → same_send w0 w →
  slicer_wf (m_slicer (w_sock w)) → foreseen cs (m_slicer (w_sock w)) = final →
  buf_is_valid (slicer_buffer (m_slicer (w_sock w))) = true →
  wp (catch (on_slicer slicer_process_buffer) (λ _, mret tt);; mret None) w
    (pull_step_post final last σ' w0 n).
Proof.
  intros Hdel Hn Hpos Hfd Hst Hsend Hwf Hfinal Hv.
  tcp_step. tcp_step. tcp_step. eapply wp_mono; [by apply (foreseen_process cs)|].
  intros o t' (Ho & Hwf' & Hprog & Hf).
  assert (pull_step_post final last σ' w0 n (Val None)
    (mkWorld (w_os w) (w_errno w) (w_trace w) (set_slicer t' (w_sock w)))) as Hnext.
  { eexists. split; [|exists cs; by split_and!; simpl; eauto; rewrite ?Hf].
    simpl. unfold unread_cost. destruct Hprog as [Hlt| ->]; [|lia].
    destruct (buf_is_valid (slicer_buffer t')); lia. }
  by destruct Ho as [-> |[e ->]]; repeat tcp_step.
Qed.

Lemma pull_step_spec final last σ' w0 n w :
  pull_inv final last σ' w0 n w →
  wp pull_step w (pull_step_post final last σ' w0 n).
Proof.
  intros (cs & Hdel & -> & Hpos & Hfd & Hst & Hsend & Hwf & Hfinal).
  unfold pull_step, unread_cost. tcp_step. tcp_step. cbn [seq_post].
  destruct (buf_is_valid _) eqn:Hv; cbn [negb].
  { tcp_step. tcp_step. cbn [seq_post negb]. apply process_step_spec with (cs := cs); try done. lia. }
  tcp_step. rewrite <- Hfd in Hpos, Hdel.
  eapply wp_mono; [by apply (receive_data_spec cs last σ')|].
  intros o w' (Hsend' & Hwf' & Hcs). pose proof (same_send_trans _ _ _ Hsend Hsend') as Hsend0.
  destruct cs as [|c cs'].
  - destruct Hcs as (Hv' & Hf & Ho).
    assert (∀ o' : outcome unit, end_post last w o' w' → pull_post final last w0 o' w') as Hpost.
    { intros o' Hend. unfold pull_post. split_and!; try done.
      - unfold end_post in *. by rewrite <- Hfd, <- Hst.
      - rewrite <- Hfinal, <- Hf, foreseen_invalid by done. simpl. by rewrite app_nil_r. }
    destruct o as [got|e|h]; [destruct Ho as [-> Hend]| |done]; simpl; [tcp_step|]; by apply Hpost.
  - destruct Hcs as (-> & Hfd' & Hst' & Hdel' & Hv' & Hun & Hf). cbn [seq_post negb].
    rewrite Hfd in Hdel', Hpos. apply process_step_spec with (cs := cs'); try done.
    + rewrite Hun. simpl. lia.
    + by rewrite Hfd'.
    + by rewrite Hst'.
    + by rewrite Hf.
Qed.

Lemma pull_messages_spec cs last σ' fuel w :
  slicer_wf (m_slicer (w_sock w)) →
  buf_is_valid (slicer_buffer (m_slicer (w_sock w))) = false →
  0 < m_fd (w_sock w) → delivers (m_fd (w_sock w)) cs last (w_os w) σ' →
  (chunk_cost cs < fuel)%nat →
  wp (pull_messages fuel) w (pull_post
    ((steps (view (m_slicer (w_sock w))) cs).1,
     delivered (m_slicer (w_sock w)) ++ (steps (view (m_slicer (w_sock w))) cs).2) last w).
Proof.
  intros Hwf Hv Hpos Hdel Hfuel. rewrite <- foreseen_invalid by done.
  apply (wp_iter_indexed (pull_inv (foreseen cs (m_slicer (w_sock w))) last σ' w))
    with (n := chunk_cost cs); [intros n w1 Hinv; by apply pull_step_spec| |done].
  exists cs. unfold unread_cost. rewrite Hv. split_and!; try done.
Qed.

(** C21: [pull_messages] drains the descriptor: given the chunks it delivers and
    how it ends, the call ends too, the slicer has seen every byte exactly once
    and in order (whatever exceptions it threw on the way), its buffer is empty
    again, and the connection is kept on [EAGAIN], closed at the end of the
    stream or on [ECONNRESET], and closed with a [socket_error] otherwise. *)
Theorem pull_messages_drains cs last σ' fuel w :
  slicer_wf (m_slicer (w_sock w)) →
  buf_is_valid (slicer_buffer (m_slicer (w_sock w))) = false →
  0 < m_fd (w_sock w) → delivers (m_fd (w_sock w)) cs last (w_os w) σ' →
  (chunk_cost cs < fuel)%nat →
  wp (pull_messages fuel) w (λ o w',
    end_post last w o w' ∧ same_send w w' ∧
    let t := m_slicer (w_sock w) in
    let t' := m_slicer (w_sock w') in
    slicer_wf t' ∧ buf_is_valid (slicer_buffer t') = false ∧
    view t' = (steps (view t) cs).1 ∧
    delivered t' = delivered t ++ (steps (view t) cs).2).
Proof.
  intros Hwf Hv Hpos Hdel Hfuel. eapply wp_mono; [by apply (pull_messages_spec cs last σ')|].
  intros o w' (? & ? & ? & ? & [= ??]). by split_and!.
Qed.

(** [receive] pulls everything that has arrived and hands out the oldest
    message; the others stay queued for the next calls. Without a message it
    returns nothing. When the descriptor fails, it throws even if messages are
    queued, and keeps them. *)
Theorem receive_oldest cs last σ' fuel w :
  slicer_wf (m_slicer (w_sock w)) →
  buf_is_valid (slicer_buffer (m_slicer (w_sock w))) = false →
  0 < m_fd (w_sock w) → delivers (m_fd (w_sock w)) cs last (w_os w) σ' →
  (chunk_cost cs < fuel)%nat →
  wp (receive fuel) w (λ o w',
    let msgs := delivered (m_slicer (w_sock w)) ++ (steps (view (m_slicer (w_sock w))) cs).2 in
    let queued := delivered (m_slicer (w_sock w')) in
    slicer_wf (m_slicer (w_sock w')) ∧
    match last with
    | inl _ | inr EAGAIN | inr ECONNRESET =>
        match msgs with
        | [] => o = Val None ∧ queued = []
        | p :: ps => o = Val (Some (delivered_message p)) ∧ queued = ps
        end
    | inr e =>
        o = Exn (socket_error ("Failed to receive data; " +:+ strerror e)) ∧ queued = msgs
    end).
Proof.
  intros Hwf Hv Hpos Hdel Hfuel. unfold receive. tcp_step.
  eapply wp_mono; [by apply (pull_messages_spec cs last σ')|].
  intros o w' (Hend & _ & Hwf' & _ & Hfinal). injection Hfinal as _ Hd. revert Hd.
  set (msgs := delivered (m_slicer (w_sock w)) ++ _). intros Hd.
  assert (o = Val tt → wp
    (s ← sock; if slicer_has_messages (m_slicer s) then
       res ← on_slicer slicer_get_message;
       match res with None => throw (socket_error "failed to get message") | Some msg => mret (Some msg) end
     else mret None) w' (λ o w', slicer_wf (m_slicer (w_sock w')) ∧
       match msgs with
       | [] => o = Val None ∧ delivered (m_slicer (w_sock w')) = []
       | p :: ps => o = Val (Some (delivered_message p)) ∧ delivered (m_slicer (w_sock w')) = ps
       end)) as Hget.
  { intros _. tcp_step. tcp_step. cbn [seq_post].
    pose proof (has_messages_spec _ Hwf') as Hhas. rewrite Hd in Hhas.
    pose proof (get_message_spec _ Hwf') as Hmsg. rewrite Hd in Hmsg.
    destruct (slicer_has_messages (m_slicer (w_sock w'))); destruct msgs as [|p ps].
    - by destruct (proj1 Hhas eq_refl).
    - tcp_step. tcp_step. eapply wp_mono; [exact Hmsg|].
      intros ? t' (? & _ & _ & -> & ?). simpl. by tcp_step.
    - by tcp_step.
    - by discriminate (proj2 Hhas). }
  destruct last as [bs|[]]; destruct Hend as (-> & _); cbn [seq_post];
    try (eapply wp_mono; [by apply Hget|intros ?? [??]; by split]); by split_and!.
Qed.
End recv.

(** In stream mode the messages are the chunks the descriptor delivered, in
    order. *)
Theorem pull_messages_stream {Σ} `{SysLaws Σ} cs last σ' fuel (w : world Σ StreamMessageSlicer) :
  stream_wf (m_slicer (w_sock w)) →
  buf_is_valid (Stream.m_buffer (m_slicer (w_sock w))) = false →
  0 < m_fd (w_sock w) → delivers (m_fd (w_sock w)) cs last (w_os w) σ' →
  (chunk_cost cs < fuel)%nat →
  wp (pull_messages fuel) w (λ o w', end_post last w o w' ∧
    Stream.m_messages (m_slicer (w_sock w')) =
    Stream.m_messages (m_slicer (w_sock w)) ++ (delivered_message <$> cs)).
Proof.
  intros Hwf Hv Hpos Hdel Hfuel. eapply wp_mono; [by apply (pull_messages_spec cs last σ')|].
  intros o w' (Hend & _ & Hwf' & _ & [= _ Hd]). split; [done|].
  assert (∀ v : view_t (T:=StreamMessageSlicer), (steps v cs).2 = cs) as Hcs.
  { clear -Hdel. induction Hdel as [|c cs last σ σ1 σ' _ Hne _ IH]; intros v; [done|].
    simpl. rewrite IH. by destruct c. }
  change (stream_delivered (m_slicer (w_sock w')) = stream_delivered (m_slicer (w_sock w)) ++
    (steps (tt : view_t (T:=StreamMessageSlicer)) cs).2) in Hd. rewrite Hcs in Hd.
  destruct Hwf as (_ & _ & ps & Hps), Hwf' as (_ & _ & ps' & Hps'). revert Hd.
  simpl. unfold stream_delivered. rewrite Hps, Hps', !payloads_of_delivered.
  intros ->. by rewrite fmap_app.
Qed.

(** ** Witnesses *)

(** Two messages in three chunks, then the peer closes. *)
Definition two_messages : list (list byte) :=
  [[x06; x00]; [x00; x00; x68; x69; x05]; [x00; x00; x00; x21]].

Definition closing_receiver : world script DatagramMessageSlicer :=
  sample_world (scripted ((inl <$> two_messages) ++ [inl []]) [] []) 9 Connected.

Lemma closing_receiver_delivers :
  ∃ σ, delivers 9 two_messages (inl []) (w_os closing_receiver) σ.
Proof.
  eexists. do 3 (eapply delivers_chunk; [reflexivity|done|]).
  eapply delivers_end; [reflexivity|done].
Qed.

Lemma pull_messages_drains_witness :
  m_state (w_sock (pull_messages 50 closing_receiver).2) = Closed ∧
  delivered (m_slicer (w_sock (pull_messages 50 closing_receiver).2)) = [hi; [x21]].
Proof.
  destruct closing_receiver_delivers as [σ Hdel].
  destruct (pull_messages_drains two_messages (inl []) σ 50 closing_receiver)
    as ((_ & _ & Hst) & _ & _ & _ & _ & Hd);
    [apply new_slicer_wf|done|done|done|vm_compute; lia|].
  split; [exact Hst|]. rewrite Hd. by vm_compute.
Defined.

Lemma receive_oldest_witness :
  (receive 50 closing_receiver).1 = Val (Some (delivered_message hi)).
Proof.
  destruct closing_receiver_delivers as [σ Hdel].
  destruct (receive_oldest two_messages (inl []) σ 50 closing_receiver)
    as (_ & Ho & _); [apply new_slicer_wf|done|done|done|vm_compute; lia|].
  exact Ho.
Defined.

Lemma pull_messages_stream_witness :
  let w := mkWorld (scripted (inl <$> two_messages) [] []) EAGAIN []
    (set_fd 9 (new_socket (stream_new (zero_bytes MAX_SIZE)) 1000)) in
  Stream.m_messages (m_slicer (w_sock (pull_messages 50 w).2)) =
  delivered_message <$> two_messages.
Proof.
  intros w.
  assert (∃ σ, delivers 9 two_messages (inr EAGAIN) (w_os w) σ) as [σ Hdel].
  { eexists. do 3 (eapply delivers_chunk; [reflexivity|done|]).
    eapply delivers_end; [reflexivity|done]. }
  apply (pull_messages_stream two_messages (inr EAGAIN) σ 50 w);
    [by apply stream_new_wf|done|done|done|vm_compute; lia].
Defined.
