(* ===== verification/EndToEnd.v ===== *)
(** From [send] on one socket to [receive] on another, in datagram mode. *)
From S2P Require Import Prelude Machine Buffer Framing Slicer Inet Sys TcpSocket TcpBase Samples.
From S2P Require Import TcpSend TcpRecv Datagram.
Local Open Scope Z_scope.

(** * The sending application *)

Section sender.
Context {Σ : Type} `{SysLaws Σ}.
Abbreviation W := (world Σ DatagramMessageSlicer).

(** The application queues a message or lets the socket write. *)
Inductive app_op :=
| AppSend (payload : list byte)
| AppFlush.

(** Run the calls in order. An exception is caught by the application; the
    result lists the payloads whose [send] returned. *)
Definition app_step (fuel : nat) (op : app_op) : M W (list (list byte)) :=
  match op with
  | AppSend p =>
      catch (send_unique fuel p (Z.of_nat (length p)) true;; mret [p]) (λ _, mret [])
  | AppFlush => catch (do_send fuel;; mret []) (λ _, mret [])
  end.

Fixpoint app_run (fuel : nat) (ops : list app_op) : M W (list (list byte)) :=
  match ops with
  | [] => mret []
  | op :: ops' =>
      accepted ← app_step fuel op;
      later ← app_run fuel ops';
      mret (accepted ++ later)
  end.

(** ** One send *)

Lemma check_send_spec {T} (len : Z) (w : world Σ T) :
  wp (check_send len) w (λ o w', w' = w ∧
    o = if len =? 0 then Exn (socket_error "Message size has to be > 0")
        else if negb (is_valid_sock (w_sock w)) then Exn (socket_error "Socket is closed")
        else if m_max_send_queue_size (w_sock w) <=? m_send_queue_size (w_sock w)
        then Exn send_queue_full else Val tt).
Proof.
  unfold check_send. tcp_step; [by tcp_step|]. tcp_step. tcp_step. cbn [seq_post].
  tcp_step; [by tcp_step|]. tcp_step. tcp_step. cbn [seq_post].
  tcp_step; by tcp_step.
Qed.

(** The world after a message has been queued. *)
Definition enqueued (m : message_out) {T} (w : world Σ T) : world Σ T :=
  mkWorld (w_os w) (w_errno w) (w_trace w)
    (set_queue (m_send_queue (w_sock w) ++ [m])
      (u64 (m_send_queue_size (w_sock w) + mo_length m)) (w_sock w)).

Lemma enqueued_wf {T} m (w : world Σ T) :
  send_wf (w_sock w) → message_wf m → send_wf (w_sock (enqueued m w)).
Proof.
  intros (Hc & Hq & Hs) Hm. unfold send_wf. simpl. split_and!; [done| |].
  - apply Forall_app_2; [done|]. by constructor.
  - by rewrite Hs, u64_add_l, queued_bytes_snoc.
Qed.

Lemma enqueued_outbox {T} m (w : world Σ T) :
  outbox (w_sock (enqueued m w)) = outbox (w_sock w) ++ rest_of m.
Proof.
  unfold outbox. simpl. rewrite fmap_app, concat_app, app_assoc. simpl.
  by rewrite app_nil_r.
Qed.

Definition framed (p : list byte) : message_out :=
  {| mo_length := Z.of_nat (length p) + HEADER_SIZE; mo_sent_pos := 0;
     mo_is_shared := false; mo_data := encode p |}.

Lemma framed_wf p : sendable p → message_wf (framed p).
Proof.
  intros [Hp H32]. unfold message_wf, framed. cbn [mo_length mo_sent_pos mo_data].
  rewrite length_encode. unfold HEADER_SIZE in *. lia.
Qed.

Lemma framed_rest p : rest_of (framed p) = encode p.
Proof.
  unfold rest_of, slice, framed. cbn [mo_length mo_sent_pos mo_data].
  change (Z.to_nat 0) with 0%nat. rewrite drop_0.
  apply take_ge. pose proof (length_encode p). lia.
Qed.

(** A [send] of a whole array queues exactly its frame. *)
Lemma send_unique_async fuel p (w : W) :
  sendable p → 0 < m_fd (w_sock w) →
  m_send_queue_size (w_sock w) < m_max_send_queue_size (w_sock w) →
  send_unique fuel p (Z.of_nat (length p)) true w = (Val true, enqueued (framed p) w).
Proof.
  intros [Hp H32] Hfd Hmax. apply wp_run. unfold send_unique. tcp_step.
  eapply wp_mono; [apply check_send_spec|]. intros o w' [-> ->].
  rewrite (proj2 (Z.eqb_neq _ _)) by lia. unfold is_valid_sock.
  rewrite (proj2 (Z.ltb_lt _ _) Hfd), (proj2 (Z.leb_gt _ _) Hmax). cbn [negb seq_post].
  tcp_step. tcp_step. unfold wp. simpl. rewrite prepare_message_encode by lia.
  simpl. rewrite Nat2Z.id, take_ge by lia. unfold wp. simpl. unfold enqueued, framed. simpl.
  by destruct (w_sock w).
Qed.
(** All the branches of [send], in the order of the code. *)
Lemma send_unique_run fuel p (w : W) :
  Z.of_nat (length p) + HEADER_SIZE < two32 →
  send_unique fuel p (Z.of_nat (length p)) true w =
  if Z.of_nat (length p) =? 0 then (Exn (socket_error "Message size has to be > 0"), w)
  else if negb (is_valid_sock (w_sock w)) then (Exn (socket_error "Socket is closed"), w)
  else if m_max_send_queue_size (w_sock w) <=? m_send_queue_size (w_sock w)
  then (Exn send_queue_full, w)
  else (Val true, enqueued (framed p) w).
Proof.
  intros H32. pose proof (check_send_spec (Z.of_nat (length p)) w) as Hc. unfold wp in Hc.
  destruct (check_send (Z.of_nat (length p)) w) as [o w1] eqn:E. simpl in Hc.
  destruct Hc as [-> Ho]. destruct (Z.of_nat (length p) =? 0) eqn:Hz;
    [unfold send_unique, mbind, M_bind; by rewrite E, Ho|].
  destruct (is_valid_sock (w_sock w)) eqn:Hv; simpl in *;
    [|unfold send_unique, mbind, M_bind; by rewrite E, Ho].
  destruct (m_max_send_queue_size (w_sock w) <=? m_send_queue_size (w_sock w)) eqn:Hm;
    [unfold send_unique, mbind, M_bind; by rewrite E, Ho|].
  unfold is_valid_sock in Hv. bool_to_prop. apply send_unique_async; [split; lia|done..].
Qed.

(** In datagram mode a [send] of the first [len] bytes behind a pointer
    copies them and ends in one of four ways, tested in this order: empty
    messages, closed sockets and full queues are refused with their own
    exception and change nothing; otherwise exactly the frame of these bytes is
    appended to the queue and its size is accounted for. *)
Theorem send_accepts_or_rejects fuel data len (w : W) :
  0 ≤ len → len + HEADER_SIZE < two32 → len ≤ Z.of_nat (length data) →
  send fuel data len true w =
  if len =? 0 then (Exn (socket_error "Message size has to be > 0"), w)
  else if negb (is_valid_sock (w_sock w)) then (Exn (socket_error "Socket is closed"), w)
  else if m_max_send_queue_size (w_sock w) <=? m_send_queue_size (w_sock w)
  then (Exn send_queue_full, w)
  else (Val true, enqueued (framed (take (Z.to_nat len) data)) w).
Proof.
  intros Hpos H32 Hlen. apply wp_run. unfold send. tcp_step. apply wp_read_slice; [lia..|].
  change (Z.to_nat 0) with 0%nat. unfold slice. rewrite drop_0. cbn [seq_post].
  set (p := take (Z.to_nat len) data). assert (Z.of_nat (length p) = len) as Hp
    by (unfold p; rewrite length_take; lia).
  pose proof (send_unique_run fuel p w ltac:(lia)) as Hrun. rewrite Hp in Hrun.
  unfold wp. by rewrite Hrun, <- surjective_pairing.
Qed.

Definition raw (p : list byte) : message_out :=
  {| mo_length := Z.of_nat (length p); mo_sent_pos := 0; mo_is_shared := true; mo_data := p |}.

Lemma send_shared_async {T} `{MessageSlicer T} fuel p (w : world Σ T) :
  sendable p → 0 < m_fd (w_sock w) →
  m_send_queue_size (w_sock w) < m_max_send_queue_size (w_sock w) →
  send_shared fuel p (Z.of_nat (length p)) true w = (Val true, enqueued (raw p) w).
Proof.
  intros [Hp H32] Hfd Hmax. apply wp_run. unfold send_shared. tcp_step.
  eapply wp_mono; [apply check_send_spec|]. intros o w' [-> ->].
  rewrite (proj2 (Z.eqb_neq _ _)) by lia. unfold is_valid_sock.
  rewrite (proj2 (Z.ltb_lt _ _) Hfd), (proj2 (Z.leb_gt _ _) Hmax). cbn [negb seq_post].
  unfold wp. simpl. unfold enqueued, raw. simpl. by destruct (w_sock w).
Qed.

(** The two overloads of [send] differ in datagram mode: an array behind a
    [unique_ptr] is framed, the same array behind a [shared_ptr] is queued as it
    is, without a header, and no receiver in the same mode reads it back as the
    message that was sent. *)
Theorem send_shared_not_framed fuel p (w : W) :
  sendable p → 0 < m_fd (w_sock w) →
  m_send_queue_size (w_sock w) < m_max_send_queue_size (w_sock w) →
  (∃ w', send_unique fuel p (Z.of_nat (length p)) true w = (Val true, w') ∧
    outbox (w_sock w') = outbox (w_sock w) ++ encode p ∧
    (parse (InHeader []) (encode p)).2 = [p]) ∧
  (∃ w', send_shared fuel p (Z.of_nat (length p)) true w = (Val true, w') ∧
    outbox (w_sock w') = outbox (w_sock w) ++ p ∧
    (parse (InHeader []) p).2 ≠ [p]).
Proof.
  intros Hp Hfd Hmax. split.
  - exists (enqueued (framed p) w). rewrite enqueued_outbox, framed_rest.
    split_and!; [by apply send_unique_async|done|by rewrite parse_encode_one].
  - exists (enqueued (raw p) w). rewrite enqueued_outbox. split_and!.
    + by apply send_shared_async.
    + f_equal. unfold rest_of, slice, raw. simpl. apply take_ge. lia.
    + intros E. pose proof (parse_cost (InHeader []) p) as Hc. rewrite E in Hc.
      simpl in Hc. unfold HEADER_SIZE in Hc. lia.
Qed.

(** ** A run of the application *)

(** What the run of an application has established: the bytes written so far and
    the bytes still to be written are the frames of the accepted payloads. *)
Definition app_inv (fd : Z) (w0 : W) (accepted : list (list byte)) (w : W) : Prop :=
  send_wf (w_sock w) ∧ (m_fd (w_sock w) = fd ∨ m_fd (w_sock w) ≤ 0) ∧
  ∃ sent, wire fd (w_trace w) = wire fd (w_trace w0) ++ sent ∧
    outbox (w_sock w0) ++ encode_all accepted = sent ++ outbox (w_sock w).

(** Fuel for the writes of a run: iterations of [do_send] and bytes. *)
Definition app_load (op : app_op) : nat :=
  match op with AppSend p => S (length (encode p)) | AppFlush => 0 end.

Fixpoint app_loads (ops : list app_op) : nat :=
  match ops with [] => 0 | op :: ops' => app_load op + app_loads ops' end.

Definition backlog_of (w : W) : nat := (unfinished w + length (outbox (w_sock w)))%nat.

(** What the application may pass to [send]: the frame's size fits its field. *)
Definition app_op_wf (op : app_op) : Prop :=
  match op with
  | AppSend p => Z.of_nat (length p) + HEADER_SIZE < two32
  | AppFlush => True
  end.

Lemma encode_all_app a b : encode_all (a ++ b) = encode_all a ++ encode_all b.
Proof. unfold encode_all. by rewrite fmap_app, concat_app. Qed.

Lemma app_inv_trans fd w0 w1 w2 a b :
  app_inv fd w0 a w1 → app_inv fd w1 b w2 → app_inv fd w0 (a ++ b) w2.
Proof.
  intros (_ & _ & s1 & Hw1 & Ho1) (? & ? & s2 & Hw2 & Ho2). split_and!; [done..|].
  exists (s1 ++ s2). rewrite encode_all_app, Hw2, Hw1, !app_assoc, Ho1.
  split; [done|]. by rewrite <- !app_assoc, Ho2.
Qed.

Lemma app_inv_refl fd w :
  send_wf (w_sock w) → (m_fd (w_sock w) = fd ∨ m_fd (w_sock w) ≤ 0) → app_inv fd w [] w.
Proof.
  intros. split_and!; [done..|]. exists []. by rewrite !app_nil_r.
Qed.

(** A send either queues the whole frame or changes nothing. *)
Lemma send_unique_cases fuel p (w : W) :
  Z.of_nat (length p) + HEADER_SIZE < two32 →
  (sendable p ∧ send_unique fuel p (Z.of_nat (length p)) true w = (Val true, enqueued (framed p) w))
  ∨ ∃ e, send_unique fuel p (Z.of_nat (length p)) true w = (Exn e, w).
Proof.
  intros H32. rewrite send_unique_run by done.
  destruct (Z.of_nat (length p) =? 0) eqn:Hz; [by right; eexists|].
  destruct (is_valid_sock (w_sock w)); [simpl|by right; eexists].
  destruct (m_max_send_queue_size (w_sock w) <=? _); [by right; eexists|].
  bool_to_prop. left. split; [split; [lia|done]|done].
Qed.

Lemma app_step_spec fd fuel op w :
  send_wf (w_sock w) → (m_fd (w_sock w) = fd ∨ m_fd (w_sock w) ≤ 0) → app_op_wf op →
  (backlog_of w < fuel)%nat →
  wp (app_step fuel op) w (λ o w', ∃ acc, o = Val acc ∧ app_inv fd w acc w' ∧
    Forall sendable acc ∧ (backlog_of w' ≤ backlog_of w + app_load op)%nat).
Proof.
  intros Hwf Hfd Hop Hfuel. destruct op as [p|]; simpl.
  - tcp_step. tcp_step.
    destruct (send_unique_cases fuel p w Hop) as [[Hp Hrun]|[e Hrun]];
      unfold wp at 1; rewrite Hrun; simpl.
    + tcp_step. exists [p]. split_and!; [done| |by constructor|].
      * split_and!; [by apply enqueued_wf, framed_wf|done|]. exists [].
        rewrite app_nil_r, enqueued_outbox, framed_rest. unfold encode_all. simpl.
        by rewrite app_nil_r.
      * unfold backlog_of. rewrite enqueued_outbox, framed_rest, length_app.
        unfold unfinished. simpl. rewrite length_app. simpl. lia.
    + tcp_step. exists []. split_and!; [done|by apply app_inv_refl|done|lia].
  - tcp_step. tcp_step. eapply wp_mono; [by apply (do_send_spec fd)|].
    intros o w' [Hc Ho].
    assert (m_fd (w_sock w') = fd ∨ m_fd (w_sock w') ≤ 0) as Hfd'.
    { destruct o as [[|]|e|h]; [|destruct Ho as [[-> _]|[Hs _]]| |done].
      - destruct Ho as [(-> & _) _]. done.
      - lia.
      - destruct Hs as (-> & _). done.
      - destruct Ho as (_ & _ & Hn). lia. }
    assert (app_inv fd w [] w') as Hinv.
    { destruct Hc as (? & _ & _ & sent & ? & ?). split_and!; [done..|]. exists sent.
      by rewrite app_nil_r. }
    assert (backlog_of w' ≤ backlog_of w + 0)%nat as Hb.
    { pose proof (conserved_outbox fd w w' Hc). destruct Hc as (_ & _ & ? & _).
      unfold backlog_of. lia. }
    destruct o as [b|e|h]; simpl; [tcp_step|tcp_step|done]; exists []; by split_and!.
Qed.

Lemma app_run_spec fd fuel ops w :
  send_wf (w_sock w) → (m_fd (w_sock w) = fd ∨ m_fd (w_sock w) ≤ 0) → Forall app_op_wf ops →
  (backlog_of w + app_loads ops < fuel)%nat →
  wp (app_run fuel ops) w (λ o w', ∃ acc, o = Val acc ∧ app_inv fd w acc w' ∧
    Forall sendable acc).
Proof.
  intros Hwf Hfd Hops. revert w Hwf Hfd.
  induction Hops as [|op ops Hop _ IH]; intros w Hwf Hfd Hfuel; simpl.
  { tcp_step. exists []. split_and!; [done|by apply app_inv_refl|done]. }
  simpl in Hfuel.
  tcp_step. eapply wp_mono; [apply (app_step_spec fd); try done; lia|].
  intros ? w1 (a & -> & Hinv & Ha & Hb). simpl. tcp_step.
  eapply wp_mono; [apply IH; [apply Hinv..|lia]|].
  intros ? w2 (b & -> & Hinv2 & Hb2). simpl. tcp_step.
  exists (a ++ b). split_and!; [done|by eapply app_inv_trans|by apply Forall_app_2].
Qed.
End sender.

(** * The receiving socket *)

(** What datagram chunks mean does not depend on where the stream was cut. *)
Lemma steps_parse (v : pstate) (cs : list (list byte)) :
  steps v cs = parse v (concat cs).
Proof.
  revert v. induction cs as [|c cs IH]; intros v; simpl; [done|].
  rewrite IH. by rewrite parse_app.
Qed.

Section end_to_end.
Context {Σ1 Σ2 : Type} `{SysLaws Σ1} `{SysLaws Σ2}.

(** A socket between [connect] (or [accept]) and its first [send]. *)
Definition fresh_sender (fd : Z) (s : world Σ1 DatagramMessageSlicer) : Prop :=
  m_send_queue (w_sock s) = [] ∧ TcpSocket.m_current_message (w_sock s) = None ∧
  m_send_queue_size (w_sock s) = 0 ∧ 0 < fd ∧ m_fd (w_sock s) = fd ∧
  wire fd (w_trace s) = [].

Definition fresh_receiver (fd : Z) (r : world Σ2 DatagramMessageSlicer) : Prop :=
  slicer_wf (m_slicer (w_sock r)) ∧ datagram_view (m_slicer (w_sock r)) = InHeader [] ∧
  datagram_delivered (m_slicer (w_sock r)) = [] ∧
  buf_is_valid (m_buffer (m_slicer (w_sock r))) = false ∧ 0 < fd ∧ m_fd (w_sock r) = fd.

Lemma fresh_sender_wf fd (s : world Σ1 DatagramMessageSlicer) :
  fresh_sender fd s → send_wf (w_sock s) ∧ outbox (w_sock s) = [] ∧ unfinished s = 0%nat.
Proof.
  intros (Hq & Hm & Hsz & _). unfold send_wf, outbox, unfinished.
  rewrite Hq, Hm, Hsz. by split_and!.
Qed.

(** The receiver of a part of the frames of [acc]: [sent] is what was written of
    them, [rest] what was not. *)
Lemma receive_frames fd' fuel' acc sent rest cs last σ (r : world Σ2 DatagramMessageSlicer) :
  fresh_receiver fd' r → Forall sendable acc → encode_all acc = sent ++ rest →
  concat cs `prefix_of` sent → delivers fd' cs last (w_os r) σ → (chunk_cost cs < fuel')%nat →
  wp (pull_messages fuel') r (λ o' r', end_post last r o' r' ∧
    slicer_wf (m_slicer (w_sock r')) ∧
    datagram_delivered (m_slicer (w_sock r')) `prefix_of` acc ∧
    (rest = [] → concat cs = sent → datagram_delivered (m_slicer (w_sock r')) = acc)).
Proof.
  intros (Hrwf & Hrview & Hrdel & Hrv & Hrpos & Hrfd) Hacc Hout [later Hcs] Hdel Hfuel'.
  subst fd'. eapply wp_mono; [apply (pull_messages_spec cs last σ); done|].
  intros o' r' (Hend & _ & Hwf' & _ & Hfinal). simpl in *.
  rewrite Hrview, Hrdel in Hfinal.
  rewrite steps_parse in Hfinal. injection Hfinal as _ Hd. simpl in Hd. rewrite Hd.
  pose proof (parse_encode_all acc Hacc) as Hall.
  split_and!; [done..| |].
  - rewrite Hout, Hcs, <- app_assoc, parse_app in Hall. injection Hall as _ Hms. rewrite <- Hms.
    by apply prefix_app_r.
  - intros -> Hfull. rewrite app_nil_r in Hout. by rewrite Hfull, <- Hout, Hall.
Qed.

(** C1: end to end, in datagram mode: run any sequence of [send] and [do_send]
    calls on one socket, whatever the descriptor accepts or refuses; cut any
    prefix of what it wrote into chunks and let another socket pull them. The
    run ends; the receiver holds a prefix of the payloads whose [send] returned,
    in order and unchanged, and exactly all of them when nothing is left to
    write and every byte has arrived. *)
Theorem end_to_end fd fd' fuel fuel' ops (s : world Σ1 DatagramMessageSlicer)
    (r : world Σ2 DatagramMessageSlicer) :
  fresh_sender fd s → fresh_receiver fd' r → Forall app_op_wf ops →
  (app_loads ops < fuel)%nat →
  wp (app_run fuel ops) s (λ o s', ∃ accepted, o = Val accepted ∧
    ∀ cs last σ, concat cs `prefix_of` wire fd (w_trace s') →
      delivers fd' cs last (w_os r) σ → (chunk_cost cs < fuel')%nat →
      wp (pull_messages fuel') r (λ o' r', end_post last r o' r' ∧
        slicer_wf (m_slicer (w_sock r')) ∧
        datagram_delivered (m_slicer (w_sock r')) `prefix_of` accepted ∧
        (outbox (w_sock s') = [] → concat cs = wire fd (w_trace s') →
         datagram_delivered (m_slicer (w_sock r')) = accepted))).
Proof.
  intros Hs Hr Hops Hfuel. destruct (fresh_sender_wf fd s Hs) as (Hswf & Hsout & Hun).
  destruct Hs as (_ & _ & _ & Hpos & Hsfd & Hswire).
  eapply wp_mono; [apply (app_run_spec fd); [done|by left|done|]|].
  { unfold backlog_of. rewrite Hun, Hsout. simpl. lia. }
  intros ? s' (acc & -> & (_ & _ & sent & Hwire & Hout) & Hacc).
  exists acc. split; [done|]. intros cs last σ Hcs Hdel Hfuel'.
  rewrite Hsout in Hout. rewrite Hswire in Hwire. simpl in Hout, Hwire. subst sent.
  by eapply receive_frames.
Qed.
End end_to_end.

(** ** A run *)

(** A descriptor that takes three bytes, then blocks, then takes the rest. *)
Definition sample_sender : world script DatagramMessageSlicer :=
  sample_world (scripted [] [inl 3; inr EAGAIN; inl 100; inl 100] []) 7 Connected.

Definition sample_ops : list app_op :=
  [AppSend [x68; x69]; AppFlush; AppSend []; AppSend [x21]; AppFlush].

(** The same bytes, cut inside the first header and inside the second message. *)
Definition sample_chunks : list (list byte) :=
  [[x06; x00]; [x00; x00; x68; x69; x05]; [x00; x00; x00; x21]].

Definition sample_receiver : world script DatagramMessageSlicer :=
  sample_world (scripted (inl <$> sample_chunks) [] []) 9 Connected.

Lemma sample_delivers :
  ∃ σ, delivers 9 sample_chunks (inr EAGAIN) (w_os sample_receiver) σ.
Proof.
  eexists. do 3 (eapply delivers_chunk; [reflexivity|done|]).
  eapply delivers_end; [reflexivity|done].
Qed.

Lemma end_to_end_witness :
  datagram_delivered (m_slicer (w_sock (pull_messages 100 sample_receiver).2)) =
  [[x68; x69]; [x21]].
Proof.
  destruct sample_delivers as [σ Hdel].
  pose proof (end_to_end 7 9 100 100 sample_ops sample_sender sample_receiver) as H.
  unfold wp in H at 1.
  destruct H as (acc & Hacc & H).
  - by split_and!.
  - split_and!; try done. by apply datagram_new_wf.
  - by repeat constructor.
  - vm_compute. lia.
  - assert (acc = [[x68; x69]; [x21]]) as -> by (vm_compute in Hacc; congruence).
    destruct (H sample_chunks (inr EAGAIN) σ) as (_ & _ & _ & Hall);
      [vm_compute; by exists []|done|vm_compute; lia|].
    by apply Hall; vm_compute.
Defined.

(** A message of two bytes on a connected socket. *)
Lemma send_accepts_or_rejects_witness :
  send 0 (hi ++ [x00]) 2 true (sample_world idle 7 Connected) =
    (Val true, enqueued (framed hi) (sample_world idle 7 Connected)) ∧
  send 0 hi 2 true (sample_world idle (-1) Closed) =
    (Exn (socket_error "Socket is closed"), sample_world idle (-1) Closed).
Proof.
  split; [refine (send_accepts_or_rejects 0 (hi ++ [x00]) 2 _ _ _ _)|
    refine (send_accepts_or_rejects 0 hi 2 _ _ _ _)];
    unfold two32, HEADER_SIZE; simpl; lia.
Defined.

Lemma send_shared_not_framed_witness :
  ∃ w', send_shared 0 hi 2 true (sample_world idle 7 Connected) = (Val true, w') ∧
    outbox (w_sock w') = hi ∧ (parse (InHeader []) hi).2 ≠ [hi].
Proof.
  refine (proj2 (send_shared_not_framed 0 hi (sample_world idle 7 Connected) _ _ _));
    [split; unfold two32, HEADER_SIZE; simpl; lia|done|done].
Defined.
