(* ===== verification/TcpLife.v ===== *)
(** The life cycle of a [TcpSocket]: what every sequence of calls keeps, which
    calls cannot abort the process, and how descriptors are opened and closed. *)
From S2P Require Import Prelude Machine Buffer Framing Slicer Datagram Inet Sys TcpSocket TcpBase.
From S2P Require Import Samples TcpSend TcpRecv.
Local Open Scope Z_scope.

(** * The invariant *)

Section life.
Context {Σ T : Type} `{SysLaws Σ} {host : Host Σ} `{SlicerLaws T} `{InetLaws}.
Abbreviation W := (world Σ T).
Implicit Types (w : W) (s : TcpSocket T).

(** States in which a socket may be without a descriptor. *)
Definition dormant s : Prop := m_state s = Closed ∨ m_state s = Unknown.

(** The parts that do not depend on the connection: slicer, queue, accounting.
    The queue holds less than its limit and one message. *)
Definition core_ok s : Prop :=
  slicer_wf (m_slicer s) ∧ send_wf s ∧ Forall (λ m, 0 < mo_length m) (m_send_queue s) ∧
  0 ≤ m_max_send_queue_size s ≤ two64 - two32 ∧
  queued_bytes (m_send_queue s) < m_max_send_queue_size s + two32.

Definition life_ok s : Prop := core_ok s ∧ (m_fd s ≤ 0 → dormant s).

(** The call comes back and the socket is still as it should be. *)
Definition safe_post {A} (o : outcome A) w : Prop :=
  match o with Halt _ => False | _ => life_ok (w_sock w) end.

(** The same for calls that may wait for the network for ever. *)
Definition patient_post {A} (o : outcome A) w : Prop :=
  match o with Halt h => h = OutOfFuel | _ => life_ok (w_sock w) end.

Lemma queued_bytes_nonneg q : Forall message_wf q → 0 ≤ queued_bytes q.
Proof.
  induction 1 as [|m q (? & ? & ?) _ IH]; simpl; lia.
Qed.

(** The recorded size is the number of bytes in the queue: it never wraps. *)
Lemma core_ok_size s : core_ok s → m_send_queue_size s = queued_bytes (m_send_queue s).
Proof.
  intros (_ & (_ & Hq & ->) & _ & Hmax & Hb). unfold two64, two32 in *.
  pose proof (queued_bytes_nonneg _ Hq). apply u64_small. lia.
Qed.

Lemma core_ok_reset s t :
  core_ok s → t = reset_slicer (m_slicer s) → core_ok (set_slicer t s).
Proof.
  intros (Hwf & Hrest) ->. split; [by apply reset_slicer_spec|exact Hrest].
Qed.

Lemma closed_world_ok w : core_ok (w_sock w) → life_ok (w_sock (closed_world w)).
Proof.
  intros Hc. split; [|intros _; by left]. destruct Hc as (Hwf & Hrest).
  split; [by apply reset_slicer_spec|exact Hrest].
Qed.

Lemma connected_fd s : (m_fd s ≤ 0 → dormant s) → m_state s = Connected → 0 < m_fd s.
Proof.
  intros Hd Hst. destruct (decide (m_fd s ≤ 0)) as [Hfd|]; [|lia].
  by destruct (Hd Hfd); congruence.
Qed.

(** ** Closing *)

Definition close_post fast w (o : outcome bool) w' : Prop :=
  safe_post o w' ∧
  (fast = true ∨ m_state (w_sock w) ≠ Connected → o = Val true ∧ m_fd (w_sock w') ≤ 0 ∧
     dormant (w_sock w')).

Lemma close_safe fast w : life_ok (w_sock w) → wp (close fast) w (close_post fast w).
Proof.
  intros [Hc Hd]. unfold close_post, close. tcp_step. tcp_step. cbn [seq_post].
  destruct (bool_decide (m_state (w_sock w) = Connected)) eqn:Hst; cbn [andb negb].
  all: try (apply bool_decide_eq_true in Hst).
  all: try (apply bool_decide_eq_false in Hst).
  - destruct fast; cbn [negb].
    + destruct (0 <? m_fd (w_sock w)) eqn:Hfd; bool_to_prop; [|by destruct (Hd Hfd); congruence].
      pose proof (closed_world_ok w Hc) as Hok. repeat tcp_step. split; [exact Hok|].
      intros _. split_and!; [done|simpl; lia|by left].
    + tcp_step. tcp_step. cbn [seq_post]. tcp_step. tcp_step. cbn [seq_post].
      tcp_step. apply wp_os_call. intros [e|] σ Hshut; cbn [seq_post].
      * pose proof (shutdown_fails _ _ _ _ (connected_fd _ Hd Hst) Hshut) as ->. rewrite bool_decide_eq_true_2 by done.
        repeat tcp_step. split; [|by intros [|]].
        split; [|intros _; by left]. by apply core_ok_reset.
      * tcp_step. split; [|by intros [|]]. split; [exact Hc|].
        simpl. intros Hfd. destruct (Hd Hfd); congruence.
  - destruct (0 <? m_fd (w_sock w)) eqn:Hfd; bool_to_prop.
    + pose proof (closed_world_ok w Hc) as Hok. repeat tcp_step. split; [exact Hok|].
      intros _. split_and!; [done|simpl; lia|by left].
    + specialize (Hd Hfd) as Hdo.
      assert (bool_decide (m_state (w_sock w) = Closed) || bool_decide (m_state (w_sock w) = Unknown)
        = true) as ->.
      { destruct Hdo as [-> | ->]; done. }
      tcp_step. split; [by split|]. by intros _.
Qed.

(** ** Setting up a descriptor *)

(** What the steps before [Listening] and [Connected] keep. *)
Definition setup_post (st : State) {A} (good : A → Prop) (o : outcome A) w' : Prop :=
  core_ok (w_sock w') ∧ m_state (w_sock w') = st ∧
  match o with
  | Val a => good a → 0 < m_fd (w_sock w')
  | Exn _ => True
  | Halt _ => False
  end.

Lemma create_fd_safe w :
  core_ok (w_sock w) →
  wp create_fd w (setup_post (m_state (w_sock w)) (λ b, b = true)).
Proof.
  intros Hc. unfold create_fd. tcp_step. tcp_step. cbn [seq_post]. tcp_step.
  apply wp_os_call. intros r σ Hr. cbn [seq_post]. tcp_step.
  apply wp_mono with (P := λ o w', o = Val tt ∧ core_ok (w_sock w') ∧
    m_state (w_sock w') = m_state (w_sock w)).
  { destruct r; repeat tcp_step; done. }
  intros ? w1 (-> & Hc1 & Hst1). cbn [seq_post]. tcp_step. tcp_step. cbn [seq_post].
  unfold is_valid_sock. destruct (0 <? m_fd (w_sock w1)) eqn:Hfd; cbn [negb]; bool_to_prop;
    repeat tcp_step; by split_and!.
Qed.

(** The system once a descriptor's flags have been changed. *)
Definition nonblocking (fd : Z) (σ : Σ) : Σ :=
  sys_setfl fd (u32 (Z.lor (sys_getfl fd σ) O_NONBLOCK)) σ.

Lemma set_nonblocking_run b w :
  wp (set_nonblocking b) w (λ o w', o = Val tt ∧ w_sock w' = w_sock w ∧
    w_trace w' = w_trace w ∧ (b = true → w_os w' = nonblocking (m_fd (w_sock w)) (w_os w))).
Proof. unfold set_nonblocking. repeat tcp_step. split_and!; [done..|]. by intros ->. Qed.

Lemma update_port_run w :
  wp update_port_number w (λ o w', o = Val tt ∧ (∃ p, w_sock w' = set_port p (w_sock w)) ∧
    w_trace w' = w_trace w ∧ w_os w' = w_os w).
Proof.
  unfold update_port_number. tcp_step. tcp_step. cbn [seq_post]. tcp_step. tcp_step.
  cbn [seq_post]. destruct (m_is_ipv6 (w_sock w)); tcp_step; by eauto.
Qed.

(** The address recorded for what [getpeername] returns. *)
Definition remote_of (w : W) : Address :=
  let sin := match sys_getpeername (m_fd (w_sock w)) (w_os w) with
             | Some sa => as_sockaddr_in sa
             | None => uninit_in
             end in
  {| IP := ntop false (sin_addr sin); PortNumber := htons (sin_port sin);
     IPv6 := IPv6 (m_remote_address (w_sock w)) |}.

Lemma calculate_remote_run w :
  wp calculate_remote_address w (λ o w', o = Val tt ∧
    w_sock w' = set_remote_address (remote_of w) (w_sock w) ∧
    w_trace w' = w_trace w ∧ w_os w' = w_os w).
Proof.
  unfold calculate_remote_address. tcp_step. tcp_step. cbn [seq_post]. tcp_step. tcp_step.
  cbn [seq_post]. unfold remote_of. set (r := sys_getpeername _ _). tcp_step.
  apply wp_mono with (P := λ o w', o = Val tt ∧
    (∃ a, w_sock w' = set_remote_address a (w_sock w) ∧ IPv6 a = IPv6 (m_remote_address (w_sock w))) ∧
    w_trace w' = w_trace w ∧ w_os w' = w_os w).
  { apply wp_when; intros _; [tcp_step; split_and!; [done|by eexists|done..]|].
    split_and!; [done| |done..]. exists (m_remote_address (w_sock w)). by destruct (w_sock w). }
  intros ? w1 (-> & (a & Ha & Hv6) & Htr & Hos). cbn [seq_post].
  assert (length (sin_addr (match r with Some sa => as_sockaddr_in sa | None => uninit_in end))
    = addr_size false) as Hlen.
  { destruct r eqn:E; [by eapply peer_addr|apply uninit_addr]. }
  rewrite (proj1 (inet_ntop_spec _ _ _)) by (pose proof (ntop4_length _ Hlen); lia).
  tcp_step. split_and!; [done| |done..]. simpl. rewrite Ha. simpl. by rewrite Hv6.
Qed.

Lemma core_ok_port p s : core_ok (set_port p s) ↔ core_ok s.
Proof. done. Qed.

Lemma core_ok_remote a s : core_ok (set_remote_address a s) ↔ core_ok s.
Proof. done. Qed.

Lemma bind_socket_safe address w :
  core_ok (w_sock w) →
  wp (bind_socket address) w (setup_post (m_state (w_sock w)) (λ b, b = true)).
Proof.
  intros Hc. unfold bind_socket. tcp_step. tcp_step. cbn [seq_post]. tcp_step.
  eapply wp_mono; [by apply create_fd_safe|]. simpl. intros [[|]|e|h] w1 (Hc1 & Hst1 & Hfd1);
    cbn [seq_post negb]; try done.
  tcp_step. tcp_step. cbn [seq_post]. tcp_step. tcp_step. cbn [seq_post]. tcp_step.
  apply wp_os_call. intros [e|] σ _; cbn [seq_post].
  - tcp_step. tcp_step. tcp_step. tcp_step. by split_and!.
  - tcp_step. eapply wp_mono; [apply update_port_run|]. intros ? w2 (-> & (p & Hp) & _).
    simpl in Hp. cbn [seq_post]. tcp_step. unfold setup_post. rewrite Hp. by split_and!; auto.
Qed.

Lemma listen_safe address backlog w :
  core_ok (w_sock w) → dormant (w_sock w) →
  wp (listen address backlog) w safe_post.
Proof.
  intros Hc Hd. unfold listen. tcp_step. eapply wp_mono; [by apply bind_socket_safe|].
  intros [[|]|e|h] w1 (Hc1 & Hst1 & Hfd1); cbn [seq_post negb]; try done.
  2-3: tcp_step || idtac; split; [done|]; intros _; unfold dormant; by rewrite Hst1.
  tcp_step. eapply wp_mono; [apply set_nonblocking_run|]. intros ? w2 (-> & Hs2 & _).
  cbn [seq_post]. tcp_step. tcp_step. cbn [seq_post]. tcp_step. apply wp_os_call.
  intros [e|] σ _; cbn [seq_post].
  - tcp_step. split; simpl; rewrite Hs2; [done|]. intros _. unfold dormant. by rewrite Hst1.
  - repeat tcp_step. split; simpl; rewrite ?Hs2; [done|].
    intros Hfd. specialize (Hfd1 eq_refl). lia.
Qed.

(** A failed [connect] closes the descriptor it created. *)
Lemma connect_safe tail address name w :
  core_ok (w_sock w) → dormant (w_sock w) →
  (∀ h, resolve_URL tail name 0 (IPv6 address) ≠ Halt h) →
  wp (connect tail address name) w safe_post.
Proof.
  intros Hc Hd Hres. unfold connect. destruct (PortNumber address =? 0); [by tcp_step|].
  assert (∀ s, m_state s = m_state (w_sock w) → dormant s) as Hdorm.
  { unfold dormant. by intros ? ->. }
  tcp_step. apply wp_mono with (P := setup_post (m_state (w_sock w)) (λ _, True)).
  { destruct (String.eqb name ""); tcp_step.
    - tcp_step. cbn [seq_post]. tcp_step. eapply wp_mono; [by apply create_fd_safe|].
      simpl. intros [[|]|e|h] w1 (Hc1 & Hst1 & Hfd1); cbn [seq_post]; try done;
        unfold require_fd; repeat tcp_step; by split_and!; auto.
    - tcp_step. destruct (resolve_URL _ _ _ _) as [a|e|h] eqn:E; cbn [seq_post];
        [|by split_and!|by destruct (Hres h)].
      tcp_step. eapply wp_mono; [by apply bind_socket_safe|].
      intros [[|]|e|h] w1 (Hc1 & Hst1 & Hfd1); cbn [seq_post]; try done;
        unfold require_fd; repeat tcp_step; by split_and!; auto. }
  intros [[]|e|h] w1 (Hc1 & Hst1 & Hfd1); cbn [seq_post]; [|by split; auto|done].
  specialize (Hfd1 I). tcp_step. eapply wp_mono; [apply set_nonblocking_run|].
  intros ? w2 (-> & Hs2 & _). cbn [seq_post]. tcp_step. tcp_step. cbn [seq_post]. tcp_step.
  apply wp_os_call. intros [e|] σ _; cbn [seq_post].
  - tcp_step. eapply wp_mono; [apply close_safe; simpl; rewrite Hs2; split; auto|].
    intros [b|e'|h] w3 [Hsafe _]; simpl; done.
  - tcp_step. eapply wp_mono; [apply set_nonblocking_run|]. intros ? w3 (-> & Hs3 & _).
    cbn [seq_post]. tcp_step. eapply wp_mono; [apply calculate_remote_run|].
    intros ? w4 (-> & Hs4 & _). cbn [seq_post]. tcp_step. eapply wp_mono; [apply update_port_run|].
    intros ? w5 (-> & (p & Hs5) & _). cbn [seq_post]. tcp_step. tcp_step. cbn [seq_post]. tcp_step.
    simpl in *. unfold safe_post. simpl. rewrite Hs5, Hs4, Hs3, Hs2. split; [done|].
    simpl. intros Hle. rewrite Hs2 in *. lia.
Qed.

(** ** Accepting *)

(** An accepted socket before its first use. *)
Definition accepted_socket (mk : T) (fd max : Z) s : Prop :=
  m_fd s = fd ∧ m_state s = Connected ∧ m_slicer s = mk ∧ m_send_queue s = [] ∧
  m_current_message s = None ∧ m_send_queue_size s = 0 ∧ m_max_send_queue_size s = max.

(** The body of the constructor of an accepted socket. *)
Lemma child_socket_run fd w :
  let w1 := mkWorld (nonblocking fd (w_os w)) (w_errno w) (w_trace w) (set_fd fd (w_sock w)) in
  wp (child_socket fd) w (λ o w', o = Val tt ∧
    (∃ p, w_sock w' = set_state Connected (set_remote_address (remote_of w1)
      (set_port p (set_fd fd (w_sock w))))) ∧
    w_trace w' = w_trace w ∧ w_os w' = nonblocking fd (w_os w)).
Proof.
  intros w1. unfold child_socket. tcp_step. tcp_step. cbn [seq_post]. tcp_step.
  eapply wp_mono; [apply set_nonblocking_run|]. intros ? w2 (-> & Hs1 & Ht1 & Ho1). cbn [seq_post].
  tcp_step. eapply wp_mono; [apply update_port_run|]. intros ? w3 (-> & (p & Hs2) & Ht2 & Ho2).
  cbn [seq_post]. tcp_step. eapply wp_mono; [apply calculate_remote_run|].
  intros ? w4 (-> & Hs3 & Ht3 & Ho3). cbn [seq_post]. tcp_step.
  specialize (Ho1 eq_refl). simpl in *.
  assert (remote_of w3 = remote_of w1) as Hr.
  { unfold remote_of. by rewrite Ho2, Hs2, Ho1, Hs1. }
  rewrite Hs3, Hs2, Hs1, Hr. split_and!; [done|by exists p|congruence..].
Qed.

Lemma construct_child_run mk fd max w :
  wp (construct_child mk fd max) w (λ o w', ∃ c, o = Val c ∧ accepted_socket mk fd max c ∧
    m_remote_address c = remote_of (mkWorld (nonblocking fd (w_os w)) (w_errno w) (w_trace w)
      (set_fd fd (new_socket mk max))) ∧
    w_sock w' = w_sock w ∧ w_trace w' = w_trace w ∧ w_os w' = nonblocking fd (w_os w)).
Proof.
  unfold construct_child. tcp_step. tcp_step. eapply wp_mono; [apply child_socket_run|].
  intros ? w1 (-> & (p & Hs) & Ht & Ho). cbn [seq_post]. tcp_step. simpl in *.
  exists (w_sock w1). rewrite Hs, Ht, Ho. by split_and!.
Qed.

Lemma accepted_socket_ok mk fd max s :
  slicer_wf mk → 0 < fd → 0 ≤ max ≤ two64 - two32 → accepted_socket mk fd max s → life_ok s.
Proof.
  intros Hmk Hfd Hmax (? & ? & Hsl & Hq & Hc & Hsz & Hm).
  split; [|lia]. unfold core_ok, send_wf. rewrite Hsl, Hq, Hc, Hsz, Hm. simpl.
  split_and!; try done; unfold two64, two32 in *; lia.
Qed.

Lemma destroy_all_safe cs w :
  Forall life_ok cs →
  wp (destroy_all cs) w (λ o w', o = Val tt ∧ w_sock w' = w_sock w).
Proof.
  intros Hcs. revert w. induction Hcs as [|c cs Hc _ IH]; intros w; simpl; [done|].
  tcp_step. tcp_step. unfold destroy. tcp_step. eapply wp_mono; [by apply close_safe|].
  intros [b|e|h] w1 [Hsafe Hval]; simpl in *; [|by destruct (Hval (or_introl eq_refl))|done].
  tcp_step. cbn [seq_post]. eapply wp_mono; [apply IH|]. by intros ? w2 [-> ->].
Qed.

Definition accept_inv (acc : list (TcpSocket T)) w : Prop :=
  life_ok (w_sock w) ∧ m_state (w_sock w) = Listening ∧ Forall life_ok acc.

Lemma internal_accept_safe w :
  life_ok (w_sock w) → m_state (w_sock w) = Listening →
  wp internal_accept w (λ o w', life_ok (w_sock w') ∧
    match o with
    | Val (Some fd) => 0 < fd ∧ w_sock w' = w_sock w
    | Val None => w_sock w' = w_sock w
    | Exn _ => m_fd (w_sock w') ≤ 0
    | Halt _ => False
    end).
Proof.
  intros Hok Hst. unfold internal_accept. tcp_step. tcp_step. cbn [seq_post]. tcp_step.
  apply wp_os_call. intros [fd|e] σ Hacc; cbn [seq_post].
  - tcp_step. tcp_step. tcp_step. tcp_step. split; [done|].
    pose proof (accept_fd _ _ _ _ Hacc). pose proof (accept_not_stdin _ _ _ _ Hacc).
    split; [lia|done].
  - destruct (bool_decide (e = EAGAIN)); cbn [negb]; [by tcp_step|].
    tcp_step. eapply wp_mono; [by apply close_safe|].
    intros [b|x|h] w1 [Hsafe Hval]; simpl in *;
      destruct Hval as (Ho & Hfd & Hdorm); try (right; congruence); done.
Qed.

Lemma accept_step_safe mk acc w :
  slicer_wf mk → accept_inv acc w →
  wp (accept_step mk acc) w (λ o w', life_ok (w_sock w') ∧
    match o with
    | Val (acc', more) => accept_inv acc' w'
    | Exn _ => True
    | Halt _ => False
    end).
Proof.
  intros Hmk (Hok & Hst & Hacc). unfold accept_step. tcp_step.
  eapply wp_mono; [by apply internal_accept_safe|].
  intros [[fd|]|e|h] w1 [Hok1 Hval]; cbn [seq_post];
    [|tcp_step; split; [done|]; unfold accept_inv; by rewrite Hval|done..].
  destruct Hval as [Hfd Hs1]. tcp_step. tcp_step. cbn [seq_post]. tcp_step.
  eapply wp_mono; [apply construct_child_run|].
  intros ? w2 (c & -> & Hc & _ & Hs2 & _). cbn [seq_post]. tcp_step.
  apply accepted_socket_ok in Hc; [|done|done|apply Hok1].
  unfold accept_inv. rewrite Hs2. split; [done|]. split_and!; [done|by rewrite Hs1|].
  apply Forall_app_2; [done|]. by constructor.
Qed.

Lemma accept_loop_safe fuel mk acc w :
  slicer_wf mk → accept_inv acc w →
  wp (accept_loop fuel mk acc) w (λ o w', patient_post o w' ∧
    match o with Val cs => Forall life_ok cs | _ => True end).
Proof.
  intros Hmk. revert acc w. induction fuel as [|n IH]; intros acc w Hinv; simpl.
  { by tcp_step. }
  tcp_step. tcp_step. eapply wp_mono; [by apply accept_step_safe|].
  intros [[acc' [|]]|e|h] w1 [Hok1 Hval]; cbn [seq_post]; [by apply IH|by tcp_step; destruct Hval as (? & ? & ?)| |done].
  tcp_step. eapply wp_mono; [apply destroy_all_safe, Hinv|].
  intros ? w2 [-> Hs2]. cbn [seq_post]. tcp_step. cbn [seq_post]. unfold patient_post. by rewrite Hs2.
Qed.

Lemma accept_safe fuel mk w :
  slicer_wf mk → life_ok (w_sock w) →
  wp (accept fuel mk) w (λ o w', patient_post o w' ∧
    match o with Val cs => Forall life_ok cs | _ => True end).
Proof.
  intros Hmk Hok. unfold accept, is_listening. tcp_step. tcp_step. tcp_step. cbn [seq_post].
  tcp_step. cbn [seq_post]. destruct (bool_decide (m_state (w_sock w) = Listening)) eqn:Hst;
    cbn [negb]; [|by tcp_step].
  apply bool_decide_eq_true in Hst. by apply accept_loop_safe.
Qed.

(** ** Receiving *)

Lemma receive_data_safe w :
  life_ok (w_sock w) →
  buf_is_valid (slicer_buffer (m_slicer (w_sock w))) = false →
  wp receive_data w (λ o w', safe_post o w' ∧
    (o = Val true → buf_is_valid (slicer_buffer (m_slicer (w_sock w'))) = true)).
Proof.
  intros Hok Hv. pose proof Hok as [(Hwf & Hcore) Hd].
  unfold receive_data. tcp_step. tcp_step. cbn [seq_post].
  unfold is_valid_sock. destruct (0 <? m_fd (w_sock w)) eqn:Hfd; cbn [negb]; [|by tcp_step].
  rewrite Hv. bool_to_prop. set (t := m_slicer (w_sock w)) in *.
  assert (slicer_wf (slicer_set_buffer (buf_set_data (zero_bytes MAX_SIZE) (slicer_buffer t)) t))
    as Hwf0 by (apply set_buffer_fresh; [done|by apply zeroed_wf, wf_buffer|by left]).
  tcp_step. tcp_step. cbn [seq_post]. tcp_step. apply wp_os_call. intros [c|e] σ Hrecv; cbn [seq_post].
  - destruct c as [|b c].
    + tcp_step. eapply wp_mono; [apply close_safe; split; [by split|done]|].
      intros [x|e|h] w1 [Hsafe Hval]; cbn [seq_post]; [tcp_step|..]; by split.
    + set (c' := b :: c) in *.
      assert (0 < Z.of_nat (length c') ≤ MAX_SIZE) as Hc.
      { split; [simpl; lia|]. eapply recv_bound; [|done]. unfold MAX_SIZE. lia. }
      tcp_step. tcp_step. cbn [seq_post]. tcp_step.
      apply wp_write_slice; [lia|rewrite length_zero_bytes; unfold MAX_SIZE in *; lia|].
      cbn [seq_post]. tcp_step. tcp_step. cbn [seq_post]. tcp_step.
      change (Z.to_nat 0) with 0%nat. fold (buf_fill c' (slicer_buffer t)).
      destruct (buf_fill_wf c' (slicer_buffer t) Hc) as (Hfw & Hfv & _).
      split; [split; [split; [|exact Hcore]|exact Hd]|].
      * apply set_buffer_fresh; [done|done|by right].
      * intros _. simpl. by rewrite set_buffer_buffer.
  - assert (life_ok (set_slicer (slicer_set_buffer
      (buf_set_data (zero_bytes MAX_SIZE) (slicer_buffer t)) t) (w_sock w))) as Hok0.
    { split; [by split|done]. }
    destruct e; [by tcp_step|..]; tcp_step; (eapply wp_mono; [by apply close_safe|]);
      intros [x|x|h] w1 [Hsafe Hval]; cbn [seq_post]; try tcp_step; by split.
Qed.

Lemma slicer_step_ok (w : W) t' :
  life_ok (w_sock w) → slicer_wf t' →
  life_ok (w_sock (mkWorld (w_os w) (w_errno w) (w_trace w) (set_slicer t' (w_sock w)))).
Proof. intros [(_ & Hcore) Hd] Hwf. split; [split; [exact Hwf|exact Hcore]|exact Hd]. Qed.

Lemma pull_step_safe w :
  life_ok (w_sock w) →
  wp pull_step w (λ o w', safe_post o w').
Proof.
  intros Hok. unfold pull_step. tcp_step. tcp_step. cbn [seq_post]. tcp_step.
  apply wp_mono with (P := λ o w', safe_post o w' ∧
    (o = Val true → buf_is_valid (slicer_buffer (m_slicer (w_sock w'))) = true)).
  { destruct (buf_is_valid (slicer_buffer (m_slicer (w_sock w)))) eqn:Hv; cbn [negb];
      [by tcp_step|by apply receive_data_safe]. }
  intros [[|]|e|h] w1 [Hsafe Hv]; cbn [seq_post negb]; [|by tcp_step|done..].
  simpl in Hsafe. tcp_step. tcp_step. tcp_step.
  eapply wp_mono; [apply process_buffer_spec; [apply Hsafe|by apply Hv]|].
  intros o t' (Ho & Hwf' & _). pose proof (slicer_step_ok w1 t' Hsafe Hwf') as Hok'.
  by destruct Ho as [->|[e ->]]; repeat tcp_step.
Qed.

Lemma receive_safe fuel w : life_ok (w_sock w) → wp (receive fuel) w patient_post.
Proof.
  intros Hok. unfold receive. tcp_step.
  apply (wp_iter_partial (λ w, life_ok (w_sock w))); [done| |done].
  - intros w1 Hok1. eapply wp_mono; [by apply pull_step_safe|].
    intros [[a|]|e|h] w2 Hsafe; simpl in *; try done.
    tcp_step. tcp_step. cbn [seq_post].
    destruct (slicer_has_messages _); [|by tcp_step]. tcp_step. tcp_step.
    eapply wp_mono; [apply get_message_spec, Hsafe|]. intros o t' (Hwf' & _ & _ & Ho).
    pose proof (slicer_step_ok w2 t' Hsafe Hwf') as Hok2.
    destruct (delivered _); destruct Ho as [-> _]; cbn [seq_post]; by tcp_step.
Qed.

(** ** Sending *)

Lemma queued_bytes_app q1 q2 : queued_bytes (q1 ++ q2) = queued_bytes q1 + queued_bytes q2.
Proof. induction q1 as [|m q1 IH]; simpl; lia. Qed.

Lemma sent_life fd w o w' :
  life_ok (w_sock w) → sent_post fd w o w' → safe_post o w'.
Proof.
  intros [(Hwf & Hsend & Hpos & Hmax & Hq) Hd] [(Hsend' & Hkept & _) Ho].
  destruct Hkept as (Hconn & Hslicer & Hmax' & gone & Hgone).
  assert (life_ok (w_sock w')) as Hok; [|by destruct o].
  split.
  - refine (conj _ (conj Hsend' (conj _ (conj _ _)))); [| |by rewrite Hmax'|].
    + apply Hslicer; [|done]. intros t Ht. by apply reset_slicer_spec.
    + rewrite Hgone in Hpos. by apply Forall_app in Hpos as [_ ?].
    + rewrite Hmax'. destruct Hsend as (_ & Hqwf & _). rewrite Hgone in Hq, Hqwf.
      rewrite queued_bytes_app in Hq. apply Forall_app in Hqwf as [Hg _].
      apply queued_bytes_nonneg in Hg. lia.
  - unfold dormant in *. destruct Hconn as [[-> ->]|[-> ->]]; [done|by left].
Qed.

Definition load w : nat := (unfinished w + length (outbox (w_sock w)))%nat.

Lemma do_send_safe fuel w :
  life_ok (w_sock w) → (load w < fuel)%nat → wp (do_send fuel) w safe_post.
Proof.
  intros Hok Hfuel. eapply wp_mono.
  - apply (do_send_spec (m_fd (w_sock w))); [|by left|done].
    by destruct Hok as [(_ & ? & _) _].
  - intros o w'. by apply sent_life.
Qed.

(** A message put on a queue that is not full. *)
Lemma enqueued_life m w :
  life_ok (w_sock w) → m_send_queue_size (w_sock w) < m_max_send_queue_size (w_sock w) →
  message_wf m → 0 < mo_length m → mo_sent_pos m = 0 →
  wp (enqueue m) w (λ o w', o = Val tt ∧ life_ok (w_sock w') ∧
    (load w' ≤ load w + 1 + Z.to_nat (mo_length m))%nat).
Proof.
  intros [Hcore Hd] Hfull Hm Hpos Hsent. pose proof (core_ok_size _ Hcore) as Hsize.
  destruct Hcore as (Hwf & (Hcur & Hqwf & _) & Hqpos & Hmax & Hq).
  pose proof (queued_bytes_nonneg _ Hqwf) as Hnn.
  pose proof Hm as (_ & H32 & _). pose proof (length_rest_of m Hm) as Hrest.
  unfold enqueue. tcp_step. split; [done|]. split; [|].
  - split; [|exact Hd]. unfold core_ok, send_wf. simpl. rewrite queued_bytes_snoc.
    unfold two64, two32 in *. split_and!; try done; try lia.
    + apply Forall_app_2; [done|]. by constructor.
    + by rewrite Hsize.
    + apply Forall_app_2; [done|]. by constructor.
  - unfold load, unfinished, outbox. simpl. rewrite fmap_app, concat_app, !length_app. simpl.
    rewrite length_app. simpl. lia.
Qed.

(** The refusals of [send] change nothing. *)
Lemma check_send_safe len w :
  wp (check_send len) w (λ o w', w' = w ∧
    match o with
    | Val _ => len ≠ 0 ∧ 0 < m_fd (w_sock w) ∧
        m_send_queue_size (w_sock w) < m_max_send_queue_size (w_sock w)
    | Exn _ => True
    | Halt _ => False
    end).
Proof.
  unfold check_send. destruct (len =? 0) eqn:Hlen; [by tcp_step|]. tcp_step. tcp_step.
  cbn [seq_post]. unfold is_valid_sock. destruct (0 <? m_fd (w_sock w)) eqn:Hfd; cbn [negb];
    [|by tcp_step]. tcp_step. tcp_step. cbn [seq_post].
  destruct (_ <=? _) eqn:Hfull; [by tcp_step|]. bool_to_prop. by tcp_step.
Qed.

Definition send_fuel_ok fuel len w : Prop := (load w + Z.to_nat len + 5 < fuel)%nat.

Lemma queue_and_send_safe fuel async m w :
  life_ok (w_sock w) → m_send_queue_size (w_sock w) < m_max_send_queue_size (w_sock w) →
  message_wf m → 0 < mo_length m → mo_sent_pos m = 0 →
  (load w + 1 + Z.to_nat (mo_length m) < fuel)%nat →
  wp (enqueue m;; if async : bool then mret true else do_send fuel) w safe_post.
Proof.
  intros Hok Hfull Hm Hpos Hsent Hfuel. tcp_step.
  eapply wp_mono; [by apply enqueued_life|]. intros ? w1 (-> & Hok1 & Hload). cbn [seq_post].
  destruct async; [by tcp_step|]. apply do_send_safe; [done|lia].
Qed.

Lemma send_unique_safe fuel data len async w :
  life_ok (w_sock w) → 0 ≤ len → len + 4 < two32 → len ≤ Z.of_nat (length data) →
  send_fuel_ok fuel len w →
  wp (send_unique fuel data len async) w safe_post.
Proof.
  intros Hok Hpos H32 Hlen Hfuel. unfold send_unique. tcp_step.
  eapply wp_mono; [apply check_send_safe|]. intros [[]|e|h] w1 [-> Hc]; cbn [seq_post]; [|done..].
  destruct Hc as (Hne & Hfd & Hfull). tcp_step. tcp_step.
  destruct (prepare_message_spec data len (m_slicer (w_sock w)))
    as (bs & len' & Hrun & Hlen' & Hbs); [lia|done|done|].
  unfold wp at 1. rewrite Hrun. cbn [fst snd seq_post].
  assert (mkWorld (w_os w) (w_errno w) (w_trace w) (set_slicer (m_slicer (w_sock w)) (w_sock w)) = w)
    as -> by (by destruct w as [? ? ? []]).
  unfold send_fuel_ok in Hfuel.
  apply queue_and_send_safe; simpl; try done; unfold message_wf; simpl; lia.
Qed.

Lemma send_shared_safe fuel data len async w :
  life_ok (w_sock w) → 0 ≤ len < two32 → len ≤ Z.of_nat (length data) →
  send_fuel_ok fuel len w →
  wp (send_shared fuel data len async) w safe_post.
Proof.
  intros Hok Hpos Hlen Hfuel. unfold send_shared. tcp_step.
  eapply wp_mono; [apply check_send_safe|]. intros [[]|e|h] w1 [-> Hc]; cbn [seq_post]; [|done..].
  destruct Hc as (Hne & Hfd & Hfull). unfold send_fuel_ok in Hfuel.
  apply queue_and_send_safe; simpl; try done; unfold message_wf; simpl; lia.
Qed.

(** * Sequences of calls *)

(** The public operations that change a socket. *)
Inductive call :=
| CListen (address : Address) (backlog : Z)
| CConnect (tail : list byte) (address : Address) (name : string)
| CAccept
| CReceive
| CSend (data : list byte) (len : Z) (async : bool)
| CSendShared (data : list byte) (len : Z) (async : bool)
| CDoSend
| CClose (fast : bool).

(** [mk] is the slicer of an accepted socket. *)
Definition perform (fuel : nat) (mk : T) (c : call) : M W unit :=
  match c with
  | CListen a b => listen a b;; mret tt
  | CConnect tail a name => connect tail a name;; mret tt
  | CAccept => accept fuel mk;; mret tt
  | CReceive => receive fuel;; mret tt
  | CSend data len async => send_unique fuel data len async;; mret tt
  | CSendShared data len async => send_shared fuel data len async;; mret tt
  | CDoSend => do_send fuel;; mret tt
  | CClose fast => close fast;; mret tt
  end.

(** What callers have to respect: a socket is connected or put to listening once,
    lengths fit a size field and the array. The loops of a send get enough
    fuel. *)
Definition allowed (fuel : nat) (c : call) w : Prop :=
  match c with
  | CListen _ _ => dormant (w_sock w)
  | CConnect tail a name =>
      dormant (w_sock w) ∧ ∀ h, resolve_URL tail name 0 (IPv6 a) ≠ Halt h
  | CSend data len _ =>
      0 ≤ len ∧ len + 4 < two32 ∧ len ≤ Z.of_nat (length data) ∧ send_fuel_ok fuel len w
  | CSendShared data len _ =>
      0 ≤ len < two32 ∧ len ≤ Z.of_nat (length data) ∧ send_fuel_ok fuel len w
  | CDoSend => (load w < fuel)%nat
  | CAccept | CReceive | CClose _ => True
  end.

(** Calls that read until the descriptor would block. *)
Definition reads (c : call) : bool :=
  match c with CAccept | CReceive => true | _ => false end.

(** The worlds a program can get to, from a new socket, by calls that return or
    throw, while the system moves on between them. *)
Inductive reachable (fuel : nat) (mk : T) : W → Prop :=
| reachable_new w t max :
    w_sock w = new_socket t max → slicer_wf t → 0 ≤ max ≤ two64 - two32 →
    reachable fuel mk w
| reachable_accepted w fd max :
    accepted_socket mk fd max (w_sock w) → 0 < fd → 0 ≤ max ≤ two64 - two32 →
    reachable fuel mk w
| reachable_system w σ e tr :
    reachable fuel mk w → reachable fuel mk (mkWorld σ e tr (w_sock w))
| reachable_call w c o w' :
    reachable fuel mk w → allowed fuel c w → perform fuel mk c w = (o, w') →
    (∀ h, o ≠ Halt h) → reachable fuel mk w'.

Lemma wp_ignore {A} (m : M W A) w (P : outcome unit → W → Prop) :
  wp m w (λ o w', P (match o with Val _ => Val tt | Exn e => Exn e | Halt h => Halt h end) w') →
  wp (m;; mret tt) w P.
Proof.
  intros Hm. tcp_step. eapply wp_mono; [exact Hm|]. by intros [a|e|h] w' HP.
Qed.

Lemma perform_safe fuel mk c w :
  slicer_wf mk → life_ok (w_sock w) → allowed fuel c w →
  wp (perform fuel mk c) w (λ o w',
    match o with
    | Halt h => h = OutOfFuel ∧ reads c = true
    | _ => life_ok (w_sock w')
    end).
Proof.
  intros Hmk Hok Hal. destruct c; simpl in *; apply wp_ignore.
  - eapply wp_mono; [apply listen_safe; [apply Hok|done]|]. by intros [].
  - eapply wp_mono; [apply connect_safe; [apply Hok|apply Hal..]|]. by intros [].
  - eapply wp_mono; [by apply accept_safe|]. by intros [] ? [? _].
  - eapply wp_mono; [by apply receive_safe|]. by intros [].
  - eapply wp_mono; [apply send_unique_safe; [done|apply Hal..]|]. by intros [].
  - eapply wp_mono; [apply send_shared_safe; [done|apply Hal..]|]. by intros [].
  - eapply wp_mono; [by apply do_send_safe|]. by intros [].
  - eapply wp_mono; [by apply close_safe|]. by intros [] ? [? _].
Qed.

Lemma reachable_ok fuel mk w :
  slicer_wf mk → reachable fuel mk w → life_ok (w_sock w).
Proof.
  intros Hmk. induction 1 as [w t max -> Ht Hmax|w fd max Hacc Hfd Hmax|w σ e tr _ IH
    |w c o w' _ IH Hal Hrun Ho].
  - split; [|intros _; by right]. unfold core_ok, send_wf. simpl.
    split_and!; try done; unfold two64, two32 in *; lia.
  - by apply (accepted_socket_ok mk fd max).
  - done.
  - pose proof (perform_safe fuel mk c w Hmk IH Hal) as Hsafe. unfold wp in Hsafe.
    rewrite Hrun in Hsafe. simpl in Hsafe. destruct o; [done|done|by destruct (Ho h)].
Qed.

(** C2: whatever a program does with a socket from its creation on (connecting or
    listening only while it has no connection, lengths within the array and the
    size field), no call aborts the process with [LOG(FATAL)] or leaves the
    bounds of an array, and every call but [accept] and [receive], which read
    for as long as the network delivers, ends. The system is one where descriptor
    0 is not handed out ([Host]) and where the application ignores SIGPIPE, so
    that [write] reports a connection that is gone ([Sys]). *)
Theorem calls_never_abort fuel mk w c :
  slicer_wf mk → reachable fuel mk w → allowed fuel c w →
  wp (perform fuel mk c) w (λ o w',
    match o with
    | Halt h => h = OutOfFuel ∧ reads c = true
    | _ => reachable fuel mk w'
    end).
Proof.
  intros Hmk Hr Hal. pose proof (reachable_ok _ _ _ Hmk Hr) as Hok.
  pose proof (perform_safe fuel mk c w Hmk Hok Hal) as Hsafe. unfold wp in *.
  destruct (perform fuel mk c w) as [o w'] eqn:Hrun. simpl in *.
  destruct o; [..|done]; by eapply reachable_call.
Qed.

(** C26: in every reachable state a socket without a descriptor is closed or was
    never opened; the size of the send queue is the number of bytes in it and
    exceeds its limit by less than the largest message there is (2^32 bytes, what
    the 32-bit lengths allow); and the condition on which
    [wait_send_queue_empty] sleeps is exactly a non-empty queue on an open
    descriptor. *)
Theorem reachable_invariant fuel mk w :
  slicer_wf mk → reachable fuel mk w →
  (is_valid_sock (w_sock w) = false → m_state (w_sock w) = Closed ∨ m_state (w_sock w) = Unknown) ∧
  m_send_queue_size (w_sock w) = queued_bytes (m_send_queue (w_sock w)) ∧
  m_send_queue_size (w_sock w) < m_max_send_queue_size (w_sock w) + two32 ∧
  slicer_wf (m_slicer (w_sock w)) ∧
  wp must_wait_send_queue w (λ o w', w' = w ∧
    (o = Val true ↔ m_send_queue (w_sock w) ≠ [] ∧ 0 < m_fd (w_sock w))).
Proof.
  intros Hmk Hr. pose proof (reachable_ok _ _ _ Hmk Hr) as [Hcore Hd].
  pose proof (core_ok_size _ Hcore) as Hsize. rewrite Hsize.
  destruct Hcore as (Hwf & (_ & Hqwf & _) & Hpos & Hmax & Hq). split_and!; try done.
  - unfold is_valid_sock. intros Hfd. bool_to_prop. by apply Hd.
  - unfold must_wait_send_queue. tcp_step. tcp_step. cbn [seq_post]. tcp_step.
    split; [done|]. rewrite Hsize. unfold is_valid_sock.
    assert (0 < queued_bytes (m_send_queue (w_sock w)) ↔ m_send_queue (w_sock w) ≠ []) as Hne.
    { destruct (m_send_queue (w_sock w)) as [|m q]; simpl; [split; (lia || done)|].
      inversion_clear Hpos. inversion_clear Hqwf as [|?? _ Hqwf'].
      apply queued_bytes_nonneg in Hqwf'. split; [done|lia]. }
    rewrite <- Hne, <- !Z.ltb_lt, <- andb_true_iff. split; [by intros [= ->]|by intros ->].
Qed.
End life.

(** ** Witnesses *)

#[local] Existing Instances no_hosts no_hosts_laws.

Definition junk_slicer : DatagramMessageSlicer := datagram_new (zero_bytes MAX_SIZE).

Lemma junk_slicer_wf : slicer_wf junk_slicer.
Proof. apply new_slicer_wf. Qed.

(** An accepted socket with a message queued by [send]. *)
Definition after_send : world script DatagramMessageSlicer :=
  (perform 100 junk_slicer (CSend hi 2 true)
    (sample_world (scripted [] [inl 2] []) 7 Connected)).2.

Lemma connected_reachable σ :
  reachable (Σ:=script) 100 junk_slicer (sample_world σ 7 Connected).
Proof.
  eapply (reachable_accepted _ _ _ 7 DEFAULT_MAX_SEND_QUEUE_SIZE).
  - by split_and!.
  - lia.
  - unfold DEFAULT_MAX_SEND_QUEUE_SIZE, two64, two32. lia.
Qed.

Lemma after_send_reachable : reachable 100 junk_slicer after_send.
Proof.
  eapply reachable_call with (c := CSend hi 2 true) (o := Val tt) (w' := after_send).
  - apply connected_reachable.
  - simpl. unfold send_fuel_ok, load, two32. simpl. lia.
  - unfold after_send. vm_compute. reflexivity.
  - done.
Qed.

Lemma after_send_flush : (perform 100 junk_slicer CDoSend after_send).1 = Val tt.
Proof. vm_compute. reflexivity. Qed.

Lemma after_send_allowed : allowed 100 CDoSend after_send.
Proof. unfold allowed. apply Nat.ltb_lt. vm_compute. reflexivity. Qed.

Lemma calls_never_abort_witness :
  reachable 100 junk_slicer (perform 100 junk_slicer CDoSend after_send).2.
Proof.
  pose proof (calls_never_abort 100 junk_slicer after_send CDoSend junk_slicer_wf
    after_send_reachable after_send_allowed) as Hspec. unfold wp in Hspec.
  rewrite after_send_flush in Hspec. exact Hspec.
Defined.

Lemma reachable_invariant_witness :
  m_send_queue_size (w_sock after_send) = 6 ∧
  m_send_queue_size (w_sock after_send) = queued_bytes (m_send_queue (w_sock after_send)).
Proof.
  split; [by vm_compute|].
  destruct (reachable_invariant 100 junk_slicer after_send junk_slicer_wf after_send_reachable)
    as (_ & Hsize & _). exact Hsize.
Defined.
