(* ===== verification/TcpConn.v ===== *)
(** How a [TcpSocket] closes, accepts, listens and connects: results, states and
    which descriptors are opened and closed. *)
From S2P Require Import Prelude Machine Buffer Framing Slicer Datagram Inet Sys TcpSocket TcpBase.
From S2P Require Import Samples TcpSend TcpRecv TcpLife.
Local Open Scope Z_scope.

Section conn.
Context {Σ T : Type} `{SysLaws Σ} {host : Host Σ} `{SlicerLaws T} `{InetLaws}.
Abbreviation W := (world Σ T).
Implicit Types (w : W) (s : TcpSocket T).

(** * Closing *)

Lemma close_dormant fast w :
  m_fd (w_sock w) ≤ 0 → dormant (w_sock w) → close fast w = (Val true, w).
Proof.
  intros Hfd Hd. unfold close, mbind, M_bind, sock. cbn [fst snd].
  rewrite (proj2 (Z.ltb_ge 0 _)) by lia.
  rewrite bool_decide_eq_false_2 by (destruct Hd as [-> | ->]; done). cbn [andb].
  by destruct Hd as [-> | ->].
Qed.

(** The destructor of a socket in any reachable state closes its descriptor,
    if it has one, exactly once; after it every further [close], fast or not,
    returns [true] and does nothing. *)
Theorem destroy_closes_once fuel mk w :
  slicer_wf mk → reachable fuel mk w →
  ∃ w', destroy w = (Val tt, w') ∧ m_fd (w_sock w') ≤ 0 ∧ dormant (w_sock w') ∧
    w_trace w' = w_trace w ++
      (if is_valid_sock (w_sock w) then [Closed_fd (m_fd (w_sock w))] else []) ∧
    ∀ fast, close fast w' = (Val true, w').
Proof.
  intros Hmk Hr. pose proof (reachable_ok _ _ _ Hmk Hr) as [_ Hd].
  unfold is_valid_sock. destruct (0 <? m_fd (w_sock w)) eqn:Hfd; bool_to_prop.
  - exists (closed_world w). assert (dormant (w_sock (closed_world w))) as Hdorm by by left.
    split_and!; try done. unfold destroy, mbind, M_bind. by rewrite close_fast_run.
  - specialize (Hd Hfd). exists w. rewrite app_nil_r. split_and!; try done.
    + unfold destroy, mbind, M_bind. by rewrite close_dormant.
    + intros fast. by apply close_dormant.
Qed.

(** The world after a successful [shutdown]. *)
Definition shutdown_world σ w : W :=
  mkWorld σ (w_errno w) (w_trace w ++ [ShutDown (m_fd (w_sock w))])
    (set_state Shutdown (w_sock w)).

Lemma close_shutdown_run w σ :
  m_state (w_sock w) = Connected → sys_shutdown (m_fd (w_sock w)) (w_os w) = (None, σ) →
  close false w = (Val false, shutdown_world σ w).
Proof.
  intros Hst Hshut. apply wp_run. unfold close. tcp_step. tcp_step. cbn [seq_post].
  rewrite Hst, bool_decide_eq_true_2 by done. cbn [andb negb].
  tcp_step. tcp_step. cbn [seq_post]. tcp_step. tcp_step. cbn [seq_post]. tcp_step.
  apply wp_os_call. simpl. rewrite Hshut. intros ? ? [= <- <-]. by tcp_step.
Qed.

(** Reading the end of the stream. *)
Lemma receive_eof_run w σ :
  0 < m_fd (w_sock w) → buf_is_valid (slicer_buffer (m_slicer (w_sock w))) = false →
  sys_recv (m_fd (w_sock w)) MAX_SIZE (w_os w) = (inl [], σ) →
  wp (pull_messages 1) w (λ o w', o = Val tt ∧ m_fd (w_sock w') = -1 ∧
    m_state (w_sock w') = Closed ∧ w_trace w' = w_trace w ++ [Closed_fd (m_fd (w_sock w))]).
Proof.
  intros Hfd Hv Hrecv. unfold pull_messages. simpl. tcp_step. unfold pull_step.
  tcp_step. tcp_step. cbn [seq_post]. rewrite Hv. cbn [negb]. tcp_step. unfold receive_data.
  tcp_step. tcp_step. cbn [seq_post]. unfold is_valid_sock.
  rewrite (proj2 (Z.ltb_lt _ _) Hfd), Hv. cbn [negb]. tcp_step. tcp_step. cbn [seq_post].
  tcp_step. apply wp_os_call. simpl. rewrite Hrecv. intros ? ? [= <- <-]. cbn [seq_post].
  tcp_step. apply wp_close_fast; [done|]. cbn [seq_post]. tcp_step. cbn [seq_post negb].
  tcp_step. cbn [seq_post]. by tcp_step.
Qed.

(** [close] of a connected socket shuts the connection down and keeps the
    descriptor: it returns [false] and leaves a valid socket in state
    [Shutdown]; reading the end of the stream that follows is what closes the
    descriptor, once. *)
Theorem close_is_orderly w σ1 σ2 :
  m_state (w_sock w) = Connected → 0 < m_fd (w_sock w) →
  buf_is_valid (slicer_buffer (m_slicer (w_sock w))) = false →
  sys_shutdown (m_fd (w_sock w)) (w_os w) = (None, σ1) →
  sys_recv (m_fd (w_sock w)) MAX_SIZE σ1 = (inl [], σ2) →
  let fd := m_fd (w_sock w) in
  ∃ w1, close false w = (Val false, w1) ∧
    m_fd (w_sock w1) = fd ∧ m_state (w_sock w1) = Shutdown ∧
    wp (pull_messages 1) w1 (λ o w2, o = Val tt ∧ m_fd (w_sock w2) = -1 ∧
      m_state (w_sock w2) = Closed ∧ w_trace w2 = w_trace w ++ [ShutDown fd; Closed_fd fd]).
Proof.
  intros Hst Hfd Hv Hshut Hrecv fd. exists (shutdown_world σ1 w).
  split_and!; [by apply close_shutdown_run|done..|].
  eapply wp_mono; [by apply (receive_eof_run _ σ2)|].
  intros o w2 (-> & ? & ? & ->). split_and!; try done. simpl. by rewrite <- app_assoc.
Qed.

(** When [shutdown] reports that the peer is already gone ([ENOTCONN]),
    [close] returns [true] with the socket marked closed, but the descriptor is
    never closed: neither there nor, the number being forgotten, by the
    destructor. *)
Theorem close_notconn_leaks w σ1 :
  m_state (w_sock w) = Connected → 0 < m_fd (w_sock w) →
  sys_shutdown (m_fd (w_sock w)) (w_os w) = (Some ENOTCONN, σ1) →
  wp (closed ← close false; destroy;; mret closed) w (λ o w', o = Val true ∧
    m_state (w_sock w') = Closed ∧ m_fd (w_sock w') = -1 ∧
    closes (m_fd (w_sock w)) (w_trace w') = closes (m_fd (w_sock w)) (w_trace w)).
Proof.
  intros Hst Hfd Hshut. tcp_step. unfold close at 1. tcp_step. tcp_step. cbn [seq_post].
  rewrite Hst, bool_decide_eq_true_2 by done. cbn [andb negb].
  tcp_step. tcp_step. cbn [seq_post]. tcp_step. tcp_step. cbn [seq_post]. tcp_step.
  apply wp_os_call. simpl. rewrite Hshut. intros ? ? [= <- <-]. tcp_step. tcp_step. cbn [seq_post].
  rewrite bool_decide_eq_true_2 by done. unfold reset_buffer.
  tcp_step. tcp_step. cbn [seq_post]. tcp_step. tcp_step. cbn [seq_post].
  tcp_step. tcp_step. cbn [seq_post]. tcp_step. cbn [seq_post].
  tcp_step. unfold destroy. tcp_step. unfold wp at 1.
  rewrite close_dormant; [|simpl; lia|by left]. cbn [fst snd seq_post].
  tcp_step. cbn [seq_post]. tcp_step. simpl. split_and!; try done. rewrite closes_app. simpl. lia.
Qed.

(** * Accepting *)

(** Successive [accept]s give the descriptors [cs] and then fail with [e]; each
    new descriptor is made non-blocking in between. *)
Inductive accepts (fd : Z) : list Z → errno → Σ → Σ → Prop :=
| accepts_end e σ σ' : sys_accept fd σ = (inr e, σ') → accepts fd [] e σ σ'
| accepts_next c cs e σ σ1 σ' :
    sys_accept fd σ = (inl c, σ1) → accepts fd cs e (nonblocking c σ1) σ' →
    accepts fd (c :: cs) e σ σ'.

Lemma close_unconnected_run fast w :
  m_state (w_sock w) ≠ Connected → 0 < m_fd (w_sock w) →
  close fast w = (Val true, closed_world w).
Proof.
  intros Hst Hfd. unfold close, mbind, M_bind, sock.
  by rewrite bool_decide_eq_false_2, (proj2 (Z.ltb_lt _ _) Hfd) by done.
Qed.

Lemma destroy_all_run cs w :
  Forall (λ c, 0 < m_fd c) cs →
  wp (destroy_all cs) w (λ o w', o = Val tt ∧ w_sock w' = w_sock w ∧
    w_trace w' = w_trace w ++ (Closed_fd <$> (m_fd <$> cs))).
Proof.
  intros Hcs. revert w. induction Hcs as [|c cs Hc _ IH]; intros w; simpl.
  { tcp_step. by rewrite app_nil_r. }
  tcp_step. tcp_step. unfold destroy. tcp_step. apply wp_close_fast; [done|]. cbn [seq_post].
  tcp_step. cbn [seq_post]. eapply wp_mono; [apply IH|]. simpl. intros ? w2 (-> & -> & ->).
  by rewrite <- app_assoc.
Qed.

Definition accept_post mk cs e (acc : list (TcpSocket T)) w
    (o : outcome (list (TcpSocket T))) w' : Prop :=
  let fd := m_fd (w_sock w) in
  if bool_decide (e = EAGAIN) then
    w_sock w' = w_sock w ∧ w_trace w' = w_trace w ++ (Opened <$> cs) ∧
    ∃ children, o = Val (acc ++ children) ∧
      Forall2 (λ c s, accepted_socket mk c (m_max_send_queue_size (w_sock w)) s) cs children
  else
    o = Exn (socket_error ("Failed to accept new connection; " +:+ strerror e)) ∧
    m_state (w_sock w') = Closed ∧ m_fd (w_sock w') = -1 ∧
    w_trace w' = w_trace w ++ (Opened <$> cs) ++
      Closed_fd fd :: (Closed_fd <$> ((m_fd <$> acc) ++ cs)).

Lemma accept_loop_run mk cs e σ' fuel acc w :
  m_state (w_sock w) = Listening → 0 < m_fd (w_sock w) → Forall (λ c, 0 < m_fd c) acc →
  accepts (m_fd (w_sock w)) cs e (w_os w) σ' → (length cs < fuel)%nat →
  wp (accept_loop fuel mk acc) w (accept_post mk cs e acc w).
Proof.
  revert cs acc w. induction fuel as [|n IH]; intros cs acc w Hst Hfd Hacc Hcs Hfuel; [lia|].
  simpl. tcp_step. tcp_step. unfold accept_step. tcp_step. unfold internal_accept.
  tcp_step. tcp_step. cbn [seq_post]. tcp_step. apply wp_os_call.
  inversion Hcs as [e0 σ0 σ0' Hsys|c cs' e0 σ0 σ1 σ0' Hsys Hrest]; subst; rewrite Hsys;
    intros r σ [= <- <-]; cbn [seq_post].
  - unfold accept_post. case_bool_decide as He; cbn [negb].
    + tcp_step. cbn [seq_post]. tcp_step. cbn [seq_post]. tcp_step. simpl. rewrite app_nil_r.
      split_and!; [done..|]. exists []. rewrite app_nil_r. by split.
    + tcp_step. unfold wp at 1. rewrite close_unconnected_run; [|simpl; congruence|done].
      cbn [fst snd seq_post]. tcp_step. cbn [seq_post]. tcp_step.
      eapply wp_mono; [by apply destroy_all_run|]. intros ? w2 (-> & Hs2 & Ht2). cbn [seq_post].
      tcp_step. cbn [seq_post]. rewrite Hs2, Ht2. simpl. rewrite app_nil_r.
      split_and!; try done. by rewrite <- app_assoc.
  - pose proof (accept_fd _ _ _ _ Hsys). pose proof (accept_not_stdin _ _ _ _ Hsys).
    tcp_step. tcp_step. cbn [seq_post]. tcp_step. cbn [seq_post]. tcp_step. tcp_step.
    cbn [seq_post]. tcp_step. eapply wp_mono; [apply construct_child_run|].
    intros ? w2 (s & -> & Hs & _ & Hs2 & Ht2 & Ho2). cbn [seq_post]. tcp_step. cbn [seq_post].
    simpl in Hs, Hs2, Ht2, Ho2, Hfuel.
    eapply wp_mono; [apply (IH cs'); rewrite ?Hs2, ?Ho2; try done; [|lia]|].
    { apply Forall_app_2; [done|]. constructor; [|done]. destruct Hs as (-> & _). lia. }
    intros o w3. unfold accept_post. rewrite Hs2, Ht2. case_bool_decide as He.
    + intros (-> & -> & children & -> & Hch). split_and!; [done|by rewrite <- app_assoc|].
      exists (s :: children). rewrite <- app_assoc. split; [done|by constructor].
    + intros (-> & -> & -> & ->). split_and!; [done..|].
      rewrite !fmap_app. simpl. destruct Hs as (-> & _). by rewrite <- !app_assoc.
Qed.

(** C36: [accept] on a listening socket takes every connection that is waiting, in
    order: each becomes a connected socket on its own descriptor, with a new
    slicer, an empty queue and the limit of its parent, which is unchanged. If
    [accept] of the system fails for another reason than having none left, the
    listening socket and every connection accepted in this call are closed,
    each once, and a [socket_error] says why. *)
Theorem accept_takes_all mk cs e σ' fuel w :
  m_state (w_sock w) = Listening → 0 < m_fd (w_sock w) →
  accepts (m_fd (w_sock w)) cs e (w_os w) σ' → (length cs < fuel)%nat →
  wp (accept fuel mk) w (λ o w',
    if bool_decide (e = EAGAIN) then
      w_sock w' = w_sock w ∧ w_trace w' = w_trace w ++ (Opened <$> cs) ∧
      ∃ children, o = Val children ∧
        Forall2 (λ c s, accepted_socket mk c (m_max_send_queue_size (w_sock w)) s) cs children
    else
      o = Exn (socket_error ("Failed to accept new connection; " +:+ strerror e)) ∧
      m_state (w_sock w') = Closed ∧ m_fd (w_sock w') = -1 ∧
      w_trace w' = w_trace w ++ (Opened <$> cs) ++
        Closed_fd (m_fd (w_sock w)) :: (Closed_fd <$> cs)).
Proof.
  intros Hst Hfd Hcs Hfuel. unfold accept, is_listening. tcp_step. tcp_step. tcp_step.
  cbn [seq_post]. tcp_step. cbn [seq_post]. rewrite Hst, bool_decide_eq_true_2 by done.
  cbn [negb]. eapply wp_mono; [by apply (accept_loop_run mk cs e σ')|]. done.
Qed.

(** * Listening and connecting *)

(** A descriptor was created, or not: the trace tells. *)
Definition fd_post w (fd : Z) w' : Prop :=
  m_fd (w_sock w') = fd ∧ m_state (w_sock w') = m_state (w_sock w) ∧
  m_slicer (w_sock w') = m_slicer (w_sock w) ∧
  ((0 ≤ fd ∧ w_trace w' = w_trace w ++ [Opened fd]) ∨ (fd = -1 ∧ w_trace w' = w_trace w)).

Lemma create_fd_run w :
  wp create_fd w (λ o w', ∃ fd, o = Val (0 <? fd) ∧ fd_post w fd w' ∧
    m_is_ipv6 (w_sock w') = m_is_ipv6 (w_sock w)).
Proof.
  unfold create_fd. tcp_step. tcp_step. cbn [seq_post]. tcp_step. apply wp_os_call.
  intros r σ Hr. cbn [seq_post]. tcp_step.
  apply wp_mono with (P := λ o w', o = Val tt ∧ ∃ fd, fd_post w fd w' ∧
    m_is_ipv6 (w_sock w') = m_is_ipv6 (w_sock w)).
  { destruct r as [fd|e]; repeat tcp_step; split; try done.
    - exists fd. pose proof (socket_fd _ _ _ _ Hr). split; [|done]. unfold fd_post. simpl. split_and!; [done..|by left].
    - exists (-1). split; [|done]. unfold fd_post. simpl. split_and!; [done..|by right]. }
  intros ? w1 (-> & fd & Hfd & Hv6). cbn [seq_post]. tcp_step. tcp_step. cbn [seq_post].
  unfold is_valid_sock. rewrite (proj1 Hfd). destruct (0 <? fd) eqn:E; cbn [negb];
    repeat tcp_step; exists fd; by rewrite E.
Qed.

Lemma bind_socket_run a w :
  wp (bind_socket a) w (λ o w', ∃ fd b, o = Val b ∧ (b = true → 0 < fd) ∧ fd_post w fd w' ∧
    m_is_ipv6 (w_sock w') = IPv6 a).
Proof.
  unfold bind_socket. tcp_step. tcp_step. cbn [seq_post]. tcp_step.
  eapply wp_mono; [apply create_fd_run|]. intros ? w1 (fd & -> & Hfd & Hv6). cbn [seq_post].
  simpl in Hv6. destruct (0 <? fd) eqn:Hpos; cbn [negb]; bool_to_prop;
    [|tcp_step; exists fd, false; by split_and!].
  tcp_step. tcp_step. cbn [seq_post]. tcp_step. tcp_step. cbn [seq_post]. tcp_step.
  apply wp_os_call. intros [e|] σ _; cbn [seq_post].
  - tcp_step. tcp_step. cbn [seq_post]. tcp_step. exists fd, false. by split_and!.
  - tcp_step. eapply wp_mono; [apply update_port_run|].
    intros ? w2 (-> & (p & Hs2) & Ht2 & _). cbn [seq_post]. tcp_step. exists fd, true.
    simpl in *. split_and!; try done; unfold fd_post; by rewrite Hs2, ?Ht2.
Qed.

(** [listen] returns [true] exactly with a listening socket on a new, valid
    descriptor of the address's family; if the system refuses to listen it
    returns [false] and keeps the bound descriptor for the destructor; if it
    cannot bind it throws, and the state is as before. *)
Theorem listen_outcomes a backlog w :
  m_state (w_sock w) ≠ Listening →
  wp (listen a backlog) w (λ o w', ∃ fd,
    m_fd (w_sock w') = fd ∧ m_slicer (w_sock w') = m_slicer (w_sock w) ∧
    m_is_ipv6 (w_sock w') = IPv6 a ∧
    ((0 ≤ fd ∧ w_trace w' = w_trace w ++ [Opened fd]) ∨ (fd = -1 ∧ w_trace w' = w_trace w)) ∧
    match o with
    | Val b => 0 < fd ∧ (b = true ↔ m_state (w_sock w') = Listening)
    | Exn e => e = socket_error "Failed to bind socket!" ∧
        m_state (w_sock w') = m_state (w_sock w)
    | Halt _ => False
    end).
Proof.
  intros Hst. unfold listen. tcp_step. eapply wp_mono; [apply bind_socket_run|].
  intros ? w1 (fd & b & -> & Hb & (Hfd & Hs1 & Hsl & Htr) & Hv6). cbn [seq_post].
  destruct b; cbn [negb]; [|tcp_step; by exists fd].
  tcp_step. eapply wp_mono; [apply set_nonblocking_run|]. intros ? w2 (-> & Hs2 & Ht2 & _).
  cbn [seq_post]. tcp_step. tcp_step. cbn [seq_post]. tcp_step. apply wp_os_call.
  specialize (Hb eq_refl). intros [e|] σ _; cbn [seq_post]; [|tcp_step; tcp_step; cbn [seq_post]];
    tcp_step; exists fd; simpl; rewrite Hs2, Ht2; split_and!; try done. split; [done|congruence].
Qed.

(** [connect] without a local name refuses port 0 and does nothing; otherwise
    it throws, with the state as before, when no descriptor can be created; it
    returns [true] with a connected socket on the new descriptor; it returns
    [false] with a closed socket, and the descriptor it opened is closed
    again. *)
Theorem connect_outcomes tail a w :
  m_state (w_sock w) ≠ Connected →
  wp (connect tail a "") w (λ o w',
    if PortNumber a =? 0 then
      o = Exn (invalid_argument "Need to specify a port number") ∧ w' = w
    else
      match o with
      | Val true =>
          m_state (w_sock w') = Connected ∧ 0 < m_fd (w_sock w') ∧
          m_is_ipv6 (w_sock w') = IPv6 a ∧
          w_trace w' = w_trace w ++ [Opened (m_fd (w_sock w'))]
      | Val false =>
          m_state (w_sock w') = Closed ∧ m_fd (w_sock w') = -1 ∧
          ∃ fd, w_trace w' = w_trace w ++ [Opened fd; Closed_fd fd]
      | Exn e =>
          (∃ msg, e = socket_error msg) ∧ m_state (w_sock w') = m_state (w_sock w) ∧
          m_fd (w_sock w') ≤ 0
      | Halt _ => False
      end).
Proof.
  intros Hst. unfold connect. destruct (PortNumber a =? 0); [by tcp_step|]. cbn [String.eqb].
  tcp_step. tcp_step. tcp_step. cbn [seq_post]. tcp_step.
  eapply wp_mono; [apply create_fd_run|]. intros ? w1 (fd & -> & (Hfd & Hs1 & Hsl & Htr) & Hv6).
  cbn [seq_post]. simpl in Hs1, Hsl, Htr, Hv6. unfold require_fd.
  destruct (0 <? fd) eqn:Hpos; bool_to_prop.
  2:{ tcp_step. tcp_step. cbn [seq_post]. tcp_step. split_and!; [by eexists|done|lia]. }
  destruct Htr as [[_ Htr]|[? _]]; [|lia].
  tcp_step. cbn [seq_post]. tcp_step. eapply wp_mono; [apply set_nonblocking_run|].
  intros ? w2 (-> & Hs2 & Ht2 & _). cbn [seq_post]. tcp_step. tcp_step. cbn [seq_post].
  tcp_step. apply wp_os_call. intros [e|] σ _; cbn [seq_post].
  - tcp_step. unfold wp at 1. rewrite close_unconnected_run;
      [|simpl; rewrite Hs2; congruence|simpl; rewrite Hs2; lia].
    cbn [fst snd seq_post]. tcp_step. simpl. rewrite Hs2, Ht2, Htr, Hfd.
    split_and!; [done..|]. exists fd. by rewrite <- app_assoc.
  - tcp_step. eapply wp_mono; [apply set_nonblocking_run|]. intros ? w3 (-> & Hs3 & Ht3 & _).
    cbn [seq_post]. tcp_step. eapply wp_mono; [apply calculate_remote_run|].
    intros ? w4 (-> & Hs4 & Ht4 & _). cbn [seq_post]. tcp_step.
    eapply wp_mono; [apply update_port_run|]. intros ? w5 (-> & (p & Hs5) & Ht5 & _).
    cbn [seq_post]. tcp_step. tcp_step. cbn [seq_post]. tcp_step. simpl in *.
    rewrite Hs5, Ht5, Hs4, Ht4, Hs3, Ht3, Hs2, Ht2. simpl. by rewrite Hfd.
Qed.

(** The remote address of an accepted connection is always recorded as an
    IPv4 address: for an IPv6 peer the text is that of the peer's flow
    information, so that two different peers cannot be told apart, and the
    IPv6 flag is not set. *)
Theorem remote_address_of_ipv6_peer mk fd max w a b :
  sys_getpeername fd (nonblocking fd (w_os w)) = Some (SaIn6 a) →
  sin6_port b = sin6_port a → sin6_flowinfo b = sin6_flowinfo a →
  wp (construct_child mk fd max) w (λ o w', ∃ s, o = Val s ∧
    m_remote_address s = {| IP := ntop false (sin6_flowinfo a);
      PortNumber := htons (sin6_port a); IPv6 := false |} ∧
    Val (m_remote_address s) = Address_of_in (as_sockaddr_in (SaIn6 b))).
Proof.
  intros Hpeer Hport Hflow. eapply wp_mono; [apply construct_child_run|].
  intros o w' (s & -> & _ & Hr & _). exists s. split; [done|]. rewrite Hr. unfold remote_of. simpl.
  rewrite Hpeer. simpl. split; [done|]. unfold Address_of_in. simpl. rewrite Hport, Hflow.
  pose proof (peer_addr _ _ _ Hpeer) as Hlen. simpl in Hlen.
  by rewrite (proj1 (inet_ntop_spec _ _ _)) by (pose proof (ntop4_length _ Hlen); lia).
Qed.
End conn.

(** ** Witnesses *)

#[local] Existing Instances no_hosts no_hosts_laws.

Lemma destroy_closes_once_witness :
  ∃ w', destroy after_send = (Val tt, w') ∧
    w_trace w' = w_trace after_send ++ [Closed_fd 7].
Proof.
  destruct (destroy_closes_once 100 junk_slicer after_send) as (w' & Hrun & _ & _ & Ht & _);
    [apply junk_slicer_wf|apply after_send_reachable|].
  by exists w'.
Defined.

Lemma close_is_orderly_witness :
  ∃ w1, close false (sample_world (scripted [inl []] [] []) 9 Connected) = (Val false, w1) ∧
    m_state (w_sock (pull_messages 1 w1).2) = Closed.
Proof.
  destruct (close_is_orderly (sample_world (scripted [inl []] [] []) 9 Connected)
    (scripted [inl []] [] []) (scripted [] [] [])) as (w1 & Hrun & _ & _ & _ & _ & Hst & _);
    try done. by exists w1.
Defined.

Lemma close_notconn_leaks_witness :
  closes 9 (w_trace (close false (sample_world (failing true None) 9 Connected)).2) = 0%nat.
Proof.
  destruct (close_notconn_leaks (sample_world (failing true None) 9 Connected)
    (failing true None)) as (_ & _ & _ & Hc); try done.
Defined.

(** Two connections wait. *)
Definition listener : world script DatagramMessageSlicer :=
  sample_world (scripted [] [] [inl 11; inl 12]) 9 Listening.

Lemma accept_takes_all_witness :
  ∃ children w', accept 5 junk_slicer listener = (Val children, w') ∧
    m_fd <$> children = [11; 12] ∧ w_trace w' = [Opened 11; Opened 12].
Proof.
  assert (∃ σ, accepts 9 [11; 12] EAGAIN (w_os listener) σ) as [σ Hacc].
  { eexists. do 2 (eapply accepts_next; [reflexivity|]). by eapply accepts_end. }
  pose proof (accept_takes_all junk_slicer [11; 12] EAGAIN σ 5 listener eq_refl eq_refl Hacc)
    as Hspec. unfold wp in Hspec. destruct (accept 5 junk_slicer listener) as [o w'].
  simpl in Hspec. destruct Hspec as (_ & Ht & children & -> & Hch); [lia|].
  exists children, w'. split_and!; [done| |exact Ht].
  by inversion_clear Hch as [|???? (? & _) Hch']; inversion_clear Hch' as [|???? (? & _) Hch''];
    inversion_clear Hch''; simpl; congruence.
Defined.

Definition loopback : Address := {| IP := "127.0.0.1"; PortNumber := 80; IPv6 := false |}.

Lemma listen_outcomes_witness :
  m_is_ipv6 (w_sock (listen loopback 10 (sample_world idle (-1) Unknown)).2) = false ∧
  m_state (w_sock (listen loopback 10 (sample_world idle (-1) Unknown)).2) = Listening.
Proof.
  destruct (listen_outcomes loopback 10 (sample_world idle (-1) Unknown))
    as (fd & _ & _ & Hv6 & _ & Ho); [done|].
  split; [exact Hv6|]. revert Ho. vm_compute. by intros [_ [Ho _]]; apply Ho.
Defined.

(** A new socket whose [connect] will be refused. *)
Definition refused : world script DatagramMessageSlicer :=
  sample_world (failing false (Some ECONNRESET)) (-1) Unknown.

Lemma connect_refused : (connect [] loopback "" refused).1 = Val false.
Proof. vm_compute. reflexivity. Qed.

Lemma connect_outcomes_witness :
  ∃ fd, w_trace (connect [] loopback "" refused).2 = [Opened fd; Closed_fd fd].
Proof.
  pose proof (connect_outcomes [] loopback refused) as Hspec. unfold wp in Hspec.
  rewrite connect_refused in Hspec. cbn [loopback PortNumber Z.eqb] in Hspec.
  destruct Hspec as (_ & _ & Ht); [done|]. exact Ht.
Defined.

Lemma remote_address_of_ipv6_peer_witness :
  let w := sample_world {| sc_recv := []; sc_write := []; sc_accept := []; sc_notconn := false;
    sc_connect := None; sc_socket := inl 7; sc_flags := 0;
    sc_peer := Some (x00, x00, x00, x00, 20480, true) |} 9 Listening in
  ∃ s w', construct_child junk_slicer 11 100 w = (Val s, w') ∧
    m_remote_address s = {| IP := "0.0.0.0"; PortNumber := 80; IPv6 := false |}.
Proof.
  intros w. set (peer := {| sin6_port := 20480; sin6_flowinfo := [x00; x00; x00; x00];
                            sin6_addr := replicate 16 x01 |}).
  pose proof (remote_address_of_ipv6_peer junk_slicer 11 100 w peer peer eq_refl eq_refl eq_refl)
    as Hspec. unfold wp in Hspec.
  destruct (construct_child junk_slicer 11 100 w) as [o w']. destruct Hspec as (s & Ho & Hr & _).
  simpl in Ho. exists s, w'. by rewrite Ho.
Defined.
