(* ===== verification/Timer.v ===== *)
(** [TimeEventListener] of include/yael/TimeEventListener.h and
    src/TimeEventListener.cpp: a queue of deadlines behind one timerfd. *)
From Stdlib Require Import Sorting.Sorted.
From S2P Require Import Prelude Machine.
Local Open Scope Z_scope.

(** * The system *)

Record itimerspec := mkTimerSpec { tv_sec : Z; tv_nsec : Z }.

(** [timerfd] calls and the wall clock in milliseconds. [timer_read] is [None]
    when less than eight bytes were read. [loop_initialized] is
    [EventLoop::is_initialized()]. *)
Class TimerSys (Σ : Type) := {
  timerfd_create : Σ → Z * Σ;
  system_now : Σ → Z * Σ;
  timerfd_settime : Z → itimerspec → Σ → bool * Σ;
  timer_read : Z → Σ → option Z * Σ;
  timer_close : Z → Σ → Σ;
  loop_initialized : Σ → bool;
}.

(** A time the timer can be set to, in nanoseconds. *)
Definition spec_ns (s : itimerspec) : Z := tv_sec s * 1000000000 + tv_nsec s.

Definition spec_valid (s : itimerspec) : Prop :=
  0 ≤ tv_sec s ∧ 0 ≤ tv_nsec s < 1000000000 ∧ 0 < spec_ns s.

(** Documented behaviour. [clock] is the wall clock in nanoseconds (a 64-bit signed
    count), [pending] when the timer will expire: a valid setting of an open timer
    succeeds, a negative time is refused. A blocking read of a timer without an
    interval returns when the timer has expired, if ever, and reports one expiration;
    reading a negative descriptor fails. *)
Class TimerLaws (Σ : Type) `{TimerSys Σ} := {
  clock : Σ → Z;
  pending : Σ → option Z;
  now_reads σ t σ' : system_now σ = (t, σ') →
    0 ≤ t < 9223372036855 ∧ t = clock σ' / 1000000;
  settime_sets fd s σ ok σ' : timerfd_settime fd s σ = (ok, σ') →
    (0 ≤ fd → spec_valid s → ok = true ∧ is_Some (pending σ')) ∧ (tv_sec s < 0 → ok = false);
  read_reads fd σ r σ' : timer_read fd σ = (r, σ') →
    (fd < 0 → r = None) ∧ (0 ≤ fd → r = Some 1) ∧
    (∀ e, 0 ≤ fd → pending σ = Some e → e < 9223372036854775808 → e ≤ clock σ');
}.

(** An assumption about the host, not a promise of the system: nobody sets the clock
    (std::chrono::system_clock, CLOCK_REALTIME) while one of these calls is made, so
    that it does not go back, and what the timer is set for stays where it is. *)
Class SteadyClock (Σ : Type) `{TimerLaws Σ} := {
  now_steady σ t σ' : system_now σ = (t, σ') → clock σ ≤ clock σ' ∧ pending σ' = pending σ;
  settime_steady fd s σ ok σ' : timerfd_settime fd s σ = (ok, σ') →
    clock σ ≤ clock σ' ∧
    (0 ≤ fd → spec_valid s → ∃ t, clock σ ≤ t ≤ clock σ' ∧ pending σ' = Some (t + spec_ns s)) ∧
    (tv_sec s < 0 → pending σ' = pending σ);
  read_steady fd σ r σ' : timer_read fd σ = (r, σ') → clock σ ≤ clock σ';
  timer_close_spec fd σ : clock σ ≤ clock (timer_close fd σ);
}.

(** Both together, call by call. *)
Section steady.
Context {Σ : Type} `{SteadyClock Σ}.

Lemma now_spec σ t σ' :
  system_now σ = (t, σ') →
  0 ≤ t < 9223372036855 ∧ clock σ / 1000000 ≤ t ∧ t = clock σ' / 1000000 ∧
  clock σ ≤ clock σ' ∧ pending σ' = pending σ.
Proof.
  intros Hnow. destruct (now_reads _ _ _ Hnow) as [Hb ->], (now_steady _ _ _ Hnow) as [Hc Hp].
  split_and!; try done; lia.
Qed.

Lemma settime_spec fd s σ ok σ' :
  timerfd_settime fd s σ = (ok, σ') →
  clock σ ≤ clock σ' ∧
  (0 ≤ fd → spec_valid s →
     ok = true ∧ ∃ t, clock σ ≤ t ≤ clock σ' ∧ pending σ' = Some (t + spec_ns s)) ∧
  (tv_sec s < 0 → ok = false ∧ pending σ' = pending σ).
Proof.
  intros Hset. destruct (settime_sets _ _ _ _ _ Hset) as [Hok Hno], (settime_steady _ _ _ _ _ Hset) as (Hc & Hp & Hk).
  split; [done|]. split; [|by auto]. intros Hfd Hv. split; [by apply Hok|by apply Hp].
Qed.

Lemma read_spec fd σ r σ' :
  timer_read fd σ = (r, σ') → clock σ ≤ clock σ' ∧ (fd < 0 → r = None) ∧ (0 ≤ fd → r = Some 1).
Proof. intros Hr. destruct (read_reads _ _ _ _ Hr) as (Hn & Ho & _). split; [by eapply read_steady|done]. Qed.
End steady.

(** * Data *)

Record TimeEventListener := mkTimer {
  m_fileno : Z;
  m_fd : Z;
  m_queued_events : list Z;
}.

(** What the listener asks of the event loop, and descriptors closed. *)
Inductive request :=
| Unregister (fileno : Z)
| ModeChange (fileno : Z) (first_time : bool)
| TimerClosed (fd : Z).

(** The listener, the system, the requests made, and the state [U] of the derived
    class. *)
Record tworld (Σ U : Type) := mkTWorld {
  t_os : Σ;
  t_requests : list request;
  t_timer : TimeEventListener;
  t_user : U;
}.
Arguments mkTWorld {Σ U}.
Arguments t_os {Σ U}.
Arguments t_requests {Σ U}.
Arguments t_timer {Σ U}.
Arguments t_user {Σ U}.

(** * std::multiset<uint64_t> *)

(** [insert] puts an element behind the equal ones. *)
Fixpoint multiset_insert (t : Z) (q : list Z) : list Z :=
  match q with
  | [] => [t]
  | x :: q' => if t <? x then t :: q else x :: multiset_insert t q'
  end.

(** Whether [insert] returns [begin()]. *)
Definition inserted_first (t : Z) (q : list Z) : bool :=
  match q with [] => true | x :: _ => t <? x end.

(** The first loop of [on_read_ready]: erase from the front what is due. *)
Fixpoint erase_due (now : Z) (q : list Z) (count : nat) : list Z * nat :=
  match q with
  | [] => ([], count)
  | it :: q' => if it <=? now then erase_due now q' (S count) else (q, count)
  end.

(** * Operations *)

Section timer.
Context {Σ U : Type} `{TimerSys Σ}.
Abbreviation W := (tworld Σ U).
Implicit Types w : W.

Definition timer : M W TimeEventListener := λ w, (Val (t_timer w), w).

Definition set_timer (t : TimeEventListener) : M W unit := λ w,
  (Val tt, mkTWorld (t_os w) (t_requests w) t (t_user w)).

Definition tcall {A} (f : Σ → A * Σ) : M W A := λ w,
  let '(a, σ) := f (t_os w) in (Val a, mkTWorld σ (t_requests w) (t_timer w) (t_user w)).

Definition request_loop (r : request) : M W unit := λ w,
  (Val tt, mkTWorld (t_os w) (t_requests w ++ [r]) (t_timer w) (t_user w)).

Definition set_events (q : list Z) : M W unit :=
  t ← timer;
  set_timer {| m_fileno := m_fileno t; m_fd := m_fd t; m_queued_events := q |}.

(** The constructor. *)
Definition construct : M W unit :=
  fd ← tcall timerfd_create;
  set_timer {| m_fileno := fd; m_fd := fd; m_queued_events := [] |}.

Definition get_current_time : M W Z := tcall system_now.

Definition is_valid : M W bool := t ← timer; mret (0 <=? m_fd t).

Definition get_fileno : M W Z := t ← timer; mret (m_fileno t).

Definition internal_schedule (delay : Z) : M W bool :=
  t ← timer;
  let new_value :=
    if delay =? 0 then {| tv_sec := 0; tv_nsec := 1 |}
    else {| tv_sec := Z.quot (i64 delay) 1000;
            tv_nsec := i64 (i64 (delay mod 1000) * 1000000) |} in
  res ← tcall (timerfd_settime (m_fd t) new_value);
  mret res.

Definition schedule (delay : Z) : M W bool :=
  t ← timer;
  if m_fd t <? 0 then mret false else
  let is_scheduled := match m_queued_events t with [] => false | _ :: _ => true end in
  now ← get_current_time;
  let start := u64 (now + delay) in
  let is_scheduled := if inserted_first start (m_queued_events t) then false else is_scheduled in
  set_events (multiset_insert start (m_queued_events t));;
  if is_scheduled then mret true else internal_schedule delay.

Definition unschedule : M W bool :=
  t ← timer;
  let has_events := match m_queued_events t with [] => false | _ :: _ => true end in
  set_events [];;
  mret has_events.

Definition close_socket : M W unit :=
  t ← timer;
  if m_fd t <? 0 then mret tt else
  tcall (λ σ, (tt, timer_close (m_fd t) σ));;
  request_loop (TimerClosed (m_fd t));;
  set_timer {| m_fileno := m_fileno t; m_fd := -1; m_queued_events := m_queued_events t |};;
  initialized ← tcall (λ σ, (loop_initialized σ, σ));
  when initialized (request_loop (Unregister (m_fileno t))).

Definition on_error : M W unit := close_socket.

Definition re_register (first_time : bool) : M W unit :=
  valid ← is_valid;
  if negb valid then mret tt else
  initialized ← tcall (λ σ, (loop_initialized σ, σ));
  if negb initialized then throw (runtime_error "Event loop not initialized (yet)!") else
  t ← timer;
  request_loop (ModeChange (m_fileno t) first_time).

(** [for (i = 0; i < count; ++i) on_time_event()]. *)
Fixpoint repeat_call (count : nat) (on_time_event : M W unit) : M W unit :=
  match count with
  | O => mret tt
  | S n => on_time_event;; repeat_call n on_time_event
  end.

(** The part of [on_read_ready] after the callbacks. *)
Definition rearm (now : Z) : M W unit :=
  t ← timer;
  match m_queued_events t with
  | [] => mret tt
  | next :: _ =>
      if 0 <=? m_fd t then
        if next <? now then fatal "Invalid state"
        else internal_schedule (u64 (next - now));; mret tt
      else mret tt
  end.

(** The lock is released around the callbacks: [on_time_event] is any code of
    the derived class, calls of this listener included. *)
Definition on_read_ready (on_time_event : M W unit) : M W unit :=
  t ← timer;
  res ← tcall (timer_read (m_fd t));
  match res with
  | None => fatal "Failed to read from timefd"
  | Some buf =>
      if buf =? 1 then
        now ← get_current_time;
        t ← timer;
        let '(rest, count) := erase_due now (m_queued_events t) 0 in
        set_events rest;;
        repeat_call count on_time_event;;
        rearm now
      else mret tt
  end.
End timer.

(** * The multiset *)

Lemma multiset_insert_perm t q : multiset_insert t q ≡ₚ t :: q.
Proof.
  induction q as [|x q IH]; simpl; [done|]. case_bool; [done|].
  rewrite IH. apply Permutation_swap.
Qed.

Lemma multiset_insert_sorted t q :
  StronglySorted Z.le q → StronglySorted Z.le (multiset_insert t q).
Proof.
  induction 1 as [|x q Hq IH Hx]; simpl; [by repeat constructor|]. case_bool.
  - constructor; [by constructor|]. constructor; [lia|].
    eapply Forall_impl; [exact Hx|]. simpl. lia.
  - constructor; [done|]. rewrite multiset_insert_perm. constructor; [lia|done].
Qed.

Lemma inserted_first_spec t q :
  inserted_first t q = true → multiset_insert t q = t :: q.
Proof. destruct q as [|x q]; simpl; [done|]. by intros ->. Qed.

(** Unless it goes to the front, an insertion keeps the first element. *)
Lemma inserted_later t q :
  inserted_first t q = false → ∃ x q1 q2, q = x :: q1 ∧ multiset_insert t q = x :: q2.
Proof. destruct q as [|x q]; simpl; [done|]. intros ->. by eexists _, _, _. Qed.

Lemma erase_due_spec now q c :
  StronglySorted Z.le q →
  erase_due now q c =
  (filter (λ x, now < x) q, Nat.add c (length (filter (λ x, x ≤ now) q))).
Proof.
  intros Hq. revert c. induction Hq as [|x q Hq IH Hx]; intros c; [simpl; by rewrite Nat.add_0_r|].
  cbn [erase_due]. destruct (x <=? now) eqn:E; bool_to_prop.
  - rewrite IH, !filter_cons, decide_False, decide_True by lia. f_equal. simpl. lia.
  - assert (Forall (λ y, now < y) (x :: q)) as Hall.
    { constructor; [lia|]. eapply Forall_impl; [exact Hx|]. simpl. lia. }
    assert (filter (λ y, now < y) (x :: q) = x :: q) as -> by by apply filter_all.
    assert (filter (λ y, y ≤ now) (x :: q) = []) as ->; [|by rewrite Nat.add_0_r].
    apply filter_none. eapply Forall_impl; [exact Hall|]. simpl. lia.
Qed.

Lemma filter_sorted (P : Z → Prop) `{∀ x, Decision (P x)} q :
  StronglySorted Z.le q → StronglySorted Z.le (filter P q).
Proof.
  induction 1 as [|x q Hq IH Hx]; [constructor|]. rewrite filter_cons.
  case_decide; [|done]. constructor; [done|]. apply Forall_forall. intros y [_ Hy]%list_elem_of_filter.
  by eapply Forall_forall.
Qed.

(** * What the calls keep *)

Section props.
Context {Σ U : Type} `{SteadyClock Σ}.
Abbreviation W := (tworld Σ U).
Implicit Types w : W.

Abbreviation queue w := (m_queued_events (t_timer w)).
Abbreviation fd_of w := (m_fd (t_timer w)).

(** 2^63: times and delays below it survive the conversions to signed types. *)
Definition MAX_TIME : Z := 9223372036854775808.

(** The queue is a sorted multiset of such times. *)
Definition timer_wf w : Prop :=
  StronglySorted Z.le (queue w) ∧ Forall (λ x, 0 ≤ x < MAX_TIME) (queue w).

(** An open timer with events in its queue is set. *)
Definition armed w : Prop := 0 ≤ fd_of w → queue w ≠ [] → pending (t_os w) ≠ None.

Definition timer_ok w : Prop := timer_wf w ∧ armed w.

(** Delays that cannot take a deadline past [MAX_TIME] (292 million years). *)
Definition MAX_DELAY : Z := 9223362036854775808.

Lemma wp_timer w (Q : outcome TimeEventListener → W → Prop) :
  Q (Val (t_timer w)) w → wp timer w Q.
Proof. done. Qed.

Lemma wp_set_events q w (Q : outcome unit → W → Prop) :
  Q (Val tt) (mkTWorld (t_os w) (t_requests w)
    {| m_fileno := m_fileno (t_timer w); m_fd := fd_of w; m_queued_events := q |} (t_user w)) →
  wp (set_events q) w Q.
Proof. done. Qed.

Lemma wp_tcall {A} (f : Σ → A * Σ) w (Q : outcome A → W → Prop) :
  (∀ a σ, f (t_os w) = (a, σ) →
    Q (Val a) (mkTWorld σ (t_requests w) (t_timer w) (t_user w))) →
  wp (tcall f) w Q.
Proof. intros HQ. unfold wp, tcall. destruct (f (t_os w)) as [a σ] eqn:E. by apply HQ. Qed.

Lemma wp_request r w (Q : outcome unit → W → Prop) :
  Q (Val tt) (mkTWorld (t_os w) (t_requests w ++ [r]) (t_timer w) (t_user w)) →
  wp (request_loop r) w Q.
Proof. done. Qed.

(** ** internal_schedule *)

(** The time structure computed from a delay. *)
Definition delay_spec (delay : Z) : itimerspec :=
  if delay =? 0 then {| tv_sec := 0; tv_nsec := 1 |}
  else {| tv_sec := Z.quot (i64 delay) 1000;
          tv_nsec := i64 (i64 (delay mod 1000) * 1000000) |}.

Lemma delay_spec_valid delay :
  0 ≤ delay < MAX_TIME →
  spec_valid (delay_spec delay) ∧
  spec_ns (delay_spec delay) = if delay =? 0 then 1 else delay * 1000000.
Proof.
  unfold delay_spec, MAX_TIME, spec_valid, spec_ns. intros Hd.
  destruct (delay =? 0) eqn:E; bool_to_prop; cbn [tv_sec tv_nsec]; [lia|].
  rewrite (i64_small delay) by lia. rewrite (i64_small (delay mod 1000)) by lia.
  rewrite i64_small by lia. rewrite Z.quot_div_nonneg by lia. lia.
Qed.

(** The listener after a call that set the timer to go off [delay] milliseconds
    after some moment [t] of the call. *)
Definition set_post (delay : Z) w (o : outcome bool) w' : Prop :=
  o = Val true ∧ t_timer w' = t_timer w ∧ t_requests w' = t_requests w ∧
  t_user w' = t_user w ∧ clock (t_os w) ≤ clock (t_os w') ∧
  ∃ t, clock (t_os w) ≤ t ≤ clock (t_os w') ∧
    pending (t_os w') = Some (t + if delay =? 0 then 1 else delay * 1000000).

Lemma internal_schedule_spec delay w :
  0 ≤ delay < MAX_TIME → 0 ≤ fd_of w →
  wp (internal_schedule delay) w (set_post delay w).
Proof.
  intros Hd Hfd. unfold internal_schedule. fold (delay_spec delay).
  wp_step. apply wp_timer. cbn [seq_post]. wp_step. apply wp_tcall. intros ok σ Hset.
  cbn [seq_post]. wp_step. destruct (delay_spec_valid delay Hd) as [Hv Hns].
  destruct (settime_spec _ _ _ _ _ Hset) as (Hclock & Hok & _).
  destruct (Hok Hfd Hv) as (-> & t & Ht & Hp). rewrite Hns in Hp.
  split_and!; try done. by exists t.
Qed.

(** ** schedule *)

(** A successful [schedule] at time [now]. *)
Definition scheduled (delay now : Z) w w' : Prop :=
  clock (t_os w) / 1000000 ≤ now ∧ 0 ≤ now + delay < MAX_TIME ∧
  queue w' = multiset_insert (now + delay) (queue w) ∧
  fd_of w' = fd_of w ∧ m_fileno (t_timer w') = m_fileno (t_timer w) ∧
  t_requests w' = t_requests w ∧ t_user w' = t_user w ∧
  clock (t_os w) ≤ clock (t_os w') ∧
  if bool_decide (queue w = []) || inserted_first (now + delay) (queue w) then
    ∃ t, pending (t_os w') = Some t ∧ (now + delay) * 1000000 ≤ t ∧
      t ≤ clock (t_os w') + Z.max 1 (delay * 1000000)
  else pending (t_os w') = pending (t_os w).

Lemma schedule_spec delay w :
  0 ≤ delay < MAX_DELAY → 0 ≤ fd_of w →
  wp (schedule delay) w (λ o w', o = Val true ∧ ∃ now, scheduled delay now w w').
Proof.
  intros Hd Hfd. unfold schedule. wp_step. apply wp_timer. cbn [seq_post].
  rewrite (proj2 (Z.ltb_ge (fd_of w) 0)) by done. wp_step. apply wp_tcall.
  intros now σ Hnow. cbn [seq_post].
  destruct (now_spec _ _ _ Hnow) as (Hb & Hge & Heq & Hclock & Hpend).
  rewrite u64_small by (unfold MAX_DELAY in *; lia).
  wp_step. apply wp_set_events. cbn [seq_post].
  set (w1 := mkTWorld _ _ _ _). unfold MAX_TIME, MAX_DELAY in *.
  assert ((if inserted_first (now + delay) (queue w) then false
           else match queue w with [] => false | _ :: _ => true end) =
    negb (bool_decide (queue w = []) || inserted_first (now + delay) (queue w))) as ->.
  { destruct (queue w); simpl; [done|]. by destruct (now + delay <? z). }
  unfold scheduled. destruct (bool_decide (queue w = []) || _) eqn:Efirst; cbn [negb].
  - eapply wp_mono; [apply (internal_schedule_spec delay w1); [unfold MAX_TIME; lia|done]|].
    intros ? w2 (-> & Ht & Hr & Hu & Hc & t & Hbt & Hp). split; [done|]. exists now.
    rewrite Ht, Hr, Hu, Efirst. cbn [w1 t_timer t_requests t_user m_fd m_fileno m_queued_events t_os] in *.
    unfold MAX_TIME. split_and!; try done; try lia. eexists. split; [done|].
    destruct (delay =? 0) eqn:E; bool_to_prop; lia.
  - wp_step. split; [done|]. exists now. rewrite Efirst. unfold MAX_TIME. split_and!; try done; lia.
Qed.

Lemma schedule_closed delay w : fd_of w < 0 → schedule delay w = (Val false, w).
Proof.
  intros Hfd. unfold schedule, mbind, M_bind, timer. by rewrite (proj2 (Z.ltb_lt _ _) Hfd).
Qed.

Lemma scheduled_wf delay now w w' : timer_wf w → scheduled delay now w w' → timer_wf w'.
Proof.
  intros [Hs Hb] (_ & Hst & Hq & _). unfold timer_wf. rewrite Hq. split.
  - by apply multiset_insert_sorted.
  - rewrite multiset_insert_perm. by constructor.
Qed.

Lemma scheduled_armed delay now w w' : armed w → scheduled delay now w w' → armed w'.
Proof.
  intros Ha (_ & _ & Hq & Hfd & _ & _ & _ & _ & Hp) Hopen _. rewrite Hfd in Hopen.
  destruct (_ || _) eqn:E in Hp; [destruct Hp as (t & -> & _); done|].
  apply orb_false_iff in E as [E _]. apply bool_decide_eq_false in E.
  rewrite Hp. by apply Ha.
Qed.

(** ** Closing *)

Lemma close_socket_spec w :
  wp close_socket w (λ o w', o = Val tt ∧ queue w' = queue w ∧ fd_of w' < 0 ∧ clock (t_os w) ≤ clock (t_os w')).
Proof.
  unfold close_socket. wp_step. apply wp_timer. cbn [seq_post].
  destruct (fd_of w <? 0) eqn:E; bool_to_prop; [wp_step; split_and!; try done; lia|].
  wp_step. apply wp_tcall. intros ? σ [= _ <-]. cbn [seq_post].
  pose proof (timer_close_spec (fd_of w) (t_os w)) as Hc.
  wp_step. apply wp_request. cbn [seq_post]. wp_step. unfold wp at 1. cbn [set_timer fst snd seq_post].
  wp_step. apply wp_tcall. intros b σ [= _ <-]. cbn [seq_post]. cbn [t_os].
  apply wp_when; intros _; [apply wp_request|]; cbn; split_and!; try done; lia.
Qed.

(** ** on_read_ready *)

(** What callbacks of the derived class have to keep: the queue stays sorted and
    nothing is queued for the past, which [schedule], [unschedule] and
    [close_socket] respect. *)
Definition callback_inv (now : Z) w : Prop :=
  timer_wf w ∧ 0 ≤ now ∧ Forall (λ x, now ≤ x) (queue w) ∧ now ≤ clock (t_os w) / 1000000.

Definition good_callback (cb : M W unit) : Prop :=
  ∀ now w, callback_inv now w → wp cb w (λ o w', o = Val tt ∧ callback_inv now w').

Lemma schedule_good delay :
  0 ≤ delay < MAX_DELAY → good_callback (schedule delay;; mret tt).
Proof.
  intros Hd now w (Hwf & Hpos & Hq & Hc). wp_step.
  destruct (Z.ltb_spec (fd_of w) 0) as [Hfd|Hfd].
  { unfold wp. rewrite schedule_closed by done. cbn. by split_and!. }
  eapply wp_mono; [by apply schedule_spec|]. intros ? w' (-> & n & Hs). cbn [seq_post]. wp_step.
  split; [done|]. pose proof (scheduled_wf _ _ _ _ Hwf Hs) as Hwf'.
  destruct Hs as (Hn & _ & Hq' & _ & _ & _ & _ & Hc' & _). split_and!; [done|done| |].
  - rewrite Hq', multiset_insert_perm. constructor; [lia|done].
  - assert (clock (t_os w) / 1000000 ≤ clock (t_os w') / 1000000) by (apply Z.div_le_mono; lia). lia.
Qed.

Lemma unschedule_good : good_callback (unschedule;; mret tt).
Proof.
  intros now w (Hwf & Hpos & Hq & Hc). wp_step. unfold unschedule. wp_step. apply wp_timer.
  cbn [seq_post]. wp_step. apply wp_set_events. cbn [seq_post]. wp_step. cbn [seq_post]. wp_step.
  split; [done|]. split_and!; [split; constructor|done|constructor|done].
Qed.

Lemma close_good : good_callback close_socket.
Proof.
  intros now w (Hwf & Hpos & Hq & Hc). eapply wp_mono; [apply close_socket_spec|].
  intros o w' (-> & Hq' & _ & Hc'). split; [done|].
  assert (clock (t_os w) / 1000000 ≤ clock (t_os w') / 1000000) by (apply Z.div_le_mono; lia).
  unfold callback_inv, timer_wf in *. rewrite Hq'. split_and!; try done; [apply Hwf..|lia].
Qed.

Lemma callback_seq cb1 cb2 :
  good_callback cb1 → good_callback cb2 → good_callback (cb1;; cb2).
Proof.
  intros Hcb1 Hcb2 now w Hinv. wp_step. eapply wp_mono; [by apply Hcb1|].
  intros ? w' [-> Hinv']. cbn [seq_post]. by apply Hcb2.
Qed.

Lemma repeat_call_good n cb : good_callback cb → good_callback (repeat_call n cb).
Proof.
  intros Hcb. induction n as [|n IH]; [by intros now w Hinv; split|]. by apply callback_seq.
Qed.

Lemma rearm_spec now w :
  callback_inv now w →
  wp (rearm now) w (λ o w', o = Val tt ∧ t_timer w' = t_timer w ∧ t_requests w' = t_requests w ∧
    t_user w' = t_user w ∧ clock (t_os w) ≤ clock (t_os w') ∧
    match queue w with
    | next :: _ => 0 ≤ fd_of w → ∃ t, pending (t_os w') = Some t ∧ next * 1000000 ≤ t
    | [] => True
    end).
Proof.
  intros ((Hs & Hb) & Hpos & Hq & Hc). unfold rearm. wp_step. apply wp_timer. cbn [seq_post].
  destruct (queue w) as [|next q] eqn:E; [by wp_step|].
  apply Forall_cons in Hq as [Hnext _]. apply Forall_cons in Hb as [Hmax _].
  destruct (Z.leb_spec 0 (fd_of w)) as [Hfd|Hfd]; [|wp_step; split_and!; done || lia].
  rewrite (proj2 (Z.ltb_ge next now)) by done. unfold MAX_TIME in *.
  rewrite u64_small by lia. wp_step.
  eapply wp_mono; [apply internal_schedule_spec; [unfold MAX_TIME; lia|done]|].
  intros ? w' (-> & Ht & Hr & Hu & Hcl & t & Hbt & Hp). cbn [seq_post]. wp_step.
  split_and!; try done. intros _. eexists. split; [done|].
  destruct (next - now =? 0) eqn:E0; bool_to_prop; lia.
Qed.

(** The start of [on_read_ready] on an open timer. *)
Lemma on_read_ready_open cb w (Q : outcome unit → W → Prop) :
  timer_wf w → 0 ≤ fd_of w →
  (∀ now w1, clock (t_os w) / 1000000 ≤ now → callback_inv now w1 →
    queue w1 = filter (λ x, now < x) (queue w) →
    fd_of w1 = fd_of w → t_user w1 = t_user w →
    wp (repeat_call (length (filter (λ x, x ≤ now) (queue w))) cb;; rearm now) w1 Q) →
  wp (on_read_ready cb) w Q.
Proof.
  intros [Hs Hb] Hfd HQ. unfold on_read_ready. wp_step. apply wp_timer. cbn [seq_post].
  wp_step. apply wp_tcall. intros r σ Hread. cbn [seq_post].
  destruct (read_spec _ _ _ _ Hread) as (Hc1 & _ & Hr). rewrite (Hr Hfd).
  change (1 =? 1) with true. cbv iota. wp_step. apply wp_tcall. intros now σ' Hnow.
  cbn [seq_post t_os] in *. destruct (now_spec _ _ _ Hnow) as (Hbn & Hge & Heq & Hc2 & _).
  assert (clock (t_os w) / 1000000 ≤ clock σ / 1000000) by (apply Z.div_le_mono; lia).
  wp_step. apply wp_timer. cbn [seq_post t_timer]. rewrite erase_due_spec by done.
  cbn [Nat.add]. wp_step. apply wp_set_events. cbn [seq_post t_timer t_os t_requests t_user].
  apply HQ; try done; [lia|]. unfold callback_inv, timer_wf. simpl. split_and!.
  - by apply filter_sorted.
  - apply Forall_forall. intros x [_ Hx]%list_elem_of_filter. by eapply Forall_forall in Hb.
  - lia.
  - apply Forall_forall. intros x [Hx _]%list_elem_of_filter. lia.
  - lia.
Qed.

(** * Properties *)

(** [schedule] on an open timer returns [true]; the queue gets one deadline,
    [delay] milliseconds after the time read in the call, at its sorted place;
    and when that deadline comes first, the timerfd is set again and will not go
    off before it. On a closed timer it returns [false] and changes nothing. *)
Theorem schedule_sets_timer delay w :
  timer_ok w → 0 ≤ delay < MAX_DELAY →
  (fd_of w < 0 → schedule delay w = (Val false, w)) ∧
  (0 ≤ fd_of w → wp (schedule delay) w (λ o w', o = Val true ∧ timer_ok w' ∧
    fd_of w' = fd_of w ∧ t_requests w' = t_requests w ∧ t_user w' = t_user w ∧
    ∃ now, clock (t_os w) / 1000000 ≤ now ∧ queue w' ≡ₚ (now + delay) :: queue w ∧
      (Forall (λ x, now + delay < x) (queue w) →
       ∃ t, pending (t_os w') = Some t ∧ (now + delay) * 1000000 ≤ t))).
Proof.
  intros [Hwf Ha] Hd. split; [apply schedule_closed|]. intros Hfd.
  eapply wp_mono; [by apply schedule_spec|]. intros ? w' (-> & now & Hs).
  pose proof (scheduled_wf _ _ _ _ Hwf Hs). pose proof (scheduled_armed _ _ _ _ Ha Hs).
  destruct Hs as (Hn & _ & Hq & Hfd' & _ & Hr & Hu & _ & Hp). split_and!; try done.
  exists now. rewrite Hq. split_and!; [done|apply multiset_insert_perm|].
  intros Hfirst. destruct (_ || _) eqn:E in Hp; [destruct Hp as (t & ? & ? & _); by exists t|].
  apply orb_false_iff in E as [E1 E2]. apply bool_decide_eq_false in E1.
  destruct (queue w) as [|x q]; [done|]. apply Forall_cons in Hfirst as [Hx _].
  simpl in E2. bool_to_prop. lia.
Qed.

(** A wake-up triggers exactly the events that are due: [on_time_event] runs
    once per queued deadline that is not after the time read in the call, all of
    these leave the queue, all others stay, and the timer is set for the first
    of them, never before its deadline. *)
Theorem on_read_ready_fires_due (f : U → U) w :
  timer_wf w → 0 ≤ fd_of w →
  let cb := λ w, (Val tt, mkTWorld (t_os w) (t_requests w) (t_timer w) (f (t_user w))) in
  wp (on_read_ready cb) w (λ o w', o = Val tt ∧ ∃ now, clock (t_os w) / 1000000 ≤ now ∧
    t_user w' = Nat.iter (length (filter (λ x, x ≤ now) (queue w))) f (t_user w) ∧
    queue w' = filter (λ x, now < x) (queue w) ∧
    match queue w' with
    | next :: _ => ∃ t, pending (t_os w') = Some t ∧ next * 1000000 ≤ t
    | [] => True
    end).
Proof.
  intros Hwf Hfd cb. apply on_read_ready_open; [done..|].
  intros now w1 Hn Hinv Hq Hfd1 Hu. wp_step.
  assert (∀ n w2, wp (repeat_call n cb) w2 (λ o w3, o = Val tt ∧
    w3 = mkTWorld (t_os w2) (t_requests w2) (t_timer w2) (Nat.iter n f (t_user w2)))) as Hloop.
  { induction n as [|n IH]; intros w2; [by destruct w2|]. simpl. wp_step.
    unfold wp at 1. cbn [cb fst snd seq_post]. eapply wp_mono; [apply IH|].
    intros ? w3 [-> ->]. split; [done|]. simpl. by rewrite <- Nat.iter_succ_r. }
  eapply wp_mono; [apply Hloop|]. intros ? w3 [-> ->]. cbn [seq_post].
  eapply wp_mono; [by apply rearm_spec|]. cbn [t_timer t_user t_requests].
  intros ? w4 (-> & Ht & _ & Hu4 & _ & Hp). split; [done|]. exists now. rewrite Ht, Hu4, Hu, Hq.
  rewrite Hq in Hp. split_and!; try done. destruct (filter _ _); [done|].
  apply Hp. by rewrite Hfd1.
Qed.

(** The reschedule after the callbacks measures the remaining delay from the
    time read before them: if they took [took] nanoseconds, the next event is
    late by at least as much. *)
Theorem rearm_late_by_callbacks now next rest took w :
  timer_wf w → 0 ≤ now → 0 ≤ took → queue w = next :: rest → now < next → 0 ≤ fd_of w →
  clock (t_os w) = now * 1000000 + took →
  wp (rearm now) w (λ o w', o = Val tt ∧
    ∃ t, pending (t_os w') = Some t ∧ next * 1000000 + took ≤ t).
Proof.
  intros [_ Hb] Hn Htook Hq Hlt Hfd Hclock. unfold rearm. wp_step. apply wp_timer.
  cbn [seq_post]. rewrite Hq in *. apply Forall_cons in Hb as [Hmax _]. unfold MAX_TIME in *.
  rewrite (proj2 (Z.leb_le 0 (fd_of w)) Hfd), (proj2 (Z.ltb_ge next now)) by lia.
  rewrite u64_small by lia. wp_step.
  eapply wp_mono; [apply internal_schedule_spec; [unfold MAX_TIME; lia|done]|].
  intros ? w' (-> & _ & _ & _ & _ & t & Hbt & Hp). cbn [seq_post]. wp_step.
  split; [done|]. eexists. split; [done|]. rewrite (proj2 (Z.eqb_neq _ _)) by lia. lia.
Qed.

(** A delay of 2^63 milliseconds or more is not rejected but lost: on an idle
    timer the deadline is queued, the seconds become negative in the conversion,
    the system refuses them, and [schedule] returns [false] with the event in
    the queue and the timer not set. *)
Theorem schedule_huge_delay delay w :
  queue w = [] → 0 ≤ fd_of w → MAX_TIME ≤ delay ≤ two64 - 1000 →
  wp (schedule delay) w (λ o w', o = Val false ∧ (∃ start, queue w' = [start]) ∧
    pending (t_os w') = pending (t_os w)).
Proof.
  intros Hq Hfd Hd. unfold MAX_TIME, two64 in *. unfold schedule. wp_step. apply wp_timer.
  cbn [seq_post]. rewrite (proj2 (Z.ltb_ge (fd_of w) 0)) by done. wp_step. apply wp_tcall.
  intros now σ Hnow. cbn [seq_post].
  destruct (now_spec _ _ _ Hnow) as (_ & _ & _ & _ & Hpend). rewrite Hq. cbn [inserted_first multiset_insert].
  wp_step. apply wp_set_events. cbn [seq_post]. unfold internal_schedule. fold (delay_spec delay).
  wp_step. apply wp_timer. cbn [seq_post]. wp_step. apply wp_tcall. cbn [t_os t_timer m_fd].
  intros ok σ' Hset. cbn [seq_post]. wp_step. cbn [t_os t_timer m_queued_events] in *.
  destruct (settime_spec _ _ _ _ _ Hset) as (_ & _ & Hneg).
  destruct Hneg as [-> Hp]; [|by rewrite Hp; eauto].
  unfold delay_spec. rewrite (proj2 (Z.eqb_neq _ _)) by lia. cbn [tv_sec].
  unfold i64. lia.
Qed.

(** ** The life of a timer *)

(** Closing an open timer: what the loop is asked. *)
Lemma close_socket_run w :
  0 ≤ fd_of w →
  wp close_socket w (λ o w', o = Val tt ∧ fd_of w' = -1 ∧ queue w' = queue w ∧
    m_fileno (t_timer w') = m_fileno (t_timer w) ∧
    t_requests w' = t_requests w ++ TimerClosed (fd_of w) ::
      (if loop_initialized (timer_close (fd_of w) (t_os w))
       then [Unregister (m_fileno (t_timer w))] else [])).
Proof.
  intros Hfd. unfold close_socket. wp_step. apply wp_timer. cbn [seq_post].
  rewrite (proj2 (Z.ltb_ge (fd_of w) 0)) by done.
  wp_step. apply wp_tcall. intros ? σ [= _ <-]. cbn [seq_post].
  wp_step. apply wp_request. cbn [seq_post]. wp_step. unfold wp at 1. cbn [set_timer fst snd seq_post].
  wp_step. apply wp_tcall. intros b σ [= <- <-]. cbn [seq_post t_os].
  apply wp_when; intros ->; [apply wp_request|]; cbn; split_and!; try done;
    by rewrite <- app_assoc.
Qed.

(** [close_socket] closes the timerfd and unregisters the listener (if there
    is an event loop) once: any further [close_socket] or [on_error] does
    nothing, [schedule] returns [false] and changes nothing, and [re_register]
    asks nothing of the loop. The file number stays what it was. *)
Theorem close_socket_once w :
  0 ≤ fd_of w →
  ∃ w', close_socket w = (Val tt, w') ∧ m_fileno (t_timer w') = m_fileno (t_timer w) ∧
    t_requests w' = t_requests w ++ TimerClosed (fd_of w) ::
      (if loop_initialized (timer_close (fd_of w) (t_os w))
       then [Unregister (m_fileno (t_timer w))] else []) ∧
    close_socket w' = (Val tt, w') ∧ on_error w' = (Val tt, w') ∧
    (∀ delay, schedule delay w' = (Val false, w')) ∧
    (∀ first, re_register first w' = (Val tt, w')).
Proof.
  intros Hfd. pose proof (close_socket_run w Hfd) as Hrun. unfold wp in Hrun.
  destruct (close_socket w) as [o w']. cbn [fst snd] in Hrun.
  destruct Hrun as (-> & Hfd' & _ & Hno & Hr). exists w'.
  assert (close_socket w' = (Val tt, w')) as Hclose.
  { unfold close_socket, mbind, M_bind, timer. by rewrite Hfd'. }
  split_and!; try done.
  - intros delay. apply schedule_closed. lia.
  - intros first. unfold re_register, is_valid, mbind, M_bind, timer. by rewrite Hfd'.
Qed.

(** A wake-up delivered after the timer was closed aborts the process: the
    read of descriptor -1 fails and [on_read_ready] ends in [LOG(FATAL)]. *)
Theorem wake_up_after_close_aborts cb w :
  fd_of w < 0 →
  ∃ w', on_read_ready cb w = (Halt (Fatal "Failed to read from timefd"), w').
Proof.
  intros Hfd. unfold on_read_ready, mbind, M_bind, timer, tcall.
  destruct (timer_read (fd_of w) (t_os w)) as [r σ] eqn:Hread.
  destruct (read_spec _ _ _ _ Hread) as (_ & -> & _); [|done]. eexists. reflexivity.
Qed.

(** The worlds a timer gets to by its calls, wake-ups while it is open, and time
    that passes. *)
Inductive timer_reachable : W → Prop :=
| treach_new w : 0 ≤ fd_of w → queue w = [] → timer_reachable w
| treach_time w σ :
    timer_reachable w → clock (t_os w) ≤ clock σ → pending σ = pending (t_os w) →
    timer_reachable (mkTWorld σ (t_requests w) (t_timer w) (t_user w))
| treach_schedule w delay o w' :
    timer_reachable w → 0 ≤ delay < MAX_DELAY → schedule delay w = (o, w') → timer_reachable w'
| treach_unschedule w o w' :
    timer_reachable w → unschedule w = (o, w') → timer_reachable w'
| treach_close w o w' :
    timer_reachable w → close_socket w = (o, w') → timer_reachable w'
| treach_register w first o w' :
    timer_reachable w → re_register first w = (o, w') → timer_reachable w'
| treach_ready w cb o w' :
    timer_reachable w → 0 ≤ fd_of w → good_callback cb → on_read_ready cb w = (o, w') →
    timer_reachable w'.

Lemma wp_of {A} (m : M W A) w o w' Q : m w = (o, w') → wp m w Q → Q o w'.
Proof. unfold wp. by intros ->. Qed.

Lemma on_read_ready_ok cb w :
  timer_wf w → 0 ≤ fd_of w → good_callback cb →
  wp (on_read_ready cb) w (λ o w', o = Val tt ∧ timer_ok w').
Proof.
  intros Hwf Hfd Hcb. apply on_read_ready_open; [done..|].
  intros now w1 _ Hinv _ _ _. wp_step.
  eapply wp_mono; [by apply (repeat_call_good _ cb Hcb now)|]. intros ? w2 [-> Hinv2].
  cbn [seq_post]. eapply wp_mono; [by apply rearm_spec|]. intros ? w3 (-> & Ht & _ & _ & _ & Hp).
  split; [done|]. destruct Hinv2 as [Hwf2 _]. unfold timer_ok, timer_wf, armed. rewrite Ht.
  split; [done|]. intros Hfd2 Hne. destruct (queue w2); [done|].
  by destruct (Hp Hfd2) as (t & -> & _).
Qed.

Lemma reachable_timer_ok w : timer_reachable w → timer_ok w.
Proof.
  induction 1 as [w Hfd Hq|w σ _ [Hwf Ha] _ Hp|w delay o w' _ [Hwf Ha] Hd Hrun|w o w' _ IH Hrun
    |w o w' _ IH Hrun|w first o w' _ IH Hrun|w cb o w' _ IH Hfd Hcb Hrun].
  - unfold timer_ok, timer_wf, armed. rewrite Hq. split; [split; constructor|done].
  - split; [done|]. unfold armed in *. simpl. by rewrite Hp.
  - destruct (Z.ltb_spec (fd_of w) 0) as [Hfd|Hfd].
    { rewrite schedule_closed in Hrun by done. by injection Hrun as <- <-. }
    apply (wp_of _ _ _ _ _ Hrun). eapply wp_mono; [by apply schedule_spec|].
    intros ? w1 (_ & now & Hs). split; [by eapply scheduled_wf|by eapply scheduled_armed].
  - apply (wp_of _ _ _ _ _ Hrun). unfold unschedule. wp_step. apply wp_timer. cbn [seq_post].
    wp_step. apply wp_set_events. cbn [seq_post]. wp_step.
    unfold timer_ok, timer_wf, armed. cbn. split; [split; constructor|done].
  - apply (wp_of _ _ _ _ _ Hrun). eapply wp_mono; [apply close_socket_spec|].
    intros ? w1 (_ & Hq & Hfd & _). destruct IH as [Hwf _]. unfold timer_ok, timer_wf, armed.
    rewrite Hq. split; [done|]. intros Hle. lia.
  - apply (wp_of _ _ _ _ _ Hrun). unfold re_register, is_valid. wp_step. wp_step. apply wp_timer.
    cbn [seq_post]. wp_step. cbn [seq_post]. destruct (0 <=? fd_of w); cbn [negb]; [|by wp_step].
    wp_step. apply wp_tcall. intros b σ [= <- <-]. cbn [seq_post t_os].
    destruct (loop_initialized (t_os w)); cbn [negb]; [|by wp_step].
    wp_step. apply wp_timer. cbn [seq_post]. by apply wp_request.
  - apply (wp_of _ _ _ _ _ Hrun). destruct IH as [Hwf _].
    eapply wp_mono; [by apply on_read_ready_ok|]. by intros ? w1 [_ ?].
Qed.

(** No wake-up is lost: in every state a timer reaches by scheduling,
    unscheduling, closing, registering and wake-ups whose callbacks make any of
    these calls, the queue is sorted and an open timer with a queued event is set
    to go off; and a wake-up of an open timer never aborts. *)
Theorem no_lost_wake_up w :
  timer_reachable w →
  StronglySorted Z.le (queue w) ∧
  (0 ≤ fd_of w → queue w ≠ [] → ∃ t, pending (t_os w) = Some t) ∧
  (∀ cb, 0 ≤ fd_of w → good_callback cb →
    wp (on_read_ready cb) w (λ o w', o = Val tt ∧ timer_reachable w')).
Proof.
  intros Hr. destruct (reachable_timer_ok w Hr) as [Hwf Ha]. split_and!; [apply Hwf| |].
  - intros Hfd Hne. specialize (Ha Hfd Hne). destruct (pending (t_os w)); [by eexists|done].
  - intros cb Hfd Hcb. pose proof (on_read_ready_ok cb w Hwf Hfd Hcb) as Hrun. unfold wp in *.
    destruct (on_read_ready cb w) as [o w'] eqn:E. destruct Hrun as [-> _]. split; [done|].
    by eapply treach_ready.
Qed.
End props.

(** * A simulated timer *)

Record simtime := mkSim { sim_clock : Z; sim_pending : option Z; sim_loop : bool }.

Definition sim_set_pending (p : option Z) (σ : simtime) : simtime :=
  {| sim_clock := sim_clock σ; sim_pending := p; sim_loop := sim_loop σ |}.

(** The clock stands still within a call, but for a blocking read, and never passes
    2262. *)
Definition sim_now (σ : simtime) : Z := Z.max 0 (Z.min (sim_clock σ) 9223372036854775807).

(** Waiting for the timer. *)
Definition sim_wait (σ : simtime) : simtime :=
  match sim_pending σ with
  | Some e => {| sim_clock := Z.max (sim_clock σ) e; sim_pending := None; sim_loop := sim_loop σ |}
  | None => σ
  end.

#[export] Instance sim_sys : TimerSys simtime := {
  timerfd_create σ := (5, σ);
  system_now σ := (sim_now σ / 1000000, σ);
  timerfd_settime fd s σ :=
    if (0 <=? fd) && (0 <=? tv_sec s) && (0 <=? tv_nsec s) && (tv_nsec s <? 1000000000)
    then (true, sim_set_pending (if spec_ns s =? 0 then None else Some (sim_now σ + spec_ns s)) σ)
    else (false, σ);
  timer_read fd σ := if fd <? 0 then (None, σ) else (Some 1, sim_wait σ);
  timer_close _ σ := σ;
  loop_initialized σ := sim_loop σ;
}.

Lemma sim_settime fd s σ :
  0 ≤ fd → spec_valid s → timerfd_settime fd s σ = (true, sim_set_pending (Some (sim_now σ + spec_ns s)) σ).
Proof.
  intros Hfd (Hs & Hn & Hns). simpl.
  rewrite (proj2 (Z.leb_le 0 fd)), (proj2 (Z.leb_le 0 (tv_sec s))), (proj2 (Z.leb_le 0 (tv_nsec s))) by lia.
  rewrite (proj2 (Z.ltb_lt (tv_nsec s) 1000000000)) by lia. simpl. by rewrite (proj2 (Z.eqb_neq _ _)) by lia.
Qed.

#[export] Instance sim_laws : TimerLaws simtime.
Proof.
  refine {| clock := sim_now; pending := sim_pending |}.
  - intros σ t σ' [= <- <-]. unfold sim_now. split; [lia|done].
  - intros fd s σ ok σ' Hset. split.
    + intros Hfd Hv. rewrite sim_settime in Hset by done. injection Hset as <- <-. split; [done|by eexists].
    + simpl in Hset. intros Hs. rewrite (proj2 (Z.leb_gt 0 (tv_sec s))) in Hset by lia.
      rewrite andb_false_r in Hset. by injection Hset as <- <-.
  - intros fd σ r σ' Hread. simpl in Hread.
    destruct (Z.ltb_spec fd 0); injection Hread as <- <-; (split; [by intros; try lia|split; [by intros; try lia|]]); [lia|].
    intros e _ Hp He. unfold sim_wait, sim_now. rewrite Hp. simpl. lia.
Defined.

#[export] Instance sim_steady : SteadyClock simtime.
Proof.
  split.
  - by intros σ t σ' [= <- <-].
  - intros fd s σ ok σ' Hset. split_and!.
    + simpl in Hset. by destruct (_ && _) in Hset; injection Hset as <- <-.
    + intros Hfd Hv. rewrite sim_settime in Hset by done. injection Hset as <- <-.
      exists (sim_now σ). split; [|done]. unfold clock, sim_laws, sim_now, sim_set_pending. simpl. lia.
    + simpl in Hset. intros Hs. rewrite (proj2 (Z.leb_gt 0 (tv_sec s))) in Hset by lia.
      rewrite andb_false_r in Hset. by injection Hset as <- <-.
  - intros fd σ r σ' Hread. simpl in Hread. destruct (fd <? 0); injection Hread as <- <-; [done|].
    unfold clock, sim_laws, sim_wait, sim_now. destruct (sim_pending σ); simpl; lia.
  - done.
Defined.

(** ** Witnesses *)

(** An open timer at time [t] with the queue [q]; the user state counts events. *)
Definition sim_timer (ms : Z) (q : list Z) (fd : Z) : tworld simtime nat :=
  mkTWorld {| sim_clock := ms * 1000000; sim_pending := None; sim_loop := true |} []
    {| m_fileno := 5; m_fd := fd; m_queued_events := q |} 0%nat.

Lemma sim_timer_wf ms q fd :
  StronglySorted Z.le q → Forall (λ x, 0 ≤ x < MAX_TIME) q → timer_wf (sim_timer ms q fd).
Proof. by split. Qed.

Lemma schedule_sets_timer_witness :
  wp (schedule 100) (sim_timer 1000 [] 5) (λ o w', o = Val true ∧
    ∃ t, pending (t_os w') = Some t ∧ 1100000000 ≤ t).
Proof.
  destruct (schedule_sets_timer 100 (sim_timer 1000 [] 5)) as [_ Hopen].
  - split; [apply sim_timer_wf; constructor|by intros _ []].
  - unfold MAX_DELAY. lia.
  - eapply wp_mono; [apply Hopen; simpl; lia|].
    intros o w' (-> & _ & _ & _ & _ & now & Hnow & _ & Hp). split; [done|].
    destruct Hp as (t & Ht & Hle); [constructor|]. exists t. split; [done|].
    assert (clock (t_os (sim_timer 1000 [] 5)) / 1000000 = 1000) as Hc by by vm_compute.
    lia.
Defined.

Lemma sample_queue_wf : timer_wf (sim_timer 1000 [900; 1000; 1000; 1200] 5).
Proof.
  apply sim_timer_wf; [repeat constructor; lia|]. unfold MAX_TIME. repeat constructor; lia.
Qed.

Lemma on_read_ready_fires_due_witness :
  (let cb := λ w, (Val tt, mkTWorld (t_os w) (t_requests w) (t_timer w) (S (t_user w))) in
   wp (on_read_ready cb) (sim_timer 1000 [900; 1000; 1000; 1200] 5) (λ o w', o = Val tt ∧
     t_user w' = 3%nat ∧ m_queued_events (t_timer w') = [1200])).
Proof.
  intros cb. pose proof (on_read_ready_fires_due S (sim_timer 1000 [900; 1000; 1000; 1200] 5)
    sample_queue_wf) as Hspec. unfold wp in *.
  destruct (on_read_ready _ _) as [o w'] eqn:E. vm_compute in E. injection E as <- <-.
  split; [|done]. apply Hspec. simpl. lia.
Defined.

Lemma rearm_late_by_callbacks_witness :
  wp (rearm 1000) (sim_timer 6000 [1200] 5) (λ o w', o = Val tt ∧
    ∃ t, pending (t_os w') = Some t ∧ 6200000000 ≤ t).
Proof.
  apply (rearm_late_by_callbacks 1000 1200 [] 5000000000); simpl; try lia; try done.
  apply sim_timer_wf; [repeat constructor|]. unfold MAX_TIME. repeat constructor; lia.
Defined.

Lemma schedule_huge_delay_witness :
  (schedule MAX_TIME (sim_timer 1000 [] 5)).1 = Val false.
Proof.
  destruct (schedule_huge_delay MAX_TIME (sim_timer 1000 [] 5)) as (Ho & _); try done.
Defined.

Lemma close_socket_once_witness :
  ∃ w', close_socket (sim_timer 1000 [] 5) = (Val tt, w') ∧
    t_requests w' = [TimerClosed 5; Unregister 5].
Proof.
  destruct (close_socket_once (sim_timer 1000 [] 5)) as (w' & Hrun & _ & Hr & _); [simpl; lia|].
  by exists w'.
Defined.

Lemma wake_up_after_close_aborts_witness :
  ∃ w', on_read_ready (mret tt) (sim_timer 1000 [] (-1)) =
    (Halt (Fatal "Failed to read from timefd"), w').
Proof. apply wake_up_after_close_aborts. simpl. lia. Defined.

(** Scheduled, and woken up with a callback that schedules again. *)
Definition woken : tworld simtime nat := (schedule 100 (sim_timer 1000 [] 5)).2.

Lemma woken_reachable : timer_reachable woken.
Proof.
  eapply (treach_schedule (sim_timer 1000 [] 5) 100); [|unfold MAX_DELAY; lia|apply surjective_pairing].
  apply treach_new; [simpl; lia|done].
Qed.

Lemma no_lost_wake_up_witness :
  (∃ t, pending (t_os woken) = Some t) ∧
  wp (on_read_ready (schedule 7;; mret tt)) woken (λ o w', o = Val tt ∧ timer_reachable w').
Proof.
  destruct (no_lost_wake_up woken woken_reachable) as (_ & Hp & Hwake). split.
  - apply Hp; vm_compute; congruence.
  - apply Hwake; [vm_compute; congruence|]. apply schedule_good. unfold MAX_DELAY. lia.
Defined.
