(* ===== verification/Listener.v ===== *)
(** [NetworkSocketListener] of include/yael/NetworkSocketListener.h and
    src/NetworkSocketListener.cpp: a socket, its mode in the event loop, and the
    callbacks of the application. *)
From S2P Require Import Prelude Machine Slicer.
Local Open Scope Z_scope.

(** * The interface [network::Socket]

    The virtual functions a listener calls on its socket, over the type [K] of
    sockets (with the system they run on); [sk_child] is what [accept] returns. *)
Class Socket (K : Type) := {
  sk_child : Type;
  sk_is_valid : K → bool;
  sk_is_connected : K → bool;
  sk_is_listening : K → bool;
  sk_has_messages : K → bool;
  sk_get_fileno : K → Z;
  sk_wait_connection_established : K → bool;
  sk_accept : M K (list sk_child);
  sk_receive : M K (option message_in_t);
  sk_send_shared : list byte → Z → bool → M K bool;
  sk_send_unique : list byte → Z → bool → M K bool;
  sk_send_raw : list byte → Z → bool → M K bool;
  sk_do_send : M K bool;
  sk_close : bool → M K bool;
}.

(** * Data *)

Inductive SocketType := SocketNone | Acceptor | Connection.

Inductive Mode := ReadOnly | ReadWrite.

Definition mode_to_string (mode : Mode) : string :=
  match mode with ReadOnly => "read-only" | ReadWrite => "read-write" end.

#[export] Instance Mode_eq_dec : EqDecision Mode.
Proof. solve_decision. Defined.

#[export] Instance SocketType_eq_dec : EqDecision SocketType.
Proof. solve_decision. Defined.

(** [m_mutex] and [m_send_mutex] are true while a call of this object holds
    them. *)
Record NetworkSocketListener (K : Type) := mkListener {
  m_mutex : bool;
  m_send_mutex : bool;
  m_socket : option K;
  m_socket_type : SocketType;
  m_fileno : Z;
  m_has_disconnected : bool;
  m_mode : Mode;
}.
Arguments mkListener {K}.
Arguments m_mutex {K}.
Arguments m_send_mutex {K}.
Arguments m_socket {K}.
Arguments m_socket_type {K}.
Arguments m_fileno {K}.
Arguments m_has_disconnected {K}.
Arguments m_mode {K}.

(** Calls of the event loop and of the application's callbacks, in order. *)
Inductive levent (C : Type) :=
| Unregistered (fileno : Z)
| ModeChanged (fileno : Z) (mode : Mode) (first_time : bool)
| GotMessage (msg : message_in_t)
| GotConnection (child : C)
| GotDisconnect.
Arguments Unregistered {C}.
Arguments ModeChanged {C}.
Arguments GotMessage {C}.
Arguments GotConnection {C}.
Arguments GotDisconnect {C}.

(** The listener, the trace, whether the event loop exists, and the state [U] of
    the derived class. *)
Record lworld (K C U : Type) := mkLWorld {
  l_listener : NetworkSocketListener K;
  l_trace : list (levent C);
  l_loop : bool;
  l_user : U;
}.
Arguments mkLWorld {K C U}.
Arguments l_listener {K C U}.
Arguments l_trace {K C U}.
Arguments l_loop {K C U}.
Arguments l_user {K C U}.

Section listener.
Context {K U : Type} `{Socket K}.
Abbreviation L := (NetworkSocketListener K).
Abbreviation W := (lworld K sk_child U).
Implicit Types w : W.

Definition set_mutex b (l : L) : L := mkListener b (m_send_mutex l) (m_socket l)
  (m_socket_type l) (m_fileno l) (m_has_disconnected l) (m_mode l).
Definition set_send_mutex b (l : L) : L := mkListener (m_mutex l) b (m_socket l)
  (m_socket_type l) (m_fileno l) (m_has_disconnected l) (m_mode l).
Definition put_socket k (l : L) : L := mkListener (m_mutex l) (m_send_mutex l) k
  (m_socket_type l) (m_fileno l) (m_has_disconnected l) (m_mode l).
Definition put_type t n (l : L) : L := mkListener (m_mutex l) (m_send_mutex l) (m_socket l)
  t n (m_has_disconnected l) (m_mode l).
Definition put_disconnected b (l : L) : L := mkListener (m_mutex l) (m_send_mutex l) (m_socket l)
  (m_socket_type l) (m_fileno l) b (m_mode l).
Definition put_mode m (l : L) : L := mkListener (m_mutex l) (m_send_mutex l) (m_socket l)
  (m_socket_type l) (m_fileno l) (m_has_disconnected l) m.

(** Access to the listener. *)
Definition this : M W L := λ w, (Val (l_listener w), w).

Definition update (f : L → L) : M W unit := λ w,
  (Val tt, mkLWorld (f (l_listener w)) (l_trace w) (l_loop w) (l_user w)).

Definition emit (e : levent sk_child) : M W unit := λ w,
  (Val tt, mkLWorld (l_listener w) (l_trace w ++ [e]) (l_loop w) (l_user w)).

(** A call on [*m_socket]. *)
Definition on_socket {A} (m : M K A) : M W A := λ w,
  match m_socket (l_listener w) with
  | None => (Halt (UB "m_socket is null"), w)
  | Some k =>
      let '(o, k') := m k in
      (o, mkLWorld (put_socket (Some k') (l_listener w)) (l_trace w) (l_loop w) (l_user w))
  end.

Definition query {A} (f : K → A) : M W A := on_socket (λ k, (Val (f k), k)).

(** [EventLoop::get_instance()] *)
Definition get_instance : M W unit := λ w,
  if l_loop w then (Val tt, w)
  else (Exn (runtime_error "Event loop not initialized (yet)!"), w).

(** [std::unique_lock] on one of the mutexes, which are not recursive; leaving
    the scope unlocks, by an exception too. *)
Definition lock_mutex : M W unit :=
  l ← this;
  if m_mutex l then halt (Fatal "deadlock: m_mutex is locked by this thread")
  else update (set_mutex true).

Definition unlock_mutex : M W unit := update (set_mutex false).

Definition lock_send_mutex : M W unit :=
  l ← this;
  if m_send_mutex l then halt (Fatal "deadlock: m_send_mutex is locked by this thread")
  else update (set_send_mutex true).

Definition unlock_send_mutex : M W unit := update (set_send_mutex false).

Definition locked {A} (body : M W A) : M W A :=
  lock_mutex;; finally body unlock_mutex.

Definition send_locked {A} (body : M W A) : M W A :=
  lock_send_mutex;; finally body unlock_send_mutex.

(** The virtual functions of the derived class: the callbacks, and what its
    [close_socket] does before calling the one of this class. *)
Record callbacks := mkCallbacks {
  on_network_message : message_in_t → M W unit;
  on_new_connection : sk_child → M W unit;
  on_disconnect : M W unit;
  before_close : M W unit;
}.

(** * Operations *)

(** The constructor without a socket. *)
Definition new_listener : L :=
  {| m_mutex := false; m_send_mutex := false; m_socket := None; m_socket_type := SocketNone;
     m_fileno := 1; m_has_disconnected := false; m_mode := ReadOnly |}.

Definition set_socket (socket : K) (type : SocketType) : M W unit :=
  locked (
    l ← this;
    if bool_decide (is_Some (m_socket l)) then
      throw (runtime_error "There is already a socket assigned to this listener!")
    else if negb (sk_is_valid socket) then throw (runtime_error "Not a valid socket!")
    else
      update (put_socket (Some socket));;
      fileno ← query sk_get_fileno;
      update (put_type type fileno)).

(** The constructor with a socket, after the default initialisers. *)
Definition construct_with (socket : option K) (type : SocketType) : M W unit :=
  match socket with
  | None => mret tt
  | Some k => set_socket k type;; query sk_wait_connection_established;; mret tt
  end.

Definition release_socket : M W (option K) :=
  locked (
    l ← this;
    let sock := m_socket l in
    update (put_socket None);;
    get_instance;;
    emit (Unregistered (m_fileno l));;
    mret sock).

Definition re_register (first_time : bool) : M W unit :=
  send_locked (
    valid ← query sk_is_valid;
    if negb valid then mret tt else
    get_instance;;
    l ← this;
    emit (ModeChanged (m_fileno l) (m_mode l) first_time)).

Definition set_mode (mode : Mode) : M W unit :=
  l ← this;
  if bool_decide (mode = m_mode l) then mret tt else
  update (put_mode mode);;
  get_instance;;
  emit (ModeChanged (m_fileno l) mode false).

Definition is_valid : M W bool :=
  locked (
    l ← this;
    match m_socket l with None => mret false | Some k => mret (sk_is_valid k) end).

Definition is_connected : M W bool :=
  locked (
    l ← this;
    match m_socket l with None => mret false | Some k => mret (sk_is_connected k) end).

Definition has_messages : M W bool :=
  locked (
    l ← this;
    match m_socket l with None => mret false | Some k => mret (sk_has_messages k) end).

(** [socket()], a reference to the socket *)
Definition socket : M W K :=
  l ← this;
  match m_socket l with None => halt (UB "m_socket is null") | Some k => mret k end.

(** [message_slicer()], a reference into the socket *)
Definition message_slicer {S} (slicer_of : K → S) : M W S :=
  l ← this;
  match m_socket l with None => throw (runtime_error "No socket") | Some k => mret (slicer_of k) end.

Definition get_fileno : M W Z := l ← this; mret (m_fileno l).

(** [if (EventLoop::is_initialized()) unregister_event_listener(this)] *)
Definition unregister : M W unit := λ w,
  if l_loop w then emit (Unregistered (m_fileno (l_listener w))) w else (Val tt, w).

(** Called with [m_mutex] locked; unlocks it only when it closes the socket. *)
Definition close_socket_internal (cb : callbacks) : M W unit :=
  l ← this;
  done ← (match m_socket l with
    | Some k =>
        if sk_is_valid k then
          closed ← on_socket (sk_close false);
          unlock_mutex;;
          mret closed
        else mret true
    | None => mret true
    end);
  l ← this;
  if done && negb (m_has_disconnected l) then
    update (put_disconnected true);;
    when (bool_decide (m_socket_type l = Connection)) (emit GotDisconnect;; on_disconnect cb);;
    unregister
  else mret tt.

Definition close_socket (cb : callbacks) : M W unit :=
  locked (close_socket_internal cb).

(** The call through the virtual function. *)
Definition virtual_close (cb : callbacks) : M W unit := before_close cb;; close_socket cb.

Definition on_error (cb : callbacks) : M W unit := virtual_close cb.

(** ** Sending *)

(** The loop of [send]: [None] to try again. [wait] is what happens while the
    caller sleeps in [wait_send_queue_empty]. *)
Definition try_send (cb : callbacks) (send : M K bool) (wait : M K unit) (blocking : bool)
    : M W (option bool) :=
  catch (more ← on_socket send; mret (Some more)) (λ e,
    match e with
    | socket_error _ => virtual_close cb;; mret (Some false)
    | send_queue_full =>
        if blocking then
          unlock_send_mutex;;
          on_socket wait;;
          lock_send_mutex;;
          mret None
        else virtual_close cb;; mret (Some false)
    | _ => throw e
    end).

Definition send_with (fuel : nat) (cb : callbacks) (send : M K bool) (wait : M K unit)
    (blocking : bool) : M W unit :=
  send_locked (
    has_more ← iter fuel (try_send cb send wait blocking);
    valid ← is_valid;
    if valid : bool then set_mode (if has_more : bool then ReadWrite else ReadOnly)
    else virtual_close cb).

(** The three overloads; the socket takes a 32-bit length. *)
Definition send_shared fuel cb data len wait blocking async : M W unit :=
  send_with fuel cb (sk_send_shared data (u32 len) async) wait blocking.

Definition send_unique fuel cb data len wait blocking async : M W unit :=
  send_with fuel cb (sk_send_unique data (u32 len) async) wait blocking.

Definition send_raw fuel cb data len wait blocking async : M W unit :=
  send_with fuel cb (sk_send_raw data (u32 len) async) wait blocking.

(** ** Events *)

Definition on_write_ready (cb : callbacks) : M W unit :=
  send_locked (
    has_more ← catch (on_socket sk_do_send) (λ e,
      match e with
      | socket_error _ => unlock_send_mutex;; virtual_close cb;; mret false
      | _ => throw e
      end);
    valid ← (if negb has_more then is_valid else mret false);
    if valid : bool then set_mode ReadOnly else mret tt).

(** One iteration of the loop over the messages: [Some tt] to leave it. *)
Definition read_step (cb : callbacks) : M W (option unit) :=
  l ← this;
  match m_socket l with
  | None => mret (Some tt)
  | Some _ =>
      message ← on_socket sk_receive;
      match message with
      | Some msg =>
          unlock_mutex;;
          emit (GotMessage msg);;
          on_network_message cb msg;;
          lock_mutex;;
          mret None
      | None => mret (Some tt)
      end
  end.

Fixpoint new_connections (cb : callbacks) (children : list sk_child) : M W unit :=
  match children with
  | [] => mret tt
  | c :: cs => emit (GotConnection c);; on_new_connection cb c;; new_connections cb cs
  end.

Definition on_read_ready (fuel : nat) (cb : callbacks) : M W unit :=
  locked (
    l ← this;
    match m_socket_type l with
    | Acceptor =>
        result ← on_socket sk_accept;
        unlock_mutex;;
        new_connections cb result
    | Connection =>
        catch (iter fuel (read_step cb)) (λ e,
          match e with socket_error _ => mret tt | _ => throw e end);;
        l ← this;
        match m_socket l with
        | Some k => if negb (sk_is_valid k) then close_socket_internal cb else mret tt
        | None => mret tt
        end
    | SocketNone => throw (runtime_error "Unknown socket type!")
    end).

(** One iteration of [wait_for_connection]. *)
Definition wait_step : M W (option unit) :=
  connected ← is_connected;
  if connected : bool then mret (Some tt) else
  l ← this;
  match m_socket l with
  | None => mret None
  | Some k =>
      if sk_is_listening k then
        throw (runtime_error "Cannot wait for connection. Is listening.")
      else query sk_wait_connection_established;; mret None
  end.

Definition wait_for_connection (fuel : nat) : M W unit := iter fuel wait_step.
End listener.
