(* ===== verification/ListenerProps.v ===== *)
(** What a [NetworkSocketListener] guarantees over any socket that keeps the
    contract below: no lost write interest, one disconnect, messages before the
    disconnect. *)
From S2P Require Import Prelude Machine Slicer Listener.
Local Open Scope Z_scope.

(** * What a listener relies on *)

(** [sk_pending]: data waits to be written. [sk_fits]: what may be passed to a
    [send]. Only [receive] and [accept] may read for ever. *)
Class SocketLaws (K : Type) `{Socket K} := {
  sk_ok : K → Prop;
  sk_pending : K → Prop;
  sk_fits : M K bool → Prop;

  sk_connected_valid k : sk_ok k → sk_is_connected k = true → sk_is_valid k = true;
  sk_send_spec send k : sk_fits send → sk_ok k →
    wp send k (λ o k', sk_ok k' ∧
      match o with
      | Val more => more = false → sk_is_connected k' = true → ¬ sk_pending k'
      | Exn e => (∃ msg, e = socket_error msg) ∨ e = send_queue_full
      | Halt _ => False
      end);
  sk_do_send_spec k : sk_ok k →
    wp sk_do_send k (λ o k', sk_ok k' ∧ (sk_is_connected k' = true → sk_is_connected k = true) ∧
      (sk_pending k' → sk_pending k) ∧
      match o with
      | Val more => more = false → sk_is_connected k' = true → ¬ sk_pending k'
      | Exn e => ∃ msg, e = socket_error msg
      | Halt _ => False
      end);
  sk_receive_spec k : sk_ok k →
    wp sk_receive k (λ o k',
      match o with
      | Halt h => h = OutOfFuel
      | _ => sk_ok k' ∧ (sk_is_connected k' = true → sk_is_connected k = true) ∧
          (sk_pending k' → sk_pending k)
      end);
  sk_accept_spec k : sk_ok k →
    wp sk_accept k (λ o k',
      match o with
      | Halt h => h = OutOfFuel
      | _ => sk_ok k' ∧ (sk_is_connected k' = true → sk_is_connected k = true) ∧
          (sk_pending k' → sk_pending k)
      end);
  sk_close_spec k : sk_ok k →
    wp (sk_close false) k (λ o k', sk_ok k' ∧ sk_is_connected k' = false ∧ ∃ done, o = Val done);
}.

Section rules.
Context {K U : Type} `{Socket K}.
Abbreviation L := (NetworkSocketListener K).
Abbreviation W := (lworld K sk_child U).
Implicit Types w : W.

Definition with_listener (l : L) w : W := mkLWorld l (l_trace w) (l_loop w) (l_user w).

Lemma wp_this w (Q : outcome L → W → Prop) : Q (Val (l_listener w)) w → wp this w Q.
Proof. done. Qed.

Lemma wp_update f w (Q : outcome unit → W → Prop) :
  Q (Val tt) (with_listener (f (l_listener w)) w) → wp (update f) w Q.
Proof. done. Qed.

Lemma wp_emit e w (Q : outcome unit → W → Prop) :
  Q (Val tt) (mkLWorld (l_listener w) (l_trace w ++ [e]) (l_loop w) (l_user w)) → wp (emit e) w Q.
Proof. done. Qed.

Lemma wp_listener_socket {A} (m : M K A) w k (Q : outcome A → W → Prop) :
  m_socket (l_listener w) = Some k →
  wp m k (λ o k', Q o (with_listener (put_socket (Some k') (l_listener w)) w)) →
  wp (on_socket m) w Q.
Proof. unfold wp, on_socket. intros ->. by destruct (m k). Qed.

Lemma wp_locked {A} (body : M W A) w (Q : outcome A → W → Prop) :
  m_mutex (l_listener w) = false →
  wp body (with_listener (set_mutex true (l_listener w)) w) (λ o w',
    match o with
    | Halt h => Q (Halt h) w'
    | _ => Q o (with_listener (set_mutex false (l_listener w')) w')
    end) →
  wp (locked body) w Q.
Proof.
  intros Hm Hbody. unfold locked, lock_mutex, wp, mbind, M_bind, this, finally. cbn [fst snd].
  rewrite Hm. cbn [fst snd]. unfold wp in Hbody. cbn in Hbody.
  change (update (set_mutex true) w) with
    (Val (A:=unit) tt, with_listener (set_mutex true (l_listener w)) w).
  cbn iota. destruct (body _) as [[a|e|h] w']; exact Hbody.
Qed.

Lemma wp_send_locked {A} (body : M W A) w (Q : outcome A → W → Prop) :
  m_send_mutex (l_listener w) = false →
  wp body (with_listener (set_send_mutex true (l_listener w)) w) (λ o w',
    match o with
    | Halt h => Q (Halt h) w'
    | _ => Q o (with_listener (set_send_mutex false (l_listener w')) w')
    end) →
  wp (send_locked body) w Q.
Proof.
  intros Hm Hbody. unfold send_locked, lock_send_mutex, wp, mbind, M_bind, this, finally.
  cbn [fst snd]. rewrite Hm. unfold wp in Hbody. cbn in Hbody.
  change (update (set_send_mutex true) w) with
    (Val (A:=unit) tt, with_listener (set_send_mutex true (l_listener w)) w).
  cbn iota. destruct (body _) as [[a|e|h] w']; exact Hbody.
Qed.
End rules.

(** * The invariant *)

Section invariant.
Context {K U : Type} `{SocketLaws K}.
Abbreviation L := (NetworkSocketListener K).
Abbreviation W := (lworld K sk_child U).
Implicit Types (w : W) (l : L).

Fixpoint disconnects (tr : list (levent sk_child)) : nat :=
  match tr with
  | [] => 0
  | GotDisconnect :: tr' => S (disconnects tr')
  | _ :: tr' => disconnects tr'
  end.

Lemma disconnects_app t1 t2 : disconnects (t1 ++ t2) = (disconnects t1 + disconnects t2)%nat.
Proof. induction t1 as [|[] t1 IH]; simpl; rewrite ?IH; lia. Qed.

(** Data that waits on a connected socket is announced to the event loop. *)
Definition interest l : Prop :=
  ∀ k, m_socket l = Some k → sk_is_connected k = true → sk_pending k → m_mode l = ReadWrite.

(** The listener has its socket (it has not been released). *)
Definition sock_ok l : Prop := ∃ k, m_socket l = Some k ∧ sk_ok k.

Lemma sock_ok_at l k : sock_ok l → m_socket l = Some k → sk_ok k.
Proof. intros (k' & Hk' & Hok) Hk. congruence. Qed.

(** The application is told about the end at most once. *)
Definition once w : Prop :=
  (disconnects (l_trace w) ≤ if m_has_disconnected (l_listener w) then 1 else 0)%nat.

(** The mode the event loop was last asked for; [ReadOnly] at registration. *)
Definition asked_mode (tr : list (levent sk_child)) : Mode :=
  foldl (λ m e, match e with ModeChanged _ m' _ => m' | _ => m end) ReadOnly tr.

Definition announced w : Prop :=
  l_loop w = true → asked_mode (l_trace w) = m_mode (l_listener w).

Definition told w : Prop := once w ∧ announced w.

Lemma asked_mode_snoc tr e :
  asked_mode (tr ++ [e]) = match e with ModeChanged _ m _ => m | _ => asked_mode tr end.
Proof. unfold asked_mode. rewrite foldl_app. by destruct e. Qed.

(** Events other than the disconnect, with the current mode in a request. *)
Lemma told_emit e u w :
  e ≠ GotDisconnect → (∀ f m b, e = ModeChanged f m b → m = m_mode (l_listener w)) →
  told w → told (mkLWorld (l_listener w) (l_trace w ++ [e]) (l_loop w) u).
Proof.
  intros Hd Hm [Hone Han]. split.
  - unfold once in *. cbn. rewrite disconnects_app. destruct e; try done; cbn; lia.
  - intros Hl. cbn. rewrite asked_mode_snoc. specialize (Han Hl). destruct e; try done. by eapply Hm.
Qed.

Definition kept w : Prop := sock_ok (l_listener w) ∧ told w.

Definition inv w : Prop :=
  m_mutex (l_listener w) = false ∧ m_send_mutex (l_listener w) = false ∧
  kept w ∧ interest (l_listener w).

Definition safe_post {A} (o : outcome A) w : Prop :=
  match o with Halt h => h = OutOfFuel | _ => inv w end.

(** Callbacks: handling a message or a new connection may call the listener again,
    as long as the callback itself neither blocks nor aborts; [on_disconnect], which
    can be called with [m_mutex] locked ([on_disconnect_deadlocks]), touches only
    what the derived class has of its own, and so does what an overriding
    [close_socket] adds. *)
Record well_behaved (cb : callbacks (K:=K) (U:=U)) : Prop := {
  wb_message msg w : inv w → wp (on_network_message cb msg) w safe_post;
  wb_connection c w : inv w → wp (on_new_connection cb c) w safe_post;
  wb_disconnect w : ∃ u, on_disconnect cb w =
    (Val tt, mkLWorld (l_listener w) (l_trace w) (l_loop w) u);
  wb_close w : ∃ u, before_close cb w =
    (Val tt, mkLWorld (l_listener w) (l_trace w) (l_loop w) u);
}.

Context (cb : callbacks (K:=K) (U:=U)) (Hcb : well_behaved cb).

(** ** Closing *)

Definition closed l : Prop := ∀ k, m_socket l = Some k → sk_is_connected k = false.

Lemma closed_interest l : closed l → interest l.
Proof. intros Hc k Hk. rewrite (Hc k Hk). done. Qed.

(** The callback and the request at the end of [close_socket_internal]. *)
Lemma disconnect_spec w :
  kept w → closed (l_listener w) → m_has_disconnected (l_listener w) = false →
  wp (update (put_disconnected true);;
      when (bool_decide (m_socket_type (l_listener w) = Connection))
        (emit GotDisconnect;; on_disconnect cb);;
      unregister) w (λ o w', o = Val tt ∧ kept w' ∧ closed (l_listener w') ∧
        m_mutex (l_listener w') = m_mutex (l_listener w) ∧
        m_send_mutex (l_listener w') = m_send_mutex (l_listener w)).
Proof.
  intros [Hok [Hone Han]] Hcl Hno. unfold once in Hone. rewrite Hno in Hone.
  wp_step. apply wp_update. cbn [seq_post]. wp_step.
  apply wp_mono with (P := λ o w', o = Val tt ∧ told w' ∧
    l_listener w' = put_disconnected true (l_listener w)).
  { apply wp_when; intros _; [|split; [done|]; split; [|done]; split; [unfold once; simpl; lia|exact Han]].
    wp_step. apply wp_emit. cbn [seq_post].
    destruct (wb_disconnect cb Hcb (mkLWorld (put_disconnected true (l_listener w))
      (l_trace w ++ [GotDisconnect]) (l_loop w) (l_user w))) as [u Hu].
    unfold wp. cbn [with_listener l_listener l_trace l_loop l_user]. rewrite Hu. cbn [fst snd].
    split; [done|]. split; [|done]. split.
    - unfold once. simpl. rewrite disconnects_app. simpl. lia.
    - intros Hl. cbn. rewrite asked_mode_snoc. by apply Han. }
  intros ? w1 (-> & Ht1 & Hl1). cbn [seq_post]. unfold unregister, wp.
  assert (∀ w2, l_listener w2 = l_listener w1 → told w2 → kept w2 ∧ closed (l_listener w2) ∧
    m_mutex (l_listener w2) = m_mutex (l_listener w) ∧
    m_send_mutex (l_listener w2) = m_send_mutex (l_listener w)) as Hend.
  { intros w2 Hl2 Ht2. unfold kept. rewrite Hl2, Hl1. done. }
  destruct (l_loop w1) eqn:Hl; cbn [fst snd]; (split; [done|]); apply Hend; try done.
  by apply (told_emit (Unregistered _)).
Qed.

Lemma close_internal_spec w :
  kept w →
  wp (close_socket_internal cb) w (λ o w', o = Val tt ∧ kept w' ∧ closed (l_listener w') ∧
    m_send_mutex (l_listener w') = m_send_mutex (l_listener w)).
Proof.
  intros [Hok Hone]. unfold close_socket_internal. wp_step. apply wp_this. cbn [seq_post]. wp_step.
  apply wp_mono with (P := λ o w1, (∃ done, o = Val done) ∧ kept w1 ∧ closed (l_listener w1) ∧
    m_send_mutex (l_listener w1) = m_send_mutex (l_listener w)).
  { destruct (m_socket (l_listener w)) as [k|] eqn:Hk; [|wp_step].
    2:{ split_and!; [by eexists|done| |done]. intros k. by rewrite Hk. }
    pose proof (sock_ok_at _ k Hok Hk) as Hkok. destruct (sk_is_valid k) eqn:Hv.
    - wp_step. eapply wp_listener_socket; [exact Hk|]. eapply wp_mono; [by apply sk_close_spec|].
      intros ? k' (Hok' & Hc' & done & ->). cbn [seq_post]. wp_step. apply wp_update.
      cbn [seq_post]. wp_step. split_and!; [by eexists| | |done].
      + split; [by exists k'|exact Hone].
      + by intros ? [= <-].
    - wp_step. split_and!; [by eexists|done| |done]. intros k' [= <-]%(eq_trans (eq_sym Hk)).
      destruct (sk_is_connected k) eqn:Hc; [|done].
      by rewrite (sk_connected_valid k Hkok Hc) in Hv. }
  intros ? w1 ((done & ->) & Hk1 & Hc1 & Hm1). cbn [seq_post]. wp_step. apply wp_this.
  cbn [seq_post]. destruct (done && _) eqn:E; [|by wp_step].
  apply andb_true_iff in E as [_ E%negb_true_iff].
  eapply wp_mono; [by apply disconnect_spec|]. intros o w2 (-> & ? & ? & _ & ->). by split_and!.
Qed.

Lemma listener_close_spec w :
  m_mutex (l_listener w) = false → kept w →
  wp (close_socket cb) w (λ o w', o = Val tt ∧ kept w' ∧ closed (l_listener w') ∧
    m_mutex (l_listener w') = false ∧
    m_send_mutex (l_listener w') = m_send_mutex (l_listener w)).
Proof.
  intros Hm [Hok Hone]. apply wp_locked; [done|].
  eapply wp_mono; [by apply close_internal_spec|].
  intros ? w' (-> & [Hok' Hone'] & Hc' & Hs'). by split_and!.
Qed.

Lemma virtual_close_spec w :
  m_mutex (l_listener w) = false → kept w →
  wp (virtual_close cb) w (λ o w', o = Val tt ∧ kept w' ∧ closed (l_listener w') ∧
    m_mutex (l_listener w') = false ∧
    m_send_mutex (l_listener w') = m_send_mutex (l_listener w)).
Proof.
  intros Hm Hk. unfold virtual_close. wp_step. unfold wp at 1.
  destruct (wb_close cb Hcb w) as [u ->]. cbn [fst snd seq_post].
  eapply wp_mono; [by apply listener_close_spec|]. done.
Qed.

Lemma close_socket_safe w : inv w → wp (virtual_close cb) w safe_post.
Proof.
  intros (Hm & Hs & Hk & _). eapply wp_mono; [by apply virtual_close_spec|].
  intros ? w' (-> & Hk' & Hc' & Hm' & Hs'). split_and!; try done; [by rewrite Hs'|].
  by apply closed_interest.
Qed.

(** ** Modes *)

Definition same_state w w' : Prop :=
  m_socket (l_listener w') = m_socket (l_listener w) ∧
  m_mutex (l_listener w') = m_mutex (l_listener w) ∧
  m_send_mutex (l_listener w') = m_send_mutex (l_listener w) ∧
  (told w → told w').

Lemma same_state_kept w w' : same_state w w' → kept w → kept w'.
Proof.
  intros (Hs & _ & _ & Ht) [Hok Htold]. split; [|by apply Ht]. unfold sock_ok in *. by rewrite Hs.
Qed.

(** [set_mode] may throw (there is no event loop), but sets the mode first. *)
Lemma set_mode_spec mode w :
  wp (set_mode mode) w (λ o w', same_state w w' ∧ m_mode (l_listener w') = mode ∧
    match o with Halt _ => False | _ => True end).
Proof.
  unfold set_mode. wp_step. apply wp_this. cbn [seq_post].
  case_bool_decide as Hmode; [by wp_step|]. wp_step. apply wp_update. cbn [seq_post].
  wp_step. unfold wp, get_instance. cbn [with_listener l_loop]. destruct (l_loop w) eqn:Hl; cbn [fst snd seq_post].
  - apply wp_emit. split; [|done]. split; [done|]. split; [done|]. split; [done|].
    intros [Hone Han]. split.
    + unfold once in *. cbn. rewrite disconnects_app. cbn. lia.
    + intros _. cbn. by rewrite asked_mode_snoc.
  - split; [|done]. split; [done|]. split; [done|]. split; [done|].
    intros [Hone Han]. split; [exact Hone|]. unfold announced. cbn. congruence.
Qed.

Lemma is_valid_spec w :
  m_mutex (l_listener w) = false →
  wp is_valid w (λ o w', w' = w ∧
    o = Val (match m_socket (l_listener w) with Some k => sk_is_valid k | None => false end)).
Proof.
  intros Hm. apply wp_locked; [done|]. wp_step. apply wp_this. cbn [seq_post].
  assert (with_listener (set_mutex false (set_mutex true (l_listener w))) w = w) as Hw.
  { destruct w as [[] ? ? ?]. cbn in *. by subst. }
  cbn [with_listener l_listener set_mutex m_socket].
  destruct (m_socket (l_listener w)); wp_step; by split.
Qed.

(** The end of [send] and [on_write_ready]. *)
Lemma settle_spec (more : bool) w :
  m_mutex (l_listener w) = false → kept w →
  (more = false → ∀ k, m_socket (l_listener w) = Some k → sk_is_connected k = true → ¬ sk_pending k) →
  wp (valid ← is_valid;
      if valid : bool then set_mode (if more then ReadWrite else ReadOnly) else virtual_close cb) w
    (λ o w', kept w' ∧ interest (l_listener w') ∧ m_mutex (l_listener w') = false ∧
      match o with Halt _ => False | _ => True end).
Proof.
  intros Hm Hk Hmore. wp_step. eapply wp_mono; [by apply is_valid_spec|].
  intros ? w1 [-> ->]. cbn [seq_post].
  destruct (match m_socket _ with Some k => _ | None => _ end).
  - eapply wp_mono; [apply set_mode_spec|]. intros o w2 (Hsame & Hmode & Ho).
    split_and!; [by eapply same_state_kept| | |done].
    + destruct Hsame as (Hs & _). intros k. rewrite Hs, Hmode. intros Hsk Hc Hp.
      destruct more; [done|]. by destruct (Hmore eq_refl k Hsk Hc).
    + destruct Hsame as (_ & -> & _). done.
  - eapply wp_mono; [by apply virtual_close_spec|]. intros ? w2 (-> & Hk2 & Hc2 & Hm2 & _).
    split_and!; [done|by apply closed_interest|done|done].
Qed.

(** ** send *)

(** What other threads do to the socket while a sender sleeps. *)
Definition good_wait (wait : M K unit) : Prop :=
  ∀ k, sk_ok k → wp wait k (λ o k', o = Val tt ∧ sk_ok k').

Lemma on_socket_spec {A} (m : M K A) (P : outcome A → K → Prop) w k :
  m_socket (l_listener w) = Some k → wp m k P →
  wp (on_socket m) w (λ o w', ∃ k', P o k' ∧
    w' = with_listener (put_socket (Some k') (l_listener w)) w).
Proof.
  intros Hk Hm. eapply wp_listener_socket; [exact Hk|]. eapply wp_mono; [exact Hm|].
  intros o k' HP. by exists k'.
Qed.

Lemma put_socket_kept k w :
  kept w → sk_ok k → kept (with_listener (put_socket (Some k) (l_listener w)) w).
Proof. intros [_ Hone] Hk. split; [by exists k|exact Hone]. Qed.

(** The world inside the loop of [send]. *)
Definition sending w : Prop :=
  m_mutex (l_listener w) = false ∧ m_send_mutex (l_listener w) = true ∧ kept w ∧
  ∃ k, m_socket (l_listener w) = Some k.

Definition sent_post (o : outcome bool) w : Prop :=
  match o with
  | Val more => m_mutex (l_listener w) = false ∧ kept w ∧
      (more = false → ∀ k, m_socket (l_listener w) = Some k → sk_is_connected k = true →
        ¬ sk_pending k)
  | Exn _ => False
  | Halt h => h = OutOfFuel
  end.

Lemma close_while_sending w :
  sending w → wp (virtual_close cb;; mret (Some false)) w (λ o w',
    ∃ more, o = Val (Some more) ∧ sent_post (Val more) w').
Proof.
  intros (Hm & _ & Hk & _). wp_step. eapply wp_mono; [by apply virtual_close_spec|].
  intros ? w' (-> & Hk' & Hc' & Hm' & _). cbn [seq_post]. wp_step. exists false.
  split; [done|]. split; [done|]. split; [done|]. intros _ k Hsk Hc. by rewrite (Hc' k Hsk) in Hc.
Qed.

Lemma try_send_spec send wait blocking w :
  sk_fits send → good_wait wait → sending w →
  wp (try_send cb send wait blocking) w (λ o w',
    match o with
    | Val None => sending w'
    | Val (Some more) => sent_post (Val more) w'
    | Exn _ => False
    | Halt h => h = OutOfFuel
    end).
Proof.
  intros Hfits Hwait Hsend. pose proof Hsend as (Hm & Hs & Hk & k & Hsk).
  pose proof (sock_ok_at _ k (proj1 Hk) Hsk) as Hok. unfold try_send. wp_step. wp_step.
  eapply wp_mono; [eapply on_socket_spec; [exact Hsk|by apply sk_send_spec]|].
  intros o w1 (k1 & [Hok1 Ho] & Hw1). pose proof (put_socket_kept k1 w Hk Hok1) as Hk1.
  assert (sending w1) as Hsend1 by (subst w1; by split_and!; [..|exists k1]).
  destruct o as [more|e|h]; cbn [seq_post]; [| |done].
  - wp_step. subst w1. split_and!; [done|done|]. intros Hmore k' [= <-]. by apply Ho.
  - assert (wp (virtual_close cb;; mret (Some false)) w1 (λ o w',
      match o with
      | Val None => sending w'
      | Val (Some more) => sent_post (Val more) w'
      | Exn _ => False
      | Halt h => h = OutOfFuel
      end)) as Hclose.
    { eapply wp_mono; [by apply close_while_sending|]. by intros ? w2 (more & -> & ?). }
    destruct Ho as [[msg ->]| ->]; [exact Hclose|]. destruct blocking; [|exact Hclose].
    wp_step. apply wp_update. cbn [seq_post]. wp_step. subst w1.
    eapply wp_mono; [eapply (on_socket_spec wait _ _ k1); [reflexivity|exact (Hwait k1 Hok1)]|].
    intros ? w2 (k2 & [-> Hok2] & ->). cbn [seq_post]. unfold lock_send_mutex.
    wp_step. wp_step. apply wp_this. cbn [seq_post with_listener l_listener put_socket
      set_send_mutex m_send_mutex]. apply wp_update. cbn [seq_post].
    wp_step. split; [exact Hm|]. split; [done|]. split; [|by exists k2].
    split; [by exists k2|apply Hk].
Qed.

Lemma send_loop_spec fuel send wait blocking w :
  sk_fits send → good_wait wait → sending w →
  wp (iter fuel (try_send cb send wait blocking)) w sent_post.
Proof.
  intros Hfits Hwait Hsend. apply (wp_iter_partial sending); [done| |done].
  intros w1 Hs1. eapply wp_mono; [by apply try_send_spec|]. by intros [[more|]|e|h] w2 Ho.
Qed.

Lemma send_safe fuel send wait blocking w :
  sk_fits send → good_wait wait → inv w →
  wp (send_with fuel cb send wait blocking) w safe_post.
Proof.
  intros Hfits Hwait (Hm & Hs & Hk & Hi). destruct (proj1 Hk) as (k & Hsk & _). apply wp_send_locked; [done|].
  wp_step. eapply wp_mono; [apply send_loop_spec; try done|].
  { split_and!; [done|done|exact Hk|by exists k]. }
  intros [more|e|h] w1 Ho; cbn [seq_post]; [|done|done].
  destruct Ho as (Hm1 & Hk1 & Hmore). eapply wp_mono; [by apply settle_spec|].
  intros o w2 ([Hok2 Hone2] & Hi2 & Hm2 & Ho). destruct o; [..|done]; by split_and!.
Qed.

(** ** Events *)

(** [do_send] under its handler. *)
Lemma do_send_event_spec w k :
  m_mutex (l_listener w) = false → kept w → interest (l_listener w) →
  m_socket (l_listener w) = Some k →
  wp (catch (on_socket sk_do_send) (λ e,
      match e with
      | socket_error _ => unlock_send_mutex;; virtual_close cb;; mret false
      | _ => throw e
      end)) w
    (λ o w1, ∃ more, o = Val more ∧ m_mutex (l_listener w1) = false ∧ kept w1 ∧
      interest (l_listener w1) ∧
      (more = false → ∀ k1, m_socket (l_listener w1) = Some k1 → sk_is_connected k1 = true →
        ¬ sk_pending k1)).
Proof.
  intros Hm Hk Hi Hsk. pose proof (sock_ok_at _ k (proj1 Hk) Hsk) as Hok. wp_step.
  eapply wp_mono; [eapply on_socket_spec; [exact Hsk|by apply sk_do_send_spec]|].
  intros o w1 (k1 & (Hok1 & Hc1 & Hp1 & Ho) & Hw1).
  pose proof (put_socket_kept k1 w Hk Hok1) as Hk1.
  destruct o as [more|e|h]; [| |done].
  - exists more. subst w1. split_and!; [done|done|exact Hk1| |].
    + intros ? [= <-] Hc Hp. cbn. by apply (Hi k); auto.
    + intros Hmore ? [= <-]. by apply Ho.
  - destruct Ho as [msg ->]. wp_step. apply wp_update. cbn [seq_post]. wp_step.
    eapply wp_mono; [apply virtual_close_spec; [by subst w1|subst w1; exact Hk1]|].
    intros ? w2 (-> & Hk2 & Hc2 & Hm2 & _). cbn [seq_post]. wp_step. exists false.
    split_and!; [done|done|done|by apply closed_interest|].
    intros _ k2 Hsk2 Hcon. by rewrite (Hc2 k2 Hsk2) in Hcon.
Qed.

Lemma on_write_ready_safe w :
  inv w → wp (on_write_ready cb) w safe_post.
Proof.
  intros (Hm & Hs & Hk & Hi). destruct (proj1 Hk) as (k & Hsk & Hok). apply wp_send_locked; [done|]. wp_step.
  eapply wp_mono; [by apply (do_send_event_spec _ k)|].
  intros ? w1 (more & -> & Hm1 & Hk1 & Hi1 & Hmore). cbn [seq_post]. wp_step.
  destruct more; cbn [negb].
  { wp_step. cbn [seq_post]. wp_step. by split_and!; [done|done|apply Hk1..|]. }
  eapply wp_mono; [by apply is_valid_spec|]. intros ? w2 [-> ->]. cbn [seq_post].
  destruct (match m_socket _ with Some k => _ | None => _ end);
    [|wp_step; by split_and!; [done|done|apply Hk1..|]].
  eapply wp_mono; [apply set_mode_spec|]. intros o w3 (Hsame & Hmode & Ho).
  pose proof (same_state_kept _ _ Hsame Hk1) as Hk3. destruct Hsame as (Hs3 & Hm3 & _).
  assert (inv (with_listener (set_send_mutex false (l_listener w3)) w3)) as Hinv;
    [|by destruct o].
  split_and!; [by cbn; rewrite Hm3|done|apply Hk3..|].
  intros k3. cbn. rewrite Hs3. intros Hsk3 Hc3 Hp3. by destruct (Hmore eq_refl k3 Hsk3 Hc3).
Qed.

(** Reading keeps everything but the lock. *)
Definition reading w : Prop :=
  kept w ∧ interest (l_listener w) ∧ m_send_mutex (l_listener w) = false.

Lemma read_inv w : reading w → m_mutex (l_listener w) = false → inv w.
Proof. intros ([??]&?&?) ?. by split_and!. Qed.

Lemma inv_reading w : inv w → reading w ∧ m_mutex (l_listener w) = false.
Proof. by intros (? & ? & ? & ?). Qed.

Lemma relock_reading b w :
  reading w → reading (with_listener (set_mutex b (l_listener w)) w).
Proof. intros ([??]&?&?). split; [by split|by split]. Qed.

Lemma emit_reading e u w :
  e ≠ GotDisconnect → (∀ f m b, e = ModeChanged f m b → m = m_mode (l_listener w)) →
  reading w → reading (mkLWorld (l_listener w) (l_trace w ++ [e]) (l_loop w) u).
Proof.
  intros He Hm ([Hok Ht]&?&?). split; [split; [exact Hok|]|by split]. by apply told_emit.
Qed.

Lemma put_socket_reading k k' w :
  m_socket (l_listener w) = Some k → reading w → sk_ok k' →
  (sk_is_connected k' = true → sk_is_connected k = true) → (sk_pending k' → sk_pending k) →
  reading (with_listener (put_socket (Some k') (l_listener w)) w).
Proof.
  intros Hsk (Hk & Hi & Hs) Hok Hc Hp. split_and!; [by apply put_socket_kept..| |done].
  intros ? [= <-] Hcon Hpend. cbn. by apply (Hi k); auto.
Qed.

Lemma read_step_safe w :
  reading w → m_mutex (l_listener w) = true →
  wp (read_step cb) w (λ o w',
    match o with
    | Val None => reading w' ∧ m_mutex (l_listener w') = true
    | Halt h => h = OutOfFuel
    | _ => reading w'
    end).
Proof.
  intros Hr Hm. unfold read_step. wp_step. apply wp_this. cbn [seq_post].
  destruct (m_socket (l_listener w)) as [k|] eqn:Hsk; [|by wp_step].
  pose proof (sock_ok_at _ k (proj1 (proj1 Hr)) Hsk) as Hok. wp_step.
  eapply wp_mono; [eapply on_socket_spec; [exact Hsk|by apply sk_receive_spec]|].
  intros o w1 (k1 & Ho & ->).
  destruct o as [[msg|]|e|h]; cbn [seq_post];
    [|wp_step; destruct Ho as (?&?&?); by eapply put_socket_reading
     |destruct Ho as (?&?&?); by eapply put_socket_reading|done].
  destruct Ho as (Hok1 & Hc1 & Hp1). pose proof (put_socket_reading k k1 w Hsk Hr Hok1 Hc1 Hp1) as Hr1.
  wp_step. apply wp_update. cbn [seq_post]. wp_step. apply wp_emit. cbn [seq_post]. wp_step.
  eapply wp_mono; [apply (wb_message cb Hcb)|].
  { apply read_inv; [|done]. apply (emit_reading (GotMessage msg)); [done|done|].
    by apply (relock_reading false). }
  intros [[]|e|h] w2 Hsafe; cbn [seq_post safe_post] in *; [| |done].
  - apply inv_reading in Hsafe as [Hr2 Hm2]. unfold lock_mutex. wp_step. wp_step.
    apply wp_this. cbn [seq_post]. rewrite Hm2. apply wp_update. cbn [seq_post]. wp_step.
    split; [by apply relock_reading|done].
  - by apply inv_reading in Hsafe as [Hr2 _].
Qed.

(** What handing out messages or connections leaves behind. *)
Definition settled {A} (o : outcome A) w : Prop :=
  match o with Halt h => h = OutOfFuel | _ => reading w end.

Lemma new_connections_safe children w :
  reading w → m_mutex (l_listener w) = false → wp (new_connections cb children) w settled.
Proof.
  revert w. induction children as [|c cs IH]; intros w Hr Hm; simpl; [by wp_step|].
  wp_step. apply wp_emit. cbn [seq_post]. wp_step.
  eapply wp_mono; [apply (wb_connection cb Hcb)|].
  { apply read_inv; [|done]. by apply (emit_reading (GotConnection c)). }
  intros [[]|e|h] w1 Hsafe; cbn [seq_post safe_post] in *; [| |done].
  - apply inv_reading in Hsafe as [? ?]. by apply IH.
  - by apply inv_reading in Hsafe as [? _].
Qed.

Lemma read_loop_safe fuel w :
  reading w → m_mutex (l_listener w) = true →
  wp (catch (iter fuel (read_step cb)) (λ e,
    match e with socket_error _ => mret tt | _ => throw e end)) w settled.
Proof.
  intros Hr Hm. wp_step.
  apply (wp_iter_partial (λ w, reading w ∧ m_mutex (l_listener w) = true)); [done| |done].
  intros w1 [Hr1 Hm1]. eapply wp_mono; [by apply read_step_safe|].
  intros [[[]|]|e|h] w2 Ho; try done. by destruct e.
Qed.

(** The end of [on_read_ready]: a socket that has become invalid is reported. *)
Lemma report_invalid_safe w :
  reading w →
  wp (l ← this;
      match m_socket l with
      | Some k => if negb (sk_is_valid k) then close_socket_internal cb else mret tt
      | None => mret tt
      end) w settled.
Proof.
  intros Hr. wp_step. apply wp_this. cbn [seq_post].
  destruct (m_socket (l_listener w)) as [k|]; [|by wp_step].
  destruct (negb (sk_is_valid k)); [|by wp_step].
  eapply wp_mono; [apply close_internal_spec, Hr|].
  intros ? w1 (-> & Hk1 & Hc1 & Hs1). split; [done|]. split; [by apply closed_interest|].
  rewrite Hs1. apply Hr.
Qed.

Lemma settled_inv {A} (o : outcome A) w :
  settled o w →
  match o with
  | Halt h => safe_post (Halt h : outcome A) w
  | _ => safe_post o (with_listener (set_mutex false (l_listener w)) w)
  end.
Proof.
  destruct o; [..|done]; intros Hr; (apply read_inv; [by apply relock_reading|done]).
Qed.

Lemma on_read_ready_safe fuel w :
  inv w → wp (on_read_ready fuel cb) w safe_post.
Proof.
  intros [Hr Hm]%inv_reading. apply wp_locked; [done|].
  apply (relock_reading true) in Hr. set (w0 := with_listener _ w) in *.
  eapply wp_mono with (P := settled); [|intros o w'; apply settled_inv].
  wp_step. apply wp_this. cbn [seq_post].
  destruct (m_socket_type (l_listener w0)) eqn:Ht; [by wp_step| |].
  - destruct (proj1 (proj1 Hr)) as (k & Hsk & Hok). wp_step.
    eapply wp_mono; [eapply (on_socket_spec sk_accept _ _ k); [exact Hsk|by apply sk_accept_spec]|].
    intros o w1 (k1 & Ho & ->).
    destruct o as [cs|e|h]; cbn [seq_post];
      [|destruct Ho as (?&?&?); by eapply put_socket_reading|done].
    destruct Ho as (Hok1 & Hc1 & Hp1).
    pose proof (put_socket_reading k k1 w0 Hsk Hr Hok1 Hc1 Hp1) as Hr1.
    wp_step. apply wp_update. cbn [seq_post].
    apply new_connections_safe; [by apply (relock_reading false)|done].
  - wp_step. eapply wp_mono; [by apply read_loop_safe|]. intros [[]|e|h] w1 Ho; cbn [seq_post]; try done.
    by apply report_invalid_safe.
Qed.

Lemma re_register_safe first w :
  inv w → wp (re_register first) w safe_post.
Proof.
  intros (Hm & Hs & Hk & Hi). destruct (proj1 Hk) as (k & Hsk & Hok). apply wp_send_locked; [done|]. wp_step.
  eapply wp_mono; [by apply (on_socket_spec _ (λ o k', k' = k ∧ o = Val (sk_is_valid k)) _ k)|].
  intros ? w1 (k1 & [-> ->] & ->). cbn [seq_post].
  pose proof (put_socket_kept k w Hk (sock_ok_at _ k (proj1 Hk) Hsk)) as Hk1.
  assert (interest (put_socket (Some k) (l_listener w))) as Hi1
    by (intros ? [= <-]; by apply Hi).
  destruct (negb _); wp_step; [by repeat split; try apply Hk1|].
  unfold wp at 1, get_instance. cbn [with_listener l_loop].
  destruct (l_loop w); cbn [fst snd seq_post]; [|by repeat split; try apply Hk1].
  wp_step. apply wp_this. cbn [seq_post]. apply wp_emit.
  split; [done|]. split; [done|]. split; [|exact Hi1]. split; [apply Hk1|].
  apply (told_emit (ModeChanged _ _ first)); [done|by intros ??? [=]|exact (proj2 Hk)].
Qed.

(** ** Every sequence of calls *)

(** The calls of the event loop and of the application on a listener that has a
    socket. *)
Inductive lcall :=
| LSend (fuel : nat) (send : M K bool) (wait : M K unit) (blocking : bool)
| LWritable
| LReadable (fuel : nat)
| LError
| LClose
| LReRegister (first_time : bool).

Definition lperform (c : lcall) : M W unit :=
  match c with
  | LSend fuel send wait blocking => send_with fuel cb send wait blocking
  | LWritable => on_write_ready cb
  | LReadable fuel => on_read_ready fuel cb
  | LError => on_error cb
  | LClose => virtual_close cb
  | LReRegister first => re_register first
  end.

(** What a caller of [send] has to respect. *)
Definition lallowed (c : lcall) : Prop :=
  match c with LSend _ send wait _ => sk_fits send ∧ good_wait wait | _ => True end.

(** The states of a listener that was given [k], between two calls. *)
Inductive lreachable (k : K) (type : SocketType) : W → Prop :=
| lreach_start loop u w :
    set_socket k type (mkLWorld new_listener [] loop u) = (Val tt, w) → lreachable k type w
| lreach_step c w o w' :
    lreachable k type w → lallowed c → lperform c w = (o, w') →
    (∀ h, o ≠ Halt h) → lreachable k type w'.

Lemma start_inv k type loop u w :
  sk_ok k → ¬ sk_pending k →
  set_socket k type (mkLWorld new_listener [] loop u) = (Val tt, w) →
  inv w.
Proof.
  intros Hok Hp. unfold set_socket, locked, lock_mutex, finally, query, on_socket, this, update.
  unfold mbind, M_bind, mret, M_ret. cbn.
  destruct (sk_is_valid k); cbn; [|discriminate]. intros [= <-].
  split; [done|]. split; [done|]. split; [split|].
  - by exists k.
  - split; [unfold once; simpl; lia|done].
  - intros ? [= <-] _ Hpend. by destruct Hp.
Qed.

Lemma lperform_safe c w : inv w → lallowed c → wp (lperform c) w safe_post.
Proof.
  destruct c; simpl; intros Hinv Hall.
  - destruct Hall. by apply send_safe.
  - by apply on_write_ready_safe.
  - by apply on_read_ready_safe.
  - by apply close_socket_safe.
  - by apply close_socket_safe.
  - by apply re_register_safe.
Qed.

Lemma lreachable_inv k type w : sk_ok k → ¬ sk_pending k → lreachable k type w → inv w.
Proof.
  intros Hok Hp. induction 1 as [loop u w Hrun|c w o w' _ IH Hall Hrun Hhalt].
  - by eapply start_inv.
  - pose proof (lperform_safe c w IH Hall) as Hsafe. unfold wp in Hsafe. rewrite Hrun in Hsafe.
    destruct o as [a|e|h]; [exact Hsafe..|by destruct (Hhalt h)].
Qed.

End invariant.

(** C24: whatever sequence of sends, events, closes and re-registrations a
    listener goes through, between two calls neither mutex is held, the
    application has been told of the end at most once, data that waits on a
    connected socket has the event loop asked for write readiness, and the next
    call does not deadlock, abort or use a missing socket: it may only wait for
    ever inside a loop over the socket.

    The application is [well_behaved]: its [on_network_message] and
    [on_new_connection] may make any calls of the listener that neither block nor
    abort, but [on_disconnect] and what an overriding [close_socket] adds keep to the
    members of the derived class. Without this it is false: [on_disconnect] can run
    with [m_mutex] locked, and then even [is_valid] deadlocks
    ([on_disconnect_deadlocks]). *)
Theorem listener_invariant {K U : Type} `{SocketLaws K} (cb : callbacks (K:=K) (U:=U)) k type w c :
  well_behaved cb →
  sk_ok k → ¬ sk_pending k → lreachable cb k type w → lallowed c →
  m_mutex (l_listener w) = false ∧ m_send_mutex (l_listener w) = false ∧
  (disconnects (l_trace w) ≤ 1)%nat ∧
  (∀ k', m_socket (l_listener w) = Some k' → sk_is_connected k' = true → sk_pending k' →
    m_mode (l_listener w) = ReadWrite ∧ (l_loop w = true → asked_mode (l_trace w) = ReadWrite)) ∧
  ∀ h, (lperform cb c w).1 = Halt h → h = OutOfFuel.
Proof.
  intros Hcb Hok Hp Hreach Hall. pose proof (lreachable_inv cb Hcb k type w Hok Hp Hreach) as Hinv.
  pose proof Hinv as (Hm & Hs & (_ & Hone & Han) & Hi).
  split; [done|]. split; [done|]. split; [|split].
  - unfold once in Hone. destruct (m_has_disconnected _); lia.
  - intros k' Hk' Hc Hpend. specialize (Hi k' Hk' Hc Hpend) as Hmode. split; [done|].
    intros Hl. by rewrite (Han Hl).
  - intros h Hh. pose proof (lperform_safe cb Hcb c w Hinv Hall) as Hsafe. unfold wp in Hsafe.
    by rewrite Hh in Hsafe.
Qed.

(** * Delivery *)

Section delivery.
Context {K U : Type} `{Socket K}.
Abbreviation W := (lworld K sk_child U).
Implicit Types w : W.

(** The messages [receive] gives before it has no more, or fails. *)
Inductive drains : K → list message_in_t → K → Prop :=
| drain_end k k' : sk_receive k = (Val None, k') → drains k [] k'
| drain_error k k' msg : sk_receive k = (Exn (socket_error msg), k') → drains k [] k'
| drain_message k m k1 ms k' :
    sk_receive k = (Val (Some m), k1) → drains k1 ms k' → drains k (m :: ms) k'.

(** Callbacks that work on the state of the derived class only, and no overriding
    of [close_socket]. *)
Definition passive (f : message_in_t → U → U) (g : U → U) (cb : callbacks) : Prop :=
  (∀ m w, on_network_message cb m w =
    (Val tt, mkLWorld (l_listener w) (l_trace w) (l_loop w) (f m (l_user w)))) ∧
  (∀ w, on_disconnect cb w = (Val tt, mkLWorld (l_listener w) (l_trace w) (l_loop w) (g (l_user w)))) ∧
  before_close cb = mret tt.

(** The world after the messages [ms]. *)
Definition after_messages (f : message_in_t → U → U) k ms w : W :=
  mkLWorld (put_socket (Some k) (l_listener w)) (l_trace w ++ (GotMessage <$> ms)) (l_loop w)
    (foldl (λ u m, f m u) (l_user w) ms).

Lemma set_mutex_same b (l : NetworkSocketListener K) : m_mutex l = b → set_mutex b l = l.
Proof. intros <-. by destruct l. Qed.

Lemma read_step_run f g cb k w :
  passive f g cb → m_mutex (l_listener w) = true → m_socket (l_listener w) = Some k →
  read_step cb w =
    match sk_receive k with
    | (Val (Some m), k1) => (Val None, after_messages f k1 [m] w)
    | (Val None, k1) => (Val (Some tt), after_messages f k1 [] w)
    | (Exn e, k1) => (Exn e, after_messages f k1 [] w)
    | (Halt h, k1) => (Halt h, after_messages f k1 [] w)
    end.
Proof.
  intros [Hmsg _] Hm Hk.
  unfold read_step, on_socket, this, mbind, M_bind, mret, M_ret, after_messages. cbn [fst snd].
  rewrite Hk. cbn [l_listener]. rewrite Hk. simpl. rewrite app_nil_r.
  destruct (sk_receive k) as [[[m|]|e|h] k1]; try done.
  unfold unlock_mutex, update, emit. cbn. rewrite Hmsg. cbn. unfold set_mutex, put_socket. cbn.
  by rewrite Hm.
Qed.

Lemma read_loop_run f g cb k ms k' fuel w :
  passive f g cb → drains k ms k' → (length ms < fuel)%nat →
  m_mutex (l_listener w) = true → m_socket (l_listener w) = Some k →
  catch (iter fuel (read_step cb)) (λ e,
    match e with socket_error _ => mret tt | _ => throw e end) w = (Val tt, after_messages f k' ms w).
Proof.
  intros Hcb Hd. revert fuel w.
  induction Hd as [k k' Hr|k k' e Hr|k m k1 ms k' Hr _ IH]; intros [|fuel] w Hfuel Hm Hk;
    simpl in Hfuel; try lia; unfold catch in *; simpl; unfold mbind at 1, M_bind at 1;
    rewrite (read_step_run f g cb k), Hr by done; [done..|].
  rewrite IH; [|lia|done|done]. unfold after_messages. cbn. by rewrite <- app_assoc.
Qed.

(** What [close_socket_internal] does with an invalid socket. *)
Lemma close_internal_invalid f g cb k w :
  passive f g cb → m_socket (l_listener w) = Some k → sk_is_valid k = false →
  m_socket_type (l_listener w) = Connection → m_has_disconnected (l_listener w) = false →
  close_socket_internal cb w =
    (Val tt, mkLWorld (put_disconnected true (l_listener w))
      (l_trace w ++ GotDisconnect :: if l_loop w then [Unregistered (m_fileno (l_listener w))] else [])
      (l_loop w) (g (l_user w))).
Proof.
  intros (_ & Hdis & _) Hk Hv Ht Hno. apply wp_run. unfold close_socket_internal.
  wp_step. apply wp_this. cbn [seq_post]. wp_step. rewrite Hk, Hv. wp_step. cbn [seq_post].
  wp_step. apply wp_this. cbn [seq_post]. rewrite Hno. cbn [andb negb].
  wp_step. apply wp_update. cbn [seq_post]. wp_step.
  apply wp_when; rewrite Ht; [intros _|done]. wp_step. apply wp_emit. cbn [seq_post].
  unfold wp at 1. rewrite Hdis. cbn [fst snd seq_post]. unfold wp, unregister. cbn.
  destruct (l_loop w); cbn; [|done]. by rewrite <- app_assoc.
Qed.

Lemma close_internal_again cb k w :
  m_socket (l_listener w) = Some k → sk_is_valid k = false →
  m_has_disconnected (l_listener w) = true → close_socket_internal cb w = (Val tt, w).
Proof.
  intros Hk Hv Hh. apply wp_run. unfold close_socket_internal.
  wp_step. apply wp_this. cbn [seq_post]. wp_step. rewrite Hk, Hv. wp_step. cbn [seq_post].
  wp_step. apply wp_this. cbn [seq_post]. rewrite Hh. by wp_step.
Qed.

(** When a connection becomes readable, the message callback gets every message
    the socket holds, in order and without the lock; if the socket turned out to
    be closed, and only after the last message, the disconnect callback runs and
    the listener leaves the event loop. *)
Lemma on_read_ready_run f g cb k ms k' fuel w :
  passive f g cb → drains k ms k' → (length ms < fuel)%nat →
  m_mutex (l_listener w) = false → m_socket (l_listener w) = Some k →
  m_socket_type (l_listener w) = Connection →
  let u := foldl (λ u m, f m u) (l_user w) ms in
  let l := put_socket (Some k') (l_listener w) in
  on_read_ready fuel cb w =
    (Val tt,
     if negb (sk_is_valid k') && negb (m_has_disconnected (l_listener w)) then
       mkLWorld (put_disconnected true l)
         (l_trace w ++ (GotMessage <$> ms) ++
            GotDisconnect :: if l_loop w then [Unregistered (m_fileno l)] else [])
         (l_loop w) (g u)
     else mkLWorld l (l_trace w ++ (GotMessage <$> ms)) (l_loop w) u).
Proof.
  intros Hcb Hd Hfuel Hm Hk Ht u l. apply wp_run, wp_locked; [done|].
  set (w0 := with_listener _ w). wp_step. apply wp_this. cbn [seq_post].
  change (m_socket_type (l_listener w0)) with (m_socket_type (l_listener w)). rewrite Ht.
  wp_step. unfold wp at 1.
  rewrite (read_loop_run f g cb k ms k' fuel w0 Hcb Hd Hfuel eq_refl Hk). cbn [fst snd seq_post].
  wp_step. apply wp_this. cbn [seq_post]. unfold after_messages at 1. cbn [l_listener put_socket m_socket].
  set (w1 := after_messages f k' ms w0).
  assert (with_listener (set_mutex false (l_listener w1)) w1 =
    mkLWorld l (l_trace w ++ (GotMessage <$> ms)) (l_loop w) u) as Hw1.
  { subst w1 l. unfold with_listener, set_mutex, put_socket. cbn. by rewrite Hm. }
  destruct (sk_is_valid k') eqn:Hv; cbn [negb andb]; [by wp_step; rewrite Hw1|].
  destruct (m_has_disconnected (l_listener w)) eqn:Hh; cbn [negb]; unfold wp.
  - rewrite (close_internal_again cb k' w1); [|done..]. cbn [fst snd]. by rewrite Hw1.
  - rewrite (close_internal_invalid f g cb k' w1); [|done..]. cbn [fst snd].
    unfold with_listener, w1, l. cbn. unfold set_mutex, put_socket, put_disconnected. cbn.
    by rewrite Hm, <- app_assoc.
Qed.

(** An [on_disconnect] callback that asks the listener anything that takes
    its mutex ([is_valid], [is_connected], ...) blocks the thread for ever when
    the peer closed the connection: the socket is invalid by then, so
    [close_socket_internal] calls back without having released the lock. *)
Theorem on_disconnect_deadlocks cb k k' rest fuel w :
  on_disconnect cb = (valid ← is_valid; rest valid) →
  sk_receive k = (Val None, k') → sk_is_valid k' = false →
  m_mutex (l_listener w) = false → m_socket (l_listener w) = Some k →
  m_socket_type (l_listener w) = Connection → m_has_disconnected (l_listener w) = false →
  (on_read_ready (S fuel) cb w).1 = Halt (Fatal "deadlock: m_mutex is locked by this thread").
Proof.
  intros Hdis Hr Hv Hm Hk Ht Hno.
  change (wp (on_read_ready (S fuel) cb) w (λ o _,
    o = Halt (Fatal "deadlock: m_mutex is locked by this thread"))).
  apply wp_locked; [done|]. wp_step. apply wp_this. cbn [seq_post with_listener l_listener].
  cbn [set_mutex m_socket_type]. rewrite Ht. wp_step. wp_step. cbn [iter]. wp_step.
  unfold read_step. wp_step. apply wp_this. cbn [seq_post with_listener l_listener].
  cbn [set_mutex m_socket]. rewrite Hk. wp_step. eapply wp_listener_socket; [exact Hk|].
  unfold wp at 1. rewrite Hr. cbn [fst snd seq_post]. wp_step. cbn [seq_post]. wp_step.
  cbn [seq_post]. wp_step. apply wp_this. cbn [seq_post]. cbn [with_listener l_listener put_socket m_socket].
  rewrite Hv. cbn [negb]. unfold close_socket_internal.
  wp_step. apply wp_this. cbn [seq_post]. wp_step. cbn [with_listener l_listener put_socket m_socket].
  rewrite Hv. wp_step. cbn [seq_post]. wp_step. apply wp_this. cbn [seq_post].
  cbn [with_listener l_listener put_socket set_mutex m_has_disconnected m_socket_type andb].
  rewrite Hno. cbn [negb]. wp_step. apply wp_update. cbn [seq_post]. wp_step.
  rewrite Ht. apply wp_when; [intros _|done]. wp_step. apply wp_emit. cbn [seq_post].
  rewrite Hdis. wp_step. unfold is_valid, locked, lock_mutex. wp_step. wp_step.
  apply wp_this. cbn [seq_post]. by wp_step.
Qed.
End delivery.
