(* ===== verification/TcpListener.v ===== *)
(** [TcpSocket] keeps the contract of [network::Socket] that the listeners rely
    on, so that what is proved of [NetworkSocketListener] holds over TCP. *)
From S2P Require Import Prelude Machine Buffer Framing Slicer Listener ListenerProps.
From S2P Require Import Datagram Inet Sys TcpSocket TcpBase Samples TcpSend TcpRecv TcpLife.
Local Open Scope Z_scope.

Section contract.
Context {Σ T : Type} `{SysLaws Σ} {host : Host Σ} `{SlicerLaws T} `{InetLaws}.
Abbreviation W := (world Σ T).
Implicit Types (w : W).

(** What reading and accepting leave alone. *)
Definition only_reads w0 w : Prop :=
  outbox (w_sock w) = outbox (w_sock w0) ∧
  (m_state (w_sock w) = Connected → m_state (w_sock w0) = Connected) ∧
  (0 < m_fd (w_sock w) → 0 < m_fd (w_sock w0)).

Lemma only_reads_trans w1 w2 w3 : only_reads w1 w2 → only_reads w2 w3 → only_reads w1 w3.
Proof. intros (? & ? & ?) (? & ? & ?). split_and!; [congruence|auto..]. Qed.

(** [close] returns, [true] when the descriptor is gone, keeps what waits to be
    sent, and ends the connection. *)
Definition close_returns_post fast w (o : outcome bool) w' : Prop :=
  (∃ b, o = Val b ∧ (b = true → m_fd (w_sock w') ≤ 0) ∧
     (b = false → m_state (w_sock w) = Connected ∧ m_state (w_sock w') = Shutdown)) ∧
  only_reads w w' ∧ (fast = false → m_state (w_sock w') ≠ Connected).

Lemma close_returns fast w :
  life_ok (w_sock w) → wp (close fast) w (close_returns_post fast w).
Proof.
  intros [_ Hd]. unfold close. tcp_step. tcp_step. cbn [seq_post].
  destruct (bool_decide (m_state (w_sock w) = Connected) && negb fast) eqn:Hst.
  - apply andb_true_iff in Hst as [Hst%bool_decide_eq_true _].
    tcp_step. tcp_step. cbn [seq_post]. tcp_step. tcp_step. cbn [seq_post].
    tcp_step. apply wp_os_call. intros [e|] σ Hshut; cbn [seq_post].
    + pose proof (shutdown_fails _ _ _ _ (connected_fd _ Hd Hst) Hshut) as ->. rewrite bool_decide_eq_true_2 by done.
      repeat tcp_step. split; [by exists true|by split].
    + tcp_step. split; [by exists false|by split].
  - assert (fast = false → m_state (w_sock w) ≠ Connected) as Hne.
    { intros -> Hc. by rewrite bool_decide_eq_true_2 in Hst by done. }
    destruct (0 <? m_fd (w_sock w)) eqn:Hfd; bool_to_prop.
    + repeat tcp_step. split; [by exists true|by split].
    + assert (bool_decide (m_state (w_sock w) = Closed) || bool_decide (m_state (w_sock w) = Unknown)
        = true) as -> by (by destruct (Hd Hfd) as [-> | ->]).
      tcp_step. split; [by exists true|by split].
Qed.

Lemma on_slicer_reads {A} (m : M T A) w :
  wp (on_slicer m) w (λ _ w', only_reads w w').
Proof. apply wp_on_slicer. unfold wp. by destruct (m _). Qed.

Lemma receive_data_reads w :
  life_ok (w_sock w) → wp receive_data w (λ _ w', only_reads w w').
Proof.
  intros Hok. unfold receive_data. tcp_step. tcp_step. cbn [seq_post].
  destruct (negb _) eqn:Hfd; [by tcp_step|]. destruct (buf_is_valid _); [by tcp_step|].
  bool_to_prop. unfold is_valid_sock in Hfd. bool_to_prop.
  tcp_step. tcp_step. cbn [seq_post]. tcp_step. apply wp_os_call. intros [[|b c]|e] σ _; cbn [seq_post].
  - tcp_step. apply wp_close_fast; [done|]. cbn [seq_post]. by tcp_step.
  - tcp_step. tcp_step. cbn [seq_post]. tcp_step. unfold wp at 1, write_slice.
    destruct (in_range _ _ _); cbn [fst snd]; [|done]. cbn [seq_post].
    tcp_step. tcp_step. cbn [seq_post]. by tcp_step.
  - destruct e; [by tcp_step|..]; tcp_step; (apply wp_close_fast; [done|]); cbn [seq_post]; by tcp_step.
Qed.

Lemma pull_step_reads w :
  life_ok (w_sock w) → wp pull_step w (λ _ w', only_reads w w').
Proof.
  intros Hok. unfold pull_step. tcp_step. tcp_step. cbn [seq_post]. tcp_step.
  apply wp_mono with (P := λ _ w', only_reads w w').
  { destruct (negb _); [by apply receive_data_reads|by tcp_step]. }
  intros [[|]|e|h] w1 Hr; cbn [seq_post negb]; [|by tcp_step|done..].
  tcp_step. tcp_step. eapply wp_mono; [apply on_slicer_reads|].
  intros o w2 Hr2. pose proof (only_reads_trans _ _ _ Hr Hr2) as Hr12.
  destruct o; cbn [seq_post]; try done; repeat tcp_step; done.
Qed.

Lemma receive_reads fuel w :
  life_ok (w_sock w) → wp (receive fuel) w (λ _ w', only_reads w w').
Proof.
  intros Hok. unfold receive. tcp_step.
  apply (wp_iter_partial (λ w', life_ok (w_sock w') ∧ only_reads w w')); [by intros ? []| |done].
  intros w1 [Hok1 Hr1].
  eapply wp_mono; [apply wp_conj; [by apply pull_step_safe|by apply pull_step_reads]|].
  intros [[a|]|e|h] w2 [Hsafe Hr2]; pose proof (only_reads_trans _ _ _ Hr1 Hr2) as Hr12;
    cbn [seq_post]; [|done..].
  tcp_step. tcp_step. cbn [seq_post]. destruct (slicer_has_messages _); [|by tcp_step].
  tcp_step. eapply wp_mono; [apply on_slicer_reads|]. intros o w3 Hr3.
  pose proof (only_reads_trans _ _ _ Hr12 Hr3) as Hr13.
  destruct o as [[m|]|e|h]; cbn [seq_post]; try done; by tcp_step.
Qed.

Lemma on_socket_reads {A} c (m : M W A) w :
  wp (on_socket c m) w (λ _ w', w_sock w' = w_sock w).
Proof. apply wp_on_socket. unfold wp. by destruct (m _). Qed.

Lemma destroy_all_reads cs w : wp (destroy_all cs) w (λ _ w', w_sock w' = w_sock w).
Proof.
  revert w. induction cs as [|c cs IH]; intros w; simpl; [done|].
  tcp_step. eapply wp_mono; [apply on_socket_reads|].
  intros o w1 Hs. destruct o; cbn [seq_post]; [|done..].
  eapply wp_mono; [apply IH|]. simpl. intros _ w2 ->. done.
Qed.

Lemma same_sock_reads w0 w w' : w_sock w' = w_sock w → only_reads w0 w → only_reads w0 w'.
Proof. unfold only_reads. by intros ->. Qed.

Lemma internal_accept_reads w :
  life_ok (w_sock w) → wp internal_accept w (λ _ w', only_reads w w').
Proof.
  intros Hok. unfold internal_accept. tcp_step. tcp_step. cbn [seq_post]. tcp_step.
  apply wp_os_call. intros [fd|e] σ _; cbn [seq_post]; [by repeat tcp_step|].
  destruct (bool_decide (e = EAGAIN)); cbn [negb]; [by tcp_step|].
  tcp_step. eapply wp_mono; [by apply close_returns|].
  intros ? w1 ((b & -> & _) & Hr & _). cbn [seq_post]. by tcp_step.
Qed.

Lemma accept_step_reads mk acc w :
  life_ok (w_sock w) → wp (accept_step mk acc) w (λ _ w', only_reads w w').
Proof.
  intros Hok. unfold accept_step. tcp_step. eapply wp_mono; [by apply internal_accept_reads|].
  intros [[fd|]|e|h] w1 Hr; cbn [seq_post]; [|by tcp_step|done..].
  tcp_step. tcp_step. cbn [seq_post]. tcp_step. eapply wp_mono; [apply on_socket_reads|].
  intros o w2 Hs. apply (same_sock_reads w) in Hs; [|done].
  destruct o; cbn [seq_post]; [by tcp_step|done..].
Qed.

Lemma accept_loop_reads fuel mk acc w0 w :
  slicer_wf mk → accept_inv acc w → only_reads w0 w →
  wp (accept_loop fuel mk acc) w (λ _ w', only_reads w0 w').
Proof.
  intros Hmk. revert acc w. induction fuel as [|n IH]; intros acc w Hinv Hr; simpl.
  { by tcp_step. }
  tcp_step. tcp_step.
  eapply wp_mono; [apply wp_conj; [by apply accept_step_safe|by apply accept_step_reads, Hinv]|].
  intros [[acc' [|]]|e|h] w1 [[Hok1 Hval] Hr1];
    pose proof (only_reads_trans _ _ _ Hr Hr1) as Hr01; cbn [seq_post]; [by apply IH|by tcp_step| |done].
  tcp_step. eapply wp_mono; [apply destroy_all_reads|].
  intros o w2 Hs2. apply (same_sock_reads w0) in Hs2; [|done]. by destruct o.
Qed.

Lemma accept_reads fuel mk w :
  slicer_wf mk → life_ok (w_sock w) → wp (accept fuel mk) w (λ _ w', only_reads w w').
Proof.
  intros Hmk Hok. unfold accept, is_listening. tcp_step. tcp_step. tcp_step. cbn [seq_post].
  destruct (bool_decide _) eqn:Hst; cbn [negb seq_post]; tcp_step; cbn [seq_post negb]; [|by tcp_step].
  apply accept_loop_reads; [done| |done]. by apply bool_decide_eq_true in Hst.
Qed.

(** ** Sending *)

(** What a listener is told by [send] and [do_send] called in [w0]; a closed
    connection is not opened again. *)
Definition told_post w0 (o : outcome bool) w : Prop :=
  life_ok (w_sock w) ∧
  ((m_state (w_sock w) = Connected → m_state (w_sock w0) = Connected) ∧
   (0 < m_fd (w_sock w) → 0 < m_fd (w_sock w0))) ∧
  match o with
  | Val more => more = false → m_state (w_sock w) = Connected → outbox (w_sock w) = []
  | Exn e => (∃ msg, e = socket_error msg) ∨ e = send_queue_full ∧ w = w0
  | Halt _ => False
  end.

Lemma sent_told fd w o w' : life_ok (w_sock w) → sent_post fd w o w' → told_post w o w'.
Proof.
  intros Hok Hsent. pose proof (sent_life _ _ _ _ Hok Hsent) as Hsafe.
  destruct Hsent as [(_ & (Hconn & _) & _) Ho].
  assert (((m_state (w_sock w') = Connected → m_state (w_sock w) = Connected) ∧
    (0 < m_fd (w_sock w') → 0 < m_fd (w_sock w)))) as Hmono
    by (destruct Hconn as [[-> ->]|[-> ->]]; split; [done|done|done|lia]).
  destruct o as [[|]|e|h]; [by split| | |done].
  - split; [done|]. split; [done|]. intros _ Hc. destruct Ho as [[_ Hcl]|(_ & Hcur & Hq)]; [congruence|].
    unfold outbox. by rewrite Hcur, Hq.
  - split; [done|]. split; [done|]. destruct Ho as (msg & -> & _). left. by exists msg.
Qed.

Lemma do_send_told fuel w :
  life_ok (w_sock w) → (load w < fuel)%nat →
  wp (do_send fuel) w (λ o w', told_post w o w' ∧ sent_post (m_fd (w_sock w)) w o w').
Proof.
  intros Hok Hfuel. eapply wp_mono.
  - apply (do_send_spec (m_fd (w_sock w))); [|by left|done]. by destruct Hok as [(_ & ? & _) _].
  - intros o w' Hsent. split; [by eapply sent_told|done].
Qed.

Lemma check_send_told len w :
  wp (check_send len) w (λ o w', w' = w ∧
    match o with
    | Val _ => len ≠ 0 ∧ m_send_queue_size (w_sock w) < m_max_send_queue_size (w_sock w)
    | Exn e => (∃ msg, e = socket_error msg) ∨ e = send_queue_full ∧ w' = w
    | Halt _ => False
    end).
Proof.
  unfold check_send. destruct (len =? 0) eqn:Hlen; [tcp_step; split; [done|by left; eexists]|].
  tcp_step. tcp_step. cbn [seq_post].
  destruct (negb _); [tcp_step; split; [done|by left; eexists]|]. tcp_step. tcp_step.
  cbn [seq_post]. destruct (_ <=? _) eqn:Hfull; [tcp_step; split; [done|by right]|].
  bool_to_prop. tcp_step. split; [done|lia].
Qed.

Lemma enqueue_conn m w :
  wp (enqueue m) w (λ _ w', m_state (w_sock w') = m_state (w_sock w) ∧ m_fd (w_sock w') = m_fd (w_sock w)).
Proof. unfold enqueue. by repeat tcp_step. Qed.

Lemma queue_and_send_told fuel async m w :
  life_ok (w_sock w) → m_send_queue_size (w_sock w) < m_max_send_queue_size (w_sock w) →
  message_wf m → 0 < mo_length m → mo_sent_pos m = 0 →
  (load w + 1 + Z.to_nat (mo_length m) < fuel)%nat →
  wp (enqueue m;; if async : bool then mret true else do_send fuel) w (told_post w).
Proof.
  intros Hok Hfull Hm Hpos Hsent Hfuel. tcp_step.
  eapply wp_mono; [apply wp_conj; [by apply enqueued_life|apply enqueue_conn]|].
  intros ? w1 [(-> & Hok1 & Hload) [Hst Hfd]]. cbn [seq_post].
  destruct async; [tcp_step; unfold told_post; by rewrite Hst, Hfd|].
  eapply wp_mono; [apply do_send_told; [done|lia]|].
  intros o w2 [(? & Hmono & Ho) [_ Hs]]. split; [done|]. rewrite Hst, Hfd in Hmono. split; [done|].
  destruct o as [|e|]; [done| |done]. destruct Hs as (msg & -> & _). left. by exists msg.
Qed.

Lemma send_unique_told fuel data len async w :
  life_ok (w_sock w) → 0 ≤ len → len + 4 < two32 → len ≤ Z.of_nat (length data) →
  send_fuel_ok fuel len w →
  wp (send_unique fuel data len async) w (told_post w).
Proof.
  intros Hok Hpos H32 Hlen Hfuel. unfold send_unique. tcp_step.
  eapply wp_mono; [apply check_send_told|]. intros [[]|e|h] w1 [-> Hc]; cbn [seq_post]; [|done..].
  destruct Hc as (Hne & Hfull). tcp_step. tcp_step.
  destruct (prepare_message_spec data len (m_slicer (w_sock w)))
    as (bs & len' & Hrun & Hlen' & Hbs); [lia|done|done|].
  unfold wp at 1. rewrite Hrun. cbn [fst snd seq_post].
  assert (mkWorld (w_os w) (w_errno w) (w_trace w) (set_slicer (m_slicer (w_sock w)) (w_sock w)) = w)
    as -> by (by destruct w as [? ? ? []]).
  unfold send_fuel_ok in Hfuel.
  apply queue_and_send_told; simpl; try done; unfold message_wf; simpl; lia.
Qed.

Lemma send_shared_told fuel data len async w :
  life_ok (w_sock w) → 0 ≤ len < two32 → len ≤ Z.of_nat (length data) →
  send_fuel_ok fuel len w →
  wp (send_shared fuel data len async) w (told_post w).
Proof.
  intros Hok Hpos Hlen Hfuel. unfold send_shared. tcp_step.
  eapply wp_mono; [apply check_send_told|]. intros [[]|e|h] w1 [-> Hc]; cbn [seq_post]; [|done..].
  destruct Hc as (Hne & Hfull). unfold send_fuel_ok in Hfuel.
  apply queue_and_send_told; simpl; try done; unfold message_wf; simpl; lia.
Qed.

(** ** The instance *)

(** The calls of a listener on a TCP socket. The loops of a send get the fuel
    they need; [fuel] bounds reading, [mk] is the slicer of an accepted socket. *)
Definition tcp_socket (fuel : nat) (mk : T) : Socket W := {|
  sk_child := TcpSocket T;
  sk_is_valid := λ w, is_valid_sock (w_sock w);
  sk_is_connected := λ w, bool_decide (m_state (w_sock w) = Connected);
  sk_is_listening := λ w, bool_decide (m_state (w_sock w) = Listening);
  sk_has_messages := λ w, slicer_has_messages (m_slicer (w_sock w));
  sk_get_fileno := λ w, m_fd (w_sock w);
  sk_wait_connection_established := λ w, bool_decide (m_state (w_sock w) = Connected);
  sk_accept := accept fuel mk;
  sk_receive := receive fuel;
  sk_send_shared := λ data len async w, send_shared (S (load w + Z.to_nat len + 5)) data len async w;
  sk_send_unique := λ data len async w, send_unique (S (load w + Z.to_nat len + 5)) data len async w;
  sk_send_raw := λ data len async w, send (S (load w + Z.to_nat len + 5)) data len async w;
  sk_do_send := λ w, do_send (S (load w)) w;
  sk_close := close;
|}.

(** The sends whose arguments are as the caller promises: a length within the
    array and the size field. *)
Inductive tcp_fits : M W bool → Prop :=
| fits_shared data len async : 0 ≤ len < two32 → len ≤ Z.of_nat (length data) →
    tcp_fits (λ w, send_shared (S (load w + Z.to_nat len + 5)) data len async w)
| fits_unique data len async : 0 ≤ len → len + 4 < two32 → len ≤ Z.of_nat (length data) →
    tcp_fits (λ w, send_unique (S (load w + Z.to_nat len + 5)) data len async w)
| fits_raw data len async : 0 ≤ len → len + 4 < two32 → len ≤ Z.of_nat (length data) →
    tcp_fits (λ w, send (S (load w + Z.to_nat len + 5)) data len async w).

Lemma tcp_send_told send w : tcp_fits send → life_ok (w_sock w) → wp send w (told_post w).
Proof.
  intros [data len async Hl Hd|data len async Hp Hl Hd|data len async Hp Hl Hd] Hok;
    unfold wp; cbv beta.
  - apply send_shared_told; try done. unfold send_fuel_ok. lia.
  - apply send_unique_told; try done. unfold send_fuel_ok. lia.
  - set (fuel := S _). change (wp (TcpSocket.send fuel data len async) w (told_post w)).
    unfold TcpSocket.send. tcp_step. apply wp_read_slice; [lia|lia|lia|]. cbn [seq_post].
    apply send_unique_told; try done; [|unfold send_fuel_ok; lia].
    rewrite length_slice; lia.
Qed.

Lemma told_law w0 (o : outcome bool) w :
  told_post w0 o w →
  life_ok (w_sock w) ∧
  match o with
  | Val more => more = false → bool_decide (m_state (w_sock w) = Connected) = true →
      ¬ outbox (w_sock w) ≠ []
  | Exn e => (∃ msg, e = socket_error msg) ∨ e = send_queue_full
  | Halt _ => False
  end.
Proof.
  intros (Hok & _ & Ho). split; [done|]. destruct o; [|destruct Ho as [|[-> _]]; auto|done].
  intros Hm Hc%bool_decide_eq_true Hne. by apply Hne, Ho.
Qed.

Definition tcp_socket_laws fuel mk (Hmk : slicer_wf mk) : @SocketLaws W (tcp_socket fuel mk).
Proof.
  refine (Build_SocketLaws W (tcp_socket fuel mk) (λ w, life_ok (w_sock w))
    (λ w, outbox (w_sock w) ≠ []) tcp_fits _ _ _ _ _ _); simpl.
  - intros w [_ Hd] Hc%bool_decide_eq_true. unfold is_valid_sock. apply Z.ltb_lt.
    destruct (Z.le_gt_cases (m_fd (w_sock w)) 0) as [Hle|]; [|lia].
    destruct (Hd Hle); congruence.
  - intros send w Hfits Hok. eapply wp_mono; [by apply tcp_send_told|].
    intros o w'. apply told_law.
  - intros w Hok.
    apply wp_mono with (P := λ o w', told_post w o w' ∧ sent_post (m_fd (w_sock w)) w o w').
    { exact (do_send_told (S (load w)) w Hok (Nat.lt_succ_diag_r _)). }
    intros o w' [Ht [(_ & Hkept & _ & sent & _ & Hout) Ho]].
    apply told_law in Ht as [Hok' Hlaw]. split; [done|]. split; [|split].
    + intros Hc%bool_decide_eq_true. apply bool_decide_eq_true.
      destruct Hkept as ([[_ Hst]|[_ Hst]] & _); congruence.
    + rewrite Hout. intros Hne [_ Hnil]%app_eq_nil. by apply Hne.
    + destruct o; [exact Hlaw| |done]. destruct Ho as (msg & -> & _). by exists msg.
  - intros w Hok. eapply wp_mono; [apply wp_conj; [by apply receive_safe|by apply receive_reads]|].
    intros o w' [Hp (Hout & Hst & _)]. destruct o; rewrite ?bool_decide_eq_true, ?Hout; done.
  - intros w Hok. eapply wp_mono; [apply wp_conj; [by apply accept_safe|by apply accept_reads]|].
    intros o w' [[Hp _] (Hout & Hst & _)]. destruct o; rewrite ?bool_decide_eq_true, ?Hout; done.
  - intros w Hok. eapply wp_mono; [apply wp_conj; [by apply close_safe|by apply close_returns]|].
    intros o w' [[Hsafe _] ((b & -> & _) & _ & Hne)]. split; [done|].
    split; [apply bool_decide_eq_false; by apply Hne|by exists b].
Defined.

Lemma tcp_unique_fits fuel mk Hmk data len async :
  0 ≤ len → len + 4 < two32 → len ≤ Z.of_nat (length data) →
  @sk_fits W _ (tcp_socket_laws fuel mk Hmk) (@sk_send_unique W (tcp_socket fuel mk) data len async).
Proof. apply fits_unique. Qed.
End contract.

(** * Reading to the end of a connection *)

Section reading.
Context {Σ T U : Type} `{SysLaws Σ} {host : Host Σ} `{SlicerLaws T} `{InetLaws}.
Context (fuel : nat) (mk : T).
Abbreviation W := (world Σ T).
Abbreviation LW := (lworld (world Σ T) (TcpSocket T) U).
Implicit Types (w : W) (lw : LW).

#[local] Existing Instance tcp_socket.
#[local] Instance the_socket : Socket W := tcp_socket fuel mk.

(** The end of [receive]. *)
Definition pop : M W (option message_in_t) :=
  s ← sock;
  if slicer_has_messages (m_slicer s) then
    res ← on_slicer slicer_get_message;
    match res with
    | None => throw (socket_error "failed to get message")
    | Some msg => mret (Some msg)
    end
  else mret None.

(** A socket that has been closed, with the messages [ps] to hand out. *)
Definition gone (ps : list (list byte)) w : Prop :=
  slicer_wf (m_slicer (w_sock w)) ∧ m_fd (w_sock w) = -1 ∧
  buf_is_valid (slicer_buffer (m_slicer (w_sock w))) = false ∧ delivered (m_slicer (w_sock w)) = ps.

Lemma pop_gone ps w :
  gone ps w → wp pop w (λ o w', gone (tail ps) w' ∧ o = Val (delivered_message <$> head ps)).
Proof.
  intros (Hwf & Hfd & Hv & Hd). unfold pop. tcp_step. tcp_step. cbn [seq_post].
  pose proof (has_messages_spec _ Hwf) as Hhas. rewrite Hd in Hhas.
  pose proof (get_message_spec _ Hwf) as Hmsg. rewrite Hd in Hmsg.
  destruct (slicer_has_messages (m_slicer (w_sock w))); destruct ps as [|p ps].
  - by destruct (proj1 Hhas eq_refl).
  - tcp_step. tcp_step. eapply wp_mono; [exact Hmsg|].
    intros ? t' (Hwf' & _ & Hb & -> & Hd'). simpl. tcp_step. split; [|done].
    unfold gone. simpl. by rewrite Hb.
  - tcp_step. split; [|done]. by split.
  - by discriminate (proj2 Hhas).
Qed.

Lemma pull_gone ps n w : gone ps w → pull_messages (S n) w = (Val tt, w).
Proof.
  intros (_ & Hfd & Hv & _). apply wp_run. unfold pull_messages. cbn [iter]. tcp_step.
  unfold pull_step. tcp_step. tcp_step. cbn [seq_post]. tcp_step. rewrite Hv. cbn [negb].
  unfold receive_data. tcp_step. tcp_step. cbn [seq_post]. unfold is_valid_sock. rewrite Hfd.
  change (0 <? -1) with false. cbn [negb]. tcp_step. cbn [seq_post negb]. by repeat tcp_step.
Qed.

Lemma receive_gone ps n w :
  gone ps w → ∃ w', gone (tail ps) w' ∧ receive (S n) w = (Val (delivered_message <$> head ps), w').
Proof.
  intros Hg. pose proof (pop_gone ps w Hg) as Hpop. unfold wp in Hpop.
  exists (pop w).2. split; [apply Hpop|]. destruct Hpop as [_ <-].
  change (receive (S n) w) with ((pull_messages (S n);; pop) w). unfold mbind, M_bind.
  rewrite (pull_gone ps n w Hg). by destruct (pop w).
Qed.

Lemma drains_gone ps w :
  (0 < fuel)%nat → gone ps w → ∃ w', drains w (delivered_message <$> ps) w' ∧ gone [] w'.
Proof.
  intros Hfuel. revert w. induction ps as [|p ps IH]; intros w Hg.
  all: destruct (receive_gone _ (pred fuel) w Hg) as (w1 & Hg1 & Hr);
    rewrite Nat.succ_pred_pos in Hr by done.
  - exists w1. split; [by apply drain_end|done].
  - destruct (IH w1 Hg1) as (w' & Hd & Hg'). exists w'. split; [|done].
    by eapply drain_message.
Qed.

(** The messages of a connection whose peer sends the chunks [cs]. *)
Definition peer_messages (cs : list (list byte)) w : list (list byte) :=
  Slicer.delivered (m_slicer (w_sock w)) ++ (steps (view (m_slicer (w_sock w))) cs).2.

(** A connection that is about to be read to its end. *)
Definition at_end (cs : list (list byte)) (last : list byte + errno) w : Prop :=
  slicer_wf (m_slicer (w_sock w)) ∧
  buf_is_valid (slicer_buffer (m_slicer (w_sock w))) = false ∧
  0 < m_fd (w_sock w) ∧ (∃ σ', delivers (m_fd (w_sock w)) cs last (w_os w) σ') ∧
  (chunk_cost cs < fuel)%nat.

(** A listener on the connection [w], between two calls. *)
Definition listens_to w lw : Prop :=
  m_mutex (l_listener lw) = false ∧ m_socket (l_listener lw) = Some w ∧
  m_socket_type (l_listener lw) = Connection ∧ m_has_disconnected (l_listener lw) = false.

(** A listener whose application has been told of the end, on the socket [w]. *)
Definition ended w (ms : list message_in_t) (u : U) lw : LW :=
  mkLWorld (put_disconnected true (put_socket (Some w) (l_listener lw)))
    (l_trace lw ++ (GotMessage <$> ms) ++
       GotDisconnect :: if l_loop lw then [Unregistered (m_fileno (l_listener lw))] else [])
    (l_loop lw) u.

Lemma pull_to_end cs last w :
  at_end cs last w →
  match last with
  | inl _ | inr ECONNRESET =>
      ∃ w1, pull_messages fuel w = (Val tt, w1) ∧ gone (peer_messages cs w) w1
  | inr EAGAIN => True
  | inr _ =>
      ∃ w1 msg, pull_messages fuel w = (Exn (socket_error msg), w1) ∧ gone (peer_messages cs w) w1
  end.
Proof.
  intros (Hwf & Hv & Hpos & (σ' & Hdel) & Hfuel).
  pose proof (pull_messages_spec cs last σ' fuel w Hwf Hv Hpos Hdel Hfuel) as Hpull.
  unfold wp in Hpull. destruct (pull_messages fuel w) as [o w1]. cbn [fst snd] in Hpull.
  destruct Hpull as (Hend & _ & Hwf1 & Hv1 & [= _ Hd1]).
  assert (m_fd (w_sock w1) = -1 → gone (peer_messages cs w) w1) as Hgone by (by intros Hfd1).
  destruct last as [bs|[]]; try done; destruct Hend as (-> & Hfd1 & _);
    eauto.
Qed.

Lemma receive_after_pull o w w1 :
  pull_messages fuel w = (o, w1) →
  receive fuel w = match o with
                   | Val _ => pop w1
                   | Exn e => (Exn e, w1)
                   | Halt h => (Halt h, w1)
                   end.
Proof.
  intros Hrun. change (receive fuel w) with ((pull_messages fuel;; pop) w).
  unfold mbind, M_bind. rewrite Hrun. by destruct o.
Qed.

Lemma drains_to_end cs last w :
  at_end cs last w → last = inr ECONNRESET ∨ (∃ bs, last = inl bs) →
  ∃ w', drains w (delivered_message <$> peer_messages cs w) w' ∧ gone [] w'.
Proof.
  intros Hat Hlast. pose proof (pull_to_end cs last w Hat) as Hpull.
  assert (0 < fuel)%nat as Hfuel by (destruct Hat as (_ & _ & _ & _ & ?); lia).
  assert (∃ w1, pull_messages fuel w = (Val tt, w1) ∧ gone (peer_messages cs w) w1)
    as (w1 & Hrun & Hg1) by (by destruct Hlast as [-> |[bs ->]]).
  pose proof (receive_after_pull _ _ _ Hrun) as Hr. cbn iota in Hr.
  destruct (pop_gone _ w1 Hg1) as [Hg2 Ho].
  destruct (peer_messages cs w) as [|p ps]; destruct (pop w1) as [o w2]; simpl in Ho, Hg2; subst o.
  - exists w2. split; [by apply drain_end|done].
  - destruct (drains_gone ps w2 Hfuel Hg2) as (w' & Hd & Hg'). exists w'. split; [|done].
    by eapply drain_message.
Qed.

(** C23: over TCP, when a connection becomes readable and the peer has sent the
    bytes [cs] and closed (or reset) the connection, the application gets every
    message they frame, in order, then one disconnect, and the listener leaves
    the event loop with the descriptor closed. *)
Theorem messages_before_disconnect f g cb cs last w lw :
  passive f g cb → listens_to w lw → at_end cs last w →
  last = inr ECONNRESET ∨ (∃ bs, last = inl bs) →
  (length (peer_messages cs w) < fuel)%nat →
  let ms := delivered_message <$> peer_messages cs w in
  ∃ w', m_fd (w_sock w') = -1 ∧
    on_read_ready fuel cb lw = (Val tt, ended w' ms (g (foldl (λ u m, f m u) (l_user lw) ms)) lw).
Proof.
  intros Hcb (Hm & Hk & Ht & Hno) Hat Hlast Hfuel ms.
  destruct (drains_to_end cs last w Hat Hlast) as (w' & Hd & (_ & Hfd & _)).
  exists w'. split; [done|].
  rewrite (on_read_ready_run f g cb w ms w' fuel lw Hcb Hd); [|by unfold ms; rewrite length_fmap|done..].
  cbn. unfold is_valid_sock. by rewrite Hfd, Hno.
Qed.

(** Any other error of [recv] on the same bytes loses the messages: they have
    been framed and stay queued in the slicer, but the application is told of the
    disconnect without having seen one of them, although the comment in
    [on_read_ready] puts the notification after the last message. *)
Theorem messages_lost_on_recv_error f g cb cs e w lw :
  passive f g cb → listens_to w lw → at_end cs (inr e) w → e ≠ EAGAIN → e ≠ ECONNRESET →
  ∃ w', m_fd (w_sock w') = -1 ∧ Slicer.delivered (m_slicer (w_sock w')) = peer_messages cs w ∧
    on_read_ready fuel cb lw = (Val tt, ended w' [] (g (l_user lw)) lw).
Proof.
  intros Hcb (Hm & Hk & Ht & Hno) Hat He1 He2.
  pose proof (pull_to_end cs (inr e) w Hat) as Hpull.
  assert (0 < fuel)%nat as Hfuel by (destruct Hat as (_ & _ & _ & _ & ?); lia).
  assert (∃ w1 msg, pull_messages fuel w = (Exn (socket_error msg), w1) ∧
    gone (peer_messages cs w) w1) as (w' & msg & Hrun & (_ & Hfd & _ & Hd)) by (by destruct e).
  exists w'. split; [done|]. split; [done|].
  rewrite (on_read_ready_run f g cb w [] w' fuel lw Hcb); 
    [|exact (drain_error _ _ msg (receive_after_pull _ _ _ Hrun))|done..].
  cbn. unfold is_valid_sock. by rewrite Hfd, Hno.
Qed.
End reading.

(** * Witnesses *)

#[local] Existing Instances no_hosts no_hosts_laws.

Abbreviation TCP := (world script DatagramMessageSlicer).

#[local] Instance tcp_sample : Socket TCP := tcp_socket 50 junk_slicer.
#[local] Instance tcp_sample_laws : SocketLaws TCP := tcp_socket_laws 50 junk_slicer junk_slicer_wf.

(** An application that records the messages and counts the disconnects. *)
Definition recorder : callbacks (K:=TCP) (U:=list message_in_t * nat) := {|
  on_network_message m := λ w, (Val tt, mkLWorld (l_listener w) (l_trace w) (l_loop w)
    ((l_user w).1 ++ [m], (l_user w).2));
  on_new_connection _ := mret tt;
  on_disconnect := λ w, (Val tt, mkLWorld (l_listener w) (l_trace w) (l_loop w)
    ((l_user w).1, S (l_user w).2));
  before_close := mret tt;
|}.

Lemma recorder_passive : passive (λ m u, (u.1 ++ [m], u.2)) (λ u, (u.1, S u.2)) recorder.
Proof. by split. Qed.

Lemma recorder_well_behaved : well_behaved recorder.
Proof.
  split.
  - intros m w Hinv. exact Hinv.
  - intros c w Hinv. exact Hinv.
  - intros w. by eexists.
  - intros [l tr loop u]. by exists u.
Qed.

(** A listener on the TCP socket [k]. *)
Definition listening (k : TCP) : lworld TCP (TcpSocket DatagramMessageSlicer) (list message_in_t * nat) :=
  (set_socket k Connection (mkLWorld new_listener [] true ([], 0%nat))).2.

Definition idle : TCP := sample_world (scripted [] [inl 2; inr EAGAIN] []) 7 Connected.

Definition no_wait : M TCP unit := mret tt.

Definition send_hi : lcall := LSend 5 (sk_send_unique hi 2 false) no_wait false.

(** After a [send] of which the descriptor took two bytes. *)
Definition half_sent := (lperform recorder send_hi (listening idle)).2.

Lemma idle_ok : sk_ok idle.
Proof.
  apply (accepted_socket_ok junk_slicer 7 DEFAULT_MAX_SEND_QUEUE_SIZE);
    [apply junk_slicer_wf|lia| |by split_and!].
  unfold DEFAULT_MAX_SEND_QUEUE_SIZE, two64, two32. lia.
Qed.

Lemma idle_not_pending : ¬ sk_pending idle.
Proof. intros Hne. by apply Hne. Qed.

Lemma half_sent_run : lperform recorder send_hi (listening idle) = (Val tt, half_sent).
Proof. unfold half_sent. vm_compute. reflexivity. Qed.

Lemma send_hi_allowed : lallowed send_hi.
Proof.
  split; [|by intros k Hok].
  refine (tcp_unique_fits 50 junk_slicer junk_slicer_wf hi 2 false _ _ _); [done..].
Qed.

Lemma half_sent_reachable : lreachable recorder idle Connection half_sent.
Proof.
  apply (lreach_step recorder idle Connection send_hi (listening idle) (Val tt) half_sent);
    [|apply send_hi_allowed|apply half_sent_run|done].
  apply (lreach_start recorder idle Connection true ([], 0%nat)). vm_compute. reflexivity.
Qed.

Lemma half_sent_waits : ∃ k, m_socket (l_listener half_sent) = Some k ∧
  sk_is_connected k = true ∧ bool_decide (outbox (w_sock k) = []) = false.
Proof. eexists. split; [unfold half_sent; vm_compute; reflexivity|by vm_compute]. Qed.

Lemma listener_invariant_witness :
  asked_mode (l_trace half_sent) = ReadWrite ∧ m_mode (l_listener half_sent) = ReadWrite.
Proof.
  destruct half_sent_waits as (k & Hk & Hc & Hne%bool_decide_eq_false).
  destruct (listener_invariant recorder idle Connection half_sent LWritable recorder_well_behaved
    idle_ok idle_not_pending half_sent_reachable I) as (_ & _ & _ & Hmode & _).
  destruct (Hmode k Hk Hc Hne) as [Hm Ha]. split; [|exact Hm]. apply Ha. by vm_compute.
Defined.

(** The peer sends two messages and closes, or fails. *)
Definition reader (last : list byte + errno) : TCP :=
  sample_world (scripted ((inl <$> two_messages) ++ [last]) [] []) 9 Connected.

Lemma reader_at_end last :
  (∀ b bs, last ≠ inl (b :: bs)) → at_end 50 two_messages last (reader last).
Proof.
  intros Hlast. destruct last as [[|b bs]|e]; [|by destruct (Hlast b bs)|].
  all: split; [apply new_slicer_wf|split; [done|split; [done|]]].
  all: split; [|apply Nat.ltb_lt; vm_compute; reflexivity].
  all: eexists; do 3 (eapply delivers_chunk; [reflexivity|done|]).
  all: eapply delivers_end; [reflexivity|done].
Qed.

Lemma listening_listens k : is_valid_sock (w_sock k) = true → listens_to k (listening k).
Proof.
  intros Hv. unfold listening, set_socket, locked, lock_mutex, finally, query, Listener.on_socket, this, update.
  unfold mbind, M_bind, mret, M_ret. cbn. rewrite Hv. cbn. by split_and!.
Qed.

Lemma reader_listens last : listens_to (reader last) (listening (reader last)).
Proof. by apply listening_listens. Qed.

Lemma reader_messages last : peer_messages two_messages (reader last) = [hi; [x21]].
Proof. unfold peer_messages, reader. by vm_compute. Qed.

Lemma messages_before_disconnect_witness :
  (on_read_ready 50 recorder (listening (reader (inl [])))).1 = Val tt ∧
  l_user (on_read_ready 50 recorder (listening (reader (inl [])))).2 =
    ([delivered_message hi; delivered_message [x21]], 1%nat).
Proof.
  destruct (messages_before_disconnect 50 junk_slicer _ _ recorder two_messages (inl []) (reader (inl []))
    (listening (reader (inl []))) recorder_passive (reader_listens _)
    (reader_at_end (inl []) ltac:(done)) (or_intror (ex_intro _ [] eq_refl)))
    as (w' & _ & Hrun); [rewrite reader_messages; simpl; lia|].
  rewrite reader_messages in Hrun. split; [exact (f_equal fst Hrun)|].
  etransitivity; [exact (f_equal (λ r, l_user r.2) Hrun)|]. by vm_compute.
Defined.

Lemma messages_lost_on_recv_error_witness :
  l_user (on_read_ready 50 recorder (listening (reader (inr EPIPE)))).2 = ([], 1%nat).
Proof.
  destruct (messages_lost_on_recv_error 50 junk_slicer _ _ recorder two_messages EPIPE (reader (inr EPIPE))
    (listening (reader (inr EPIPE))) recorder_passive (reader_listens _)
    (reader_at_end (inr EPIPE) ltac:(done)) ltac:(done) ltac:(done))
    as (w' & _ & _ & Hrun).
  etransitivity; [exact (f_equal (λ r, l_user r.2) Hrun)|]. by vm_compute.
Defined.

(** An application whose disconnect callback asks whether the socket is valid. *)
Definition asks_valid : callbacks (K:=TCP) (U:=unit) := {|
  on_network_message _ := mret tt;
  on_new_connection _ := mret tt;
  on_disconnect := valid ← Listener.is_valid; mret tt;
  before_close := mret tt;
|}.

Definition closed_peer : TCP := sample_world (scripted [inl []] [] []) 9 Connected.

Lemma closed_peer_receive : ∃ k, sk_receive closed_peer = (Val None, k) ∧ sk_is_valid k = false.
Proof. eexists. split; [vm_compute; reflexivity|by vm_compute]. Qed.

Lemma on_disconnect_deadlocks_witness :
  (on_read_ready 50 asks_valid
    (set_socket closed_peer Connection (mkLWorld new_listener [] true tt)).2).1 =
  Halt (Fatal "deadlock: m_mutex is locked by this thread").
Proof.
  destruct closed_peer_receive as (k & Hr & Hv).
  apply (on_disconnect_deadlocks asks_valid closed_peer k (λ _, mret tt) 49);
    [done|exact Hr|exact Hv|by vm_compute..].
Defined.
