(* ===== verification/EventLoop.v ===== *)
(** [EventLoop] of include/yael/EventLoop.h and src/EventLoop.cpp: the registry
    of listeners, the events of epoll, and shutting down. *)
From stdpp Require Import gmap.
From S2P Require Import Prelude Machine Listener.
Local Open Scope Z_scope.

(** * The system *)

Definition EPOLLIN : Z := 1.
Definition EPOLLOUT : Z := 4.
Definition EPOLLERR : Z := 8.
Definition EPOLLRDHUP : Z := 8192.
Definition EPOLLONESHOT : Z := 1073741824.
Definition EPOLLET : Z := 2147483648.

Inductive epoll_op := EPOLL_CTL_ADD | EPOLL_CTL_MOD | EPOLL_CTL_DEL.

(** [epoll_wait] for at most one event: how many there are (negative after an
    error), with the descriptor and the flags of the first. [eventfd_write] and
    [eventfd_read] give the size transferred (and the value read).
    [interrupted]: [errno] is [EINTR] or [EBADF]. *)
Class EpollSys (Σ : Type) := {
  epoll_create1 : Σ → Z * Σ;
  eventfd : Σ → Z * Σ;
  epoll_ctl : Z → epoll_op → Z → Z → Σ → Z * Σ;
  epoll_wait : Z → Z → Σ → (Z * Z * Z) * Σ;
  interrupted : Σ → bool;
  eventfd_write : Z → Σ → Z * Σ;
  eventfd_read : Z → Σ → (Z * Z) * Σ;
  hardware_concurrency : Σ → Z;
  epoll_close : Z → Σ → Σ;
  (** nanoseconds *)
  steady_clock : Σ → Z;
}.

(** * Data *)

Definition MAX_EVENTS : Z := 1.

Definition BASE_EPOLL_FLAGS : Z := Z.lor (Z.lor EPOLLERR EPOLLRDHUP) EPOLLONESHOT.

Inductive EventType := EvNone | EvRead | EvWrite | EvReadWrite | EvError.

(** [P] are the pointers to listeners; a thread is true while it can be joined. *)
Record EventLoop (P : Type) := mkEventLoop {
  m_okay : bool;
  m_threads : list bool;
  m_event_listeners_mutex : bool;
  m_event_listeners : gmap Z P;
  m_epoll_fd : Z;
  m_event_semaphore : Z;
  m_num_threads : Z;
}.
Arguments mkEventLoop {P}.
Arguments m_okay {P}.
Arguments m_threads {P}.
Arguments m_event_listeners_mutex {P}.
Arguments m_event_listeners {P}.
Arguments m_epoll_fd {P}.
Arguments m_event_semaphore {P}.
Arguments m_num_threads {P}.

(** The system, [m_instance], and the listeners' own state [X]. *)
Record eworld (Σ P X : Type) := mkEWorld {
  e_os : Σ;
  m_instance : option (EventLoop P);
  e_listeners : X;
}.
Arguments mkEWorld {Σ P X}.
Arguments e_os {Σ P X}.
Arguments m_instance {Σ P X}.
Arguments e_listeners {Σ P X}.

(** The descriptor that identifies a listener. *)
Class HasFileno (P X : Type) := get_fileno : P → X → Z.

Section event_loop.
Context {Σ P X : Type} `{EpollSys Σ} `{HasFileno P X}.
Abbreviation W := (eworld Σ P X).
Implicit Types w : W.

(** The virtual functions of [EventListener]. *)
Record EventListener := mkEventListener {
  on_read_ready : P → M W unit;
  on_write_ready : P → M W unit;
  on_error : P → M W unit;
  re_register : P → bool → M W unit;
  close_socket : P → M W unit;
}.

(** [begin] is [m_event_listeners.begin()], in the order of the hash map. *)
Context (el : EventListener) (begin : gmap Z P → option P).

Definition set_okay b (l : EventLoop P) : EventLoop P := mkEventLoop b (m_threads l)
  (m_event_listeners_mutex l) (m_event_listeners l) (m_epoll_fd l) (m_event_semaphore l) (m_num_threads l).
Definition set_threads n (l : EventLoop P) : EventLoop P := mkEventLoop (m_okay l) n
  (m_event_listeners_mutex l) (m_event_listeners l) (m_epoll_fd l) (m_event_semaphore l) (m_num_threads l).
Definition set_locked b (l : EventLoop P) : EventLoop P := mkEventLoop (m_okay l) (m_threads l)
  b (m_event_listeners l) (m_epoll_fd l) (m_event_semaphore l) (m_num_threads l).
Definition set_listeners m (l : EventLoop P) : EventLoop P := mkEventLoop (m_okay l) (m_threads l)
  (m_event_listeners_mutex l) m (m_epoll_fd l) (m_event_semaphore l) (m_num_threads l).

(** [*this]: a call on a loop that does not exist is undefined behaviour. *)
Definition loop : M W (EventLoop P) := λ w,
  match m_instance w with
  | Some l => (Val l, w)
  | None => (Halt (UB "no event loop"), w)
  end.

(** Writing to a field. *)
Definition update_loop (f : EventLoop P → EventLoop P) : M W unit := λ w,
  (Val tt, mkEWorld (e_os w) (f <$> m_instance w) (e_listeners w)).

Definition ecall {A} (f : Σ → A * Σ) : M W A := λ w,
  let '(a, σ) := f (e_os w) in (Val a, mkEWorld σ (m_instance w) (e_listeners w)).

Definition fileno_of (p : P) : M W Z := λ w, (Val (get_fileno p (e_listeners w)), w).

(** [m_event_listeners_mutex], which is not recursive. The shared lock of a
    look-up excludes what the exclusive one excludes in a single thread. *)
Definition lock : M W unit :=
  l ← loop;
  if m_event_listeners_mutex l then halt (Fatal "deadlock: m_event_listeners_mutex is locked by this thread")
  else update_loop (set_locked true).

Definition unlock : M W unit := update_loop (set_locked false).

(** An exception that leaves a [noexcept] function or a thread ends the process. *)
Definition noexcept {A} (m : M W A) : M W A := catch m (λ _, fatal "terminate").

(** * Operations *)

Definition get_flags (mode : Mode) : Z :=
  match mode with
  | ReadOnly => Z.lor EPOLLIN BASE_EPOLL_FLAGS
  | ReadWrite => Z.lor (Z.lor EPOLLIN EPOLLOUT) BASE_EPOLL_FLAGS
  end.

Definition increment_semaphore (fd : Z) : M W unit :=
  res ← ecall (eventfd_write fd);
  if negb (res =? 8) then fatal "eventfd write failed" else mret tt.

Definition decrement_semaphore (fd : Z) : M W unit :=
  '(res, val) ← ecall (eventfd_read fd);
  if negb (res =? 8) || (val =? 0) then fatal "Invalid state" else mret tt.

Definition register_socket (fileno flags : Z) (modify : bool) : M W unit :=
  l ← loop;
  ecall (epoll_ctl (m_epoll_fd l) (if modify then EPOLL_CTL_MOD else EPOLL_CTL_ADD) fileno flags);;
  mret tt.

(** [emplace] or, while another listener has the descriptor, sleep on the
    condition variable: [sleep] is what other threads do meanwhile. *)
Definition emplace_step (sleep : M W unit) (idx : Z) (listener : P) : M W (option unit) :=
  l ← loop;
  match m_event_listeners l !! idx with
  | None => update_loop (set_listeners (<[idx := listener]> (m_event_listeners l)));; mret (Some tt)
  | Some _ => unlock;; sleep;; lock;; mret None
  end.

Definition register_event_listener (fuel : nat) (sleep : M W unit) (listener : P) : M W unit :=
  noexcept (
    lock;;
    idx ← fileno_of listener;
    iter fuel (emplace_step sleep idx listener);;
    unlock;;
    re_register el listener true).

Definition notify_listener_mode_change (listener : P) (mode : Mode) (first_time : bool) : M W unit :=
  noexcept (
    let flags := get_flags mode in
    lock;;
    l ← loop;
    fd ← fileno_of listener;
    unlock;;
    match m_event_listeners l !! fd with
    | None => mret tt
    | Some _ => register_socket fd flags (negb first_time)
    end).

Definition unregister_event_listener (listener : P) : M W unit :=
  noexcept (
    lock;;
    fileno ← fileno_of listener;
    l ← loop;
    match m_event_listeners l !! fileno with
    | None => mret tt
    | Some _ =>
        ecall (epoll_ctl (m_epoll_fd l) EPOLL_CTL_DEL fileno 0);;
        update_loop (set_listeners (delete fileno (m_event_listeners l)))
    end;;
    unlock).

(** ** Stopping *)

Definition stop_step : M W (option unit) :=
  l ← loop;
  match begin (m_event_listeners l) with
  | None => mret (Some tt)
  | Some listener => unlock;; close_socket el listener;; lock;; mret None
  end.

(** The second loop of the code, which waits for the map to become empty, finds
    it empty. *)
Definition stop (fuel : nat) : M W unit :=
  noexcept (
    l ← loop;
    if negb (m_okay l) then mret tt else
    lock;;
    update_loop (set_okay false);;
    iter fuel stop_step;;
    increment_semaphore (m_event_semaphore l);;
    unlock).

(** ** Events *)

(** The type of an event by its flags. *)
Definition event_type (flags : Z) : M W EventType :=
  let has_read := negb (Z.land flags EPOLLIN =? 0) in
  let has_write := negb (Z.land flags EPOLLOUT =? 0) in
  let has_error := negb (Z.land flags EPOLLERR =? 0) in
  if has_read && has_write then mret EvReadWrite
  else if has_read then mret EvRead
  else if has_write then mret EvWrite
  else if has_error then mret EvError
  else fatal "Invalid event flag".

(** [while (m_okay && nfds < 0)]. [sleep] is what other threads do while this one
    waits for an event. *)
Fixpoint wait_event (fuel : nat) (sleep : M W unit) (event : Z * Z * Z) : M W (Z * Z * Z) :=
  l ← loop;
  if m_okay l && (event.1.1 <? 0) then
    match fuel with
    | O => halt OutOfFuel
    | S n =>
        sleep;;
        event ← ecall (epoll_wait (m_epoll_fd l) MAX_EVENTS);
        wait_event n sleep event
    end
  else mret event.

Fixpoint update (fuel : nat) (sleep : M W unit) : M W (option P * EventType) :=
  '(nfds, fd, flags) ← wait_event fuel sleep (-1, 0, 0);
  l ← loop;
  if negb (m_okay l) && (nfds <=? 0) then
    increment_semaphore (m_event_semaphore l);;
    mret (None, EvNone)
  else if nfds <? 0 then
    stopping ← ecall (λ σ, (interrupted σ, σ));
    (if stopping : bool then stop fuel else mret tt);;
    mret (None, EvNone)
  else if 1 <? nfds then fatal "Invalid state: got more than one event"
  else if fd =? m_event_semaphore l then
    decrement_semaphore (m_event_semaphore l);;
    l ← loop;
    if m_okay l then
      match fuel with
      | O => halt OutOfFuel
      | S n => update n sleep
      end
    else
      increment_semaphore (m_event_semaphore l);;
      mret (None, EvNone)
  else
    type ← event_type flags;
    lock;;
    l ← loop;
    unlock;;
    mret (m_event_listeners l !! fd, type).

(** One iteration of the loop of a worker; [Some tt] to leave it. *)
Definition thread_step (fuel : nat) (sleep : M W unit) : M W (option unit) :=
  l ← loop;
  if negb (m_okay l) then mret (Some tt) else
  '(listener, type) ← update fuel sleep;
  match listener with
  | None => mret (Some tt)
  | Some listener =>
      match type with
      | EvReadWrite => on_read_ready el listener;; on_write_ready el listener
      | EvRead => on_read_ready el listener
      | EvWrite => on_write_ready el listener
      | EvError => on_error el listener
      | EvNone => fatal "Invalid event type!"
      end;;
      re_register el listener false;;
      mret None
  end.

Definition thread_loop (fuel : nat) (sleep : M W unit) : M W unit :=
  noexcept (iter fuel (thread_step fuel sleep)).

(** ** The singleton *)

Definition is_initialized : M W bool := λ w, (Val (bool_decide (is_Some (m_instance w))), w).

Definition is_okay : M W bool := l ← loop; mret (m_okay l).

(** The constructor (the instance is published before its last statement). *)
Definition construct (num_threads : Z) : M W unit :=
  epoll_fd ← ecall epoll_create1;
  semaphore ← ecall eventfd;
  if epoll_fd <? 0 then fatal "epoll_create1() failed" else
  (λ w, (Val tt, mkEWorld (e_os w)
    (Some (mkEventLoop true [] false ∅ epoll_fd semaphore num_threads)) (e_listeners w)));;
  register_socket semaphore (Z.lor EPOLLIN EPOLLET) false.

(** [run] starts the workers. *)
Definition run : M W unit :=
  l ← loop;
  hw ← ecall (λ σ, (hardware_concurrency σ, σ));
  let num_threads := if m_num_threads l <=? 0 then i32 (2 * i32 hw) else m_num_threads l in
  if num_threads <=? 0 then fatal "Could not detect number of hardware threads supported!"
  else update_loop (set_threads (replicate (Z.to_nat num_threads) true)).

Definition initialize (num_threads : Z) : M W unit :=
  noexcept (
    initialized ← is_initialized;
    if initialized : bool then mret tt else
    construct num_threads;;
    run).

Definition get_instance : M W unit :=
  initialized ← is_initialized;
  if negb initialized then throw (runtime_error "Event loop not initialized (yet)!") else mret tt.

(** [allocate_event_listener] is the constructor of the derived class. *)
Definition make_event_listener (allocate : M W P) (fuel : nat) (sleep : M W unit) : M W P :=
  l ← allocate;
  register_event_listener fuel sleep l;;
  mret l.

(** [join] of thread [i]; [ended] is what happens until the thread has ended. *)
Definition join_thread (ended : M W unit) (i : nat) : M W unit :=
  l ← loop;
  match m_threads l !! i with
  | Some true => ended;; update_loop (λ l, set_threads (<[i := false]> (m_threads l)) l)
  | _ => throw (library_error "Invalid argument")
  end.

Fixpoint join_from (ended : M W unit) (n i : nat) : M W unit :=
  match n with
  | O => mret tt
  | S n' => join_thread ended i;; join_from ended n' (S i)
  end.

Definition wait (ended : M W unit) : M W unit :=
  noexcept (l ← loop; join_from ended (length (m_threads l)) 0).

(** The destructor, of its members the threads. *)
Definition destructor : M W unit :=
  l ← loop;
  ecall (λ σ, (tt, epoll_close (m_epoll_fd l) σ));;
  if existsb id (m_threads l) then fatal "terminate" else mret tt.

Definition forget_instance : M W unit := λ w,
  (Val tt, mkEWorld (e_os w) None (e_listeners w)).

Definition destroy : M W unit :=
  noexcept (
    initialized ← is_initialized;
    if negb initialized then fatal "Cannot destroy event loop: instance does not exist" else
    l ← loop;
    if m_okay l then fatal "Cannot stop event loop: has to be stopped first!" else
    destructor;;
    forget_instance).

Definition get_time : M W Z :=
  ns ← ecall (λ σ, (steady_clock σ, σ));
  mret (u64 (Z.quot ns 1000000)).
End event_loop.
