(* ===== verification/EventLoopProps.v ===== *)
(** What the event loop does with an event, and with an [epoll_wait] that fails. *)
From stdpp Require Import gmap.
From S2P Require Import Prelude Machine Listener EventLoop.
Local Open Scope Z_scope.

Section rules.
Context {Σ P X : Type} `{EpollSys Σ}.
Abbreviation W := (eworld Σ P X).
Implicit Types (w : W) (l : EventLoop P).

Definition with_loop l w : W := mkEWorld (e_os w) (Some l) (e_listeners w).

Definition with_os σ w : W := mkEWorld σ (m_instance w) (e_listeners w).

Lemma wp_loop w l (Q : outcome (EventLoop P) → W → Prop) :
  m_instance w = Some l → Q (Val l) w → wp loop w Q.
Proof. unfold wp, loop. by intros ->. Qed.

Lemma wp_update_loop f w l (Q : outcome unit → W → Prop) :
  m_instance w = Some l → Q (Val tt) (with_loop (f l) w) → wp (update_loop f) w Q.
Proof. unfold wp, update_loop. by intros ->. Qed.

Lemma wp_ecall {A} (f : Σ → A * Σ) w (Q : outcome A → W → Prop) :
  (∀ a σ, f (e_os w) = (a, σ) → Q (Val a) (with_os σ w)) → wp (ecall f) w Q.
Proof. unfold wp, ecall. intros HQ. destruct (f (e_os w)) as [a σ] eqn:E. by apply HQ. Qed.

Lemma wp_lock w l (Q : outcome unit → W → Prop) :
  m_instance w = Some l → m_event_listeners_mutex l = false →
  Q (Val tt) (with_loop (set_locked true l) w) → wp lock w Q.
Proof.
  intros Hl Hm HQ. unfold lock. wp_step. eapply wp_loop; [exact Hl|]. cbn [seq_post].
  rewrite Hm. by eapply wp_update_loop.
Qed.

Lemma wp_unlock w l (Q : outcome unit → W → Prop) :
  m_instance w = Some l →
  Q (Val tt) (with_loop (set_locked false l) w) → wp unlock w Q.
Proof. apply wp_update_loop. Qed.

Lemma wp_noexcept {A} (m : M W A) w Q :
  wp m w (λ o w', match o with Exn _ => Q (Halt (Fatal "terminate")) w' | _ => Q o w' end) →
  wp (noexcept m) w Q.
Proof. intros Hm. apply wp_catch. eapply wp_mono; [exact Hm|]. by intros [a|e|h] w'. Qed.

(** Without the lock, taking it and releasing it changes nothing. *)
Lemma unlock_lock l : m_event_listeners_mutex l = false → set_locked false (set_locked true l) = l.
Proof. intros Hl. destruct l. cbn in *. by subst. Qed.

Lemma unlock_same l : m_event_listeners_mutex l = false → set_locked false l = l.
Proof. intros Hl. destruct l. cbn in *. by subst. Qed.

Lemma with_loop_same l w : m_instance w = Some l → with_loop l w = w.
Proof. destruct w. cbn. by intros ->. Qed.
End rules.

Section events.
Context {Σ P X : Type} `{EpollSys Σ} `{HasFileno P X}.
Abbreviation W := (eworld Σ P X).
Implicit Types (w : W) (l : EventLoop P).
Context (el : EventListener (Σ:=Σ) (P:=P) (X:=X)) (begin : gmap Z P → option P).

Definition has (flags bit : Z) : bool := negb (Z.land flags bit =? 0).

(** What a worker owes the listener of an event: reading first, writing after
    it, an error only without both, and registration again in the end. *)
Definition dispatch (flags : Z) (listener : P) : M W (option unit) :=
  (if has flags EPOLLIN then on_read_ready el listener else mret tt);;
  (if has flags EPOLLOUT then on_write_ready el listener else mret tt);;
  (if has flags EPOLLIN || has flags EPOLLOUT then mret tt else on_error el listener);;
  re_register el listener false;;
  mret None.

(** The first event that arrives: the waiting thread sees the world the other
    threads leave it in, then [epoll_wait] reports [event]. *)
Definition event_arrives (sleep : M W unit) (event : Z * Z * Z) w w' : Prop :=
  ∃ l w1 l1 σ,
    m_instance w = Some l ∧ m_okay l = true ∧
    sleep w = (Val tt, w1) ∧ m_instance w1 = Some l1 ∧
    epoll_wait (m_epoll_fd l) MAX_EVENTS (e_os w1) = (event, σ) ∧ w' = with_os σ w1.

Lemma wait_event_run n sleep event w w' :
  event_arrives sleep event w w' → 0 ≤ event.1.1 →
  wait_event (S n) sleep (-1, 0, 0) w = (Val event, w').
Proof.
  intros (l & w1 & l1 & σ & Hl & Hokay & Hsleep & Hl1 & Hw & ->) Hev. destruct event as [[nfds fd] flags].
  cbn [wait_event]. unfold mbind, M_bind, mret, M_ret, loop, ecall. rewrite Hl, Hokay. cbn.
  rewrite Hsleep, Hw. cbn in *. unfold with_os.
  assert ((nfds <? 0) = false) as Hlt by (apply Z.ltb_ge; lia).
  destruct n; cbn; unfold mbind, M_bind, mret, M_ret, loop; cbn; rewrite Hl1, Hlt, andb_false_r; done.
Qed.

Ltac run_handler :=
  match goal with
  | |- context [on_read_ready el ?p ?w] => destruct (on_read_ready el p w) as [[[]|?|?] ?]
  | |- context [on_write_ready el ?p ?w] => destruct (on_write_ready el p w) as [[[]|?|?] ?]
  | |- context [on_error el ?p ?w] => destruct (on_error el p w) as [[[]|?|?] ?]
  | |- context [re_register el ?p ?b ?w] => destruct (re_register el p b w) as [[[]|?|?] ?]
  end.

(** A worker hands an event to the listener registered for the descriptor,
    whatever the flags: reading when there is input, then writing when there is
    room, otherwise the error handler, then [re_register]; an event for a
    descriptor nobody has registered ends the worker; an event without any of
    the three flags (a hang-up alone) aborts the process. *)
Theorem thread_step_dispatches n sleep fd flags w w' l :
  event_arrives sleep (1, fd, flags) w w' →
  m_instance w' = Some l → m_okay l = true → m_event_listeners_mutex l = false →
  fd ≠ m_event_semaphore l →
  thread_step el begin (S n) sleep w =
    if has flags EPOLLIN || has flags EPOLLOUT || has flags EPOLLERR then
      match m_event_listeners l !! fd with
      | Some listener => dispatch flags listener w'
      | None => (Val (Some tt), w')
      end
    else (Halt (Fatal "Invalid event flag"), w').
Proof.
  intros Harr Hl Hokay Hlock Hfd. pose proof Harr as (l0 & _ & _ & _ & Hl0 & Hokay0 & _).
  apply wp_run. unfold thread_step. wp_step. eapply wp_loop; [exact Hl0|]. cbn [seq_post].
  rewrite Hokay0. cbn [negb]. wp_step. cbn [update]. wp_step. unfold wp at 1.
  rewrite (wait_event_run n sleep (1, fd, flags) w w' Harr) by (cbn; lia). cbn [fst snd seq_post].
  wp_step. eapply wp_loop; [exact Hl|]. cbn [seq_post]. rewrite Hokay. cbn [negb andb].
  change (1 <? 0) with false. change (1 <? 1) with false. cbn iota.
  rewrite (proj2 (Z.eqb_neq _ _) Hfd). wp_step. unfold event_type.
  fold (has flags EPOLLIN) (has flags EPOLLOUT) (has flags EPOLLERR).
  assert (∀ (Q : outcome (option P * EventType) → W → Prop) ty,
    Q (Val (m_event_listeners l !! fd, ty)) w' →
    wp (lock;; l ← loop; unlock;; mret (m_event_listeners l !! fd, ty)) w' Q) as Hlook.
  { intros Q ty HQ. wp_step. eapply wp_lock; [exact Hl|done|]. cbn [seq_post]. wp_step.
    eapply wp_loop; [done|]. cbn [seq_post]. wp_step. eapply wp_unlock; [done|]. cbn [seq_post].
    wp_step. rewrite unlock_lock by done. unfold with_loop. cbn.
    change (Q (Val (m_event_listeners l !! fd, ty)) (with_loop l w')). by rewrite with_loop_same. }
  unfold dispatch.
  destruct (has flags EPOLLIN), (has flags EPOLLOUT), (has flags EPOLLERR); cbn [andb orb];
    wp_step; cbn [seq_post]; try done; apply Hlook; cbn [seq_post];
    destruct (m_event_listeners l !! fd) as [p|]; try (by wp_step);
    unfold wp, mbind, M_bind, mret, M_ret; by repeat run_handler.
Qed.

Lemma wait_event_spins fuel l w event :
  m_instance w = Some l → m_okay l = true → event.1.1 < 0 →
  (∀ σ, (epoll_wait (m_epoll_fd l) MAX_EVENTS σ).1.1.1 < 0) →
  (wait_event fuel (mret tt) event w).1 = Halt OutOfFuel.
Proof.
  intros Hl Hokay Hev Hfail. apply Z.ltb_lt in Hev. revert w event Hl Hev.
  induction fuel as [|n IH]; intros w event Hl Hev; cbn [wait_event];
    unfold mbind, M_bind, mret, M_ret, loop, ecall; rewrite Hl, Hokay, Hev; [done|]. cbn.
  specialize (Hfail (e_os w)). destruct (epoll_wait _ _ _) as [event' σ]. by apply IH, Z.ltb_lt.
Qed.

(** A worker whose [epoll_wait] keeps failing (the epoll descriptor has been
    closed) never leaves [update]: the loop around the call retries as long as
    the event loop is running, so that the code behind it, which stops the event
    loop on [EBADF] and [EINTR], is not reached. *)
Theorem update_spins_on_error fuel l w :
  m_instance w = Some l → m_okay l = true →
  (∀ σ, (epoll_wait (m_epoll_fd l) MAX_EVENTS σ).1.1.1 < 0) →
  (update el begin fuel (mret tt) w).1 = Halt OutOfFuel.
Proof.
  intros Hl Hokay Hfail. assert (∀ n, (update el begin n (mret tt) w).1 = Halt OutOfFuel) as H'; [|done].
  intros n. pose proof (wait_event_spins n l w (-1, 0, 0) Hl Hokay ltac:(done) Hfail) as Hw.
  destruct n; cbn [update]; unfold mbind, M_bind; destruct (wait_event _ _ _ w) as [o w'];
    cbn in Hw; by subst o.
Qed.

(** ** The registry *)

Lemma unregister_run listener w l :
  m_instance w = Some l → m_event_listeners_mutex l = false →
  wp (unregister_event_listener listener) w (λ o w', o = Val tt ∧
    e_listeners w' = e_listeners w ∧
    m_instance w' = Some (set_listeners
      (delete (get_fileno listener (e_listeners w)) (m_event_listeners l)) l)).
Proof.
  intros Hl Hlock. apply wp_noexcept. wp_step. eapply wp_lock; [exact Hl|done|]. cbn [seq_post].
  wp_step. unfold wp at 1, fileno_of. cbn [fst snd seq_post]. wp_step. eapply wp_loop; [done|].
  cbn [seq_post]. wp_step. cbn [set_locked m_event_listeners with_loop e_listeners].
  set (fd := get_fileno _ _).
  apply wp_mono with (P := λ o w', o = Val tt ∧ e_listeners w' = e_listeners w ∧
    m_instance w' = Some (set_locked true (set_listeners (delete fd (m_event_listeners l)) l))).
  { destruct (m_event_listeners l !! fd) eqn:E.
    - wp_step. apply wp_ecall. intros r σ _. cbn [seq_post]. by eapply wp_update_loop.
    - wp_step. split; [done|]. split; [done|]. cbn. by rewrite delete_id by done. }
  intros ? w1 (-> & He & Hl1). cbn [seq_post]. eapply wp_unlock; [exact Hl1|].
  split; [done|]. split; [done|]. cbn. by rewrite unlock_lock.
Qed.
End events.

(** * The life of the singleton *)

Section singleton.
Context {Σ P X : Type} `{EpollSys Σ}.
Abbreviation W := (eworld Σ P X).
Implicit Types (w : W) (l : EventLoop P).

(** [destroy] aborts the process when there is no instance, when it has not been
    stopped, and when one of its threads has not been joined; otherwise it closes
    epoll and removes the instance. The descriptor of the semaphore stays open. *)
Lemma destroy_outcomes w :
  destroy w =
    match m_instance w with
    | None => (Halt (Fatal "Cannot destroy event loop: instance does not exist"), w)
    | Some l =>
        let closed := with_os (epoll_close (m_epoll_fd l) (e_os w)) w in
        if m_okay l then (Halt (Fatal "Cannot stop event loop: has to be stopped first!"), w)
        else if existsb id (m_threads l) then (Halt (Fatal "terminate"), closed)
        else (Val tt, mkEWorld (e_os closed) None (e_listeners w))
    end.
Proof.
  destruct w as [σ [l|] x]; [|done]. unfold destroy, noexcept, catch, destructor. simpl.
  unfold mbind, M_bind. simpl. destruct (m_okay l); [done|]. simpl.
  by destruct (existsb id (m_threads l)).
Qed.

(** Joining the threads from [i] on, while nothing else happens to the threads. *)
Lemma join_from_all ended n i w l :
  (∀ w l, m_instance w = Some l → wp ended w (λ o w', o = Val tt ∧ ∃ l',
     m_instance w' = Some l' ∧ m_threads l' = m_threads l)) →
  m_instance w = Some l → (∀ j, i ≤ j → j < i + n → m_threads l !! j = Some true)%nat →
  wp (join_from ended n i) w (λ o w', o = Val tt ∧ ∃ l', m_instance w' = Some l' ∧
    length (m_threads l') = length (m_threads l) ∧
    ∀ j, m_threads l' !! j =
      if decide (i ≤ j < i + n)%nat then Some false else m_threads l !! j).
Proof.
  intros Hended. revert i w l. induction n as [|n IH]; intros i w l Hl Hall; simpl.
  { split; [done|]. exists l. split; [done|]. split; [done|]. intros j.
    rewrite decide_False by lia. done. }
  apply wp_bind. unfold join_thread. wp_step. eapply wp_loop; [done|]. cbn [seq_post].
  rewrite (Hall i) by lia. apply wp_bind. eapply wp_mono; [by apply Hended|].
  intros o w1 (-> & l1 & Hl1 & Ht1). cbn [seq_post]. eapply wp_update_loop; [exact Hl1|].
  cbn [seq_post]. eapply wp_mono; [eapply (IH (S i)); [done|]|].
  - intros j ? ?. simpl. rewrite Ht1, list_lookup_insert_ne by lia. apply Hall; lia.
  - simpl. rewrite Ht1. intros o w' (-> & l' & Hl' & Hlen & Hj). split; [done|]. exists l'.
    split; [done|]. split; [by rewrite Hlen, length_insert|]. intros j. rewrite Hj.
    destruct (decide (j = i)) as [->|].
    + rewrite decide_False, decide_True by lia. apply list_lookup_insert_eq.
      by eapply lookup_lt_Some, Hall; lia.
    + rewrite list_lookup_insert_ne by done. repeat case_decide; (done || lia).
Qed.

Lemma no_joinable (ts : list bool) : (∀ j, (j < length ts)%nat → ts !! j = Some false) → existsb id ts = false.
Proof.
  induction ts as [|t ts IH]; intros Hts; [done|]. simpl. pose proof (Hts 0%nat ltac:(simpl; lia)) as H0'.
  simpl in H0'. injection H0' as ->. apply IH. intros j Hj. apply (Hts (S j)). simpl. lia.
Qed.

(** [wait] joins every thread of a loop that nobody has waited for, after which
    [destroy] does not abort because of them; a second [wait] does. *)
Lemma wait_joins_once ended w l n :
  (∀ w l, m_instance w = Some l → wp ended w (λ o w', o = Val tt ∧ ∃ l',
     m_instance w' = Some l' ∧ m_threads l' = m_threads l)) →
  m_instance w = Some l → m_threads l = replicate n true →
  wp (wait ended) w (λ o w', o = Val tt ∧ ∃ l', m_instance w' = Some l' ∧
    existsb id (m_threads l') = false ∧ length (m_threads l') = n ∧
    (0 < n → (wait ended w').1 = Halt (Fatal "terminate"))%nat).
Proof.
  intros Hended Hl Ht. unfold wait at 1. apply wp_noexcept. wp_step. eapply wp_loop; [done|].
  cbn [seq_post]. eapply wp_mono; [eapply join_from_all; [exact Hended|done|]|].
  - intros j _ Hj. rewrite Ht in *. rewrite length_replicate in Hj. apply lookup_replicate_2. lia.
  - intros o w' (-> & l' & Hl' & Hlen & Hj). split; [done|]. exists l'.
    assert (∀ j, (j < length (m_threads l'))%nat → m_threads l' !! j = Some false) as Hj'.
    { intros j Hlt. rewrite Hj, decide_True by lia. done. }
    split; [done|]. split; [by apply no_joinable|].
    split; [by rewrite Hlen, Ht, length_replicate|]. intros Hn.
    assert (wp (wait ended) w' (λ o _, o = Halt (Fatal "terminate"))) as Hw; [|exact Hw].
    unfold wait. apply wp_noexcept. wp_step. eapply wp_loop; [done|]. cbn [seq_post].
    rewrite Hlen, Ht, length_replicate. destruct n as [|n]; [lia|]. simpl.
    apply wp_bind. unfold join_thread. wp_step. eapply wp_loop; [done|]. cbn [seq_post].
    rewrite Hj' by (rewrite Hlen, Ht, length_replicate; lia). by wp_step.
Qed.
End singleton.

(** * Witnesses *)

(** A system that reports the events of a list, and then fails. *)
#[export] Instance scripted_epoll : EpollSys (list (Z * Z * Z)) := {|
  epoll_create1 := λ σ, (3, σ);
  eventfd := λ σ, (4, σ);
  epoll_ctl := λ _ _ _ _ σ, (0, σ);
  epoll_wait := λ _ _ σ, match σ with [] => ((-1, 0, 0), []) | e :: σ' => (e, σ') end;
  interrupted := λ _, true;
  eventfd_write := λ _ σ, (8, σ);
  eventfd_read := λ _ σ, ((8, 1), σ);
  hardware_concurrency := λ _, 2;
  epoll_close := λ _ σ, σ;
  steady_clock := λ _, 0;
|}.

(** A listener that notes which of its functions are called. *)
#[local] Instance noting_fileno : HasFileno Z (list Z) := λ p _, p.

Definition noting : EventListener (Σ:=list (Z * Z * Z)) (P:=Z) (X:=list Z) :=
  let note n := λ w, (Val tt, mkEWorld (e_os w) (m_instance w) (e_listeners w ++ [n])) in {|
  on_read_ready := λ _, note 1;
  on_write_ready := λ _, note 2;
  on_error := λ _, note 3;
  re_register := λ _ _, note 4;
  close_socket := λ _, note 5;
|}.

Definition first_entry (m : gmap Z Z) : option Z := snd <$> head (map_to_list m).

Definition running_loop (m : gmap Z Z) : EventLoop Z := mkEventLoop true [true] false m 3 4 1.

Definition with_events (σ : list (Z * Z * Z)) : eworld (list (Z * Z * Z)) Z (list Z) :=
  mkEWorld σ (Some (running_loop {[9 := 9]})) [].

Lemma thread_step_dispatches_witness :
  e_listeners (thread_step noting first_entry 5 (mret tt) (with_events [(1, 9, 5)])).2 = [1; 2; 4].
Proof.
  rewrite (thread_step_dispatches noting first_entry 4 (mret tt) 9 5 (with_events [(1, 9, 5)])
    (with_events []) (running_loop {[9 := 9]})); [by vm_compute| |done..].
  exists (running_loop {[9 := 9]}), (with_events [(1, 9, 5)]), (running_loop {[9 := 9]}), [].
  by split_and!.
Defined.

(** A closed epoll descriptor. *)
#[local] Instance broken_epoll : EpollSys unit := {|
  epoll_create1 := λ σ, (3, σ);
  eventfd := λ σ, (4, σ);
  epoll_ctl := λ _ _ _ _ σ, (-1, σ);
  epoll_wait := λ _ _ σ, ((-1, 0, 0), σ);
  interrupted := λ _, true;
  eventfd_write := λ _ σ, (8, σ);
  eventfd_read := λ _ σ, ((8, 1), σ);
  hardware_concurrency := λ _, 2;
  epoll_close := λ _ σ, σ;
  steady_clock := λ _, 0;
|}.

Definition idle_listener : EventListener (Σ:=unit) (P:=Z) (X:=unit) :=
  mkEventListener (λ _, mret tt) (λ _, mret tt) (λ _, mret tt) (λ _ _, mret tt) (λ _, mret tt).

Lemma update_spins_on_error_witness :
  (update idle_listener first_entry 1000 (mret tt)
    (mkEWorld tt (Some (running_loop ∅)) tt)).1 = Halt OutOfFuel.
Proof. by apply (update_spins_on_error idle_listener first_entry 1000 (running_loop ∅)). Defined.
