(* ===== verification/Shutdown.v ===== *)
(** [EventLoop::stop] with network listeners on TCP sockets registered: every
    listener is closed and removed. *)
From stdpp Require Import gmap.
From S2P Require Import Prelude Machine EventLoop EventLoopProps Buffer Framing Slicer.
From S2P Require Import Listener ListenerProps Datagram Inet Sys TcpSocket TcpBase Samples.
From S2P Require Import TcpSend TcpRecv TcpLife TcpListener.
Local Open Scope Z_scope.

(** * Network listeners in the event loop *)

(** The listeners behind the pointers. The requests that a call of a listener
    makes are carried out when the call is over: until then the event loop does
    not look at the listener. *)
Section adapter.
Context {Σ K U : Type} `{EpollSys Σ} `{Socket K}.
Abbreviation LW := (lworld K sk_child U).
Abbreviation W := (eworld Σ Z (gmap Z LW)).

#[export] Instance listener_fileno : HasFileno Z (gmap Z LW) := λ p X,
  match X !! p with
  | Some lw => m_fileno (l_listener lw)
  | None => -1
  end.

Fixpoint carry_out (p : Z) (tr : list (levent sk_child)) : M W unit :=
  match tr with
  | [] => mret tt
  | Unregistered _ :: tr' => unregister_event_listener p;; carry_out p tr'
  | ModeChanged _ mode first :: tr' => notify_listener_mode_change p mode first;; carry_out p tr'
  | _ :: tr' => carry_out p tr'
  end.

Definition on_listener (m : M LW unit) (p : Z) : M W unit := λ w,
  match e_listeners w !! p with
  | None => (Halt (UB "dangling listener"), w)
  | Some lw =>
      let '(o, lw') := m (mkLWorld (l_listener lw) [] (bool_decide (is_Some (m_instance w))) (l_user lw)) in
      let kept := mkLWorld (l_listener lw') (l_trace lw ++ l_trace lw') (l_loop lw') (l_user lw') in
      (carry_out p (l_trace lw');; lift o)
        (mkEWorld (e_os w) (m_instance w) (<[p := kept]> (e_listeners w)))
  end.

(** The virtual functions of a [NetworkSocketListener]. *)
Definition network_listener (fuel : nat) (cb : callbacks) : EventListener (Σ:=Σ) (P:=Z) (X:=gmap Z LW) := {|
  EventLoop.on_read_ready := on_listener (Listener.on_read_ready fuel cb);
  EventLoop.on_write_ready := on_listener (Listener.on_write_ready cb);
  EventLoop.on_error := on_listener (Listener.on_error cb);
  EventLoop.re_register := λ p first, on_listener (Listener.re_register first) p;
  EventLoop.close_socket := on_listener (Listener.virtual_close cb);
|}.
End adapter.

(** * Closing one listener *)

Section closing.
Context {Σ0 T U : Type} `{SysLaws Σ0} {host : Host Σ0} `{SlicerLaws T} `{InetLaws}.
Context (fuel : nat) (mk : T).
Abbreviation K := (world Σ0 T).

#[local] Instance tcp : Socket K := tcp_socket fuel mk.
#[local] Arguments sk_child : simpl never.
Abbreviation LW := (lworld K sk_child U).

(** A listener that has not told its application of the end, on the socket [k]. *)
Definition open_on (k : K) (lw : LW) : Prop :=
  m_mutex (l_listener lw) = false ∧ m_socket (l_listener lw) = Some k ∧
  m_has_disconnected (l_listener lw) = false ∧ life_ok (w_sock k).

(** One whose socket is closed and whose application knows. *)
Definition shut (lw : LW) : Prop :=
  m_has_disconnected (l_listener lw) = true ∧
  ∃ k, m_socket (l_listener lw) = Some k ∧ m_fd (w_sock k) ≤ 0.

(** What is left of the listener's part after [close_socket]. *)
Definition close_result (lw : LW) (k : K) (lw' : LW) : Prop :=
  m_fileno (l_listener lw') = m_fileno (l_listener lw) ∧
  ((shut lw' ∧ ∃ tr, l_trace lw' = l_trace lw ++ tr ++
      (if l_loop lw then [Unregistered (m_fileno (l_listener lw))] else []) ∧ (tr = [] ∨ tr = [GotDisconnect])) ∨
   (l_trace lw' = l_trace lw ∧ m_state (w_sock k) = Connected ∧
      ∃ k', open_on k' lw' ∧ m_state (w_sock k') = Shutdown)).

Lemma tell_disconnect f g (cb : callbacks (K:=K) (U:=U)) (lw : LW) :
  passive f g cb →
  wp (update (put_disconnected true);;
      when (bool_decide (m_socket_type (l_listener lw) = Connection))
        (emit GotDisconnect;; on_disconnect cb);;
      unregister) lw (λ o lw', o = Val tt ∧ l_listener lw' = put_disconnected true (l_listener lw) ∧
        ∃ tr, l_trace lw' = l_trace lw ++ tr ++
          (if l_loop lw then [Unregistered (m_fileno (l_listener lw))] else []) ∧
          (tr = [] ∨ tr = [GotDisconnect])).
Proof.
  intros (_ & Hdis & _). wp_step. apply wp_update. cbn [seq_post]. wp_step.
  apply wp_mono with (P := λ o lw1, o = Val tt ∧ l_loop lw1 = l_loop lw ∧
    l_listener lw1 = put_disconnected true (l_listener lw) ∧
    ∃ tr, l_trace lw1 = l_trace lw ++ tr ∧ (tr = [] ∨ tr = [GotDisconnect])).
  { apply wp_when; intros _.
    - wp_step. apply wp_emit. cbn [seq_post]. unfold wp. rewrite Hdis. cbn.
      split_and!; [done..|]. exists [GotDisconnect]. auto.
    - split_and!; [done..|]. exists []. cbn. rewrite app_nil_r. auto. }
  intros ? lw1 (-> & Hloop & Hl & tr & Htr & Hcase). cbn [seq_post]. unfold wp, unregister.
  rewrite Hloop. destruct (l_loop lw); cbn; rewrite ?Hl, Htr; (split_and!; [done|done|]);
    exists tr; rewrite ?app_nil_r, <- ?app_assoc; by split.
Qed.

Lemma close_listener f g (cb : callbacks (K:=K) (U:=U)) (lw : LW) k :
  passive f g cb → open_on k lw →
  wp (virtual_close cb) lw (λ o lw', o = Val tt ∧ close_result lw k lw').
Proof.
  intros Hcb (Hm & Hk & Hno & Hok). unfold virtual_close. rewrite (proj2 (proj2 Hcb)).
  wp_step. wp_step. cbn [seq_post]. apply wp_locked; [done|]. unfold close_socket_internal.
  wp_step. apply wp_this. cbn [seq_post]. wp_step. cbn [with_listener l_listener set_mutex m_socket].
  rewrite Hk.
  set (lw0 := with_listener (set_mutex true (l_listener lw)) lw).
  apply wp_mono with (P := λ o lw1, ∃ b k1, o = Val b ∧ l_trace lw1 = l_trace lw ∧
    l_loop lw1 = l_loop lw ∧
    (∃ m, l_listener lw1 = set_mutex m (put_socket (Some k1) (l_listener lw))) ∧
    life_ok (w_sock k1) ∧ (b = true → m_fd (w_sock k1) ≤ 0) ∧
    (b = false → m_state (w_sock k) = Connected ∧ m_state (w_sock k1) = Shutdown)).
  { destruct (sk_is_valid k) eqn:Hv; [|wp_step; exists true, k; split_and!; try done].
    - wp_step. eapply wp_listener_socket; [exact Hk|].
      eapply wp_mono; [apply wp_conj; [by apply (close_safe false)|by apply (close_returns false)]|].
      intros o k1 [[Hsafe _] ((b & -> & Ht & Hf) & _)]. cbn [seq_post]. wp_step. apply wp_update.
      cbn [seq_post]. wp_step. exists b, k1. split_and!; try done. by exists false.
    - exists true. destruct (l_listener lw); cbn in *; by subst.
    - intros _. cbn in Hv. unfold is_valid_sock in Hv. by bool_to_prop. }
  intros ? lw1 (b & k1 & -> & Htr & Hloop & (m & Hl1) & Hok1 & Ht & Hf). cbn [seq_post].
  wp_step. apply wp_this. cbn [seq_post].
  assert (m_has_disconnected (l_listener lw1) = false) as -> by (by rewrite Hl1).
  destruct b; cbn [andb negb].
  - eapply wp_mono; [by apply (tell_disconnect f g)|].
    intros ? lw2 (-> & Hl2 & tr & Htr2 & Hcase). cbn [seq_post]. split; [done|].
    unfold close_result. cbn [with_listener l_listener l_trace]. rewrite Hl2, Hl1 in *.
    split; [done|]. left. split.
    + split; [done|]. exists k1. split; [done|by apply Ht].
    + exists tr. rewrite Htr2, Htr, Hloop. by split.
  - wp_step. split; [done|]. split; [cbn; by rewrite Hl1|]. right. split; [done|].
    destruct (Hf eq_refl) as [Hc Hs]. split; [done|]. exists k1. split; [|done].
    unfold open_on. cbn. by rewrite Hl1.
Qed.

(** ** Closing through the event loop *)

Context {Σ : Type} `{EpollSys Σ}.
Abbreviation X := (gmap Z LW).
Abbreviation W := (eworld Σ Z X).
Implicit Types (w : W) (l : EventLoop Z).

Lemma carry_out_unregister (p : Z) (tr : list (levent sk_child)) fd :
  tr = [] ∨ tr = [GotDisconnect] →
  carry_out (Σ:=Σ) (K:=K) (U:=U) p (tr ++ [Unregistered fd]) = (unregister_event_listener p;; mret tt).
Proof. by intros [-> | ->]. Qed.

Definition close_step_post (lw : LW) (k : K) (p : Z) l w (o : outcome unit) w' : Prop :=
  o = Val tt ∧ ∃ lw', e_listeners w' = <[p := lw']> (e_listeners w) ∧
    m_fileno (l_listener lw') = m_fileno (l_listener lw) ∧
    ((shut lw' ∧ m_instance w' =
        Some (set_listeners (delete (m_fileno (l_listener lw)) (m_event_listeners l)) l)) ∨
     (m_state (w_sock k) = Connected ∧ m_instance w' = Some l ∧
        ∃ k', open_on k' lw' ∧ m_state (w_sock k') = Shutdown)).

Lemma close_step f g cb p w l lw k :
  passive f g cb → m_instance w = Some l → m_event_listeners_mutex l = false →
  e_listeners w !! p = Some lw → open_on k lw →
  wp (EventLoop.close_socket (network_listener fuel cb) p) w (close_step_post lw k p l w).
Proof.
  intros Hcb Hl Hlock Hp Hopen. cbn [EventLoop.close_socket network_listener].
  set (lw0 := mkLWorld (l_listener lw) [] (bool_decide (is_Some (m_instance w))) (l_user lw) : LW).
  pose proof (close_listener f g cb lw0 k Hcb Hopen) as Hrun. unfold wp in Hrun.
  unfold wp, on_listener. rewrite Hp. fold lw0.
  destruct (virtual_close cb lw0) as [o lw1]. cbn [fst snd] in Hrun.
  destruct Hrun as [-> [Hf Hres]]. cbn [lw0 l_listener l_trace l_loop] in Hf, Hres.
  set (kept := mkLWorld _ _ _ _).
  change (wp (carry_out p (l_trace lw1);; lift (Val tt))
    (mkEWorld (e_os w) (m_instance w) (<[p:=kept]> (e_listeners w)))
    (close_step_post lw k p l w)).
  set (w1 := mkEWorld _ _ _). unfold close_step_post.
  destruct Hres as [[Hshut (tr & Htr & Hcase)]|(Htr & Hc & k' & Hopen' & Hs)]; rewrite Htr; wp_step.
  - rewrite Hl. cbn [app]. rewrite (bool_decide_eq_true_2 (is_Some (Some l))) by done.
    rewrite carry_out_unregister by done. wp_step.
    eapply wp_mono; [by apply (unregister_run p w1 l)|].
    intros ? w2 (-> & Hx & Hl2). cbn [seq_post]. wp_step. cbn [seq_post]. wp_step.
    split; [done|]. exists kept. split; [done|]. split; [done|]. left. split; [exact Hshut|].
    rewrite Hl2. do 3 f_equal. unfold EventLoop.get_fileno, listener_fileno, w1. cbn [e_listeners].
    rewrite lookup_insert_eq. exact Hf.
  - cbn [carry_out]. wp_step. cbn [seq_post]. wp_step. split; [done|]. exists kept. split; [done|]. split; [done|].
    right. split; [done|]. split; [exact Hl|]. by exists k'.
Qed.

(** ** Stopping *)

(** Calls of [close_socket] that a listener needs to go: two while connected. *)
Definition close_cost (x : X) (p : Z) : nat :=
  match x !! p with
  | Some lw =>
      match m_socket (l_listener lw) with
      | Some k => if bool_decide (m_state (w_sock k) = Connected) then 2 else 1
      | None => 1
      end
  | None => 1
  end.

Definition total_cost w l : nat :=
  sum_list_with (close_cost (e_listeners w)) (snd <$> map_to_list (m_event_listeners l)).

(** Every registered pointer leads to an open listener that is known by its
    descriptor. *)
Definition all_open w l : Prop :=
  ∀ fd p, m_event_listeners l !! fd = Some p →
    ∃ lw k, e_listeners w !! p = Some lw ∧ m_fileno (l_listener lw) = fd ∧ open_on k lw.

(** The listeners of the map [m] that are no longer registered have been shut. *)
Definition rest_shut (m : gmap Z Z) w l : Prop :=
  ∀ fd p, m !! fd = Some p →
    m_event_listeners l !! fd = Some p ∨ ∃ lw, e_listeners w !! p = Some lw ∧ shut lw.

Lemma sum_list_with_le {A} (f g : A → nat) xs :
  (∀ x, x ∈ xs → f x ≤ g x)%nat → (sum_list_with f xs ≤ sum_list_with g xs)%nat.
Proof.
  induction xs as [|x xs IH]; intros Hle; simpl; [done|].
  pose proof (Hle x ltac:(left)). specialize (IH ltac:(intros; apply Hle; by right)). lia.
Qed.

Lemma sum_list_with_lt {A} (f g : A → nat) xs y :
  (∀ x, x ∈ xs → f x ≤ g x)%nat → y ∈ xs → (f y < g y)%nat →
  (sum_list_with f xs < sum_list_with g xs)%nat.
Proof.
  induction xs as [|x xs IH]; intros Hle Hy Hlt; [by apply not_elem_of_nil in Hy|]. simpl.
  pose proof (Hle x ltac:(left)).
  pose proof (sum_list_with_le f g xs ltac:(intros; apply Hle; by right)).
  apply elem_of_cons in Hy as [-> |Hy]; [lia|].
  specialize (IH ltac:(intros; apply Hle; by right) Hy Hlt). lia.
Qed.

Lemma elem_of_pointers (m : gmap Z Z) p : p ∈ snd <$> map_to_list m ↔ ∃ fd, m !! fd = Some p.
Proof.
  rewrite list_elem_of_fmap. split.
  - intros ([fd q] & -> & Hin%elem_of_map_to_list). by exists fd.
  - intros [fd Hfd]. exists (fd, p). split; [done|]. by apply elem_of_map_to_list.
Qed.

(** Removing a pointer pays for its last call. *)
Lemma delete_cost (c c' : Z → nat) (m : gmap Z Z) fd p :
  m !! fd = Some p → (0 < c p)%nat → (∀ q fd', m !! fd' = Some q → fd' ≠ fd → c' q = c q) →
  (sum_list_with c' (snd <$> map_to_list (delete fd m)) < sum_list_with c (snd <$> map_to_list m))%nat.
Proof.
  intros Hfd Hpos Heq.
  assert (sum_list_with c (snd <$> map_to_list m) =
    c p + sum_list_with c (snd <$> map_to_list (delete fd m)))%nat as ->.
  { change (c p + sum_list_with c (snd <$> map_to_list (delete fd m)))%nat with
      (sum_list_with c (snd <$> (fd, p) :: map_to_list (delete fd m))).
    apply sum_list_with_Permutation_proper, fmap_Permutation. by rewrite map_to_list_delete. }
  assert (sum_list_with c' (snd <$> map_to_list (delete fd m)) ≤
    sum_list_with c (snd <$> map_to_list (delete fd m)))%nat; [|lia].
  apply sum_list_with_le. intros q [fd' Hq]%elem_of_pointers.
  apply lookup_delete_Some in Hq as [Hne Hq]. by rewrite (Heq q fd').
Qed.

(** The loop [l0] while [stop] runs, with the map [m]. *)
Definition halfway (l0 : EventLoop Z) (m : gmap Z Z) : EventLoop Z :=
  set_listeners m (set_locked true (set_okay false l0)).

Definition stopping (l0 : EventLoop Z) (n : nat) w : Prop :=
  ∃ m, m_instance w = Some (halfway l0 m) ∧ all_open w (halfway l0 m) ∧
    rest_shut (m_event_listeners l0) w (halfway l0 m) ∧ (total_cost w (halfway l0 m) ≤ n)%nat.

Context (begin : gmap Z Z → option Z).
Hypothesis begin_spec : ∀ m, match begin m with
                             | Some p => ∃ fd, m !! fd = Some p
                             | None => m = ∅
                             end.
Hypothesis eventfd_writes : ∀ fd (σ : Σ), (eventfd_write fd σ).1 = 8.

(** After a call that did not finish, the costs only went down. *)
Lemma again_stopping m n w l p fd lw k lw' k' w' :
  all_open w l → rest_shut m w l → (total_cost w l ≤ n)%nat →
  m_event_listeners l !! fd = Some p → e_listeners w !! p = Some lw → m_fileno (l_listener lw) = fd →
  open_on k lw → m_state (w_sock k) = Connected → m_fileno (l_listener lw') = m_fileno (l_listener lw) →
  open_on k' lw' → m_state (w_sock k') = Shutdown → e_listeners w' = <[p := lw']> (e_listeners w) →
  all_open w' l ∧ rest_shut m w' l ∧ (total_cost w' l < n)%nat.
Proof.
  intros Hopen Hrest Hcost Hfd Hp Hno Hk Hst Hno' Hk' Hst' Hx. split_and!.
  - intros fd' q Hq. destruct (Hopen fd' q Hq) as (lwq & kq & Hxq & Hnoq & Hkq). rewrite Hx.
    destruct (decide (q = p)) as [-> |Hne].
    + rewrite lookup_insert_eq. exists lw', k'. split_and!; [done|congruence|done].
    + rewrite lookup_insert_ne by done. by exists lwq, kq.
  - intros fd' q Hq. destruct (Hrest fd' q Hq) as [?|(lwq & Hxq & Hshut)]; [by left|]. right.
    rewrite Hx. destruct (decide (q = p)) as [-> |Hne].
    + destruct Hshut as [Hd _]. destruct Hk as (_ & _ & Hnd & _). congruence.
    + rewrite lookup_insert_ne by done. by exists lwq.
  - eapply Nat.lt_le_trans; [|exact Hcost]. unfold total_cost.
    assert (close_cost (e_listeners w') p < close_cost (e_listeners w) p)%nat as Hlt.
    { unfold close_cost. rewrite Hx, lookup_insert_eq, Hp.
      destruct Hk as (_ & -> & _), Hk' as (_ & -> & _). rewrite Hst, Hst'.
      rewrite bool_decide_eq_false_2, bool_decide_eq_true_2 by done. lia. }
    apply sum_list_with_lt with (y := p); [|apply elem_of_pointers; by exists fd|done].
    intros q _. destruct (decide (q = p)) as [-> |Hne]; [lia|].
    unfold close_cost. by rewrite Hx, lookup_insert_ne by done.
Qed.

(** After a call that did, the listener is gone. *)
Lemma shut_stopping m n w l p fd lw k lw' w' l' :
  all_open w l → rest_shut m w l → (total_cost w l ≤ n)%nat →
  m_event_listeners l !! fd = Some p → e_listeners w !! p = Some lw → m_fileno (l_listener lw) = fd →
  open_on k lw → shut lw' → e_listeners w' = <[p := lw']> (e_listeners w) →
  l' = set_listeners (delete fd (m_event_listeners l)) l →
  all_open w' l' ∧ rest_shut m w' l' ∧ (total_cost w' l' < n)%nat.
Proof.
  intros Hopen Hrest Hcost Hfd Hp Hno Hk Hshut Hx ->.
  assert (∀ fd' q, m_event_listeners l !! fd' = Some q → fd' ≠ fd →
    e_listeners w' !! q = e_listeners w !! q) as Hother.
  { intros fd' q Hq Hne. rewrite Hx, lookup_insert_ne; [done|]. intros <-.
    destruct (Hopen fd' p Hq) as (lwq & _ & Hxq & Hnoq & _). congruence. }
  split_and!.
  - intros fd' q Hq. cbn in Hq. apply lookup_delete_Some in Hq as [Hne Hq].
    rewrite (Hother fd' q Hq) by done. by apply Hopen.
  - intros fd' q Hq. destruct (Hrest fd' q Hq) as [Hreg|(lwq & Hxq & Hsq)].
    + destruct (decide (fd' = fd)) as [-> |Hne].
      * right. assert (q = p) as -> by congruence. exists lw'. split; [|done].
        by rewrite Hx, lookup_insert_eq.
      * left. cbn. by apply lookup_delete_Some.
    + right. destruct (decide (q = p)) as [-> |Hne].
      * exists lw'. split; [by rewrite Hx, lookup_insert_eq|done].
      * exists lwq. by rewrite Hx, lookup_insert_ne.
  - eapply Nat.lt_le_trans; [|exact Hcost]. unfold total_cost. cbn [set_listeners m_event_listeners].
    apply delete_cost with (p := p); [done| |].
    + unfold close_cost. rewrite Hp. destruct Hk as (_ & -> & _). destruct (bool_decide _); lia.
    + intros q fd' Hq Hne. unfold close_cost. by rewrite (Hother fd' q Hq Hne).
Qed.

Lemma stop_step_spec f g cb l0 n w :
  passive f g cb → stopping l0 n w →
  wp (stop_step (network_listener fuel cb) begin) w (λ o w',
    match o with
    | Val None => ∃ n', (n' < n)%nat ∧ stopping l0 n' w'
    | Val (Some _) => m_instance w' = Some (halfway l0 ∅) ∧
        rest_shut (m_event_listeners l0) w' (halfway l0 ∅)
    | _ => False
    end).
Proof.
  intros Hcb (m & Hl & Hopen & Hrest & Hcost). unfold stop_step. set (l := halfway l0 m) in *.
  wp_step. eapply wp_loop; [exact Hl|]. cbn [seq_post].
  pose proof (begin_spec (m_event_listeners l)) as Hbegin.
  destruct (begin (m_event_listeners l)) as [p|]; [|cbn in Hbegin; wp_step; subst l; by rewrite Hbegin in *].
  destruct Hbegin as [fd Hfd]. destruct (Hopen fd p Hfd) as (lw & k & Hp & Hno & Hk).
  wp_step. eapply wp_unlock; [exact Hl|]. cbn [seq_post]. wp_step.
  eapply wp_mono; [by apply (close_step f g cb p _ (set_locked false l) lw k)|].
  intros o w1 (-> & lw' & Hx & Hno' & Hcase). cbn [seq_post with_loop e_listeners] in *. wp_step.
  destruct Hcase as [[Hshut Hl1]|(Hc & Hl1 & k' & Hk' & Hst')].
  - eapply wp_lock; [exact Hl1|done|]. cbn [seq_post]. wp_step. rewrite Hno.
    set (w2 := with_loop _ w1).
    destruct (shut_stopping _ n w l p fd lw k lw' w2 _ Hopen Hrest Hcost Hfd Hp Hno Hk Hshut Hx
      eq_refl) as (Ho2 & Hr2 & Hc2).
    exists (pred n). split; [lia|]. exists (delete fd m). split; [reflexivity|].
    split; [exact Ho2|]. split; [exact Hr2|]. change (total_cost w2 (halfway l0 (delete fd m)) < n)%nat in Hc2. lia.
  - eapply wp_lock; [exact Hl1|done|]. cbn [seq_post]. wp_step. set (w2 := with_loop _ w1).
    destruct (again_stopping _ n w l p fd lw k lw' k' w2 Hopen Hrest Hcost Hfd Hp Hno Hk Hc Hno' Hk'
      Hst' Hx) as (Ho2 & Hr2 & Hc2).
    exists (pred n). split; [lia|]. exists m. split; [reflexivity|].
    split; [exact Ho2|]. split; [exact Hr2|]. change (total_cost w2 l ≤ pred n)%nat. lia.
Qed.

(** C22: [stop] ends: with any number of network listeners on TCP sockets
    registered, connected or not, each is closed (a connected one twice: the
    orderly shutdown first, then the descriptor), its application told, its
    entry removed; then the event loop is stopped, its map empty and its mutex
    free. *)
Theorem stop_closes_listeners f g cb w l n :
  passive f g cb → m_instance w = Some l → m_event_listeners_mutex l = false → m_okay l = true →
  all_open w l → (total_cost w l < n)%nat →
  wp (stop (network_listener fuel cb) begin n) w (λ o w', o = Val tt ∧
    m_instance w' = Some (set_okay false (set_listeners ∅ l)) ∧
    ∀ fd p, m_event_listeners l !! fd = Some p → ∃ lw, e_listeners w' !! p = Some lw ∧ shut lw).
Proof.
  intros Hcb Hl Hlock Hokay Hopen Hn. apply wp_noexcept. wp_step.
  eapply wp_loop; [exact Hl|]. cbn [seq_post]. rewrite Hokay. cbn [negb]. wp_step.
  eapply wp_lock; [exact Hl|done|]. cbn [seq_post]. wp_step.
  eapply wp_update_loop; [reflexivity|]. cbn [seq_post]. wp_step.
  set (w0 := with_loop _ _).
  assert (stopping l (total_cost w l) w0) as Hstart.
  { exists (m_event_listeners l). split; [by destruct l|]. split; [exact Hopen|].
    split; [by left|done]. }
  apply (wp_iter_indexed (stopping l)) with (n := total_cost w l); [|exact Hstart|exact Hn].
  intros k w1 Hk. eapply wp_mono; [by apply (stop_step_spec f g cb l k)|].
  intros [[a|]|e|h] w2 Ho; [|done..]. destruct Ho as [Hl2 Hrest]. cbn [seq_post].
  wp_step. unfold increment_semaphore. wp_step. apply wp_ecall. intros r σ Hr. cbn [seq_post].
  pose proof (eventfd_writes (m_event_semaphore l) (e_os w2)) as H8. rewrite Hr in H8. cbn in H8. subst r.
  wp_step; [done|]. wp_step. cbn [seq_post]. eapply wp_unlock; [exact Hl2|].
  split; [done|]. split; [cbn; destruct l; cbn in *; by subst|].
  intros fd p Hp. destruct (Hrest fd p Hp) as [Hreg|?]; [|done]. cbn in Hreg. by rewrite lookup_empty in Hreg.
Qed.

(** A registered listener that has nothing left to close. *)
Definition stuck p fd (lw : LW) (w : W) : Prop :=
  m_mutex (l_listener lw) = false ∧ shut lw ∧
  e_listeners w !! p = Some lw ∧
  ∃ l, m_instance w = Some l ∧ m_event_listeners l = {[fd := p]}.

Lemma close_shut_run cb (lw : LW) :
  before_close cb = mret tt → m_mutex (l_listener lw) = false → shut lw →
  virtual_close cb lw = (Val tt, lw).
Proof.
  intros Hcb Hm (Hd & k & Hk & Hfd). apply wp_run. unfold virtual_close. rewrite Hcb.
  wp_step. wp_step. cbn [seq_post]. apply wp_locked; [done|].
  set (lw1 := with_listener _ lw). unfold wp.
  rewrite (close_internal_again cb k lw1); [|done| |done].
  - cbn. subst lw1. unfold with_listener, set_mutex. cbn. by destruct lw as [[] ? ? ?]; cbn in *; subst.
  - cbn. unfold is_valid_sock. by apply Z.ltb_ge.
Qed.

Lemma close_shut_step cb p w (lw : LW) :
  before_close cb = mret tt → e_listeners w !! p = Some lw → m_mutex (l_listener lw) = false → shut lw →
  EventLoop.close_socket (network_listener fuel cb) p w =
    (Val tt, mkEWorld (e_os w) (m_instance w) (<[p := mkLWorld (l_listener lw) (l_trace lw ++ [])
      (bool_decide (is_Some (m_instance w))) (l_user lw)]> (e_listeners w))).
Proof.
  intros Hcb Hp Hm Hshut. cbn [EventLoop.close_socket network_listener]. unfold on_listener.
  rewrite Hp, close_shut_run by done. done.
Qed.

Lemma stuck_step cb p fd lw w :
  before_close cb = mret tt → stuck p fd lw w → (∃ l, m_instance w = Some l ∧ m_event_listeners_mutex l = true) →
  wp (stop_step (network_listener fuel cb) begin) w (λ o w', o = Val None ∧
    (∃ lw', stuck p fd lw' w') ∧ ∃ l, m_instance w' = Some l ∧ m_event_listeners_mutex l = true).
Proof.
  intros Hcb (Hm & Hshut & Hp & l & Hl & Hmap) (l' & Hl' & Hlock).
  assert (l' = l) as -> by congruence. unfold stop_step. wp_step.
  eapply wp_loop; [exact Hl|]. cbn [seq_post]. rewrite Hmap.
  pose proof (begin_spec {[fd := p]}) as Hbegin. destruct (begin {[fd := p]}) as [q|].
  2: { by apply map_non_empty_singleton in Hbegin. }
  destruct Hbegin as [fd' [_ <-]%lookup_singleton_Some].
  wp_step. eapply wp_unlock; [exact Hl|]. cbn [seq_post]. wp_step.
  unfold wp at 1. rewrite (close_shut_step cb p (with_loop (set_locked false l) w) lw Hcb Hp Hm Hshut). cbn [fst snd seq_post].
  wp_step. eapply wp_lock; [reflexivity|done|]. cbn [seq_post]. wp_step. split; [done|].
  split; [|by eexists]. eexists. split; [|split; [|split]].
  4: { eexists. split; [reflexivity|exact Hmap]. }
  3: { cbn. apply lookup_insert_eq. }
  - exact Hm.
  - exact Hshut.
Qed.

(** A listener that was closed before it was registered (its application
    knows of the end, its socket has no descriptor) stays registered, and [stop]
    never returns: closing it again does nothing, and the loop waits for the map
    to become empty. *)
Theorem stop_spins cb p fd lw w l n :
  before_close cb = mret tt →
  m_instance w = Some l → m_okay l = true → m_event_listeners_mutex l = false →
  m_event_listeners l = {[fd := p]} → e_listeners w !! p = Some lw →
  m_mutex (l_listener lw) = false → shut lw →
  (stop (network_listener fuel cb) begin n w).1 = Halt OutOfFuel.
Proof.
  intros Hcb Hl Hokay Hlock Hmap Hp Hm Hshut.
  change (wp (stop (network_listener fuel cb) begin n) w (λ o _, o = Halt OutOfFuel)).
  apply wp_noexcept. wp_step. eapply wp_loop; [exact Hl|]. cbn [seq_post]. rewrite Hokay. cbn [negb].
  wp_step. eapply wp_lock; [exact Hl|done|]. cbn [seq_post]. wp_step.
  eapply wp_update_loop; [reflexivity|]. cbn [seq_post]. wp_step.
  apply (wp_iter_partial (λ w, (∃ lw, stuck p fd lw w) ∧
    ∃ l, m_instance w = Some l ∧ m_event_listeners_mutex l = true)); [done| |].
  - intros w1 [[lw1 Hs1] Hl1]. eapply wp_mono; [by apply (stuck_step cb p fd lw1)|].
    by intros ? w2 (-> & Hs2 & Hl2).
  - split; [|by eexists]. exists lw. split; [done|]. split; [done|]. split; [done|]. by eexists.
Qed.
End closing.

(** * Witnesses *)

Lemma first_entry_spec (m : gmap Z Z) :
  match first_entry m with
  | Some p => ∃ fd, m !! fd = Some p
  | None => m = ∅
  end.
Proof.
  unfold first_entry. destruct (map_to_list m) as [|[fd p] xs] eqn:E; cbn.
  - by apply map_to_list_empty_iff.
  - exists fd. apply elem_of_map_to_list. rewrite E. left.
Qed.

#[local] Existing Instances no_hosts no_hosts_laws tcp_sample.

Abbreviation sample_X := (gmap Z (lworld TCP (TcpSocket DatagramMessageSlicer) (list message_in_t * nat))).

(** An event loop with one connected listener. *)
Definition one_listener : eworld (list (Z * Z * Z)) Z sample_X :=
  mkEWorld [] (Some (running_loop {[7 := 1]})) {[1 := listening idle]}.

Lemma one_listener_open : all_open 50 junk_slicer one_listener (running_loop {[7 := 1]}).
Proof.
  intros fd p Hp. cbn in Hp. apply lookup_singleton_Some in Hp as [<- <-].
  exists (listening idle), idle.
  split; [apply lookup_singleton_eq|]. split; [by vm_compute|].
  split; [by vm_compute|]. split; [by vm_compute|]. split; [by vm_compute|apply idle_ok].
Qed.

Lemma one_listener_cost : (total_cost 50 junk_slicer one_listener (running_loop {[7%Z := 1%Z]}) < 3)%nat.
Proof. apply Nat.ltb_lt. vm_compute. reflexivity. Qed.

Lemma scripted_writes fd (σ : list (Z * Z * Z)) : (eventfd_write fd σ).1 = 8.
Proof. done. Qed.

Lemma stop_closes_listeners_witness :
  m_event_listeners <$> m_instance (stop (network_listener 50 recorder) first_entry 3 one_listener).2
    = Some ∅.
Proof.
  destruct (stop_closes_listeners 50 junk_slicer first_entry first_entry_spec scripted_writes
    _ _ recorder one_listener (running_loop {[7 := 1]}) 3 recorder_passive eq_refl eq_refl eq_refl
    one_listener_open one_listener_cost) as (_ & Hl & _).
  etransitivity; [exact (f_equal (fmap m_event_listeners) Hl)|]. done.
Defined.

(** A listener whose application closed it for good before registering it. *)
Definition idle_closing : TCP := sample_world (scripted [] [] []) 7 Shutdown.

Definition refused_listener := (Listener.close_socket recorder (listening idle_closing)).2.

Lemma stop_spins_witness :
  (stop (network_listener 50 recorder) first_entry 1000
    (mkEWorld (Σ:=list (Z * Z * Z)) [] (Some (running_loop {[7 := 1]})) {[1 := refused_listener]})).1
  = Halt OutOfFuel.
Proof.
  apply (stop_spins 50 junk_slicer first_entry first_entry_spec recorder 1 7 refused_listener _
    (running_loop {[7 := 1]}) 1000); try done.
  split; [by vm_compute|]. eexists. split; [vm_compute; reflexivity|by vm_compute].
Defined.
