(* ===== verification/Workers.v ===== *)
(** The worker threads of the event loop and [stop] as interleaved steps: the
    cascade over the semaphore by which the workers end. *)
From S2P Require Import Prelude.

(** * The transition system *)

(** Where a worker is in [thread_loop] and [update]. *)
Inductive pc :=
| Check     (* [while (this->is_okay())] *)
| Enter     (* [while (m_okay && nfds < 0)] *)
| Poll      (* in [epoll_wait] *)
| Consume   (* before [decrement_semaphore] *)
| Decide    (* [if (m_okay)] after it *)
| Raise     (* before [increment_semaphore] and the return of no listener *)
| Handle    (* in a handler of a listener *)
| Done      (* the thread has ended *)
| Crashed.  (* [LOG(FATAL)] in [decrement_semaphore] *)

#[export] Instance pc_eq_dec : EqDecision pc.
Proof. solve_decision. Defined.

(** Where the thread that calls [stop] is: before it, closing the listeners,
    or returned. *)
Inductive stop_pc := StopIdle | StopClosing | StopDone.

Definition idle (p : stop_pc) : bool := match p with StopIdle => true | _ => false end.

(** [m_okay], the counter of the eventfd, and whether epoll has its
    edge-triggered event ready. *)
Record shared := mkShared { m_okay : bool; semaphore : nat; edge : bool }.

Record workers := mkWorkers { w_shared : shared; w_stop : stop_pc; w_pcs : list pc }.

(** Writing to the eventfd makes its event ready. *)
Definition increment (s : shared) : shared := mkShared (m_okay s) (S (semaphore s)) true.

(** The moves a worker makes by itself. *)
Inductive move : shared → pc → shared → pc → Prop :=
| move_check s : move s Check s (if m_okay s then Enter else Done)
| move_enter s : move s Enter s (if m_okay s then Poll else Raise)
| move_wake s : edge s = true →
    move s Poll (mkShared (m_okay s) (semaphore s) false) Consume
| move_consume s n : semaphore s = S n →
    move s Consume (mkShared (m_okay s) n (edge s)) Decide
| move_fatal s : semaphore s = 0 → move s Consume s Crashed
| move_decide s : move s Decide s (if m_okay s then Enter else Raise)
| move_raise s : move s Raise (increment s) Done
| move_handled s : move s Handle s Check.

(** What comes from outside: a signal interrupts [epoll_wait], or a listener has
    an event. *)
Inductive disturb : pc → pc → Prop :=
| disturb_signal : disturb Poll Enter
| disturb_event : disturb Poll Handle.

(** A step of worker [i]. *)
Inductive worker_step : workers → workers → Prop :=
| step_worker s st pcs i p s' p' :
    pcs !! i = Some p → move s p s' p' →
    worker_step (mkWorkers s st pcs) (mkWorkers s' st (<[i := p']> pcs)).

Inductive outside_step : workers → workers → Prop :=
| step_outside s st pcs i p p' :
    pcs !! i = Some p → disturb p p' →
    outside_step (mkWorkers s st pcs) (mkWorkers s st (<[i := p']> pcs))
| step_stop s pcs :
    outside_step (mkWorkers s StopIdle pcs)
      (mkWorkers (mkShared false (semaphore s) (edge s)) StopClosing pcs)
| step_stopped s pcs :
    outside_step (mkWorkers s StopClosing pcs) (mkWorkers (increment s) StopDone pcs).

Definition wstep (w w' : workers) : Prop := worker_step w w' ∨ outside_step w w'.

Definition started (n : nat) : workers :=
  mkWorkers (mkShared true 0 false) StopIdle (replicate n Check).

Inductive wreachable (n : nat) : workers → Prop :=
| wreach_start : wreachable n (started n)
| wreach_step w w' : wreachable n w → wstep w w' → wreachable n w'.

(** [k] steps in a row. *)
Inductive wsteps : nat → workers → workers → Prop :=
| wsteps_0 w : wsteps 0 w w
| wsteps_S k w w' w'' : wstep w w' → wsteps k w' w'' → wsteps (S k) w w''.

(** * Invariant *)

Definition b2n (b : bool) : nat := if b then 1 else 0.

(** How many workers are where [f] holds. *)
Definition count (f : pc → bool) (pcs : list pc) : nat := sum_list_with (λ p, b2n (f p)) pcs.

Definition crashed (p : pc) : bool := match p with Crashed => true | _ => false end.
Definition consuming (p : pc) : bool := match p with Consume => true | _ => false end.
Definition past_wake (p : pc) : bool := match p with Decide | Raise | Done => true | _ => false end.
Definition carrier (p : pc) : bool := match p with Consume | Decide | Raise => true | _ => false end.

(** The steps a worker has left once the event loop is being stopped. *)
Definition rank (p : pc) : nat :=
  match p with
  | Poll => 5 | Enter => 4 | Consume => 3 | Decide | Handle => 2 | Raise | Check => 1
  | Done | Crashed => 0
  end.

Definition total_rank (w : workers) : nat := sum_list_with rank (w_pcs w).

(** Nobody has crashed; everyone about to read the semaphore finds it raised;
    before [stop] it was never raised; and after [stop] somebody carries the
    wake-up on, or the event is ready. *)
Definition winv (w : workers) : Prop :=
  count crashed (w_pcs w) = 0 ∧
  count consuming (w_pcs w) + b2n (edge (w_shared w)) ≤ semaphore (w_shared w) ∧
  m_okay (w_shared w) = idle (w_stop w) ∧
  (m_okay (w_shared w) = true →
    semaphore (w_shared w) = 0 ∧ count past_wake (w_pcs w) = 0) ∧
  (w_stop w = StopDone →
    0 < b2n (edge (w_shared w)) + count carrier (w_pcs w)).

Lemma count_start f n : f Check = false → count f (replicate n Check) = 0.
Proof. intros Hf. unfold count. induction n as [|n IH]; simpl; [done|]. by rewrite Hf. Qed.

Lemma winv_start n : winv (started n).
Proof.
  unfold winv, started. cbn [w_pcs w_shared w_stop m_okay semaphore edge].
  rewrite !count_start by done. by split_and!.
Qed.

Lemma count_insert f pcs i p p' :
  pcs !! i = Some p → count f (<[i := p']> pcs) + b2n (f p) = count f pcs + b2n (f p').
Proof. apply (sum_list_with_insert (λ p, b2n (f p))). Qed.

Lemma count_in f pcs i p : pcs !! i = Some p → b2n (f p) ≤ count f pcs.
Proof.
  intros Hi. apply (sum_list_with_in p (λ p, b2n (f p))). by eapply list_elem_of_lookup_2.
Qed.

(** The counts of the invariant after worker [i] has moved. *)
Ltac count_moved Hi p' :=
  pose proof (count_insert crashed _ _ _ p' Hi);
  pose proof (count_insert consuming _ _ _ p' Hi);
  pose proof (count_insert past_wake _ _ _ p' Hi);
  pose proof (count_insert carrier _ _ _ p' Hi);
  pose proof (count_in past_wake _ _ _ Hi).

Lemma winv_worker w w' : winv w → worker_step w w' → winv w'.
Proof.
  intros Hinv Hstep. destruct Hstep as [s st pcs i p s' p' Hi Hmove].
  unfold winv in *. cbn [w_pcs w_shared w_stop] in *.
  destruct Hinv as (Hcr & Hsem & Hok & Hfresh & Htok). count_moved Hi p'.
  destruct Hmove as [s|s|s He|s n Hn|s Hn|s|s|s]; destruct s as [[] sem e]; cbn in *; subst; cbn in *;
    try specialize (Hfresh eq_refl) as [? ?]; destruct st; try discriminate;
    try specialize (Htok eq_refl); (split_and!; intros; try discriminate; try done; lia).
Qed.

Lemma winv_outside w w' : winv w → outside_step w w' → winv w'.
Proof.
  intros Hinv Hstep. destruct Hstep as [s st pcs i p p' Hi Hmove|s pcs|s pcs];
    unfold winv in *; cbn [w_pcs w_shared w_stop] in *;
    destruct Hinv as (Hcr & Hsem & Hok & Hfresh & Htok); destruct s as [[] sem e]; cbn in *;
    try discriminate; try specialize (Hfresh eq_refl) as [? ?].
  1-2: count_moved Hi p'; destruct Hmove; cbn in *;
    (split_and!; intros; try discriminate; try done; try specialize (Htok ltac:(done)); lia).
  all: split_and!; intros; try discriminate; try done; lia.
Qed.

Lemma wreachable_inv n w : wreachable n w → winv w.
Proof.
  induction 1 as [|w w' _ IH [Hs|Hs]]; [apply winv_start|by eapply winv_worker|by eapply winv_outside].
Qed.

(** ** Ending *)

Definition all_done (w : workers) : Prop := Forall (λ p, p = Done) (w_pcs w).

(** Once [m_okay] is false it stays so, and every step of a worker uses up some
    of its rank, whatever the outside does. *)
Lemma stopping_step w w' :
  winv w → w_stop w = StopDone → wstep w w' → w_stop w' = StopDone ∧ total_rank w' < total_rank w.
Proof.
  intros Hinv Hst Hstep. pose proof Hinv as (_ & _ & Hok & _). rewrite Hst in Hok.
  unfold total_rank. clear Hinv. revert Hst Hok.
  destruct Hstep as [[s st pcs i p s' p' Hi Hmove]|[s st pcs i p p' Hi Hmove|s pcs|s pcs]];
    cbn; intros Hst Hok; try discriminate; (split; [done|]);
    pose proof (sum_list_with_insert rank _ _ _ p' Hi); destruct Hmove; rewrite ?Hok in *; cbn in *; lia.
Qed.

(** A worker other than one in [epoll_wait] can always go on. *)
Lemma move_on s p : p = Poll ∨ p = Done ∨ p = Crashed ∨ ∃ s' p', move s p s' p'.
Proof.
  destruct p; try (by auto); right; right; right.
  - eexists _, _. constructor.
  - eexists _, _. constructor.
  - destruct (semaphore s) as [|n] eqn:E; eexists _, _; [by apply move_fatal|by apply move_consume].
  - eexists _, _. constructor.
  - eexists _, _. constructor.
  - eexists _, _. constructor.
Qed.

Lemma carrier_exists pcs : 0 < count carrier pcs → ∃ i p, pcs !! i = Some p ∧ carrier p = true.
Proof.
  unfold count. induction pcs as [|p pcs IH]; simpl; [lia|].
  destruct (carrier p) eqn:E; intros Hpos; [by exists 0, p|].
  destruct (IH Hpos) as (i & q & Hi & Hq). by exists (S i), q.
Qed.

Lemma not_done_exists pcs : ¬ Forall (λ p, p = Done) pcs → ∃ i p, pcs !! i = Some p ∧ p ≠ Done.
Proof.
  intros Hnot. apply not_Forall_Exists in Hnot; [|apply _].
  apply Exists_exists in Hnot as (p & [i Hi]%list_elem_of_lookup & Hp). by exists i, p.
Qed.

Lemma progress w : winv w → w_stop w = StopDone → ¬ all_done w → ∃ w', worker_step w w'.
Proof.
  destruct w as [s st pcs]. unfold all_done. cbn. intros Hinv -> Hnot.
  destruct Hinv as (Hcr & _ & _ & _ & Htok).
  cbn [w_pcs w_shared w_stop] in *. specialize (Htok eq_refl).
  apply not_done_exists in Hnot as (i & p & Hi & Hp).
  destruct (move_on s p) as [-> |[? |[-> |(s' & p' & Hm)]]]; [|done| |].
  - destruct (edge s) eqn:He.
    + eexists. eapply step_worker; [exact Hi|by apply move_wake].
    + apply carrier_exists in Htok as (j & q & Hj & Hq).
      destruct (move_on s q) as [-> |[-> |[-> |(s' & q' & Hm)]]]; try discriminate.
      eexists. exact (step_worker _ _ _ j q s' q' Hj Hm).
  - pose proof (count_in crashed _ _ _ Hi). cbn [crashed b2n] in *. lia.
  - eexists. exact (step_worker _ _ _ i p s' p' Hi Hm).
Qed.

Lemma wstep_length w w' : wstep w w' → length (w_pcs w') = length (w_pcs w).
Proof. intros [[]|[]]; cbn; by rewrite ?length_insert. Qed.

Lemma total_rank_bound n w : wreachable n w → total_rank w ≤ 5 * n.
Proof.
  intros Hr. assert (length (w_pcs w) = n) as <-.
  { induction Hr as [|w w' _ IH Hs]; [apply length_replicate|by rewrite (wstep_length w w')]. }
  unfold total_rank. clear Hr. induction (w_pcs w) as [|p pcs IH]; simpl; [lia|].
  assert (rank p ≤ 5) by (destruct p; simpl; lia). lia.
Qed.

(** C25: the shutdown of the workers: with any number of them and however their
    steps, signals, listener events and [stop] interleave, no worker ever finds
    the semaphore empty (which would abort the process); and once [stop] has
    returned, every execution is finite, at most five steps per worker, and can
    only come to rest with all of them ended: the one token that [stop] puts
    into the semaphore is handed on from worker to worker. *)
Theorem workers_end n w :
  wreachable n w →
  count crashed (w_pcs w) = 0 ∧
  (w_stop w = StopDone →
    (∀ k w', wsteps k w w' → k ≤ 5 * n ∧
      (all_done w' ∨ ∃ w'', worker_step w' w''))).
Proof.
  intros Hr. pose proof (wreachable_inv n w Hr) as Hinv. split; [apply Hinv|]. intros Hst k w' Hsteps.
  pose proof (total_rank_bound n w Hr) as Hbound.
  assert (winv w' ∧ w_stop w' = StopDone ∧ k + total_rank w' ≤ total_rank w) as (Hinv' & Hst' & Hk).
  { clear Hr Hbound. induction Hsteps as [w|k w w1 w2 Hs _ IH]; [by split_and!|].
    destruct (stopping_step w w1 Hinv Hst Hs) as [Hst1 Hlt].
    assert (winv w1) as Hinv1 by (destruct Hs; [by eapply winv_worker|by eapply winv_outside]).
    destruct (IH Hinv1 Hst1) as (? & ? & ?). split_and!; [done..|lia]. }
  split; [lia|]. destruct (decide (Forall (λ p, p = Done) (w_pcs w'))) as [|Hnot]; [by left|].
  right. by apply progress.
Qed.

(** Two workers, of which one sleeps in [epoll_wait] when [stop] is called. *)
Lemma two_workers_stopped : wreachable 2 (mkWorkers (mkShared false 1 true) StopDone [Poll; Check]).
Proof.
  eapply wreach_step; [|right; apply (step_stopped (mkShared false 0 false))].
  eapply wreach_step; [|right; apply (step_stop (mkShared true 0 false))].
  eapply wreach_step; [|left; by apply (step_worker (mkShared true 0 false) StopIdle [Enter; Check] 0 Enter _ _ eq_refl), move_enter].
  eapply wreach_step; [|left; by apply (step_worker (mkShared true 0 false) StopIdle [Check; Check] 0 Check _ _ eq_refl), move_check].
  apply wreach_start.
Qed.

Lemma workers_end_witness :
  ∃ w, worker_step (mkWorkers (mkShared false 1 true) StopDone [Poll; Check]) w.
Proof.
  destruct (workers_end 2 _ two_workers_stopped) as [_ Hend].
  destruct (Hend eq_refl 0 _ (wsteps_0 _)) as [_ [Hdone|Hstep]]; [|exact Hstep].
  inversion Hdone. discriminate.
Defined.
