(* ===== verification/Mutex.v ===== *)
(** Mutexes of a machine of threads: who owns them, and that the owner is the one
    thread at a control point between acquiring and releasing. Used by the
    machines of Threads.v and Dispatch.v. *)
From S2P Require Import Prelude.

Section mutex.
Context {L P : Type} `{EqDecision L} (holds : L → P → bool).
Implicit Types (owner : L → option nat) (pcs : list P).

Definition set_owner (l : L) (o : option nat) owner : L → option nat :=
  λ l', if decide (l' = l) then o else owner l'.

(** The owner of a mutex is the one thread at a point that [holds] it. *)
Definition lock_inv owner pcs : Prop :=
  ∀ l i, owner l = Some i ↔ holds l <$> pcs !! i = Some true.

Lemma holds_owner owner pcs l i p :
  lock_inv owner pcs → pcs !! i = Some p → owner l = Some i ↔ holds l p = true.
Proof.
  intros Hinv Hp. etransitivity; [apply Hinv|]. rewrite Hp. cbn.
  split; [by intros [=]|by intros ->].
Qed.

Lemma holds_unique owner pcs l i j p q :
  lock_inv owner pcs → pcs !! i = Some p → pcs !! j = Some q →
  holds l p = true → holds l q = true → i = j.
Proof.
  intros Hinv Hp Hq Hhp Hhq.
  apply (holds_owner owner pcs l i p Hinv Hp) in Hhp.
  apply (holds_owner owner pcs l j q Hinv Hq) in Hhq. congruence.
Qed.

Lemma lock_free owner pcs l :
  lock_inv owner pcs → owner l = None ∨ ∃ i p, pcs !! i = Some p ∧ holds l p = true.
Proof.
  intros Hinv. destruct (owner l) as [i|] eqn:Ho; [right|by left].
  apply Hinv in Ho. destruct (pcs !! i) as [p|] eqn:Hp; [|done]. injection Ho as Ho. eauto.
Qed.

(** Thread [i] has moved to [next]; the others own what they owned. *)
Lemma lock_inv_move owner pcs owner' pcs' i next :
  lock_inv owner pcs → pcs' !! i = Some next →
  (∀ l, owner' l = Some i ↔ holds l next = true) →
  (∀ l j, j ≠ i → owner' l = Some j ↔ owner l = Some j) →
  (∀ l j, j ≠ i → holds l <$> pcs' !! j = holds l <$> pcs !! j) →
  lock_inv owner' pcs'.
Proof.
  intros Hinv Hnext Hself Hother Hsame l j. destruct (decide (j = i)) as [->|Hne].
  - rewrite Hnext. cbn. specialize (Hself l). split; [by intros ->%Hself|]. intros [=]. by apply Hself.
  - rewrite (Hsame l j Hne). etransitivity; [by apply Hother|by apply Hinv].
Qed.

(** Nobody has acquired anything yet. *)
Lemma lock_inv_start pcs :
  (∀ l p, p ∈ pcs → holds l p = false) → lock_inv (λ _, None) pcs.
Proof.
  intros Hnone l i. split; [done|]. destruct (pcs !! i) as [p|] eqn:Hp; [|done]. cbn.
  rewrite Hnone; [done|by eapply list_elem_of_lookup_2].
Qed.

Lemma set_owner_acquire l i owner p next :
  owner l = None → (∀ l', owner l' = Some i ↔ holds l' p = true) →
  (∀ l', holds l' next = if decide (l' = l) then true else holds l' p) →
  (∀ l', set_owner l (Some i) owner l' = Some i ↔ holds l' next = true) ∧
  (∀ l' j, j ≠ i → set_owner l (Some i) owner l' = Some j ↔ owner l' = Some j).
Proof.
  intros Ho Hown Hnext. split.
  - intros l'. unfold set_owner. rewrite Hnext. destruct (decide _); [done|apply Hown].
  - intros l' j Hne. unfold set_owner. destruct (decide _) as [->|]; [|done]. rewrite Ho. split; congruence.
Qed.

Lemma set_owner_release l i owner p next :
  holds l p = true → (∀ l', owner l' = Some i ↔ holds l' p = true) →
  (∀ l', holds l' next = if decide (l' = l) then false else holds l' p) →
  (∀ l', set_owner l None owner l' = Some i ↔ holds l' next = true) ∧
  (∀ l' j, j ≠ i → set_owner l None owner l' = Some j ↔ owner l' = Some j).
Proof.
  intros Hh Hown Hnext. apply Hown in Hh. split.
  - intros l'. unfold set_owner. rewrite Hnext. destruct (decide _); [done|apply Hown].
  - intros l' j Hne. unfold set_owner. destruct (decide _) as [->|]; [|done]. rewrite Hh. split; congruence.
Qed.
End mutex.
