(* ===== verification/Threads.v ===== *)
(** Several threads on one [TcpSocket]: [send], [do_send],
    [wait_send_queue_empty] and [close] of src/network/TcpSocket.cpp as
    interleaved steps, with the two mutexes and the condition variable.

    [code] is the program text, one control point per access to what the threads
    share ([m_fd] is atomic; a system call is made with the descriptor loaded in
    the step before it). What a mutex protects is touched in one step of its
    owner. *)
From S2P Require Import Prelude Machine Buffer Slicer Inet Sys TcpSocket Mutex.
Local Open Scope Z_scope.

(** [m_send_mutex] and [m_send_queue_mutex]. *)
Inductive lock := SendMutex | QueueMutex.

#[export] Instance lock_eq_dec : EqDecision lock.
Proof. solve_decision. Defined.

(** Where a thread is in [close]. *)
Inductive close_pc :=
| CloseTest (fast : bool)  (* [if (m_state == State::Connected && !fast)] *)
| ShutState                (* [m_state = State::Shutdown] *)
| ShutLoad                 (* the argument of [::shutdown] *)
| Shut (fd : Z)            (* [::shutdown(fd, SHUT_RDWR)] *)
| GoneFd                   (* ENOTCONN: [m_fd = -1] *)
| GoneState                (* ENOTCONN: [m_state = State::Closed] *)
| GoneReset                (* ENOTCONN: [m_slicer->buffer().reset()] *)
| FdTest                   (* [if (m_fd > 0)] *)
| FdState                  (* [m_state = State::Closed] *)
| FdLoad                   (* the argument of [::close] *)
| FdClose (fd : Z)         (* [::close(fd)] *)
| FdClear                  (* [m_fd = -1] *)
| FdReset                  (* [m_slicer->buffer().reset()] *)
| StateTest                (* [if (!(m_state == Closed || m_state == Unknown))] *)
| NotifyLock               (* before [m_send_queue_mutex] *)
| NotifyAll                (* [m_send_queue_cond.notify_all()] *)
| NotifyUnlock.            (* the end of the block *)

(** Who called [close]: the application, or [do_send], which ignores the result
    and then ends with an outcome of its own. *)
Inductive close_caller := ByApplication | ByDoSend (o : outcome bool).

Inductive pc :=
| Idle
| Returned (o : outcome bool)
| SendCheck (data : list byte) (len : Z) (shared async : bool)
| SendLock (data : list byte) (len : Z) (shared async : bool)
| SendPush (data : list byte) (len : Z) (shared async : bool)
| SendUnlock (r : message_out + exn) (async : bool)
| DoLock                         (* before [m_send_mutex] *)
| DoTest                         (* [if (!m_current_message)] *)
| PopLock                        (* before [m_send_queue_mutex] *)
| Pop                            (* [m_send_queue.begin()] *)
| PopUnlock (more : bool)
| DoValid                        (* [if (!is_valid())] *)
| WriteTest                      (* [while (message.sent_pos < length)] *)
| Write (fd : Z)                 (* [::write(fd, ...)] *)
| DoUnlock (o : outcome bool)    (* leaving [do_send] *)
| WaitLock                       (* before [m_send_queue_mutex], also on waking up *)
| WaitTest                       (* [while (m_send_queue_size > 0 && is_valid())] *)
| WaitSleep                      (* [m_send_queue_cond.wait(lock)] *)
| Asleep
| WaitUnlock
| Closing (at_ : close_pc) (k : close_caller)
| Aborted (msg : string).        (* [LOG(FATAL)] or undefined behaviour *)

(** What a thread does at a control point. [Access] runs on the shared socket and
    gives the next control point and whether the waiting threads are notified. *)
Inductive action (W : Type) :=
| Rest
| Acquire (l : lock) (next : pc)
| Release (l : lock) (next : pc)
| Access (m : M W (pc * bool))
| Sleep.
Arguments Rest {W}.
Arguments Acquire {W}.
Arguments Release {W}.
Arguments Access {W}.
Arguments Sleep {W}.

(** The calls an application makes. [shared] selects the overload of [send] for a
    [shared_ptr]. *)
Inductive call :=
| CallSend (data : list byte) (len : Z) (shared async : bool)
| CallDoSend
| CallWait
| CallClose (fast : bool).

Definition enter (c : call) : pc :=
  match c with
  | CallSend data len shared async => SendCheck data len shared async
  | CallDoSend => DoLock
  | CallWait => WaitLock
  | CallClose fast => Closing (CloseTest fast) ByApplication
  end.

Section code.
Context {Σ T : Type} `{Sys Σ} `{MessageSlicer T}.
Abbreviation W := (world Σ T).

(** Go on at [p]. *)
Definition go (p : pc) : M W (pc * bool) := mret (p, false).

(** ** send *)

(** The tests before the critical section. *)
Definition send_check (data : list byte) (len : Z) (shared async : bool) : M W (pc * bool) :=
  if len =? 0 then go (Returned (Exn (socket_error "Message size has to be > 0"))) else
  valid ← is_valid;
  if negb valid then go (Returned (Exn (socket_error "Socket is closed")))
  else go (SendLock data len shared async).

(** The critical section; an exception leaves it as well. *)
Definition send_push (data : list byte) (len : Z) (shared async : bool) : M W (pc * bool) :=
  catch
    (s ← sock;
     if m_max_send_queue_size s <=? m_send_queue_size s then throw send_queue_full else
     '(data, len) ← (if shared then mret (data, len)
                     else on_slicer (slicer_prepare_message data len));
     let msg_out := {| mo_length := len; mo_sent_pos := 0; mo_is_shared := shared; mo_data := data |} in
     enqueue msg_out;;
     go (SendUnlock (inl msg_out) async))
    (λ e, go (SendUnlock (inr e) async)).

(** ** do_send *)

Definition do_test : M W (pc * bool) :=
  s ← sock;
  match m_current_message s with
  | None => go PopLock
  | Some _ => go DoValid
  end.

(** [notify_all] is called when a message was taken. *)
Definition pop : M W (pc * bool) :=
  more ← next_message;
  mret (PopUnlock more, more).

Definition do_valid : M W (pc * bool) :=
  valid ← is_valid;
  if negb valid then go (DoUnlock (Exn (socket_error "Socket is closed"))) else go WriteTest.

(** At the end of the loop the message is dropped. *)
Definition write_test : M W (pc * bool) :=
  s ← sock;
  match m_current_message s with
  | None => halt (UB "no current message")
  | Some message =>
      if mo_sent_pos message <? mo_length message then go (Write (m_fd s))
      else upd (set_current_message None);; go DoTest
  end.

Definition write_call (fd : Z) : M W (pc * bool) :=
  s ← sock;
  match m_current_message s with
  | None => halt (UB "no current message")
  | Some message =>
      bytes ← read_slice (mo_sent_pos message) (u32 (mo_length message - mo_sent_pos message))
                (mo_data message);
      r ← os_call (sys_write fd bytes);
      match r with
      | inl n =>
          if 0 <? n then
            log (Wrote fd (take (Z.to_nat n) bytes));;
            upd (set_current_message (Some
              {| mo_length := mo_length message; mo_sent_pos := u32 (mo_sent_pos message + n);
                 mo_is_shared := mo_is_shared message; mo_data := mo_data message |}));;
            go WriteTest
          else go (Closing (CloseTest true) (ByDoSend (Val false)))
      | inr e =>
          match e with
          | EAGAIN => go (DoUnlock (Val true))
          | ECONNRESET | EPIPE => go (Closing (CloseTest true) (ByDoSend (Val false)))
          | _ => go (Closing (CloseTest true) (ByDoSend (Exn (socket_error (strerror e)))))
          end
      end
  end.

(** ** close *)

Definition close_return (k : close_caller) (r : bool) : pc :=
  match k with
  | ByApplication => Returned (Val r)
  | ByDoSend o => DoUnlock o
  end.

(** [::shutdown] with the branches on its result. *)
Definition shut_call (fd : Z) (k : close_caller) : M W (pc * bool) :=
  log (ShutDown fd);;
  i ← os_call (sys_shutdown fd);
  match i with
  | None => go (close_return k false)
  | Some e =>
      set_errno e;;
      if bool_decide (e = ENOTCONN) then go (Closing GoneFd k)
      else go (Aborted ("Socket shutdown() failed: " +:+ strerror e))
  end.

Definition close_code (at_ : close_pc) (k : close_caller) : action W :=
  match at_ with
  | CloseTest fast => Access (s ← sock;
      if bool_decide (m_state s = Connected) && negb fast then go (Closing ShutState k)
      else go (Closing FdTest k))
  | ShutState => Access (upd (set_state Shutdown);; go (Closing ShutLoad k))
  | ShutLoad => Access (s ← sock; go (Closing (Shut (m_fd s)) k))
  | Shut fd => Access (shut_call fd k)
  | GoneFd => Access (upd (set_fd (-1));; go (Closing GoneState k))
  | GoneState => Access (upd (set_state Closed);; go (Closing GoneReset k))
  | GoneReset => Access (reset_buffer;; go (close_return k true))
  | FdTest => Access (s ← sock;
      if 0 <? m_fd s then go (Closing FdState k) else go (Closing StateTest k))
  | FdState => Access (upd (set_state Closed);; go (Closing FdLoad k))
  | FdLoad => Access (s ← sock; go (Closing (FdClose (m_fd s)) k))
  | FdClose fd => Access (log (Closed_fd fd);; os_do (sys_close fd);; go (Closing FdClear k))
  | FdClear => Access (upd (set_fd (-1));; go (Closing FdReset k))
  | FdReset => Access (reset_buffer;; go (Closing NotifyLock k))
  | StateTest => Access (s ← sock;
      if bool_decide (m_state s = Closed) || bool_decide (m_state s = Unknown)
      then go (Closing NotifyLock k) else go (Aborted "Invalid state"))
  | NotifyLock => Acquire QueueMutex (Closing NotifyAll k)
  | NotifyAll => Access (mret (Closing NotifyUnlock k, true))
  | NotifyUnlock => Release QueueMutex (close_return k true)
  end.

(** ** wait_send_queue_empty *)

Definition wait_test : M W (pc * bool) :=
  must ← must_wait_send_queue;
  if must : bool then go WaitSleep else go WaitUnlock.

Definition code (p : pc) : action W :=
  match p with
  | Idle | Returned _ | Asleep | Aborted _ => Rest
  | SendCheck data len shared async => Access (send_check data len shared async)
  | SendLock data len shared async => Acquire QueueMutex (SendPush data len shared async)
  | SendPush data len shared async => Access (send_push data len shared async)
  | SendUnlock (inl _) async =>
      Release QueueMutex (if async then Returned (Val true) else DoLock)
  | SendUnlock (inr e) _ => Release QueueMutex (Returned (Exn e))
  | DoLock => Acquire SendMutex DoTest
  | DoTest => Access do_test
  | PopLock => Acquire QueueMutex Pop
  | Pop => Access pop
  | PopUnlock more => Release QueueMutex (if more then DoValid else DoUnlock (Val false))
  | DoValid => Access do_valid
  | WriteTest => Access write_test
  | Write fd => Access (write_call fd)
  | DoUnlock o => Release SendMutex (Returned o)
  | WaitLock => Acquire QueueMutex WaitTest
  | WaitTest => Access wait_test
  | WaitSleep => Sleep
  | WaitUnlock => Release QueueMutex Idle
  | Closing at_ k => close_code at_ k
  end.

(** * The machine *)

Record threads := mkThreads {
  t_world : W;
  t_owner : lock → option nat;
  t_pcs : list pc;
}.

Definition wake (p : pc) : pc := match p with Asleep => WaitLock | _ => p end.

Definition is_aborted (p : pc) : bool := match p with Aborted _ => true | _ => false end.

(** The process has ended. *)
Definition dead (t : threads) : bool := existsb is_aborted (t_pcs t).

(** The messages a step puts into the queue. *)
Definition pushed (p p' : pc) : list message_out :=
  match p, p' with SendPush _ _ _ _, SendUnlock (inl m) _ => [m] | _, _ => [] end.

Definition abort_message (o : outcome (pc * bool)) : string :=
  match o with
  | Halt (Fatal msg) | Halt (UB msg) => msg
  | _ => "terminate called"
  end.

(** One step of thread [i]; [None] when it has nothing to do or must wait for a
    mutex. *)
Definition advance (i : nat) (t : threads) : option (list message_out * threads) :=
  if dead t then None else
  p ← t_pcs t !! i;
  match code p with
  | Rest => None
  | Acquire l next =>
      match t_owner t l with
      | Some _ => None
      | None => Some ([], mkThreads (t_world t) (set_owner l (Some i) (t_owner t))
                            (<[i := next]> (t_pcs t)))
      end
  | Release l next =>
      Some ([], mkThreads (t_world t) (set_owner l None (t_owner t)) (<[i := next]> (t_pcs t)))
  | Access m =>
      match m (t_world t) with
      | (Val (next, notify), w) =>
          Some (pushed p next, mkThreads w (t_owner t)
            (<[i := next]> (if notify : bool then wake <$> t_pcs t else t_pcs t)))
      | (o, w) => Some ([], mkThreads w (t_owner t) (<[i := Aborted (abort_message o)]> (t_pcs t)))
      end
  | Sleep =>
      Some ([], mkThreads (t_world t) (set_owner QueueMutex None (t_owner t))
                  (<[i := Asleep]> (t_pcs t)))
  end.

Definition resting (p : pc) : bool :=
  match p with Idle | Returned _ => true | _ => false end.

(** A step of the system: a thread goes on, the application of an idle thread
    makes one of the calls that are [allowed], or a sleeping thread wakes up
    without having been notified (which [wait] allows). *)
Inductive tstep (allowed : call → Prop) (t : threads) : list message_out → threads → Prop :=
| tstep_run i ms t' : advance i t = Some (ms, t') → tstep allowed t ms t'
| tstep_call i p c :
    dead t = false → t_pcs t !! i = Some p → resting p = true → allowed c →
    tstep allowed t [] (mkThreads (t_world t) (t_owner t) (<[i := enter c]> (t_pcs t)))
| tstep_spurious i :
    dead t = false → t_pcs t !! i = Some Asleep →
    tstep allowed t [] (mkThreads (t_world t) (t_owner t) (<[i := WaitLock]> (t_pcs t))).

(** Runs, with the messages that were queued. *)
Inductive trun (allowed : call → Prop) (t0 : threads) : list message_out → threads → Prop :=
| trun_start : trun allowed t0 [] t0
| trun_step acc t ms t' :
    trun allowed t0 acc t → tstep allowed t ms t' → trun allowed t0 (acc ++ ms) t'.

(** [n] threads that have not called anything yet. *)
Definition idle_threads (n : nat) (w : W) : threads :=
  mkThreads w (λ _, None) (replicate n Idle).

(** Let the threads of a schedule go on in this order, for examples. *)
Fixpoint run_schedule (schedule : list nat) (t : threads) : option (list message_out * threads) :=
  match schedule with
  | [] => Some ([], t)
  | i :: rest =>
      '(ms, t') ← advance i t;
      '(ms', t'') ← run_schedule rest t';
      Some (ms ++ ms', t'')
  end.

Definition make_call (i : nat) (c : call) (t : threads) : threads :=
  mkThreads (t_world t) (t_owner t) (<[i := enter c]> (t_pcs t)).
End code.
Arguments threads : clear implicits.
