(* ===== verification/ThreadsSafe.v ===== *)
(** Threads on one socket (Threads.v): mutual exclusion, and that what reaches the
    descriptor is the queued messages, whole and in the order they were queued. *)
From S2P Require Import Prelude Machine Buffer Slicer Inet Sys TcpSocket TcpBase TcpSend EndToEnd Mutex Threads.
Local Open Scope Z_scope.

(** * Control points *)

(** A thread between acquiring and releasing a mutex. *)
Definition holds (l : lock) (p : pc) : bool :=
  match l, p with
  | SendMutex, (DoTest | PopLock | Pop | PopUnlock _ | DoValid | WriteTest | Write _ |
                DoUnlock _ | Closing _ (ByDoSend _)) => true
  | QueueMutex, (SendPush _ _ _ _ | SendUnlock _ _ | Pop | PopUnlock _ |
                 WaitTest | WaitSleep | WaitUnlock | Closing (NotifyAll | NotifyUnlock) _) => true
  | _, _ => false
  end.

(** The arrays an application may pass to [send]: as long as it says, and their
    frame fits the size field. *)
Definition sendable_array (data : list byte) (len : Z) : Prop :=
  0 ≤ len ∧ len + 4 < two32 ∧ len ≤ Z.of_nat (length data).

Definition call_ok (c : call) : Prop :=
  match c with CallSend data len _ _ => sendable_array data len | _ => True end.

(** What a control point remembers: arguments of [send], loaded descriptors. *)
Definition pc_ok (fd : Z) (p : pc) : Prop :=
  match p with
  | SendCheck data len _ _ => sendable_array data len
  | SendLock data len _ _ | SendPush data len _ _ => sendable_array data len ∧ 0 < len
  | Write f | Closing (FdClose f) _ | Closing (Shut f) _ => f = fd ∨ f = -1
  | _ => True
  end.

(** Whether [do_send] has a message in [m_current_message]. *)
Definition current_ok (p : pc) (m : option message_out) : Prop :=
  match p with
  | PopLock | Pop | PopUnlock false => m = None
  | PopUnlock true | DoValid | WriteTest | Write _ => is_Some m
  | _ => True
  end.

Section safe.
Context {Σ T : Type} `{SysLaws Σ} `{SlicerLaws T}.
Abbreviation W := (world Σ T).
Abbreviation threads := (threads Σ T).
Implicit Types (w : W) (t : threads) (p next : pc) (l : lock).

(** * The accesses *)

(** The world after the oldest message was taken from the queue, after the current
    message was dropped, and after [n] of its bytes were written. *)
Definition popped (m : message_out) (rest : list message_out) w : W :=
  mkWorld (w_os w) (w_errno w) (w_trace w)
    (set_queue rest (u64 (m_send_queue_size (w_sock w) - mo_length m))
      (set_current_message (Some m) (w_sock w))).

Definition dropped w : W :=
  mkWorld (w_os w) (w_errno w) (w_trace w) (set_current_message None (w_sock w)).

Definition advanced (n : Z) (m : message_out) : message_out :=
  {| mo_length := mo_length m; mo_sent_pos := mo_sent_pos m + n;
     mo_is_shared := mo_is_shared m; mo_data := mo_data m |}.

Definition written (fd n : Z) (m : message_out) (σ : Σ) w : W :=
  mkWorld σ (w_errno w) (w_trace w ++ [Wrote fd (take (Z.to_nat n) (rest_of m))])
    (set_current_message (Some (advanced n m)) (w_sock w)).

Definition in_system (σ : Σ) w : W := mkWorld σ (w_errno w) (w_trace w) (w_sock w).

Lemma send_push_spec data len shared async w :
  sendable_array data len → 0 < len →
  wp (send_push data len shared async) w (λ o w',
    (o = Val (SendUnlock (inr send_queue_full) async, false) ∧ w' = w ∧
     m_max_send_queue_size (w_sock w) ≤ m_send_queue_size (w_sock w)) ∨
    ∃ m, o = Val (SendUnlock (inl m) async, false) ∧ w' = enqueued m w ∧
      message_wf m ∧ 0 < mo_length m ≤ len + 4 ∧
      m_send_queue_size (w_sock w) < m_max_send_queue_size (w_sock w)).
Proof.
  intros (Hlen & H32 & Hdata) Hpos. unfold send_push. tcp_step. tcp_step. tcp_step. cbn [seq_post].
  destruct (_ <=? _) eqn:Hmax; bool_to_prop; [tcp_step; apply wp_ret; by left|].
  tcp_step. destruct shared.
  - tcp_step. cbn [seq_post]. tcp_step. unfold enqueue. tcp_step. cbn [seq_post]. apply wp_ret. right.
    eexists. split_and!; [done|done|split_and!; simpl; lia|done|simpl; lia|lia].
  - tcp_step. destruct (prepare_message_spec data len (m_slicer (w_sock w)) Hpos H32 Hdata)
      as (bs & len' & Hprep & ?).
    unfold wp at 1. rewrite Hprep. cbn [fst snd seq_post]. tcp_step. unfold enqueue. tcp_step.
    cbn [seq_post]. apply wp_ret. right. eexists.
    split_and!; [done|unfold enqueued; simpl; by destruct (w_sock w)|split_and!; simpl; lia|simpl; lia|simpl; lia|lia].
Qed.

Lemma pop_spec w :
  m_current_message (w_sock w) = None →
  wp pop w (λ o w',
    match m_send_queue (w_sock w) with
    | [] => o = Val (PopUnlock false, false) ∧ w' = w
    | m :: rest => o = Val (PopUnlock true, true) ∧ w' = popped m rest w
    end).
Proof.
  intros Hm. unfold pop, next_message. tcp_step. tcp_step. tcp_step. cbn [seq_post]. rewrite Hm.
  by destruct (m_send_queue (w_sock w)).
Qed.

Lemma write_test_spec m w :
  m_current_message (w_sock w) = Some m →
  wp write_test w (λ o w',
    if mo_sent_pos m <? mo_length m then o = Val (Write (m_fd (w_sock w)), false) ∧ w' = w
    else o = Val (DoTest, false) ∧ w' = dropped w).
Proof.
  intros Hm. unfold write_test. tcp_step. tcp_step. cbn [seq_post]. rewrite Hm.
  by destruct (mo_sent_pos m <? mo_length m).
Qed.

(** What a [write] can lead to when no byte was taken. *)
Definition write_refused next : Prop :=
  next = DoUnlock (Val true) ∨
  ∃ o, next = Closing (CloseTest true) (ByDoSend o).

Lemma write_call_spec fd m w :
  m_current_message (w_sock w) = Some m → message_wf m →
  wp (write_call fd) w (λ o w',
    ∃ next σ, o = Val (next, false) ∧
      ((write_refused next ∧ w' = in_system σ w) ∨
       ∃ n, next = WriteTest ∧ fd ≠ -1 ∧ 0 < n ≤ mo_length m - mo_sent_pos m ∧
         w' = written fd n m σ w)).
Proof.
  intros Hm (Hpos & H32 & Hlen). unfold two32, write_call in *.
  tcp_step. tcp_step. cbn [seq_post]. rewrite Hm. rewrite u32_small by (unfold two32; lia).
  tcp_step. apply wp_read_slice; [lia..|]. fold (rest_of m). cbn [seq_post].
  pose proof (length_rest_of m ltac:(split_and!; unfold two32; lia)) as Hlr.
  tcp_step. apply wp_os_call. intros [n|e] σ Hwrite; cbn [seq_post].
  - pose proof (write_bound _ _ _ _ _ Hwrite) as Hn. destruct (0 <? n) eqn:Hpn; bool_to_prop.
    + tcp_step. tcp_step. cbn [seq_post]. tcp_step. tcp_step. cbn [seq_post]. apply wp_ret.
      eexists _, σ. split; [done|]. right. exists n. split_and!; [done| |lia|lia|].
      * intros ->. by apply write_bad_fd in Hwrite.
      * rewrite u32_small by (unfold two32; lia). done.
    + apply wp_ret. eexists _, σ. split; [done|]. left. split; [right; by eexists|done].
  - destruct e; apply wp_ret; (eexists _, σ; split; [done|]; left; split; [|done]);
      first [by left|right; by eexists].
Qed.

(** * What every access keeps *)

(** The socket of a connection on [fd], or of one that has been closed. *)
Definition sock_ok (fd : Z) w : Prop :=
  send_wf (w_sock w) ∧ (m_fd (w_sock w) = fd ∨ m_fd (w_sock w) = -1).

(** Bytes written and bytes to be written. *)
Definition stream (fd : Z) w : list byte := wire fd (w_trace w) ++ outbox (w_sock w).

Definition access_post (fd : Z) p w (o : outcome (pc * bool)) w' : Prop :=
  ∃ next notify, o = Val (next, notify) ∧
    (is_aborted next = false → ∀ l, holds l next = holds l p) ∧ pc_ok fd next ∧
    (holds SendMutex p = false →
       m_current_message (w_sock w') = m_current_message (w_sock w)) ∧
    (holds SendMutex p = true → current_ok next (m_current_message (w_sock w'))) ∧
    sock_ok fd w' ∧ stream fd w' = stream fd w ++ concat (rest_of <$> pushed p next).

(** Steps that touch neither the data to be sent nor the wire. *)
Definition quiet w w' : Prop :=
  m_send_queue (w_sock w') = m_send_queue (w_sock w) ∧
  m_current_message (w_sock w') = m_current_message (w_sock w) ∧
  m_send_queue_size (w_sock w') = m_send_queue_size (w_sock w) ∧
  m_max_send_queue_size (w_sock w') = m_max_send_queue_size (w_sock w) ∧
  (m_fd (w_sock w') = m_fd (w_sock w) ∨ m_fd (w_sock w') = -1) ∧
  (∀ fd, wire fd (w_trace w') = wire fd (w_trace w)).

Lemma quiet_refl w : quiet w w.
Proof. unfold quiet. split_and!; [done..|by left|done]. Qed.

Lemma quiet_ok fd w w' : quiet w w' → sock_ok fd w → sock_ok fd w' ∧ stream fd w' = stream fd w.
Proof.
  unfold sock_ok, send_wf, stream, outbox. intros (-> & -> & -> & _ & Hfd & ->) [Hwf Hf].
  split; [|done]. split; [done|]. destruct Hfd as [-> | ->]; [done|by right].
Qed.

(** A quiet step to a control point that needs no message. *)
Lemma quiet_post fd p w next notify w' :
  quiet w w' → sock_ok fd w →
  (is_aborted next = false → ∀ l, holds l next = holds l p) → pc_ok fd next →
  (holds SendMutex p = true → current_ok next (m_current_message (w_sock w))) →
  pushed p next = [] →
  access_post fd p w (Val (next, notify)) w'.
Proof.
  intros Hq Hok Hh Hpc Hc Hp. destruct (quiet_ok fd w w' Hq Hok) as [Hok' Hs].
  destruct Hq as (_ & Hcm & _). exists next, notify. rewrite Hp. simpl. rewrite Hcm, app_nil_r.
  by split_and!.
Qed.

Lemma close_access fd at_ k m w :
  sock_ok fd w → pc_ok fd (Closing at_ k) → close_code at_ k = Access m →
  wp m w (λ o w', ∃ next notify, o = Val (next, notify) ∧ quiet w w' ∧
    (is_aborted next = false → ∀ l, holds l next = holds l (Closing at_ k)) ∧ pc_ok fd next ∧
    (∀ cm, current_ok next cm) ∧ pushed (Closing at_ k) next = []).
Proof.
  intros [_ Hfd] Hpc Hcode. destruct at_; simpl in Hcode; try discriminate; injection Hcode as <-;
    unfold shut_call, reset_buffer; repeat first [tcp_step|case_bool_decide];
    (eexists _, _; split; [done|]; split;
      [unfold quiet; simpl; rewrite ?wire_app; split_and!;
         first [done|by left|by right|intros; by rewrite wire_app, app_nil_r]|]);
    destruct k; simpl in *; split_and!; try done; intros _ [|]; done.
Qed.

Lemma popped_ok fd m rest w :
  sock_ok fd w → m_current_message (w_sock w) = None → m_send_queue (w_sock w) = m :: rest →
  sock_ok fd (popped m rest w) ∧ stream fd (popped m rest w) = stream fd w.
Proof.
  intros [(_ & Hq & Hsz) Hfd] Hcm Hqe. rewrite Hqe in Hq, Hsz. inversion_clear Hq as [|?? Hm Hrest].
  unfold sock_ok, send_wf, stream, outbox. simpl. rewrite Hcm, Hqe, Hsz. split_and!; try done.
  simpl. rewrite u64_sub_l. f_equal. lia.
Qed.

Lemma dropped_ok fd m w :
  sock_ok fd w → m_current_message (w_sock w) = Some m → mo_length m ≤ mo_sent_pos m →
  sock_ok fd (dropped w) ∧ stream fd (dropped w) = stream fd w.
Proof.
  intros [(Hm & Hq & Hsz) Hfd] Hcm Hend. rewrite Hcm in Hm. pose proof (length_rest_of m Hm).
  unfold sock_ok, send_wf, stream, outbox. simpl. rewrite Hcm. split_and!; try done.
  replace (rest_of m) with (@nil byte); [done|]. symmetry. apply length_zero_iff_nil.
  destruct Hm. lia.
Qed.

Lemma written_ok fd n m σ w :
  sock_ok fd w → m_current_message (w_sock w) = Some m → 0 < n ≤ mo_length m - mo_sent_pos m →
  sock_ok fd (written fd n m σ w) ∧ stream fd (written fd n m σ w) = stream fd w.
Proof.
  intros [(Hm & Hq & Hsz) Hfd] Hcm Hn. rewrite Hcm in Hm.
  pose proof (rest_of_advance m n Hm ltac:(lia)) as Hadv. fold (advanced n m) in Hadv.
  unfold sock_ok, send_wf, stream, outbox. simpl. rewrite Hcm, wire_app. simpl.
  rewrite Z.eqb_refl, app_nil_r. split_and!; try done.
  - destruct Hm as (? & ? & ?). unfold message_wf. simpl. lia.
  - rewrite <- !app_assoc. f_equal. rewrite Hadv at 2. by rewrite <- !app_assoc.
Qed.

Lemma enqueued_ok fd m w :
  sock_ok fd w → message_wf m →
  sock_ok fd (enqueued m w) ∧ stream fd (enqueued m w) = stream fd w ++ rest_of m.
Proof.
  intros [Hwf Hfd] Hm. split; [split; [by apply enqueued_wf|done]|].
  unfold stream. by rewrite enqueued_outbox, app_assoc.
Qed.

Lemma access_safe fd p m w :
  sock_ok fd w → pc_ok fd p →
  (holds SendMutex p = true → current_ok p (m_current_message (w_sock w))) →
  code p = Access m → wp m w (access_post fd p w).
Proof.
  intros Hok Hpc Hcur Hcode.
  destruct p as [| | d len sh a| | d len sh a|[]| | | | | | | |f| | | | | | |at_ k|];
    try discriminate; injection Hcode as <- || simpl in Hcode;
    try specialize (Hcur eq_refl); simpl in Hpc, Hcur.
  - unfold send_check. destruct (len =? 0) eqn:Hlen; bool_to_prop; [|tcp_step; tcp_step; cbn [seq_post]; tcp_step];
      apply wp_ret; (apply quiet_post; try done; try apply quiet_refl).
    split; [done|]. destruct Hpc. lia.
  - destruct Hpc. eapply wp_mono; [by apply send_push_spec|].
    intros o w' [(-> & -> & _)|(m' & -> & -> & Hm & _)].
    { by apply quiet_post; try apply quiet_refl. }
    destruct (enqueued_ok fd m' w Hok Hm) as [Hok' Hs]. eexists _, _. split_and!; try done.
    rewrite Hs. simpl. by rewrite app_nil_r.
  - unfold do_test. tcp_step. tcp_step. cbn [seq_post].
    destruct (m_current_message (w_sock w)) eqn:Hcm; apply wp_ret;
      (apply quiet_post; try done; try apply quiet_refl); intros _;
      rewrite Hcm; first [done|by eexists].
  - eapply wp_mono; [by apply pop_spec|]. intros o w'.
    destruct (m_send_queue (w_sock w)) as [|m' rest] eqn:Hq; intros [-> ->].
    { by apply quiet_post; try apply quiet_refl. }
    destruct (popped_ok fd m' rest w Hok Hcur Hq) as [Hok' Hs]. eexists _, _.
    split_and!; try done; try by eexists. by rewrite Hs, app_nil_r.
  - unfold do_valid. tcp_step. tcp_step. cbn [seq_post]. tcp_step; apply wp_ret;
      (apply quiet_post; try done; apply quiet_refl).
  - destruct Hcur as [m' Hm]. eapply wp_mono; [by apply write_test_spec|]. intros o w'.
    destruct (_ <? _) eqn:Hlt; bool_to_prop; intros [-> ->].
    { apply quiet_post; try done; [apply quiet_refl|apply Hok|]. intros _. rewrite Hm. by eexists. }
    destruct (dropped_ok fd m' w Hok Hm Hlt) as [Hok' Hs]. eexists _, _.
    split_and!; try done; try by eexists. by rewrite Hs, app_nil_r.
  - destruct Hcur as [m' Hm]. pose proof Hok as [(Hwf & _) _]. rewrite Hm in Hwf.
    eapply wp_mono; [by apply write_call_spec|].
    intros o w' (next & σ & -> & [[Hr ->]|(n & -> & Hf & Hn & ->)]).
    + apply quiet_post; [by unfold quiet; simpl; split_and!; [..|left|]|done| | | |];
        by destruct Hr as [-> |[? ->]]; try intros _ [].
    + destruct Hpc as [-> | ->]; [|done]. destruct (written_ok fd n m' σ w Hok Hm Hn) as [Hok' Hs].
      eexists _, _. split_and!; try done; try by eexists. by rewrite Hs, app_nil_r.
  - unfold wait_test, must_wait_send_queue. tcp_step. tcp_step. tcp_step. cbn [seq_post].
    apply wp_ret. cbn [seq_post]. destruct (_ && _); apply wp_ret;
      (apply quiet_post; try done; apply quiet_refl).
  - eapply wp_mono; [by apply (close_access fd at_ k)|].
    intros o w' (next & notify & -> & Hq & Hh & Hp & Hc & Hpu). by apply quiet_post.
Qed.

(** * Steps of the machine *)

(** [advance] as a relation. *)
Inductive thread_step (i : nat) (p : pc) t : list message_out → threads → Prop :=
| ts_acquire l next :
    code p = Acquire l next → t_owner t l = None →
    thread_step i p t [] (mkThreads (t_world t) (set_owner l (Some i) (t_owner t))
      (<[i := next]> (t_pcs t)))
| ts_release l next :
    code p = Release l next →
    thread_step i p t [] (mkThreads (t_world t) (set_owner l None (t_owner t))
      (<[i := next]> (t_pcs t)))
| ts_access m next (notify : bool) w :
    code p = Access m → m (t_world t) = (Val (next, notify), w) →
    thread_step i p t (pushed p next) (mkThreads w (t_owner t)
      (<[i := next]> (if notify then wake <$> t_pcs t else t_pcs t)))
| ts_abort m o w :
    code p = Access m → m (t_world t) = (o, w) → (∀ r, o ≠ Val r) →
    thread_step i p t [] (mkThreads w (t_owner t)
      (<[i := Aborted (abort_message o)]> (t_pcs t)))
| ts_sleep :
    code p = Sleep →
    thread_step i p t [] (mkThreads (t_world t) (set_owner QueueMutex None (t_owner t))
      (<[i := Asleep]> (t_pcs t))).

Lemma advance_step i t ms t' :
  advance i t = Some (ms, t') →
  dead t = false ∧ ∃ p, t_pcs t !! i = Some p ∧ thread_step i p t ms t'.
Proof.
  unfold advance. destruct (dead t) eqn:Hd; [done|]. intros (p & Hp & Hs)%bind_Some.
  split; [done|]. exists p. split; [done|]. destruct (code p) eqn:Hc; [done| | | |].
  - destruct (t_owner t l) eqn:Ho; [done|]. injection Hs as <- <-. by constructor.
  - injection Hs as <- <-. by constructor.
  - destruct (m (t_world t)) as [[[next notify]|e|h] w] eqn:Hm; injection Hs as <- <-;
      [by eapply ts_access|by eapply (ts_abort i p t m (Exn e))|by eapply (ts_abort i p t m (Halt h))].
  - injection Hs as <- <-. by constructor.
Qed.

Lemma dead_false t : dead t = false ↔ ∀ i p, t_pcs t !! i = Some p → is_aborted p = false.
Proof.
  unfold dead. split.
  - intros Hd i p Hp. destruct (is_aborted p) eqn:Ha; [|done]. rewrite <- Hd. symmetry.
    apply existsb_exists. exists p. split; [|done]. apply list_elem_of_In. by eapply list_elem_of_lookup_2.
  - intros Hall. destruct (existsb _ _) eqn:He; [|done].
    apply existsb_exists in He as (p & [i Hi]%list_elem_of_In%list_elem_of_lookup & Ha).
    by rewrite (Hall i p Hi) in Ha.
Qed.

(** Where the threads are after thread [i] has moved to [next]. *)
Definition after (i : nat) next (notify : bool) (pcs : list pc) : list pc :=
  <[i := next]> (if notify then wake <$> pcs else pcs).

Lemma after_lookup i next (notify : bool) pcs j p :
  after i next notify pcs !! j = Some p →
  (j = i ∧ p = next) ∨
  (j ≠ i ∧ ∃ q, pcs !! j = Some q ∧ p = if notify then wake q else q).
Proof.
  unfold after. intros Hp. destruct (decide (j = i)) as [->|Hne].
  - apply list_lookup_insert_Some in Hp as [(_ & -> & _)|[? _]]; [by left|done].
  - right. split; [done|]. rewrite list_lookup_insert_ne in Hp by done.
    destruct notify; [|by eauto]. rewrite list_lookup_fmap in Hp.
    destruct (pcs !! j) as [q|]; [|done]. injection Hp as <-. by exists q.
Qed.

(** Being woken up changes a thread that sleeps, and no other. *)
Lemma woken (notify : bool) q :
  (if notify then wake q else q) = q ∨ (notify = true ∧ q = Asleep).
Proof. destruct notify; [|by left]. destruct q; simpl; auto. Qed.

Lemma after_self i next notify pcs p :
  pcs !! i = Some p → after i next notify pcs !! i = Some next.
Proof.
  intros Hp. unfold after. apply list_lookup_insert_eq. destruct notify; rewrite ?length_fmap;
    by eapply lookup_lt_Some.
Qed.

Lemma holds_wake l p : holds l (wake p) = holds l p.
Proof. by destruct l, p. Qed.

Lemma after_holds l i next notify pcs j :
  j ≠ i → holds l <$> after i next notify pcs !! j = holds l <$> pcs !! j.
Proof.
  intros Hne. unfold after. rewrite list_lookup_insert_ne by done. destruct notify; [|done].
  rewrite list_lookup_fmap. destruct (pcs !! j); [|done]. simpl. by rewrite holds_wake.
Qed.

(** * Mutual exclusion *)

Definition locks_ok t : Prop := lock_inv holds (t_owner t) (t_pcs t).

Lemma locks_ok_after t w owner i p next notify :
  locks_ok t → t_pcs t !! i = Some p →
  (∀ l, owner l = Some i ↔ holds l next = true) →
  (∀ l j, j ≠ i → owner l = Some j ↔ t_owner t l = Some j) →
  locks_ok (mkThreads w owner (after i next notify (t_pcs t))).
Proof.
  intros Hinv Hp Hself Hother. apply (lock_inv_move holds (t_owner t) (t_pcs t) _ _ i next); try done.
  - by eapply after_self.
  - intros l j Hne. by apply after_holds.
Qed.

(** The moves on a mutex: what they change, and what they keep. *)
Definition lock_move (fd : Z) p next : Prop :=
  is_aborted next = false ∧ (pc_ok fd p → pc_ok fd next) ∧
  (∀ cm, current_ok p cm → holds SendMutex p = true → current_ok next cm).

Lemma code_locks fd p :
  match code (Σ := Σ) (T := T) p with
  | Acquire l next => lock_move fd p next ∧ holds l p = false ∧
      (l = SendMutex → next = DoTest) ∧
      ∀ l', holds l' next = if decide (l' = l) then true else holds l' p
  | Release l next => lock_move fd p next ∧ holds l p = true ∧
      ∀ l', holds l' next = if decide (l' = l) then false else holds l' p
  | Sleep => p = WaitSleep
  | _ => True
  end.
Proof.
  unfold lock_move.
  destruct p as [| | | | |[|] []| | | | |[]| | | | | | | | | |[] []|]; simpl; try done;
    split_and!; try done; by intros [|].
Qed.

Definition tinv (fd : Z) t : Prop :=
  sock_ok fd (t_world t) ∧
  (dead t = false → locks_ok t ∧
    ∀ i p, t_pcs t !! i = Some p → pc_ok fd p ∧
      (holds SendMutex p = true → current_ok p (m_current_message (w_sock (t_world t))))).

(** Thread [i] has moved: what has to be shown about its new control point and
    about the message in progress. *)
Lemma tinv_after fd t i p next notify w owner :
  tinv fd t → dead t = false → t_pcs t !! i = Some p → sock_ok fd w →
  (is_aborted next = false →
    pc_ok fd next ∧ (holds SendMutex next = true → current_ok next (m_current_message (w_sock w))) ∧
    (holds SendMutex p = false →
       m_current_message (w_sock w) = m_current_message (w_sock (t_world t))) ∧
    (∀ l, owner l = Some i ↔ holds l next = true) ∧
    (∀ l j, j ≠ i → owner l = Some j ↔ t_owner t l = Some j)) →
  tinv fd (mkThreads w owner (after i next notify (t_pcs t))).
Proof.
  intros [_ Hinv] Hd Hp Hok Hnext. destruct (Hinv Hd) as [Hlock Hpcs]. split; [done|].
  intros Hd'. rewrite dead_false in Hd'.
  destruct Hnext as (Hpc & Hcur & Hsame & Hself & Hother);
    [by eapply Hd', after_self|].
  split; [by eapply locks_ok_after|]. cbn [t_pcs t_world].
  intros j q [[-> ->]|(Hne & q' & Hq' & Hq)]%after_lookup; [done|].
  destruct (Hpcs j q' Hq') as [Hpc' Hcur']. subst q. destruct (woken notify q') as [-> |(-> & ->)]; [|done].
  split; [done|]. intros Hh. rewrite Hsame; [by apply Hcur'|].
  apply not_true_iff_false. intros Hh'. by apply Hne, (holds_unique holds _ _ _ _ _ _ _ Hlock Hq' Hp Hh).
Qed.

Lemma thread_step_safe fd i p t ms t' :
  tinv fd t → dead t = false → t_pcs t !! i = Some p → thread_step i p t ms t' →
  tinv fd t' ∧ stream fd (t_world t') = stream fd (t_world t) ++ concat (rest_of <$> ms).
Proof.
  intros Hinv Hd Hp Hstep. pose proof Hinv as [Hok Hrest].
  destruct (Hrest Hd) as [Hlock Hpcs]. destruct (Hpcs i p Hp) as [Hpc Hcur].
  pose proof (code_locks fd p) as Hcl.
  pose proof (λ l, holds_owner holds _ _ l i p Hlock Hp) as Hown.
  destruct Hstep as [l next Hc Ho|l next Hc|m next notify w Hc Hm|m o w Hc Hm Hno|Hc]; rewrite ?Hc in Hcl.
  - destruct Hcl as ((_ & Hpc' & Hcur') & Hh & Hd' & Hl). cbn. rewrite app_nil_r. split; [|done].
    apply (tinv_after fd t i p next false); [done..|]. intros _.
    split_and!; [by apply Hpc'| |done|by eapply set_owner_acquire..].
    intros Hs. rewrite Hl in Hs. destruct (decide _) as [<-|Hne]; [by rewrite (Hd' eq_refl)|auto].
  - destruct Hcl as ((_ & Hpc' & Hcur') & Hh & Hl). cbn. rewrite app_nil_r. split; [|done].
    apply (tinv_after fd t i p next false); [done..|]. intros _.
    split_and!; [by apply Hpc'| |done|by eapply set_owner_release..].
    intros Hs. rewrite Hl in Hs. destruct (decide _); [done|auto].
  - destruct (wp_run_post _ _ _ _ _ (access_safe fd p m _ Hok Hpc Hcur Hc) Hm)
      as (? & ? & [= <- <-] & Hh & Hpc' & Hsame & Hcur' & Hok' & Hs).
    split; [|exact Hs]. apply (tinv_after fd t i p next notify); [done..|].
    intros Hna. specialize (Hh Hna). split_and!; [done| |done| |done].
    + intros Hs'. apply Hcur'. by rewrite <- Hh.
    + intros l. rewrite Hh. apply Hown.
  - destruct (wp_run_post _ _ _ _ _ (access_safe fd p m _ Hok Hpc Hcur Hc) Hm) as (? & ? & -> & _).
    by destruct (Hno _ eq_refl).
  - subst p. cbn. rewrite app_nil_r. split; [|done].
    apply (tinv_after fd t i WaitSleep Asleep false); [done..|]. intros _.
    assert (∀ l, holds l Asleep = if decide (l = QueueMutex) then false else holds l WaitSleep) as Hl
      by (by intros []).
    destruct (set_owner_release holds QueueMutex i (t_owner t) WaitSleep Asleep) as [Hs Ho]; [done..|].
    by split_and!.
Qed.

(** A thread that holds no mutex goes to another control point without one. *)
Lemma tinv_move fd t i p next :
  tinv fd t → dead t = false → t_pcs t !! i = Some p →
  (∀ l, holds l p = false) → (∀ l, holds l next = false) → pc_ok fd next →
  tinv fd (mkThreads (t_world t) (t_owner t) (<[i := next]> (t_pcs t))).
Proof.
  intros Hinv Hd Hp Hh Hh' Hpc. apply (tinv_after fd t i p next false); [done..|apply Hinv|].
  destruct (proj2 Hinv Hd) as [Hlock _].
  intros _. split_and!; [done|by rewrite Hh'|done| |done].
  intros l. pose proof (holds_owner holds _ _ l i p Hlock Hp) as Ho. by rewrite Hh, <- (Hh' l) in Ho.
Qed.

Lemma tstep_safe (allowed : call → Prop) fd t ms t' :
  (∀ c, allowed c → call_ok c) → tinv fd t → tstep allowed t ms t' →
  tinv fd t' ∧ stream fd (t_world t') = stream fd (t_world t) ++ concat (rest_of <$> ms).
Proof.
  intros Hall Hinv [i ms' t'' (Hd & p & Hp & Hs)%advance_step|i p c Hd Hp Hr Hc|i Hd Hp].
  - by eapply thread_step_safe.
  - cbn. rewrite app_nil_r. split; [|done]. apply Hall in Hc.
    eapply tinv_move; [done..| | |]; [by destruct p; destruct l|by intros []; destruct c|by destruct c].
  - cbn. rewrite app_nil_r. split; [|done].
    eapply tinv_move; [done..| | |]; by try intros [].
Qed.

Lemma tinv_idle fd n w : sock_ok fd w → tinv fd (idle_threads n w).
Proof.
  intros Hok. split; [done|]. intros _.
  assert (∀ i p, t_pcs (idle_threads n w) !! i = Some p → p = Idle) as Hidle
    by (intros i p [-> _]%lookup_replicate_1; done).
  split; [|by intros i p ->%Hidle].
  apply lock_inv_start. intros l p [i Hi]%list_elem_of_lookup. apply Hidle in Hi as ->. by destruct l.
Qed.

Lemma trun_safe (allowed : call → Prop) fd n w acc t :
  (∀ c, allowed c → call_ok c) → sock_ok fd w → trun allowed (idle_threads n w) acc t →
  tinv fd t ∧ stream fd (t_world t) = stream fd w ++ concat (rest_of <$> acc).
Proof.
  intros Hall Hok Hrun. induction Hrun as [|acc t ms t' _ [Hinv Hs] Hstep].
  - split; [by apply tinv_idle|by rewrite app_nil_r].
  - destruct (tstep_safe allowed fd t ms t' Hall Hinv Hstep) as [Hinv' Hs']. split; [done|].
    by rewrite Hs', Hs, <- app_assoc, <- concat_app, <- fmap_app.
Qed.

(** C6: whatever the number of threads that call [send], [do_send],
    [wait_send_queue_empty] and [close] on a socket, and however their steps
    interleave: the bytes on the wire followed by the bytes still to be written
    are exactly the messages that were queued, each in one piece and in the
    order in which they entered the queue; the size of the queue stays accounted
    for; and no two threads are ever inside the same mutex. *)
Theorem threads_send_in_order n fd w acc t :
  send_wf (w_sock w) → m_fd (w_sock w) = fd → trun call_ok (idle_threads n w) acc t →
  wire fd (w_trace (t_world t)) ++ outbox (w_sock (t_world t)) =
    wire fd (w_trace w) ++ outbox (w_sock w) ++ concat (rest_of <$> acc) ∧
  m_send_queue_size (w_sock (t_world t)) =
    u64 (queued_bytes (m_send_queue (w_sock (t_world t)))) ∧
  (dead t = false → ∀ l i j p q, t_pcs t !! i = Some p → t_pcs t !! j = Some q →
    holds l p = true → holds l q = true → i = j).
Proof.
  intros Hwf Hfd Hrun. assert (sock_ok fd w) as Hok by (split; [done|by left]).
  destruct (trun_safe call_ok fd n w acc t (λ _ Hc, Hc) Hok Hrun) as [[[Hwf' _] Hinv] Hs].
  unfold stream in Hs. rewrite Hs, <- app_assoc. split_and!; [done|apply Hwf'|].
  intros Hd l i j p q Hp Hq. destruct (Hinv Hd) as [Hlock _]. by apply (holds_unique holds _ _ l _ _ _ _ Hlock).
Qed.
End safe.
