(* ===== verification/ThreadsLive.v ===== *)
(** Threads on one socket (Threads.v): no deadlock, no lost wake-up of
    [wait_send_queue_empty], and that calls end. *)
From stdpp Require Import relations.
From S2P Require Import Prelude Machine Buffer Slicer Inet Sys TcpSocket TcpBase TcpSend EndToEnd Mutex Threads.
From S2P Require Import ThreadsSafe.
Local Open Scope Z_scope.

Section live.
Context {Σ T : Type} `{SysLaws Σ} `{SlicerLaws T}.
Abbreviation W := (world Σ T).
Abbreviation threads := (threads Σ T).
Implicit Types (w : W) (t : threads) (p next : pc) (l : lock).

(** * No deadlock *)

(** Nothing is left to do: the call has returned, or the thread sleeps. *)
Definition at_rest p : bool := match p with Asleep => true | _ => resting p end.

(** A thread that is not at rest goes on unless it waits for a mutex. *)
Lemma can_go_on i p t :
  dead t = false → t_pcs t !! i = Some p → at_rest p = false →
  (∀ l next, code (Σ := Σ) (T := T) p = Acquire l next → t_owner t l = None) →
  ∃ ms t', advance i t = Some (ms, t').
Proof.
  intros Hd Hp Hr Hfree. unfold advance. rewrite Hd, Hp. simpl.
  destruct (code p) as [|l next|l next|m|] eqn:Hc; [|rewrite (Hfree l next eq_refl)| |
    destruct (m (t_world t)) as [[[next notify]|e|h] w]|]; eauto.
  assert (is_aborted p = false) by by eapply dead_false.
  by destruct p as [| | | | |[] | | | | | | | | | | | | | | |[]|].
Qed.

(** The owner of [m_send_queue_mutex] never waits; the owner of [m_send_mutex]
    waits for nothing else. *)
Lemma holder_waits p l next :
  code (Σ := Σ) (T := T) p = Acquire l next →
  holds QueueMutex p = false ∧ (holds SendMutex p = true → l = QueueMutex).
Proof. by destruct p as [| | | | |[] | | | | | | | | | | | | | | |[]|]; intros [= <- _]. Qed.

Lemma holds_not_rest l p : holds l p = true → at_rest p = false.
Proof. by destruct l, p. Qed.

Lemma threads_progress fd t :
  tinv fd t → dead t = false →
  (∃ i ms t', advance i t = Some (ms, t')) ∨ Forall (λ p, at_rest p = true) (t_pcs t).
Proof.
  intros [_ Hinv] Hd. destruct (Hinv Hd) as [Hlock _].
  destruct (lock_free holds _ _ QueueMutex Hlock) as [Hq|(i & p & Hp & Hh)].
  2:{ left. exists i. apply (can_go_on i p); [done..|by eapply holds_not_rest|].
      intros l next Hc. apply holder_waits in Hc as [Hc _]. congruence. }
  destruct (lock_free holds _ _ SendMutex Hlock) as [Hs|(i & p & Hp & Hh)].
  2:{ left. exists i. apply (can_go_on i p); [done..|by eapply holds_not_rest|].
      intros l next Hc. apply holder_waits in Hc as [_ Hc]. by rewrite Hc. }
  destruct (decide (Forall (λ p, at_rest p = true) (t_pcs t))) as [|Hnot]; [by right|left].
  apply not_Forall_Exists in Hnot; [|apply _].
  apply Exists_exists in Hnot as (p & [i Hi]%list_elem_of_lookup & Hr).
  exists i. apply (can_go_on i p); [done..|by apply not_true_iff_false|]. by intros [].
Qed.

(** * What waiting, failing and ending depend on

    From here on nobody calls [close(false)]: the closes are those of [do_send],
    of [receive] and of the destructor. *)
Definition fast_call (c : call) : Prop :=
  match c with CallClose fast => fast = true | _ => call_ok c end.

Definition dormant_fd w : Prop :=
  m_fd (w_sock w) ≤ 0 → m_state (w_sock w) = Closed ∨ m_state (w_sock w) = Unknown.

(** The queue is never larger than its limit and one message. *)
Definition queue_ok w : Prop :=
  Forall (λ m, 0 < mo_length m) (m_send_queue (w_sock w)) ∧
  0 ≤ m_max_send_queue_size (w_sock w) ≤ two64 - two32 ∧
  queued_bytes (m_send_queue (w_sock w)) < m_max_send_queue_size (w_sock w) + two32.

(** The control points of a close that is not graceful, with what is known of the
    socket there. *)
Definition pc_fast w p : Prop :=
  match p with
  | Closing (CloseTest false | ShutState | ShutLoad | Shut _ | GoneFd | GoneState | GoneReset) _ => False
  | Closing (FdLoad | FdClose _ | FdClear) _ => m_state (w_sock w) = Closed
  | Closing StateTest _ => m_fd (w_sock w) ≤ 0
  | _ => True
  end.

(** A closer that has yet to notify, and a thread that [wait] has committed to
    sleep. *)
Definition notifier p : bool :=
  match p with Closing (FdReset | NotifyLock | NotifyAll) _ => true | _ => false end.

Definition sleeper p : bool := match p with WaitSleep | Asleep => true | _ => false end.

(** The connection can only be lost. *)
Definition decays w w' : Prop :=
  (m_state (w_sock w') = m_state (w_sock w) ∨ m_state (w_sock w') = Closed) ∧
  (m_fd (w_sock w') = m_fd (w_sock w) ∨ m_fd (w_sock w') = -1).

Lemma pc_fast_decays w w' p : decays w w' → pc_fast w p → pc_fast w' p.
Proof.
  intros [Hst Hfd]. destruct p as [| | | | | | | | | | | | | | | | | | | |[[]| | | | | | | | | | | | | | | |]|];
    simpl; try done; intros; destruct Hst, Hfd; try congruence; lia.
Qed.

(** ** The steps a call has left

    [n] threads can be sleeping, and waking one of them costs three steps, so
    that [notify_all] and the messages that cause it are charged for. *)
Definition message_rank (m : message_out) : nat := 2 * Z.to_nat (mo_length m - mo_sent_pos m).

Definition pop_rank (n : nat) : nat := 6 + 3 * n.

Fixpoint queue_rank (n : nat) (q : list message_out) : nat :=
  match q with [] => 0 | m :: q' => pop_rank n + message_rank m + queue_rank n q' end.

Definition load (n : nat) w : nat :=
  match m_current_message (w_sock w) with Some m => 6 + message_rank m | None => 0 end +
  queue_rank n (m_send_queue (w_sock w)).

Definition caller_rank (k : close_caller) : nat :=
  match k with ByApplication => 0 | ByDoSend _ => 1 end.

Definition close_rank (n : nat) (at_ : close_pc) : nat :=
  match at_ with
  | NotifyUnlock | GoneReset => 1
  | NotifyAll => 2 + 3 * n
  | NotifyLock => 3 + 3 * n
  | FdReset | StateTest => 4 + 3 * n
  | FdClear => 5 + 3 * n
  | FdClose _ => 6 + 3 * n
  | FdLoad => 7 + 3 * n
  | FdState => 8 + 3 * n
  | FdTest => 9 + 3 * n
  | CloseTest _ => 10 + 3 * n
  | GoneState => 2
  | GoneFd => 3
  | Shut _ => 4
  | ShutLoad => 5
  | ShutState => 6
  end.

Definition pc_rank (n : nat) p : nat :=
  match p with
  | Idle | Returned _ | Asleep | Aborted _ => 0
  | WaitSleep | WaitUnlock | DoUnlock _ => 1
  | WaitTest | PopUnlock false => 2
  | WaitLock => 3
  | Closing at_ k => caller_rank k + close_rank n at_
  | Write _ => 12 + 3 * n
  | WriteTest => 13 + 3 * n
  | DoValid => 14 + 3 * n
  | PopUnlock true => 15 + 3 * n
  | Pop => 16 + 3 * n
  | PopLock => 17 + 3 * n
  | DoTest => 18 + 3 * n
  | DoLock => 19 + 3 * n
  | SendUnlock _ _ => 20 + 3 * n
  | SendPush _ len _ _ => 21 + 3 * n + pop_rank n + 2 * Z.to_nat (len + 4)
  | SendLock _ len _ _ => 22 + 3 * n + pop_rank n + 2 * Z.to_nat (len + 4)
  | SendCheck _ len _ _ => 23 + 3 * n + pop_rank n + 2 * Z.to_nat (len + 4)
  end%nat.

Definition total_load t : nat :=
  sum_list_with (pc_rank (length (t_pcs t))) (t_pcs t) + load (length (t_pcs t)) (t_world t).

(** ** What an access keeps and what it costs *)

Definition live_post (n : nat) p w (o : outcome (pc * bool)) w' : Prop :=
  ∃ next notify, o = Val (next, notify) ∧ is_aborted next = false ∧
    decays w w' ∧ queue_ok w' ∧ dormant_fd w' ∧ pc_fast w' next ∧
    (notify = true → holds QueueMutex p = true) ∧
    (notify = true ∨ (0 < m_send_queue_size (w_sock w) → 0 < m_send_queue_size (w_sock w'))) ∧
    (m_fd (w_sock w') = m_fd (w_sock w) ∨ notifier next = true) ∧
    (notifier p = true → notify = true ∨ notifier next = true) ∧
    (sleeper next = true → 0 < m_send_queue_size (w_sock w') ∧ 0 < m_fd (w_sock w')) ∧
    (pc_rank n next + load n w' + (if notify then 3 * n else 0) < pc_rank n p + load n w)%nat.

Lemma decays_refl w : decays w w.
Proof. split; by left. Qed.

(** The common case: a step inside a call that leaves queue and connection alone. *)
Lemma live_still n p w next w' :
  queue_ok w → dormant_fd w →
  quiet w w' → m_fd (w_sock w') = m_fd (w_sock w) → m_state (w_sock w') = m_state (w_sock w) →
  is_aborted next = false → pc_fast w next → notifier p = false ∨ notifier next = true →
  sleeper next = false → (pc_rank n next < pc_rank n p)%nat →
  live_post n p w (Val (next, false)) w'.
Proof.
  intros Hq Hdo (Hqe & Hcm & Hsz & Hmx & _) Hfd Hst Hna Hpc Hn Hs Hrk.
  assert (decays w w') as Hdec by (split; by left).
  exists next, false. unfold queue_ok, dormant_fd, load. rewrite Hqe, Hcm, Hsz, Hmx, Hfd, Hst, Hs.
  split_and!; try done; [apply Hq..|by eapply pc_fast_decays|by right|by left| |lia].
  intros Hn'. destruct Hn; [congruence|by right].
Qed.

Lemma queue_size_eq fd w :
  sock_ok fd w → queue_ok w → m_send_queue_size (w_sock w) = queued_bytes (m_send_queue (w_sock w)).
Proof.
  intros [(_ & Hq & ->) _] (Hpos & Hmx & Hb). unfold two64, two32 in *. apply u64_small.
  assert (0 ≤ queued_bytes (m_send_queue (w_sock w))); [|lia].
  clear -Hpos. induction Hpos; simpl; lia.
Qed.

Lemma queue_rank_snoc n q m :
  (queue_rank n (q ++ [m]) = queue_rank n q + (pop_rank n + message_rank m))%nat.
Proof. induction q as [|x q IH]; cbn [queue_rank app]; lia. Qed.

Lemma send_check_live n data len shared async w :
  sendable_array data len → queue_ok w → dormant_fd w →
  wp (send_check data len shared async) w (live_post n (SendCheck data len shared async) w).
Proof.
  intros Harr Hq Hdo. unfold send_check. destruct (len =? 0);
    [|tcp_step; tcp_step; cbn [seq_post]; tcp_step];
    apply wp_ret; (apply live_still; try done; [apply quiet_refl|by left|simpl; lia]).
Qed.

Lemma send_push_live fd n data len shared async w :
  sendable_array data len → 0 < len → sock_ok fd w → queue_ok w → dormant_fd w →
  wp (send_push data len shared async) w (live_post n (SendPush data len shared async) w).
Proof.
  intros Harr Hlen Hok Hq Hdo. eapply wp_mono; [by apply send_push_spec|].
  intros o w' [(-> & -> & _)|(m & -> & -> & Hm & Hl & Hmx)].
  { apply live_still; try done; [apply quiet_refl|by left|simpl; lia]. }
  pose proof (queue_size_eq fd w Hok Hq) as Hsz. rewrite Hsz in Hmx.
  destruct Hq as (Hpos & Hlim & Hb). destruct Hm as (Hs & H32 & _). unfold two32, two64 in *.
  assert (0 ≤ queued_bytes (m_send_queue (w_sock w))) as Hnn by (clear -Hpos; induction Hpos; simpl; lia).
  eexists _, _. split; [done|].
  unfold queue_ok, dormant_fd, load. simpl. rewrite queued_bytes_snoc, queue_rank_snoc, Hsz.
  unfold two32, two64. rewrite u64_small by (unfold two64; lia).
  split_and!; try done; [split; by left|apply Forall_app_2; [done|repeat constructor; lia]|lia|lia|lia|right; lia|by left|].
  assert (message_rank m ≤ 2 * Z.to_nat (len + 4))%nat by (unfold message_rank; lia). lia.
Qed.

Lemma pop_live fd n w :
  sock_ok fd w → queue_ok w → dormant_fd w → m_current_message (w_sock w) = None →
  wp pop w (live_post n Pop w).
Proof.
  intros Hok Hq Hdo Hcm. eapply wp_mono; [by apply pop_spec|]. intros o w'.
  destruct (m_send_queue (w_sock w)) as [|m rest] eqn:Hqe; intros [-> ->].
  { apply live_still; try done; [apply quiet_refl|by left|simpl; lia]. }
  destruct Hq as (Hpos & Hmx & Hb). rewrite Hqe in Hpos, Hb. inversion_clear Hpos. simpl in Hb.
  eexists _, _. split; [done|].
  unfold queue_ok, dormant_fd, load. simpl. rewrite Hcm, Hqe. simpl. unfold pop_rank.
  split_and!; try done; [split; by left|lia..|by left|by left|lia].
Qed.

Lemma write_test_live n m w :
  queue_ok w → dormant_fd w → m_current_message (w_sock w) = Some m →
  wp write_test w (live_post n WriteTest w).
Proof.
  intros Hq Hdo Hcm. eapply wp_mono; [by apply write_test_spec|]. intros o w'.
  destruct (_ <? _); intros [-> ->].
  { apply live_still; try done; [apply quiet_refl|by left|simpl; lia]. }
  eexists _, _. split; [done|]. unfold queue_ok, dormant_fd, load. simpl. rewrite Hcm.
  split_and!; try done; [split; by left|apply Hq..|by right|by left|lia].
Qed.

Lemma write_call_live fd n f m w :
  sock_ok fd w → queue_ok w → dormant_fd w → m_current_message (w_sock w) = Some m →
  wp (write_call f) w (live_post n (Write f) w).
Proof.
  intros [(Hm & _) _] Hq Hdo Hcm. rewrite Hcm in Hm. eapply wp_mono; [by apply write_call_spec|].
  intros o w' (next & σ & -> & [[Hr ->]|(k & -> & _ & Hk & ->)]).
  - apply live_still; try done; [unfold quiet; simpl; split_and!; [..|left|]; done| | | | |];
      destruct Hr as [-> |[? ->]]; try done; try by left.
    all: simpl; lia.
  - eexists _, _. split; [done|]. unfold queue_ok, dormant_fd, load, message_rank. simpl. rewrite Hcm.
    split_and!; try done; [split; by left|apply Hq..|by right|by left|]. unfold message_rank. simpl. lia.
Qed.

Lemma close_live n at_ k m w :
  queue_ok w → dormant_fd w → pc_fast w (Closing at_ k) → close_code at_ k = Access m →
  wp m w (live_post n (Closing at_ k) w).
Proof.
  intros Hq Hdo Hf Hcode.
  destruct at_ as [[]| | | | | | | | | | | | | | | |]; simpl in Hcode, Hf; try discriminate; try done;
    injection Hcode as <-; unfold reset_buffer; repeat first [tcp_step|case_bool_decide]; bool_to_prop;
    try (apply live_still; first [done|apply quiet_refl|by left|by right|simpl; lia|
      by unfold quiet; simpl; rewrite ?wire_app; split_and!; [..|left|intros; rewrite ?wire_app, ?app_nil_r]]).
  - (* m_state = State::Closed *)
    apply wp_ret. eexists _, _. unfold queue_ok, dormant_fd. simpl.
    split_and!; try done; [split; [by right|by left]|apply Hq..|by left|by right|by left|].
    unfold load. simpl. lia.
  - (* m_fd = -1 *)
    apply wp_ret. eexists _, _. unfold queue_ok, dormant_fd. simpl.
    split_and!; try done; [split; [by left|by right]|apply Hq..|by left|by right|by right|].
    unfold load. simpl. lia.
  - (* unreachable: without a descriptor the state is dormant *)
    exfalso. by destruct (Hdo Hf).
  - (* notify_all *)
    eexists _, _. split_and!; try done; [apply decays_refl|by left|by left|by left|simpl; lia].
Qed.

Lemma access_live fd n p m w :
  sock_ok fd w → pc_ok fd p →
  (holds SendMutex p = true → current_ok p (m_current_message (w_sock w))) →
  queue_ok w → dormant_fd w → pc_fast w p → code p = Access m → wp m w (live_post n p w).
Proof.
  intros Hok Hpc Hcur Hq Hdo Hf Hcode.
  destruct p as [| | d len sh a| | d len sh a|[]| | | | | | | |f| | | | | | |at_ k|];
    try discriminate; injection Hcode as <- || simpl in Hcode;
    try specialize (Hcur eq_refl); simpl in Hpc, Hcur.
  - by apply send_check_live.
  - destruct Hpc. by eapply send_push_live.
  - unfold do_test. tcp_step. tcp_step. cbn [seq_post].
    destruct (m_current_message (w_sock w)); apply wp_ret;
      (apply live_still; try done; [apply quiet_refl|by left|simpl; lia]).
  - by eapply pop_live.
  - unfold do_valid. tcp_step. tcp_step. cbn [seq_post]. tcp_step; apply wp_ret;
      (apply live_still; try done; [apply quiet_refl|by left|simpl; lia]).
  - destruct Hcur as [m' Hm]. by eapply write_test_live.
  - destruct Hcur as [m' Hm]. by eapply write_call_live.
  - unfold wait_test, must_wait_send_queue. tcp_step. tcp_step. tcp_step. cbn [seq_post].
    apply wp_ret. cbn [seq_post]. destruct (_ && _) eqn:Hmust; apply wp_ret.
    + unfold is_valid_sock in Hmust. bool_to_prop. eexists _, _.
      split_and!; try done; [apply decays_refl|by right|by left|simpl; lia].
    + apply live_still; try done; [apply quiet_refl|by left|simpl; lia].
  - by apply (close_live n at_ k).
Qed.

(** * The invariant *)

(** Why a thread may sleep: there is something to wait for, and if the connection
    is gone then a closer is about to notify. *)
Definition sleep_reason t : Prop :=
  0 < m_send_queue_size (w_sock (t_world t)) ∧
  (0 < m_fd (w_sock (t_world t)) ∨ ∃ j q, t_pcs t !! j = Some q ∧ notifier q = true).

Definition linv (fd : Z) t : Prop :=
  tinv fd t ∧ dead t = false ∧ queue_ok (t_world t) ∧ dormant_fd (t_world t) ∧
  ∀ i p, t_pcs t !! i = Some p →
    pc_fast (t_world t) p ∧ (sleeper p = true → sleep_reason t).

(** A step on a mutex. *)
Definition lock_step_live n w p next : Prop :=
  is_aborted next = false ∧ (pc_fast w p → pc_fast w next) ∧
  (notifier p = true → notifier next = true) ∧ (sleeper next = true → sleeper p = true) ∧
  (pc_rank n next < pc_rank n p)%nat.

Lemma code_live n w p :
  match code (Σ := Σ) (T := T) p with
  | Acquire _ next | Release _ next => lock_step_live n w p next
  | Sleep => lock_step_live n w p Asleep
  | _ => True
  end.
Proof.
  unfold lock_step_live.
  destruct p as [| | | | |[|] []| | | | |[]| | | | | | | | | |[] []|]; simpl; try done;
    split_and!; (done || lia).
Qed.

Lemma dead_after i p next notify t w owner :
  dead t = false → is_aborted next = false →
  dead (mkThreads w owner (after i next notify (t_pcs t))) = false.
Proof.
  intros Hd Hn. apply dead_false. intros j q Hq. cbn in Hq.
  apply after_lookup in Hq as [[_ ->]|(_ & q' & Hq' & Hq)]; [done|].
  subst q. destruct (woken notify q') as [-> |[-> ->]]; [by eapply dead_false|done].
Qed.

(** Thread [i] moves from [p] to [next]. *)
Lemma linv_after fd t i p next (notify : bool) w owner :
  linv fd t → t_pcs t !! i = Some p →
  tinv fd (mkThreads w owner (after i next notify (t_pcs t))) →
  is_aborted next = false → decays (t_world t) w → queue_ok w → dormant_fd w → pc_fast w next →
  (notify = true → holds QueueMutex p = true) →
  (notify = true ∨ (0 < m_send_queue_size (w_sock (t_world t)) → 0 < m_send_queue_size (w_sock w))) →
  (m_fd (w_sock w) = m_fd (w_sock (t_world t)) ∨ notifier next = true) →
  (notifier p = true → notify = true ∨ notifier next = true) →
  (sleeper next = true → (sleeper p = true ∧ notify = false) ∨
     (0 < m_send_queue_size (w_sock w) ∧ 0 < m_fd (w_sock w))) →
  linv fd (mkThreads w owner (after i next notify (t_pcs t))).
Proof.
  intros (Htinv & Hd & _ & _ & Hpcs) Hp Htinv' Hna Hdec Hq Hdo Hpcn Hnq Hsz Hfd Hnot Hsl.
  destruct (proj2 Htinv Hd) as [Hlock _].
  split_and!; [done|by apply (dead_after i p)|done..|]. cbn [t_world t_pcs].
  assert (∀ j q, t_pcs t !! j = Some q → sleeper q = true → notify = false →
    sleep_reason (mkThreads w owner (after i next notify (t_pcs t)))) as Hreason.
  { intros j q Hj Hs ->. destruct (Hpcs j q Hj) as [_ Hr]. destruct (Hr Hs) as [Hpos Hwhy].
    destruct Hsz as [|Hsz]; [done|]. split; [by apply Hsz|]. cbn [t_world t_pcs].
    assert (notifier next = true → ∃ j q, after i next false (t_pcs t) !! j = Some q ∧
      notifier q = true) as Hn by (intros; exists i, next; split; [by eapply after_self|done]).
    destruct Hfd as [-> |]; [|by right; apply Hn].
    destruct Hwhy as [|(j' & q' & Hj' & Hn')]; [by left|right].
    destruct (decide (j' = i)) as [->|Hne].
    - rewrite Hp in Hj'. injection Hj' as <-. destruct (Hnot Hn'); [done|by apply Hn].
    - exists j', q'. split; [|done]. unfold after. by rewrite list_lookup_insert_ne. }
  intros j q [[-> ->]|(Hne & q' & Hq' & Hqq)]%after_lookup; split; try done.
  - intros Hs. destruct (Hsl Hs) as [[Hs' ?]|[? ?]]; [|by split; [|left]].
    by apply (Hreason i p).
  - subst q. destruct (woken notify q') as [-> |[-> ->]]; [|done].
    apply (pc_fast_decays (t_world t)); [done|]. by apply (Hpcs j q').
  - subst q. intros Hs. destruct notify eqn:Hnot'; [|by apply (Hreason j q')].
    destruct q'; try discriminate. specialize (Hnq eq_refl).
    by destruct (Hne (holds_unique holds _ _ QueueMutex _ _ _ _ Hlock Hq' Hp eq_refl Hnq)).
Qed.

(** ** The load goes down *)

Lemma length_after i next notify pcs : length (after i next notify pcs) = length pcs.
Proof. unfold after. rewrite length_insert. destruct notify; by rewrite ?length_fmap. Qed.

Lemma sum_wake n pcs :
  (sum_list_with (pc_rank n) (wake <$> pcs) ≤ sum_list_with (pc_rank n) pcs + 3 * length pcs)%nat.
Proof.
  induction pcs as [|p pcs IH]; [done|]. rewrite fmap_cons. cbn [sum_list_with length].
  assert (pc_rank n (wake p) ≤ pc_rank n p + 3)%nat by (destruct p; cbn [wake]; lia || (cbn; lia)).
  lia.
Qed.

Lemma sum_after n i p next (notify : bool) pcs :
  pcs !! i = Some p → p ≠ Asleep → n = length pcs →
  (sum_list_with (pc_rank n) (after i next notify pcs) + pc_rank n p ≤
   sum_list_with (pc_rank n) pcs + pc_rank n next + if notify then 3 * n else 0)%nat.
Proof.
  intros Hp Hna ->. unfold after. destruct notify.
  - assert ((wake <$> pcs) !! i = Some p) as Hp'
      by (rewrite list_lookup_fmap, Hp; by destruct p).
    pose proof (sum_list_with_insert (pc_rank (length pcs)) _ i p next Hp').
    pose proof (sum_wake (length pcs) pcs). lia.
  - pose proof (sum_list_with_insert (pc_rank (length pcs)) _ i p next Hp). lia.
Qed.

Lemma total_load_after i p next (notify : bool) t w owner :
  t_pcs t !! i = Some p → p ≠ Asleep →
  (pc_rank (length (t_pcs t)) next + load (length (t_pcs t)) w +
     (if notify then 3 * length (t_pcs t) else 0) <
   pc_rank (length (t_pcs t)) p + load (length (t_pcs t)) (t_world t))%nat →
  (total_load (mkThreads w owner (after i next notify (t_pcs t))) < total_load t)%nat.
Proof.
  intros Hp Hna Hlt. unfold total_load. cbn [t_pcs t_world]. rewrite length_after.
  pose proof (sum_after (length (t_pcs t)) i p next notify (t_pcs t) Hp Hna eq_refl). lia.
Qed.

Lemma linv_lock_step fd t i p next owner :
  linv fd t → t_pcs t !! i = Some p → p ≠ Asleep →
  tinv fd (mkThreads (t_world t) owner (after i next false (t_pcs t))) →
  lock_step_live (length (t_pcs t)) (t_world t) p next →
  linv fd (mkThreads (t_world t) owner (after i next false (t_pcs t))) ∧
  (total_load (mkThreads (t_world t) owner (after i next false (t_pcs t))) < total_load t)%nat.
Proof.
  intros Hinv Hp Hnas Ht' (Hna & Hf & Hn & Hs & Hrk).
  pose proof Hinv as (_ & _ & Hq & Hdo & Hpcs). split.
  - apply (linv_after fd t i p); try done; [apply decays_refl|by apply Hf, (Hpcs i p)|by right|by left|
      by right; apply Hn|by left; split; [apply Hs|]].
  - apply (total_load_after i p); [done..|lia].
Qed.

Lemma thread_step_live fd i p t ms t' :
  linv fd t → t_pcs t !! i = Some p → thread_step i p t ms t' →
  linv fd t' ∧ (total_load t' < total_load t)%nat.
Proof.
  intros Hinv Hp Hstep. pose proof Hinv as (Ht & Hd & Hq & Hdo & Hpcs).
  destruct (thread_step_safe fd i p t ms t' Ht Hd Hp Hstep) as [Ht' _].
  destruct (proj2 Ht Hd) as [_ Hok]. destruct (Hok i p Hp) as [Hpc Hcur].
  pose proof (code_live (length (t_pcs t)) (t_world t) p) as Hcl.
  assert (p ≠ Asleep) as Hnas by (intros ->; by destruct Hstep).
  destruct Hstep as [l next Hc Ho|l next Hc|m next notify w Hc Hm|m o w Hc Hm Hno|Hc]; rewrite ?Hc in Hcl;
    try by apply (linv_lock_step fd t i p).
  - destruct (wp_run_post _ _ _ _ _ (access_live fd (length (t_pcs t)) p m _ (proj1 Ht) Hpc Hcur Hq Hdo
      (proj1 (Hpcs i p Hp)) Hc) Hm)
      as (? & ? & [= <- <-] & Hna & Hdec & Hq' & Hdo' & Hf & Hnq & Hsz & Hfd & Hnot & Hsl & Hrk).
    split; [|by apply (total_load_after i p)].
    apply (linv_after fd t i p next notify); try done. intros Hs. right. by apply Hsl.
  - destruct (wp_run_post _ _ _ _ _ (access_safe fd p m _ (proj1 Ht) Hpc Hcur Hc) Hm) as (? & ? & -> & _).
    by destruct (Hno _ eq_refl).
Qed.

(** A thread goes on. *)
Definition goes_on : relation threads := λ t t', ∃ i ms, advance i t = Some (ms, t').

Lemma goes_on_live fd t t' : linv fd t → goes_on t t' → linv fd t' ∧ (total_load t' < total_load t)%nat.
Proof. intros Hinv (i & ms & (Hd & p & Hp & Hs)%advance_step). by eapply thread_step_live. Qed.

Lemma tstep_live fd t ms t' : linv fd t → tstep fast_call t ms t' → linv fd t'.
Proof.
  intros Hinv Hstep. pose proof Hinv as (Ht & Hd & Hq & Hdo & Hpcs).
  assert (∀ c, fast_call c → call_ok c) as Hall by by intros [].
  destruct (tstep_safe fast_call fd t ms t' Hall Ht Hstep) as [Ht' _].
  destruct Hstep as [i ms' t'' Ha|i p c _ Hp Hr Hc|i _ Hp].
  - by eapply goes_on_live; [|by eexists _, _].
  - apply (linv_after fd t i p (enter c) false); try done;
      [by destruct c|apply decays_refl| |by right|by left|by destruct p|by destruct c].
    destruct c; try done. simpl in *. by subst.
  - apply (linv_after fd t i Asleep WaitLock false); try done; [apply decays_refl|by right|by left].
Qed.

Lemma trun_live fd n w acc t :
  sock_ok fd w → queue_ok w → dormant_fd w → trun fast_call (idle_threads n w) acc t → linv fd t.
Proof.
  intros Hok Hq Hdo Hrun. induction Hrun as [|acc t ms t' _ IH Hstep]; [|by eapply tstep_live].
  split_and!; [by apply tinv_idle| |done..|].
  - apply dead_false. by intros i p [-> _]%lookup_replicate_1.
  - by intros i p [-> _]%lookup_replicate_1.
Qed.

(** C5: threads that send, wait for the queue to empty and close (not
    gracefully) never abort the process, never deadlock and never miss a
    wake-up: however their steps interleave, once no further calls are made
    every execution is finite, with a bound that is known in advance; and where
    it comes to rest every call has returned, except that
    [wait_send_queue_empty] may still sleep, and then there is data in the queue
    and the connection is open. *)
Theorem threads_finish n fd w acc t :
  send_wf (w_sock w) → m_fd (w_sock w) = fd → queue_ok w → dormant_fd w →
  trun fast_call (idle_threads n w) acc t →
  dead t = false ∧
  ∀ k t', nsteps goes_on k t t' →
    (k ≤ total_load t)%nat ∧ dead t' = false ∧
    ((∃ t'', goes_on t' t'') ∨
     ∀ i p, t_pcs t' !! i = Some p →
       resting p = true ∨
       (p = Asleep ∧ 0 < m_send_queue_size (w_sock (t_world t')) ∧ 0 < m_fd (w_sock (t_world t')))).
Proof.
  intros Hwf Hfd Hq Hdo Hrun. assert (linv fd t) as Hinv
    by (by apply (trun_live fd n w acc t); [split; [done|by left]|..]).
  split; [apply Hinv|]. intros k t' Hsteps.
  assert (linv fd t' ∧ k + total_load t' ≤ total_load t)%nat as [Hinv' Hk].
  { clear Hrun Hq Hdo Hwf Hfd. induction Hsteps as [t|k t t1 t2 Hs _ IH]; [by split|].
    destruct (goes_on_live fd t t1 Hinv Hs) as [Hinv1 ?]. destruct (IH Hinv1). split; [done|lia]. }
  pose proof Hinv' as (Ht & Hd & _ & _ & Hpcs). split_and!; [lia|done|].
  destruct (threads_progress fd t' Ht Hd) as [(i & ms & t'' & Ha)|Hall]; [left; by exists t'', i, ms|right].
  intros i p Hp. rewrite Forall_lookup in Hall. pose proof (Hall i p Hp) as Hr.
  destruct p; try discriminate; [by left|by left|right]. split; [done|].
  destruct (Hpcs i _ Hp) as [_ Hs]. destruct (Hs eq_refl) as [Hpos [Hv|(j & q & Hj & Hn)]]; [done|].
  pose proof (Hall j q Hj). by destruct q.
Qed.
End live.
