(* ===== verification/ThreadsRaces.v ===== *)
(** Threads on one socket (Threads.v): concrete interleavings, in which two closes,
    or a close and a send, get in each other's way, and in which two threads
    send. *)
From S2P Require Import Prelude Machine Buffer Framing Slicer Datagram Inet Sys TcpSocket TcpBase Samples.
From S2P Require Import TcpSend EndToEnd Mutex Threads ThreadsSafe ThreadsLive.
Local Open Scope Z_scope.

Abbreviation T := (threads script DatagramMessageSlicer).
Abbreviation W := (world script DatagramMessageSlicer).

(** * Following a schedule *)

Lemma schedule_run (allowed : call → Prop) (t0 : T) acc t sched ms t' :
  trun allowed t0 acc t → run_schedule sched t = Some (ms, t') → trun allowed t0 (acc ++ ms) t'.
Proof.
  revert acc t ms. induction sched as [|i sched IH]; intros acc t ms Hrun; simpl.
  { intros [= <- <-]. by rewrite app_nil_r. }
  intros ([ms1 t1] & Ha & Hs)%bind_Some. apply bind_Some in Hs as ([ms2 t2] & Hs & [= <- <-]).
  rewrite app_assoc. eapply IH; [|done]. eapply trun_step; [done|by eapply tstep_run].
Qed.

(** Two threads make a call each and then take turns as the schedule says. *)
Definition two_calls (w : W) (c0 c1 : call) (sched : list nat) : option (list message_out * T) :=
  run_schedule sched (make_call 1 c1 (make_call 0 c0 (idle_threads 2 w))).

Lemma two_threads (allowed : call → Prop) (w : W) c0 c1 sched (P : list message_out → T → bool) :
  allowed c0 → allowed c1 →
  match two_calls w c0 c1 sched with Some (ms, t) => P ms t | None => false end = true →
  ∃ acc t, trun allowed (idle_threads 2 w) acc t ∧ P acc t = true.
Proof.
  intros H0 H1. unfold two_calls. destruct (run_schedule _ _) as [[ms t]|] eqn:Hs; [|done].
  intros HP. exists ms, t. split; [|done]. refine (schedule_run allowed _ (([] ++ []) ++ []) _ sched ms t _ Hs).
  eapply trun_step; [eapply trun_step; [apply trun_start|]|].
  - by apply (tstep_call allowed (idle_threads 2 w) 0 Idle c0).
  - by destruct c0; apply (tstep_call allowed (make_call 0 _ (idle_threads 2 w)) 1 Idle c1).
Qed.

(** One thread until it is about to close after a failed [write], then [k] more
    steps of its close. *)
Definition failing_send (k : nat) : list nat := replicate (8 + k) 0%nat.

(** A connection that the peer has reset, with a message to be sent; [notconn]:
    [shutdown] finds it gone. *)
Definition reset_by_peer (notconn : bool) : W := sending
  {| sc_recv := []; sc_write := [inr EPIPE]; sc_accept := []; sc_notconn := notconn;
     sc_connect := None; sc_socket := inl 7; sc_flags := 0; sc_peer := None |}.

Definition aborted_with (msg : string) (t : T) : bool :=
  existsb (λ p, match p with Aborted m => String.eqb m msg | _ => false end) (t_pcs t).

(** Nobody is left to do anything, and a thread sleeps in
    [wait_send_queue_empty] although the socket is closed. *)
Definition sleeps_for_ever (t : T) : bool :=
  existsb (λ p, match p with Asleep => true | _ => false end) (t_pcs t) &&
  forallb at_rest (t_pcs t) && negb (is_valid_sock (w_sock (t_world t))).

(** C35: [close] is not safe while another thread sends or closes. Two closes, such
    as those of a receiving and of a sending thread that both find the connection
    reset, can both take the descriptor to be open and close it twice, so that
    the second one can hit a descriptor opened in between. A graceful close can
    end the process, in [shutdown] of the descriptor that a failing send has just
    closed, or, through the failing send, in the check of the state between
    [m_fd = -1] and [m_state = Closed]; and when [shutdown] finds no connection,
    a thread in [wait_send_queue_empty] is never woken up. *)
Theorem close_races :
  (∃ acc t, trun fast_call (idle_threads 2 (reset_by_peer false)) acc t ∧
     closes 7 (w_trace (t_world t)) = 2%nat) ∧
  (∃ acc t, trun call_ok (idle_threads 2 (reset_by_peer false)) acc t ∧
     aborted_with "Socket shutdown() failed: error" t = true) ∧
  (∃ acc t, trun call_ok (idle_threads 2 (reset_by_peer true)) acc t ∧
     aborted_with "Invalid state" t = true) ∧
  (∃ acc t, trun call_ok (idle_threads 2 (reset_by_peer true)) acc t ∧
     sleeps_for_ever t = true).
Proof.
  split_and!.
  - destruct (two_threads fast_call (reset_by_peer false) CallDoSend (CallClose true)
      (failing_send 4 ++ replicate 5 1%nat ++ [0%nat])
      (λ _ t, bool_decide (closes 7 (w_trace (t_world t)) = 2%nat))) as (acc & t & Hrun & Ht);
      [done|done|vm_compute; reflexivity|].
    exists acc, t. split; [done|]. by apply bool_decide_eq_true in Ht.
  - apply (two_threads call_ok (reset_by_peer false) CallDoSend (CallClose false)
      ([1%nat] ++ failing_send 10 ++ [1;1;1]%nat) (λ _, aborted_with _));
      [done|done|vm_compute; reflexivity].
  - apply (two_threads call_ok (reset_by_peer true) CallDoSend (CallClose false)
      (failing_send 0 ++ replicate 5 1%nat ++ [0;0;0]%nat) (λ _, aborted_with _));
      [done|done|vm_compute; reflexivity].
  - apply (two_threads call_ok (reset_by_peer true) CallWait (CallClose false)
      ([0;0;0]%nat ++ replicate 7 1%nat) (λ _, sleeps_for_ever));
      [done|done|vm_compute; reflexivity].
Qed.

(** * Two threads that send at the same time *)

(** A descriptor that takes three bytes, then whatever it is given. *)
Definition sample_two : W :=
  sample_world (scripted [] [inl 3; inl 100; inl 100] []) 7 Connected.

(** Thread 0 has written a part of its message when thread 1 queues another one;
    thread 0 sends both, and thread 1 finds nothing left to send. *)
Definition sample_schedule : list nat :=
  replicate 12 0%nat ++ replicate 4 1%nat ++ replicate 16 0%nat ++ replicate 6 1%nat.

#[export] Instance message_out_eq_dec : EqDecision message_out.
Proof. solve_decision. Defined.

Definition both_sent (acc : list message_out) (t : T) : bool :=
  bool_decide (acc = [framed hi; framed [x21]]) &&
  bool_decide (wire 7 (w_trace (t_world t)) = encode hi ++ encode [x21]) &&
  bool_decide (outbox (w_sock (t_world t)) = []) && forallb at_rest (t_pcs t).

Lemma sample_run (allowed : call → Prop) :
  allowed (CallSend hi 2 false false) → allowed (CallSend [x21] 1 false false) →
  ∃ t, trun allowed (idle_threads 2 sample_two) [framed hi; framed [x21]] t ∧
    wire 7 (w_trace (t_world t)) = encode hi ++ encode [x21] ∧
    outbox (w_sock (t_world t)) = [] ∧ forallb at_rest (t_pcs t) = true.
Proof.
  intros H0 H1. destruct (two_threads allowed sample_two (CallSend hi 2 false false)
    (CallSend [x21] 1 false false) sample_schedule both_sent) as (acc & t & Hrun & Hsent);
    [done..|vm_compute; reflexivity|].
  unfold both_sent in Hsent. rewrite !andb_true_iff, !bool_decide_eq_true in Hsent.
  destruct Hsent as [[[-> Hw] Ho] Hr]. by exists t.
Qed.

Lemma sample_sendable : sendable_array hi 2 ∧ sendable_array [x21] 1.
Proof. unfold sendable_array, two32. simpl. lia. Qed.

Lemma sample_two_wf : send_wf (w_sock sample_two) ∧ queue_ok sample_two.
Proof. unfold send_wf, queue_ok, two64, two32. simpl. split_and!; try done; lia. Qed.

Lemma threads_send_in_order_witness :
  ∃ t, trun call_ok (idle_threads 2 sample_two) [framed hi; framed [x21]] t ∧
    wire 7 (w_trace (t_world t)) ++ outbox (w_sock (t_world t)) = encode hi ++ encode [x21].
Proof.
  destruct (sample_run call_ok (proj1 sample_sendable) (proj2 sample_sendable)) as (t & Hrun & _).
  exists t. split; [done|].
  refine (proj1 (threads_send_in_order 2 7 sample_two _ t (proj1 sample_two_wf) eq_refl Hrun)).
Defined.

Lemma threads_finish_witness :
  ∃ t, trun fast_call (idle_threads 2 sample_two) [framed hi; framed [x21]] t ∧ dead t = false ∧
    wire 7 (w_trace (t_world t)) = encode hi ++ encode [x21].
Proof.
  destruct (sample_run fast_call (proj1 sample_sendable) (proj2 sample_sendable)) as (t & Hrun & Hw & _).
  exists t. split_and!; [done| |done].
  refine (proj1 (threads_finish 2 7 sample_two _ t (proj1 sample_two_wf) eq_refl
    (proj2 sample_two_wf) _ Hrun)).
  by intros Hfd.
Defined.
