(* ===== verification/ThreadsSolo.v ===== *)
(** Threads on one socket (Threads.v): with a single thread, a call runs as the
    sequential model of TcpSocket.v says. *)
From stdpp Require Import relations.
From S2P Require Import Prelude Machine Buffer Slicer Datagram Inet Sys TcpSocket TcpBase TcpSend EndToEnd Mutex Threads.
From S2P Require Import ThreadsSafe ThreadsLive Samples.
Local Open Scope Z_scope.

Section solo.
Context {Σ T : Type} `{Sys Σ} `{Inet} `{MessageSlicer T}.
Abbreviation W := (world Σ T).
Abbreviation threads := (threads Σ T).
Implicit Types (w : W) (t : threads) (p next : pc) (l : lock).

(** One thread at [p], which owns the mutexes it is between. *)
Definition solo p w t : Prop :=
  t_world t = w ∧ t_pcs t = [p] ∧ is_aborted p = false ∧
  ∀ l, t_owner t l = if holds l p then Some 0%nat else None.

(** From [p] and [w] it comes to [p'] and [w']. *)
Definition reach p w p' w' : Prop :=
  ∀ t, solo p w t → ∃ t', rtc goes_on t t' ∧ solo p' w' t'.

Lemma reach_refl p w : reach p w p w.
Proof. intros t Ht. by exists t. Qed.

Lemma reach_trans p1 w1 p2 w2 p3 w3 :
  reach p1 w1 p2 w2 → reach p2 w2 p3 w3 → reach p1 w1 p3 w3.
Proof.
  intros H12 H23 t Ht. destruct (H12 t Ht) as (t2 & Hr & Ht2).
  destruct (H23 t2 Ht2) as (t3 & Hr' & Ht3). exists t3. split; [by etransitivity|done].
Qed.

Lemma advance_solo p w t :
  solo p w t →
  advance 0 t =
  match code p with
  | Rest => None
  | Acquire l next =>
      match t_owner t l with
      | Some _ => None
      | None => Some ([], mkThreads w (set_owner l (Some 0%nat) (t_owner t)) [next])
      end
  | Release l next => Some ([], mkThreads w (set_owner l None (t_owner t)) [next])
  | Access m =>
      match m w with
      | (Val (next, notify), w') => Some (pushed p next, mkThreads w' (t_owner t) [next])
      | (o, w') => Some ([], mkThreads w' (t_owner t) [Aborted (abort_message o)])
      end
  | Sleep => Some ([], mkThreads w (set_owner QueueMutex None (t_owner t)) [Asleep])
  end.
Proof.
  intros (Hw & Hp & Ha & Ho). unfold advance, dead. rewrite Hp, Hw. simpl. rewrite Ha. simpl.
  destruct (code p) as [|l next|l next|m|]; try done.
  destruct (m w) as [[[next []]|e|h] w']; done.
Qed.

Lemma reach_step p w p' w' ms t t' :
  solo p w t → advance 0 t = Some (ms, t') → solo p' w' t' → ∃ t'', rtc goes_on t t'' ∧ solo p' w' t''.
Proof. intros _ Ha Ht'. exists t'. split; [|done]. apply rtc_once. by exists 0%nat, ms. Qed.

Lemma reach_access p w m next notify w' :
  code p = Access m → m w = (Val (next, notify), w') → is_aborted next = false →
  (∀ l, holds l next = holds l p) → reach p w next w'.
Proof.
  intros Hc Hm Hna Hh t Ht. pose proof (advance_solo p w t Ht) as Ha. rewrite Hc, Hm in Ha.
  eapply reach_step; [done..|]. split_and!; [done..|]. intros l. rewrite Hh. apply Ht.
Qed.

Lemma reach_acquire p w l next :
  code (Σ := Σ) (T := T) p = Acquire l next → is_aborted next = false → holds l p = false →
  (∀ l', holds l' next = if decide (l' = l) then true else holds l' p) → reach p w next w.
Proof.
  intros Hc Hna Hf Hh t Ht. pose proof (advance_solo p w t Ht) as Ha. rewrite Hc in Ha.
  destruct Ht as (Hw & Hp & Hap & Ho). rewrite (Ho l), Hf in Ha.
  eapply reach_step; [by split_and!|done|]. split_and!; [done..|]. intros l'. rewrite Hh. cbn.
  unfold set_owner. destruct (decide (l' = l)); [done|apply Ho].
Qed.

Lemma reach_release p w l next :
  code (Σ := Σ) (T := T) p = Release l next → is_aborted next = false →
  (∀ l', holds l' next = if decide (l' = l) then false else holds l' p) → reach p w next w.
Proof.
  intros Hc Hna Hh t Ht. pose proof (advance_solo p w t Ht) as Ha. rewrite Hc in Ha.
  destruct Ht as (Hw & Hp & Hap & Ho).
  eapply reach_step; [by split_and!|done|]. split_and!; [done..|]. intros l'. rewrite Hh. cbn.
  unfold set_owner. destruct (decide (l' = l)); [done|apply Ho].
Qed.

Lemma reach_sleep w : reach WaitSleep w Asleep w.
Proof.
  intros t Ht. pose proof (advance_solo WaitSleep w t Ht) as Ha. cbn in Ha.
  destruct Ht as (Hw & Hp & Hap & Ho).
  eapply reach_step; [by split_and!|done|]. split_and!; [done..|]. cbn.
  intros [|]; unfold set_owner; cbn; [apply (Ho SendMutex)|done].
Qed.
End solo.

(** Run the access of a control point, using what is known about its tests. *)
Ltac run_access :=
  unfold shut_call, send_check, send_push, do_test, pop, do_valid, write_test, write_call,
    reset_buffer, is_valid, mbind, M_bind, mret, M_ret, sock, upd, log, os_call, os_do, set_errno, catch,
    on_slicer, zoom, throw, go; cbn;
  repeat (match goal with
  | E : ?b = true |- context [?b] => rewrite E
  | E : ?b = false |- context [?b] => rewrite E
  | E : ?f ?x = (_, _) |- context [?f ?x] => rewrite E
  | E : ?f ?x = Some _ |- context [?f ?x] => rewrite E
  | E : ?f ?x = None |- context [?f ?x] => rewrite E
  end; cbn); reflexivity.

(** Take one step of the thread. *)
Ltac solo_step :=
  eapply reach_trans;
  [first
   [ eapply reach_access; [reflexivity|run_access|done|by intros [|]]
   | eapply reach_acquire; [reflexivity|done|done|by intros [|]]
   | eapply reach_release; [reflexivity|done|by intros [|]] ]|].

(** The critical section of [send] once the outcome of [prepare_message] is
    known. *)
Ltac push_step Hfull Hprepare :=
  eapply reach_trans;
  [eapply reach_access;
    [reflexivity
    |unfold send_push, catch, mbind, M_bind, sock; cbn; rewrite Hfull, <- Hprepare; reflexivity
    |done
    |by intros [|]]|].

Section equivalence.
Context {Σ T : Type} `{Sys Σ} `{Inet} `{MessageSlicer T}.
Abbreviation W := (world Σ T).
Implicit Types (w : W) (p next : pc).

(** The result of [close] and where its caller goes on; [close] does not throw. *)
Lemma close_solo fast k w :
  wp (close fast) w (λ o w',
    match o with
    | Val b => reach (Closing (CloseTest fast) k) w (close_return k b) w'
    | Exn _ => False
    | Halt _ => True
    end).
Proof.
  unfold close. tcp_step. tcp_step. cbn [seq_post].
  destruct (bool_decide (m_state (w_sock w) = Connected) && negb fast) eqn:Hst.
  - tcp_step. tcp_step. cbn [seq_post]. tcp_step. tcp_step. cbn [seq_post].
    tcp_step. apply wp_os_call. cbn. intros [e|] σ Hshut; cbn [seq_post].
    + tcp_step. tcp_step. cbn [seq_post]. destruct (bool_decide (e = ENOTCONN)) eqn:He; [|by apply wp_halt].
      repeat tcp_step. destruct k; do 7 solo_step; apply reach_refl.
    + tcp_step. destruct k; do 4 solo_step; apply reach_refl.
  - destruct (0 <? m_fd (w_sock w)) eqn:Hfd.
    + repeat tcp_step. destruct k; do 10 solo_step; apply reach_refl.
    + destruct (_ || _) eqn:Hor; [|by apply wp_halt]. repeat tcp_step.
      destruct k; do 6 solo_step; apply reach_refl.
Qed.

(** A close in the middle of [do_send]. *)
Lemma close_in_send o p w0 w :
  reach p w0 (Closing (CloseTest true) (ByDoSend o)) w →
  wp (close true) w (λ o' w',
    match o' with Val _ => reach p w0 (DoUnlock o) w' | Exn _ => False | Halt _ => True end).
Proof.
  intros Hr. eapply wp_mono; [apply (close_solo true (ByDoSend o))|].
  intros [b|e|h] w' Hc; [|done|done]. by eapply reach_trans.
Qed.

(** Where [do_send] is after a part of it with this outcome; [p] if it goes on. *)
Definition send_end (p : pc) p0 w0 (o : outcome (option bool)) w' : Prop :=
  match o with
  | Val None => reach p0 w0 p w'
  | Val (Some b) => reach p0 w0 (DoUnlock (Val b)) w'
  | Exn e => reach p0 w0 (DoUnlock (Exn e)) w'
  | Halt _ => True
  end.

(** One turn of the loop around [write]; [true] in the result: the loop is over. *)
Lemma write_step_solo p0 w0 w :
  reach p0 w0 WriteTest w →
  wp write_step w (λ o w',
    match o with
    | Val None => reach p0 w0 WriteTest w'
    | Val (Some None) => reach p0 w0 DoTest (dropped w')
    | Val (Some (Some b)) => reach p0 w0 (DoUnlock (Val b)) w'
    | Exn e => reach p0 w0 (DoUnlock (Exn e)) w'
    | Halt _ => True
    end).
Proof.
  intros Hr. unfold write_step. tcp_step. tcp_step. cbn [seq_post].
  destruct (m_current_message (w_sock w)) as [m|] eqn:Hm; [|by apply wp_halt].
  destruct (mo_sent_pos m <? mo_length m) eqn:Hlt; cbn [negb].
  2:{ tcp_step. eapply reach_trans; [done|]. solo_step. apply reach_refl. }
  tcp_step. destruct (read_slice (mo_sent_pos m) (u32 (mo_length m - mo_sent_pos m)) (mo_data m) w)
    as [ob w1] eqn:Hread. unfold wp at 1. rewrite Hread. cbn [fst snd].
  assert (w1 = w ∧ (∀ e, ob ≠ Exn e)) as [-> Hob].
  { revert Hread. unfold read_slice. destruct (in_range _ _ _); by intros [= <- <-]. }
  destruct ob as [bytes|e|h]; cbn [seq_post]; [|by destruct (Hob e)|done].
  tcp_step. apply wp_os_call. intros [n|e] σ Hwrite; cbn [seq_post].
  - destruct (0 <? n) eqn:Hn.
    + tcp_step. tcp_step. cbn [seq_post]. tcp_step. tcp_step. cbn [seq_post]. apply wp_ret.
      eapply reach_trans; [done|]. do 2 solo_step. apply reach_refl.
    + tcp_step. eapply wp_mono; [apply (close_in_send (Val false) p0 w0)|].
      { eapply reach_trans; [done|]. do 2 solo_step. apply reach_refl. }
      intros [b|e|h] w' Hc; cbn [seq_post]; [by apply wp_ret|done|done].
  - destruct e.
    1: { apply wp_ret. eapply reach_trans; [done|]. do 2 solo_step. apply reach_refl. }
    all: tcp_step; eapply wp_mono; [eapply (close_in_send _ p0 w0);
        eapply reach_trans; [done|]; do 2 solo_step; apply reach_refl|];
      intros [b|e|h] w' Hc; cbn [seq_post]; [|done|done]; (apply wp_ret || apply wp_throw); exact Hc.
Qed.

Lemma write_message_solo fuel p0 w0 w :
  reach p0 w0 WriteTest w →
  wp (write_message fuel) w (λ o w',
    send_end DoTest p0 w0 o (match o with Val None => dropped w' | _ => w' end)).
Proof.
  apply (wp_iter_partial (λ w, reach p0 w0 WriteTest w)); [done|].
  intros w1 Hr. eapply wp_mono; [by apply write_step_solo|].
  by intros [[[b|]|]|e|h] w'.
Qed.

Lemma send_step_solo fuel p0 w0 w :
  reach p0 w0 DoTest w → wp (send_step fuel) w (send_end DoTest p0 w0).
Proof.
  intros Hr. unfold send_step.
  (* taking a message *)
  tcp_step. apply wp_outcome. intros o w1 Hnext. unfold next_message in Hnext.
  assert (match o with
    | Val true => reach p0 w0 DoValid w1
    | Val false => reach p0 w0 (DoUnlock (Val false)) w1
    | _ => False end) as Hpop.
  { revert Hnext. unfold mbind, M_bind, sock. cbn.
    destruct (m_current_message (w_sock w)) as [m|] eqn:Hm.
    - intros [= -> ->]. eapply reach_trans; [done|]. solo_step. apply reach_refl.
    - destruct (m_send_queue (w_sock w)) as [|m rest] eqn:Hq; intros [= -> ->];
        (eapply reach_trans; [done|]); do 2 solo_step;
        (eapply reach_trans; [eapply reach_access; [reflexivity|unfold pop, next_message, mbind, M_bind, sock; cbn;
           rewrite Hm, Hq; reflexivity|done|by intros [|]]|]); solo_step; apply reach_refl. }
  destruct o as [[|]|e|h]; cbn [seq_post negb]; [|by apply wp_ret|done|done].
  (* writing it *)
  tcp_step. tcp_step. cbn [seq_post]. destruct (is_valid_sock (w_sock w1)) eqn:Hv; cbn [negb].
  2:{ apply wp_throw. eapply reach_trans; [done|]. solo_step. apply reach_refl. }
  tcp_step. eapply wp_mono; [apply (write_message_solo fuel p0 w0)|].
  { eapply reach_trans; [done|]. solo_step. apply reach_refl. }
  intros [[b|]|e|h] w2 Hend; cbn [seq_post]; [by apply wp_ret| |done|done].
  tcp_step. tcp_step. by apply wp_ret.
Qed.

Lemma do_send_solo fuel w :
  wp (do_send fuel) w (λ o w', (∀ h, o ≠ Halt h) → reach DoLock w (Returned o) w').
Proof.
  eapply wp_mono; [apply (wp_iter_partial (λ w', reach DoLock w DoTest w') (send_step fuel)
    (λ o w', match o with Halt _ => True | _ => reach DoLock w (DoUnlock o) w' end))|].
  - done.
  - intros w1 Hr. eapply wp_mono; [by apply send_step_solo|]. by intros [[b|]|e|h] w'.
  - eapply reach_acquire; [reflexivity|done|done|by intros [|]].
  - intros o w' Hend Hnh. eapply reach_trans; [|eapply (reach_release (DoUnlock o)); [reflexivity|done|by intros [|]]].
    destruct o; try done. by destruct (Hnh h).
Qed.

(** The two overloads of [send], up to the call of [do_send]. *)
Definition send_queue (data : list byte) (len : Z) (shared : bool) : M W unit :=
  check_send len;;
  '(data, len) ← (if shared then mret (data, len) else on_slicer (slicer_prepare_message data len));
  enqueue {| mo_length := len; mo_sent_pos := 0; mo_is_shared := shared; mo_data := data |}.

Definition send_call (fuel : nat) (data : list byte) (len : Z) (shared async : bool) : M W bool :=
  if shared then send_shared fuel data len async else send_unique fuel data len async.

Lemma send_call_queue fuel data len shared async :
  send_call fuel data len shared async ≈
  (send_queue data len shared;; if async then mret true else do_send fuel).
Proof.
  intros w. unfold send_call, send_queue, send_shared, send_unique, mbind, M_bind.
  destruct shared; destruct (check_send len w) as [[[]|e|h] w1]; try done.
  destruct (on_slicer _ w1) as [[[d l]|e|h] w2]; done.
Qed.

Lemma send_queue_solo data len shared async w :
  wp (send_queue data len shared) w (λ o w',
    match o with
    | Val _ => reach (SendCheck data len shared async) w (if async then Returned (Val true) else DoLock) w'
    | Exn e => reach (SendCheck data len shared async) w (Returned (Exn e)) w'
    | Halt _ => True
    end).
Proof.
  unfold send_queue. tcp_step. eapply wp_mono; [apply check_send_spec|]. intros o w1 [-> ->].
  destruct (len =? 0) eqn:Hlen; cbn [seq_post]; [solo_step; apply reach_refl|].
  destruct (is_valid_sock (w_sock w)) eqn:Hv; cbn [negb seq_post]; [|solo_step; apply reach_refl].
  destruct (m_max_send_queue_size (w_sock w) <=? m_send_queue_size (w_sock w)) eqn:Hmx;
    cbn [seq_post]; [do 4 solo_step; apply reach_refl|].
  destruct shared.
  - tcp_step. tcp_step. cbn [seq_post]. unfold enqueue. tcp_step.
    destruct async; do 4 solo_step; apply reach_refl.
  - tcp_step. apply wp_outcome. intros o w2 Hp.
    assert (∀ e, o = Exn e → reach (SendCheck data len false async) w (Returned (Exn e)) w2) as Hexn.
    { intros err ->. do 2 solo_step. push_step Hmx Hp. solo_step. apply reach_refl. }
    destruct o as [[d l]|e|h]; cbn [seq_post]; [|by apply Hexn|done]. unfold enqueue. tcp_step.
    do 2 solo_step. push_step Hmx Hp. destruct async; solo_step; apply reach_refl.
Qed.

(** A call as the sequential model runs it. *)
Definition sequential (fuel : nat) (c : call) : M W bool :=
  match c with
  | CallSend data len shared async => send_call fuel data len shared async
  | CallDoSend => do_send fuel
  | CallClose fast => close fast
  | CallWait => must ← must_wait_send_queue; mret must
  end.

(** Where a call leaves its thread. *)
Definition call_end (c : call) (o : outcome bool) : pc :=
  match c, o with
  | CallWait, Val true => Asleep
  | CallWait, _ => Idle
  | _, _ => Returned o
  end.

Lemma call_solo fuel c w :
  wp (sequential fuel c) w (λ o w', (∀ h, o ≠ Halt h) → reach (enter c) w (call_end c o) w').
Proof.
  destruct c as [data len shared async| | |fast]; cbn [sequential enter].
  - eapply wp_meq; [apply send_call_queue|]. tcp_step.
    eapply wp_mono; [apply (send_queue_solo data len shared async)|].
    intros [[]|e|h] w1 Hr; cbn [seq_post]; [|done|by intros Hh; destruct (Hh h)].
    destruct async; [by tcp_step|]. eapply wp_mono; [apply do_send_solo|].
    intros o w2 Hd Hh. eapply reach_trans; [done|by apply Hd].
  - apply do_send_solo.
  - unfold must_wait_send_queue. tcp_step. tcp_step. tcp_step. cbn [seq_post]. apply wp_ret. cbn [seq_post].
    apply wp_ret. intros _. unfold must_wait_send_queue.
    destruct ((0 <? m_send_queue_size (w_sock w)) && is_valid_sock (w_sock w)) eqn:Hm; cbn [call_end].
    all: solo_step; eapply reach_trans;
      [eapply reach_access; [reflexivity|
         unfold wait_test, must_wait_send_queue, mbind, M_bind, sock; cbn; rewrite Hm; reflexivity|
         done|by intros [|]]|].
    + apply reach_sleep.
    + solo_step. apply reach_refl.
  - eapply wp_mono; [apply (close_solo fast ByApplication)|].
    intros [b|e|h] w' Hc Hh; [done|done|by destruct (Hh h)].
Qed.

(** C28: with one thread the interleaved machine and the sequential model of the
    socket agree: whenever a call of the sequential model returns or throws, the
    machine takes the thread from the call to the same outcome and the same
    socket, trace and system, with both mutexes free again; and
    [wait_send_queue_empty] falls asleep exactly if its condition says so. *)
Theorem one_thread_is_sequential fuel c w o w' :
  sequential fuel c w = (o, w') → (∀ h, o ≠ Halt h) →
  ∃ t, rtc goes_on (make_call 0 c (idle_threads 1 w)) t ∧
    t_world t = w' ∧ t_pcs t = [call_end c o] ∧ ∀ l, t_owner t l = None.
Proof.
  intros Hrun Hh. pose proof (wp_run_post _ _ _ _ _ (call_solo fuel c w) Hrun Hh) as Hr.
  destruct (Hr (make_call 0 c (idle_threads 1 w))) as (t & Hsteps & Hw & Hp & _ & Ho).
  { split_and!; [done|done|by destruct c|]. intros l. by destruct c, l. }
  exists t. split_and!; [done..|]. intros l. rewrite Ho. by destruct c, o as [[]| |], l.
Qed.
End equivalence.

(** * A flush by one thread *)

Lemma flush_outcome :
  (sequential 20 CallDoSend (sending (scripted [] [inl 3; inl 100] []))).1 = Val false.
Proof. vm_compute. reflexivity. Qed.

Lemma one_thread_is_sequential_witness :
  ∃ t, rtc goes_on (make_call 0 CallDoSend (idle_threads 1 (sending (scripted [] [inl 3; inl 100] [])))) t ∧
    t_pcs t = [Returned (Val false)].
Proof.
  destruct (one_thread_is_sequential 20 CallDoSend (sending (scripted [] [inl 3; inl 100] [])) (Val false)
    (sequential 20 CallDoSend (sending (scripted [] [inl 3; inl 100] []))).2) as (t & Hr & _ & Hp & _);
    [rewrite <- flush_outcome; apply surjective_pairing|done|].
  by exists t.
Defined.
