(* ===== verification/ThreadsEndToEnd.v ===== *)
(** Threads that send on one socket in datagram mode (Threads.v) and a receiver:
    every message arrives whole and in the order of the queue. *)
From S2P Require Import Prelude Machine Buffer Framing Slicer Inet Sys TcpSocket TcpBase Samples.
From S2P Require Import TcpSend TcpRecv Datagram EndToEnd Mutex Threads ThreadsSafe ThreadsRaces.
Local Open Scope Z_scope.

Section sender.
Context {Σ : Type} `{SysLaws Σ}.
Abbreviation W := (world Σ DatagramMessageSlicer).
Abbreviation threads := (threads Σ DatagramMessageSlicer).
Implicit Types (w : W) (t : threads) (p : pc).

(** The application sends arrays behind a [unique_ptr] (or raw pointers), which
    are framed. *)
Definition framed_call (c : call) : Prop :=
  call_ok c ∧ match c with CallSend _ _ shared _ => shared = false | _ => True end.

Definition framed_pc p : Prop :=
  match p with
  | SendCheck _ _ shared _ | SendLock _ _ shared _ | SendPush _ _ shared _ => shared = false
  | _ => True
  end.

(** What a thread puts into the queue is the frame of the array it was called
    with. *)
Lemma send_push_framed data len async w next notify w' :
  sendable_array data len → 0 < len →
  send_push data len false async w = (Val (next, notify), w') →
  pushed (SendPush data len false async) next = [] ∨
  pushed (SendPush data len false async) next = [framed (take (Z.to_nat len) data)].
Proof.
  intros (Hlen & H32 & Hdata) Hpos. unfold send_push, catch, mbind, M_bind, sock. cbn.
  destruct (_ <=? _); [intros [= <- _ _]; by left|]. unfold on_slicer, zoom. cbn.
  rewrite prepare_message_encode by (unfold HEADER_SIZE; lia). cbn. intros [= <- _ _]. right. cbn. unfold framed.
  do 2 f_equal. rewrite length_take. unfold HEADER_SIZE. lia.
Qed.

Definition framed_pcs t : Prop := ∀ i p, t_pcs t !! i = Some p → framed_pc p.

Lemma framed_pcs_after i next notify t w owner :
  framed_pcs t → framed_pc next → framed_pcs (mkThreads w owner (after i next notify (t_pcs t))).
Proof.
  intros Hf Hn j q [[-> ->]|(_ & q' & Hq' & ->)]%after_lookup; [done|].
  destruct (woken notify q') as [-> |[-> ->]]; [by apply (Hf j)|done].
Qed.

(** A step on a mutex or inside a call leads to no other overload. *)
Lemma code_framed p m w next notify w' :
  framed_pc p → code p = Access m → m w = (Val (next, notify), w') → framed_pc next.
Proof.
  intros Hp Hc Hm.
  assert (wp m w (λ o _, ∀ next notify, o = Val (next, notify) → framed_pc next)) as Hpost.
  { clear Hm next notify w'.
    destruct p as [| | d len sh a| | d len sh a|[]| | | | | | | |f| | | | | | |at_ k|];
      try discriminate; injection Hc as <- || simpl in Hc; simpl in Hp.
    all: try (unfold send_check, do_test, do_valid, write_test, wait_test, must_wait_send_queue;
      repeat tcp_step; by intros ? ? [= <- <-]).
    - unfold send_push. tcp_step. tcp_step. tcp_step. cbn [seq_post].
      destruct (_ <=? _); [by repeat tcp_step; intros ? ? [= <- <-]|].
      tcp_step. apply wp_outcome. intros [[d' l']|e|h] w1 _; cbn [seq_post]; [|by intros ? ? [= <- <-]|done].
      unfold enqueue. repeat tcp_step. by intros ? ? [= <- <-].
    - unfold pop, next_message. repeat tcp_step; by intros ? ? [= <- <-].
    - unfold write_call. tcp_step. tcp_step. cbn [seq_post].
      destruct (TcpSocket.m_current_message (w_sock w)); [|by apply wp_halt].
      tcp_step. apply wp_outcome. intros [bytes|e|h] w1 _; cbn [seq_post]; [|done|done].
      tcp_step. apply wp_os_call. intros [n|e] σ _; cbn [seq_post];
        [destruct (0 <? n)|destruct e]; repeat tcp_step; by intros ? ? [= <- <-].
    - destruct at_; simpl in Hc; try discriminate; injection Hc as <-;
        unfold shut_call, reset_buffer; repeat first [tcp_step|case_bool_decide];
        intros ? ? [= <- <-]; by destruct k. }
  unfold wp in Hpost. rewrite Hm in Hpost. by apply (Hpost next notify).
Qed.

(** What the threads have put into the queue. *)
Definition framed_all (ms : list message_out) : Prop :=
  ∃ ps, ms = framed <$> ps ∧ Forall sendable ps.

Lemma framed_all_app a b : framed_all a → framed_all b → framed_all (a ++ b).
Proof.
  intros (ps & -> & Hp) (qs & -> & Hq). exists (ps ++ qs). rewrite fmap_app.
  by split; [|apply Forall_app_2].
Qed.

Lemma framed_none : framed_all [].
Proof. by exists []. Qed.

Lemma thread_step_framed fd i p t ms t' :
  tinv fd t → dead t = false → framed_pcs t → t_pcs t !! i = Some p → thread_step i p t ms t' →
  framed_all ms ∧ framed_pcs t'.
Proof.
  intros [_ Hinv] Hd Hf Hp Hstep. destruct (Hinv Hd) as [_ Hpcs].
  destruct (Hpcs i p Hp) as [Hpc _]. pose proof (Hf i p Hp) as Hfp.
  assert (∀ next notify w owner, framed_pc next →
    framed_pcs (mkThreads w owner (after i next notify (t_pcs t)))) as Hafter
    by (intros; by apply framed_pcs_after).
  destruct Hstep as [l next Hc Ho|l next Hc|m next notify w Hc Hm|m o w Hc Hm Hno|Hc].
  - split; [apply framed_none|]. apply (Hafter next false).
    destruct p as [| | | | |[] []| | | | |[]| | | | | | | | | |[] []|]; try discriminate; by injection Hc as <- <-.
  - split; [apply framed_none|]. apply (Hafter next false).
    destruct p as [| | | | |[] []| | | | |[]| | | | | | | | | |[] []|]; try discriminate; by injection Hc as <- <-.
  - split; [|by eapply Hafter, code_framed].
    destruct p as [| | | |data len shared async| | | | | | | | | | | | | | | | |];
      try apply framed_none. simpl in Hfp, Hpc. subst shared. injection Hc as <-.
    destruct Hpc as [Harr Hlen].
    destruct (send_push_framed _ _ _ _ _ _ _ Harr Hlen Hm) as [-> | ->]; [apply framed_none|].
    exists [take (Z.to_nat len) data]. split; [done|]. constructor; [|done].
    destruct Harr as (? & ? & ?). unfold sendable, HEADER_SIZE. rewrite length_take. lia.
  - split; [apply framed_none|]. by apply (Hafter _ false).
  - split; [apply framed_none|]. by apply (Hafter Asleep false).
Qed.

Lemma trun_framed fd n w acc t :
  sock_ok fd w → trun framed_call (idle_threads n w) acc t → framed_all acc ∧ framed_pcs t.
Proof.
  assert (∀ c, framed_call c → call_ok c) as Hall by by intros c [].
  intros Hok Hrun. induction Hrun as [|acc t ms t' Hrun [Ha Hf] Hstep].
  { split; [apply framed_none|]. by intros i p [-> _]%lookup_replicate_1. }
  destruct (trun_safe framed_call fd n w acc t Hall Hok Hrun) as [Hinv _].
  destruct Hstep as [i ms t' (Hd & p & Hp & Hs)%advance_step|i p c Hd Hp Hr [_ Hc]|i Hd Hp].
  - destruct (thread_step_framed fd i p t ms t' Hinv Hd Hf Hp Hs).
    split; [by apply framed_all_app|done].
  - rewrite app_nil_r. split; [done|]. apply (framed_pcs_after i _ false); [done|by destruct c].
  - rewrite app_nil_r. split; [done|]. by apply (framed_pcs_after i WaitLock false).
Qed.
End sender.

Section end_to_end.
Context {Σ1 Σ2 : Type} `{SysLaws Σ1} `{SysLaws Σ2}.

(** C4: end to end with threads: any number of threads call [send], [do_send],
    [wait_send_queue_empty] and [close] on one socket in datagram mode, in any
    interleaving; cut any prefix of what reached the descriptor into chunks and
    let another socket pull them. The receiver holds a prefix of the messages
    that entered the queue, in this order, each whole and unchanged, and exactly
    all of them when nothing is left to write and every byte has arrived. *)
Theorem threads_end_to_end n fd fd' fuel' (w : world Σ1 DatagramMessageSlicer) acc t
    (r : world Σ2 DatagramMessageSlicer) :
  fresh_sender fd w → fresh_receiver fd' r → trun framed_call (idle_threads n w) acc t →
  ∃ payloads, acc = framed <$> payloads ∧
    ∀ cs last σ, concat cs `prefix_of` wire fd (w_trace (t_world t)) →
      delivers fd' cs last (w_os r) σ → (chunk_cost cs < fuel')%nat →
      wp (pull_messages fuel') r (λ o' r', end_post last r o' r' ∧
        datagram_delivered (m_slicer (w_sock r')) `prefix_of` payloads ∧
        (outbox (w_sock (t_world t)) = [] → concat cs = wire fd (w_trace (t_world t)) →
         datagram_delivered (m_slicer (w_sock r')) = payloads)).
Proof.
  intros Hw Hr Hrun. destruct (fresh_sender_wf fd w Hw) as (Hwf & Hout & _).
  destruct Hw as (_ & _ & _ & _ & Hfd & Hwire).
  assert (sock_ok fd w) as Hok by (split; [done|by left]).
  destruct (trun_framed fd n w acc t Hok Hrun) as [(ps & -> & Hps) _].
  destruct (trun_safe framed_call fd n w _ t (λ c Hc, proj1 Hc) Hok Hrun) as [_ Hs].
  exists ps. split; [done|]. intros cs last σ Hcs Hdel Hfuel.
  unfold stream in Hs. rewrite Hout, Hwire in Hs. simpl in Hs.
  eapply wp_mono; [eapply (receive_frames fd' fuel' ps)|]; try done.
  - unfold encode_all. rewrite Hs. f_equal. rewrite <- list_fmap_compose.
    apply list_fmap_ext. intros i p _. symmetry. apply framed_rest.
  - by intros o' r' (? & _ & ? & ?).
Qed.
End end_to_end.

Lemma threads_end_to_end_witness :
  ∃ ps, [framed hi; framed [x21]] = framed <$> ps ∧
    datagram_delivered (m_slicer (w_sock (pull_messages 100 sample_receiver).2)) = ps.
Proof.
  destruct (sample_run framed_call) as (t & Hrun & Hw & Ho & _);
    [split; [apply sample_sendable|done]..|].
  assert (fresh_sender 7 sample_two) as Hs by by split_and!.
  assert (fresh_receiver 9 sample_receiver) as Hr
    by (split_and!; try done; by apply datagram_new_wf).
  destruct (threads_end_to_end 2 7 9 100 sample_two _ t sample_receiver Hs Hr Hrun) as (ps & Hps & H).
  exists ps. split; [done|]. destruct sample_delivers as [σ Hdel].
  destruct (H sample_chunks (inr EAGAIN) σ) as (_ & _ & Hall);
    [rewrite Hw; by exists []|done|vm_compute; lia|].
  apply Hall; [done|]. rewrite Hw. reflexivity.
Defined.
