(* ===== verification/Registry.v ===== *)
(** The registry of the event loop under threads: [register_event_listener],
    [unregister_event_listener] and [notify_listener_mode_change] of
    src/EventLoop.cpp as interleaved steps, with the descriptors that the system
    gives out again once they are closed.

    A critical section of [m_event_listeners_mutex] is one step: none of them
    calls out or blocks, but for the condition variable, which releases it. *)
From stdpp Require Import gmap.
From S2P Require Import Prelude Listener.
Local Open Scope Z_scope.

(** Where the application is with a listener: it is being registered, it has been
    registered, it is being closed, it is closed. *)
Inductive phase := Registering | Live | Closing | Gone.

#[export] Instance phase_eq_dec : EqDecision phase.
Proof. solve_decision. Defined.

(** Control points, for a listener [l]. *)
Inductive pc :=
| Idle
| RegTry (l : nat)                (* [m_event_listeners.emplace(idx, listener)] *)
| Asleep (l : nat)                (* [m_event_listeners_cond.wait(lock)] *)
| RegValid (l : nat)              (* [re_register(true)]: [m_socket->is_valid()] *)
| Look (l : nat) (mode : Mode) (first : bool)  (* [m_event_listeners.find(...)] *)
| Ctl (l : nat) (mode : Mode) (first : bool)   (* [register_socket] *)
| SetStore (l : nat) (mode : Mode)             (* [set_mode]: [m_mode = mode] *)
| CloseFd (l : nat)               (* [m_socket->close()], which closes the descriptor *)
| Unregister (l : nat).           (* [unregister_event_listener] *)

#[export] Instance pc_eq_dec : EqDecision pc.
Proof. solve_decision. Defined.

(** The map, the system's open descriptors with the listener whose socket they
    are, what epoll watches, and of every listener its descriptor, its mode and
    its phase. *)
Record registry := mkRegistry {
  m_event_listeners : gmap Z nat;
  r_open : gmap Z nat;
  r_epoll : gmap Z Mode;
  r_fileno : gmap nat Z;
  r_mode : nat → Mode;
  r_phase : nat → phase;
}.

Record machine := mkMachine { r_registry : registry; r_pcs : list pc }.

Implicit Types (r : registry) (l : nat) (t : machine) (p : pc).

Definition fileno r l : Z := default (-1) (r_fileno r !! l).

Definition put_map m r : registry :=
  mkRegistry m (r_open r) (r_epoll r) (r_fileno r) (r_mode r) (r_phase r).
Definition put_open o r : registry :=
  mkRegistry (m_event_listeners r) o (r_epoll r) (r_fileno r) (r_mode r) (r_phase r).
Definition put_epoll e r : registry :=
  mkRegistry (m_event_listeners r) (r_open r) e (r_fileno r) (r_mode r) (r_phase r).
Definition put_mode l m r : registry :=
  mkRegistry (m_event_listeners r) (r_open r) (r_epoll r) (r_fileno r)
    (λ l', if decide (l' = l) then m else r_mode r l') (r_phase r).
Definition put_phase l ph r : registry :=
  mkRegistry (m_event_listeners r) (r_open r) (r_epoll r) (r_fileno r) (r_mode r)
    (λ l', if decide (l' = l) then ph else r_phase r l').

Definition is_open r l : bool := bool_decide (r_open r !! fileno r l = Some l).

(** ** The program text *)

(** [emplace], or wait until somebody unregisters. *)
Definition emplace l r : pc * registry :=
  match m_event_listeners r !! fileno r l with
  | None => (RegValid l, put_map (<[fileno r l := l]> (m_event_listeners r)) r)
  | Some _ => (Asleep l, r)
  end.

(** [register_event_listener] returns. *)
Definition registered l r : registry :=
  if decide (r_phase r l = Registering) then put_phase l Live r else r.

(** [notify_listener_mode_change]: looks the descriptor up, not the listener. *)
Definition look l mode (first : bool) r : pc * registry :=
  match m_event_listeners r !! fileno r l with
  | Some _ => (Ctl l mode first, r)
  | None => (Idle, if first then registered l r else r)
  end.

(** [epoll_ctl] on a descriptor; adding it twice, or changing one that is not
    watched, fails. *)
Definition ctl l mode (first : bool) r : registry :=
  let fd := fileno r l in
  match r_open r !! fd, r_epoll r !! fd, first with
  | Some _, None, true => put_epoll (<[fd := mode]> (r_epoll r)) r
  | Some _, Some _, false => put_epoll (<[fd := mode]> (r_epoll r)) r
  | _, _, _ => r
  end.

(** [close]: the system forgets the descriptor, and epoll with it. *)
Definition close_fd l r : registry :=
  put_epoll (delete (fileno r l) (r_epoll r)) (put_open (delete (fileno r l) (r_open r)) r).

(** Removes whatever listener has the descriptor. *)
Definition unregister_event_listener l r : registry :=
  match m_event_listeners r !! fileno r l with
  | None => r
  | Some _ =>
      put_epoll (delete (fileno r l) (r_epoll r)) (put_map (delete (fileno r l) (m_event_listeners r)) r)
  end.

(** What a thread does at a control point: the next one, whether it notifies the
    condition variable, and the new state. *)
Definition code p r : option (pc * bool * registry) :=
  match p with
  | Idle | Asleep _ => None
  | RegTry l => Some ((emplace l r).1, false, (emplace l r).2)
  | RegValid l =>
      if is_open r l then Some (Look l (r_mode r l) true, false, r)
      else Some (Idle, false, registered l r)
  | Look l mode first => Some ((look l mode first r).1, false, (look l mode first r).2)
  | Ctl l mode first =>
      Some (Idle, false, let r' := ctl l mode first r in if first then registered l r' else r')
  | SetStore l mode => Some (Look l mode false, false, put_mode l mode r)
  | CloseFd l => Some (Unregister l, false, close_fd l r)
  | Unregister l =>
      Some (Idle, bool_decide (is_Some (m_event_listeners r !! fileno r l)),
        put_phase l Gone (unregister_event_listener l r))
  end.

(** ** The machine *)

Definition wake p : pc := match p with Asleep l => RegTry l | _ => p end.

Definition advance (i : nat) t : option machine :=
  p ← r_pcs t !! i;
  '(next, notify, r) ← code p (r_registry t);
  Some (mkMachine r (<[i := next]> (if notify : bool then wake <$> r_pcs t else r_pcs t))).

(** What a thread that is idle may begin: register the listener of a socket that
    has just been opened, on a descriptor that is free; change the mode of a
    listener whose socket is open ([set_mode] and [re_register]; also several threads
    at once); close it. [early]: also before it has been registered. *)
Inductive begins (early : bool) t : pc → registry → Prop :=
| begin_register l fd :
    let r := r_registry t in
    r_fileno r !! l = None → r_open r !! fd = None →
    begins early t (RegTry l)
      (mkRegistry (m_event_listeners r) (<[fd := l]> (r_open r)) (r_epoll r)
        (<[l := fd]> (r_fileno r)) (r_mode (put_mode l ReadOnly r)) (r_phase (put_phase l Registering r)))
| begin_set_mode l mode :
    is_open (r_registry t) l = true → r_mode (r_registry t) l ≠ mode →
    begins early t (SetStore l mode) (r_registry t)
| begin_re_register l :
    is_open (r_registry t) l = true →
    begins early t (Look l (r_mode (r_registry t) l) false) (r_registry t)
| begin_close l :
    r_phase (r_registry t) l = Live ∨ early = true ∧ r_phase (r_registry t) l = Registering →
    begins early t (CloseFd l) (put_phase l Closing (r_registry t)).

Inductive step (early : bool) t : machine → Prop :=
| step_run i t' : advance i t = Some t' → step early t t'
| step_begin i p r :
    r_pcs t !! i = Some Idle → begins early t p r →
    step early t (mkMachine r (<[i := p]> (r_pcs t)))
| step_spurious i l :
    r_pcs t !! i = Some (Asleep l) →
    step early t (mkMachine (r_registry t) (<[i := RegTry l]> (r_pcs t))).

Definition empty_registry : registry := mkRegistry ∅ ∅ ∅ ∅ (λ _, ReadOnly) (λ _, Gone).

Definition start (threads : nat) : machine := mkMachine empty_registry (replicate threads Idle).

Inductive reach (early : bool) (threads : nat) : machine → Prop :=
| reach_start : reach early threads (start threads)
| reach_step t t' : reach early threads t → step early t t' → reach early threads t'.
