(* ===== verification/RegistryProps.v ===== *)
(** The registry of the event loop under threads (Registry.v): a listener that has
    been registered is found and watched until it is closed, and no registration
    waits for ever. *)
From stdpp Require Import gmap relations.
From S2P Require Import Prelude Listener Registry.
Local Open Scope Z_scope.

Implicit Types (r : registry) (l : nat) (t : machine) (p q : pc).

(** * The invariant *)

(** The listener whose registration or closing a thread carries out. *)
Definition life p : option nat :=
  match p with
  | RegTry l | Asleep l | RegValid l | Look l _ true | Ctl l _ true | CloseFd l | Unregister l => Some l
  | _ => None
  end.

Definition mapped r l : Prop := m_event_listeners r !! fileno r l = Some l.
Definition opened r l : Prop := r_open r !! fileno r l = Some l.

Record registry_ok r : Prop := {
  ok_map fd l : m_event_listeners r !! fd = Some l → r_fileno r !! l = Some fd ∧ r_phase r l ≠ Gone;
  ok_open fd l : r_open r !! fd = Some l → r_fileno r !! l = Some fd;
  ok_registering l : r_phase r l = Registering → opened r l ∧ r_epoll r !! fileno r l = None;
  ok_live l : r_phase r l = Live → opened r l ∧ mapped r l ∧ is_Some (r_epoll r !! fileno r l);
  ok_epoll fd : is_Some (r_epoll r !! fd) → is_Some (r_open r !! fd);
  ok_known l : r_phase r l ≠ Gone → is_Some (r_fileno r !! l);
}.

Definition pc_ok r p : Prop :=
  match p with
  | RegTry l => r_phase r l = Registering ∧ ¬ mapped r l
  | Asleep l => r_phase r l = Registering ∧ ¬ mapped r l ∧
      is_Some (m_event_listeners r !! fileno r l)
  | RegValid l | Look l _ true | Ctl l _ true => r_phase r l = Registering ∧ mapped r l
  | CloseFd l => r_phase r l = Closing ∧ mapped r l ∧ opened r l
  | Unregister l => r_phase r l = Closing ∧ mapped r l ∧ ¬ opened r l
  | _ => True
  end.

Record machine_ok t : Prop := {
  ok_registry : registry_ok (r_registry t);
  ok_pcs i p : r_pcs t !! i = Some p → pc_ok (r_registry t) p;
  ok_unique i j p q l : r_pcs t !! i = Some p → r_pcs t !! j = Some q →
    life p = Some l → life q = Some l → i = j;
  ok_closing l : r_phase (r_registry t) l = Closing → ∃ i p, r_pcs t !! i = Some p ∧ life p = Some l;
}.

Lemma life_phase r p l :
  life p = Some l → pc_ok r p → r_phase r l = Registering ∨ r_phase r l = Closing.
Proof.
  destruct p as [| | | |l' m []|l' m []| | |]; simpl; try done; intros [= ->]; tauto.
Qed.

Lemma wake_life p : life (wake p) = life p.
Proof. by destruct p. Qed.

Lemma wake_ok r p : pc_ok r p → pc_ok r (wake p).
Proof. destruct p; simpl; tauto. Qed.

(** Thread [i] has moved from [p] to [next], and carries out what it did before or
    nothing, or has begun with [l]. *)
Lemma machine_ok_after t i p next (notify : bool) r' :
  machine_ok t → r_pcs t !! i = Some p → registry_ok r' → pc_ok r' next →
  (∀ q, (∀ l, life p = Some l ∨ life next = Some l → life q ≠ Some l) →
     pc_ok (r_registry t) q → pc_ok r' (if notify then wake q else q)) →
  (∀ l, life next = Some l → life p = Some l ∨
     r_phase (r_registry t) l ≠ Registering ∧ r_phase (r_registry t) l ≠ Closing) →
  (∀ l, r_phase r' l = Closing →
     life next = Some l ∨ r_phase (r_registry t) l = Closing ∧ life p ≠ Some l) →
  machine_ok (mkMachine r' (<[i := next]> (if notify then wake <$> r_pcs t else r_pcs t))).
Proof.
  intros [Hr Hpcs Huniq Hclosing] Hi Hr' Hnext Hothers Hlife Hphase.
  pose proof (lookup_lt_Some _ _ _ Hi) as Hlt.
  set (pcs := if notify then wake <$> r_pcs t else r_pcs t).
  assert (∀ j q', pcs !! j = Some q' → ∃ q, r_pcs t !! j = Some q ∧ q' = if notify then wake q else q) as Hback.
  { unfold pcs. intros j q' Hj. destruct notify; [|by exists q'].
    rewrite list_lookup_fmap in Hj. apply fmap_Some in Hj as (q & -> & ->). by exists q. }
  assert (∀ q, life (if notify then wake q else q) = life q) as Hw by (intros q; destruct notify; [apply wake_life|done]).
  assert (i < length pcs)%nat as Hlt' by (unfold pcs; destruct notify; [by rewrite length_fmap|done]).
  assert (∀ j q l, i ≠ j → r_pcs t !! j = Some q → life p = Some l ∨ life next = Some l → life q ≠ Some l) as Hapart.
  { intros j q l Hne Hj [Hl|Hl] Hq; [by apply Hne, (Huniq i j p q l)|].
    destruct (Hlife l Hl) as [Hl'|[H1 H2]]; [by apply Hne, (Huniq i j p q l)|].
    by destruct (life_phase _ _ _ Hq (Hpcs j q Hj)). }
  split; cbn [r_registry r_pcs]; [done| | |].
  - intros j q' [(<- & <- & _)|[Hne Hj]]%list_lookup_insert_Some; [done|].
    destruct (Hback j q' Hj) as (q & Hq & ->). apply Hothers; [by intros l; eapply Hapart|by eapply Hpcs].
  - intros j1 j2 p1 p2 l [(<- & <- & _)|[Hne1 H1]]%list_lookup_insert_Some [(<- & <- & _)|[Hne2 H2]]%list_lookup_insert_Some
      Hl1 Hl2; [done|..].
    + destruct (Hback j2 p2 H2) as (q & Hq & ->). rewrite Hw in Hl2.
      by destruct (Hapart j2 q l Hne2 Hq (or_intror Hl1)).
    + destruct (Hback j1 p1 H1) as (q & Hq & ->). rewrite Hw in Hl1.
      by destruct (Hapart j1 q l Hne1 Hq (or_intror Hl2)).
    + destruct (Hback j1 p1 H1) as (q1 & Hq1 & ->), (Hback j2 p2 H2) as (q2 & Hq2 & ->).
      rewrite Hw in Hl1, Hl2. by apply (Huniq j1 j2 q1 q2 l).
  - intros l Hl. destruct (Hphase l Hl) as [Hn|[Hc Hp]].
    { exists i, next. split; [by apply list_lookup_insert_eq|done]. }
    destruct (Hclosing l Hc) as (j & q & Hj & Hq). assert (i ≠ j) as Hne by (intros ->; congruence).
    exists j, (if notify then wake q else q). split; [|by rewrite Hw].
    rewrite list_lookup_insert_ne by done. unfold pcs. destruct notify; [|done].
    by rewrite list_lookup_fmap, Hj.
Qed.

(** * One step *)

Definition access_ok r p next (notify : bool) r' : Prop :=
  registry_ok r' ∧ pc_ok r' next ∧
  (∀ q, (∀ l, life p = Some l ∨ life next = Some l → life q ≠ Some l) → pc_ok r q →
     pc_ok r' (if notify then wake q else q)) ∧
  (∀ l, life next = Some l → life p = Some l ∨
     r_phase r l ≠ Registering ∧ r_phase r l ≠ Closing) ∧
  (∀ l, r_phase r' l = Closing → life next = Some l ∨ r_phase r l = Closing ∧ life p ≠ Some l).

(** A step that only goes on. *)
Lemma access_same r p next :
  registry_ok r → pc_ok r p → pc_ok r next → life next = life p → access_ok r p next false r.
Proof.
  intros Hr Hp Hnext Hl. split_and!; try done; [intros l; rewrite Hl; by left|].
  intros l Hc. rewrite Hl. destruct (decide (life p = Some l)); [by left|by right].
Qed.

Lemma known_fileno r l fd : r_fileno r !! l = Some fd → fileno r l = fd.
Proof. unfold fileno. by intros ->. Qed.

(** Two listeners that are open, or that are registered, have descriptors of
    their own. *)
Lemma opened_apart r l l' : opened r l → opened r l' → fileno r l = fileno r l' → l = l'.
Proof. unfold opened. intros H1 H2 E. rewrite E in H1. congruence. Qed.

Lemma mapped_apart r l l' : mapped r l → mapped r l' → fileno r l = fileno r l' → l = l'.
Proof. unfold mapped. intros H1 H2 E. rewrite E in H1. congruence. Qed.

Lemma emplace_ok r l :
  registry_ok r → pc_ok r (RegTry l) →
  access_ok r (RegTry l) (emplace l r).1 false (emplace l r).2.
Proof.
  intros Hr Hp. pose proof Hp as [Hph Hm]. unfold emplace.
  destruct (m_event_listeners r !! fileno r l) as [l0|] eqn:Hfd; cbn [fst snd].
  { by apply access_same. }
  pose proof (ok_registering r Hr l Hph) as [Hopen Hepoll].
  set (r' := put_map _ r). assert (mapped r' l) as Hml by (unfold mapped; apply lookup_insert_eq).
  assert (∀ l', mapped r l' → mapped r' l') as Hkeep.
  { unfold mapped. intros l' Hl'. change (fileno r' l') with (fileno r l'). cbn.
    rewrite lookup_insert_ne; [done|congruence]. }
  assert (∀ l', l' ≠ l → mapped r' l' → mapped r l') as Hback.
  { intros l' Hne. unfold mapped. cbn. rewrite lookup_insert_Some. by intros [[_ [=]]|[_ ?]]. }
  split_and!; try done.
  - split; try apply Hr.
    + intros fd l'. cbn. rewrite lookup_insert_Some. intros [[<- <-]|[_ ?]]; [|by apply (ok_map r Hr)].
      split; [by apply (ok_open r Hr)|by rewrite Hph].
    + intros l' Hl'. destruct (ok_live r Hr l' Hl') as (? & ? & ?). split_and!; try done. by apply Hkeep.
  - intros q Hq. specialize (Hq l (or_introl eq_refl)).
    assert (∀ l', life q = Some l' → l' ≠ l) as Hne by congruence.
    destruct q as [|l'|l'|l'|l' m []|l' m []| |l'|l']; simpl in *; try done; specialize (Hne l' eq_refl);
      intros Hok; destruct Hok as [? Hok]; (split; [done|]); try (by apply Hkeep).
    + intros Hml'. by apply Hok, Hback.
    + destruct Hok as [Hok Hs]. split; [intros Hml'; by apply Hok, Hback|].
      change (fileno r' l') with (fileno r l'). rewrite lookup_insert_is_Some. destruct (decide (fileno r l = fileno r l')); auto.
    + destruct Hok. split; [by apply Hkeep|done].
    + destruct Hok. split; [by apply Hkeep|done].
  - intros l' Hl. by left.
  - intros l' Hc. right. split; [exact Hc|]. simpl. intros [= ->]. cbn in Hc. congruence.
Qed.

(** A listener of another thread keeps its phase. *)
Lemma pc_ok_phase r l ph q :
  life q ≠ Some l → pc_ok r q → pc_ok (put_phase l ph r) q.
Proof.
  intros Hq. destruct q as [|l'|l'|l'|l' m []|l' m []| |l'|l']; simpl in *; try done;
    (destruct (decide (l' = l)) as [->|]; [congruence|done]).
Qed.

Lemma phase_at r l ph l' :
  r_phase (put_phase l ph r) l' = if decide (l' = l) then ph else r_phase r l'.
Proof. done. Qed.

(** The end of a registration. *)
Lemma registered_ok r l p e :
  registry_ok r → r_phase r l = Registering → mapped r l → life p = Some l →
  (∀ fd, is_Some (e !! fd) → fd = fileno r l ∨ is_Some (r_epoll r !! fd)) →
  (∀ fd, fd ≠ fileno r l → e !! fd = r_epoll r !! fd) → is_Some (e !! fileno r l) →
  access_ok r p Idle false (registered l (put_epoll e r)).
Proof.
  intros Hr Hph Hm Hp He Hother Hs. pose proof (ok_registering r Hr l Hph) as [Hopen _].
  unfold registered. rewrite decide_True by done. split_and!; try done.
  - split; cbn [put_phase put_epoll m_event_listeners r_open r_epoll r_fileno r_phase]; try apply Hr.
    + intros fd l' Hl'. destruct (ok_map r Hr fd l' Hl'). split; [done|]. by destruct (decide _).
    + intros l'. destruct (decide (l' = l)); [done|]. intros Hl'.
      destruct (ok_registering r Hr l' Hl') as [Ho Hn]. split; [done|].
      rewrite Hother; [done|]. intros E. by apply (opened_apart r l' l) in E.
    + intros l'. destruct (decide (l' = l)) as [->|Hne]; [done|]. intros Hl'.
      destruct (ok_live r Hr l' Hl') as (Ho & Hmap & Hn). split_and!; [done..|].
      rewrite Hother; [done|]. intros E. by apply (opened_apart r l' l) in E.
    + intros fd [->|Hf]%He; [by eexists|by apply (ok_epoll r Hr)].
    + intros l'. destruct (decide (l' = l)) as [->|]; [|by apply Hr]. intros _. apply Hr. by rewrite Hph.
  - intros q Hq. by apply (pc_ok_phase (put_epoll e r)), Hq; left.
  - intros l'. rewrite phase_at. destruct (decide (l' = l)) as [|Hne]; [done|]. intros Hc. right.
    split; [exact Hc|congruence].
Qed.

Lemma ctl_first_ok r l mode :
  registry_ok r → pc_ok r (Ctl l mode true) →
  access_ok r (Ctl l mode true) Idle false (registered l (ctl l mode true r)).
Proof.
  intros Hr [Hph Hm]. pose proof (ok_registering r Hr l Hph) as [Hopen Hn].
  unfold ctl. unfold opened in Hopen. rewrite Hopen, Hn. apply registered_ok; try done.
  - intros fd [<-|[_ ?]]%lookup_insert_is_Some; by auto.
  - intros fd Hne. by apply lookup_insert_ne.
  - by rewrite lookup_insert_eq; eexists.
Qed.

Lemma ctl_ok r l mode :
  registry_ok r → access_ok r (Ctl l mode false) Idle false (ctl l mode false r).
Proof.
  intros Hr. assert (registry_ok (ctl l mode false r) ∧
    (∀ q, pc_ok r q → pc_ok (ctl l mode false r) q) ∧
    (∀ l', r_phase (ctl l mode false r) l' = r_phase r l')) as (Hr' & Hq & Hph).
  { unfold ctl. destruct (r_open r !! fileno r l) as [l0|] eqn:Ho; [|done].
    destruct (r_epoll r !! fileno r l) as [m0|] eqn:He; [|done]. split; [|done].
    split; try apply Hr; cbn [put_epoll r_epoll r_open r_phase].
    - intros l' Hl'. destruct (ok_registering r Hr l' Hl') as [? Hn]. split; [done|].
      change (fileno _ l') with (fileno r l'). rewrite lookup_insert_ne; [done|]. intros E. congruence.
    - intros l' Hl'. destruct (ok_live r Hr l' Hl') as (? & ? & Hs). split_and!; [done..|].
      change (fileno _ l') with (fileno r l'). apply lookup_insert_is_Some'. by right.
    - intros fd [<-|Hs]%lookup_insert_is_Some'; [by rewrite Ho; eexists|by apply (ok_epoll r Hr)]. }
  split_and!; try done; [intros q _; apply Hq|]. intros l'. rewrite Hph. by right.
Qed.

Lemma close_fd_ok r l :
  registry_ok r → pc_ok r (CloseFd l) → access_ok r (CloseFd l) (Unregister l) false (close_fd l r).
Proof.
  intros Hr (Hph & Hm & Hopen). set (r' := close_fd l r).
  assert (∀ l', opened r l' → l' ≠ l → opened r' l' ∧ fileno r l ≠ fileno r l') as Hkeep.
  { intros l' Hl' Hne. assert (fileno r l ≠ fileno r l') as Hfd.
    { intros E. by apply Hne, (opened_apart r l' l). }
    split; [|done]. unfold opened. cbn. by rewrite lookup_delete_ne. }
  assert (∀ l', opened r' l' → opened r l') as Hback.
  { intros l'. unfold opened. cbn. by rewrite lookup_delete_Some; intros [_ ?]. }
  assert (¬ opened r' l) as Hnot by (unfold opened; cbn; by rewrite lookup_delete_eq).
  split_and!; try done.
  - split; try apply Hr; cbn [r' close_fd put_epoll put_open r_open r_epoll r_phase].
    + intros fd l'. rewrite lookup_delete_Some. intros [_ ?]. by apply (ok_open r Hr).
    + intros l' Hl'. destruct (ok_registering r Hr l' Hl') as [Ho Hn].
      destruct (Hkeep l' Ho) as [Ho' Hfd]; [congruence|]. split; [done|].
      change (fileno _ l') with (fileno r l'). by rewrite lookup_delete_ne.
    + intros l' Hl'. destruct (ok_live r Hr l' Hl') as (Ho & Hmap & Hs).
      destruct (Hkeep l' Ho) as [Ho' Hfd]; [congruence|]. split_and!; [done|done|].
      change (fileno _ l') with (fileno r l'). by rewrite lookup_delete_ne.
    + intros fd. rewrite !lookup_delete_is_Some. intros [? ?]. split; [done|]. by apply (ok_epoll r Hr).
  - intros q Hq. specialize (Hq l (or_introl eq_refl)).
    destruct q as [|l'|l'|l'|l' m []|l' m []| |l'|l']; simpl in *; try done.
    + intros (? & ? & Ho). split_and!; [done..|]. apply Hkeep; [done|congruence].
    + intros (? & ? & Ho). split_and!; [done..|]. intros Ho'. by apply Ho, Hback.
  - intros l' Hl'. by left.
  - intros l' Hc. destruct (decide (l' = l)) as [->|Hne]; [by left|right]. split; [exact Hc|]. simpl. congruence.
Qed.

Lemma unregister_ok r l :
  registry_ok r → pc_ok r (Unregister l) →
  access_ok r (Unregister l) Idle (bool_decide (is_Some (m_event_listeners r !! fileno r l)))
    (put_phase l Gone (unregister_event_listener l r)).
Proof.
  intros Hr (Hph & Hm & Hopen). unfold mapped in Hm. unfold unregister_event_listener. rewrite Hm.
  rewrite bool_decide_true by done. set (r1 := put_epoll _ _). set (r' := put_phase l Gone r1).
  assert (∀ l', mapped r l' → l' ≠ l → mapped r' l' ∧ fileno r l ≠ fileno r l') as Hkeep.
  { intros l' Hl' Hne. assert (fileno r l ≠ fileno r l') as Hfd.
    { intros E. by apply Hne, (mapped_apart r l' l). }
    split; [|done]. unfold mapped. cbn. by rewrite lookup_delete_ne. }
  assert (∀ l', mapped r' l' → mapped r l') as Hback.
  { intros l'. unfold mapped. cbn. by rewrite lookup_delete_Some; intros [_ ?]. }
  split_and!; try done.
  - split; cbn [r' r1 put_phase put_epoll put_map m_event_listeners r_open r_epoll r_fileno r_phase].
    + intros fd l'. rewrite lookup_delete_Some. intros [Hfd Hl'].
      destruct (ok_map r Hr fd l' Hl') as [Hf Hg]. split; [done|].
      destruct (decide (l' = l)) as [->|]; [|done]. by apply known_fileno in Hf.
    + apply Hr.
    + intros l'. destruct (decide (l' = l)); [done|]. intros Hl'.
      destruct (ok_registering r Hr l' Hl') as [Ho Hn]. split; [done|].
      change (fileno _ l') with (fileno r l'). rewrite lookup_delete_None. by right.
    + intros l'. destruct (decide (l' = l)); [done|]. intros Hl'.
      destruct (ok_live r Hr l' Hl') as (Ho & Hmap & Hs). destruct (Hkeep l' Hmap) as [Hmap' Hfd]; [done|].
      split_and!; [done|done|]. change (fileno _ l') with (fileno r l'). by rewrite lookup_delete_ne.
    + intros fd. rewrite lookup_delete_is_Some. intros [_ ?]. by apply (ok_epoll r Hr).
    + intros l'. destruct (decide (l' = l)); [done|]. apply Hr.
  - intros q Hq. specialize (Hq l (or_introl eq_refl)). intros Hok.
    apply (pc_ok_phase r1); [by rewrite wake_life|].
    destruct q as [|l'|l'|l'|l' m []|l' m []| |l'|l']; simpl in *; try done; destruct Hok as [? Hok]; (split; [done|]).
    + intros Hml. by apply Hok, Hback.
    + intros Hml. by apply (proj1 Hok), Hback.
    + by apply Hkeep; [|congruence].
    + by apply Hkeep; [|congruence].
    + by apply Hkeep; [|congruence].
    + split; [by apply Hkeep; [apply Hok|congruence]|apply Hok].
    + split; [by apply Hkeep; [apply Hok|congruence]|apply Hok].
  - intros l'. unfold r'. rewrite phase_at. destruct (decide (l' = l)) as [|Hne]; [done|]. intros Hc. right.
    split; [exact Hc|simpl; congruence].
Qed.

Lemma put_mode_ok r l m : registry_ok r → registry_ok (put_mode l m r).
Proof. intros Hr. split; apply Hr. Qed.

Lemma code_ok r p next notify r' :
  registry_ok r → pc_ok r p → code p r = Some (next, notify, r') → access_ok r p next notify r'.
Proof.
  intros Hr Hp. destruct p as [|l|l|l|l m first|l m first|l m|l|l]; simpl; try done.
  - intros [= <- <- <-]. by apply emplace_ok.
  - destruct Hp as [Hph Hm]. pose proof (ok_registering r Hr l Hph) as [Hopen _].
    unfold is_open. rewrite bool_decide_true by exact Hopen. intros [= <- <- <-]. by apply access_same.
  - intros [= <- <- <-]. unfold look. destruct first; simpl in Hp.
    + destruct Hp as [Hph Hm]. rewrite Hm. by apply access_same.
    + destruct (m_event_listeners r !! fileno r l); by apply access_same.
  - intros [= <- <- <-]. destruct first; [by apply ctl_first_ok|by apply ctl_ok].
  - intros [= <- <- <-]. split_and!; try done; [by apply put_mode_ok|]. intros l' Hc. by right.
  - intros [= <- <- <-]. by apply close_fd_ok.
  - intros [= <- <- <-]. by apply unregister_ok.
Qed.

Lemma begins_ok t p r :
  registry_ok (r_registry t) → begins false t p r → access_ok (r_registry t) Idle p false r.
Proof.
  intros Hr [l fd r0 Hfresh Hfree|l mode _ _|l _|l [Hph|[[=] _]]].
  - set (r' := mkRegistry _ _ _ _ _ _).
    assert (r_phase r0 l = Gone) as Hgone.
    { destruct (decide (r_phase r0 l = Gone)) as [|Hne]; [done|].
      apply (ok_known r0 Hr) in Hne as [? ?]. congruence. }
    assert (∀ l', l' ≠ l → fileno r' l' = fileno r0 l') as Hf.
    { intros l' Hne. unfold fileno. cbn. by rewrite lookup_insert_ne. }
    assert (fileno r' l = fd) as Hfl by (unfold fileno; cbn; by rewrite lookup_insert_eq).
    assert (∀ l', r_phase r' l' = if decide (l' = l) then Registering else r_phase r0 l') as Hphase by done.
    assert (∀ l', l' ≠ l → mapped r' l' ↔ mapped r0 l') as Hmapped
      by (intros l' Hne; unfold mapped; by rewrite Hf).
    assert (∀ l', l' ≠ l → opened r' l' ↔ opened r0 l') as Hopened.
    { intros l' Hne. unfold opened. rewrite Hf by done. cbn. rewrite lookup_insert_Some.
      split; [by intros [[_ [=]]|[_ ?]]|]. intros Ho. right. split; [|done]. intros ->. congruence. }
    assert (opened r' l) as Hol by (unfold opened; rewrite Hfl; apply lookup_insert_eq).
    assert (¬ mapped r' l) as Hml.
    { unfold mapped. intros Hm. by destruct (ok_map r0 Hr _ _ Hm). }
    assert (r_epoll r0 !! fd = None) as Hnone.
    { apply eq_None_not_Some. intros Hs%(ok_epoll r0 Hr). rewrite Hfree in Hs. by destruct Hs. }
    split_and!; try done.
    + split.
      * intros fd' l' Hl'. destruct (ok_map r0 Hr fd' l' Hl') as [? Hg].
        assert (l' ≠ l) as Hne by congruence. rewrite Hphase, decide_False by done.
        split; [|done]. cbn. by rewrite lookup_insert_ne.
      * intros fd' l'. cbn. rewrite lookup_insert_Some. intros [[<- <-]|[_ Ho]]; [apply lookup_insert_eq|].
        apply (ok_open r0 Hr) in Ho. rewrite lookup_insert_ne; [done|congruence].
      * intros l'. rewrite Hphase. destruct (decide (l' = l)) as [->|Hne]; [by rewrite Hfl|].
        intros Hl'. rewrite Hopened, Hf by done. by apply (ok_registering r0 Hr).
      * intros l'. rewrite Hphase. destruct (decide (l' = l)) as [->|Hne]; [done|].
        intros Hl'. rewrite Hopened, Hmapped, Hf by done. by apply (ok_live r0 Hr).
      * intros fd' Hs%(ok_epoll r0 Hr). apply lookup_insert_is_Some'. by right.
      * intros l'. rewrite Hphase. cbn. rewrite lookup_insert_is_Some'.
        destruct (decide (l' = l)) as [->|Hne]; [by left|]. intros Hg. right. by apply (ok_known r0 Hr).
    + simpl. split; [|done]. by rewrite decide_True.
    + intros q Hq. specialize (Hq l (or_intror eq_refl)).
      destruct q as [|l'|l'|l'|l' m []|l' m []| |l'|l']; try done; cbn in Hq;
        assert (l' ≠ l) as Hne by congruence; unfold pc_ok; rewrite ?Hphase, decide_False by done;
        rewrite ?Hmapped, ?Hopened, ?Hf by done; done.
    + intros l' [= <-]. right. split; intros E; discriminate (eq_trans (eq_sym Hgone) E).
    + intros l'. rewrite Hphase. destruct (decide (l' = l)); [done|]. by right.
  - split_and!; try done. intros l' Hc. by right.
  - split_and!; try done. intros l' Hc. by right.
  - set (r0 := r_registry t) in *. destruct (ok_live r0 Hr l Hph) as (Ho & Hm & Hs). split_and!; try done.
    + split; try apply Hr; cbn [put_phase r_phase m_event_listeners].
      * intros fd l' Hl'. destruct (ok_map r0 Hr fd l' Hl'). split; [done|]. by destruct (decide _).
      * intros l'. destruct (decide (l' = l)); [done|]. apply (ok_registering r0 Hr).
      * intros l'. destruct (decide (l' = l)); [done|]. apply (ok_live r0 Hr).
      * intros l'. destruct (decide (l' = l)) as [->|]; [|apply Hr]. intros _. apply Hr. by rewrite Hph.
    + simpl. by rewrite decide_True.
    + intros q Hq. apply pc_ok_phase, Hq. by right.
    + intros l' [= <-]. right. split; congruence.
    + intros l'. rewrite phase_at. destruct (decide (l' = l)) as [->|]; [by left|by right].
Qed.

(** * The machine *)

Lemma access_machine_ok t i p next notify r' :
  machine_ok t → r_pcs t !! i = Some p → access_ok (r_registry t) p next notify r' →
  machine_ok (mkMachine r' (<[i := next]> (if notify : bool then wake <$> r_pcs t else r_pcs t))).
Proof. intros Hok Hi (? & ? & ? & ? & ?). by eapply machine_ok_after. Qed.

Lemma advance_ok t i t' : machine_ok t → advance i t = Some t' → machine_ok t'.
Proof.
  intros Hok (p & Hi & ([[next notify] r'] & Hc & [= <-])%bind_Some)%bind_Some.
  eapply access_machine_ok; [done..|]. by apply (code_ok _ _ _ _ _ (ok_registry t Hok) (ok_pcs t Hok i p Hi)).
Qed.

Lemma step_ok t t' : machine_ok t → step false t t' → machine_ok t'.
Proof.
  intros Hok [i t1 Hadv|i p r Hi Hb|i l Hi].
  - by eapply advance_ok.
  - apply (access_machine_ok t i Idle p false r Hok Hi). by apply begins_ok; [apply Hok|].
  - pose proof (ok_pcs t Hok i _ Hi) as Hp. apply (access_machine_ok t i (Asleep l) _ false _ Hok Hi).
    apply access_same; [apply Hok|done| |done]. by apply (wake_ok _ (Asleep l)).
Qed.

Lemma start_ok threads : machine_ok (start threads).
Proof.
  assert (∀ i p, r_pcs (start threads) !! i = Some p → p = Idle) as Hidle
    by (by intros i p [-> _]%lookup_replicate_1).
  split; [| | |done].
  - split; try done; cbn; intros *; rewrite lookup_empty; [done..|by intros []].
  - by intros i p ->%Hidle.
  - by intros i j p q l ->%Hidle.
Qed.

Lemma reach_ok threads t : reach false threads t → machine_ok t ∧ length (r_pcs t) = threads.
Proof.
  induction 1 as [|t t' _ [Hok Hlen] Hstep]; [split; [apply start_ok|apply length_replicate]|].
  split; [by eapply step_ok|]. rewrite <- Hlen.
  destruct Hstep as [i t1 (p & Hi & ([[next []] r'] & Hc & [= <-])%bind_Some)%bind_Some|i p r Hi _|i l Hi];
    cbn [r_pcs]; by rewrite length_insert, ?length_fmap.
Qed.

(** C9: listeners are registered, change their modes and are closed by any number
    of threads, and the system reuses descriptors as soon as they are closed. As
    long as the application closes a listener only after its registration has
    returned, the registry is exact: every live listener is the one the event loop
    finds under its descriptor, the descriptor is open and is its own, and epoll
    watches it; and an entry of the map is under the descriptor of its listener,
    which has not been unregistered. *)
Theorem registry_exact threads t :
  reach false threads t →
  let r := r_registry t in
  (∀ l, r_phase r l = Live →
     m_event_listeners r !! fileno r l = Some l ∧ r_open r !! fileno r l = Some l ∧
     is_Some (r_epoll r !! fileno r l)) ∧
  (∀ fd l, m_event_listeners r !! fd = Some l → fileno r l = fd ∧ r_phase r l ≠ Gone) ∧
  (∀ l l', r_phase r l = Live → r_phase r l' = Live → fileno r l = fileno r l' → l = l').
Proof.
  intros Hreach r. destruct (reach_ok threads t Hreach) as [[Hr _ _ _] _]. fold r in Hr. split_and!.
  - intros l Hl. destruct (ok_live r Hr l Hl) as (Ho & Hm & Hs). by split_and!.
  - intros fd l Hl. destruct (ok_map r Hr fd l Hl) as [Hf Hg]. split; [by apply known_fileno|done].
  - intros l l' Hl Hl' E. destruct (ok_live r Hr l Hl) as (Ho & _), (ok_live r Hr l' Hl') as (Ho' & _).
    by apply (opened_apart r).
Qed.

(** ** Registrations return *)

(** What a thread still has to do; [n] threads may have to try again when a
    listener is unregistered. *)
Definition rank (n : nat) p : nat :=
  match p with
  | Idle => 0
  | Asleep _ | Ctl _ _ _ => 1
  | Look _ _ _ => 2
  | RegValid _ | SetStore _ _ => 3
  | RegTry _ => 4
  | Unregister _ => 1 + 3 * n
  | CloseFd _ => 2 + 3 * n
  end.

Definition work t : nat := sum_list_with (rank (length (r_pcs t))) (r_pcs t).

Lemma sum_rank_wake n pcs :
  (sum_list_with (rank n) (wake <$> pcs) ≤ sum_list_with (rank n) pcs + 3 * length pcs)%nat.
Proof.
  induction pcs as [|p pcs IH]; csimpl; [lia|].
  assert (rank n (wake p) ≤ rank n p + 3)%nat by (destruct p; unfold wake, rank; lia). lia.
Qed.

Lemma code_rank n p r next notify r' :
  code p r = Some (next, notify, r') →
  (rank n next + (if notify : bool then 3 * n else 0) < rank n p)%nat.
Proof.
  destruct p as [|l|l|l|l m first|l m first|l m|l|l]; simpl; try done.
  - unfold emplace. destruct (_ !! _); intros [= <- <- _]; simpl; lia.
  - destruct (is_open r l); intros [= <- <- _]; simpl; lia.
  - unfold look. destruct (_ !! _); intros [= <- <- _]; simpl; lia.
  - intros [= <- <- _]. simpl. lia.
  - intros [= <- <- _]. simpl. lia.
  - intros [= <- <- _]. simpl. lia.
  - intros [= <- <- _]. destruct (bool_decide _); simpl; lia.
Qed.

Definition goes_on t t' : Prop := ∃ i, advance i t = Some t'.

Lemma goes_on_work t t' :
  goes_on t t' → (work t' < work t)%nat ∧ length (r_pcs t') = length (r_pcs t).
Proof.
  intros [i (p & Hi & ([[next notify] r'] & Hc & [= <-])%bind_Some)%bind_Some].
  unfold work. cbn [r_pcs]. rewrite !length_insert.
  apply (code_rank (length (r_pcs t))) in Hc. destruct notify; rewrite ?length_fmap.
  - assert ((wake <$> r_pcs t) !! i = Some (wake p)) as Hi' by (by rewrite list_lookup_fmap, Hi).
    pose proof (sum_list_with_insert (rank (length (r_pcs t))) _ i _ next Hi').
    pose proof (sum_rank_wake (length (r_pcs t)) (r_pcs t)).
    assert (rank (length (r_pcs t)) p ≤ rank (length (r_pcs t)) (wake p))%nat by (destruct p; unfold wake, rank; lia).
    split; [lia|done].
  - pose proof (sum_list_with_insert (rank (length (r_pcs t))) _ i _ next Hi). split; [lia|done].
Qed.

(** Only a thread whose descriptor belongs to a listener that another thread is
    unregistering sleeps. *)
Lemma registry_rests t :
  machine_ok t → (∀ t', ¬ goes_on t t') → ∀ i p, r_pcs t !! i = Some p → p = Idle.
Proof.
  intros Hok Hrest.
  assert (∀ i p, r_pcs t !! i = Some p → code p (r_registry t) = None) as Hnone.
  { intros i p Hi. destruct (code p (r_registry t)) as [[[next notify] r']|] eqn:Hc; [|done].
    edestruct (Hrest (mkMachine r' (<[i := next]> (if notify then wake <$> r_pcs t else r_pcs t)))).
    exists i. unfold advance. rewrite Hi. simpl. by rewrite Hc. }
  intros i p Hi. pose proof (Hnone i p Hi) as Hc. pose proof (ok_pcs t Hok i p Hi) as Hp.
  destruct p as [|l|l|l|l m first|l m first|l m|l|l]; try done; [|simpl in Hc; by destruct (is_open _ l)].
  destruct Hp as (Hph & Hm & l' & Hl'). pose proof (ok_registry t Hok) as Hr.
  destruct (ok_map _ Hr _ _ Hl') as [Hf Hg]. apply known_fileno in Hf.
  assert (l' ≠ l) as Hne by (intros ->; by apply Hm).
  assert (¬ opened (r_registry t) l') as Ho.
  { intros Ho. apply Hne, (opened_apart _ l' l Ho); [by apply (ok_registering _ Hr)|done]. }
  destruct (r_phase (r_registry t) l') eqn:Hph'; [| | |done].
  - by destruct (ok_registering _ Hr l' Hph').
  - by destruct (ok_live _ Hr l' Hph').
  - destruct (ok_closing t Hok l' Hph') as (j & q & Hj & Hq).
    pose proof (Hnone j q Hj) as Hcq. pose proof (ok_pcs t Hok j q Hj) as Hqok.
    destruct q as [|k|k|k|k m []|k m []|k m|k|k]; try done; [|simpl in Hcq; by destruct (is_open _ k)].
    injection Hq as ->. destruct Hqok. congruence.
Qed.

(** C10: in the same system a registration that waits for the listener that had the
    descriptor before is always woken up: once no further calls are made every
    execution is finite, with a bound that is known in advance, and ends with every
    registration, closing and change of mode returned. *)
Theorem registrations_return threads t :
  reach false threads t →
  ∀ k t', nsteps goes_on k t t' →
    (k ≤ work t)%nat ∧
    ((∃ t'', goes_on t' t'') ∨ r_pcs t' = replicate threads Idle).
Proof.
  intros Hreach. destruct (reach_ok threads t Hreach) as [Hok Hlen]. intros k t' Hsteps.
  assert (machine_ok t' ∧ length (r_pcs t') = threads ∧ (k + work t' ≤ work t)%nat) as (Hok' & Hlen' & Hk).
  { clear Hreach. induction Hsteps as [t|k t t1 t2 Hs _ IH]; [by split_and!|].
    destruct (goes_on_work t t1 Hs) as [Hlt Hl]. destruct Hs as [i Hs].
    destruct IH as (? & ? & ?); [by eapply advance_ok|congruence|]. split_and!; [done..|lia]. }
  split; [lia|].
  destruct (decide (Forall (λ p, code p (r_registry t') = None) (r_pcs t'))) as [Hall|Hsome].
  - right. assert (∀ t'', ¬ goes_on t' t'') as Hrest.
    { intros t'' [i (p & Hi & (c & Hc & _)%bind_Some)%bind_Some].
      rewrite Forall_lookup in Hall. by rewrite (Hall i p Hi) in Hc. }
    apply list_eq. intros i. destruct (r_pcs t' !! i) as [p|] eqn:Hi.
    + rewrite (registry_rests t' Hok' Hrest i p Hi). symmetry. apply lookup_replicate_2.
      rewrite <- Hlen'. by eapply lookup_lt_Some.
    + symmetry. apply lookup_replicate_None. rewrite <- Hlen'. by apply lookup_ge_None_1.
  - left. apply not_Forall_Exists in Hsome; [|intros p; apply _].
    apply Exists_exists in Hsome as (p & [i Hi]%list_elem_of_lookup & Hp).
    destruct (code p (r_registry t')) as [[[next notify] r']|] eqn:Hc; [|done].
    eexists _, i. unfold advance. rewrite Hi. simpl. by rewrite Hc.
Qed.
