(* ===== verification/RegistryRaces.v ===== *)
(** The registry of the event loop under threads (Registry.v): concrete
    interleavings, also of what goes wrong. *)
From stdpp Require Import gmap relations.
From S2P Require Import Prelude Listener Registry RegistryProps.
Local Open Scope Z_scope.

(** * Following a schedule *)

Inductive choice :=
| Go (i : nat)
| Register (i l : nat) (fd : Z)
| SetMode (i l : nat) (mode : Mode)
| ReRegister (i l : nat)
| Close (i l : nat).

(** What a thread that is idle begins with. *)
Definition begin (i : nat) (p : pc) (r : registry) (t : machine) : option machine :=
  match r_pcs t !! i with
  | Some Idle => Some (mkMachine r (<[i := p]> (r_pcs t)))
  | _ => None
  end.

Definition choose (early : bool) (c : choice) (t : machine) : option machine :=
  let r := r_registry t in
  match c with
  | Go i => advance i t
  | Register i l fd =>
      match r_fileno r !! l, r_open r !! fd with
      | None, None =>
          begin i (RegTry l)
            (mkRegistry (m_event_listeners r) (<[fd := l]> (r_open r)) (r_epoll r)
              (<[l := fd]> (r_fileno r)) (r_mode (put_mode l ReadOnly r))
              (r_phase (put_phase l Registering r))) t
      | _, _ => None
      end
  | SetMode i l mode =>
      if is_open r l && bool_decide (r_mode r l ≠ mode) then begin i (SetStore l mode) r t else None
  | ReRegister i l => if is_open r l then begin i (Look l (r_mode r l) false) r t else None
  | Close i l =>
      if bool_decide (r_phase r l = Live) || early && bool_decide (r_phase r l = Registering)
      then begin i (CloseFd l) (put_phase l Closing r) t else None
  end.

Lemma begin_step early i p r t t' :
  begins early t p r → begin i p r t = Some t' → step early t t'.
Proof.
  unfold begin. intros Hb. destruct (r_pcs t !! i) as [[]|] eqn:Hi; try done.
  intros [= <-]. by apply step_begin.
Qed.

Lemma registry_choose_step early c t t' : choose early c t = Some t' → step early t t'.
Proof.
  destruct c as [i|i l fd|i l m|i l|i l]; cbn [choose].
  - apply step_run.
  - destruct (r_fileno _ !! l) eqn:Hl; [done|]. destruct (r_open _ !! fd) eqn:Hfd; [done|].
    apply begin_step. by apply begin_register.
  - destruct (is_open _ l) eqn:Ho; [|done]. simpl. case_bool_decide as Hm; [|done].
    apply begin_step. by apply begin_set_mode.
  - destruct (is_open _ l) eqn:Ho; [|done]. apply begin_step. by apply begin_re_register.
  - destruct (_ || _) eqn:Hp; [|done]. apply begin_step, begin_close.
    apply orb_true_iff in Hp as [Hp%bool_decide_eq_true|[-> Hp%bool_decide_eq_true]%andb_true_iff]; auto.
Qed.

Fixpoint play (early : bool) (cs : list choice) (t : machine) : option machine :=
  match cs with
  | [] => Some t
  | c :: rest => t' ← choose early c t; play early rest t'
  end.

Lemma registry_play_reach early threads cs t t' :
  reach early threads t → play early cs t = Some t' → reach early threads t'.
Proof.
  revert t. induction cs as [|c cs IH]; intros t Ht; simpl; [by intros [= <-]|].
  intros (t1 & Hc & Hp)%bind_Some. apply (IH t1); [|done].
  eapply reach_step; [done|by eapply registry_choose_step].
Qed.

Lemma registry_played early threads cs (P : machine → bool) :
  match play early cs (start threads) with Some t => P t | None => false end = true →
  ∃ t, reach early threads t ∧ P t = true.
Proof.
  destruct (play early cs (start threads)) as [t|] eqn:Hp; [|done]. intros HP. exists t.
  split; [|done]. eapply registry_play_reach; [apply reach_start|done].
Qed.

Definition go (i n : nat) : list choice := replicate n (Go i).

(** * What goes wrong *)

Definition all_idle (t : machine) : bool := forallb (λ p, match p with Idle => true | _ => false end) (r_pcs t).

(** The live listener [l] wants to write, and epoll watches it for reading only. *)
Definition wrong_mode (l : nat) (t : machine) : bool :=
  let r := r_registry t in
  all_idle t && bool_decide (r_phase r l = Live) && bool_decide (r_mode r l = ReadWrite) &&
  bool_decide (r_epoll r !! fileno r l = Some ReadOnly).

(** A thread sleeps in the registration of [l], whose socket is open, and nobody
    is left to wake it up. *)
Definition sleeps_for (l : nat) (t : machine) : bool :=
  forallb (λ p, match p with Idle => true | Asleep l' => bool_decide (l' = l) | _ => false end) (r_pcs t) &&
  negb (all_idle t) && is_open (r_registry t) l.

(** C33: what the registry does not exclude. A worker that has looked its listener
    up and is about to change the registration of its descriptor can come too
    late: when the listener has been closed and its descriptor given to another
    one in between, it overwrites the mode of that one, which then waits for write
    events in vain. And when a listener is closed while it is being registered, it
    removes the entry of the listener that had its descriptor before and is
    entered itself when nobody will remove it any more: the next registration on
    this descriptor never returns. *)
Theorem registry_races :
  (∃ t, reach false 2 t ∧ wrong_mode 1 t = true) ∧
  (∃ t, reach true 3 t ∧ sleeps_for 2 t = true ∧ ∀ t', ¬ goes_on t t').
Proof.
  split.
  - apply (registry_played false 2
      ([Register 0 0 7] ++ go 0 4 ++ [ReRegister 1 0; Go 1; Close 0 0] ++ go 0 2 ++
       [Register 0 1 7] ++ go 0 4 ++ [SetMode 0 1 ReadWrite] ++ go 0 3 ++ [Go 1])).
    vm_compute. reflexivity.
  - destruct (registry_played true 3
      ([Register 0 0 7] ++ go 0 4 ++ [Close 0 0; Go 0; Register 1 1 7; Go 1; Close 2 1; Go 2; Go 2; Go 0] ++
       go 1 2 ++ [Register 0 2 7; Go 0]) (sleeps_for 2)) as (t & Ht & Hs); [vm_compute; reflexivity|].
    exists t. split; [done|]. split; [done|]. unfold sleeps_for in Hs. rewrite !andb_true_iff in Hs.
    destruct Hs as [[Hs _] _]. intros t' [i (p & Hi & ([[n b] r'] & Hc & _)%bind_Some)%bind_Some].
    rewrite forallb_forall in Hs. specialize (Hs p). destruct p; try done;
      (discriminate Hs; eapply list_elem_of_In, list_elem_of_lookup_2; exact Hi).
Qed.

(** * Witnesses *)

(** One listener is registered; another one, on the descriptor of a third that has
    been closed and is not unregistered yet, waits. *)
Lemma sample_registry :
  ∃ t, reach false 3 t ∧
    bool_decide (r_phase (r_registry t) 0 = Live) &&
    bool_decide (r_pcs t = [Idle; Unregister 1; Asleep 2]) && bool_decide (work t = 11%nat) = true.
Proof.
  apply (registry_played false 3 ([Register 0 0 7] ++ go 0 4 ++ [Register 1 1 8] ++ go 1 4 ++
    [Close 1 1; Go 1; Register 2 2 8; Go 2])
    (λ t, bool_decide (r_phase (r_registry t) 0 = Live) &&
      bool_decide (r_pcs t = [Idle; Unregister 1; Asleep 2]) && bool_decide (work t = 11%nat))).
  vm_compute. reflexivity.
Qed.

Lemma registry_exact_witness :
  ∃ t, reach false 3 t ∧ is_Some (r_epoll (r_registry t) !! fileno (r_registry t) 0).
Proof.
  destruct sample_registry as (t & Ht & Hs). exists t. split; [done|].
  rewrite !andb_true_iff, !bool_decide_eq_true in Hs. destruct Hs as [[Hl _] _].
  by destruct (proj1 (registry_exact 3 t Ht) 0%nat Hl) as (_ & _ & ?).
Defined.

Lemma registrations_return_witness :
  ∃ t, reach false 3 t ∧ r_pcs t = [Idle; Unregister 1; Asleep 2] ∧
    ∀ k t', nsteps goes_on k t t' → (k ≤ 11)%nat.
Proof.
  destruct sample_registry as (t & Ht & Hs). exists t. split; [done|].
  rewrite !andb_true_iff, !bool_decide_eq_true in Hs. destruct Hs as [[_ Hpcs] Hw]. split; [done|].
  intros k t' Hk. destruct (registrations_return 3 t Ht k t' Hk) as [Hle _]. by rewrite Hw in Hle.
Defined.
