(* ===== verification/Dispatch.v ===== *)
(** Several threads on one [NetworkSocketListener] of a connection: the workers of
    the event loop that handle its events and the threads of the application that
    call [send] and [close_socket], as interleaved steps
    (src/NetworkSocketListener.cpp, and the part of src/EventLoop.cpp that concerns
    one listener).

    [code] is the program text, one control point per access to what the threads
    share. A call on the socket is one step: receiving happens under [m_mutex],
    sending under [m_send_mutex], and Threads.v interleaves the steps inside. *)
From S2P Require Import Prelude Machine Slicer Listener Mutex.
Local Open Scope Z_scope.

(** [m_mutex] and [m_send_mutex]. *)
Inductive lock := ListenerMutex | SendMutex.

#[export] Instance lock_eq_dec : EqDecision lock.
Proof. solve_decision. Defined.

(** What epoll reports. *)
Inductive event := Readable | Writable | Both | Failed.

(** The descriptor in the interest list of epoll; [EPOLLONESHOT] disables it when
    an event is reported. *)
Inductive interest := Absent | Disabled | Armed (mode : Mode).

(** The calls an application makes, also from inside [on_network_message].
    [send] is one of the overloads of the socket's [send]. *)
Inductive call (K : Type) :=
| CallSend (send : M K bool) (blocking : bool)
| CallClose.
Arguments CallSend {K}.
Arguments CallClose {K}.

(** Where [is_valid], [set_mode] (with [notify_listener_mode_change]) and
    [close_socket] return to. [held]: [m_send_mutex] is still locked. *)
Inductive after_valid := ValidSend (more : bool) | ValidWrite (held : bool).
Inductive after_mode := ModeSend | ModeWrite (held : bool) | ModeRegister.
Inductive after_close := CloseReturn | CloseSend | CloseSendEnd | CloseWrite.

(** Control points. *)
Inductive frame (K : Type) :=
(* the application; [Callback] is the body of [on_network_message] *)
| App
| Callback
(* [EventLoop::thread_loop] with [update] *)
| Poll                                  (* in [epoll_wait] *)
| Look (ev : event)                     (* [m_event_listeners.find(fd)] *)
| Handle (ev : event)                   (* the branch on the type *)
| HandleWrite                           (* [listener->on_write_ready()], after the read *)
| Register                              (* [listener->re_register(false)] *)
| Exited                                (* no listener: the thread has ended *)
(* [re_register] *)
| RegLock (first : bool)
| RegValid (first : bool)               (* [if (!m_socket->is_valid())] *)
| RegMode (first : bool)                (* the argument [m_mode] *)
| RegUnlock
(* [on_read_ready] *)
| ReadLock
| Receive                               (* [m_socket->receive()] *)
| ReadUnlock (msg : message_in_t)
| Deliver (msg : message_in_t)          (* the call of [on_network_message] *)
| ReadTest                              (* [if (m_socket && !m_socket->is_valid())] *)
(* [on_write_ready] *)
| WriteLock
| DoSend                                (* [m_socket->do_send()] *)
| WriteUnlock                           (* [lock.unlock()] in the handler *)
| WriteEnd                              (* leaving with [m_send_mutex] *)
(* [send] *)
| SendLock (send : M K bool) (blocking : bool)
| Try (send : M K bool) (blocking : bool)
| SendFull (send : M K bool) (blocking : bool)  (* [send_lock.unlock()] *)
| SendWait (send : M K bool) (blocking : bool)  (* [wait_send_queue_empty()], its test *)
| SendAsleep (send : M K bool) (blocking : bool) (* in [m_send_queue_cond.wait(lock)] *)
| SendEnd
(* [is_valid] *)
| ValidLock (k : after_valid)
| ValidRead (k : after_valid)
| ValidUnlock (k : after_valid) (valid : bool)
(* [set_mode] and [notify_listener_mode_change] *)
| ModeTest (mode : Mode) (k : after_mode)       (* [if (mode == m_mode)] *)
| ModeStore (mode : Mode) (k : after_mode)      (* [m_mode = mode] *)
| NotifyLook (mode : Mode) (first : bool) (k : after_mode)
| NotifyCtl (mode : Mode) (first : bool) (k : after_mode)
(* [close_socket] and [close_socket_internal]; [held]: [m_mutex] is still locked *)
| CloseLock (k : after_close)
| CloseTest (k : after_close)           (* [if (m_socket && m_socket->is_valid())] *)
| CloseCall (k : after_close)           (* [m_socket->close()] *)
| CloseUnlock (done : bool) (k : after_close)
| CloseDone (done held : bool) (k : after_close)  (* [if (done && !m_has_disconnected)] *)
| CloseSet (held : bool) (k : after_close)        (* [m_has_disconnected = true] *)
| CloseDisc (held : bool) (k : after_close)       (* [on_disconnect()] *)
| CloseUnreg (held : bool) (k : after_close)      (* [unregister_event_listener] *)
| CloseEnd (k : after_close)            (* leaving with [m_mutex] *)
| Return
| Aborted (msg : string).               (* the process has ended *)
Arguments App {K}.
Arguments Callback {K}.
Arguments Poll {K}.
Arguments Look {K}.
Arguments Handle {K}.
Arguments HandleWrite {K}.
Arguments Register {K}.
Arguments Exited {K}.
Arguments RegLock {K}.
Arguments RegValid {K}.
Arguments RegMode {K}.
Arguments RegUnlock {K}.
Arguments ReadLock {K}.
Arguments Receive {K}.
Arguments ReadUnlock {K}.
Arguments Deliver {K}.
Arguments ReadTest {K}.
Arguments WriteLock {K}.
Arguments DoSend {K}.
Arguments WriteUnlock {K}.
Arguments WriteEnd {K}.
Arguments SendLock {K}.
Arguments Try {K}.
Arguments SendFull {K}.
Arguments SendWait {K}.
Arguments SendAsleep {K}.
Arguments SendEnd {K}.
Arguments ValidLock {K}.
Arguments ValidRead {K}.
Arguments ValidUnlock {K}.
Arguments ModeTest {K}.
Arguments ModeStore {K}.
Arguments NotifyLook {K}.
Arguments NotifyCtl {K}.
Arguments CloseLock {K}.
Arguments CloseTest {K}.
Arguments CloseCall {K}.
Arguments CloseUnlock {K}.
Arguments CloseDone {K}.
Arguments CloseSet {K}.
Arguments CloseDisc {K}.
Arguments CloseUnreg {K}.
Arguments CloseEnd {K}.
Arguments Return {K}.
Arguments Aborted {K}.

(** What the threads share besides the mutexes: the socket, the fields of the
    listener, whether the event loop has it in [m_event_listeners], and epoll. *)
Record shared (K C : Type) := mkShared {
  d_socket : K;
  d_fileno : Z;
  d_has_disconnected : bool;
  d_mode : Mode;
  d_registered : bool;
  d_interest : interest;
  d_trace : list (levent C);
}.
Arguments mkShared {K C}.
Arguments d_socket {K C}.
Arguments d_fileno {K C}.
Arguments d_has_disconnected {K C}.
Arguments d_mode {K C}.
Arguments d_registered {K C}.
Arguments d_interest {K C}.
Arguments d_trace {K C}.

(** A thread takes a step at the control point on top of its stack. [Access]
    puts one or more control points in its place. *)
Inductive action (K S : Type) :=
| Rest
| Acquire (l : lock) (next : frame K)
| Release (l : lock) (next : frame K)
| Access (m : M S (list (frame K)))
| Pop.
Arguments Rest {K S}.
Arguments Acquire {K S}.
Arguments Release {K S}.
Arguments Access {K S}.
Arguments Pop {K S}.

(** The condition variable [m_send_queue_cond] of a socket. [sk_must_wait]: the test
    of [wait_send_queue_empty]. [sk_notified k k']: a call that has taken the socket
    from [k] to [k'] has called [notify_all]. [sk_abandoned]: the descriptor was
    given up on the path of [close] that does not call it. *)
Class SendQueue (K : Type) := {
  sk_must_wait : K → bool;
  sk_notified : K → K → bool;
  sk_abandoned : K → bool;
}.

Section code.
Context {K : Type} `{Socket K} `{SendQueue K}.
Abbreviation S := (shared K sk_child).
Implicit Types (s : S) (f : frame K).

(** ** Access to the shared state *)

Definition on_sock {A} (m : M K A) : M S A := λ s,
  let '(o, k) := m (d_socket s) in
  (o, mkShared k (d_fileno s) (d_has_disconnected s) (d_mode s) (d_registered s) (d_interest s) (d_trace s)).

Definition modify_shared (g : S → S) : M S unit := λ s, (Val tt, g s).

Definition put_disconnected (s : S) : S :=
  mkShared (d_socket s) (d_fileno s) true (d_mode s) (d_registered s) (d_interest s) (d_trace s).
Definition put_mode (m : Mode) (s : S) : S :=
  mkShared (d_socket s) (d_fileno s) (d_has_disconnected s) m (d_registered s) (d_interest s) (d_trace s).
Definition put_registration (b : bool) (i : interest) (s : S) : S :=
  mkShared (d_socket s) (d_fileno s) (d_has_disconnected s) (d_mode s) b i (d_trace s).
Definition put_event (e : levent sk_child) (s : S) : S :=
  mkShared (d_socket s) (d_fileno s) (d_has_disconnected s) (d_mode s) (d_registered s) (d_interest s)
    (d_trace s ++ [e]).

Definition go f : M S (list (frame K)) := mret [f].

(** [callee] is called; [f] is where it returns to. *)
Definition calls (callee f : frame K) : M S (list (frame K)) := mret [callee; f].

(** ** The event loop *)

(** [epoll_ctl] with [EPOLL_CTL_ADD] ([first]) or [EPOLL_CTL_MOD]; an error is
    only logged. *)
Definition ctl (mode : Mode) (first : bool) (s : S) : interest :=
  if negb (sk_is_valid (d_socket s)) then d_interest s else
  match d_interest s, first with
  | Absent, true => Armed mode
  | (Disabled | Armed _), false => Armed mode
  | i, _ => i
  end.

Definition look (ev : event) : M S (list (frame K)) :=
  s ← get;
  go (if d_registered s then Handle ev else Exited).

Definition handle (ev : event) : M S (list (frame K)) :=
  match ev with
  | Readable => calls ReadLock Register
  | Writable => calls WriteLock Register
  | Both => calls ReadLock HandleWrite
  | Failed => calls (CloseLock CloseReturn) Register
  end.

(** ** Sending *)

Definition after_set_mode (k : after_mode) : frame K :=
  match k with
  | ModeSend => SendEnd
  | ModeWrite held => if held then WriteEnd else Return
  | ModeRegister => RegUnlock
  end.

Definition after_is_valid (k : after_valid) (valid : bool) : frame K :=
  match k with
  | ValidSend more =>
      if valid then ModeTest (if more then ReadWrite else ReadOnly) ModeSend
      else CloseLock CloseSendEnd
  | ValidWrite held =>
      if valid then ModeTest ReadOnly (ModeWrite held) else if held then WriteEnd else Return
  end.

Definition try_send (send : M K bool) (blocking : bool) : M S (list (frame K)) :=
  catch (has_more ← on_sock send; go (ValidLock (ValidSend has_more))) (λ e,
    match e with
    | socket_error _ => go (CloseLock CloseSend)
    | send_queue_full => go (if blocking then SendFull send blocking else CloseLock CloseSend)
    | _ => throw e
    end).

Definition write_event : M S (list (frame K)) :=
  catch (has_more ← on_sock sk_do_send;
         go (if has_more : bool then WriteEnd else ValidLock (ValidWrite true))) (λ e,
    match e with
    | socket_error _ => go WriteUnlock
    | _ => throw e
    end).

(** ** Receiving *)

Definition receive_message : M S (list (frame K)) :=
  catch (message ← on_sock sk_receive;
         go (match message with Some msg => ReadUnlock msg | None => ReadTest end)) (λ e,
    match e with
    | socket_error _ => go ReadTest
    | _ => throw e
    end).

(** ** Closing *)

Definition after_close_socket (k : after_close) : frame K :=
  match k with
  | CloseReturn => Return
  | CloseSend => ValidLock (ValidSend false)
  | CloseSendEnd => SendEnd
  | CloseWrite => ValidLock (ValidWrite false)
  end.

(** The end of [close_socket_internal]; the caller's lock unlocks if it still owns
    the mutex. *)
Definition close_end (held : bool) (k : after_close) : frame K :=
  if held then CloseEnd k else after_close_socket k.

Definition unregister (s : S) : S :=
  if d_registered s then put_registration false Absent s else s.

(** ** The program text *)

Definition code f : action K S :=
  match f with
  | App | Poll | Exited | SendAsleep _ _ | Aborted _ => Rest
  | Callback => Access (go ReadLock)
  | Look ev => Access (look ev)
  | Handle ev => Access (handle ev)
  | HandleWrite => Access (calls WriteLock Register)
  | Register => Access (calls (RegLock false) Poll)
  | RegLock first => Acquire SendMutex (RegValid first)
  | RegValid first => Access (
      s ← get; go (if sk_is_valid (d_socket s) then RegMode first else RegUnlock))
  | RegMode first => Access (
      s ← get;
      modify_shared (put_event (ModeChanged (d_fileno s) (d_mode s) first));;
      go (NotifyLook (d_mode s) first ModeRegister))
  | RegUnlock => Release SendMutex Return
  | ReadLock => Acquire ListenerMutex Receive
  | Receive => Access receive_message
  | ReadUnlock msg => Release ListenerMutex (Deliver msg)
  | Deliver msg => Access (modify_shared (put_event (GotMessage msg));; go Callback)
  | ReadTest => Access (
      s ← get;
      go (if sk_is_valid (d_socket s) then CloseEnd CloseReturn else CloseTest CloseReturn))
  | WriteLock => Acquire SendMutex DoSend
  | DoSend => Access write_event
  | WriteUnlock => Release SendMutex (CloseLock CloseWrite)
  | WriteEnd => Release SendMutex Return
  | SendLock send blocking => Acquire SendMutex (Try send blocking)
  | Try send blocking => Access (try_send send blocking)
  | SendFull send blocking => Release SendMutex (SendWait send blocking)
  | SendWait send blocking => Access (
      s ← get;
      go (if sk_must_wait (d_socket s) then SendAsleep send blocking else SendLock send blocking))
  | SendEnd => Release SendMutex Return
  | ValidLock k => Acquire ListenerMutex (ValidRead k)
  | ValidRead k => Access (s ← get; go (ValidUnlock k (sk_is_valid (d_socket s))))
  | ValidUnlock k valid => Release ListenerMutex (after_is_valid k valid)
  | ModeTest mode k => Access (
      s ← get; go (if bool_decide (mode = d_mode s) then after_set_mode k else ModeStore mode k))
  | ModeStore mode k => Access (
      s ← get;
      modify_shared (put_mode mode);;
      modify_shared (put_event (ModeChanged (d_fileno s) mode false));;
      go (NotifyLook mode false k))
  | NotifyLook mode first k => Access (
      s ← get; go (if d_registered s then NotifyCtl mode first k else after_set_mode k))
  | NotifyCtl mode first k => Access (
      modify_shared (λ s, put_registration (d_registered s) (ctl mode first s) s);;
      go (after_set_mode k))
  | CloseLock k => Acquire ListenerMutex (CloseTest k)
  | CloseTest k => Access (
      s ← get; go (if sk_is_valid (d_socket s) then CloseCall k else CloseDone true true k))
  | CloseCall k => Access (done ← on_sock (sk_close false); go (CloseUnlock done k))
  | CloseUnlock done k => Release ListenerMutex (CloseDone done false k)
  | CloseDone done held k => Access (
      s ← get; go (if done && negb (d_has_disconnected s) then CloseSet held k else close_end held k))
  | CloseSet held k => Access (modify_shared put_disconnected;; go (CloseDisc held k))
  | CloseDisc held k => Access (modify_shared (put_event GotDisconnect);; go (CloseUnreg held k))
  | CloseUnreg held k => Access (
      s ← get;
      modify_shared unregister;;
      modify_shared (put_event (Unregistered (d_fileno s)));;
      go (close_end held k))
  | CloseEnd k => Release ListenerMutex (after_close_socket k)
  | Return => Pop
  end.

(** * The machine *)

Record dispatch := mkDispatch {
  d_shared : S;
  d_owner : lock → option nat;
  d_stacks : list (list (frame K));
}.

Definition is_aborted f : bool := match f with Aborted _ => true | _ => false end.

Definition dead (d : dispatch) : bool := existsb (existsb is_aborted) (d_stacks d).

Definition abort_message {A} (o : outcome A) : string :=
  match o with
  | Halt (Fatal msg) | Halt (UB msg) => msg
  | _ => "terminate called"
  end.

(** A thread that sleeps wakes up, and tests again. *)
Definition wake (st : list (frame K)) : list (frame K) :=
  match st with SendAsleep send blocking :: rest => SendWait send blocking :: rest | _ => st end.

(** What an access has done to the socket wakes up the threads that sleep. *)
Definition notified (s s' : S) (stacks : list (list (frame K))) : list (list (frame K)) :=
  if sk_notified (d_socket s) (d_socket s') then wake <$> stacks else stacks.

(** One step of thread [i]; [None] when it has nothing to do or must wait. *)
Definition advance (i : nat) (d : dispatch) : option dispatch :=
  if dead d then None else
  st ← d_stacks d !! i;
  match st with
  | [] => None
  | f :: rest =>
      match code f with
      | Rest => None
      | Acquire l next =>
          match d_owner d l with
          | Some _ => None
          | None => Some (mkDispatch (d_shared d) (set_owner l (Some i) (d_owner d))
                            (<[i := next :: rest]> (d_stacks d)))
          end
      | Release l next =>
          Some (mkDispatch (d_shared d) (set_owner l None (d_owner d))
                  (<[i := next :: rest]> (d_stacks d)))
      | Access m =>
          let '(o, s) := m (d_shared d) in
          Some (mkDispatch s (d_owner d)
            (<[i := match o with Val fs => fs | _ => [Aborted (abort_message o)] end ++ rest]>
              (notified (d_shared d) s (d_stacks d))))
      | Pop => Some (mkDispatch (d_shared d) (d_owner d) (<[i := rest]> (d_stacks d)))
      end
  end.

Definition enter (c : call K) : frame K :=
  match c with
  | CallSend send blocking => SendLock send blocking
  | CallClose => CloseLock CloseReturn
  end.

(** Where the application's own code runs. *)
Definition user_code f : bool := match f with App | Callback => true | _ => false end.

(** Epoll reports writing only when asked for it. *)
Definition reported (ev : event) (m : Mode) : bool :=
  match ev, m with (Writable | Both), ReadOnly => false | _, _ => true end.

(** [epoll_wait] returns an event of the descriptor. *)
Definition take_event (s : S) : S := put_registration (d_registered s) Disabled s.

(** A step of the system: a thread goes on, the application makes one of the calls
    that are [allowed], a waiting worker gets an event, or a sleeping thread wakes up
    without having been notified. *)
Inductive dstep (allowed : call K → Prop) (d : dispatch) : dispatch → Prop :=
| dstep_run i d' : advance i d = Some d' → dstep allowed d d'
| dstep_call i f rest c :
    dead d = false → d_stacks d !! i = Some (f :: rest) → user_code f = true → allowed c →
    dstep allowed d (mkDispatch (d_shared d) (d_owner d)
      (<[i := enter c :: f :: rest]> (d_stacks d)))
| dstep_event i rest ev m :
    dead d = false → d_stacks d !! i = Some (Poll :: rest) →
    d_interest (d_shared d) = Armed m → sk_is_valid (d_socket (d_shared d)) = true →
    reported ev m = true →
    dstep allowed d (mkDispatch (take_event (d_shared d)) (d_owner d)
      (<[i := Look ev :: rest]> (d_stacks d)))
| dstep_spurious i send blocking rest :
    dead d = false → d_stacks d !! i = Some (SendAsleep send blocking :: rest) →
    dstep allowed d (mkDispatch (d_shared d) (d_owner d)
      (<[i := SendWait send blocking :: rest]> (d_stacks d))).

Inductive dreach (allowed : call K → Prop) (d0 : dispatch) : dispatch → Prop :=
| dreach_start : dreach allowed d0 d0
| dreach_step d d' : dreach allowed d0 d → dstep allowed d d' → dreach allowed d0 d'.

(** A listener for the socket [k] that the first thread is registering: it is in
    [m_event_listeners], and [re_register(true)] is called; [apps] more threads of
    the application and [workers] of the event loop. *)
Definition registering (apps workers : nat) (k : K) (mode : Mode) : dispatch :=
  mkDispatch (mkShared k (sk_get_fileno k) false mode true Absent []) (λ _, None)
    ([RegLock true; App] :: replicate apps [App] ++ replicate workers [Poll]).

(** ** Schedules, for examples *)

Inductive choice :=
| Go (i : nat)
| Event (i : nat) (ev : event)
| Call (i : nat) (c : call K).

Definition choose (c : choice) (d : dispatch) : option dispatch :=
  match c with
  | Go i => advance i d
  | Event i ev =>
      if dead d || negb (sk_is_valid (d_socket (d_shared d))) then None else
      match d_stacks d !! i, d_interest (d_shared d) with
      | Some (Poll :: rest), Armed m =>
          if reported ev m then
            Some (mkDispatch (take_event (d_shared d)) (d_owner d) (<[i := Look ev :: rest]> (d_stacks d)))
          else None
      | _, _ => None
      end
  | Call i c =>
      if dead d then None else
      match d_stacks d !! i with
      | Some (f :: rest) =>
          if user_code f then
            Some (mkDispatch (d_shared d) (d_owner d) (<[i := enter c :: f :: rest]> (d_stacks d)))
          else None
      | _ => None
      end
  end.

Fixpoint play (cs : list choice) (d : dispatch) : option dispatch :=
  match cs with
  | [] => Some d
  | c :: rest => d' ← choose c d; play rest d'
  end.
End code.
Arguments dispatch K {_}.
