(* ===== verification/DispatchSafe.v ===== *)
(** Threads on one listener (Dispatch.v): as long as the socket is valid, epoll
    watches it in the right mode or some thread is about to ask for it; so once
    every thread rests, nothing is lost. *)
From S2P Require Import Prelude Machine Slicer Listener ListenerProps Mutex Dispatch.
Local Open Scope Z_scope.

(** * What the threads rely on

    A descriptor that is gone does not come back, nor does a connection; [do_send]
    throws only on a descriptor that is gone; [close] returns [true] when it has
    gone. *)
Class SharedSocketLaws (K : Type) `{SocketLaws K} := {
  ssk_send send k : sk_fits send → sk_ok k →
    wp send k (λ o k', (sk_is_valid k' = true → sk_is_valid k = true) ∧
      (sk_is_connected k' = true → sk_is_connected k = true) ∧
      (o = Exn send_queue_full → sk_pending k' → sk_pending k));
  ssk_do_send k : sk_ok k →
    wp sk_do_send k (λ o k', (sk_is_valid k' = true → sk_is_valid k = true) ∧
      ∀ e, o = Exn e → sk_is_valid k' = false);
  ssk_receive k : sk_ok k →
    wp sk_receive k (λ _ k', sk_is_valid k' = true → sk_is_valid k = true);
  ssk_close k : sk_ok k →
    wp (sk_close false) k (λ o k', (sk_is_valid k' = true → sk_is_valid k = true) ∧
      (o = Val true → sk_is_valid k' = false));
}.

(** Why a thread may sleep in [wait_send_queue_empty]: there is something to wait
    for, or nobody will wake it up. *)
Definition worth_waiting {K} `{SendQueue K} (k : K) : bool := sk_must_wait k || sk_abandoned k.

(** A call that takes away the reason to wait calls [notify_all]. *)
Definition keeps_waiters {K} `{SendQueue K} (k k' : K) : Prop :=
  worth_waiting k = true → worth_waiting k' = true ∨ sk_notified k k' = true.

Class SendQueueLaws (K : Type) `{SocketLaws K} `{SendQueue K} := {
  skq_send send k : sk_fits send → sk_ok k → wp send k (λ _ k', keeps_waiters k k');
  skq_do_send k : sk_ok k → wp sk_do_send k (λ _ k', keeps_waiters k k');
  skq_receive k : sk_ok k → wp sk_receive k (λ _ k', keeps_waiters k k');
  skq_close k : sk_ok k → wp (sk_close false) k (λ _ k', keeps_waiters k k');
}.

Section safe.
Context {K : Type} `{SharedSocketLaws K} `{SendQueue K}.
Abbreviation S := (shared K sk_child).
Implicit Types (s : S) (f g : frame K) (i j : nat) (O : (frame K → bool) → Prop).

(** * The control points *)

(** The mutexes a thread owns at the control point on top of its stack; those
    below own none. *)
Definition holds_sending (k : after_close) : bool :=
  match k with CloseSend | CloseSendEnd => true | CloseReturn | CloseWrite => false end.

Definition holds_frame (l : lock) f : bool :=
  match l, f with
  | ListenerMutex, (Receive | ReadUnlock _ | ReadTest | ValidRead _ | ValidUnlock _ _
      | CloseTest _ | CloseCall _ | CloseUnlock _ _ | CloseEnd _) => true
  | ListenerMutex, (CloseDone _ held _ | CloseSet held _ | CloseDisc held _ | CloseUnreg held _) => held
  | SendMutex, (RegValid _ | RegMode _ | RegUnlock | DoSend | WriteUnlock | WriteEnd
      | Try _ _ | SendFull _ _ | SendEnd) => true
  | SendMutex, (ValidLock k | ValidRead k | ValidUnlock k _) =>
      match k with ValidSend _ => true | ValidWrite held => held end
  | SendMutex, (ModeTest _ k | ModeStore _ k | NotifyLook _ _ k | NotifyCtl _ _ k) =>
      match k with ModeSend | ModeRegister => true | ModeWrite held => held end
  | SendMutex, (CloseLock k | CloseTest k | CloseCall k | CloseUnlock _ k | CloseDone _ _ k
      | CloseSet _ k | CloseDisc _ k | CloseUnreg _ k | CloseEnd k) => holds_sending k
  | _, _ => false
  end.

Definition holds (l : lock) (st : list (frame K)) : bool :=
  match st with f :: _ => holds_frame l f | [] => false end.

(** What may be below another control point. *)
Definition base f : bool :=
  match f with App | Callback | Poll | HandleWrite | Register => true | _ => false end.

(** On the way to [re_register], or in it. *)
Definition arming f : bool :=
  match f with
  | Look _ | Handle _ | HandleWrite | Register
  | RegLock _ | RegValid _ | RegMode _ | NotifyLook _ _ _ | NotifyCtl _ _ _ => true
  | _ => false
  end.

(** In the first [re_register]. *)
Definition first f : bool :=
  match f with
  | RegLock first | RegValid first | RegMode first
  | NotifyLook _ first _ | NotifyCtl _ first _ => first
  | _ => false
  end.

(** About to tell epoll the mode. *)
Definition notifying f : bool :=
  match f with NotifyLook _ _ _ | NotifyCtl _ _ _ => true | _ => false end.

(** About to ask for write events, or to close the socket, after a [send]. *)
Definition sending f : bool :=
  match f with
  | ValidLock (ValidSend true) | ValidRead (ValidSend true) | ValidUnlock (ValidSend true) _
  | ModeTest ReadWrite _ | ModeStore ReadWrite _
  | CloseLock CloseSend | CloseTest CloseSend | CloseCall CloseSend => true
  | _ => false
  end.

(** * The invariant *)

Definition invalid s : Prop := sk_is_valid (d_socket s) = false.
Definition ended s : Prop := sk_is_connected (d_socket s) = false.
Definition quiet s : Prop := sk_is_connected (d_socket s) = true → ¬ sk_pending (d_socket s).

Definition valid_ok s (k : after_valid) : Prop :=
  match k with
  | ValidSend true => True
  | ValidSend false | ValidWrite true => quiet s
  | ValidWrite false => invalid s
  end.

Definition first_ok i s (b : bool) : Prop := b = true → i = 0%nat ∧ d_interest s = Absent.

(** What holds when thread [i] is at a control point. *)
Definition frame_ok i s f : Prop :=
  match f with
  | Exited => d_registered s = false
  | RegLock b | RegValid b | RegMode b => first_ok i s b
  | WriteUnlock => invalid s
  | SendLock send _ | Try send _ | SendFull send _ | SendWait send _ | SendAsleep send _ => sk_fits send
  | ValidLock k | ValidRead k => valid_ok s k
  | ValidUnlock k v => valid_ok s k ∧ (v = false → invalid s) ∧ (v = true → k ≠ ValidWrite false)
  | ModeTest m k | ModeStore m k =>
      (m = ReadOnly → quiet s) ∧ k ≠ ModeWrite false ∧ k ≠ ModeRegister
  | NotifyLook m b k | NotifyCtl m b k => m = d_mode s ∧ k ≠ ModeWrite false ∧ first_ok i s b
  | CloseLock k | CloseTest k | CloseCall k => k = CloseWrite → invalid s
  | CloseUnlock done k | CloseDone done _ k =>
      ended s ∧ (done = true → invalid s) ∧ (k = CloseWrite → invalid s)
  | CloseSet _ _ | CloseDisc _ _ | CloseUnreg _ _ => ended s ∧ invalid s
  | CloseEnd k => k = CloseReturn ∨ ended s ∧ (k = CloseWrite → invalid s)
  | _ => True
  end.

(** [has p]: some thread is at a control point with [p]. *)
Definition shared_ok s (has : (frame K → bool) → Prop) : Prop :=
  sk_ok (d_socket s) ∧
  (d_registered s = false → invalid s) ∧
  (sk_is_valid (d_socket s) = true →
     match d_interest s with
     | Armed m => m = d_mode s ∨ has notifying
     | Disabled => has arming
     | Absent => has first
     end) ∧
  (sk_is_connected (d_socket s) = true → sk_pending (d_socket s) →
     d_mode s = ReadWrite ∨ has sending).

Lemma shared_ok_mono s (has has' : (frame K → bool) → Prop) :
  shared_ok s has →
  (sk_is_valid (d_socket s) = true → ∀ p, p = arming ∨ p = first ∨ p = notifying → has p → has' p) →
  (sk_is_connected (d_socket s) = true → has sending → has' sending) →
  shared_ok s has'.
Proof.
  intros (Hok & Hreg & Hint & Hpend) Hv Hc. split_and!; [done|done| |].
  - intros Hvalid. specialize (Hint Hvalid). specialize (Hv Hvalid). destruct (d_interest s); [..|destruct Hint; [by left|right]]; by apply Hv; auto.
  - intros Hcon Hp. destruct (Hpend Hcon Hp); [by left|right]. by apply Hc.
Qed.

(** What a step of another thread may change: [sends] when it owns
    [m_send_mutex], [regs] when it registers the listener. *)
Record rely (sends regs : bool) s s' : Prop := {
  rely_ok : sk_ok (d_socket s');
  rely_valid : sk_is_valid (d_socket s') = true → sk_is_valid (d_socket s) = true;
  rely_connected : sk_is_connected (d_socket s') = true → sk_is_connected (d_socket s) = true;
  rely_registered : d_registered s' = true → d_registered s = true;
  rely_mode : sends = false → d_mode s' = d_mode s;
  rely_quiet : sends = false → quiet s → quiet s';
  rely_absent : regs = false → d_interest s = Absent → d_interest s' = Absent;
}.

Lemma rely_invalid sends regs s s' : rely sends regs s s' → invalid s → invalid s'.
Proof.
  intros Hr Hi. unfold invalid in *. apply not_true_iff_false. intros Hv%(rely_valid _ _ _ _ Hr). congruence.
Qed.

Lemma rely_ended sends regs s s' : rely sends regs s s' → ended s → ended s'.
Proof.
  intros Hr Hi. unfold ended in *. apply not_true_iff_false. intros Hv%(rely_connected _ _ _ _ Hr). congruence.
Qed.

Lemma ended_quiet s : ended s → quiet s.
Proof. unfold ended, quiet. congruence. Qed.

Lemma invalid_ended s : sk_ok (d_socket s) → invalid s → ended s.
Proof.
  unfold invalid, ended. intros Hok Hi. apply not_true_iff_false.
  intros Hc%sk_connected_valid; [congruence|done].
Qed.

(** A control point stays justified while other threads go on. *)
Lemma frame_ok_stable sends regs i s s' f :
  rely sends regs s s' → (sends = true → holds_frame SendMutex f = false) →
  (regs = true → first f = false) → frame_ok i s f → frame_ok i s' f.
Proof.
  intros Hr Hsends Hregs Hf.
  pose proof (rely_invalid _ _ _ _ Hr) as Hi. pose proof (rely_ended _ _ _ _ Hr) as He.
  assert (holds_frame SendMutex f = true → d_mode s' = d_mode s ∧ (quiet s → quiet s')) as Hq.
  { intros Hh. destruct sends; [by rewrite Hsends in Hh|].
    split; [by apply (rely_mode _ _ _ _ Hr)|by apply (rely_quiet _ _ _ _ Hr)]. }
  assert (∀ b, (b = true → first f = true) → first_ok i s b → first_ok i s' b) as Hfirst.
  { intros b Hb Hok ->. destruct (Hok eq_refl) as [-> Ha]. split; [done|].
    destruct regs; [by rewrite (Hregs eq_refl) in Hb; discriminate Hb|].
    by apply (rely_absent _ _ _ _ Hr). }
  assert (∀ k, (holds_frame SendMutex (ValidLock k : frame K) = true → d_mode s' = d_mode s ∧ (quiet s → quiet s')) →
    valid_ok s k → valid_ok s' k) as Hvalid.
  { intros [[]|[]] Hk Hv; simpl in *; auto; by apply Hk. }
  assert (∀ m k, (holds_frame SendMutex (ModeTest m k : frame K) = true → d_mode s' = d_mode s ∧ (quiet s → quiet s')) →
    k ≠ ModeWrite false → d_mode s' = d_mode s ∧ (quiet s → quiet s')) as Hmode.
  { intros m [|[]|] Hk Hne; by auto. }
  destruct f as [| | | | | | | |b|b|b| | | |msg|msg| | | | | |send b|send b|send b|send b|send b| |k|k|k v|mode k|mode k|mode b k|mode b k|k|k|k|fin k|fin b k|b k|b k|b k|k| |msg];
    simpl in *; try done; try (by apply Hfirst; auto); try (by auto); try (by tauto).
  - apply not_true_iff_false. intros Hreg%(rely_registered _ _ _ _ Hr). congruence.
  - destruct Hf as (? & ? & ?). split_and!; [by apply Hvalid|auto|done].
  - destruct Hf as (Hm & Hne & ?), (Hmode mode k Hq) as [_ Hmq]; [done|]. split_and!; auto.
  - destruct Hf as (Hm & Hne & ?), (Hmode mode k Hq) as [_ Hmq]; [done|]. split_and!; auto.
  - destruct Hf as (-> & Hne & ?), (Hmode ReadOnly k Hq) as [-> _]; [done|]. split_and!; auto.
  - destruct Hf as (-> & Hne & ?), (Hmode ReadOnly k Hq) as [-> _]; [done|]. split_and!; auto.
Qed.
(** * One access to the shared state *)

Definition access_post i f s O (o : outcome (list (frame K))) s' : Prop :=
  match o with
  | Val fs => ∃ g below, fs = g :: below ∧ Forall (λ h, base h = true) below ∧
      (∀ l, holds_frame l g = holds_frame l f) ∧ frame_ok i s' g ∧
      rely (holds_frame SendMutex f) (first f) s s' ∧
      shared_ok s' (λ p, O p ∨ existsb p (g :: below) = true)
  | _ => True
  end.

(** A step that changes at most the socket, the trace and [m_has_disconnected]. *)
Lemma access_socket i f s s' O g below :
  shared_ok s (λ p, O p ∨ p f = true) →
  d_registered s' = d_registered s → d_mode s' = d_mode s → d_interest s' = d_interest s →
  sk_ok (d_socket s') →
  (sk_is_valid (d_socket s') = true → sk_is_valid (d_socket s) = true) →
  (sk_is_connected (d_socket s') = true → sk_is_connected (d_socket s) = true) →
  (holds_frame SendMutex f = false → quiet s → quiet s') →
  (sk_is_connected (d_socket s') = true → sk_pending (d_socket s') →
     d_mode s = ReadWrite ∨ sending g = true ∨ sk_pending (d_socket s) ∧ sending f = false) →
  (sk_is_valid (d_socket s) = true → ∀ p, p = arming ∨ p = first ∨ p = notifying →
     p f = true → existsb p (g :: below) = true) →
  Forall (λ h, base h = true) below → (∀ l, holds_frame l g = holds_frame l f) → frame_ok i s' g →
  access_post i f s O (Val (g :: below)) s'.
Proof.
  intros (Hok & Hreg & Hint & Hpend) Hr Hm Hi Hok' Hv Hc Hq Hs Hp Hbelow Hh Hg.
  exists g, below. split_and!; try done; [split; try done; congruence|]. split_and!; [done|..].
  - unfold invalid. rewrite Hr. intros Hu%Hreg. apply not_true_iff_false. intros Hx%Hv. congruence.
  - intros Hx%Hv. rewrite Hi, Hm. specialize (Hint Hx). specialize (Hp Hx).
    destruct (d_interest s); [| |destruct Hint as [Hint|Hint]; [by left|right]];
      (destruct Hint as [Hint|Hint]; [by left|right; by apply Hp; auto]).
  - intros Hc' Hp'. rewrite Hm. destruct (Hs Hc' Hp') as [|[Hg'|[Hpe Hsf]]]; [by left|..].
    { right. right. simpl. by rewrite Hg'. }
    destruct (Hpend (Hc Hc') Hpe) as [|[|Hb]]; [by left|by right; left|congruence].
Qed.

(** A step that only goes on. *)
Lemma access_go i f s O g :
  shared_ok s (λ p, O p ∨ p f = true) →
  (sk_is_connected (d_socket s) = true → sending f = true → d_mode s = ReadWrite ∨ sending g = true) →
  (sk_is_valid (d_socket s) = true → ∀ p, p = arming ∨ p = first ∨ p = notifying →
     p f = true → p g = true) →
  (∀ l, holds_frame l g = holds_frame l f) → frame_ok i s g →
  access_post i f s O (Val [g]) s.
Proof.
  intros Hsh Hs Hp Hh Hg. apply access_socket; try done; [apply Hsh| |].
  - intros Hc Hpe. specialize (Hs Hc). destruct (sending f); [destruct Hs|]; auto.
  - intros Hv p Hin Hf. simpl. by rewrite (Hp Hv p Hin Hf).
Qed.
Lemma wp_on_sock {A} (m : M K A) s (Q : outcome A → S → Prop) :
  wp m (d_socket s) (λ o k, Q o (mkShared k (d_fileno s) (d_has_disconnected s) (d_mode s)
    (d_registered s) (d_interest s) (d_trace s))) →
  wp (on_sock m) s Q.
Proof. unfold wp, on_sock. by destruct (m _). Qed.

(** Classes a control point is not in. *)
Ltac no_class :=
  let Hp := fresh in
  intros ? ? Hp; destruct Hp as [-> |[-> | ->]]; simpl; (done || (by auto) || by intros ->).

Ltac go_on := apply access_go; [done|try done|no_class|by intros []|].

Ltac socket_on Hsh := apply access_socket; [exact Hsh|done|done|done| | | | | |no_class|by repeat constructor|by intros []| ].

Lemma receive_access_safe i s O :
  shared_ok s (λ p, O p ∨ p (Receive : frame K) = true) →
  wp receive_message s (access_post i Receive s O).
Proof.
  intros Hsh. pose proof (proj1 Hsh) as Hok. unfold receive_message. wp_step. wp_step.
  apply wp_on_sock. eapply wp_mono; [apply wp_conj; [by apply sk_receive_spec|by apply ssk_receive]|].
  intros o k [Ho Hv]. destruct o as [msg|e|h]; cbn [seq_post]; [| |done]; destruct Ho as (Hok' & Hc & Hp).
  - apply wp_ret. destruct msg; socket_on Hsh; try done; unfold quiet; simpl; auto.
  - destruct e; try done. apply wp_ret. socket_on Hsh; try done; unfold quiet; simpl; auto.
Qed.

Lemma write_event_safe i s O :
  shared_ok s (λ p, O p ∨ p (DoSend : frame K) = true) →
  wp write_event s (access_post i DoSend s O).
Proof.
  intros Hsh. pose proof (proj1 Hsh) as Hok. unfold write_event. wp_step. wp_step.
  apply wp_on_sock. eapply wp_mono; [apply wp_conj; [by apply sk_do_send_spec|by apply ssk_do_send]|].
  intros o k [(Hok' & Hc & Hp & Ho) [Hv He]]. destruct o as [more|e|h]; cbn [seq_post]; [| |done].
  - apply wp_ret. destruct more; socket_on Hsh; try done; simpl; auto. unfold quiet. simpl. auto.
  - destruct Ho as [msg ->]. apply wp_ret. socket_on Hsh; try done; simpl; auto. by eapply He.
Qed.

Lemma try_send_safe i send blocking s O :
  sk_fits send → shared_ok s (λ p, O p ∨ p (Try send blocking) = true) →
  wp (try_send send blocking) s (access_post i (Try send blocking) s O).
Proof.
  intros Hfits Hsh. pose proof (proj1 Hsh) as Hok. unfold try_send. wp_step. wp_step.
  apply wp_on_sock. eapply wp_mono; [apply wp_conj; [by apply sk_send_spec|by apply ssk_send]|].
  intros o k [(Hok' & Ho) (Hv & Hc & Hp)]. destruct o as [more|e|h]; cbn [seq_post]; [| |done].
  - apply wp_ret. destruct more; socket_on Hsh; try done; simpl; auto.
    + intros Hc' Hp'. by destruct (Ho eq_refl Hc' Hp').
    + exact (Ho eq_refl).
  - destruct Ho as [[msg ->]| ->]; [apply wp_ret; socket_on Hsh; try done; simpl; auto|].
    destruct blocking; apply wp_ret; socket_on Hsh; try done; simpl; auto.
Qed.

Lemma close_call_safe i k s O :
  frame_ok i s (CloseCall k) → shared_ok s (λ p, O p ∨ p (CloseCall k) = true) →
  wp (done ← on_sock (sk_close false); go (CloseUnlock done k)) s (access_post i (CloseCall k) s O).
Proof.
  intros Hf Hsh. pose proof (proj1 Hsh) as Hok. wp_step. apply wp_on_sock.
  eapply wp_mono; [apply wp_conj; [by apply sk_close_spec|by apply ssk_close]|].
  intros o k' [(Hok' & Hc & done & ->) [Hv Hd]]. cbn [seq_post]. apply wp_ret.
  socket_on Hsh; simpl; try done; try congruence.
  - intros _ _. unfold quiet. simpl. congruence.
  - split_and!; [done| |].
    + intros ->. by apply Hd.
    + intros Hk%Hf. unfold invalid in *. simpl. apply not_true_iff_false. intros Hx%Hv. congruence.
Qed.
Lemma after_set_mode_ok i s l (k : after_mode) :
  frame_ok i s (after_set_mode k) ∧
  holds_frame l (after_set_mode k) = holds_frame l (ModeTest ReadOnly k : frame K).
Proof. by destruct l, k as [|[]|]. Qed.

Lemma mode_store_safe i mode k s O :
  frame_ok i s (ModeStore mode k) → shared_ok s (λ p, O p ∨ p (ModeStore mode k) = true) →
  access_post i (ModeStore mode k) s O (Val [NotifyLook mode false k])
    (put_event (ModeChanged (d_fileno s) mode false) (put_mode mode s)).
Proof.
  intros (Hm & Hk & _) (Hok & Hreg & Hint & Hpend). eexists _, []. split_and!; try done.
  - split; try done; destruct k as [|[]|]; done.
  - split_and!; [done|done| |].
    + intros Hv. specialize (Hint Hv). simpl. destruct (d_interest s);
        [destruct Hint as [?|[=]]; by left..|right; by right].
    + intros Hc Hp. left. destruct mode; [|done]. by destruct (Hm eq_refl Hc).
Qed.

Lemma notify_ctl_safe i mode b k s O :
  frame_ok i s (NotifyCtl mode b k) → shared_ok s (λ p, O p ∨ p (NotifyCtl mode b k) = true) →
  access_post i (NotifyCtl mode b k) s O (Val [after_set_mode k])
    (put_registration (d_registered s) (ctl mode b s) s).
Proof.
  intros (-> & Hk & Hfirst) (Hok & Hreg & Hint & Hpend).
  pose proof (λ l, proj2 (after_set_mode_ok i s l k)) as Hh. eexists _, [].
  split_and!; [done|done|intros l; by rewrite Hh; destruct l|by apply (after_set_mode_ok i _ SendMutex)| |].
  - split; try done. simpl. intros -> Ha. unfold ctl. simpl. rewrite Ha. by destruct (negb _).
  - split_and!; [done|done| |].
    + simpl. intros Hv. specialize (Hint Hv). unfold ctl. rewrite Hv. simpl in *.
      destruct b; [by rewrite (proj2 (Hfirst eq_refl)); left|].
      destruct (d_interest s); [destruct Hint as [?|[=]]; by left|by left..].
    + intros Hc Hp. destruct (Hpend Hc Hp) as [|[|[=]]]; [by left|right; by left].
Qed.

Lemma close_end_ok i s k (held : bool) l :
  ended s → (k = CloseWrite → invalid s) →
  frame_ok i s (close_end held k) ∧
  holds_frame l (close_end held k) = holds_frame l (CloseSet held k : frame K).
Proof.
  intros He Hk. destruct held, k, l; simpl; (split; [|done]); auto using ended_quiet.
Qed.

Lemma close_unreg_safe i held k s O :
  frame_ok i s (CloseUnreg held k) → shared_ok s (λ p, O p ∨ p (CloseUnreg held k) = true) →
  access_post i (CloseUnreg held k) s O (Val [close_end held k])
    (put_event (Unregistered (d_fileno s)) (unregister s)).
Proof.
  intros [He Hi] (Hok & Hreg & Hint & Hpend). set (s' := put_event _ _).
  assert (d_socket s' = d_socket s ∧ d_mode s' = d_mode s) as [Hs Hm]
    by (unfold s', unregister; by destruct (d_registered s)).
  assert (ended s' ∧ invalid s') as [He' Hi'] by (unfold ended, invalid in *; by rewrite Hs).
  pose proof (λ l, close_end_ok i s' k held l He' (λ _, Hi')) as Hend. eexists _, [].
  split_and!; [done|done|intros l; by rewrite (proj2 (Hend l)); destruct l|by apply (Hend SendMutex)| |].
  - split; rewrite ?Hs; try done.
    + unfold s', unregister. destruct (d_registered s) eqn:E; simpl; congruence.
    + unfold quiet. by rewrite Hs.
    + intros _ Ha. unfold s', unregister. by destruct (d_registered s).
  - unfold shared_ok. rewrite Hs. split_and!; [done|done|unfold invalid in Hi; congruence|].
    unfold ended in He. congruence.
Qed.
Lemma frame_access_safe i f m s O :
  frame_ok i s f → shared_ok s (λ p, O p ∨ p f = true) → code f = Access m →
  wp m s (access_post i f s O).
Proof.
  intros Hf Hsh Hcode. pose proof Hsh as (Hok & Hreg & _).
  destruct f as [| | |ev|ev| | | |b|b|b| | | |msg|msg| | | | | |send b|send b|send b|send b|send b| |k|k|k v
    |mode k|mode k|mode b k|mode b k|k|k|k|fin k|fin held k|held k|held k|held k|k| |msg];
    try discriminate; injection Hcode as <-; simpl in Hf.
  - apply wp_ret. by go_on.
  - unfold look. wp_step. apply wp_get. cbn [seq_post]. apply wp_ret.
    destruct (d_registered s) eqn:Hr; [by go_on|]. apply access_go; try done.
    intros Hv. by rewrite (Hreg eq_refl) in Hv.
  - destruct ev; apply wp_ret; socket_on Hsh; try done; by auto.
  - apply wp_ret. socket_on Hsh; try done; by auto.
  - apply wp_ret. socket_on Hsh; try done; by auto.
  - wp_step. apply wp_get. cbn [seq_post]. apply wp_ret. destruct (sk_is_valid _) eqn:Hv; [by go_on|].
    apply access_go; try done. congruence.
  - wp_step. apply wp_get. cbn [seq_post]. wp_step. unfold wp at 1. cbn [fst snd modify_shared seq_post].
    apply wp_ret. by socket_on Hsh; auto.
  - by apply receive_access_safe.
  - wp_step. unfold wp at 1. cbn [fst snd modify_shared seq_post]. apply wp_ret. by socket_on Hsh; auto.
  - wp_step. apply wp_get. cbn [seq_post]. apply wp_ret. destruct (sk_is_valid _) eqn:Hv; go_on; [by left|done].
  - by apply write_event_safe.
  - by apply try_send_safe.
  - wp_step. apply wp_get. cbn [seq_post]. apply wp_ret. by destruct (sk_must_wait _); go_on.
  - wp_step. apply wp_get. cbn [seq_post]. apply wp_ret. apply access_go; [done| |no_class|by intros []|].
    + destruct k as [more|]; simpl; auto.
    + destruct (sk_is_valid _) eqn:Hv; simpl; split_and!; try done. intros _ ->. simpl in Hf.
      unfold invalid in Hf. congruence.
  - wp_step. apply wp_get. cbn [seq_post]. apply wp_ret. case_bool_decide as Hmode.
    + destruct Hf as (Hq & Hne & _). pose proof (λ l, after_set_mode_ok i s l k) as Hk.
      apply access_go; [done| |by no_class|intros l; rewrite (proj2 (Hk l)); by destruct l|by apply (Hk SendMutex)].
      intros _. rewrite <- Hmode. by destruct mode; [|left].
    + go_on; [destruct mode; auto|exact Hf].
  - wp_step. apply wp_get. cbn [seq_post]. by apply mode_store_safe.
  - wp_step. apply wp_get. cbn [seq_post]. apply wp_ret. destruct (d_registered s) eqn:Hr; [by go_on|].
    pose proof (λ l, after_set_mode_ok i s l k) as Hk.
    apply access_go; [done|done| |intros l; rewrite (proj2 (Hk l)); by destruct l|by apply (Hk SendMutex)].
    intros Hv. by rewrite (Hreg eq_refl) in Hv.
  - by apply notify_ctl_safe.
  - wp_step. apply wp_get. cbn [seq_post]. apply wp_ret. destruct (sk_is_valid _) eqn:Hv.
    { go_on; [destruct k; auto|exact Hf]. }
    pose proof (invalid_ended s Hok Hv) as He.
    go_on; [unfold ended in He; congruence|done].
  - by apply close_call_safe.
  - wp_step. apply wp_get. cbn [seq_post]. apply wp_ret. destruct Hf as (He & Hi & Hk).
    destruct (fin && _) eqn:E.
    { apply andb_true_iff in E as [-> _]. go_on. simpl. by auto. }
    pose proof (λ l, close_end_ok i s k held l He Hk) as Hend.
    apply access_go; [done|done|no_class|intros l; rewrite (proj2 (Hend l)); by destruct l|by apply (Hend SendMutex)].
  - wp_step. unfold wp at 1. cbn [fst snd modify_shared seq_post]. apply wp_ret. by socket_on Hsh; auto.
  - wp_step. unfold wp at 1. cbn [fst snd modify_shared seq_post]. apply wp_ret. by socket_on Hsh; auto.
  - by apply close_unreg_safe.
Qed.

(** * A move on a mutex *)

(** What can be at the bottom of a stack. *)
Definition anchor f : bool :=
  match f with
  | App | Poll | Look _ | Handle _ | HandleWrite | Register | Exited => true
  | _ => false
  end.

Definition moves f next : Prop :=
  anchor f = false ∧ is_aborted next = false ∧
  (∀ i s, frame_ok i s f → frame_ok i s next) ∧
  (∀ i s O, frame_ok i s f → shared_ok s (λ p, O p ∨ p f = true) → shared_ok s (λ p, O p ∨ p next = true)).

Lemma keeps_shared s O f next :
  (sk_is_valid (d_socket s) = true → ∀ p, p = arming ∨ p = first ∨ p = notifying → p f = true → p next = true) →
  (sk_is_connected (d_socket s) = true → sending f = true → sending next = true) →
  shared_ok s (λ p, O p ∨ p f = true) → shared_ok s (λ p, O p ∨ p next = true).
Proof.
  intros Hp Hs Hsh. apply (shared_ok_mono _ _ _ Hsh).
  - intros Hv p Hin [?|Hf]; [by left|right; by apply Hp].
  - intros Hc [?|Hf]; [by left|right; by apply Hs].
Qed.

Lemma moves_quietly f next :
  anchor f = false → is_aborted next = false → (∀ i s, frame_ok i s f → frame_ok i s next) →
  (∀ p, p = arming ∨ p = first ∨ p = notifying ∨ p = sending → p f = true → p next = true) →
  moves f next.
Proof.
  intros ? ? Hf Hp. split_and!; [done..|]. intros i s O _.
  apply keeps_shared; [intros _ p ?|intros _]; apply Hp; tauto.
Qed.

Lemma valid_unlock_moves k v : moves (ValidUnlock k v) (after_is_valid k v).
Proof.
  split_and!; [done|by destruct k as [[]|[]], v| |].
  - intros i s (Hk & Hi & Hne).
    destruct k as [[]|[]], v; simpl in *; try done. by destruct (Hne eq_refl).
  - intros i s O (Hk & Hi & _) Hsh. pose proof (proj1 Hsh) as Hok.
    apply (keeps_shared _ _ _ _) with (3 := Hsh); [no_class|].
    intros Hc. destruct k as [[]|]; try done. destruct v; [done|].
    specialize (Hi eq_refl). apply invalid_ended in Hi; [|done]. unfold ended in Hi. congruence.
Qed.

Lemma close_end_moves k : moves (CloseEnd k) (after_close_socket k).
Proof.
  apply moves_quietly; [done|by destruct k| |].
  - intros i s [->|[He Hk]]; [done|]. destruct k; simpl; auto using ended_quiet.
  - by intros p [-> |[-> |[-> | ->]]].
Qed.

Ltac quiet_move := apply moves_quietly; [done|done|by simpl; auto|by intros ? [-> |[-> |[-> | ->]]]].

Lemma code_moves f :
  match code f with
  | Acquire l next => moves f next ∧ holds_frame l f = false ∧
      ∀ l', holds_frame l' next = if decide (l' = l) then true else holds_frame l' f
  | Release l next => moves f next ∧ holds_frame l f = true ∧
      ∀ l', holds_frame l' next = if decide (l' = l) then false else holds_frame l' f
  | Pop => f = Return
  | _ => True
  end.
Proof.
  destruct f as [| | |ev|ev| | | |b|b|b| | | |msg|msg| | | | | |send b|send b|send b|send b|send b| |k|k|k v
    |mode k|mode k|mode b k|mode b k|k|k|k|fin k|fin held k|held k|held k|held k|k| |msg];
    simpl; try done; (split; [try quiet_move|first [split; [done|]|idtac]; intros []; try done]).
  - apply valid_unlock_moves.
  - by destruct k as [|[]], v.
  - by destruct k as [|[]], v.
  - apply close_end_moves.
  - by destruct k.
  - by destruct k.
Qed.

(** * The machine *)

Definition anchored (st : list (frame K)) : Prop := ∃ f, last st = Some f ∧ anchor f = true.

Definition stack_ok i s (st : list (frame K)) : Prop :=
  match st with
  | [] => False
  | f :: below => Forall (λ g, base g = true) below ∧ anchored st ∧ frame_ok i s f
  end.

(** Some thread is at a control point with [p]; some thread but [i]. *)
Definition has (stacks : list (list (frame K))) (p : frame K → bool) : Prop :=
  ∃ j st, stacks !! j = Some st ∧ existsb p st = true.

Definition others i (stacks : list (list (frame K))) (p : frame K → bool) : Prop :=
  ∃ j st, j ≠ i ∧ stacks !! j = Some st ∧ existsb p st = true.

Lemma has_split i stacks st p :
  stacks !! i = Some st → has stacks p → others i stacks p ∨ existsb p st = true.
Proof.
  intros Hst (j & st' & Hj & Hp). destruct (decide (j = i)) as [->|Hne]; [right; congruence|].
  left. by exists j, st'.
Qed.

Lemma has_join i stacks st st' p :
  stacks !! i = Some st → others i stacks p ∨ existsb p st' = true → has (<[i := st']> stacks) p.
Proof.
  intros Hst [(j & st'' & Hne & Hj & Hp)|Hp].
  - exists j, st''. by rewrite list_lookup_insert_ne.
  - exists i, st'. split; [|done]. apply list_lookup_insert_eq. by eapply lookup_lt_Some.
Qed.

Definition dinv (d : dispatch K) : Prop :=
  shared_ok (d_shared d) (has (d_stacks d)) ∧ lock_inv holds (d_owner d) (d_stacks d) ∧
  ∀ i st, d_stacks d !! i = Some st → stack_ok i (d_shared d) st.

Lemma frame_ok_first i s f : frame_ok i s f → first f = true → i = 0%nat.
Proof. destruct f; simpl; try done; try (intros Hf Hb; by apply (Hf Hb)); intros (_ & _ & Hf) Hb; by apply (Hf Hb). Qed.

Lemma rely_refl sends regs s : sk_ok (d_socket s) → rely sends regs s s.
Proof. by split. Qed.

(** Thread [i] has moved from [f] to a new stack. *)
Lemma dinv_after d i f below g more s' owner :
  dinv d → d_stacks d !! i = Some (f :: below) →
  rely (holds_frame SendMutex f) (first f) (d_shared d) s' →
  shared_ok s' (λ p, others i (d_stacks d) p ∨ existsb p (g :: more) = true) →
  stack_ok i s' (g :: more) →
  (∀ l, owner l = Some i ↔ holds_frame l g = true) →
  (∀ l j, j ≠ i → owner l = Some j ↔ d_owner d l = Some j) →
  dinv (mkDispatch s' owner (<[i := g :: more]> (d_stacks d))).
Proof.
  intros (_ & Hlock & Hstacks) Hi Hrely Hsh Hg Hself Hother.
  pose proof (lookup_lt_Some _ _ _ Hi) as Hlt. split; [|split].
  - apply (shared_ok_mono _ _ _ Hsh); intros; by eapply has_join.
  - apply (lock_inv_move holds (d_owner d) (d_stacks d) _ _ i (g :: more)); try done.
    + by apply list_lookup_insert_eq.
    + intros l j Hne. cbn [d_stacks]. by rewrite list_lookup_insert_ne.
  - intros j st. cbn [d_stacks d_shared]. destruct (decide (j = i)) as [->|Hne].
    { rewrite list_lookup_insert_eq by done. by intros [= <-]. }
    rewrite list_lookup_insert_ne by done. intros Hj. pose proof (Hstacks j st Hj) as Hst.
    destruct st as [|h rest]; [done|]. destruct Hst as (Hb & Ha & Hh). split; [done|]. split; [done|].
    eapply frame_ok_stable; [exact Hrely| | |done].
    + intros Hs. apply not_true_iff_false. intros Hs'. apply Hne.
      by eapply (holds_unique holds _ _ SendMutex j i (h :: rest) (f :: below)).
    + intros Hf. apply not_true_iff_false. intros Hf'.
      pose proof (Hstacks i _ Hi) as (_ & _ & Hfi).
      apply Hne. rewrite (frame_ok_first _ _ _ Hh Hf'). symmetry. by eapply frame_ok_first.
Qed.
Lemma anchored_cons f st : anchored st → anchored (f :: st).
Proof. intros (h & Hl & Ha). exists h. split; [|done]. rewrite last_cons. by rewrite Hl. Qed.

Lemma anchored_below f st : anchor f = false → anchored (f :: st) → anchored st.
Proof.
  intros Hf (h & Hl & Ha). rewrite last_cons in Hl. destruct (last st) as [h'|] eqn:E.
  - exists h'. split; [done|congruence].
  - congruence.
Qed.

Lemma anchored_app f fs st : anchored (f :: st) → (anchor f = true → anchored fs) → anchored (fs ++ st).
Proof.
  intros Hst Hfs. destruct (anchor f) eqn:Hf.
  - destruct st as [|h st]; [rewrite app_nil_r; auto|]. destruct Hst as (b & Hl & Ha).
    exists b. split; [|done]. rewrite last_app_cons. by rewrite last_cons_cons in Hl.
  - apply anchored_below in Hst; [|done]. destruct Hst as (b & Hl & Ha). exists b. split; [|done].
    rewrite last_app, Hl. done.
Qed.

Lemma anchor_access f m s fs s' :
  anchor f = true → code f = Access m → m s = (Val fs, s') → anchored fs.
Proof.
  destruct f as [| | |ev|ev| | | | | | | | | | | | | | | | | | | | | | | | | | | | | | | | | | | | | | | |];
    try done; intros _ [= <-].
  - intros [= <- _]. exists (if d_registered s then Handle ev else Exited). by destruct (d_registered s).
  - destruct ev; intros [= <- _]; by eexists.
  - intros [= <- _]. by eexists.
  - intros [= <- _]. by eexists.
Qed.

Lemma base_frame_ok i s f : base f = true → frame_ok i s f ∧ ∀ l, holds_frame l f = false.
Proof. by destruct f; (split; [|intros []]). Qed.

Lemma shared_others d i st :
  d_stacks d !! i = Some st → shared_ok (d_shared d) (has (d_stacks d)) →
  shared_ok (d_shared d) (λ p, others i (d_stacks d) p ∨ existsb p st = true).
Proof. intros Hst Hsh. apply (shared_ok_mono _ _ _ Hsh); intros; by eapply has_split. Qed.

(** The stack without its top counts as one of the other threads. *)
Lemma shared_top s O f below :
  shared_ok s (λ p, O p ∨ existsb p (f :: below) = true) →
  shared_ok s (λ p, (O p ∨ existsb p below = true) ∨ p f = true).
Proof.
  intros Hsh. apply (shared_ok_mono _ _ _ Hsh); simpl; [intros _ p _|intros _];
    intros [?|[?|?]%orb_true_iff]; tauto.
Qed.

Lemma shared_stack s O more below :
  shared_ok s (λ p, (O p ∨ existsb p below = true) ∨ existsb p more = true) →
  shared_ok s (λ p, O p ∨ existsb p (more ++ below) = true).
Proof.
  intros Hsh. apply (shared_ok_mono _ _ _ Hsh); [intros _ p _|intros _];
    rewrite existsb_app, orb_true_iff; tauto.
Qed.

(** Waking up does not concern the invariant. *)
Lemma wake_cases (st : list (frame K)) :
  wake st = st ∨ ∃ send blocking rest,
    st = SendAsleep send blocking :: rest ∧ wake st = SendWait send blocking :: rest.
Proof. destruct st as [|[]]; try (by left). right. by eexists _, _, _. Qed.

Lemma wake_holds l (st : list (frame K)) : holds l (wake st) = holds l st.
Proof. destruct (wake_cases st) as [->|(send & b & rest & -> & ->)]; [done|by destruct l]. Qed.

Lemma wake_class p (st : list (frame K)) :
  p = arming ∨ p = first ∨ p = notifying ∨ p = sending → existsb p (wake st) = existsb p st.
Proof.
  intros Hp. destruct (wake_cases st) as [->|(send & b & rest & -> & ->)]; [done|].
  by destruct Hp as [-> |[-> |[-> | ->]]].
Qed.

Lemma wake_stack_ok i s st : stack_ok i s st → stack_ok i s (wake st).
Proof.
  destruct (wake_cases st) as [->|(send & b & rest & -> & ->)]; [done|]. intros (Hb & (h & Hl & Ha) & Hf).
  split; [done|]. split; [|done]. destruct rest as [|g rest]; [by injection Hl as <-|].
  exists h. by rewrite last_cons_cons in Hl |- *.
Qed.

Lemma dinv_notified d s' :
  dinv d → dinv (mkDispatch (d_shared d) (d_owner d) (notified (d_shared d) s' (d_stacks d))).
Proof.
  unfold notified. destruct (sk_notified _ _); [|by destruct d]. intros (Hsh & Hlock & Hstacks).
  assert (∀ p, p = arming ∨ p = first ∨ p = notifying ∨ p = sending →
    has (d_stacks d) p → has (wake <$> d_stacks d) p) as Hhas.
  { intros p Hp (j & st & Hj & Hst). exists j, (wake st). rewrite list_lookup_fmap, Hj.
    by rewrite (wake_class p st Hp). }
  split; [|split]; cbn [d_shared d_owner d_stacks].
  - apply (shared_ok_mono _ _ _ Hsh); [intros _ p Hp|intros _]; apply Hhas; tauto.
  - intros l i. rewrite (Hlock l i), list_lookup_fmap. destruct (d_stacks d !! i); [|done].
    simpl. by rewrite wake_holds.
  - intros i st Hi. apply list_lookup_fmap_Some in Hi as (st' & -> & Hi). by apply wake_stack_ok, Hstacks.
Qed.

(** A thread that is awake is not affected. *)
Lemma notified_lookup s s' stacks i f below :
  (∀ send blocking, f ≠ SendAsleep send blocking) → stacks !! i = Some (f :: below) →
  notified s s' stacks !! i = Some (f :: below).
Proof.
  intros Hf Hi. unfold notified. destruct (sk_notified _ _); [|done]. rewrite list_lookup_fmap, Hi.
  destruct (wake_cases (f :: below)) as [Hw|(send & b & rest & [= -> _] & _)].
  - cbn [fmap option_fmap option_map]. by rewrite Hw.
  - by destruct (Hf send b).
Qed.

Lemma access_awake f m send blocking : code f = Access m → f ≠ SendAsleep send blocking.
Proof. by intros Hc ->. Qed.

(** A move on a mutex, by the thread that makes it. *)
Lemma dinv_moves d i f below next owner :
  dinv d → d_stacks d !! i = Some (f :: below) → moves f next →
  (∀ l, owner l = Some i ↔ holds_frame l next = true) →
  (∀ l j, j ≠ i → owner l = Some j ↔ d_owner d l = Some j) →
  dinv (mkDispatch (d_shared d) owner (<[i := next :: below]> (d_stacks d))).
Proof.
  intros Hinv Hi (Ha & _ & Hf & Hs) Hself Hother. pose proof Hinv as (Hsh & _ & Hstacks).
  pose proof (Hstacks i _ Hi) as (Hb & Hanch & Hfi).
  apply (dinv_after d i f below); try done.
  - apply rely_refl, Hsh.
  - apply (shared_stack _ _ [next]). simpl. apply (shared_ok_mono (d_shared d)
      (λ p, (others i (d_stacks d) p ∨ existsb p below = true) ∨ p next = true)).
    + by apply (Hs i), shared_top, shared_others.
    + intros _ p _. rewrite orb_true_iff. tauto.
    + intros _. rewrite orb_true_iff. tauto.
  - split; [done|]. split; [|by apply Hf]. by apply anchored_cons, (anchored_below f).
Qed.
Lemma dead_insert d s' owner i st :
  (i < length (d_stacks d))%nat → dead (mkDispatch s' owner (<[i := st]> (d_stacks d))) = false →
  existsb is_aborted st = false.
Proof.
  unfold dead. cbn. intros Hlt Hd. apply not_true_iff_false. intros Ha.
  assert (existsb (existsb is_aborted) (<[i := st]> (d_stacks d)) = true); [|congruence].
  apply existsb_exists. exists st. split; [|done]. apply list_elem_of_In, list_elem_of_lookup.
  exists i. by apply list_lookup_insert_eq.
Qed.

Lemma advance_safe i d d' :
  dinv d → advance i d = Some d' → dead d' = false → dinv d'.
Proof.
  intros Hinv Hadv Hdead. unfold advance in Hadv. destruct (dead d); [done|].
  destruct (d_stacks d !! i) as [st|] eqn:Hi; [|done]. simpl in Hadv.
  destruct st as [|f below]; [done|]. pose proof Hinv as (Hsh & Hlock & Hstacks).
  pose proof (Hstacks i _ Hi) as (Hb & Hanch & Hfi).
  pose proof (λ l, holds_owner holds _ _ l i _ Hlock Hi) as Hown. cbn [holds] in Hown.
  pose proof (code_moves f) as Hmoves. destruct (code f) as [|l next|l next|m|] eqn:Hcode; [done|..].
  - destruct (d_owner d l) eqn:Ho; [done|]. injection Hadv as <-. destruct Hmoves as (Hm & _ & Hl).
    destruct (set_owner_acquire holds_frame l i (d_owner d) f next) as [Hs Hot]; [done..|].
    by apply (dinv_moves d i f).
  - injection Hadv as <-. destruct Hmoves as (Hm & Hh & Hl).
    destruct (set_owner_release holds_frame l i (d_owner d) f next) as [Hs Hot]; [done..|].
    by apply (dinv_moves d i f).
  - destruct (m (d_shared d)) as [o s'] eqn:Hrun. injection Hadv as <-.
    pose proof (notified_lookup (d_shared d) s' _ i f below (λ send b, access_awake f m send b Hcode) Hi) as Hi'.
    set (d1 := mkDispatch (d_shared d) (d_owner d) (notified (d_shared d) s' (d_stacks d))).
    pose proof (dinv_notified d s' Hinv) as Hinv'. fold d1 in Hinv'. pose proof (proj1 Hinv') as Hsh1.
    pose proof (frame_access_safe i f m (d_shared d) _ Hfi (shared_top _ _ _ _ (shared_others d1 i _ Hi' Hsh1)) Hcode)
      as Hacc. unfold wp in Hacc. rewrite Hrun in Hacc.
    destruct o as [fs|e|h]; [|by apply (dead_insert d1) in Hdead; [|by eapply lookup_lt_Some]..].
    destruct Hacc as (g & more & -> & Hmore & Hh & Hg & Hrely & Hsh').
    apply (dinv_after d1 i f below g (more ++ below)); try done.
    + by apply (shared_stack _ _ (g :: more)).
    + split; [by apply Forall_app|]. split; [|done].
      apply (anchored_app f (g :: more)); [done|]. intros Ha. by eapply anchor_access.
    + intros l. by rewrite Hh.
  - injection Hadv as <-. subst f. apply anchored_below in Hanch; [|done].
    destruct below as [|g more]; [by destruct Hanch as (? & ? & ?)|].
    apply Forall_cons in Hb as [Hg Hmore]. destruct (base_frame_ok i (d_shared d) g Hg) as [Hgok Hgh].
    apply (dinv_after d i Return (g :: more)); try done.
    + apply rely_refl, Hsh.
    + by apply (shared_others d i (Return :: g :: more) Hi).
    + intros l. rewrite Hgh. destruct l; apply Hown.
Qed.

(** What the application may pass to [send]. *)
Definition call_ok (c : call K) : Prop :=
  match c with CallSend send _ => sk_fits send | CallClose => True end.

Lemma dstep_safe (allowed : call K → Prop) d d' :
  (∀ c, allowed c → call_ok c) → dinv d → dstep allowed d d' → dead d' = false → dinv d'.
Proof.
  intros Hall Hinv Hstep Hdead. pose proof Hinv as (Hsh & Hlock & Hstacks).
  destruct Hstep as [i d' Hadv|i f rest c _ Hi Hf Hc|i rest ev m _ Hi Hint Hv _|i send b rest _ Hi].
  - by eapply advance_safe.
  - pose proof (Hstacks i _ Hi) as (Hb & Hanch & Hfi). apply Hall in Hc.
    pose proof (λ l, holds_owner holds _ _ l i _ Hlock Hi) as Hown. cbn [holds] in Hown.
    assert (∀ l, holds_frame l (enter c) = holds_frame l f) as Hh by (intros []; by destruct c, f).
    apply (dinv_after d i f rest); try done.
    + apply rely_refl, Hsh.
    + apply (shared_ok_mono _ _ _ (shared_others d i _ Hi Hsh)); [intros _ p _|intros _];
        simpl; rewrite !orb_true_iff; tauto.
    + split; [constructor; [by destruct f|done]|]. split; [by apply anchored_cons|]. by destruct c.
    + intros l. rewrite Hh. apply Hown.
  - pose proof (Hstacks i _ Hi) as (Hb & Hanch & Hfi).
    pose proof (λ l, holds_owner holds _ _ l i _ Hlock Hi) as Hown. cbn [holds] in Hown.
    apply (dinv_after d i Poll rest); try done.
    + split; try done; [apply Hsh|]. intros _ Ha. congruence.
    + destruct (shared_others d i _ Hi Hsh) as (Hok & Hreg & _ & Hpend). split_and!; [done|done| |].
      * intros _. cbn. right. done.
      * intros Hc Hp. exact (Hpend Hc Hp).
    + split; [done|]. split; [|done]. destruct Hanch as (h & Hl & Ha).
      destruct rest as [|g rest]; [by exists (Look ev)|]. exists h. by rewrite last_cons_cons in Hl |- *.
  - pose proof (λ l, holds_owner holds _ _ l i _ Hlock Hi) as Hown. cbn [holds] in Hown.
    apply (dinv_after d i (SendAsleep send b) rest); try done.
    + apply rely_refl, Hsh.
    + by apply (shared_others d i _ Hi).
    + by apply (wake_stack_ok i _ (SendAsleep send b :: rest)), Hstacks.
Qed.

Lemma registering_stack apps workers k mode i st :
  d_stacks (registering apps workers k mode) !! i = Some st →
  (i = 0%nat ∧ st = [RegLock true; App]) ∨ st = [App] ∨ st = [Poll].
Proof.
  destruct i as [|i]; [intros [= <-]; by left|]. cbn.
  intros [[-> _]%lookup_replicate_1|(_ & [-> _]%lookup_replicate_1)]%lookup_app_Some; auto.
Qed.

(** A socket that may be registered in [mode]. *)
Definition registrable (k : K) (mode : Mode) : Prop :=
  sk_ok k ∧ (sk_is_connected k = true → sk_pending k → mode = ReadWrite).

Lemma dinv_registering apps workers k mode :
  registrable k mode → dinv (registering apps workers k mode).
Proof.
  intros [Hok Hp]. split; [|split].
  - split_and!; [done|done| |by left; apply Hp]. intros _. by exists 0%nat, [RegLock true; App].
  - apply lock_inv_start. intros l st [i Hi]%list_elem_of_lookup.
    destruct (registering_stack _ _ _ _ _ _ Hi) as [[_ ->]|[-> | ->]]; by destruct l.
  - intros i st Hi. destruct (registering_stack _ _ _ _ _ _ Hi) as [[-> ->]|[-> | ->]].
    + split; [by constructor|]. split; [by exists App|]. by intros _.
    + split; [done|]. split; [by exists App|done].
    + split; [done|]. split; [by exists Poll|done].
Qed.

Lemma dreach_dinv (allowed : call K → Prop) d0 d :
  (∀ c, allowed c → call_ok c) → dinv d0 → dreach allowed d0 d → dead d = false → dinv d.
Proof.
  intros Hall H0' Hreach. induction Hreach as [|d d' _ IH Hstep]; [done|].
  intros Hdead. apply (dstep_safe allowed d d'); try done. apply IH.
  destruct Hstep as [i d' Hadv| | |]; [|done..].
  unfold advance in Hadv. by destruct (dead d).
Qed.

(** * Nothing is lost *)

(** A thread that waits for something to happen: for an event, for a call of the
    application, or, in a call of the application, for the send queue. *)
Definition resting (st : list (frame K)) : bool :=
  match st with
  | [App] | [Poll] | [Exited] | [SendAsleep _ _; App] => true
  | _ => false
  end.

Lemma resting_classes st p :
  resting st = true → p = arming ∨ p = first ∨ p = notifying ∨ p = sending → existsb p st = false.
Proof.
  intros Hr Hp. destruct st as [|[] [|[] [|]]]; try done; by destruct Hp as [-> |[-> |[-> | ->]]].
Qed.

Lemma nobody_left stacks p :
  Forall (λ st, resting st = true) stacks →
  p = arming ∨ p = first ∨ p = notifying ∨ p = sending → ¬ has stacks p.
Proof.
  intros Hrest Hp (j & st & Hj & Hst). rewrite Forall_lookup in Hrest.
  by rewrite (resting_classes st p (Hrest j st Hj) Hp) in Hst.
Qed.

(** C7: one connection in the event loop, any number of workers and of threads of
    the application that send on it and close it, in any interleaving. Whenever
    all of them rest and the socket is still valid, no event can be missed: the
    event loop knows the listener, epoll watches its descriptor (the one-shot
    registration has been renewed) in the mode the listener believes it is in,
    which includes writing if data waits to be sent on the connection; and no
    worker has left its loop. *)
Theorem no_lost_events (allowed : call K → Prop) apps workers k mode d :
  (∀ c, allowed c → call_ok c) → registrable k mode →
  dreach allowed (registering apps workers k mode) d → dead d = false →
  Forall (λ st, resting st = true) (d_stacks d) → sk_is_valid (d_socket (d_shared d)) = true →
  let s := d_shared d in
  d_registered s = true ∧ d_interest s = Armed (d_mode s) ∧
  (sk_is_connected (d_socket s) = true → sk_pending (d_socket s) → d_mode s = ReadWrite) ∧
  [Exited] ∉ d_stacks d.
Proof.
  intros Hall Hk Hreach Hdead Hrest Hv s.
  destruct (dreach_dinv allowed _ d Hall (dinv_registering apps workers k mode Hk) Hreach Hdead)
    as ((_ & Hreg & Hint & Hpend) & _ & Hstacks).
  assert (d_registered s = true) as Hr.
  { apply not_false_iff_true. intros Hi%Hreg. unfold invalid in Hi. congruence. }
  pose proof (nobody_left (d_stacks d)) as Hno. specialize (Hint Hv). split_and!; [done| | |].
  - subst s. destruct (d_interest (d_shared d)) as [| |m];
      [by destruct (Hno first Hrest ltac:(auto)) |by destruct (Hno arming Hrest ltac:(auto))|].
    destruct Hint as [->|Hn]; [done|]. by destruct (Hno notifying Hrest ltac:(auto)).
  - intros Hc Hp. destruct (Hpend Hc Hp) as [|Hs]; [done|]. by destruct (Hno sending Hrest ltac:(auto)).
  - intros [i Hi]%list_elem_of_lookup. destruct (Hstacks i _ Hi) as (_ & _ & Hx). simpl in Hx.
    subst s. congruence.
Qed.

(** * Waiting for the send queue *)

Section waiting.
Context `{!SendQueueLaws K}.

(** A thread that has fallen asleep had a reason. *)
Definition rests_for s (o : outcome (list (frame K))) : Prop :=
  ∀ send blocking more, o = Val (SendAsleep send blocking :: more) → worth_waiting (d_socket s) = true.

Definition wait_post s (o : outcome (list (frame K))) s' : Prop :=
  keeps_waiters (d_socket s) (d_socket s') ∧ rests_for s' o.

Lemma keeps_same (k k' : K) : k' = k → keeps_waiters k k'.
Proof. intros ->. by left. Qed.

(** A call on the socket, after which the thread does not sleep. *)
Lemma call_keeps {A} (m : M K A) (next : A → frame K) s :
  wp m (d_socket s) (λ _ k, keeps_waiters (d_socket s) k) →
  (∀ a send blocking, next a ≠ SendAsleep send blocking) →
  wp (a ← on_sock m; go (next a)) s (wait_post s).
Proof.
  intros Hm Hnext. wp_step. apply wp_on_sock. eapply wp_mono; [done|].
  intros [a|e|h] k Hk; cbn [seq_post]; [apply wp_ret|..]; (split; [done|]); [|done..].
  intros send b more [= Hn _]. by destruct (Hnext a send b).
Qed.

(** The same with a handler that only decides where to go. *)
Lemma caught_keeps (m : M S (list (frame K))) (h : exn → M S (list (frame K))) s :
  wp m s (wait_post s) →
  (∀ e s', wp (h e) s' (λ o s'', s'' = s' ∧ ∀ send b more, o ≠ Val (SendAsleep send b :: more))) →
  wp (catch m h) s (wait_post s).
Proof.
  intros Hm Hh. wp_step. eapply wp_mono; [done|]. intros [fs|e|x] s' Hp; try done.
  eapply wp_mono; [apply Hh|]. intros o s'' [-> Ho]. split; [apply Hp|].
  intros send b more ->. by destruct (Ho send b more).
Qed.

(** An access that does not call the socket. *)
Ltac no_call :=
  unfold wp, look, handle, unregister, after_set_mode, close_end, after_close_socket, modify_shared,
    Dispatch.go, calls, get, mbind, M_bind, mret, M_ret; cbn;
  split; [apply keeps_same; repeat case_match; done|intros ? ? ?; repeat (case_match; cbn); try done].

Lemma access_keeps i f m s :
  sk_ok (d_socket s) → frame_ok i s f → code f = Access m → wp m s (wait_post s).
Proof.
  intros Hok Hf Hcode.
  destruct f as [| | |ev|ev| | | |b|b|b| | | |msg|msg| | | | | |send b|send b|send b|send b|send b| |k|k|k v
    |mode k|mode k|mode b k|mode b k|k|k|k|fin k|fin held k|held k|held k|held k|k| |msg];
    try discriminate; injection Hcode as <-; simpl in Hf.
  all: try (by no_call).
  - unfold receive_message. apply caught_keeps.
    + apply (call_keeps sk_receive (λ m, match m with Some msg => ReadUnlock msg | None => ReadTest end));
        [by apply skq_receive|by intros []].
    + intros [] s'; by split.
  - unfold write_event. apply caught_keeps.
    + apply (call_keeps sk_do_send (λ more : bool, if more then WriteEnd else ValidLock (ValidWrite true)));
        [by apply skq_do_send|by intros []].
    + intros [] s'; by split.
  - unfold try_send. apply caught_keeps.
    + by apply (call_keeps send (λ more, ValidLock (ValidSend more))); [apply skq_send|].
    + intros [] s'; by destruct b; split.
  - wp_step. apply wp_get. cbn [seq_post]. apply wp_ret. split; [by apply keeps_same|].
    intros send' b' more. unfold worth_waiting.
    by destruct (sk_must_wait _).
  - by apply (call_keeps (sk_close false) (λ done, CloseUnlock done k)); [apply skq_close|].
Qed.

Definition asleep (st : list (frame K)) : bool :=
  match st with SendAsleep _ _ :: _ => true | _ => false end.

(** Whoever sleeps has a reason. *)
Definition winv (d : dispatch K) : Prop :=
  ∀ i st, d_stacks d !! i = Some st → asleep st = true → worth_waiting (d_socket (d_shared d)) = true.

Lemma winv_after d s' owner i st :
  winv d → d_socket s' = d_socket (d_shared d) → asleep st = false →
  winv (mkDispatch s' owner (<[i := st]> (d_stacks d))).
Proof.
  intros Hw Hs Ha j st'. cbn [d_stacks d_shared]. rewrite Hs. intros Hj Hst.
  apply list_lookup_insert_Some in Hj as [(_ & <- & _)|[_ Hj]]; [congruence|by apply (Hw j st')].
Qed.

Lemma below_awake i s f below : stack_ok i s (f :: below) → asleep below = false.
Proof. intros (Hb & _). destruct below as [|g]; [done|]. by apply Forall_cons in Hb as [Hg _]; destruct g. Qed.

Lemma move_awake f l next rest :
  code f = Acquire l next ∨ code f = Release l next → asleep (next :: rest) = false.
Proof.
  destruct f; intros [[=]|[=]]; subst; try done; unfold after_is_valid, after_close_socket;
    by repeat case_match; simplify_eq.
Qed.

Lemma advance_winv i d d' : dinv d → winv d → advance i d = Some d' → winv d'.
Proof.
  intros Hinv Hw Hadv. unfold advance in Hadv. destruct (dead d); [done|].
  destruct (d_stacks d !! i) as [st|] eqn:Hi; [|done]. simpl in Hadv.
  destruct st as [|f below]; [done|]. pose proof Hinv as (Hsh & _ & Hstacks).
  pose proof (below_awake _ _ _ _ (Hstacks i _ Hi)) as Hbelow. pose proof (Hstacks i _ Hi) as (_ & _ & Hf).
  destruct (code f) as [|l next|l next|m|] eqn:Hcode; [done|..].
  - destruct (d_owner d l); [done|]. injection Hadv as <-.
    apply winv_after; [done|done|]. apply (move_awake f l). by left.
  - injection Hadv as <-. apply winv_after; [done|done|]. apply (move_awake f l). by right.
  - pose proof (access_keeps i f m (d_shared d) (proj1 Hsh) Hf Hcode) as Hacc. unfold wp in Hacc.
    destruct (m (d_shared d)) as [o s'] eqn:Hrun. injection Hadv as <-. cbn [fst snd] in Hacc.
    destruct Hacc as [Hkeep Hrest]. intros j st. cbn [d_stacks d_shared]. intros Hj Hst.
    apply list_lookup_insert_Some in Hj as [(_ & <- & _)|[_ Hj]].
    + destruct o as [[|g more]|e|h]; [simpl in Hst; congruence| |done..].
      destruct g; try done. by eapply Hrest.
    + unfold notified in Hj. destruct (sk_notified _ _) eqn:Hn.
      * apply list_lookup_fmap_Some in Hj as (st0 & -> & Hj). by destruct st0 as [|[]].
      * destruct (Hkeep (Hw j st Hj Hst)); [done|congruence].
  - injection Hadv as <-. by apply winv_after.
Qed.

Lemma dreach_winv (allowed : call K → Prop) apps workers k mode d :
  (∀ c, allowed c → call_ok c) → registrable k mode →
  dreach allowed (registering apps workers k mode) d → dead d = false → winv d.
Proof.
  intros Hall Hk Hreach. induction Hreach as [|d d' Hreach IH Hstep]; intros Hdead.
  - intros i st Hi. by destruct (registering_stack _ _ _ _ _ _ Hi) as [[_ ->]|[-> | ->]].
  - assert (dead d = false) as Hd.
    { destruct Hstep as [i d' Hadv| | |]; [|done..]. unfold advance in Hadv. by destruct (dead d). }
    pose proof (dreach_dinv allowed _ d Hall (dinv_registering apps workers k mode Hk) Hreach Hd) as Hinv.
    specialize (IH Hd). destruct Hstep as [i d' Hadv|i f rest c _ Hi Hf Hc|i rest ev m _ Hi Hint Hv _|i send b rest _ Hi].
    + by apply (advance_winv i d).
    + apply winv_after; [done|done|by destruct c].
    + by apply winv_after.
    + by apply winv_after.
Qed.
End waiting.


(** * No deadlock *)

(** Waiting, wherever it is: inside [on_network_message] too. *)
Definition waits s (st : list (frame K)) : bool :=
  match st with
  | (App | Poll | Exited) :: _ => true
  | SendAsleep _ _ :: _ => worth_waiting (d_socket s)
  | _ => false
  end.

Lemma can_advance d i f below :
  dead d = false → winv d → d_stacks d !! i = Some (f :: below) → waits (d_shared d) (f :: below) = false →
  (∀ l next, code f = Acquire l next → d_owner d l = None) → ∃ d', advance i d = Some d'.
Proof.
  intros Hdead Hwait Hi Hw Hacq. unfold advance. rewrite Hdead, Hi. simpl.
  assert (is_aborted f = false) as Ha.
  { apply not_true_iff_false. intros Ha. enough (dead d = true) by congruence.
    apply existsb_exists. exists (f :: below). simpl. rewrite Ha. split; [|done].
    by eapply list_elem_of_In, list_elem_of_lookup_2. }
  destruct (code f) as [|l next|l next|m|] eqn:Hc; [| | | |by eexists].
  - destruct f; try done. simpl in Hw. by rewrite (Hwait i _ Hi eq_refl) in Hw.
  - rewrite (Hacq l next eq_refl). by eexists.
  - by eexists.
  - destruct (m _) as [o s']. by eexists.
Qed.

(** Who owns a mutex does not wait, and asks only for [m_mutex], owning
    [m_send_mutex]. *)
Lemma owner_code s l f below :
  holds_frame l f = true →
  waits s (f :: below) = false ∧
  ∀ l' next, code f = Acquire l' next → l = SendMutex ∧ l' = ListenerMutex.
Proof.
  destruct l, f as [| | |ev|ev| | | |b|b|b| | | |msg|msg| | | | | |send b|send b|send b|send b|send b| |k|k|k v
    |mode k|mode k|mode b k|mode b k|k|k|k|fin k|fin held k|held k|held k|held k|k| |msg];
    intros Hh; try done; (split; [done|]); intros l' next; try done; by intros [= <- _].
Qed.

(** C8: in the same system, no two threads are ever inside the same mutex of the
    listener, no wake-up of [wait_send_queue_empty] is lost, and the threads never
    deadlock: a thread that sleeps there has a reason, in every state; and whenever
    no thread can go on, each is waiting for an event, for a call of the
    application, or, asleep on the condition variable, for the send queue. The
    reason is that data is queued on a valid socket; the exception is the path of
    [close] that gives the descriptor up without [notify_all] ([sk_abandoned]). *)
Theorem dispatch_progress `{!SendQueueLaws K} (allowed : call K → Prop) apps workers k mode d :
  (∀ c, allowed c → call_ok c) → registrable k mode →
  dreach allowed (registering apps workers k mode) d → dead d = false →
  (∀ l i j st st', d_stacks d !! i = Some st → d_stacks d !! j = Some st' →
     holds l st = true → holds l st' = true → i = j) ∧
  (∀ i st, d_stacks d !! i = Some st → asleep st = true →
     sk_must_wait (d_socket (d_shared d)) = true ∨ sk_abandoned (d_socket (d_shared d)) = true) ∧
  ((∃ i d', advance i d = Some d') ∨ forallb (waits (d_shared d)) (d_stacks d) = true).
Proof.
  intros Hall Hk Hreach Hdead.
  destruct (dreach_dinv allowed _ d Hall (dinv_registering apps workers k mode Hk) Hreach Hdead)
    as (_ & Hlock & Hstacks).
  pose proof (dreach_winv allowed apps workers k mode d Hall Hk Hreach Hdead) as Hwait.
  split; [by intros l i j st st' Hi Hj; apply (holds_unique holds _ _ l _ _ _ _ Hlock)|].
  split; [intros i st Hi Hst; by apply orb_true_iff, (Hwait i st)|].
  assert (∀ l i, (l = SendMutex → d_owner d ListenerMutex = None) → d_owner d l = Some i →
    ∃ d', advance i d = Some d') as Howner.
  { intros l i Hfree Ho. destruct (proj1 (fmap_Some _ _ _) (proj1 (Hlock l i) Ho)) as (st & Hi & Hh).
    destruct st as [|f below]; [done|]. destruct (owner_code (d_shared d) l f below (eq_sym Hh)) as [Hw Hacq].
    eapply can_advance; [done..|]. intros l' next Hc. destruct (Hacq l' next Hc) as [-> ->]. by apply Hfree. }
  destruct (d_owner d ListenerMutex) as [i|] eqn:Hl; [left; exists i; by apply (Howner ListenerMutex)|].
  destruct (d_owner d SendMutex) as [i|] eqn:Hs; [left; exists i; by apply (Howner SendMutex)|].
  destruct (forallb _ _) eqn:Hw; [by right|left].
  assert (¬ Forall (λ st, waits (d_shared d) st = true) (d_stacks d)) as Hsome.
  { intros Hf. rewrite <- not_true_iff_false in Hw. apply Hw, forallb_forall.
    intros st Hin%list_elem_of_In. by eapply Forall_forall in Hf. }
  apply not_Forall_Exists in Hsome; [|solve_decision].
  apply Exists_exists in Hsome as (st & [i Hi]%list_elem_of_lookup & Hst%not_true_iff_false).
  exists i. destruct st as [|f below]; [by destruct (Hstacks i _ Hi)|].
  eapply can_advance; [done..|]. by intros [] next.
Qed.
End safe.
