(* ===== verification/TcpWaiters.v ===== *)
(** The condition variable of a TCP socket as Dispatch.v sees it: which calls of
    src/network/TcpSocket.cpp call [m_send_queue_cond.notify_all()], told from the
    socket before and after the call, and that none of them takes away the reason
    to wait without it, but for one path of [close]. *)
From S2P Require Import Prelude Machine Buffer Framing Slicer Listener ListenerProps Datagram Inet Sys TcpSocket.
From S2P Require Import TcpBase TcpSend TcpRecv TcpLife TcpListener Mutex Dispatch DispatchSafe.
Local Open Scope Z_scope.

Section waiters.
Context {Σ T : Type} `{Sys Σ} `{MessageSlicer T} `{Inet}.
Abbreviation W := (world Σ T).
Implicit Types (w : W).

Definition is_closing (e : Sys.event) : bool := match e with Closed_fd _ => true | _ => false end.
Definition is_shutdown (e : Sys.event) : bool := match e with ShutDown _ => true | _ => false end.

(** [do_send] notifies when it takes a message from the queue, [close] after it has
    closed the descriptor. When [shutdown] says ENOTCONN, [close] returns with the
    descriptor given up, not closed, and without [notify_all]. ([close] of a socket
    that is closed already notifies as well, which leaves no mark on the socket;
    its wake-ups are among the spurious ones.) *)
#[export] Instance tcp_send_queue : SendQueue W := {|
  sk_must_wait w := (0 <? m_send_queue_size (w_sock w)) && is_valid_sock (w_sock w);
  sk_notified w w' :=
    (m_send_queue_size (w_sock w') <? m_send_queue_size (w_sock w)) ||
    existsb is_closing (drop (length (w_trace w)) (w_trace w'));
  sk_abandoned w :=
    negb (is_valid_sock (w_sock w)) &&
    match last (w_trace w) with Some e => is_shutdown e | None => false end;
|}.

(** What a call has done to the descriptor, from the events it logged. *)
Definition signals w w' : Prop :=
  ∃ new, w_trace w' = w_trace w ++ new ∧
    (is_valid_sock (w_sock w) = true → is_valid_sock (w_sock w') = true ∨ existsb is_closing new = true) ∧
    (is_valid_sock (w_sock w) = false → new = [] ∧ is_valid_sock (w_sock w') = false).

Lemma signals_kept w w' :
  w_trace w' = w_trace w → is_valid_sock (w_sock w') = is_valid_sock (w_sock w) → signals w w'.
Proof. intros Ht Hv. exists []. rewrite Ht, Hv, app_nil_r. split_and!; auto. Qed.

Lemma signals_refl w : signals w w.
Proof. by apply signals_kept. Qed.

Lemma signals_trans w1 w2 w3 : signals w1 w2 → signals w2 w3 → signals w1 w3.
Proof.
  intros (n1 & Ht1 & Hv1 & Hi1) (n2 & Ht2 & Hv2 & Hi2). exists (n1 ++ n2).
  rewrite Ht2, Ht1, <- app_assoc. split; [done|]. rewrite existsb_app, orb_true_iff. split.
  - intros [Hv|Hc]%Hv1; [|by right; left]. destruct (Hv2 Hv); auto.
  - intros [-> Hv]%Hi1. by apply Hi2.
Qed.

(** A step that logs something on a valid descriptor. *)
Lemma signals_logged w w' e :
  is_valid_sock (w_sock w) = true → w_trace w' = w_trace w ++ [e] →
  is_valid_sock (w_sock w') = true → signals w w'.
Proof. intros Hv Ht Hv'. exists [e]. rewrite Hv. split_and!; auto. done. Qed.

Lemma close_signals fast w :
  bool_decide (m_state (w_sock w) = Connected) && negb fast = false →
  wp (close fast) w (λ _ w', signals w w').
Proof.
  intros Hst. unfold close. tcp_step. tcp_step. cbn [seq_post]. rewrite Hst.
  destruct (0 <? m_fd (w_sock w)) eqn:Hfd.
  - repeat tcp_step. exists [Closed_fd (m_fd (w_sock w))]. unfold is_valid_sock. rewrite Hfd. by split_and!; auto.
  - destruct (_ || _); tcp_step; apply signals_refl.
Qed.

(** [close(true)] and what follows. *)
Lemma close_then_signals {A} (m : M W A) w0 w :
  signals w0 w → (∀ w', wp m w' (λ _ w'', w'' = w')) → wp (close true;; m) w (λ _ w', signals w0 w').
Proof.
  intros Hs Hm. tcp_step. eapply wp_mono; [apply close_signals, andb_false_r|]. intros [[]|e|h] w1 Hc; cbn [seq_post];
    try (by eapply signals_trans); (eapply wp_mono; [apply Hm|]); intros _ w2 ->; by eapply signals_trans.
Qed.

Lemma on_slicer_signals {A} (m : M T A) w : wp (on_slicer m) w (λ _ w', signals w w').
Proof. apply wp_on_slicer. unfold wp. by destruct (m _); apply signals_kept. Qed.

Lemma read_slice_same {C} a n (data : list C) w : wp (read_slice a n data) w (λ _ w', w' = w).
Proof. unfold wp, read_slice. by destruct (in_range _ _ _). Qed.

Lemma write_slice_same {C} a (bs data : list C) w : wp (write_slice a bs data) w (λ _ w', w' = w).
Proof. unfold wp, write_slice. by destruct (in_range _ _ _). Qed.

(** ** Receiving *)

Lemma receive_data_signals w : wp receive_data w (λ _ w', signals w w').
Proof.
  unfold receive_data. tcp_step. tcp_step. cbn [seq_post].
  destruct (is_valid_sock (w_sock w)) eqn:Hv; cbn [negb]; [|tcp_step; apply signals_refl].
  destruct (buf_is_valid _); [tcp_step; apply signals_refl|].
  tcp_step. tcp_step. cbn [seq_post]. tcp_step. apply wp_os_call. intros x σ _. cbn [seq_post].
  set (w1 := mkWorld σ _ _ _). assert (signals w w1) as Hs by (by apply signals_kept).
  destruct x as [[|b bs]|e].
  - apply close_then_signals; [done|]. intros w'. by tcp_step.
  - tcp_step. tcp_step. cbn [seq_post]. tcp_step.
    assert (∀ w2, w_trace w2 = w_trace w ++ [Received (m_fd (w_sock w)) (b :: bs)] →
      m_fd (w_sock w2) = m_fd (w_sock w) → signals w w2) as Hend.
    { intros w2 Ht Hfd. eapply signals_logged; [done|done|]. unfold is_valid_sock in *. by rewrite Hfd. }
    eapply wp_mono; [apply write_slice_same|]. intros [d|e|h] w2 ->; cbn [seq_post]; [|by apply Hend..].
    tcp_step. tcp_step. cbn [seq_post]. tcp_step. by apply Hend.
  - destruct e; try (by tcp_step); (apply close_then_signals; [done|]); intros w'; by tcp_step.
Qed.

Lemma pull_step_signals w : wp pull_step w (λ _ w', signals w w').
Proof.
  unfold pull_step. tcp_step. tcp_step. cbn [seq_post]. tcp_step.
  apply wp_mono with (P := λ _ w', signals w w').
  { destruct (negb _); [apply receive_data_signals|tcp_step; apply signals_refl]. }
  intros [[|]|e|h] w1 Hs; cbn [seq_post negb]; [|by tcp_step|done..].
  tcp_step. tcp_step. eapply wp_mono; [apply on_slicer_signals|].
  intros o w2 Hs2. pose proof (signals_trans _ _ _ Hs Hs2). destruct o; cbn [seq_post]; try done; repeat tcp_step; done.
Qed.

Lemma receive_signals fuel w : wp (receive fuel) w (λ _ w', signals w w').
Proof.
  unfold receive. tcp_step. apply (wp_iter_partial (signals w)); [by intros ? ?| |apply signals_refl].
  intros w1 Hs1. eapply wp_mono; [apply pull_step_signals|].
  intros [[a|]|e|h] w2 Hs2; pose proof (signals_trans _ _ _ Hs1 Hs2) as Hs; cbn [seq_post]; [|done..].
  tcp_step. tcp_step. cbn [seq_post]. destruct (slicer_has_messages _); [|by tcp_step].
  tcp_step. eapply wp_mono; [apply on_slicer_signals|]. intros o w3 Hs3.
  pose proof (signals_trans _ _ _ Hs Hs3). destruct o as [[m|]|e|h]; cbn [seq_post]; try done; by tcp_step.
Qed.

(** ** Sending *)

(** One [write] on a valid descriptor. *)
Lemma write_step_signals w :
  is_valid_sock (w_sock w) = true →
  wp write_step w (λ o w', signals w w' ∧ (o = Val None → is_valid_sock (w_sock w') = true)).
Proof.
  intros Hv. unfold write_step. tcp_step. tcp_step. cbn [seq_post].
  destruct (m_current_message (w_sock w)) as [message|]; [|tcp_step; by split; [apply signals_refl|]].
  destruct (negb _); [tcp_step; by split; [apply signals_refl|]|].
  tcp_step. eapply wp_mono; [apply read_slice_same|]. intros [bytes|e|h] w0 ->; cbn [seq_post]; [|by split; [apply signals_refl|]..].
  tcp_step. apply wp_os_call. intros r σ _. cbn [seq_post]. set (w1 := mkWorld σ _ _ _).
  assert (signals w w1) as Hs by (by apply signals_kept).
  assert (∀ (m : M W (option (option bool))), (∀ w', wp m w' (λ o w'', w'' = w' ∧ o ≠ Val None)) →
    wp (close true;; m) w1 (λ o w', signals w w' ∧ (o = Val None → is_valid_sock (w_sock w') = true))) as Hclose.
  { intros m Hm. tcp_step. eapply wp_mono; [apply close_signals, andb_false_r|].
    intros o w2 Hc. pose proof (signals_trans _ _ _ Hs Hc). destruct o; cbn [seq_post]; [|by split..].
    eapply wp_mono; [apply Hm|]. by intros o w3 [-> Ho]. }
  destruct r as [n|e].
  - destruct (0 <? n); [|apply Hclose; intros w'; by tcp_step].
    tcp_step. tcp_step. cbn [seq_post]. tcp_step. tcp_step. cbn [seq_post]. tcp_step.
    split; [|done]. by eapply signals_logged.
  - destruct e; try (apply Hclose; intros w'; by tcp_step). by tcp_step.
Qed.

Lemma write_message_signals fuel w :
  is_valid_sock (w_sock w) = true → wp (write_message fuel) w (λ _ w', signals w w').
Proof.
  intros Hv. unfold write_message.
  apply (wp_iter_partial (λ w', signals w w' ∧ is_valid_sock (w_sock w') = true));
    [by intros ? []| |by split; [apply signals_refl|]].
  intros w1 [Hs Hv1]. eapply wp_mono; [by apply write_step_signals|].
  intros [[a|]|e|h] w2 [Hs2 Hn]; pose proof (signals_trans _ _ _ Hs Hs2); auto.
Qed.

Lemma send_step_signals fuel w : wp (send_step fuel) w (λ _ w', signals w w').
Proof.
  unfold send_step. tcp_step. apply wp_mono with (P := λ _ w', signals w w').
  { unfold next_message. tcp_step. tcp_step. cbn [seq_post].
    destruct (m_current_message _); [tcp_step; apply signals_refl|].
    destruct (m_send_queue _); repeat tcp_step; by apply signals_kept. }
  intros [[|]|e|h] w1 Hs; cbn [seq_post negb]; [|by tcp_step|done..].
  tcp_step. tcp_step. cbn [seq_post]. destruct (is_valid_sock (w_sock w1)) eqn:Hv; cbn [negb]; [|by tcp_step].
  tcp_step. eapply wp_mono; [by apply write_message_signals|].
  intros [[b|]|e|h] w2 Hs2; pose proof (signals_trans _ _ _ Hs Hs2) as Hs12; cbn [seq_post]; try done; repeat tcp_step; done.
Qed.

Lemma do_send_signals fuel w : wp (do_send fuel) w (λ _ w', signals w w').
Proof.
  unfold do_send. apply (wp_iter_partial (signals w)); [by intros ? ?| |apply signals_refl].
  intros w1 Hs1. eapply wp_mono; [apply send_step_signals|].
  intros [[a|]|e|h] w2 Hs2; by apply (signals_trans _ _ _ Hs1).
Qed.

Lemma queue_and_send_signals fuel (async : bool) m w :
  wp (enqueue m;; if async then mret true else do_send fuel) w (λ _ w', signals w w').
Proof.
  tcp_step. unfold enqueue. tcp_step. cbn [seq_post]. set (w1 := mkWorld _ _ _ _).
  assert (signals w w1) as Hs by (by apply signals_kept).
  destruct async; [by tcp_step|]. eapply wp_mono; [apply do_send_signals|]. intros ? w2. by apply signals_trans.
Qed.

Lemma check_send_same len w : wp (check_send len) w (λ _ w', w' = w).
Proof.
  unfold check_send. destruct (len =? 0); [by tcp_step|]. tcp_step. tcp_step. cbn [seq_post].
  destruct (negb _); [by tcp_step|]. tcp_step. tcp_step. cbn [seq_post]. by destruct (_ <=? _); tcp_step.
Qed.

Lemma send_shared_signals fuel data len async w : wp (send_shared fuel data len async) w (λ _ w', signals w w').
Proof.
  unfold send_shared. tcp_step. eapply wp_mono; [apply check_send_same|].
  intros o w1 ->; destruct o as [[]|e|h]; cbn [seq_post]; [apply queue_and_send_signals|apply signals_refl..].
Qed.

Lemma send_unique_signals fuel data len async w : wp (send_unique fuel data len async) w (λ _ w', signals w w').
Proof.
  unfold send_unique. tcp_step. eapply wp_mono; [apply check_send_same|].
  intros [[]|e|h] w1 ->; cbn [seq_post]; [|apply signals_refl..].
  tcp_step. eapply wp_mono; [apply on_slicer_signals|]. intros [[data' len']|e|h] w2 Hs; cbn [seq_post]; try done.
  eapply wp_mono; [apply queue_and_send_signals|]. intros ? w3. by apply signals_trans.
Qed.

Lemma send_signals fuel data len async w : wp (TcpSocket.send fuel data len async) w (λ _ w', signals w w').
Proof.
  unfold TcpSocket.send. tcp_step. eapply wp_mono; [apply read_slice_same|].
  intros [cpy|e|h] w1 ->; cbn [seq_post]; [apply send_unique_signals|apply signals_refl..].
Qed.

(** ** What this means for a thread that waits *)

Lemma signals_keeps w w' : signals w w' → keeps_waiters w w'.
Proof.
  intros (new & Ht & Hv & Hi). unfold keeps_waiters, worth_waiting. simpl.
  rewrite Ht, drop_app_length. rewrite !orb_true_iff, !andb_true_iff, !Z.ltb_lt.
  intros [[Hsize Hvalid]|[Hno Hlast]].
  - destruct (Hv Hvalid) as [Hv'|Hc]; [|by right; right].
    destruct (Z.le_gt_cases (m_send_queue_size (w_sock w')) 0); [right; left; lia|left; left; by split; [lia|]].
  - left. right. apply negb_true_iff in Hno. destruct (Hi Hno) as [-> ->]. by rewrite app_nil_r.
Qed.
End waiters.

(** ** The laws *)

Section laws.
Context {Σ T : Type} `{SysLaws Σ} {host : Host Σ} `{SlicerLaws T} `{InetLaws}.
Abbreviation W := (world Σ T).
Implicit Types (w : W).

Lemma close_keeps w : life_ok (w_sock w) → wp (close false) w (λ _ w', keeps_waiters w w').
Proof.
  intros [_ Hd].
  destruct (bool_decide (m_state (w_sock w) = Connected)) eqn:Hst.
  - assert (is_valid_sock (w_sock w) = true) as Hv.
    { apply Z.ltb_lt, (connected_fd _ Hd). by apply bool_decide_eq_true in Hst. }
    unfold close. tcp_step. tcp_step. cbn [seq_post]. rewrite Hst. cbn [andb negb].
    tcp_step. tcp_step. cbn [seq_post]. tcp_step. tcp_step. cbn [seq_post].
    assert (∀ w1, is_valid_sock (w_sock w1) = true → m_send_queue_size (w_sock w1) = m_send_queue_size (w_sock w) →
      keeps_waiters w w1) as Hkept.
    { intros w1 Hv1 Hs Hw. left. unfold worth_waiting in *. simpl in *. rewrite Hv1, Hs. rewrite Hv in Hw.
      by rewrite andb_false_l, orb_false_r in Hw |- *. }
    tcp_step. apply wp_os_call. intros [e|] σ Hshut; cbn [seq_post]; [|tcp_step; by apply Hkept].
    tcp_step. tcp_step. cbn [seq_post]. destruct (bool_decide (e = ENOTCONN)); [|tcp_step; by apply Hkept].
    repeat tcp_step. intros _. left. unfold worth_waiting. simpl. rewrite last_app. by rewrite orb_true_r.
  - apply wp_mono with (P := λ _ w', signals w w'); [|by intros _ w'; apply signals_keeps].
    apply close_signals. by rewrite Hst.
Qed.

Definition tcp_queue_laws fuel mk (Hmk : slicer_wf mk) :
  @SendQueueLaws W (tcp_socket fuel mk) (tcp_socket_laws fuel mk Hmk) tcp_send_queue.
Proof.
  assert (∀ (m : M W bool) w, wp m w (λ _ w', signals w w') → wp m w (λ _ w', keeps_waiters w w')) as Hm.
  { intros m w Hs. eapply wp_mono; [exact Hs|]. intros ? w'. apply signals_keeps. }
  refine (@Build_SendQueueLaws W (tcp_socket fuel mk) (tcp_socket_laws fuel mk Hmk) tcp_send_queue _ _ _ _); simpl.
  - intros send w Hfits _. apply Hm. destruct Hfits; unfold wp; cbv beta;
      [apply (send_shared_signals (S _))|apply (send_unique_signals (S _))|apply (send_signals (S _))].
  - intros w _. apply Hm. exact (do_send_signals (S (load w)) w).
  - intros w _. eapply wp_mono; [apply receive_signals|]. intros ? w'. apply signals_keeps.
  - apply close_keeps.
Defined.
End laws.
