(* ===== verification/DispatchTcp.v ===== *)
(** Threads on one listener (Dispatch.v) over TCP: the sockets keep what
    DispatchSafe.v relies on, and concrete interleavings in which two workers, or
    a worker and a closing thread, get in each other's way. *)
From S2P Require Import Prelude Machine Buffer Framing Slicer Listener ListenerProps Datagram Inet Sys TcpSocket.
From S2P Require Import TcpBase Samples TcpSend TcpRecv TcpLife TcpListener Mutex Dispatch DispatchSafe TcpWaiters.
Local Open Scope Z_scope.

Section tcp.
Context {Σ T : Type} `{SysLaws Σ} {host : Host Σ} `{SlicerLaws T} `{InetLaws}.
Abbreviation W := (world Σ T).

Lemma valid_fd (s s' : TcpSocket T) :
  (0 < m_fd s' → 0 < m_fd s) → is_valid_sock s' = true → is_valid_sock s = true.
Proof. unfold is_valid_sock. rewrite !Z.ltb_lt. auto. Qed.

Definition tcp_shared_laws fuel mk (Hmk : slicer_wf mk) :
  @SharedSocketLaws W (tcp_socket fuel mk) (tcp_socket_laws fuel mk Hmk).
Proof.
  refine (@Build_SharedSocketLaws W (tcp_socket fuel mk) (tcp_socket_laws fuel mk Hmk) _ _ _ _); simpl.
  - intros send w Hfits Hok. eapply wp_mono; [by apply tcp_send_told|].
    intros o w' (_ & (Hc & Hv) & Ho). split_and!; [by apply valid_fd|by rewrite !bool_decide_eq_true|].
    intros ->. by destruct Ho as [[msg [=]]|[_ ->]].
  - intros w Hok.
    apply wp_mono with (P := λ o w', told_post w o w' ∧ sent_post (m_fd (w_sock w)) w o w').
    { exact (do_send_told (S (load w)) w Hok (Nat.lt_succ_diag_r _)). }
    intros o w' [(_ & (_ & Hv) & _) [_ Hs]]. split; [by apply valid_fd|].
    intros e ->. destruct Hs as (msg & _ & Hfd). unfold is_valid_sock. by apply Z.ltb_nlt.
  - intros w Hok. eapply wp_mono; [by apply receive_reads|].
    intros o w' (_ & _ & Hv). by apply valid_fd.
  - intros w Hok. eapply wp_mono; [by apply close_returns|].
    intros o w' ((b & -> & Hb & _) & (_ & _ & Hv) & _). split; [by apply valid_fd|].
    intros [= ->]. specialize (Hb eq_refl). unfold is_valid_sock. by apply Z.ltb_ge.
Defined.
End tcp.

(** * Concrete interleavings *)

#[local] Existing Instances no_hosts no_hosts_laws.

Abbreviation TCP := (world script DatagramMessageSlicer).

#[local] Instance tcp_sample : Socket TCP := tcp_socket 50 junk_slicer.
#[local] Instance tcp_sample_laws : SocketLaws TCP := tcp_socket_laws 50 junk_slicer junk_slicer_wf.
#[local] Instance tcp_sample_queue : SendQueueLaws TCP := tcp_queue_laws 50 junk_slicer junk_slicer_wf.
#[local] Instance tcp_sample_shared : SharedSocketLaws TCP := tcp_shared_laws 50 junk_slicer junk_slicer_wf.

Abbreviation D := (dispatch TCP).
Implicit Types (d : D).

(** The calls of a schedule are allowed. *)
Definition may (allowed : call TCP → Prop) (c : choice) : Prop :=
  match c with Call _ c => allowed c | _ => True end.

Lemma choose_step (allowed : call TCP → Prop) c d d' :
  may allowed c → choose c d = Some d' → dstep allowed d d'.
Proof.
  intros Hc Hch. destruct c as [i|i ev|i c]; simpl in Hch; [by eapply dstep_run|..].
  - destruct (dead d || _) eqn:Hd; [done|]. apply orb_false_iff in Hd as [Hd Hv%negb_false_iff].
    destruct (d_stacks d !! i) as [[|[] rest]|] eqn:Hi; try done.
    destruct (d_interest _) as [| |m] eqn:Hint; try done. destruct (reported ev m) eqn:Hr; [|done].
    injection Hch as <-. by eapply dstep_event.
  - destruct (dead d) eqn:Hd; [done|].
    destruct (d_stacks d !! i) as [[|f rest]|] eqn:Hi; try done.
    destruct (user_code f) eqn:Hf; [|done]. injection Hch as <-. by apply dstep_call.
Qed.

Lemma play_reach (allowed : call TCP → Prop) d0 cs d d' :
  Forall (may allowed) cs →
  dreach allowed d0 d → play cs d = Some d' → dreach allowed d0 d'.
Proof.
  intros Hall. revert d. induction Hall as [|c cs Hc _ IH]; intros d Hd; simpl.
  { by intros [= <-]. }
  intros (d1 & Hch & Hplay)%bind_Some. apply (IH d1); [|done].
  eapply dreach_step; [done|by eapply choose_step].
Qed.

(** What a schedule leads to. *)
Lemma played (allowed : call TCP → Prop) d0 cs (P : D → bool) :
  Forall (may allowed) cs →
  match play cs d0 with Some d => P d | None => false end = true →
  ∃ d, dreach allowed d0 d ∧ P d = true.
Proof.
  intros Hall. destruct (play cs d0) as [d|] eqn:Hplay; [|done]. intros HP. exists d.
  split; [|done]. eapply play_reach; [done|apply dreach_start|done].
Qed.

Definition go (i n : nat) : list (choice (K := TCP)) := replicate n (Go i).

Lemma may_go allowed i n : Forall (may allowed) (go i n).
Proof. by apply Forall_replicate. Qed.

Ltac may_schedule Hcalls :=
  repeat (apply Forall_app; split); first [apply may_go|apply Forall_singleton; first [exact I|apply Hcalls]].

(** A connection on which two messages arrive and nothing can be written. *)
Definition two_in : TCP :=
  sample_world (scripted ((inl <$> two_messages) ++ [inr EAGAIN; inr EAGAIN]) (replicate 5 (inr EAGAIN)) []) 7 Connected.

(** The same with a send queue for one message. *)
Definition small_queue : TCP :=
  mkWorld (w_os two_in) EAGAIN [] (set_state Connected (set_fd 7
    (new_socket (datagram_new (zero_bytes MAX_SIZE)) 1))).

Definition say_hi (blocking : bool) : call TCP := CallSend (sk_send_unique hi 2 false) blocking.

(** The first thread registers the listener. *)
Definition registered (k : TCP) (cs : list (choice (K := TCP))) : option D :=
  play (go 0 7 ++ cs) (registering 0 2 k ReadOnly).

Definition stack_is (i : nat) (names : frame TCP → bool) (d : D) : bool :=
  match d_stacks d !! i with Some (f :: _) => names f | _ => false end.

Definition is_callback (f : frame TCP) : bool := match f with Callback => true | _ => false end.
Definition is_waiting (f : frame TCP) : bool := match f with SendWait _ _ | SendAsleep _ _ => true | _ => false end.

(** Nobody has anything to do but to wait for an event, a call or the send queue. *)
Definition idle_thread (st : list (frame TCP)) : bool :=
  match st with (App | Poll | SendWait _ _ | SendAsleep _ _) :: _ => true | _ => false end.

(** A worker blocks in a [send] of [on_network_message]: data waits to be written
    on an open connection, and epoll does not watch the descriptor. *)
Definition stalled (d : D) : bool :=
  negb (dead d) && forallb idle_thread (d_stacks d) && stack_is 1 is_waiting d &&
  sk_must_wait (d_socket (d_shared d)) &&
  sk_is_connected (d_socket (d_shared d)) && bool_decide (outbox (w_sock (d_socket (d_shared d))) ≠ []) &&
  match d_interest (d_shared d) with Disabled => true | _ => false end.

Lemma not_notified (s : shared TCP sk_child) stacks : notified s s stacks = stacks.
Proof. unfold notified. simpl. by rewrite Z.ltb_irrefl, drop_all. Qed.

(** Thread [i] wakes up without reason, or falls asleep again. *)
Lemma stalled_after d i st st' :
  stalled d = true → d_stacks d !! i = Some st → idle_thread st' = true →
  existsb is_aborted st' = existsb is_aborted st →
  (match st with f :: _ => is_waiting f | [] => false end = true →
   match st' with f :: _ => is_waiting f | [] => false end = true) →
  stalled (mkDispatch (d_shared d) (d_owner d) (<[i := st']> (d_stacks d))) = true.
Proof.
  intros Hst Hi Hidle Ha Hw. unfold stalled, stack_is in *. cbn [d_stacks d_shared].
  rewrite !andb_true_iff, negb_true_iff in Hst |- *.
  destruct Hst as [[[[[[Hd Hall] H1] Hm] Hc] Ho] Hint]. split_and!; try done.
  - unfold dead in *. cbn [d_stacks]. rewrite <- not_true_iff_false in Hd |- *. intros Hex. apply Hd.
    apply existsb_exists in Hex as (x & Hx%list_elem_of_In & Hax).
    apply list_elem_of_lookup in Hx as [j Hj]. apply existsb_exists.
    apply list_lookup_insert_Some in Hj as [(<- & <- & _)|[_ Hj]];
      [exists st; rewrite <- Ha|exists x]; (split; [|done]); by eapply list_elem_of_In, list_elem_of_lookup_2.
  - apply forallb_forall. rewrite forallb_forall in Hall. intros x Hx%list_elem_of_In.
    apply list_elem_of_lookup in Hx as [j Hj].
    apply list_lookup_insert_Some in Hj as [(_ & <- & _)|[_ Hj]]; [done|].
    by eapply Hall, list_elem_of_In, list_elem_of_lookup_2.
  - destruct (decide (i = 1%nat)) as [->|Hne]; [|by rewrite list_lookup_insert_ne].
    rewrite Hi in H1. rewrite list_lookup_insert_eq by (by eapply lookup_lt_Some).
    destruct st; [done|]. specialize (Hw H1). by destruct st'.
Qed.

(** Without another call it stays like this for ever. *)
Lemma stalled_stays d d' : stalled d = true → dreach (λ _, False) d d' → stalled d' = true.
Proof.
  intros Hst Hreach. induction Hreach as [|d' d'' _ IH Hstep]; [done|]. clear Hst.
  pose proof IH as Hst. unfold stalled in Hst. rewrite !andb_true_iff, forallb_forall in Hst.
  destruct Hst as [[[[[[Hd Hall] _] Hm] _] _] Hint].
  destruct Hstep as [i d'' Ha|i f rest c _ _ _ []|i rest ev m _ _ Hi _ _|i send b rest _ Hi].
  - unfold advance in Ha. destruct (dead d'); [done|]. destruct (d_stacks d' !! i) as [st|] eqn:Hi; [|done].
    assert (idle_thread st = true) as Hidle by (by eapply Hall, list_elem_of_In, list_elem_of_lookup_2).
    destruct st as [|[] rest]; try done. simpl in Ha. unfold get, mbind, M_bind, Dispatch.go, mret, M_ret in Ha.
    simpl in Hm, Ha. rewrite Hm, not_notified in Ha. injection Ha as <-. by apply (stalled_after d' i _ _ IH Hi).
  - by rewrite Hi in Hint.
  - by apply (stalled_after d' i _ _ IH Hi).
Qed.

(** C34: what the interleavings of one listener do allow. Two workers can be inside
    [on_network_message] of the same connection at the same time: a [send] in the
    callback changes the mode and thereby re-arms the one-shot registration that
    should keep other workers away until the handler is done. The application can
    be told of the disconnect twice: [m_has_disconnected] is tested after
    [m_mutex] has been unlocked. And a blocking [send] in the callback can stall
    the connection: the worker waits for the send queue, which only a write event
    would drain, while the registration is disabled until that worker returns:
    without another call nothing else ever happens. *)
Theorem dispatch_races :
  (∃ d, dreach call_ok (registering 0 2 two_in ReadOnly) d ∧
     stack_is 1 is_callback d && stack_is 2 is_callback d = true) ∧
  (∃ d, dreach call_ok (registering 0 2 two_in ReadOnly) d ∧ disconnects (d_trace (d_shared d)) = 2%nat) ∧
  (∃ d, dreach call_ok (registering 0 2 small_queue ReadOnly) d ∧ stalled d = true ∧
     ∀ d', dreach (λ _, False) d d' → stalled d' = true).
Proof.
  assert (∀ b, call_ok (say_hi b)) as Hhi.
  { intros b. refine (tcp_unique_fits 50 junk_slicer junk_slicer_wf hi 2 false _ _ _); done. }
  split_and!.
  - apply (played call_ok _ (go 0 7 ++ [Event 1 Readable] ++ go 1 6 ++ [Call 1 (say_hi false)] ++ go 1 11 ++
      [Event 2 Readable] ++ go 2 6) (λ d, stack_is 1 is_callback d && stack_is 2 is_callback d));
      [may_schedule Hhi|vm_compute; reflexivity].
  - destruct (played call_ok (registering 0 2 two_in ReadOnly)
      (go 0 7 ++ [Event 1 Readable] ++ go 1 2 ++ [Call 0 CallClose] ++ go 0 6 ++ [Call 0 CallClose] ++ go 0 5 ++
       go 1 7 ++ go 0 2) (λ d, bool_decide (disconnects (d_trace (d_shared d)) = 2%nat)))
      as (d & Hd & H2%bool_decide_eq_true); [may_schedule Hhi|vm_compute; reflexivity|by exists d].
  - destruct (played call_ok (registering 0 2 small_queue ReadOnly)
      (go 0 7 ++ [Call 0 (say_hi false)] ++ go 0 11 ++ [Event 1 Readable] ++ go 1 6 ++
       [Call 1 (say_hi true)] ++ go 1 8 ++ [Call 1 (say_hi true)] ++ go 1 4) stalled)
      as (d & Hd & Hst); [may_schedule Hhi|vm_compute; reflexivity|].
    exists d. split; [exact Hd|]. split; [exact Hst|]. intros d'. by apply stalled_stays.
Qed.

(** A connection that the system has given up, with a send queue for one message. *)
Definition given_up : TCP :=
  mkWorld {| sc_recv := []; sc_write := replicate 5 (inr EAGAIN); sc_accept := []; sc_notconn := true;
             sc_connect := None; sc_socket := inl 7; sc_flags := 0; sc_peer := None |} EAGAIN []
    (set_state Connected (set_fd 7 (new_socket (datagram_new (zero_bytes MAX_SIZE)) 1))).

(** A thread sleeps although there is nothing to wait for. *)
Definition forgotten (d : D) : bool :=
  existsb asleep (d_stacks d) && negb (sk_must_wait (d_socket (d_shared d))) &&
  forallb (λ i, match advance i d with None => true | _ => false end) (seq 0 (length (d_stacks d))).

(** The exception in [dispatch_progress] is real: [close] finds the connection gone,
    and the thread that waits for the send queue is not woken up. *)
Lemma given_up_forgets : ∃ d, dreach call_ok (registering 1 0 given_up ReadOnly) d ∧ forgotten d = true.
Proof.
  assert (∀ b, call_ok (say_hi b)) as Hhi.
  { intros b. refine (tcp_unique_fits 50 junk_slicer junk_slicer_wf hi 2 false _ _ _); done. }
  apply (played call_ok _ (go 0 7 ++ [Call 0 (say_hi false)] ++ go 0 11 ++ [Call 0 (say_hi false)] ++ go 0 8 ++
    [Call 0 (say_hi true)] ++ go 0 4 ++ [Call 1 CallClose] ++ go 1 9)); [may_schedule Hhi|vm_compute; reflexivity].
Qed.

(** * Witnesses *)

Lemma two_in_registrable : registrable two_in ReadOnly.
Proof. split; [exact idle_ok|]. intros _ Hp. by destruct idle_not_pending. Qed.

(** The application has sent a message of which nothing could be written. *)
Definition sent_one (d : D) : bool :=
  negb (dead d) && forallb resting (d_stacks d) && sk_is_valid (d_socket (d_shared d)) &&
  sk_is_connected (d_socket (d_shared d)) && bool_decide (outbox (w_sock (d_socket (d_shared d))) ≠ []).

Lemma sent_one_reached : ∃ d, dreach call_ok (registering 0 2 two_in ReadOnly) d ∧ sent_one d = true.
Proof.
  apply (played call_ok _ (go 0 7 ++ [Call 0 (say_hi false)] ++ go 0 11)); [|vm_compute; reflexivity].
  assert (call_ok (say_hi false)) as Hhi
    by (refine (tcp_unique_fits 50 junk_slicer junk_slicer_wf hi 2 false _ _ _); done).
  may_schedule Hhi.
Qed.

Lemma no_lost_events_witness :
  ∃ d, dreach call_ok (registering 0 2 two_in ReadOnly) d ∧ d_interest (d_shared d) = Armed ReadWrite.
Proof.
  destruct sent_one_reached as (d & Hd & Hs). exists d. split; [exact Hd|]. unfold sent_one in Hs.
  rewrite !andb_true_iff, bool_decide_eq_true, negb_true_iff in Hs.
  destruct Hs as [[[[Hdead Hrest] Hv] Hc] Hp].
  destruct (no_lost_events call_ok 0 2 two_in ReadOnly d (λ c H, H) two_in_registrable Hd Hdead)
    as (_ & -> & Hmode & _); [by apply Forall_forall; intros st Hin; eapply forallb_forall, list_elem_of_In|exact Hv|].
  by rewrite (Hmode Hc Hp).
Defined.

Lemma dispatch_progress_witness :
  ∃ d, dreach call_ok (registering 0 2 two_in ReadOnly) d ∧
    ((∃ i d', advance i d = Some d') ∨ forallb (waits (d_shared d)) (d_stacks d) = true).
Proof.
  destruct sent_one_reached as (d & Hd & Hs). exists d. split; [exact Hd|]. unfold sent_one in Hs.
  rewrite !andb_true_iff, negb_true_iff in Hs. destruct Hs as [[[[Hdead _] _] _] _].
  exact (proj2 (proj2 (dispatch_progress call_ok 0 2 two_in ReadOnly d (λ c H, H) two_in_registrable Hd Hdead))).
Defined.
