(* ===== verification/DispatchSolo.v ===== *)
(** Threads on one listener (Dispatch.v): when no other thread interferes, every
    call and every handler runs as the sequential model of Listener.v says. *)
From stdpp Require Import relations.
From S2P Require Import Prelude Machine Slicer Listener ListenerProps TcpSocket Samples TcpListener.
From S2P Require Import Mutex Dispatch DispatchSafe TcpWaiters DispatchTcp.
Local Open Scope Z_scope.

(** * One thread that goes on alone *)

Section solo.
Context {K : Type} `{Socket K} `{SendQueue K} (rest : list (frame K)).
Abbreviation S := (shared K sk_child).
Implicit Types (s : S) (f g next : frame K) (d : dispatch K) (l : lock).

(** The only thread is at [f] above [rest], and owns the mutexes it is between. *)
Definition solo f s d : Prop :=
  d_shared d = s ∧ d_stacks d = [f :: rest] ∧ existsb is_aborted (f :: rest) = false ∧
  ∀ l, d_owner d l = if holds_frame l f then Some 0%nat else None.

Definition goes_on d d' : Prop := advance 0 d = Some d'.

(** From [f] and [s] it comes to [g] and [s']. *)
Definition reach f s g s' : Prop :=
  ∀ d, solo f s d → ∃ d', rtc goes_on d d' ∧ solo g s' d'.

Lemma walk_refl f s : reach f s f s.
Proof. intros d Hd. by exists d. Qed.

Lemma walk_trans f1 s1 f2 s2 f3 s3 :
  reach f1 s1 f2 s2 → reach f2 s2 f3 s3 → reach f1 s1 f3 s3.
Proof.
  intros H12 H23 d Hd. destruct (H12 d Hd) as (d2 & Hr & Hd2).
  destruct (H23 d2 Hd2) as (d3 & Hr' & Hd3). exists d3. split; [by etransitivity|done].
Qed.

Lemma solo_step f s g s' d owner :
  solo f s d → is_aborted g = false → (∀ l, owner l = if holds_frame l g then Some 0%nat else None) →
  advance 0 d = Some (mkDispatch s' owner [g :: rest]) →
  ∃ d', rtc goes_on d d' ∧ solo g s' d'.
Proof.
  intros (_ & _ & Ha & _) Hg Ho Hadv. eexists. split; [by apply rtc_once|]. split_and!; try done.
  simpl in *. rewrite Hg. by destruct (is_aborted f).
Qed.

Lemma advance_alone f s d :
  solo f s d →
  advance 0 d =
  match code f with
  | Rest => None
  | Acquire l next =>
      match d_owner d l with
      | Some _ => None
      | None => Some (mkDispatch s (set_owner l (Some 0%nat) (d_owner d)) [next :: rest])
      end
  | Release l next => Some (mkDispatch s (set_owner l None (d_owner d)) [next :: rest])
  | Access m =>
      let '(o, s') := m s in
      Some (mkDispatch s' (d_owner d)
        [match o with Val fs => fs | _ => [Aborted (abort_message o)] end ++ rest])
  | Pop => Some (mkDispatch s (d_owner d) [rest])
  end.
Proof.
  intros (Hs & Hst & Ha & Ho). unfold advance, dead. rewrite Hst, Hs. simpl in *. rewrite Ha. simpl.
  destruct (code f) as [| | |m|]; try done. unfold notified. destruct (m s) as [o s'].
  by destruct (sk_notified _ _).
Qed.

Lemma walk_access f s m g s' :
  code f = Access m → m s = (Val [g], s') → is_aborted g = false →
  (∀ l, holds_frame l g = holds_frame l f) → reach f s g s'.
Proof.
  intros Hc Hm Hg Hh d Hd. pose proof (advance_alone f s d Hd) as Ha. rewrite Hc, Hm in Ha.
  apply (solo_step f s g s' d (d_owner d)); try done. intros l. rewrite Hh. apply Hd.
Qed.

Lemma walk_acquire f s l g :
  code f = Acquire l g → is_aborted g = false → holds_frame l f = false →
  (∀ l', holds_frame l' g = if decide (l' = l) then true else holds_frame l' f) → reach f s g s.
Proof.
  intros Hc Hg Hf Hh d Hd. pose proof (advance_alone f s d Hd) as Ha. rewrite Hc in Ha.
  pose proof Hd as (_ & _ & _ & Ho). rewrite (Ho l), Hf in Ha.
  eapply solo_step; [done..| |done]. intros l'. rewrite Hh. unfold set_owner.
  destruct (decide (l' = l)); [done|apply Ho].
Qed.

Lemma walk_release f s l g :
  code f = Release l g → is_aborted g = false →
  (∀ l', holds_frame l' g = if decide (l' = l) then false else holds_frame l' f) → reach f s g s.
Proof.
  intros Hc Hg Hh d Hd. pose proof (advance_alone f s d Hd) as Ha. rewrite Hc in Ha.
  pose proof Hd as (_ & _ & _ & Ho). eapply solo_step; [done..| |done].
  intros l'. rewrite Hh. unfold set_owner. destruct (decide (l' = l)); [done|apply Ho].
Qed.

(** ** The state of the sequential model *)

(** The listener at a control point, with the trace; the event loop exists. *)
Definition view f s : lworld K sk_child unit := mkLWorld {|
    m_mutex := holds_frame ListenerMutex f;
    Listener.m_send_mutex := holds_frame SendMutex f;
    m_socket := Some (d_socket s);
    m_socket_type := Connection;
    m_fileno := d_fileno s;
    m_has_disconnected := d_has_disconnected s;
    m_mode := d_mode s;
  |} (d_trace s) true tt.

(** An application whose callbacks do nothing. *)
Definition silent : callbacks (K := K) (U := unit) := {|
  on_network_message _ := mret tt;
  on_new_connection _ := mret tt;
  on_disconnect := mret tt;
  before_close := mret tt;
|}.

(** The thread is at [g] and the sequential model in the same state. *)
Definition arrives f s g (lw : lworld K sk_child unit) : Prop := ∃ s', lw = view g s' ∧ reach f s g s'.

Lemma arrives_from f1 s1 f2 s2 g lw : reach f1 s1 f2 s2 → arrives f2 s2 g lw → arrives f1 s1 g lw.
Proof. intros Hr (s' & Hlw & Hr'). exists s'. split; [done|]. by eapply walk_trans. Qed.
End solo.

(** Run the access of a control point, using what is known about its tests. *)
Ltac run_access :=
  unfold try_send, write_event, receive_message, on_sock, modify_shared, Dispatch.go, get, catch,
    mbind, M_bind, mret, M_ret, unregister; cbn;
  repeat (match goal with
  | E : ?b = true |- context [?b] => rewrite E
  | E : ?b = false |- context [?b] => rewrite E
  | E : ?f ?x = (_, _) |- context [?f ?x] => rewrite E
  end; cbn); reflexivity.

(** Take one step of the thread. *)
Ltac solo_step :=
  eapply walk_trans;
  [first
   [ eapply walk_access; [reflexivity|run_access|done|by intros []]
   | eapply walk_acquire; [reflexivity|done|done|by intros []]
   | eapply walk_release; [reflexivity|done|by intros []] ]|].

Section equivalence.
Context {K : Type} `{Socket K} `{SendQueue K} (rest : list (frame K)).
Abbreviation S := (shared K sk_child).
Implicit Types (s : S) (f g next : frame K).
Abbreviation reach := (reach rest).
Abbreviation arrives := (arrives rest).

(** ** close_socket *)

Lemma close_end_reach held k s :
  reach (close_end held k) s (after_close_socket k) s.
Proof. destruct held; [|by apply walk_refl]. destruct k; solo_step; apply walk_refl. Qed.

(** The end of [close_socket_internal]. *)
Lemma close_done_solo (fin held : bool) k s :
  wp (l ← this;
      if fin && negb (m_has_disconnected l) then
        Listener.update (Listener.put_disconnected true);;
        when (bool_decide (m_socket_type l = Connection)) (emit GotDisconnect;; on_disconnect silent);;
        Listener.unregister
      else mret tt) (view (CloseSet held k : frame K) s) (λ o lw,
    o = Val tt → ∃ s', lw = view (CloseSet held k : frame K) s' ∧
      reach (CloseDone fin held k) s (close_end held k) s').
Proof.
  wp_step. apply wp_this. cbn [seq_post]. cbn [l_listener view m_has_disconnected].
  destruct (fin && negb (d_has_disconnected s)) eqn:Hd.
  - unfold wp. cbn. intros _. exists (put_event (Unregistered (d_fileno s)) (Dispatch.unregister
      (put_event GotDisconnect (put_disconnected s)))). split.
    + unfold Dispatch.unregister. by destruct (d_registered _).
    + do 3 solo_step. eapply walk_trans; [|apply walk_refl].
      eapply walk_access; [reflexivity|reflexivity|by destruct held, k|by intros []; destruct held, k].
  - apply wp_ret. intros _. exists s. split; [done|]. eapply walk_trans; [|apply walk_refl].
    eapply walk_access; [reflexivity|run_access|by destruct held, k|by intros []; destruct held, k].
Qed.

Lemma close_internal_solo k s :
  wp (close_socket_internal silent) (view (CloseTest k : frame K) s) (λ o lw,
    o = Val tt → ∃ held s', lw = view (CloseSet held k : frame K) s' ∧
      reach (CloseTest k) s (close_end held k) s').
Proof.
  unfold close_socket_internal. wp_step. apply wp_this. cbn [seq_post]. wp_step. cbn [m_socket view l_listener].
  destruct (sk_is_valid (d_socket s)) eqn:Hv.
  - wp_step. eapply wp_listener_socket; [done|]. apply wp_outcome. intros o k' Hclose. symmetry in Hclose.
    destruct o as [fin|e|h]; cbn [seq_post]; [|done..]. wp_step. apply wp_update. cbn [seq_post]. apply wp_ret.
    cbn [seq_post]. eapply wp_mono.
    + apply (close_done_solo fin false k (mkShared k' (d_fileno s) (d_has_disconnected s) (d_mode s)
        (d_registered s) (d_interest s) (d_trace s))).
    + intros o lw Hlw Ho. destruct (Hlw Ho) as (s' & -> & Hr). exists false, s'. split; [done|].
      do 3 solo_step. exact Hr.
  - apply wp_ret. cbn [seq_post]. eapply wp_mono; [apply (close_done_solo true true k s)|].
    intros o lw Hlw Ho. destruct (Hlw Ho) as (s' & -> & Hr). exists true, s'. split; [done|].
    solo_step. exact Hr.
Qed.

Lemma close_socket_solo k s :
  wp (Listener.close_socket silent) (view (CloseLock k : frame K) s) (λ o lw,
    o = Val tt → arrives (CloseLock k) s (after_close_socket k) lw).
Proof.
  apply wp_locked; [done|]. eapply wp_mono; [apply (close_internal_solo k s)|].
  intros [[]|e|h] lw Hlw; [|done..]. intros _. destruct (Hlw eq_refl) as (held & s' & -> & Hr).
  exists s'. split; [by destruct k|]. solo_step. eapply walk_trans; [exact Hr|apply close_end_reach].
Qed.

(** The call through the virtual function. *)
Lemma virtual_close_solo k s :
  wp (virtual_close silent) (view (CloseLock k : frame K) s) (λ o lw,
    o = Val tt → arrives (CloseLock k) s (after_close_socket k) lw).
Proof. exact (close_socket_solo k s). Qed.
(** ** is_valid, set_mode, re_register *)

Lemma valid_reach k s : reach (ValidLock k) s (after_is_valid k (sk_is_valid (d_socket s))) s.
Proof.
  do 2 solo_step. eapply walk_trans; [|apply walk_refl].
  eapply walk_release; [reflexivity|by destruct k as [|[]], (sk_is_valid _)|].
  by intros []; destruct k as [|[]], (sk_is_valid _).
Qed.

Lemma is_valid_solo k s :
  wp Listener.is_valid (view (ValidLock k : frame K) s) (λ o lw,
    o = Val (sk_is_valid (d_socket s)) ∧ lw = view (ValidLock k : frame K) s).
Proof. eapply wp_mono; [by apply is_valid_spec|]. by intros o lw [-> ->]. Qed.

(** Telling epoll changes nothing the sequential model looks at. *)
Lemma notify_solo mode b k s g :
  ∃ s', reach (NotifyLook mode b k) s (after_set_mode k) s' ∧ view g s' = view g s.
Proof.
  destruct (d_registered s) eqn:Hr.
  - exists (put_registration (d_registered s) (ctl mode b s) s). split; [|done]. solo_step.
    eapply walk_trans; [|apply walk_refl].
    eapply walk_access; [reflexivity|reflexivity|by destruct k as [|[]|]|by intros []; destruct k as [|[]|]].
  - exists s. split; [|done]. eapply walk_trans; [|apply walk_refl].
    eapply walk_access; [reflexivity|run_access|by destruct k as [|[]|]|by intros []; destruct k as [|[]|]].
Qed.

Lemma set_mode_solo mode k s :
  wp (set_mode mode) (view (ModeTest mode k : frame K) s) (λ o lw,
    arrives (ModeTest mode k) s (after_set_mode k) lw).
Proof.
  unfold set_mode. wp_step. apply wp_this. cbn [seq_post view l_listener Listener.m_mode].
  destruct (bool_decide (mode = d_mode s)) eqn:Hm.
  - apply wp_ret. exists s. split; [by destruct k as [|[]|]|]. eapply walk_trans; [|apply walk_refl].
    eapply walk_access; [reflexivity|run_access|by destruct k as [|[]|]|by intros []; destruct k as [|[]|]].
  - unfold wp. cbn.
    destruct (notify_solo mode false k (put_event (ModeChanged (d_fileno s) mode false) (put_mode mode s))
      (after_set_mode k)) as (s' & Hr & Hview).
    exists s'. split; [rewrite Hview; by destruct k as [|[]|]|]. do 2 solo_step. exact Hr.
Qed.

Lemma re_register_solo first s :
  wp (Listener.re_register first) (view (RegLock first : frame K) s) (λ o lw,
    o = Val tt → arrives (RegLock first) s Return lw).
Proof.
  apply wp_send_locked; [done|]. unfold wp, query, on_socket, get_instance, this, emit, mbind, M_bind, mret, M_ret. cbn. destruct (sk_is_valid (d_socket s)) eqn:Hv; cbn; intros _.
  - destruct (notify_solo (d_mode s) first ModeRegister
      (put_event (ModeChanged (d_fileno s) (d_mode s) first) s) (Return : frame K)) as (s' & Hr & Hview).
    exists s'. split; [by rewrite Hview|]. do 3 solo_step. eapply walk_trans; [exact Hr|]. solo_step. apply walk_refl.
  - exists s. split; [done|]. do 3 solo_step. apply walk_refl.
Qed.

(** ** Sending *)

Lemma settle_solo more s :
  wp (valid ← Listener.is_valid;
      if valid : bool then set_mode (if more : bool then ReadWrite else ReadOnly)
      else virtual_close silent) (view (ValidLock (ValidSend more) : frame K) s) (λ o lw,
    o = Val tt → arrives (ValidLock (ValidSend more)) s SendEnd lw).
Proof.
  pose proof (valid_reach (ValidSend more) s) as Hr. wp_step. eapply wp_mono; [apply is_valid_solo|].
  intros ? ? [-> ->]. cbn [seq_post]. destruct (sk_is_valid (d_socket s)); cbn in Hr.
  - eapply wp_mono; [apply (set_mode_solo _ ModeSend s)|]. intros o lw Hlw _. by eapply arrives_from.
  - eapply wp_mono; [apply (virtual_close_solo CloseSendEnd s)|]. intros o lw Hlw Ho.
    eapply arrives_from; [exact Hr|by apply Hlw].
Qed.

Lemma send_solo fuel send wait s :
  wp (send_with fuel silent send wait false) (view (SendLock send false) s) (λ o lw,
    o = Val tt → arrives (SendLock send false) s Return lw).
Proof.
  apply wp_send_locked; [done|]. apply (wp_mono _ _ (λ o lw, o = Val tt → arrives (SendLock send false) s SendEnd lw)).
  2:{ intros [[]|e|h] lw Hlw; [|done..]. intros _. destruct (Hlw eq_refl) as (s' & -> & Hr).
      exists s'. split; [done|]. eapply walk_trans; [exact Hr|]. solo_step. apply walk_refl. }
  wp_step. destruct fuel as [|n]; [done|]. cbn [iter]. wp_step. unfold Listener.try_send. wp_step. wp_step.
  eapply wp_listener_socket; [done|]. apply wp_outcome. intros o k' Hsend. symmetry in Hsend.
  set (s1 := mkShared k' (d_fileno s) (d_has_disconnected s) (d_mode s) (d_registered s) (d_interest s) (d_trace s)).
  assert (∀ more lw, arrives (SendLock send false) s (ValidLock (ValidSend more)) lw →
    wp (valid ← Listener.is_valid;
        if valid : bool then set_mode (if more then ReadWrite else ReadOnly) else virtual_close silent) lw
      (λ o lw, o = Val tt → arrives (SendLock send false) s SendEnd lw)) as Hsettle.
  { intros more lw (s2 & -> & Hr). eapply wp_mono; [apply settle_solo|]. intros o2 lw2 Hlw Ho.
    eapply arrives_from; [exact Hr|by apply Hlw]. }
  assert (reach (SendLock send false) s (CloseLock CloseSend) s1 →
    wp (virtual_close silent;; mret (Some false)) (view (CloseLock CloseSend : frame K) s1) (λ r lw,
      match r with
      | Val r => r = Some false ∧ arrives (SendLock send false) s (ValidLock (ValidSend false)) lw
      | _ => True
      end)) as Hclose.
  { intros Hr. wp_step. eapply wp_mono; [apply (virtual_close_solo CloseSend s1)|].
    intros [[]|e|h] lw Hlw; cbn [seq_post]; [|done..]. apply wp_ret. split; [done|].
    eapply arrives_from; [exact Hr|by apply Hlw]. }
  destruct o as [more|e|h]; cbn [seq_post]; [| |done].
  - apply wp_ret. cbn [seq_post]. apply wp_ret. cbn [seq_post]. apply (Hsettle more). exists s1. split; [done|].
    do 2 solo_step. apply walk_refl.
  - destruct e; try done.
    all: eapply wp_mono; [apply Hclose; do 2 solo_step; apply walk_refl|].
    all: intros [r|e'|h] lw Hlw; cbn [seq_post]; [|done..]; destruct Hlw as [-> Hlw]; apply wp_ret; cbn [seq_post];
      by apply (Hsettle false).
Qed.

(** ** Events *)

Lemma on_write_ready_solo s :
  wp (Listener.on_write_ready silent) (view (WriteLock : frame K) s) (λ o lw,
    o = Val tt → arrives WriteLock s Return lw).
Proof.
  apply wp_send_locked; [done|].
  apply (wp_mono _ _ (λ o lw, o = Val tt → arrives WriteLock s WriteEnd lw ∨ arrives WriteLock s Return lw)).
  2:{ intros [[]|e|h] lw Hlw; [|done..]. intros _. destruct (Hlw eq_refl) as [(s' & -> & Hr)|(s' & -> & Hr)].
      - exists s'. split; [done|]. eapply walk_trans; [exact Hr|]. solo_step. apply walk_refl.
      - by exists s'. }
  wp_step. wp_step. eapply wp_listener_socket; [done|].
  apply wp_outcome. intros o k' Hsend. symmetry in Hsend.
  set (s1 := mkShared k' (d_fileno s) (d_has_disconnected s) (d_mode s) (d_registered s) (d_interest s) (d_trace s)).
  assert (∀ held lw, arrives WriteLock s (ValidLock (ValidWrite held)) lw →
    wp (valid ← Listener.is_valid; if valid : bool then set_mode ReadOnly else mret tt) lw
      (λ o lw, o = Val tt → arrives WriteLock s WriteEnd lw ∨ arrives WriteLock s Return lw)) as Hsettle.
  { intros held lw (s2 & -> & Hr). pose proof (valid_reach (ValidWrite held) s2) as Hv. wp_step.
    eapply wp_mono; [apply is_valid_solo|]. intros ? ? [-> ->]. cbn [seq_post].
    destruct (sk_is_valid (d_socket s2)); cbn in Hv.
    - eapply wp_mono; [apply (set_mode_solo ReadOnly (ModeWrite held) s2)|]. intros o2 lw2 Hlw _.
      eapply arrives_from in Hlw; [|eapply walk_trans; [exact Hr|exact Hv]]. by destruct held; [left|right].
    - apply wp_ret. intros _. destruct held; [left|right]; (exists s2; split; [done|by eapply walk_trans]). }
  destruct o as [more|e|h]; cbn [seq_post]; [| |done].
  - destruct more; cbn [negb].
    + wp_step. apply wp_ret. cbn [seq_post]. apply wp_ret. intros _. left. exists s1. split; [done|].
      do 2 solo_step. apply walk_refl.
    + apply (Hsettle true). exists s1. split; [done|]. do 2 solo_step. apply walk_refl.
  - destruct e; try done. wp_step. apply wp_update. cbn [seq_post]. wp_step.
    eapply wp_mono; [apply (virtual_close_solo CloseWrite s1)|].
    intros [[]|e|h] lw Hlw; cbn [seq_post]; [|done..]. apply wp_ret. cbn [seq_post negb].
    apply (Hsettle false). eapply arrives_from; [|by apply Hlw]. do 3 solo_step. apply walk_refl.
Qed.

Lemma read_loop_solo fuel s :
  wp (iter fuel (read_step silent)) (view (Receive : frame K) s) (λ o lw,
    match o with
    | Val tt | Exn (socket_error _) => arrives Receive s ReadTest lw
    | _ => True
    end).
Proof.
  revert s. induction fuel as [|n IH]; intros s; [done|]. cbn [iter]. wp_step. unfold read_step.
  wp_step. apply wp_this. cbn [seq_post view l_listener m_socket]. wp_step.
  eapply wp_listener_socket; [done|]. apply wp_outcome. intros o k' Hrecv. symmetry in Hrecv.
  set (s1 := mkShared k' (d_fileno s) (d_has_disconnected s) (d_mode s) (d_registered s) (d_interest s) (d_trace s)).
  destruct o as [[msg|]|e|h]; cbn [seq_post]; [| | |done].
  - assert (reach Receive s Receive (put_event (GotMessage msg) s1)) as Hr.
    { solo_step. solo_step. solo_step. solo_step. solo_step. apply walk_refl. }
    match goal with |- wp ?m ?w ?Q => change (Q (Val None) (view (Receive : frame K) (put_event (GotMessage msg) s1))) end.
    cbn [seq_post]. eapply wp_mono; [exact (IH (put_event (GotMessage msg) s1))|].
    intros o lw Ho. destruct o as [[]|[]|]; try done; by eapply arrives_from.
  - apply wp_ret. cbn [seq_post]. apply wp_ret. exists s1. split; [done|]. solo_step. apply walk_refl.
  - destruct e; try done. exists s1. split; [done|]. solo_step. apply walk_refl.
Qed.

Lemma on_read_ready_solo fuel s :
  wp (Listener.on_read_ready fuel silent) (view (ReadLock : frame K) s) (λ o lw,
    o = Val tt → arrives ReadLock s Return lw).
Proof.
  apply wp_locked; [done|]. wp_step. apply wp_this. cbn [seq_post m_socket_type with_listener l_listener view set_mutex].
  wp_step. wp_step. eapply wp_mono; [apply (read_loop_solo fuel s)|].
  assert (∀ lw, arrives Receive s ReadTest lw →
    wp (l ← this; match m_socket l with
        | Some k => if negb (sk_is_valid k) then close_socket_internal silent else mret tt
        | None => mret tt end) lw
      (λ o lw', o = Val tt → arrives ReadLock s Return (with_listener (set_mutex false (l_listener lw')) lw'))) as Hend.
  { intros lw (s1 & -> & Hr). wp_step. apply wp_this. cbn [seq_post view l_listener m_socket].
    destruct (sk_is_valid (d_socket s1)) eqn:Hv; cbn [negb].
    - apply wp_ret. intros _. exists s1. split; [done|]. solo_step. eapply walk_trans; [exact Hr|].
      do 2 solo_step. apply walk_refl.
    - eapply wp_mono; [apply (close_internal_solo CloseReturn s1)|]. intros o lw Hlw Ho.
      destruct (Hlw Ho) as (held & s' & -> & Hr'). exists s'. split; [done|]. solo_step.
      eapply walk_trans; [exact Hr|]. solo_step. eapply walk_trans; [exact Hr'|]. apply (close_end_reach held CloseReturn). }
  assert (∀ lw, arrives Receive s ReadTest lw →
    wp (l ← this; match m_socket l with
        | Some k => if negb (sk_is_valid k) then close_socket_internal silent else mret tt
        | None => mret tt end) lw
      (λ o w', match o with
        | Halt h => Halt h = Val tt → arrives ReadLock s Return w'
        | _ => o = Val tt → arrives ReadLock s Return (with_listener (set_mutex false (l_listener w')) w')
        end)) as Hend'.
  { intros lw Hlw. eapply wp_mono; [by apply Hend|]. by intros [] w' Ho. }
  intros o lw Ho. destruct o as [[]|[]|]; cbn [seq_post]; try done; [|apply wp_ret; cbn [seq_post]]; by apply Hend'.
Qed.
End equivalence.

(** * The correspondence *)

Section theorem.
Context {K : Type} `{Socket K} `{SendQueue K}.
Abbreviation S := (shared K sk_child).
Implicit Types (s : S) (f : frame K).

(** The thread runs alone from [f] until it returns, and ends as the sequential
    operation does, with the mutexes free. *)
Definition runs_as (rest : list (frame K)) f s (op : M (lworld K sk_child unit) unit) : Prop :=
  wp op (view f s) (λ o lw, o = Val tt →
    ∃ s', lw = view (Return : frame K) s' ∧
      ∃ d, rtc goes_on (mkDispatch s (λ _, None) [f :: rest]) d ∧
        d_shared d = s' ∧ d_stacks d = [rest] ∧ ∀ l, d_owner d l = None).

Lemma runs_alone rest f s op :
  existsb is_aborted (f :: rest) = false → (∀ l, holds_frame l f = false) →
  wp op (view f s) (λ o lw, o = Val tt → arrives rest f s Return lw) → runs_as rest f s op.
Proof.
  intros Ha Hh Hop. eapply wp_mono; [exact Hop|]. intros o lw Harr Ho.
  destruct (Harr Ho) as (s' & -> & Hr). exists s'. split; [done|].
  destruct (Hr (mkDispatch s (λ _, None) [f :: rest])) as (d & Hd & Hsolo).
  { split_and!; try done. intros l. by rewrite Hh. }
  pose proof (advance_alone rest Return s' d Hsolo) as Hpop. cbn in Hpop.
  eexists. split; [eapply rtc_r; [exact Hd|exact Hpop]|].
  split; [done|]. split; [done|]. intros l. destruct Hsolo as (_ & _ & _ & Ho'). cbn. rewrite Ho'. by destruct l.
Qed.

(** C29: with a single thread, the interleaved machine does what the sequential
    model of the listener says: a call of [send] (not blocking) or
    [close_socket], and each handler of the event loop, run step by step from the
    moment they are called until they return, leave the socket, the mode, the
    flag of the disconnect and the trace as the sequential operation does, and
    both mutexes free. *)
Theorem listener_alone_is_sequential rest s :
  existsb is_aborted rest = false →
  (∀ fuel send wait, runs_as rest (SendLock send false) s (send_with fuel silent send wait false)) ∧
  runs_as rest (CloseLock CloseReturn) s (Listener.close_socket silent) ∧
  (∀ fuel, runs_as rest ReadLock s (Listener.on_read_ready fuel silent)) ∧
  runs_as rest WriteLock s (Listener.on_write_ready silent) ∧
  (∀ first, runs_as rest (RegLock first) s (Listener.re_register first)).
Proof.
  intros Hrest. split_and!; intros; apply runs_alone; try done; try (by intros []).
  - apply send_solo.
  - apply (close_socket_solo rest CloseReturn).
  - apply on_read_ready_solo.
  - apply on_write_ready_solo.
  - apply re_register_solo.
Qed.
End theorem.

#[local] Existing Instances no_hosts no_hosts_laws tcp_sample.

Definition watched : shared TCP sk_child := mkShared two_in 7 false ReadOnly true (Armed ReadOnly) [].

Lemma watched_closes :
  (Listener.close_socket silent (view (CloseLock CloseReturn : frame TCP) watched)).1 = Val tt.
Proof. vm_compute. reflexivity. Qed.

Lemma listener_alone_is_sequential_witness :
  ∃ d, rtc goes_on (mkDispatch watched (λ _, None) [[CloseLock CloseReturn; App]]) d ∧
    d_stacks d = [[App]] ∧ sk_is_connected (d_socket watched) = true ∧
    view (Return : frame TCP) (d_shared d) =
      (Listener.close_socket silent (view (CloseLock CloseReturn : frame TCP) watched)).2.
Proof.
  pose proof (proj1 (proj2 (listener_alone_is_sequential [App] watched eq_refl))) as Hruns.
  unfold runs_as in Hruns. pose proof (wp_result _ _ (Val tt) _ Hruns watched_closes) as Hend.
  destruct (Hend eq_refl) as (s' & Hs & d & Hd & Hsh & Hst & _).
  exists d. split; [exact Hd|]. split; [exact Hst|]. split; [reflexivity|]. by rewrite Hsh.
Defined.
