(* ===== verification/TimerThreads.v ===== *)
(** Several threads on one [TimeEventListener]: the workers of the event loop that
    wake up when its timerfd expires, and threads of the application that call
    [schedule], [unschedule] and [close_socket], as interleaved steps
    (include/yael/TimeEventListener.h, src/TimeEventListener.cpp, and the part of
    src/EventLoop.cpp that concerns one listener).

    [code] is the program text. What [m_mutex] protects is touched in one step of
    its owner; outside of it there is one control point per access. The event loop
    exists and is not stopped. *)
From stdpp Require Import gmultiset.
From S2P Require Import Prelude Machine Timer Mutex.
Local Open Scope Z_scope.

(** [m_mutex]. *)
Inductive lock := TimerMutex.

#[export] Instance lock_eq_dec : EqDecision lock.
Proof. solve_decision. Defined.

(** The timerfd in the interest list of epoll; [EPOLLONESHOT] disables it when it
    is reported. *)
Inductive interest := Absent | Disabled | Armed.

#[export] Instance interest_eq_dec : EqDecision interest.
Proof. solve_decision. Defined.

(** The calls an application makes, also from inside [on_time_event]. *)
Inductive call :=
| CallSchedule (delay : Z)
| CallUnschedule
| CallClose.

(** Where a call returns to: the application, or [on_time_event], after which
    [count] more are due at time [now]. *)
Inductive caller := FromApp | FromEvent (now : Z) (count : nat).

(** Control points. *)
Inductive pc :=
| Idle                                  (* the application's own code *)
| Poll                                  (* in [epoll_wait] *)
| Exited                                (* no listener: the worker has ended *)
| Aborted (msg : string)                (* the process has ended *)
(* [EventLoop::update] and [on_read_ready] *)
| Find                                  (* [m_event_listeners.find(fd)] *)
| ReadLock
| Read                                  (* from [::read] to the end of the loop *)
| ReadUnlock (now : Z) (count : nat)    (* [lock.unlock()] *)
| Fire (now : Z) (count : nat)          (* [i < count] *)
| Callback (now : Z) (count : nat)      (* the body of [on_time_event] *)
| RearmLock (now : Z)                   (* [lock.lock()] *)
| Rearm (now : Z)
| ReadEnd                               (* leaving with [m_mutex] *)
(* [re_register], [is_valid] and [notify_listener_mode_change] *)
| RegLock (first : bool)
| RegValid (first : bool)               (* [m_fd >= 0] *)
| RegUnlock (first valid : bool)
| RegFind (first : bool)                (* [m_event_listeners.find(...)] *)
| RegCtl (first : bool)                 (* [epoll_ctl] *)
(* the calls of the application *)
| SchedLock (delay : Z) (k : caller)
| Sched (delay : Z) (k : caller)
| SchedUnlock (k : caller)
| UnschedLock (k : caller)
| Unsched (k : caller)
| UnschedUnlock (k : caller)
| CloseLock (k : caller)
| Close (k : caller)
| CloseUnlock (was_open : bool) (k : caller)
| CloseUnreg (k : caller).              (* [unregister_event_listener] *)

#[export] Instance caller_eq_dec : EqDecision caller.
Proof. solve_decision. Defined.

#[export] Instance pc_eq_dec : EqDecision pc.
Proof. solve_decision. Defined.

(** What has happened to deadlines: [schedule] called at [time] (milliseconds),
    with its result and what it put into the queue; deadlines that a wake-up at
    [now] took out; a call of [on_time_event]; deadlines [unschedule] removed. *)
Inductive note :=
| Scheduled (time delay : Z) (ok : bool) (added : list Z)
| Took (now : Z) (due : list Z)
| Fired
| Dropped (deadlines : list Z).

(** The elements of [q'] that are not in [q], as multisets. *)
Definition added (q q' : list Z) : list Z :=
  elements (list_to_set_disj q' ∖ list_to_set_disj q : gmultiset Z).

(** What the threads share besides [m_mutex]. *)
Record shared (Σ : Type) := mkShared {
  s_world : tworld Σ (list note);
  s_registered : bool;          (* in [m_event_listeners] *)
  s_interest : interest;
}.
Arguments mkShared {Σ}.
Arguments s_world {Σ}.
Arguments s_registered {Σ}.
Arguments s_interest {Σ}.

(** [Access ready m]: wait for [ready], then [m]. *)
Inductive action (S : Type) :=
| Rest
| Acquire (next : pc)
| Release (next : pc)
| Access (ready : S → bool) (m : M S pc).
Arguments Rest {S}.
Arguments Acquire {S}.
Arguments Release {S}.
Arguments Access {S}.

Section code.
Context {Σ : Type} `{TimerLaws Σ}.
Abbreviation W := (tworld Σ (list note)).
Abbreviation S := (shared Σ).
Implicit Types (w : W) (s : S) (p : pc).

(** ** The critical sections *)

Definition observe (e : note) : M W unit := λ w,
  (Val tt, mkTWorld (t_os w) (t_requests w) (t_timer w) (t_user w ++ [e])).

(** [on_read_ready] up to [lock.unlock()]. *)
Definition read_section : M W pc :=
  t ← timer;
  res ← tcall (timer_read (m_fd t));
  match res with
  | None => fatal "Failed to read from timefd"
  | Some buf =>
      if buf =? 1 then
        now ← get_current_time;
        t ← timer;
        let '(rest, count) := erase_due now (m_queued_events t) 0 in
        set_events rest;;
        observe (Took now (take count (m_queued_events t)));;
        mret (ReadUnlock now count)
      else mret ReadEnd
  end.

(** [on_read_ready] from [lock.lock()]. *)
Definition rearm_section (now : Z) : M W pc := rearm now;; mret ReadEnd.

Definition schedule_section (delay : Z) (k : caller) : M W pc :=
  before ← get;
  ok ← schedule delay;
  after ← get;
  observe (Scheduled (clock (t_os before) / 1000000) delay ok
    (added (m_queued_events (t_timer before)) (m_queued_events (t_timer after))));;
  mret (SchedUnlock k).

Definition unschedule_section (k : caller) : M W pc :=
  t ← timer;
  unschedule;;
  observe (Dropped (m_queued_events t));;
  mret (UnschedUnlock k).

(** [close_socket] up to [lock.unlock()]. *)
Definition close_section (k : caller) : M W pc :=
  t ← timer;
  if m_fd t <? 0 then mret (CloseUnlock false k) else
  tcall (λ σ, (tt, timer_close (m_fd t) σ));;
  request_loop (TimerClosed (m_fd t));;
  set_timer {| m_fileno := m_fileno t; m_fd := -1; m_queued_events := m_queued_events t |};;
  mret (CloseUnlock true k).

(** ** The program text *)

Definition on_world {A} (m : M W A) : M S A := λ s,
  let '(o, w) := m (s_world s) in (o, mkShared w (s_registered s) (s_interest s)).

Definition put_registration (b : bool) (i : interest) : M S unit := λ s,
  (Val tt, mkShared (s_world s) b i).

Definition fd_open s : bool := 0 <=? m_fd (t_timer (s_world s)).

(** [read] waits until the timer expires, for ever when it is not set; with a
    descriptor that is not open it fails at once. *)
Definition readable s : bool :=
  negb (fd_open s) || bool_decide (is_Some (pending (t_os (s_world s)))).

(** [epoll_ctl] with [EPOLL_CTL_ADD] ([first]) or [EPOLL_CTL_MOD]; an error is
    only logged. *)
Definition ctl (first : bool) s : interest :=
  if negb (fd_open s) then s_interest s else
  match s_interest s, first with
  | Absent, true => Armed
  | (Disabled | Armed), false => Armed
  | i, _ => i
  end.

(** Closing the descriptor removes it from epoll. *)
Definition close_fd (k : caller) : M S pc :=
  next ← on_world (close_section k);
  s ← get;
  put_registration (s_registered s) (if fd_open s then s_interest s else Absent);;
  mret next.

Definition back (k : caller) : pc :=
  match k with FromApp => Idle | FromEvent now count => Callback now count end.

(** The caller of [re_register]: [register_event_listener], or a worker. *)
Definition registered (first : bool) : pc := if first then Idle else Poll.

Definition find_registered (first : bool) : M S pc :=
  s ← get;
  on_world (request_loop (ModeChange (m_fileno (t_timer (s_world s))) first));;
  mret (if s_registered s then RegCtl first else registered first).

Definition unregister (k : caller) : M S pc :=
  s ← get;
  on_world (request_loop (Unregister (m_fileno (t_timer (s_world s)))));;
  put_registration false (if s_registered s then Absent else s_interest s);;
  mret (back k).

Definition at_once (m : M S pc) : action S := Access (λ _, true) m.

Definition code p : action S :=
  match p with
  | Idle | Poll | Exited | Aborted _ => Rest
  | Find => at_once (s ← get; mret (if s_registered s then ReadLock else Exited))
  | ReadLock => Acquire Read
  | Read => Access readable (on_world read_section)
  | ReadUnlock now count => Release (Fire now count)
  | Fire now count =>
      at_once (match count with
               | O => mret (RearmLock now)
               | Datatypes.S n => on_world (observe Fired);; mret (Callback now n)
               end)
  | Callback now count => at_once (mret (Fire now count))
  | RearmLock now => Acquire (Rearm now)
  | Rearm now => at_once (on_world (rearm_section now))
  | ReadEnd => Release (RegLock false)
  | RegLock first => Acquire (RegValid first)
  | RegValid first => at_once (valid ← on_world is_valid; mret (RegUnlock first valid))
  | RegUnlock first valid => Release (if valid then RegFind first else registered first)
  | RegFind first => at_once (find_registered first)
  | RegCtl first =>
      at_once (s ← get; put_registration (s_registered s) (ctl first s);; mret (registered first))
  | SchedLock delay k => Acquire (Sched delay k)
  | Sched delay k => at_once (on_world (schedule_section delay k))
  | SchedUnlock k => Release (back k)
  | UnschedLock k => Acquire (Unsched k)
  | Unsched k => at_once (on_world (unschedule_section k))
  | UnschedUnlock k => Release (back k)
  | CloseLock k => Acquire (Close k)
  | Close k => at_once (close_fd k)
  | CloseUnlock was_open k => Release (if was_open then CloseUnreg k else back k)
  | CloseUnreg k => at_once (unregister k)
  end.

(** * The machine *)

Record timers := mkTimers {
  t_shared : S;
  t_owner : lock → option nat;
  t_pcs : list pc;
}.

Definition is_aborted p : bool := match p with Aborted _ => true | _ => false end.

Definition dead (t : timers) : bool := existsb is_aborted (t_pcs t).

Definition abort_message {A} (o : outcome A) : string :=
  match o with
  | Halt (Fatal msg) | Halt (UB msg) => msg
  | _ => "terminate called"
  end.

(** One step of thread [i]; [None] when it has nothing to do or must wait. *)
Definition advance (i : nat) (t : timers) : option timers :=
  if dead t then None else
  p ← t_pcs t !! i;
  match code p with
  | Rest => None
  | Acquire next =>
      match t_owner t TimerMutex with
      | Some _ => None
      | None => Some (mkTimers (t_shared t) (set_owner TimerMutex (Some i) (t_owner t))
                        (<[i := next]> (t_pcs t)))
      end
  | Release next =>
      Some (mkTimers (t_shared t) (set_owner TimerMutex None (t_owner t)) (<[i := next]> (t_pcs t)))
  | Access ready m =>
      if ready (t_shared t) then
        let '(o, s) := m (t_shared t) in
        Some (mkTimers s (t_owner t)
          (<[i := match o with Val next => next | _ => Aborted (abort_message o) end]> (t_pcs t)))
      else None
  end.

(** Where the application's own code runs, and a call made there. *)
Definition user_code p : option caller :=
  match p with
  | Idle => Some FromApp
  | Callback now count => Some (FromEvent now count)
  | _ => None
  end.

Definition enter (c : call) (k : caller) : pc :=
  match c with
  | CallSchedule delay => SchedLock delay k
  | CallUnschedule => UnschedLock k
  | CallClose => CloseLock k
  end.

(** Delays do not take a deadline past the range of the conversions. [closes]:
    the timer is closed also from outside of [on_time_event]. *)
Definition allowed (closes : bool) (c : call) (k : caller) : Prop :=
  match c with
  | CallSchedule delay => 0 ≤ delay < MAX_DELAY
  | CallUnschedule => True
  | CallClose => closes = true ∨ k ≠ FromApp
  end.

(** The timer has expired and epoll reports it. *)
Definition expired s : Prop :=
  s_interest s = Armed ∧ ∃ e, pending (t_os (s_world s)) = Some e ∧ e ≤ clock (t_os (s_world s)).

Definition put_system (σ : Σ) s : S :=
  mkShared (mkTWorld σ (t_requests (s_world s)) (t_timer (s_world s)) (t_user (s_world s)))
    (s_registered s) (s_interest s).

(** Somebody sets the clock of [σ], forward or back. *)
Definition set_clock (σ σ' : Σ) : Prop :=
  pending σ' = (λ e, e + (clock σ' - clock σ)) <$> pending σ.

(** A step of the system: a thread goes on, the application makes a call, a waiting
    worker gets an event, time passes, or, if it is [settable], the clock is set. A
    timer that was set to a delay goes off when the delay has passed all the same
    (timerfd_settime without TFD_TIMER_ABSTIME). *)
Inductive tstep (closes settable : bool) (t : timers) : timers → Prop :=
| tstep_run i t' : advance i t = Some t' → tstep closes settable t t'
| tstep_call i p k c :
    dead t = false → t_pcs t !! i = Some p → user_code p = Some k → allowed closes c k →
    tstep closes settable t (mkTimers (t_shared t) (t_owner t) (<[i := enter c k]> (t_pcs t)))
| tstep_event i :
    dead t = false → t_pcs t !! i = Some Poll → expired (t_shared t) →
    tstep closes settable t (mkTimers (mkShared (s_world (t_shared t)) (s_registered (t_shared t)) Disabled)
      (t_owner t) (<[i := Find]> (t_pcs t)))
| tstep_time σ :
    clock (t_os (s_world (t_shared t))) ≤ clock σ →
    pending σ = pending (t_os (s_world (t_shared t))) →
    tstep closes settable t (mkTimers (put_system σ (t_shared t)) (t_owner t) (t_pcs t))
| tstep_set σ :
    settable = true → set_clock (t_os (s_world (t_shared t))) σ →
    tstep closes settable t (mkTimers (put_system σ (t_shared t)) (t_owner t) (t_pcs t)).

Inductive treach (closes settable : bool) (t0 : timers) : timers → Prop :=
| treach_start : treach closes settable t0 t0
| treach_step t t' : treach closes settable t0 t → tstep closes settable t t' → treach closes settable t0 t'.

(** A new timer that the first thread is registering: it is in [m_event_listeners]
    and [re_register(true)] is called; [apps] more threads of the application and
    [workers] of the event loop. *)
Definition registering (apps workers : nat) (w : W) : timers :=
  mkTimers (mkShared w true Absent) (λ _, None)
    (RegLock true :: replicate apps Idle ++ replicate workers Poll).

(** Just constructed. *)
Definition new_timer w : Prop :=
  0 ≤ m_fd (t_timer w) ∧ m_queued_events (t_timer w) = [] ∧ t_user w = [].

(** ** Schedules, for examples *)

Inductive choice :=
| Go (i : nat)
| Event (i : nat)
| Call (i : nat) (c : call)
| Time (σ : Σ)
| SetClock (σ : Σ).

Definition choose (c : choice) (t : timers) : option timers :=
  match c with
  | Go i => advance i t
  | Event i =>
      let s := t_shared t in
      match t_pcs t !! i, s_interest s, pending (t_os (s_world s)) with
      | Some Poll, Armed, Some e =>
          if negb (dead t) && (e <=? clock (t_os (s_world s))) then
            Some (mkTimers (mkShared (s_world s) (s_registered s) Disabled) (t_owner t)
              (<[i := Find]> (t_pcs t)))
          else None
      | _, _, _ => None
      end
  | Call i c =>
      if dead t then None else
      p ← t_pcs t !! i;
      k ← user_code p;
      Some (mkTimers (t_shared t) (t_owner t) (<[i := enter c k]> (t_pcs t)))
  | Time σ =>
      if (clock (t_os (s_world (t_shared t))) <=? clock σ) &&
         bool_decide (pending σ = pending (t_os (s_world (t_shared t))))
      then Some (mkTimers (put_system σ (t_shared t)) (t_owner t) (t_pcs t))
      else None
  | SetClock σ =>
      let σ0 := t_os (s_world (t_shared t)) in
      if bool_decide (pending σ = (λ e, e + (clock σ - clock σ0)) <$> pending σ0)
      then Some (mkTimers (put_system σ (t_shared t)) (t_owner t) (t_pcs t))
      else None
  end.

Fixpoint play (cs : list choice) (t : timers) : option timers :=
  match cs with
  | [] => Some t
  | c :: rest => t' ← choose c t; play rest t'
  end.
End code.
Arguments timers : clear implicits.
Arguments choice : clear implicits.
