(* ===== verification/TimerThreadsProps.v ===== *)
(** Threads on one timer (TimerThreads.v): every deadline that is queued leads to
    one call of [on_time_event], never early; no wake-up is lost, no thread waits
    for ever, and the process is not aborted unless the timer is closed from
    outside of its callback. *)
From Stdlib Require Import Sorting.Sorted.
From stdpp Require Import gmultiset relations.
From S2P Require Import Prelude Machine Timer Mutex TimerThreads.
Local Open Scope Z_scope.

(** * Lists of deadlines *)

Lemma added_nil q : added q q = [].
Proof. unfold added. by rewrite gmultiset_difference_diag, gmultiset_elements_empty. Qed.

Lemma added_insert x q : added q (multiset_insert x q) = [x].
Proof.
  unfold added. rewrite multiset_insert_perm. cbn [list_to_set_disj].
  assert (({[+ x +]} ⊎ list_to_set_disj q) ∖ list_to_set_disj q = ({[+ x +]} : gmultiset Z)) as ->
    by multiset_solver.
  apply gmultiset_elements_singleton.
Qed.

(** What [erase_due] takes out is the front of the queue. *)
Lemma erase_due_front now q rest count :
  StronglySorted Z.le q → erase_due now q 0 = (rest, count) →
  q = take count q ++ rest ∧ length (take count q) = count ∧
  Forall (λ d, d ≤ now) (take count q) ∧ Forall (λ d, now < d) rest.
Proof.
  intros Hs. rewrite erase_due_spec by done. intros [= <- <-]. cbn [Nat.add].
  induction Hs as [|x q Hs IH Hx]; [done|]. rewrite !filter_cons.
  destruct (decide (x ≤ now)) as [Hle|Hgt].
  - rewrite decide_False by lia. destruct IH as (Hq & Hl & Hd & Hr). cbn [length take app].
    split_and!; [congruence|congruence|by constructor|done].
  - rewrite decide_True by lia. assert (Forall (λ d, now < d) q) as Hq.
    { eapply Forall_impl; [exact Hx|]. simpl. lia. }
    rewrite (filter_none _ q); [|eapply Forall_impl; [exact Hq|]; simpl; lia].
    rewrite (filter_all _ q) by done. simpl. split_and!; try done. constructor; [lia|done].
Qed.

(** The sum without the element at [i]. *)
Lemma sum_list_with_at {A} (f : A → nat) xs i x :
  xs !! i = Some x →
  ∃ r, sum_list_with f xs = (r + f x)%nat ∧ ∀ y, sum_list_with f (<[i := y]> xs) = (r + f y)%nat.
Proof.
  revert i. induction xs as [|x' xs IH]; intros [|i] Hi; simplify_eq/=.
  - exists (sum_list_with f xs). split; [lia|]. intros y. lia.
  - destruct (IH i Hi) as (r & Hr & Hins). exists (f x' + r)%nat. rewrite Hr.
    split; [lia|]. intros y. rewrite Hins. lia.
Qed.

(** * What has happened *)

Definition accepted (tr : list note) : list Z :=
  tr ≫= λ e, match e with Scheduled _ _ _ ds => ds | _ => [] end.
Definition taken (tr : list note) : list Z :=
  tr ≫= λ e, match e with Took _ ds => ds | _ => [] end.
Definition dropped (tr : list note) : list Z :=
  tr ≫= λ e, match e with Dropped ds => ds | _ => [] end.
Definition fired (tr : list note) : nat :=
  sum_list_with (λ e, match e with Fired => 1%nat | _ => 0%nat end) tr.
(** Calls of [schedule] that returned [false]. *)
Definition rejected (tr : list note) : nat :=
  sum_list_with (λ e, match e with Scheduled _ _ false _ => 1%nat | _ => 0%nat end) tr.

(** A call of [schedule] that returns [true] has queued one deadline, not before
    the delay has passed; one that returns [false] has queued none. *)
Definition sound (e : note) : Prop :=
  match e with
  | Scheduled time delay ok ds => if ok then ∃ d, ds = [d] ∧ time + delay ≤ d else ds = []
  | _ => True
  end.

Lemma fired_app tr tr' : fired (tr ++ tr') = (fired tr + fired tr')%nat.
Proof. apply sum_list_with_app. Qed.
Lemma rejected_app tr tr' : rejected (tr ++ tr') = (rejected tr + rejected tr')%nat.
Proof. apply sum_list_with_app. Qed.

Section sections.
Context {Σ : Type} `{SteadyClock Σ}.
Abbreviation W := (tworld Σ (list note)).
Implicit Types (w : W).

Abbreviation queue w := (m_queued_events (t_timer w)).
Abbreviation fd_of w := (m_fd (t_timer w)).
Abbreviation clock_of w := (clock (t_os w)).

(** [n] calls of [on_time_event] are due. *)
Definition history_ok w (n : nat) : Prop :=
  accepted (t_user w) ≡ₚ taken (t_user w) ++ dropped (t_user w) ++ queue w ∧
  Forall (λ d, d ≤ clock_of w / 1000000) (taken (t_user w)) ∧
  length (taken (t_user w)) = (fired (t_user w) + n)%nat ∧
  Forall sound (t_user w) ∧
  (0 ≤ fd_of w → rejected (t_user w) = 0%nat).

(** What a wake-up at time [now] relies on in its callbacks. *)
Definition since (now : Z) w : Prop :=
  0 ≤ now ∧ now ≤ clock_of w / 1000000 ∧ Forall (λ x, now ≤ x) (queue w).

Lemma since_callback now w : timer_wf w → since now w → callback_inv now w.
Proof. intros ? (? & ? & ?). by split_and!. Qed.

(** A step that leaves the clock no earlier; the queue does not get into the past. *)
Definition later w w' : Prop :=
  clock_of w ≤ clock_of w' ∧
  ∀ now, now ≤ clock_of w / 1000000 → Forall (λ x, now ≤ x) (queue w) → Forall (λ x, now ≤ x) (queue w').

Lemma later_ms w w' : clock_of w ≤ clock_of w' → clock_of w / 1000000 ≤ clock_of w' / 1000000.
Proof. intros ?. by apply Z.div_le_mono. Qed.

Lemma since_later now w w' : later w w' → since now w → since now w'.
Proof. intros [Hc Hq] (Hp & Hn & Hall). pose proof (later_ms w w' Hc). split_and!; [done|lia|auto]. Qed.

Lemma later_queue w w' : clock_of w ≤ clock_of w' → queue w' = queue w → later w w'.
Proof. intros Hc Hq. split; [done|]. by rewrite Hq. Qed.

(** A step that only lets time pass. *)
Lemma history_time w w' n :
  clock_of w ≤ clock_of w' → queue w' = queue w → t_user w' = t_user w → fd_of w' = fd_of w ∨ fd_of w' < 0 →
  history_ok w n → history_ok w' n.
Proof.
  intros Hc Hq Hu Hfd (Hp & Ht & Hf & Hs & Ho). unfold history_ok. rewrite Hq, Hu.
  split_and!; try done; [|by destruct Hfd as [->|?]; [|lia]]. eapply Forall_impl; [exact Ht|]. cbn. pose proof (later_ms w w' Hc). lia.
Qed.

(** The head of the queue is what the timer is set for, or earlier. *)
Definition set_ok w : Prop :=
  match queue w with
  | [] => True
  | next :: _ => ∃ t, pending (t_os w) = Some t ∧ next * 1000000 ≤ t
  end.

(** ** The sections *)

Lemma wp_observe e w (Q : outcome unit → W → Prop) :
  Q (Val tt) (mkTWorld (t_os w) (t_requests w) (t_timer w) (t_user w ++ [e])) → wp (observe e) w Q.
Proof. done. Qed.

Lemma read_section_spec w n :
  timer_wf w → 0 ≤ fd_of w → history_ok w n →
  wp read_section w (λ o w', ∃ now count, o = Val (ReadUnlock now count) ∧ timer_wf w' ∧
    fd_of w' = fd_of w ∧ later w w' ∧ since now w' ∧ history_ok w' (n + count)).
Proof.
  intros [Hs Hb] Hfd (Hp & Ht & Hf & Hsound & Ho). unfold read_section. wp_step. apply wp_timer. cbn [seq_post].
  wp_step. apply wp_tcall. intros r σ Hread. cbn [seq_post].
  destruct (read_spec _ _ _ _ Hread) as (Hc1 & _ & Hr). rewrite (Hr Hfd).
  change (1 =? 1) with true. cbv iota. wp_step. apply wp_tcall. intros now σ' Hnow.
  cbn [seq_post t_os] in *. destruct (now_spec _ _ _ Hnow) as (Hbn & Hge & Heq & Hc2 & _).
  wp_step. apply wp_timer. cbn [seq_post t_timer]. destruct (erase_due now (queue w) 0) as [rest count] eqn:He.
  destruct (erase_due_front _ _ _ _ Hs He) as (Hq & Hl & Hd & Hr').
  wp_step. apply wp_set_events. cbn [seq_post t_timer t_os t_requests t_user].
  wp_step. apply wp_observe. cbn [seq_post t_timer t_os t_requests t_user]. apply wp_ret.
  exists now, count. set (q := queue w) in *.
  assert (clock_of w / 1000000 ≤ clock σ' / 1000000) by (apply Z.div_le_mono; lia).
  split; [done|]. unfold timer_wf, later, since, history_ok. cbn [t_timer t_os t_user m_queued_events m_fd].
  rewrite Hq in Hs, Hb, Hp. split_and!; try done.
  - clear -Hs. induction (take count q) as [|x l IH]; [done|]. apply StronglySorted_inv in Hs as [Hs _]. auto.
  - apply Forall_app in Hb. apply Hb.
  - lia.
  - intros now' _ Hall. fold q in Hall. rewrite Hq in Hall. apply Forall_app in Hall. apply Hall.
  - lia.
  - lia.
  - eapply Forall_impl; [exact Hr'|]. simpl. lia.
  - unfold accepted, taken, dropped in *. rewrite !bind_app. simpl. rewrite !app_nil_r, Hp. solve_Permutation.
  - unfold taken in *. rewrite bind_app. simpl. rewrite app_nil_r. apply Forall_app. split.
    + eapply Forall_impl; [exact Ht|]. cbn. lia.
    + eapply Forall_impl; [exact Hd|]. cbn. lia.
  - rewrite fired_app. unfold taken in *. rewrite bind_app. simpl. rewrite app_nil_r, length_app, Hl. lia.
  - apply Forall_app. split; [done|]. by repeat constructor.
  - intros _. rewrite rejected_app, Ho by done. done.
Qed.

Lemma read_section_closed w : fd_of w < 0 → ∃ h w', read_section w = (Halt h, w').
Proof.
  intros Hfd. unfold read_section, mbind, M_bind, timer, tcall.
  destruct (timer_read (fd_of w) (t_os w)) as [r σ] eqn:Hread.
  destruct (read_spec _ _ _ _ Hread) as (_ & -> & _); [|done]. by eexists _, _.
Qed.

Lemma rearm_section_spec now w n :
  timer_wf w → since now w → history_ok w n →
  wp (rearm_section now) w (λ o w', o = Val ReadEnd ∧ timer_wf w' ∧ fd_of w' = fd_of w ∧
    later w w' ∧ history_ok w' n ∧ (0 ≤ fd_of w → set_ok w')).
Proof.
  intros Hwf Hn Hh. unfold rearm_section. wp_step.
  eapply wp_mono; [by apply rearm_spec, since_callback|].
  intros o w' (-> & Ht & _ & Hu & Hc & Hp). cbn [seq_post]. apply wp_ret.
  assert (queue w' = queue w) as Hq by (by rewrite Ht). split_and!; try done.
  - unfold timer_wf. by rewrite Ht.
  - by rewrite Ht.
  - by apply later_queue.
  - apply (history_time w); try done. left. by rewrite Ht.
  - intros Hfd. unfold set_ok. rewrite Hq. destruct (queue w); auto.
Qed.

(** [schedule] is called. *)
Lemma history_scheduled w w' time delay ok ds n :
  clock_of w ≤ clock_of w' → queue w' ≡ₚ ds ++ queue w →
  sound (Scheduled time delay ok ds) → t_user w' = t_user w ++ [Scheduled time delay ok ds] →
  fd_of w' = fd_of w → (0 ≤ fd_of w → ok = true) →
  history_ok w n → history_ok w' n.
Proof.
  intros Hc Hq Hsd Hu Hfd Hok (Hp & Ht & Hf & Hs & Ho). unfold history_ok. rewrite Hu, Hfd, fired_app, rejected_app.
  unfold accepted, taken, dropped in *. rewrite !bind_app. simpl. rewrite !app_nil_r. split_and!.
  - rewrite Hp, Hq. solve_Permutation.
  - eapply Forall_impl; [exact Ht|]. cbn. pose proof (later_ms w w' Hc). lia.
  - lia.
  - apply Forall_app. split; [done|]. by repeat constructor.
  - intros Hopen. by rewrite Ho, Hok.
Qed.

Lemma schedule_section_spec delay k w n :
  0 ≤ delay < MAX_DELAY → timer_wf w → history_ok w n →
  wp (schedule_section delay k) w (λ o w', o = Val (SchedUnlock k) ∧ timer_wf w' ∧
    fd_of w' = fd_of w ∧ later w w' ∧ history_ok w' n ∧
    (0 ≤ fd_of w → (is_Some (pending (t_os w)) → is_Some (pending (t_os w'))) ∧
       (set_ok w → set_ok w'))).
Proof.
  intros Hd Hwf Hh. unfold schedule_section. wp_step. wp_step. cbn [seq_post]. wp_step.
  destruct (Z.ltb_spec (fd_of w) 0) as [Hfd|Hfd].
  { unfold wp at 1. rewrite schedule_closed by done. cbn [fst snd seq_post]. wp_step. wp_step.
    cbn [seq_post]. rewrite added_nil. wp_step. apply wp_observe. cbn [seq_post]. apply wp_ret.
    split_and!; try done; try lia. apply (history_scheduled w _ (clock_of w / 1000000) delay false []); try done; lia. }
  eapply wp_mono; [by apply schedule_spec|]. intros ? w1 (-> & now & Hsch). cbn [seq_post].
  pose proof (scheduled_wf _ _ _ _ Hwf Hsch) as Hwf1.
  destruct Hsch as (Hnow & _ & Hq & Hfd1 & _ & _ & Hu & Hc & Hp).
  wp_step. wp_step. cbn [seq_post]. rewrite Hq, added_insert. wp_step. apply wp_observe.
  cbn [seq_post]. apply wp_ret. set (w2 := mkTWorld _ _ _ _).
  assert (clock_of w2 = clock_of w1 ∧ queue w2 = queue w1 ∧ fd_of w2 = fd_of w1) as (Hc2 & Hq2 & Hfd2) by done.
  split_and!; try done.
  - split; [by rewrite Hc2|]. intros t Ht Hall. rewrite Hq2, Hq, multiset_insert_perm. constructor; [lia|done].
  - apply (history_scheduled w _ (clock_of w / 1000000) delay true [now + delay]); try done.
    + by rewrite Hq2, Hq, multiset_insert_perm.
    + exists (now + delay). split; [done|lia].
    + cbn. by rewrite Hu.
  - intros _. unfold set_ok. rewrite Hq2, Hq. change (pending (t_os w2)) with (pending (t_os w1)).
    destruct (bool_decide _ || _) eqn:E in Hp.
    + destruct Hp as (t & -> & Hle & _). split; [by eexists|]. intros _.
      apply orb_true_iff in E as [E|E].
      * apply bool_decide_eq_true in E. rewrite E. by exists t.
      * rewrite inserted_first_spec by done. by exists t.
    + rewrite Hp. split; [done|]. apply orb_false_iff in E as [_ E].
      by destruct (inserted_later _ _ E) as (x & q1 & q2 & -> & ->).
Qed.

Lemma unschedule_section_spec k w n :
  timer_wf w → history_ok w n →
  wp (unschedule_section k) w (λ o w', o = Val (UnschedUnlock k) ∧ timer_wf w' ∧
    fd_of w' = fd_of w ∧ later w w' ∧ history_ok w' n ∧ pending (t_os w') = pending (t_os w) ∧ set_ok w').
Proof.
  intros Hwf (Hp & Ht & Hf & Hs & Ho). unfold unschedule_section, unschedule. wp_step. apply wp_timer.
  cbn [seq_post]. wp_step. wp_step. apply wp_timer. cbn [seq_post]. wp_step. apply wp_set_events.
  cbn [seq_post]. wp_step. cbn [seq_post]. wp_step. apply wp_observe. cbn [seq_post]. apply wp_ret.
  unfold timer_wf, later, history_ok, set_ok. cbn [t_os t_timer t_user m_queued_events m_fd].
  rewrite fired_app, rejected_app. unfold accepted, taken, dropped in *. rewrite !bind_app. simpl. rewrite !app_nil_r.
  split_and!; try done; [constructor|lia| |].
  - apply Forall_app. split; [done|]. by repeat constructor.
  - intros Hopen. by rewrite Ho.
Qed.

Lemma close_section_spec k w n :
  timer_wf w → history_ok w n →
  wp (close_section k) w (λ o w', ∃ b, o = Val (CloseUnlock b k) ∧ timer_wf w' ∧
    fd_of w' < 0 ∧ later w w' ∧ history_ok w' n).
Proof.
  intros Hwf Hh. unfold close_section. wp_step. apply wp_timer. cbn [seq_post].
  destruct (fd_of w <? 0) eqn:E; bool_to_prop; [apply wp_ret; eexists; by split_and!|].
  wp_step. apply wp_tcall. intros ? σ [= _ <-]. cbn [seq_post].
  pose proof (timer_close_spec (fd_of w) (t_os w)) as Hc.
  wp_step. apply wp_request. cbn [seq_post]. wp_step. unfold wp at 1. cbn [set_timer fst snd seq_post].
  apply wp_ret. exists true. split_and!; try done. apply (history_time w); try done. by right.
Qed.
End sections.

(** * The control points *)

(** In a wake-up. *)
Definition in_event (k : caller) : nat := match k with FromApp => 0 | FromEvent _ _ => 1 end.
Definition left_over (k : caller) : nat := match k with FromApp => 0 | FromEvent _ count => count end.
Definition time_of (k : caller) : option Z :=
  match k with FromApp => None | FromEvent now _ => Some now end.

(** On the way to [epoll_ctl]: from a wake-up or from the registration. *)
Definition token (p : pc) : nat :=
  match p with
  | Idle | Poll | Exited | Aborted _ => 0
  | SchedLock _ k | Sched _ k | SchedUnlock k | UnschedLock k | Unsched k | UnschedUnlock k
  | CloseLock k | Close k | CloseUnlock _ k | CloseUnreg k => in_event k
  | _ => 1
  end.

(** About to set the timer again. *)
Definition handling (p : pc) : nat :=
  match p with
  | ReadUnlock _ _ | Fire _ _ | Callback _ _ | RearmLock _ | Rearm _ => 1
  | SchedLock _ k | Sched _ k | SchedUnlock k | UnschedLock k | Unsched k | UnschedUnlock k
  | CloseLock k | Close k | CloseUnlock _ k | CloseUnreg k => in_event k
  | _ => 0
  end.

(** Calls of [on_time_event] that are due. *)
Definition in_flight (p : pc) : nat :=
  match p with
  | ReadUnlock _ count | Fire _ count | Callback _ count => count
  | SchedLock _ k | Sched _ k | SchedUnlock k | UnschedLock k | Unsched k | UnschedUnlock k
  | CloseLock k | Close k | CloseUnlock _ k | CloseUnreg k => left_over k
  | _ => 0
  end.

(** The time of the wake-up. *)
Definition now_of (p : pc) : option Z :=
  match p with
  | ReadUnlock now _ | Fire now _ | Callback now _ | RearmLock now | Rearm now => Some now
  | SchedLock _ k | Sched _ k | SchedUnlock k | UnschedLock k | Unsched k | UnschedUnlock k
  | CloseLock k | Close k | CloseUnlock _ k | CloseUnreg k => time_of k
  | _ => None
  end.

(** In the first [re_register]; in a wake-up before [read]. *)
Definition first (p : pc) : bool :=
  match p with RegLock b | RegValid b | RegUnlock b _ | RegFind b | RegCtl b => b | _ => false end.
Definition pre_read (p : pc) : bool :=
  match p with Find | ReadLock | Read => true | _ => false end.

Definition holds (l : lock) (p : pc) : bool :=
  match p with
  | Read | ReadUnlock _ _ | Rearm _ | ReadEnd | RegValid _ | RegUnlock _ _
  | Sched _ _ | SchedUnlock _ | Unsched _ | UnschedUnlock _ | Close _ | CloseUnlock _ _ => true
  | _ => false
  end.

(** Whose thread it is: a worker's, or the application's. *)
Definition in_worker (k : caller) : bool := match k with FromApp => false | FromEvent _ _ => true end.
Definition of_worker (p : pc) : bool :=
  match p with
  | Idle | Aborted _ => false
  | RegLock b | RegValid b | RegUnlock b _ | RegFind b | RegCtl b => negb b
  | SchedLock _ k | Sched _ k | SchedUnlock k | UnschedLock k | Unsched k | UnschedUnlock k
  | CloseLock k | Close k | CloseUnlock _ k | CloseUnreg k => in_worker k
  | _ => true
  end.

Section invariant.
Context {Σ : Type} `{SteadyClock Σ} (closes : bool) (apps : nat).
Abbreviation S := (shared Σ).
Implicit Types (s : S) (p q next : pc) (n h f : nat).

(** * The invariant *)

(** What a control point asks for by itself. *)
Definition pc_own s p : Prop :=
  match p with
  | RegUnlock _ valid => valid = false → fd_open s = false
  | SchedLock delay _ | Sched delay _ => 0 ≤ delay < MAX_DELAY
  | CloseLock k | Close k => closes = false → k ≠ FromApp
  | CloseUnlock _ _ | CloseUnreg _ | Exited => fd_open s = false
  | _ => True
  end.

Record pc_ok s p : Prop := {
  pc_since now : now_of p = Some now → since now (s_world s);
  pc_interest : token p = 1%nat → fd_open s = true → s_interest s = if first p then Absent else Disabled;
  pc_set : pre_read p = true → fd_open s = true → is_Some (pending (t_os (s_world s)));
  pc_open : pre_read p = true → closes = false → fd_open s = true;
  pc_self : pc_own s p;
}.

Definition armed s : nat := if decide (s_interest s = Armed) then 1 else 0.

(** [n] threads on the way to [epoll_ctl], [h] about to set the timer, [f] calls of
    [on_time_event] due. *)
Record shared_ok s n h f : Prop := {
  ok_wf : timer_wf (s_world s);
  ok_history : history_ok (s_world s) f;
  ok_registered : fd_open s = true → s_registered s = true;
  ok_one : (n + armed s ≤ 1)%nat;
  ok_watched : fd_open s = true → (n + armed s = 1)%nat;
  ok_armed : s_interest s = Armed → fd_open s = true;
  ok_set : fd_open s = true → h = 0%nat → set_ok (s_world s);
}.

(** What a step may change; [busy]: of a thread on the way to [epoll_ctl]. *)
Record rely (busy : bool) s s' : Prop := {
  rely_later : later (s_world s) (s_world s');
  rely_open : fd_open s' = true → fd_open s = true;
  rely_set : busy = false → fd_open s' = true → is_Some (pending (t_os (s_world s))) →
    is_Some (pending (t_os (s_world s')));
  rely_interest : busy = false → fd_open s' = true → s_interest s' = s_interest s;
  rely_stays : busy = false → closes = false → fd_open s = true → fd_open s' = true;
}.

Lemma timer_rely_refl busy s : rely busy s s.
Proof. by split. Qed.

Lemma pre_read_token p : pre_read p = true → token p = 1%nat.
Proof. by destruct p. Qed.

Lemma pc_ok_stable busy s s' p :
  rely busy s s' → (busy = true → token p = 0%nat) → pc_ok s p → pc_ok s' p.
Proof.
  intros Hr Hb Hp.
  assert (token p = 1%nat → busy = false) as Hbusy by (destruct busy; [intros ?; specialize (Hb eq_refl); congruence|done]).
  split.
  - intros now Hn. apply (since_later now (s_world s)); [apply Hr|by apply Hp].
  - intros Ht Ho. rewrite (rely_interest _ _ _ Hr (Hbusy Ht) Ho). apply Hp; [done|by apply Hr].
  - intros Hpre Ho. pose proof (Hbusy (pre_read_token p Hpre)) as Hf.
    apply Hr; [done..|]. apply Hp; [done|by apply Hr].
  - intros Hpre Hc. pose proof (Hbusy (pre_read_token p Hpre)) as Hf. apply Hr; [done..|]. by apply Hp.
  - pose proof (pc_self _ _ Hp) as Hown.
    assert (fd_open s = false → fd_open s' = false) as Hc.
    { intros Hc. apply not_true_iff_false. intros Ho%(rely_open _ _ _ Hr). congruence. }
    destruct p; simpl in *; auto.
Qed.

Lemma shared_ok_counts s n n' h h' f :
  shared_ok s n h f → (n' ≤ n)%nat → (fd_open s = true → n' = n) →
  (fd_open s = true → h' = 0%nat → h = 0%nat) → shared_ok s n' h' f.
Proof.
  intros Hok Hle Hn Hh. split; try apply Hok.
  - pose proof (ok_one _ _ _ _ Hok). lia.
  - intros Ho. rewrite (Hn Ho). by apply Hok.
  - intros Ho Hz. apply Hok; auto.
Qed.

(** * One access to the shared state *)

Definition access_post p s n h f (o : outcome pc) s' : Prop :=
  match o with
  | Val next => (∀ l, holds l next = holds l p) ∧ is_aborted next = false ∧ of_worker next = of_worker p ∧ pc_ok s' next ∧
      rely (token p =? 1)%nat s s' ∧ shared_ok s' (n + token next) (h + handling next) (f + in_flight next)
  | _ => closes = true
  end.

(** A step that only goes on. *)
Lemma timer_access_go p s n h f next :
  shared_ok s (n + token p) (h + handling p) (f + in_flight p) →
  (∀ l, holds l next = holds l p) → is_aborted next = false → of_worker next = of_worker p → pc_ok s next →
  in_flight next = in_flight p → (token next ≤ token p)%nat →
  (fd_open s = true → token next = token p ∧ (handling next = 0 → handling p = 0)%nat) →
  access_post p s n h f (Val next) s.
Proof.
  intros Hok Hh Ha Hw Hp Hf Ht Ho. split_and!; try done. rewrite Hf.
  apply (shared_ok_counts _ _ _ _ _ _ Hok); [lia|..]; intros Hop; destruct (Ho Hop); lia.
Qed.

Lemma wp_on_world {A} (m : M (tworld Σ (list note)) A) s (Q : outcome A → S → Prop) :
  wp m (s_world s) (λ o w, Q o (mkShared w (s_registered s) (s_interest s))) → wp (on_world m) s Q.
Proof. unfold wp, on_world. by destruct (m _). Qed.

Lemma fd_open_spec s : fd_open s = true ↔ 0 ≤ m_fd (t_timer (s_world s)).
Proof. apply Z.leb_le. Qed.

(** A step on the timer, which stays open or closed and in the event loop. *)
Lemma access_world p s n h f next w' :
  let s' := mkShared w' (s_registered s) (s_interest s) in
  shared_ok s (n + token p) (h + handling p) (f + in_flight p) →
  m_fd (t_timer w') = m_fd (t_timer (s_world s)) →
  (∀ l, holds l next = holds l p) → is_aborted next = false → of_worker next = of_worker p → pc_ok s' next →
  token next = token p → timer_wf w' → later (s_world s) w' → history_ok w' (f + in_flight next) →
  (token p = 0%nat → fd_open s = true → is_Some (pending (t_os (s_world s))) → is_Some (pending (t_os w'))) →
  (fd_open s = true → handling next = 0%nat →
     (handling p = 0%nat → set_ok (s_world s)) → set_ok w') →
  access_post p s n h f (Val next) s'.
Proof.
  intros s' Hok Hfd Hh Ha Hw Hp Ht Hwf Hl Hhist Hset Hq.
  assert (fd_open s' = fd_open s) as Ho by (unfold fd_open; cbn; by rewrite Hfd).
  split_and!; try done.
  - split; try done; rewrite Ho; try done. intros Hb. apply Nat.eqb_neq in Hb.
    pose proof (ok_one _ _ _ _ Hok). intros ?. apply Hset; [lia|done].
  - split; rewrite ?Ho; try done; try apply Hok.
    + rewrite Ht. apply Hok.
    + rewrite Ht. apply Hok.
    + intros Hop Hz. apply Hq; [done|lia|]. intros Hz'. apply Hok; [done|lia].
Qed.

(** ** The next control point *)

Lemma pc_ok_after p s s' next :
  pc_ok s p → fd_open s' = fd_open s → s_interest s' = s_interest s →
  (∀ now, now_of next = Some now → since now (s_world s')) →
  (token next = 1%nat → token p = 1%nat ∧ first next = first p) →
  pre_read next = false → pc_own s' next → pc_ok s' next.
Proof.
  intros Hp Ho Hi Hn Ht Hpre Hown. split; try done; [|congruence..].
  intros [Htp ->]%Ht. rewrite Ho, Hi. by apply Hp.
Qed.

Lemma pc_ok_on p s next :
  pc_ok s p → (∀ now, now_of next = Some now → now_of p = Some now) →
  (token next = 1%nat → token p = 1%nat ∧ first next = first p) →
  (pre_read next = true → pre_read p = true) → pc_own s next → pc_ok s next.
Proof.
  intros Hp Hn Ht Hpre Hown. split; [|..|done].
  - intros now Hnow. by apply Hp, Hn.
  - intros [Htp ->]%Ht. by apply Hp.
  - intros ?. by apply Hp, Hpre.
  - intros ?. by apply Hp, Hpre.
Qed.

(** A step under the mutex that keeps the time of its wake-up. *)
Lemma since_after p w' s next now :
  pc_ok s p → later (s_world s) w' → (now_of next = Some now → now_of p = Some now) →
  now_of next = Some now → since now w'.
Proof. intros Hp Hl Hn Hnow. apply (since_later now (s_world s)); [done|]. by apply Hp, Hn. Qed.

Lemma fired_history w n :
  history_ok w (Datatypes.S n) →
  history_ok (mkTWorld (t_os w) (t_requests w) (t_timer w) (t_user w ++ [Fired])) n.
Proof.
  intros (Hp & Ht & Hf & Hs & Ho). unfold history_ok. cbn [t_user t_os t_timer].
  rewrite fired_app, rejected_app. unfold accepted, taken, dropped in *. rewrite !bind_app. simpl. rewrite !app_nil_r.
  split_and!; [done|done|lia| |].
  - apply Forall_app. split; [done|]. by repeat constructor.
  - intros Hopen. by rewrite Ho.
Qed.

(** ** The steps that touch the timer *)

Lemma read_safe s n h f :
  pc_ok s Read → readable s = true →
  shared_ok s (n + token Read) (h + handling Read) (f + in_flight Read) →
  wp (on_world read_section) s (access_post Read s n h f).
Proof.
  intros Hp Hready Hok. apply wp_on_world. destruct (fd_open s) eqn:Ho.
  - assert (history_ok (s_world s) f) as Hh by (pose proof (ok_history _ _ _ _ Hok) as Hh; by rewrite Nat.add_0_r in Hh).
    eapply wp_mono; [apply (read_section_spec _ f); [apply Hok|by apply fd_open_spec|done]|].
    intros o w' (now & count & -> & Hwf & Hfd & Hl & Hs & Hh'). apply access_world; try done.
    eapply pc_ok_after; try done.
    + unfold fd_open. cbn. by rewrite Hfd.
    + by intros now' [= <-].
  - destruct (read_section_closed (s_world s)) as (e & w' & Hrun).
    { apply Z.leb_gt in Ho. done. }
    unfold wp. rewrite Hrun. cbn. apply not_false_iff_true. intros Hc.
    pose proof (pc_open _ _ Hp eq_refl Hc). congruence.
Qed.

Lemma rearm_safe now s n h f :
  pc_ok s (Rearm now) →
  shared_ok s (n + token (Rearm now)) (h + handling (Rearm now)) (f + in_flight (Rearm now)) →
  wp (on_world (rearm_section now)) s (access_post (Rearm now) s n h f).
Proof.
  intros Hp Hok. apply wp_on_world.
  eapply wp_mono; [apply rearm_section_spec; [apply Hok|by apply Hp|apply Hok]|].
  intros o w' (-> & Hwf & Hfd & Hl & Hh & Hset). apply access_world; try done.
  - eapply pc_ok_after; try done. unfold fd_open. cbn. by rewrite Hfd.
  - intros Ho _ _. by apply Hset, fd_open_spec.
Qed.

Lemma schedule_safe delay k s n h f (p := Sched delay k) :
  pc_ok s p → shared_ok s (n + token p) (h + handling p) (f + in_flight p) →
  wp (on_world (schedule_section delay k)) s (access_post p s n h f).
Proof.
  intros Hp Hok. apply wp_on_world. pose proof (pc_self _ _ Hp) as Hd.
  eapply wp_mono; [apply schedule_section_spec; [done|apply Hok|apply Hok]|].
  intros o w' (-> & Hwf & Hfd & Hl & Hh & Hset). apply access_world; try done.
  - eapply pc_ok_after; [done|..]; try done.
    + unfold fd_open. cbn. by rewrite Hfd.
    + intros now. by apply (since_after p _ s).
  - intros _ Ho%fd_open_spec. by apply Hset.
  - intros Ho%fd_open_spec Hz Hs. apply Hset; auto.
Qed.

Lemma unschedule_safe k s n h f (p := Unsched k) :
  pc_ok s p → shared_ok s (n + token p) (h + handling p) (f + in_flight p) →
  wp (on_world (unschedule_section k)) s (access_post p s n h f).
Proof.
  intros Hp Hok. apply wp_on_world.
  eapply wp_mono; [apply unschedule_section_spec; [apply Hok|apply Hok]|].
  intros o w' (-> & Hwf & Hfd & Hl & Hh & Hpe & Hset). apply access_world; try done.
  - eapply pc_ok_after; [done|..]; try done.
    + unfold fd_open. cbn. by rewrite Hfd.
    + intros now. by apply (since_after p _ s).
  - intros _ _. by rewrite Hpe.
Qed.

(** ** The steps that close and register *)

(** A step after which the timer is closed. *)
Lemma access_closed p s s' n h f next :
  shared_ok s (n + token p) (h + handling p) (f + in_flight p) → pc_ok s p →
  fd_open s' = false → s_interest s' ≠ Armed → later (s_world s) (s_world s') →
  timer_wf (s_world s') → history_ok (s_world s') (f + in_flight next) →
  (closes = false → token p = 0%nat → fd_open s = false) →
  (∀ l, holds l next = holds l p) → is_aborted next = false → of_worker next = of_worker p → (token next ≤ token p)%nat →
  (∀ now, now_of next = Some now → now_of p = Some now) → pre_read next = false → pc_own s' next →
  access_post p s n h f (Val next) s'.
Proof.
  intros Hok Hp Ho Hi Hl Hwf Hh Hc Hho Ha Hw Ht Hn Hpre Hown. split_and!; try done.
  - split; try congruence. intros now Hnow. apply (since_after p _ s next); auto.
  - split; try congruence. intros Hb Hcl Hop. apply Nat.eqb_neq in Hb.
    pose proof (ok_one _ _ _ _ Hok). rewrite Hc in Hop; [done..|lia].
  - split; try congruence; try done. pose proof (ok_one _ _ _ _ Hok).
    unfold armed. rewrite decide_False by done. lia.
Qed.

Lemma timer_close_safe k s n h f (p := Close k) :
  pc_ok s p → shared_ok s (n + token p) (h + handling p) (f + in_flight p) →
  wp (close_fd k) s (access_post p s n h f).
Proof.
  intros Hp Hok. unfold close_fd. wp_step. apply wp_on_world.
  eapply wp_mono; [apply close_section_spec; apply Hok|].
  intros o w' (b & -> & Hwf & Hfd & Hl & Hh). cbn [seq_post]. wp_step. wp_step. cbn [seq_post]. wp_step.
  unfold wp at 1. cbn [put_registration fst snd seq_post s_world s_registered s_interest]. apply wp_ret.
  assert (fd_open (mkShared w' (s_registered s) (s_interest s)) = false) as Ho
    by (apply Z.leb_gt; exact Hfd).
  rewrite Ho. apply access_closed; try done.
  intros Hc Ht. pose proof (pc_self _ _ Hp Hc) as Hk. by destruct k.
Qed.

Lemma unregister_safe k s n h f (p := CloseUnreg k) :
  pc_ok s p → shared_ok s (n + token p) (h + handling p) (f + in_flight p) →
  wp (unregister k) s (access_post p s n h f).
Proof.
  intros Hp Hok. pose proof (pc_self _ _ Hp) as Hc. unfold unregister. wp_step. wp_step. cbn [seq_post].
  wp_step. apply wp_on_world, wp_request. cbn [seq_post]. wp_step.
  unfold wp at 1. cbn [put_registration fst snd seq_post s_world s_registered s_interest]. apply wp_ret.
  apply access_closed; try done; try (by destruct k); [|apply Hok|].
  - destruct (s_registered s); [done|]. cbn. intros Ha%(ok_armed _ _ _ _ Hok). congruence.
  - eapply (history_time (s_world s)); [done..|by left|]. pose proof (ok_history _ _ _ _ Hok) as Hh. by destruct k.
Qed.

Lemma find_safe b s n h f (p := RegFind b) :
  pc_ok s p → shared_ok s (n + token p) (h + handling p) (f + in_flight p) →
  wp (find_registered b) s (access_post p s n h f).
Proof.
  intros Hp Hok. unfold find_registered. wp_step. wp_step. cbn [seq_post]. wp_step.
  apply wp_on_world, wp_request. cbn [seq_post]. apply wp_ret.
  assert (∀ next, in_flight next = 0%nat → history_ok (mkTWorld (t_os (s_world s))
    (t_requests (s_world s) ++ [ModeChange (m_fileno (t_timer (s_world s))) b])
    (t_timer (s_world s)) (t_user (s_world s))) (f + in_flight next)) as Hh.
  { intros next ->. apply (history_time (s_world s)); [done..|by left|]. apply Hok. }
  destruct (s_registered s) eqn:Hr.
  - rewrite <- Hr. apply access_world; try done.
    + eapply pc_ok_after; done.
    + apply Hok.
    + by apply Hh.
    + intros _ _ Hs. by apply Hs.
  - assert (fd_open s = false) as Ho.
    { apply not_true_iff_false. intros Ho%(ok_registered _ _ _ _ Hok). congruence. }
    apply access_closed; try done; try (by destruct b).
    + intros Ha%(ok_armed _ _ _ _ Hok). congruence.
    + apply Hok.
    + apply Hh. by destruct b.
    + destruct b; simpl; lia.
Qed.

Lemma ctl_safe b s n h f (p := RegCtl b) :
  pc_ok s p → shared_ok s (n + token p) (h + handling p) (f + in_flight p) →
  access_post p s n h f (Val (registered b)) (mkShared (s_world s) (s_registered s) (ctl b s)).
Proof.
  intros Hp Hok. destruct (fd_open s) eqn:Ho.
  - assert (ctl b s = Armed) as ->.
    { unfold ctl. rewrite Ho. rewrite (pc_interest _ _ Hp eq_refl Ho). by destruct b. }
    assert (armed s = 0%nat) as Ha.
    { unfold armed. rewrite (pc_interest _ _ Hp eq_refl Ho). by destruct b. }
    pose proof (ok_watched _ _ _ _ Hok Ho) as Hw. rewrite Ha in Hw. simpl in Hw.
    split_and!; [by destruct b..|done|].
    assert (fd_open (mkShared (s_world s) (s_registered s) Armed) = true) as Ho' by done.
    split; try done; try apply Hok.
    + replace (in_flight (registered b)) with (in_flight p) by by destruct b. apply Hok.
    + change (armed _) with 1%nat. destruct b; simpl; lia.
    + intros _. change (armed _) with 1%nat. destruct b; simpl; lia.
    + intros _ Hz. apply Hok; [done|]. destruct b; simpl in *; lia.
  - assert (ctl b s = s_interest s) as -> by (unfold ctl; by rewrite Ho).
    replace (mkShared (s_world s) (s_registered s) (s_interest s)) with s by by destruct s.
    apply timer_access_go; try done; try (by destruct b); [destruct b; simpl; lia|congruence].
Qed.

(** Every access. *)
Lemma pc_access_safe p ready m s n h f :
  pc_ok s p → shared_ok s (n + token p) (h + handling p) (f + in_flight p) →
  code p = Access ready m → ready s = true → wp m s (access_post p s n h f).
Proof.
  intros Hp Hok Hcode Hready.
  destruct p as [| | |msg| | | |now c|now c|now c|now|now| |b|b|b v|b|b|d k|d k|k|k|k|k|k|k|b k|k];
    try discriminate; injection Hcode as <- <-.
  - wp_step. wp_step. cbn [seq_post]. apply wp_ret. destruct (s_registered s) eqn:Hr.
    + apply timer_access_go; try done. by apply (pc_ok_on Find).
    + assert (fd_open s = false) as Hc.
      { apply not_true_iff_false. intros Ho%(ok_registered _ _ _ _ Hok). congruence. }
      apply timer_access_go; try done; [simpl; lia|congruence].
  - by apply read_safe.
  - destruct c as [|c].
    + apply wp_ret, timer_access_go; try done. by apply (pc_ok_on (Fire now 0)).
    + wp_step. apply wp_on_world, wp_observe. cbn [seq_post]. apply wp_ret. apply access_world; try done.
      * eapply pc_ok_after; try done. intros now' Hn. by apply (pc_since _ _ Hp).
      * apply Hok.
      * apply fired_history. pose proof (ok_history _ _ _ _ Hok) as Hh. simpl in Hh.
        by rewrite Nat.add_succ_r in Hh.
  - apply wp_ret, timer_access_go; try done. by apply (pc_ok_on (Callback now c)).
  - by apply rearm_safe.
  - wp_step. apply wp_on_world. unfold is_valid. wp_step. apply wp_timer. cbn [seq_post]. apply wp_ret.
    cbn [seq_post]. apply wp_ret.
    replace (mkShared (s_world s) (s_registered s) (s_interest s)) with s by by destruct s.
    apply timer_access_go; try done. apply (pc_ok_on (RegValid b)); try done. by intros Hv.
  - by apply find_safe.
  - wp_step. wp_step. cbn [seq_post]. wp_step. unfold wp at 1.
    cbn [put_registration fst snd seq_post]. apply wp_ret. by apply ctl_safe.
  - by apply schedule_safe.
  - by apply unschedule_safe.
  - by apply timer_close_safe.
  - by apply unregister_safe.
Qed.

(** * A move on the mutex *)

Definition moves p next : Prop :=
  is_aborted next = false ∧ of_worker next = of_worker p ∧ in_flight next = in_flight p ∧
  ∀ s, pc_ok s p → pc_ok s next ∧ (token next ≤ token p)%nat ∧
    (fd_open s = true → token next = token p ∧ (handling next = 0 → handling p = 0)%nat).

Lemma moves_same p next :
  is_aborted next = false → of_worker next = of_worker p → in_flight next = in_flight p → now_of next = now_of p →
  token next = token p → handling next = handling p → first next = first p →
  (pre_read next = true → pre_read p = true) → (∀ s, pc_own s p → pc_own s next) → moves p next.
Proof.
  intros Ha Hw Hf Hn Ht Hh Hfirst Hpre Hown. split_and!; [done..|]. intros s Hp.
  split; [|split; [by rewrite Ht|by rewrite Ht, Hh]].
  apply (pc_ok_on p); [done| | |done|by apply Hown, Hp].
  - by rewrite Hn.
  - by rewrite Ht, Hfirst.
Qed.

Lemma timer_code_moves p :
  match code (Σ := Σ) p with
  | Acquire next => moves p next ∧ ∀ l, holds l p = false ∧ holds l next = true
  | Release next => moves p next ∧ ∀ l, holds l p = true ∧ holds l next = false
  | _ => True
  end.
Proof.
  destruct p as [| | |msg| | | |now c|now c|now c|now|now| |b|b|b v|b|b|d k|d k|k|k|k|k|k|k|b k|k];
    simpl; try done; (split; [|intros l; split; [done|]; try done; try (by destruct k)]);
    try (by apply moves_same); try (by destruct k; apply moves_same); try (by destruct b, k; apply moves_same).
  - destruct v; [by apply moves_same|]. split_and!; [by destruct b..|]. intros s Hp.
    pose proof (pc_self _ _ Hp eq_refl) as Hc. split_and!; [|destruct b; simpl; lia|congruence].
    apply (pc_ok_on (RegUnlock b false)); try done; by destruct b.
  - by destruct v, b.
  - by destruct b, k.
Qed.

(** * The machine *)

Implicit Types (t : timers Σ) (i j : nat).

Record tinv t : Prop := {
  inv_shared : shared_ok (t_shared t) (sum_list_with token (t_pcs t))
    (sum_list_with handling (t_pcs t)) (sum_list_with in_flight (t_pcs t));
  inv_lock : lock_inv holds (t_owner t) (t_pcs t);
  inv_pcs i p : t_pcs t !! i = Some p → pc_ok (t_shared t) p;
  inv_alive : dead t = false;
  inv_roles i p : t_pcs t !! i = Some p → of_worker p = bool_decide (apps < i)%nat;
}.

(** While one thread, or epoll, is to tell the event loop, no other thread is. *)
Lemma others_not t i p j q :
  tinv t → t_pcs t !! i = Some p → (token p + armed (t_shared t) = 1)%nat →
  j ≠ i → t_pcs t !! j = Some q → token q = 0%nat.
Proof.
  intros Hinv Hi Hone Hne Hj. pose proof (ok_one _ _ _ _ (inv_shared t Hinv)) as Hle.
  destruct (sum_list_with_at token _ _ _ Hi) as (r & Hr & Hins).
  assert ((<[i := Idle]> (t_pcs t)) !! j = Some q) as Hj' by (by rewrite list_lookup_insert_ne).
  destruct (sum_list_with_at token _ _ _ Hj') as (r' & Hr' & _). rewrite Hins in Hr'.
  change (token Idle) with 0%nat in Hr'. lia.
Qed.

Lemma alive_insert t i next s' owner :
  dead t = false → is_aborted next = false →
  dead (mkTimers s' owner (<[i := next]> (t_pcs t))) = false.
Proof.
  unfold dead. cbn. intros Hd Hn. apply not_true_iff_false. intros (p & Hp & Ha)%existsb_exists.
  apply list_elem_of_In, list_elem_of_lookup in Hp as [j Hj].
  apply list_lookup_insert_Some in Hj as [(_ & <- & _)|[_ Hj]]; [congruence|].
  assert (existsb is_aborted (t_pcs t) = true); [|congruence].
  apply existsb_exists. exists p. split; [|done]. by apply list_elem_of_In, (list_elem_of_lookup_2 _ j).
Qed.

Lemma aborted_dead t i p msg s' owner :
  t_pcs t !! i = Some p → dead (mkTimers s' owner (<[i := Aborted msg]> (t_pcs t))) = true.
Proof.
  intros Hi. apply existsb_exists. exists (Aborted msg). split; [|done].
  apply list_elem_of_In, (list_elem_of_lookup_2 _ i), list_lookup_insert_eq. by eapply lookup_lt_Some.
Qed.

(** Thread [i] has moved from [p] to [next]. *)
Lemma timers_after t i p next s' owner busy :
  tinv t → t_pcs t !! i = Some p → pc_ok s' next → is_aborted next = false → of_worker next = of_worker p →
  rely busy (t_shared t) s' → (busy = true → (token p + armed (t_shared t) = 1)%nat) →
  (∀ n h f, shared_ok (t_shared t) (n + token p) (h + handling p) (f + in_flight p) →
     shared_ok s' (n + token next) (h + handling next) (f + in_flight next)) →
  (∀ l, owner l = Some i ↔ holds l next = true) →
  (∀ l j, j ≠ i → owner l = Some j ↔ t_owner t l = Some j) →
  tinv (mkTimers s' owner (<[i := next]> (t_pcs t))).
Proof.
  intros Hinv Hi Hnext Ha Hw Hr Hb Hsh Hself Hother. pose proof (lookup_lt_Some _ _ _ Hi) as Hlt. split.
  - cbn [t_shared t_pcs].
    destruct (sum_list_with_at token _ _ _ Hi) as (n & Hn & ->).
    destruct (sum_list_with_at handling _ _ _ Hi) as (h & Hh & ->).
    destruct (sum_list_with_at in_flight _ _ _ Hi) as (f & Hf & ->).
    apply Hsh. rewrite <- Hn, <- Hh, <- Hf. apply Hinv.
  - apply (lock_inv_move holds (t_owner t) (t_pcs t) _ _ i next); try done; [apply Hinv|..].
    + by apply list_lookup_insert_eq.
    + intros l j Hne. cbn [t_pcs]. by rewrite list_lookup_insert_ne.
  - intros j q. cbn [t_pcs t_shared]. destruct (decide (j = i)) as [->|Hne].
    { rewrite list_lookup_insert_eq by done. by intros [= <-]. }
    rewrite list_lookup_insert_ne by done. intros Hj.
    apply (pc_ok_stable busy (t_shared t)); [done| |by apply (inv_pcs t Hinv j)].
    intros ->. by apply (others_not t i p j q Hinv Hi (Hb eq_refl)).
  - apply alive_insert; [apply Hinv|done].
  - intros j q. cbn [t_pcs]. destruct (decide (j = i)) as [->|Hne].
    + rewrite list_lookup_insert_eq by done. intros [= <-]. rewrite Hw. by apply (inv_roles t Hinv).
    + rewrite list_lookup_insert_ne by done. by apply (inv_roles t Hinv).
Qed.

(** A move that leaves the shared state as it is. *)
Lemma tinv_moves t i p next owner :
  tinv t → t_pcs t !! i = Some p → moves p next →
  (∀ l, owner l = Some i ↔ holds l next = true) →
  (∀ l j, j ≠ i → owner l = Some j ↔ t_owner t l = Some j) →
  tinv (mkTimers (t_shared t) owner (<[i := next]> (t_pcs t))).
Proof.
  intros Hinv Hi (Ha & Hw & Hf & Hm) Hself Hother.
  destruct (Hm _ (inv_pcs t Hinv i p Hi)) as (Hnext & Hle & Ho).
  apply (timers_after t i p next _ owner false); try done.
  intros n h f Hok. rewrite Hf. apply (shared_ok_counts _ _ _ _ _ _ Hok); [lia|..]; intros Hop;
    destruct (Ho Hop); lia.
Qed.

Lemma timer_advance_safe t i t' :
  tinv t → advance i t = Some t' → (dead t' = true ∧ closes = true) ∨ tinv t'.
Proof.
  intros Hinv Hadv. unfold advance in Hadv. rewrite (inv_alive t Hinv) in Hadv.
  destruct (t_pcs t !! i) as [p|] eqn:Hi; [|done]. simpl in Hadv.
  pose proof (λ l, holds_owner holds _ _ l i _ (inv_lock t Hinv) Hi) as Hown.
  pose proof (timer_code_moves p) as Hm. destruct (code p) as [|next|next|ready m] eqn:Hcode; [done|..].
  - destruct (t_owner t TimerMutex) eqn:Ho; [done|]. injection Hadv as <-. right.
    destruct Hm as [Hm Hl]. destruct (set_owner_acquire holds TimerMutex i (t_owner t) p next) as [Hs Hot];
      [done..|intros []; apply Hl|]. by apply (tinv_moves t i p).
  - injection Hadv as <-. right. destruct Hm as [Hm Hl].
    destruct (set_owner_release holds TimerMutex i (t_owner t) p next) as [Hs Hot];
      [apply Hl|done|intros []; apply Hl|]. by apply (tinv_moves t i p).
  - destruct (ready (t_shared t)) eqn:Hready; [|done]. pose proof (inv_shared t Hinv) as Hok.
    destruct (m (t_shared t)) as [o s'] eqn:Hrun. injection Hadv as <-.
    assert (∀ n h f, shared_ok (t_shared t) (n + token p) (h + handling p) (f + in_flight p) →
      access_post p (t_shared t) n h f o s') as Hacc.
    { intros n h f Hok'. pose proof (pc_access_safe p ready m _ n h f (inv_pcs t Hinv i p Hi) Hok' Hcode Hready) as Hwp.
      unfold wp in Hwp. by rewrite Hrun in Hwp. }
    assert (∃ n h f, shared_ok (t_shared t) (n + token p) (h + handling p) (f + in_flight p)) as (n & h & f & Hok').
    { destruct (sum_list_with_at token _ _ _ Hi) as (n & Hn & _).
      destruct (sum_list_with_at handling _ _ _ Hi) as (h & Hh & _).
      destruct (sum_list_with_at in_flight _ _ _ Hi) as (f & Hf & _).
      exists n, h, f. by rewrite <- Hn, <- Hh, <- Hf. }
    destruct o as [next|e|e].
    + destruct (Hacc n h f Hok') as (Hh & Ha & Hw & Hnext & Hr & _). right.
      apply (timers_after t i p next _ _ (token p =? 1)%nat); try done.
      * intros Ht%Nat.eqb_eq. pose proof (ok_one _ _ _ _ Hok'). lia.
      * intros n' h' f' Hok''. by apply Hacc.
      * intros l. by rewrite Hh.
    + left. split; [by eapply aborted_dead|exact (Hacc n h f Hok')].
    + left. split; [by eapply aborted_dead|exact (Hacc n h f Hok')].
Qed.

Lemma user_code_moves p k c :
  user_code p = Some k → allowed closes c k →
  moves p (enter c k) ∧ ∀ l, holds l p = false ∧ holds l (enter c k) = false.
Proof.
  intros Hk Hc. destruct p; try done; injection Hk as <-; destruct c; split; try done;
    apply moves_same; try done; intros s _ Hf; destruct Hc as [Hc|Hc]; congruence.
Qed.

Lemma call_safe t i p k c :
  tinv t → t_pcs t !! i = Some p → user_code p = Some k → allowed closes c k →
  tinv (mkTimers (t_shared t) (t_owner t) (<[i := enter c k]> (t_pcs t))).
Proof.
  intros Hinv Hi Hk Hc. destruct (user_code_moves p k c Hk Hc) as [Hm Hl].
  pose proof (λ l, holds_owner holds _ _ l i _ (inv_lock t Hinv) Hi) as Hown.
  apply (tinv_moves t i p); try done. intros l. destruct (Hl l) as [Hp Hn]. by rewrite Hown, Hp, Hn.
Qed.

Lemma event_safe t i :
  tinv t → t_pcs t !! i = Some Poll → expired (t_shared t) →
  tinv (mkTimers (mkShared (s_world (t_shared t)) (s_registered (t_shared t)) Disabled)
    (t_owner t) (<[i := Find]> (t_pcs t))).
Proof.
  intros Hinv Hi (Ha & e & He & _). pose proof (inv_shared t Hinv) as Hok.
  pose proof (ok_armed _ _ _ _ Hok Ha) as Ho.
  assert (armed (t_shared t) = 1%nat) as Ha' by (unfold armed; by rewrite Ha).
  pose proof (λ l, holds_owner holds _ _ l i _ (inv_lock t Hinv) Hi) as Hown.
  apply (timers_after t i Poll Find _ _ true); try done.
  intros n h f Hok'. pose proof (ok_one _ _ _ _ Hok') as Hone. simpl in Hone. split; try done; try apply Hok'.
  - change (armed _) with 0%nat. simpl. lia.
  - intros _. change (armed _) with 0%nat. pose proof (ok_watched _ _ _ _ Hok' Ho) as Hw. simpl in *. lia.
Qed.

Lemma time_safe t σ :
  tinv t → clock (t_os (s_world (t_shared t))) ≤ clock σ →
  pending σ = pending (t_os (s_world (t_shared t))) →
  tinv (mkTimers (put_system σ (t_shared t)) (t_owner t) (t_pcs t)).
Proof.
  intros Hinv Hc Hp. pose proof (inv_shared t Hinv) as Hok.
  assert (rely false (t_shared t) (put_system σ (t_shared t))) as Hr.
  { split; try done. cbn. by rewrite Hp. }
  split; try apply Hinv.
  - split; try apply Hok.
    + apply (history_time (s_world (t_shared t))); [done..|by left|]. apply Hok.
    + intros Ho Hh. pose proof (ok_set _ _ _ _ Hok Ho Hh) as Hs. unfold set_ok in *. cbn. by rewrite Hp.
  - intros i p Hi. apply (pc_ok_stable false (t_shared t)); [done..|]. by apply (inv_pcs t Hinv i).
Qed.

Lemma step_safe t t' :
  tinv t → tstep closes false t t' → (dead t' = true ∧ closes = true) ∨ tinv t'.
Proof.
  intros Hinv [i t'' Hadv|i p k c _ Hi Hk Hc|i _ Hi He|σ Hc Hp|]; [| | | |done].
  - by apply (timer_advance_safe t i).
  - right. by apply (call_safe t i p).
  - right. by apply event_safe.
  - right. by apply time_safe.
Qed.

Lemma step_length t t' : tstep closes false t t' → length (t_pcs t') = length (t_pcs t).
Proof.
  intros [i t'' Hadv|i p k c _ Hi Hk Hc|i _ Hi He|σ Hc Hp|]; [|apply length_insert..|done|done].
  unfold advance in Hadv. destruct (dead t); [done|].
  destruct (t_pcs t !! i) as [p|]; [|done]. simpl in Hadv.
  destruct (code p) as [|next|next|ready m]; [done| | |].
  - destruct (t_owner t TimerMutex); [done|]. injection Hadv as <-. apply length_insert.
  - injection Hadv as <-. apply length_insert.
  - destruct (ready (t_shared t)); [|done]. destruct (m (t_shared t)) as [o s']. injection Hadv as <-. apply length_insert.
Qed.

(** Nothing happens in a process that has ended, but time. *)
Lemma dead_stays t t' : dead t = true → tstep closes false t t' → dead t' = true.
Proof.
  intros Hd [i t'' Hadv|i p k c Hd' _ _ _|i Hd' _ _|σ _ _|]; try congruence; [|done..].
  unfold advance in Hadv. by rewrite Hd in Hadv.
Qed.

Lemma sum_replicate_zero {A} (f : A → nat) n x : f x = 0%nat → sum_list_with f (replicate n x) = 0%nat.
Proof. intros Hx. induction n as [|n IH]; simpl; [done|]. lia. Qed.

Lemma registering_inv workers w : new_timer w → tinv (registering apps workers w).
Proof.
  intros (Hfd & Hq & Hu).
  assert (∀ p, p ∈ replicate apps Idle ++ replicate workers Poll → p = Idle ∨ p = Poll) as Hin.
  { intros p [[-> _]%elem_of_replicate|[-> _]%elem_of_replicate]%elem_of_app; auto. }
  assert (∀ f : pc → nat, f Idle = 0%nat → f Poll = 0%nat →
    sum_list_with f (t_pcs (registering apps workers w)) = f (RegLock true)) as Hsum.
  { intros f Hi Hp. cbn. rewrite sum_list_with_app, !sum_replicate_zero by done. lia. }
  split.
  - rewrite !Hsum by done. cbn [t_shared registering]. split; try done.
    + unfold timer_wf. cbn. rewrite Hq. split; constructor.
    + unfold history_ok. cbn. rewrite Hu, Hq. by split_and!.
    + intros _ _. unfold set_ok. cbn. by rewrite Hq.
  - apply lock_inv_start. intros l p [->|Hp]%elem_of_cons; [done|]. by destruct (Hin p Hp) as [->| ->].
  - intros i p Hi. apply list_elem_of_lookup_2 in Hi. apply elem_of_cons in Hi as [->|Hi]; [by split|].
    by destruct (Hin p Hi) as [->| ->]; split.
  - unfold dead. cbn. rewrite existsb_app. apply orb_false_iff. split; apply not_true_iff_false;
      by intros (p & [-> _]%list_elem_of_In%elem_of_replicate & Ha)%existsb_exists.
  - intros [|i] p Hi; cbn in Hi; [by injection Hi as <-|]. apply lookup_app_Some in Hi as [Hi|[Hle Hi]].
    + apply lookup_replicate in Hi as [-> Hlt]. rewrite bool_decide_false; [done|lia].
    + rewrite length_replicate in Hle. apply lookup_replicate in Hi as [-> _].
      rewrite bool_decide_true; [done|lia].
Qed.

Lemma timers_reach_inv workers w t :
  new_timer w → treach closes false (registering apps workers w) t →
  ((dead t = true ∧ closes = true) ∨ tinv t) ∧ length (t_pcs t) = Datatypes.S (apps + workers).
Proof.
  intros Hw. induction 1 as [|t t' _ [IH Hlen] Hstep].
  - split; [right; by apply registering_inv|]. cbn. by rewrite length_app, !length_replicate.
  - split; [|rewrite <- Hlen; by apply step_length].
    destruct IH as [[Hd Hc]|Hinv]; [left; split; [by apply (dead_stays t)|done]|by apply (step_safe t)].
Qed.
End invariant.
