(* ===== verification/TimerThreadsLive.v ===== *)
(** Threads on one timer (TimerThreads.v): what the invariant of TimerThreadsProps.v
    gives: every deadline fires once, nothing waits for ever, and an open timer
    stays watched. Concrete interleavings, also of what goes wrong. *)
From stdpp Require Import relations.
From S2P Require Import Prelude Machine Timer Mutex TimerThreads TimerThreadsProps.
Local Open Scope Z_scope.

(** A thread that has nothing to do. *)
Definition at_rest (p : pc) : bool := match p with Idle | Poll | Exited => true | _ => false end.

(** What a thread still has to do; a deadline in the queue is worth 3. *)
Definition caller_rank (k : caller) : nat :=
  match k with FromApp => 0 | FromEvent _ count => 10 + 2 * count end.

Definition timer_rank (p : pc) : nat :=
  match p with
  | Idle | Poll | Exited | Aborted _ => 0
  | RegCtl _ => 1 | RegFind _ => 2 | RegUnlock _ _ => 3 | RegValid _ => 4 | RegLock _ => 5
  | ReadEnd => 6 | Rearm _ => 7 | RearmLock _ => 8
  | Fire _ count => 9 + 2 * count
  | Callback _ count | ReadUnlock _ count => 10 + 2 * count
  | Read => 11 | ReadLock => 12 | Find => 13
  | SchedUnlock k | UnschedUnlock k | CloseUnreg k => 1 + caller_rank k
  | Unsched k | CloseUnlock _ k => 2 + caller_rank k
  | UnschedLock k | Close k => 3 + caller_rank k
  | CloseLock k => 4 + caller_rank k
  | Sched _ k => 5 + caller_rank k
  | SchedLock _ k => 6 + caller_rank k
  end.

Section live.
Context {Σ : Type} `{SteadyClock Σ}.
Abbreviation W := (tworld Σ (list note)).
Abbreviation S := (shared Σ).
Implicit Types (w : W) (s : S) (p next : pc) (t : timers Σ) (i : nat).

Abbreviation queued w := (length (m_queued_events (t_timer w))).

Definition timer_work t : nat :=
  sum_list_with timer_rank (t_pcs t) + 3 * queued (s_world (t_shared t)).

(** * Every step is one towards the end *)

Definition next_rank (o : outcome pc) : nat := match o with Val next => timer_rank next | _ => 0 end.

(** A step on the timer uses up work. *)
Definition less (n : nat) w (o : outcome pc) w' : Prop :=
  (next_rank o + 3 * queued w' < n + 3 * queued w)%nat.

Lemma erase_due_length now q c rest count :
  erase_due now q c = (rest, count) → (length rest + count = length q + c)%nat.
Proof.
  revert c. induction q as [|x q IH]; intros c; simpl; [by intros [= <- <-]|].
  destruct (x <=? now); [|intros [= <- <-]; simpl; lia]. intros Hq%IH. lia.
Qed.

Lemma multiset_insert_length x q : length (multiset_insert x q) = Datatypes.S (length q).
Proof. by rewrite multiset_insert_perm. Qed.

Lemma wp_internal_schedule delay w (Q : outcome bool → W → Prop) :
  (∀ b σ, Q (Val b) (mkTWorld σ (t_requests w) (t_timer w) (t_user w))) → wp (internal_schedule delay) w Q.
Proof.
  intros HQ. unfold internal_schedule. wp_step. apply wp_timer. cbn [seq_post]. wp_step.
  apply wp_tcall. intros b σ _. cbn [seq_post]. by wp_step.
Qed.

Lemma read_section_work w : wp read_section w (less 11 w).
Proof.
  unfold read_section. wp_step. apply wp_timer. cbn [seq_post]. wp_step. apply wp_tcall. intros r σ _.
  cbn [seq_post]. destruct r as [buf|]; [|wp_step; unfold less; simpl; lia].
  destruct (buf =? 1); [|wp_step; unfold less; simpl; lia].
  wp_step. apply wp_tcall. intros now σ' _. cbn [seq_post]. wp_step. apply wp_timer. cbn [seq_post t_timer].
  destruct (erase_due _ _ _) as [rest count] eqn:He. apply erase_due_length in He.
  wp_step. apply wp_set_events. cbn [seq_post]. wp_step. apply wp_observe. cbn [seq_post]. apply wp_ret.
  unfold less. simpl. lia.
Qed.

Lemma rearm_section_work now w : wp (rearm_section now) w (less 7 w).
Proof.
  unfold rearm_section, rearm. wp_step. wp_step. apply wp_timer. cbn [seq_post].
  destruct (m_queued_events (t_timer w)) as [|next q] eqn:Hq; [wp_step; cbn [seq_post]; wp_step; unfold less; simpl; lia|].
  destruct (0 <=? _); [|wp_step; cbn [seq_post]; wp_step; unfold less; simpl; lia].
  destruct (next <? now); [wp_step; cbn [seq_post]; unfold less; simpl; lia|].
  wp_step. apply wp_internal_schedule. intros b σ. cbn [seq_post]. wp_step. cbn [seq_post]. wp_step.
  unfold less. simpl. lia.
Qed.

Lemma schedule_section_work delay k w : wp (schedule_section delay k) w (less (5 + caller_rank k) w).
Proof.
  unfold schedule_section, schedule. wp_step. wp_step. cbn [seq_post]. wp_step. wp_step. apply wp_timer.
  cbn [seq_post].
  assert (∀ b w', (queued w' ≤ Datatypes.S (queued w))%nat →
    seq_post (λ ok, after ← get;
      observe (Scheduled (clock (t_os w) / 1000000) delay ok
        (added (m_queued_events (t_timer w)) (m_queued_events (t_timer after))));;
      mret (SchedUnlock k)) (less (5 + caller_rank k) w) (Val b) w') as Hend.
  { intros b w' Hle. cbn [seq_post]. wp_step. wp_step. cbn [seq_post]. wp_step. apply wp_observe.
    cbn [seq_post]. wp_step. unfold less. simpl. lia. }
  destruct (_ <? 0); [wp_step; apply Hend; lia|].
  wp_step. apply wp_tcall. intros now σ _. cbn [seq_post]. wp_step. apply wp_set_events. cbn [seq_post].
  pose proof (multiset_insert_length (u64 (now + delay)) (m_queued_events (t_timer w))) as Hl.
  destruct (if inserted_first _ _ then _ else _); [wp_step; apply Hend; simpl; lia|].
  apply wp_internal_schedule. intros b σ'. apply Hend. simpl. lia.
Qed.

Lemma access_work p ready m s :
  code p = Access ready m →
  wp m s (λ o s', less (timer_rank p) (s_world s) o (s_world s')).
Proof.
  intros Hcode. destruct p as [| | |msg| | | |now c|now c|now c|now|now| |b|b|b v|b|b|d k|d k|k|k|k|k|k|k|b k|k];
    try discriminate; injection Hcode as <- <-.
  - wp_step. wp_step. cbn [seq_post]. apply wp_ret. unfold less. destruct (s_registered s); simpl; lia.
  - apply wp_on_world, read_section_work.
  - destruct c as [|c]; [apply wp_ret; unfold less; simpl; lia|].
    wp_step. apply wp_on_world, wp_observe. cbn [seq_post]. apply wp_ret. unfold less. simpl. lia.
  - apply wp_ret. unfold less. simpl. lia.
  - apply wp_on_world, rearm_section_work.
  - wp_step. apply wp_on_world. unfold is_valid. wp_step. apply wp_timer. cbn [seq_post]. apply wp_ret.
    cbn [seq_post]. apply wp_ret. unfold less. simpl. lia.
  - unfold find_registered. wp_step. wp_step. cbn [seq_post]. wp_step. apply wp_on_world, wp_request.
    cbn [seq_post]. apply wp_ret. unfold less. destruct (s_registered s), b; simpl; lia.
  - wp_step. wp_step. cbn [seq_post]. wp_step. unfold wp at 1. cbn [put_registration fst snd seq_post].
    apply wp_ret. unfold less. destruct b; simpl; lia.
  - apply wp_on_world, schedule_section_work.
  - apply wp_on_world. unfold unschedule_section, unschedule. wp_step. apply wp_timer. cbn [seq_post].
    wp_step. wp_step. apply wp_timer. cbn [seq_post]. wp_step. apply wp_set_events. cbn [seq_post].
    wp_step. cbn [seq_post]. wp_step. apply wp_observe. cbn [seq_post]. apply wp_ret. unfold less. simpl. lia.
  - unfold close_fd. wp_step. apply wp_on_world. unfold close_section. wp_step. apply wp_timer. cbn [seq_post].
    destruct (_ <? 0).
    + apply wp_ret. cbn [seq_post]. wp_step. wp_step. cbn [seq_post]. wp_step.
      unfold wp at 1. cbn [put_registration fst snd seq_post]. apply wp_ret. unfold less. simpl. lia.
    + wp_step. apply wp_tcall. intros ? σ _. cbn [seq_post]. wp_step. apply wp_request. cbn [seq_post].
      wp_step. unfold wp at 1. cbn [set_timer fst snd seq_post]. apply wp_ret. cbn [seq_post].
      wp_step. wp_step. cbn [seq_post]. wp_step. unfold wp at 1. cbn [put_registration fst snd seq_post].
      apply wp_ret. unfold less. simpl. lia.
  - unfold unregister. wp_step. wp_step. cbn [seq_post]. wp_step. apply wp_on_world, wp_request.
    cbn [seq_post]. wp_step. unfold wp at 1. cbn [put_registration fst snd seq_post]. apply wp_ret.
    unfold less. destruct k; simpl; lia.
Qed.

Definition timer_goes_on t t' : Prop := ∃ i, advance i t = Some t'.

Lemma timer_goes_on_work t t' : timer_goes_on t t' → (timer_work t' < timer_work t)%nat.
Proof.
  intros [i Hadv]. unfold advance in Hadv. destruct (dead t); [done|].
  destruct (t_pcs t !! i) as [p|] eqn:Hi; [|done]. simpl in Hadv.
  destruct (sum_list_with_at timer_rank _ _ _ Hi) as (r & Hr & Hins).
  unfold timer_work. rewrite Hr. destruct (code p) as [|next|next|ready m] eqn:Hcode; [done|..].
  - destruct (t_owner t TimerMutex); [done|]. injection Hadv as <-. cbn [t_pcs t_shared]. rewrite Hins.
    enough (timer_rank next < timer_rank p)%nat by lia.
    destruct p; try done; injection Hcode as <-; simpl; lia.
  - injection Hadv as <-. cbn [t_pcs t_shared]. rewrite Hins.
    enough (timer_rank next < timer_rank p)%nat by lia.
    destruct p as [| | |msg| | | |now c|now c|now c|now|now| |b|b|b v|b|b|d k|d k|k|k|k|k|k|k|b k|k];
      try done; injection Hcode as <-; try (destruct k); try (destruct v); try (destruct b); simpl; lia.
  - destruct (ready (t_shared t)); [|done].
    pose proof (access_work p ready m (t_shared t) Hcode) as Hw. unfold wp in Hw.
    destruct (m (t_shared t)) as [o s']. injection Hadv as <-. cbn [fst snd t_pcs t_shared] in *.
    rewrite Hins. unfold less in Hw. destruct o; simpl in *; lia.
Qed.

(** * When nobody goes on *)

Section rest.
Context (closes : bool) (apps : nat).

(** A thread that holds the mutex can always go on: [read] returns, because a timer
    that has been reported is still set. *)
Lemma holder_goes_on t i p :
  tinv closes apps t → t_pcs t !! i = Some p → holds TimerMutex p = true → is_Some (advance i t).
Proof.
  intros Hinv Hi Hh. unfold advance. rewrite (inv_alive _ _ t Hinv), Hi. simpl.
  pose proof (inv_pcs _ _ t Hinv i p Hi) as Hp.
  assert (∀ ready (m : M S pc), ready (t_shared t) = true →
    is_Some (if ready (t_shared t) then
        let '(o, s) := m (t_shared t) in
        Some (mkTimers s (t_owner t)
          (<[i := match o with Val next => next | _ => Aborted (abort_message o) end]> (t_pcs t)))
      else None)) as Hacc.
  { intros ready m ->. destruct (m (t_shared t)). by eexists. }
  destruct p; try done; simpl; try (by eexists); try (by apply (Hacc (λ _, true))).
  apply Hacc. unfold readable. destruct (fd_open (t_shared t)) eqn:Ho; [|done].
  by apply bool_decide_eq_true, (pc_set _ _ _ Hp).
Qed.

(** While the mutex is free, every thread that is not at rest goes on. *)
Lemma free_goes_on t i p :
  tinv closes apps t → t_owner t TimerMutex = None → t_pcs t !! i = Some p → at_rest p = false →
  is_Some (advance i t).
Proof.
  intros Hinv Hfree Hi Hp. destruct (holds TimerMutex p) eqn:Hh; [by apply (holder_goes_on t i p)|].
  unfold advance. rewrite (inv_alive _ _ t Hinv), Hi. simpl.
  destruct p; try done; simpl; rewrite ?Hfree; try (by eexists).
  - exfalso. assert (dead t = true) as Hd; [|by rewrite (inv_alive _ _ t Hinv) in Hd].
    apply existsb_exists. eexists. split; [by eapply list_elem_of_In, (list_elem_of_lookup_2 _ i)|done].
  - destruct (_ : outcome pc * S) as [o s']. by eexists.
Qed.

Lemma timer_rests t :
  tinv closes apps t → (∀ t', ¬ timer_goes_on t t') → Forall (λ p, at_rest p = true) (t_pcs t).
Proof.
  intros Hinv Hrest.
  assert (∀ i, ¬ is_Some (advance i t)) as Hnone.
  { intros i [t' Hadv]. apply (Hrest t'). by exists i. }
  assert (t_owner t TimerMutex = None) as Hfree.
  { destruct (lock_free holds _ _ TimerMutex (inv_lock _ _ t Hinv)) as [Ho|(i & p & Hi & Hh)]; [done|].
    destruct (Hnone i). by apply (holder_goes_on t i p). }
  apply Forall_lookup. intros i p Hi. apply not_false_iff_true. intros Hp. apply (Hnone i).
  by apply (free_goes_on t i p).
Qed.

(** A count of threads that are on their way. *)
Lemma rest_sum (f : pc → nat) qs :
  Forall (λ q, at_rest q = true) qs → f Idle = 0%nat → f Poll = 0%nat → f Exited = 0%nat →
  sum_list_with f qs = 0%nat.
Proof.
  intros Hrest Hi Hp He. induction Hrest as [|q qs Hq _ IH]; simpl; [done|].
  rewrite IH. destruct q; try done; lia.
Qed.

(** * Properties *)

(** C11: whatever the interleaving of workers, [schedule], [unschedule] and
    [close_socket], every deadline leads to one call of [on_time_event], and never
    early: the deadlines that calls of [schedule] have queued, none before its delay
    has passed, are those that wake-ups have taken out, those that [unschedule]
    removed and those still queued; a deadline is taken out when its time has come;
    and there have been as many calls of [on_time_event] as deadlines taken out, but
    for those that a worker is about to make. Until the timer is closed, no call
    of [schedule] is refused. Times are those of a clock that nobody sets. *)
Theorem timer_fires_each_once workers w t :
  new_timer w → treach closes false (registering apps workers w) t → dead t = false →
  let w' := s_world (t_shared t) in
  accepted (t_user w') ≡ₚ taken (t_user w') ++ dropped (t_user w') ++ m_queued_events (t_timer w') ∧
  Forall sound (t_user w') ∧
  Forall (λ d, d ≤ clock (t_os w') / 1000000) (taken (t_user w')) ∧
  length (taken (t_user w')) = (fired (t_user w') + sum_list_with in_flight (t_pcs t))%nat ∧
  (0 ≤ m_fd (t_timer w') → rejected (t_user w') = 0%nat).
Proof.
  intros Hw Hreach Hd. destruct (timers_reach_inv closes apps workers w t Hw Hreach) as [[[Hd' _]|Hinv] _];
    [congruence|]. destruct (ok_history _ _ _ _ (inv_shared _ _ t Hinv)) as (Hp & Ht & Hf & Hs & Ho).
  by split_and!.
Qed.

(** C12: no wake-up is lost between threads: whenever all threads rest and the timer
    has not been closed, the event loop has the listener and watches its timerfd,
    every worker waits for events, the calls of [on_time_event] that were due have
    been made, and if deadlines are queued the timerfd is set, not to go off before
    the first of them. The clock is one that nobody sets. *)
Theorem timer_rests_watched workers w t :
  new_timer w → treach closes false (registering apps workers w) t →
  Forall (λ p, at_rest p = true) (t_pcs t) → 0 ≤ m_fd (t_timer (s_world (t_shared t))) →
  let s := t_shared t in
  s_registered s = true ∧ s_interest s = Armed ∧
  (∀ i, (apps < i ≤ apps + workers)%nat → t_pcs t !! i = Some Poll) ∧
  length (taken (t_user (s_world s))) = fired (t_user (s_world s)) ∧
  match m_queued_events (t_timer (s_world s)) with
  | [] => True
  | next :: _ => ∃ e, pending (t_os (s_world s)) = Some e ∧ next * 1000000 ≤ e
  end.
Proof.
  intros Hw Hreach Hrest Hfd.
  destruct (timers_reach_inv closes apps workers w t Hw Hreach) as [[[Hd _]|Hinv] Hlen].
  { apply existsb_exists in Hd as (p & Hp & Ha). apply list_elem_of_In in Hp.
    rewrite Forall_forall in Hrest. specialize (Hrest p Hp). by destruct p. }
  pose proof (inv_shared _ _ t Hinv) as Hok.
  assert (fd_open (t_shared t) = true) as Ho by (by apply fd_open_spec).
  pose proof (λ f, rest_sum f _ Hrest) as Hsum.
  rewrite !Hsum in Hok by done. split_and!.
  - by apply Hok.
  - pose proof (ok_watched _ _ _ _ Hok Ho) as Ha. unfold armed in Ha. by case_decide.
  - intros i Hi. destruct (lookup_lt_is_Some_2 (t_pcs t) i) as [p Hp]; [lia|].
    pose proof (inv_roles _ _ t Hinv i p Hp) as Hr. rewrite bool_decide_true in Hr by lia.
    rewrite Forall_lookup in Hrest. specialize (Hrest i p Hp).
    pose proof (pc_self _ _ _ (inv_pcs _ _ t Hinv i p Hp)) as Hs. destruct p; try done. simpl in Hs. congruence.
  - destruct (ok_history _ _ _ _ Hok) as (_ & _ & Hf & _). lia.
  - by apply (ok_set _ _ _ _ Hok).
Qed.

(** C13: the threads never block each other for ever: once no further calls are
    made and no further events arrive, every execution is finite, with a bound that
    is known in advance, and ends with every call and every wake-up returned; the
    process is never aborted, unless the timer is closed from outside of
    [on_time_event]. This takes a clock that nobody sets (the second flag of
    [treach], and [SteadyClock] for the time of a call): [timer_races] shows what
    happens when it is set back. *)
Theorem timer_threads_finish workers w t :
  new_timer w → treach closes false (registering apps workers w) t →
  ∀ k t', nsteps timer_goes_on k t t' →
    (k ≤ timer_work t)%nat ∧
    (dead t' = true → closes = true) ∧
    (dead t' = true ∨ (∃ t'', timer_goes_on t' t'') ∨ Forall (λ p, at_rest p = true) (t_pcs t')).
Proof.
  intros Hw Hreach k t' Hsteps.
  assert (treach closes false (registering apps workers w) t' ∧ (k + timer_work t' ≤ timer_work t)%nat) as [Hreach' Hk].
  { induction Hsteps as [t|k t t1 t2 Hs _ IH]; [by split; [|lia]|].
    pose proof (timer_goes_on_work _ _ Hs). destruct IH as [? ?]; [|split; [done|lia]].
    destruct Hs as [i Hadv]. eapply treach_step; [done|]. by eapply tstep_run. }
  split; [lia|].
  destruct (timers_reach_inv closes apps workers w t' Hw Hreach') as [[[Hd' Hc]|Hinv] _]; [by auto|].
  split; [rewrite (inv_alive _ _ t' Hinv); done|right].
  destruct (decide (Exists (λ i, is_Some (advance i t')) (seq 0 (length (t_pcs t'))))) as [Hex|Hno].
  - left. apply Exists_exists in Hex as (i & _ & t'' & Hadv). by exists t'', i.
  - right. apply timer_rests; [done|]. intros t'' [i Hadv]. apply Hno, Exists_exists. exists i. split; [|by eexists].
    apply elem_of_seq. split; [lia|]. simpl. unfold advance in Hadv. destruct (dead t'); [done|].
    destruct (t_pcs t' !! i) eqn:Hi; [|done]. by eapply lookup_lt_Some.
Qed.
End rest.
End live.

(** * Following a schedule *)

Section schedules.
Context {Σ : Type} `{SteadyClock Σ}.

Definition choice_ok (closes settable : bool) (c : choice Σ) : bool :=
  match c with
  | Call i (CallSchedule delay) => (0 <=? delay) && (delay <? MAX_DELAY)
  | Call i CallClose => closes
  | SetClock _ => settable
  | _ => true
  end.

Lemma timer_choose_step closes settable c (t t' : timers Σ) :
  choice_ok closes settable c = true → choose c t = Some t' → tstep closes settable t t'.
Proof.
  intros Hok Hc. destruct c as [i|i|i c|σ|σ]; simpl in Hc.
  - by eapply tstep_run.
  - destruct (t_pcs t !! i) as [[]|] eqn:Hi; try done.
    destruct (s_interest (t_shared t)) eqn:Ha; try done. destruct (pending _) as [e|] eqn:He; [|done].
    destruct (dead t) eqn:Hd; [done|]. destruct (e <=? _) eqn:Hle; [|done]. injection Hc as <-.
    apply tstep_event; [done..|]. split; [done|]. exists e. by bool_to_prop.
  - destruct (dead t) eqn:Hd; [done|]. destruct (t_pcs t !! i) as [p|] eqn:Hi; [|done]. simpl in Hc.
    destruct (user_code p) as [k|] eqn:Hk; [|done]. injection Hc as <-. apply (tstep_call _ _ _ _ p); [done..|].
    destruct c; simpl in Hok |- *; [|done|by left]. bool_to_prop. lia.
  - destruct (_ <=? _) eqn:Hle; [|done]. case_bool_decide; [|done]. injection Hc as <-. bool_to_prop.
    by apply tstep_time.
  - case_bool_decide; [|done]. injection Hc as <-. by apply tstep_set.
Qed.

Lemma timer_play_reach closes settable cs (t0 t t' : timers Σ) :
  forallb (choice_ok closes settable) cs = true → treach closes settable t0 t → play cs t = Some t' →
  treach closes settable t0 t'.
Proof.
  revert t. induction cs as [|c cs IH]; simpl; intros t Hok Hreach Hplay; [by injection Hplay as <-|].
  apply andb_true_iff in Hok as [Hc Hok]. destruct (choose c t) as [t1|] eqn:Hstep; [|done]. simpl in Hplay.
  apply (IH t1); [done| |done]. eapply treach_step; [done|]. by apply (timer_choose_step closes settable c).
Qed.

(** A schedule that can be followed to a state with [P]. *)
Lemma timer_played closes settable cs (t0 : timers Σ) (P : timers Σ → bool) :
  forallb (choice_ok closes settable) cs = true →
  match play cs t0 with Some t => P t | None => false end = true →
  ∃ t, treach closes settable t0 t ∧ P t = true.
Proof.
  intros Hok Hp. destruct (play cs t0) as [t|] eqn:Hplay; [|done]. exists t. split; [|done].
  apply (timer_play_reach closes settable cs t0 t0); [done|constructor|done].
Qed.
End schedules.

(** * Concrete interleavings *)

(** A timer at 1000 ms, with the clock at [ms] and set for [e]. *)
Definition sample_timer : tworld simtime (list note) :=
  mkTWorld {| sim_clock := 1000000000; sim_pending := None; sim_loop := true |} []
    {| m_fileno := 5; m_fd := 5; m_queued_events := [] |} [].

Lemma sample_timer_new : new_timer sample_timer.
Proof. by split. Qed.

Definition at_ms (ms : Z) (e : option Z) : choice simtime :=
  Time {| sim_clock := ms * 1000000; sim_pending := e; sim_loop := true |}.

Definition set_ms (ms : Z) : choice simtime :=
  SetClock {| sim_clock := ms * 1000000; sim_pending := None; sim_loop := true |}.

Definition go (i n : nat) : list (choice simtime) := replicate n (Go i).

(** Thread 0 has registered the timer, thread 1 called [schedule(100)], the timer
    expires and worker 2 has looked the listener up. *)
Definition woken_up : list (choice simtime) :=
  go 0 5 ++ [Call 1 (CallSchedule 100)] ++ go 1 3 ++
  [at_ms 1100 (Some 1100000000); Event 2] ++ go 2 1.

(** It calls [on_time_event], which schedules again, and waits for events. *)
Definition fires_and_rests : list (choice simtime) :=
  woken_up ++ go 2 4 ++ [Call 2 (CallSchedule 50)] ++ go 2 13.

Definition rests_with (deadline : Z) (count : nat) (t : timers simtime) : bool :=
  forallb at_rest (t_pcs t) && (fired (t_user (s_world (t_shared t))) =? count)%nat &&
  bool_decide (m_queued_events (t_timer (s_world (t_shared t))) = [deadline]) &&
  negb (dead t) && (0 <=? m_fd (t_timer (s_world (t_shared t)))).

Lemma sample_rests :
  ∃ t, treach false false (registering 1 1 sample_timer) t ∧ rests_with 1150 1 t = true.
Proof. apply (timer_played false false fires_and_rests); by vm_compute. Qed.

(** A worker is in [read] with the mutex locked; the timer will expire in more than
    [ms] milliseconds; thread [i] waits for the mutex to close it. *)
Definition stuck_in_read (ms : Z) (i : nat) (t : timers simtime) : bool :=
  match t_owner t TimerMutex with
  | Some j => match t_pcs t !! j with Some Read => true | _ => false end
  | None => false
  end &&
  match pending (t_os (s_world (t_shared t))) with
  | Some e => clock (t_os (s_world (t_shared t))) + ms * 1000000 <? e
  | None => false
  end &&
  match t_pcs t !! i with Some (CloseLock _) => true | _ => false end.

(** C31: what goes wrong between threads. When the timer is closed while a worker is
    on its way to [on_read_ready], the worker reads from descriptor -1 and aborts
    the process. And when the deadline that woke the worker is taken back and a
    later one scheduled instead, the worker sits in [read] until that one, with
    [m_mutex] locked: nobody can schedule, or close the timer, for seconds. And when
    the clock is set back while a worker makes its callbacks, and somebody calls
    [schedule], the worker finds a deadline before the time at which it was woken
    up, and aborts the process, although nobody closes the timer. *)
Theorem timer_races :
  (∃ t, treach true false (registering 1 1 sample_timer) t ∧ dead t = true) ∧
  (∃ t, treach true false (registering 1 1 sample_timer) t ∧ stuck_in_read 9000 1 t = true) ∧
  (∃ t, treach false true (registering 1 1 sample_timer) t ∧ dead t = true).
Proof.
  split_and!.
  - apply (timer_played true false (woken_up ++ [Call 1 CallClose] ++ go 1 3 ++ go 2 2)); by vm_compute.
  - apply (timer_played true false (woken_up ++ [Call 1 CallUnschedule] ++ go 1 3 ++
      [Call 1 (CallSchedule 10000)] ++ go 1 3 ++ go 2 1 ++ [Call 1 CallClose])); by vm_compute.
  - apply (timer_played false true (woken_up ++ go 2 4 ++ [set_ms 500] ++ [Call 1 (CallSchedule 100)] ++ go 1 3 ++
      go 2 4)); by vm_compute.
Qed.

(** ** Witnesses *)

Lemma timer_fires_each_once_witness :
  ∃ t, treach false false (registering 1 1 sample_timer) t ∧
    length (taken (t_user (s_world (t_shared t)))) = 1%nat.
Proof.
  destruct sample_rests as (t & Hreach & Hp). exists t. split; [done|].
  unfold rests_with in Hp. rewrite !andb_true_iff in Hp.
  destruct Hp as [[[[Hr Hf%Nat.eqb_eq] _] Hd%negb_true_iff] _].
  destruct (timer_fires_each_once false 1 1 sample_timer t sample_timer_new Hreach Hd) as (_ & _ & _ & -> & _).
  rewrite Hf. clear -Hr. induction (t_pcs t) as [|p pcs IH]; [done|].
  simpl in *. apply andb_true_iff in Hr as [Hp Hr]. destruct p; try done; by apply IH.
Defined.

Lemma timer_rests_watched_witness :
  ∃ t, treach false false (registering 1 1 sample_timer) t ∧ s_interest (t_shared t) = Armed ∧
    ∃ e, pending (t_os (s_world (t_shared t))) = Some e ∧ 1150 * 1000000 ≤ e.
Proof.
  destruct sample_rests as (t & Hreach & Hp). exists t. split; [done|].
  unfold rests_with in Hp. rewrite !andb_true_iff in Hp.
  destruct Hp as [[[[Hr _] Hq%bool_decide_eq_true] _] Ho%Z.leb_le].
  rewrite forallb_forall in Hr.
  assert (Forall (λ p, at_rest p = true) (t_pcs t)) as Hall
    by (apply Forall_forall; intros p Hp; by apply Hr, list_elem_of_In).
  destruct (timer_rests_watched false 1 1 sample_timer t sample_timer_new Hreach Hall Ho) as (_ & Ha & _ & _ & Hs).
  split; [done|]. by rewrite Hq in Hs.
Defined.

(** From the moment the worker has been woken up. *)
Lemma timer_threads_finish_witness :
  ∃ t, treach false false (registering 1 1 sample_timer) t ∧ t_pcs t = [Idle; Idle; ReadLock] ∧
    ∀ k t', nsteps timer_goes_on k t t' → (k ≤ 15)%nat ∧ dead t' = false ∧
      ((∃ t'', timer_goes_on t' t'') ∨ Forall (λ p, at_rest p = true) (t_pcs t')).
Proof.
  destruct (timer_played false false woken_up (registering 1 1 sample_timer)
    (λ t, bool_decide (timer_work t = 15%nat ∧ t_pcs t = [Idle; Idle; ReadLock]))) as (t & Hreach & Hp); [by vm_compute..|].
  apply bool_decide_eq_true in Hp as [Hk Hpcs]. exists t. split; [done|]. split; [done|]. intros k t' Hsteps.
  destruct (timer_threads_finish false 1 1 sample_timer t sample_timer_new Hreach k t' Hsteps) as (Hle & Hd & Hend).
  rewrite Hk in Hle. split; [done|]. destruct (dead t'); [by specialize (Hd eq_refl)|].
  split; [done|]. by destruct Hend as [|].
Defined.
