(* ===== verification/TimerThreadsSolo.v ===== *)
(** Threads on one timer (TimerThreads.v): when no other thread interferes, every
    call and every wake-up runs as the sequential model of Timer.v says. *)
From stdpp Require Import relations.
From S2P Require Import Prelude Machine Timer Mutex TimerThreads TimerThreadsProps TimerThreadsLive.
Local Open Scope Z_scope.

Section solo.
Context {Σ : Type} `{TimerLaws Σ}.
Abbreviation W := (tworld Σ (list note)).
Abbreviation S := (shared Σ).
Implicit Types (w : W) (s : S) (p next : pc) (t : timers Σ) (u : list note).

(** * Calls do not look at what has been noted *)

Definition with_user u w : W := mkTWorld (t_os w) (t_requests w) (t_timer w) u.

Definition blind {A} (m : M W A) : Prop := ∀ w u, m (with_user u w) = ((m w).1, with_user u (m w).2).

Lemma blind_ret {A} (a : A) : blind (mret a).
Proof. done. Qed.

Lemma blind_bind {A B} (m : M W A) (k : A → M W B) : blind m → (∀ a, blind (k a)) → blind (m ≫= k).
Proof.
  intros Hm Hk w u. unfold mbind, M_bind. rewrite (Hm w u).
  destruct (m w) as [[a|e|h] w']; simpl; [apply Hk|done..].
Qed.

Lemma blind_timer : blind timer.
Proof. done. Qed.
Lemma blind_set_timer l : blind (set_timer l).
Proof. done. Qed.
Lemma blind_tcall {A} (f : Σ → A * Σ) : blind (tcall f).
Proof. intros w u. unfold tcall. cbn. by destruct (f (t_os w)). Qed.
Lemma blind_request r : blind (request_loop r).
Proof. done. Qed.
Lemma blind_fatal {A} msg : blind (fatal (A := A) msg).
Proof. done. Qed.
Lemma blind_throw {A} e : blind (throw (A := A) e).
Proof. done. Qed.
End solo.

Create HintDb blind.
#[export] Hint Resolve blind_ret blind_timer blind_set_timer blind_tcall blind_request blind_fatal
  blind_throw : blind.

(** Follow the text of a call. *)
Ltac solve_blind :=
  repeat (first
    [ solve [eauto with blind]
    | apply blind_bind; [|intros ?]
    | match goal with
      | |- blind (if ?b then _ else _) => destruct b
      | |- blind (match ?x with _ => _ end) => destruct x
      | |- blind (when ?b _) => destruct b; unfold when
      end ]).

Section calls.
Context {Σ : Type} `{TimerLaws Σ} (initialized : ∀ σ : Σ, loop_initialized σ = true).
Abbreviation W := (tworld Σ (list note)).
Abbreviation S := (shared Σ).
Implicit Types (w : W) (s : S) (p next : pc) (t : timers Σ) (u : list note).

Lemma schedule_blind delay : blind (schedule (Σ := Σ) delay).
Proof. unfold schedule, set_events, get_current_time, internal_schedule. solve_blind. Qed.

Lemma unschedule_blind : blind (unschedule (Σ := Σ)).
Proof. unfold unschedule, set_events. solve_blind. Qed.

Lemma close_blind : blind (close_socket (Σ := Σ)).
Proof. unfold close_socket. solve_blind. Qed.

Lemma rearm_blind now : blind (rearm (Σ := Σ) now).
Proof. unfold rearm, internal_schedule. solve_blind. Qed.

(** What [on_time_event] does: some calls. *)
Definition do_call (c : call) : M W unit :=
  match c with
  | CallSchedule delay => schedule delay;; mret tt
  | CallUnschedule => unschedule;; mret tt
  | CallClose => close_socket
  end.

Fixpoint do_calls (cs : list call) : M W unit :=
  match cs with
  | [] => mret tt
  | c :: cs => do_call c;; do_calls cs
  end.

Lemma do_calls_blind cs : blind (do_calls cs).
Proof.
  induction cs as [|c cs IH]; [done|]. apply blind_bind; [|done].
  destruct c; [apply blind_bind; [apply schedule_blind|done]|apply blind_bind; [apply unschedule_blind|done]|apply close_blind].
Qed.

Lemma repeat_call_blind n cs : blind (repeat_call n (do_calls cs)).
Proof. induction n as [|n IH]; [done|]. apply blind_bind; [apply do_calls_blind|done]. Qed.

(** The same but for what has been noted. *)
Definition same w w' : Prop := with_user [] w = with_user [] w'.

Lemma same_user w w' : same w w' → w' = with_user (t_user w') w.
Proof. destruct w, w'. intros Hs. injection Hs as -> -> ->. done. Qed.

Lemma blind_same {A} (m : M W A) w w' : blind m → same w w' → (m w).1 = (m w').1 ∧ same (m w).2 (m w').2.
Proof. intros Hm Hs. rewrite (same_user w w' Hs), (Hm w). done. Qed.

(** * One thread that goes on alone *)

Definition alone p s t : Prop :=
  t_shared t = s ∧ t_pcs t = [p] ∧ is_aborted p = false ∧
  t_owner t TimerMutex = if holds TimerMutex p then Some 0%nat else None.

(** From [p] and [s] it can come to [p'] and [s']. *)
Definition walk p s p' s' : Prop :=
  ∀ t, alone p s t → ∃ t', rtc (tstep true false) t t' ∧ alone p' s' t'.

Lemma timer_walk_refl p s : walk p s p s.
Proof. intros t Ht. by exists t. Qed.

Lemma timer_walk_trans p1 s1 p2 s2 p3 s3 : walk p1 s1 p2 s2 → walk p2 s2 p3 s3 → walk p1 s1 p3 s3.
Proof.
  intros H12 H23 t Ht. destruct (H12 t Ht) as (t2 & Hr & Ht2).
  destruct (H23 t2 Ht2) as (t3 & Hr' & Ht3). exists t3. split; [by etransitivity|done].
Qed.

Lemma alone_alive p s t : alone p s t → dead t = false.
Proof. intros (_ & Hp & Ha & _). unfold dead. rewrite Hp. simpl. by rewrite Ha. Qed.

Lemma walk_to p s t next s' owner :
  alone p s t → advance 0 t = Some (mkTimers s' owner (<[0%nat := next]> (t_pcs t))) →
  is_aborted next = false → owner TimerMutex = (if holds TimerMutex next then Some 0%nat else None) →
  ∃ t', rtc (tstep true false) t t' ∧ alone next s' t'.
Proof.
  intros (_ & Hp & _ & _) Hadv Ha Ho. eexists. split; [by eapply rtc_once, tstep_run|].
  by split_and!; [|cbn; rewrite Hp| |].
Qed.

Lemma timer_walk_acquire p s next :
  code (Σ := Σ) p = Acquire next → is_aborted next = false → holds TimerMutex p = false →
  holds TimerMutex next = true → walk p s next s.
Proof.
  intros Hc Ha Hh Hn t Ht. pose proof (alone_alive _ _ _ Ht) as Hd. pose proof Ht as (Hs & Hp & _ & Ho).
  eapply walk_to; [done| |done|].
  - unfold advance. rewrite Hd, Hp. simpl. rewrite Hc, Ho, Hh, Hs. done.
  - by rewrite Hn.
Qed.

Lemma timer_walk_release p s next :
  code (Σ := Σ) p = Release next → is_aborted next = false → holds TimerMutex next = false → walk p s next s.
Proof.
  intros Hc Ha Hn t Ht. pose proof (alone_alive _ _ _ Ht) as Hd. pose proof Ht as (Hs & Hp & _ & Ho).
  eapply walk_to; [done| |done|].
  - unfold advance. rewrite Hd, Hp. simpl. rewrite Hc, Hs. done.
  - by rewrite Hn.
Qed.

Lemma timer_walk_access p s ready m next s' :
  code p = Access ready m → ready s = true → m s = (Val next, s') → is_aborted next = false →
  holds TimerMutex next = holds TimerMutex p → walk p s next s'.
Proof.
  intros Hc Hr Hm Ha Hn t Ht. pose proof (alone_alive _ _ _ Ht) as Hd. pose proof Ht as (Hs & Hp & _ & Ho).
  eapply walk_to; [done| |done|].
  - unfold advance. rewrite Hd, Hp. simpl. rewrite Hc, Hs, Hr, Hm. done.
  - by rewrite Hn.
Qed.

Lemma timer_walk_call p s k c :
  user_code p = Some k → allowed true c k → walk p s (enter c k) s.
Proof.
  intros Hk Hc t Ht. pose proof (alone_alive _ _ _ Ht) as Hd. pose proof Ht as (Hs & Hp & _ & Ho).
  eexists. split; [eapply rtc_once, (tstep_call _ _ _ 0%nat p k c); [done|by rewrite Hp|done|done]|].
  split_and!; [done|cbn; by rewrite Hp|by destruct c|]. cbn. rewrite Ho. destruct p; try done; by destruct c.
Qed.

(** * The calls *)

Definition fits (c : call) : Prop := match c with CallSchedule delay => 0 ≤ delay < MAX_DELAY | _ => True end.

Lemma fits_allowed c k : fits c → allowed true c k.
Proof. destruct c; [done..|by left]. Qed.

Lemma schedule_returns delay w : ∃ b w', schedule delay w = (Val b, w').
Proof.
  unfold schedule, get_current_time, set_events, internal_schedule, timer, set_timer, tcall, mbind, M_bind, mret, M_ret.
  repeat case_match; simplify_eq; eauto.
Qed.

(** A critical section that is one call of the sequential model. *)
Lemma walk_section (lock at_ unlock after : pc) (m : M W pc) s w' :
  code lock = Acquire at_ → code at_ = at_once (on_world m) → code (Σ := Σ) unlock = Release after →
  is_aborted at_ = false → is_aborted unlock = false → is_aborted after = false →
  holds TimerMutex lock = false → holds TimerMutex at_ = true → holds TimerMutex unlock = true →
  holds TimerMutex after = false → m (s_world s) = (Val unlock, w') →
  walk lock s after (mkShared w' (s_registered s) (s_interest s)).
Proof.
  intros Hl Ha Hu ? ? ? Hhl Hha Hhu Hhn Hm.
  eapply timer_walk_trans; [by apply (timer_walk_acquire lock s at_)|].
  eapply timer_walk_trans; [eapply (timer_walk_access at_ s _ _ unlock (mkShared w' (s_registered s) (s_interest s)) Ha);
    [done|unfold on_world; by rewrite Hm|done|by rewrite Hhu]|].
  by apply timer_walk_release.
Qed.

Lemma back_fits k : is_aborted (back k) = false ∧ holds TimerMutex (back k) = false.
Proof. by destruct k. Qed.

(** A call runs as in the sequential model, and returns to where it was made. *)
Lemma call_alone c k s :
  fits c → ∃ s', walk (enter c k) s (back k) s' ∧ (do_call c (s_world s)).1 = Val tt ∧
    same (s_world s') (do_call c (s_world s)).2.
Proof.
  intros Hc. destruct (back_fits k) as [Hb Hhb]. destruct c as [delay| |]; simpl.
  - destruct (schedule_returns delay (s_world s)) as (b & w' & Hrun).
    eexists. split; [eapply (walk_section _ (Sched delay k) (SchedUnlock k)); try done;
      unfold schedule_section, mbind, M_bind, get; rewrite Hrun; done|].
    unfold mbind, M_bind. rewrite Hrun. done.
  - eexists. split; [eapply (walk_section _ (Unsched k) (UnschedUnlock k)); done|]. done.
  - unfold close_socket, mbind, M_bind, timer. destruct (m_fd (t_timer (s_world s)) <? 0) eqn:Hfd.
    + exists (mkShared (s_world s) (s_registered s) Absent). split; [|done].
      eapply timer_walk_trans; [by apply (timer_walk_acquire (CloseLock k) s (Close k))|].
      eapply timer_walk_trans; [|by apply (timer_walk_release (CloseUnlock false k))].
      eapply timer_walk_access; [done|done| |done|done].
      unfold close_fd, on_world, close_section, mbind, M_bind, timer, get, put_registration, fd_open. rewrite Hfd.
      cbn. rewrite (proj2 (Z.leb_gt 0 (m_fd (t_timer (s_world s))))); [done|by bool_to_prop].
    + cbn. rewrite initialized. cbn. eexists. split.
      * eapply timer_walk_trans; [by apply (timer_walk_acquire (CloseLock k) s (Close k))|].
        eapply timer_walk_trans; [eapply (timer_walk_access _ _ _ _ (CloseUnlock true k)); [done|done| |done|done];
          unfold close_fd, on_world, close_section, mbind, M_bind, timer, get, put_registration, fd_open; rewrite Hfd; reflexivity|].
        eapply timer_walk_trans; [by apply (timer_walk_release (CloseUnlock true k) _ (CloseUnreg k))|].
        eapply timer_walk_access; [done|done|reflexivity|done|by rewrite Hhb].
      * done.
Qed.

Lemma calls_alone cs p k s :
  user_code p = Some k → Forall fits cs →
  ∃ s', walk p s p s' ∧ (do_calls cs (s_world s)).1 = Val tt ∧ same (s_world s') (do_calls cs (s_world s)).2.
Proof.
  intros Hk Hcs. assert (back k = p) as Hb by (destruct p; try done; by injection Hk as <-).
  revert s. induction Hcs as [|c cs Hc _ IH]; intros s; [by exists s; split; [apply timer_walk_refl|]|].
  destruct (call_alone c k s Hc) as (s1 & Hw1 & Ho1 & Hs1). destruct (IH s1) as (s2 & Hw2 & Ho2 & Hs2).
  exists s2. simpl. unfold mbind, M_bind. destruct (do_call c (s_world s)) as [o w1]. simpl in *. subst o.
  destruct (blind_same (do_calls cs) (s_world s1) w1) as [Ho Hs]; [apply do_calls_blind|done|].
  split; [|rewrite <- Ho; split; [done|exact (eq_trans Hs2 Hs)]].
  eapply timer_walk_trans; [by apply (timer_walk_call p s k c), fits_allowed|].
  eapply timer_walk_trans; [exact Hw1|]. by rewrite Hb.
Qed.

(** * A wake-up *)

(** The callbacks of a wake-up. *)
Lemma fires_alone now n cs s :
  Forall fits cs →
  ∃ s', walk (Fire now n) s (Fire now 0) s' ∧ (repeat_call n (do_calls cs) (s_world s)).1 = Val tt ∧
    same (s_world s') (repeat_call n (do_calls cs) (s_world s)).2.
Proof.
  intros Hcs. revert s. induction n as [|n IH]; intros s; [by exists s; split; [apply timer_walk_refl|]|].
  set (s1 := mkShared (with_user (t_user (s_world s) ++ [Fired]) (s_world s)) (s_registered s) (s_interest s)).
  destruct (calls_alone cs (Callback now n) (FromEvent now n) s1 eq_refl Hcs) as (s2 & Hw2 & Ho2 & Hs2).
  destruct (IH s2) as (s3 & Hw3 & Ho3 & Hs3). exists s3. simpl. unfold mbind, M_bind.
  destruct (blind_same (do_calls cs) (s_world s1) (s_world s)) as [Ho Hs]; [apply do_calls_blind|done|].
  destruct (do_calls cs (s_world s)) as [o w2]. simpl in *. rewrite Ho in Ho2. subst o.
  destruct (blind_same (repeat_call n (do_calls cs)) (s_world s2) w2) as [Ho' Hs']; [apply repeat_call_blind|exact (eq_trans Hs2 Hs)|].
  split; [|rewrite <- Ho'; split; [done|exact (eq_trans Hs3 Hs')]].
  eapply timer_walk_trans; [by eapply (timer_walk_access (Fire now (Datatypes.S n)) s _ _ (Callback now n) s1)|].
  eapply timer_walk_trans; [exact Hw2|].
  eapply timer_walk_trans; [by eapply (timer_walk_access (Callback now n) s2 _ _ (Fire now n) s2)|]. exact Hw3.
Qed.

(** The end of a wake-up. *)
Lemma rearm_alone now s :
  (rearm now (s_world s)).1 = Val tt →
  ∃ s', walk (Fire now 0) s (RegLock false) s' ∧ same (s_world s') (rearm now (s_world s)).2.
Proof.
  intros Ho. destruct (rearm now (s_world s)) as [o w'] eqn:Hrun. simpl in *. subst o.
  exists (mkShared w' (s_registered s) (s_interest s)). split; [|done].
  eapply timer_walk_trans; [by eapply (timer_walk_access (Fire now 0) s _ _ (RearmLock now) s)|].
  eapply (walk_section _ (Rearm now) ReadEnd); try done.
  unfold rearm_section, mbind, M_bind. by rewrite Hrun.
Qed.

(** [on_read_ready], from its first critical section on. *)
Lemma on_read_ready_split cb w :
  on_read_ready cb w =
  match read_section w with
  | (Val (ReadUnlock now count), w') => (repeat_call count cb;; rearm now) (with_user (t_user w) w')
  | (Val _, w') => (Val tt, w')
  | (Exn e, w') => (Exn e, w')
  | (Halt h, w') => (Halt h, w')
  end.
Proof.
  unfold on_read_ready, read_section, get_current_time, tcall, timer, set_events, set_timer, observe, mbind, M_bind.
  cbn. destruct (timer_read _ _) as [[buf|] σ]; [|done]. cbn. destruct (buf =? 1); [|done].
  destruct (system_now _) as [now σ']. cbn. by destruct (erase_due _ _ _) as [rest count].
Qed.

Lemma read_section_next w next w' :
  read_section w = (Val next, w') → next = ReadEnd ∨ ∃ now count, next = ReadUnlock now count.
Proof.
  unfold read_section, get_current_time, tcall, timer, set_events, set_timer, observe, mbind, M_bind.
  cbn. destruct (timer_read _ _) as [[buf|] σ]; [|done]. cbn. destruct (buf =? 1); cbn.
  - destruct (system_now _) as [now σ']. cbn. destruct (erase_due _ _ _) as [rest count].
    intros [= <- _]. right. eauto.
  - intros [= <- _]. by left.
Qed.

Lemma wake_up_alone cs s :
  Forall fits cs → s_registered s = true → readable s = true →
  (on_read_ready (do_calls cs) (s_world s)).1 = Val tt →
  ∃ s', walk Find s (RegLock false) s' ∧ same (s_world s') (on_read_ready (do_calls cs) (s_world s)).2.
Proof.
  intros Hcs Hreg Hready. rewrite on_read_ready_split.
  destruct (read_section (s_world s)) as [[next|e|h] w'] eqn:Hrun; [|done..].
  pose proof (read_section_next _ _ _ Hrun) as Hnext.
  set (s1 := mkShared w' (s_registered s) (s_interest s)).
  assert (walk Find s next s1) as Hread.
  { eapply timer_walk_trans; [eapply (timer_walk_access Find s _ _ ReadLock s); [done|done| |done|done];
      unfold mbind, M_bind, get; by rewrite Hreg|].
    eapply timer_walk_trans; [by apply (timer_walk_acquire ReadLock s Read)|].
    eapply timer_walk_access; [done|done|unfold on_world; by rewrite Hrun| |];
      by destruct Hnext as [->|(now & count & ->)]. }
  destruct Hnext as [->|(now & count & ->)].
  { intros _. exists s1. split; [|done]. eapply timer_walk_trans; [exact Hread|]. by apply timer_walk_release. }
  unfold mbind, M_bind. set (w1 := with_user _ w'). intros Ho.
  destruct (fires_alone now count cs s1 Hcs) as (s2 & Hw2 & Ho2 & Hs2).
  destruct (blind_same (repeat_call count (do_calls cs)) (s_world s1) w1) as [Ho1 Hs1];
    [apply repeat_call_blind|done|].
  destruct (repeat_call count (do_calls cs) w1) as [o w2]. simpl in *. rewrite Ho1 in Ho2. subst o.
  destruct (blind_same (rearm now) (s_world s2) w2) as [Ho3 Hs3]; [apply rearm_blind|exact (eq_trans Hs2 Hs1)|].
  destruct (rearm_alone now s2) as (s3 & Hw3 & Hs3'); [congruence|].
  exists s3. split; [|exact (eq_trans Hs3' Hs3)].
  eapply timer_walk_trans; [exact Hread|]. eapply timer_walk_trans; [|eapply timer_walk_trans; [exact Hw2|exact Hw3]].
  by apply timer_walk_release.
Qed.

(** C30: a thread that runs alone does what the sequential model says: every call,
    from the application or from [on_time_event], every wake-up whose callbacks make
    any sequence of calls, and [re_register], can run from its first control point
    to its last and then has done to the timer and to the system, and has asked of
    the event loop, exactly what the sequential function does. *)
Theorem timer_alone_is_sequential s :
  (∀ c k, fits c → ∃ s', walk (enter c k) s (back k) s' ∧ same (s_world s') (do_call c (s_world s)).2) ∧
  (∀ cs, Forall fits cs → s_registered s = true → readable s = true →
     (on_read_ready (do_calls cs) (s_world s)).1 = Val tt →
     ∃ s', walk Find s (RegLock false) s' ∧ same (s_world s') (on_read_ready (do_calls cs) (s_world s)).2) ∧
  (∀ first, ∃ s', walk (RegLock first) s (registered first) s' ∧ same (s_world s') (re_register first (s_world s)).2).
Proof.
  split; [|split].
  - intros c k Hc. destruct (call_alone c k s Hc) as (s' & Hw & _ & Hs). by exists s'.
  - intros cs. apply wake_up_alone.
  - intros first.
    assert (walk (RegLock first) s (RegUnlock first (fd_open s)) s) as Hvalid.
    { eapply timer_walk_trans; [by apply (timer_walk_acquire (RegLock first) s (RegValid first))|].
      eapply timer_walk_access; [done|done| |done|done]. by destruct s. }
    unfold re_register, is_valid, mbind, M_bind, timer, tcall. fold (fd_open s). cbn. fold (fd_open s).
    destruct (fd_open s) eqn:Ho; cbn.
    + rewrite initialized. cbn.
      set (s1 := mkShared (mkTWorld (t_os (s_world s))
        (t_requests (s_world s) ++ [ModeChange (m_fileno (t_timer (s_world s))) first])
        (t_timer (s_world s)) (t_user (s_world s))) (s_registered s) (s_interest s)).
      assert (walk (RegLock first) s (if s_registered s then RegCtl first else registered first) s1) as Hfind.
      { eapply timer_walk_trans; [exact Hvalid|].
        eapply timer_walk_trans; [by apply (timer_walk_release (RegUnlock first true) s (RegFind first))|].
        eapply (timer_walk_access (RegFind first) s _ _ _ s1); try done;
          [by destruct (s_registered s), first|by destruct (s_registered s), first]. }
      destruct (s_registered s); [|by exists s1].
      exists (mkShared (s_world s1) (s_registered s1) (ctl first s1)). split; [|done].
      eapply timer_walk_trans; [exact Hfind|].
      eapply timer_walk_access; [done|done|reflexivity|by destruct first|by destruct first].
    + exists s. split; [|done]. eapply timer_walk_trans; [exact Hvalid|].
      apply timer_walk_release; [done|by destruct first|by destruct first].
Qed.
End calls.

(** ** A witness *)

(** The simulated timer of Timer.v in a process that has an event loop. *)
Definition running_sys : TimerSys simtime := {|
  timerfd_create := @timerfd_create _ sim_sys;
  system_now := @system_now _ sim_sys;
  timerfd_settime := @timerfd_settime _ sim_sys;
  timer_read := @timer_read _ sim_sys;
  timer_close := @timer_close _ sim_sys;
  loop_initialized _ := true;
|}.

Definition running_laws : @TimerLaws simtime running_sys :=
  @Build_TimerLaws simtime running_sys (@clock _ _ sim_laws) (@pending _ _ sim_laws)
    (@now_reads _ _ sim_laws) (@settime_sets _ _ sim_laws) (@read_reads _ _ sim_laws).

(** At 1100 ms, with a deadline that is due and one that is not. *)
Definition due_timer : shared simtime :=
  mkShared (mkTWorld {| sim_clock := 1100000000; sim_pending := Some 1100000000; sim_loop := true |} []
    {| m_fileno := 5; m_fd := 5; m_queued_events := [1100; 1200] |} []) true Disabled.

Lemma timer_alone_is_sequential_witness :
  ∃ s', walk (H := running_sys) (H0 := running_laws) Find due_timer (RegLock false) s' ∧
    m_queued_events (t_timer (s_world s')) = [1150; 1200] ∧
    sim_pending (t_os (s_world s')) = Some 1150000000.
Proof.
  destruct (timer_alone_is_sequential (H := running_sys) (H0 := running_laws) (λ _, eq_refl) due_timer)
    as (_ & Hwake & _).
  destruct (Hwake [CallSchedule 50]) as (s' & Hwalk & Hs); [|done|done|by vm_compute|].
  { repeat constructor; vm_compute; congruence. }
  exists s'. split; [done|]. apply same_user in Hs.
  assert (∀ w w' : tworld simtime (list note), w' = with_user (t_user w') w → t_timer w' = t_timer w ∧ t_os w' = t_os w)
    as Hsame by (by intros w w' ->).
  apply Hsame in Hs as [Ht Hos]. rewrite <- Ht, <- Hos. by vm_compute.
Defined.
