(* ===== verification/Delayed.v ===== *)
(** [DelayedNetworkSocketListener] of include/yael/DelayedNetworkSocketListener.h
    and src/DelayedNetworkSocketListener.cpp: a network listener whose sends wait
    in a queue behind a timer. *)
From S2P Require Import Prelude Machine Slicer Timer Listener.
Local Open Scope Z_scope.

(** * Data *)

Record delayed_message_t := mkDelayedMessage {
  is_shared : bool;
  dm_data : list byte;
  dm_length : Z;
  dm_blocking : bool;
}.

(** The members of the [DelayedMessageSender] beside its timer ([m_socket] is
    whether the pointer to the listener is set), and those of the listener
    ([m_sender] is whether the pointer to the sender is set). The state [U] of the
    derived class carries a mark that its [close_socket] has been called. *)
Record delayed (K C U : Type) := mkDelayed {
  m_pending_messages : list delayed_message_t;
  m_sender_mutex : bool;
  m_socket : bool;
  m_sender : bool;
  m_delay : Z;
  network : lworld K C (bool * U);
}.
Arguments mkDelayed {K C U}.
Arguments m_pending_messages {K C U}.
Arguments m_sender_mutex {K C U}.
Arguments m_socket {K C U}.
Arguments m_sender {K C U}.
Arguments m_delay {K C U}.
Arguments network {K C U}.

Section delayed.
Context {Σ K U : Type} `{TimerSys Σ} `{Socket K}.
Abbreviation LW := (lworld K sk_child (bool * U)).
Abbreviation D := (delayed K sk_child U).
Abbreviation W := (tworld Σ D).
Implicit Types (w : W) (d : D).

Definition set_pending q d : D := mkDelayed q (m_sender_mutex d) (m_socket d) (m_sender d) (m_delay d) (network d).
Definition set_sender_mutex b d : D := mkDelayed (m_pending_messages d) b (m_socket d) (m_sender d) (m_delay d) (network d).
Definition set_pointer b d : D := mkDelayed (m_pending_messages d) (m_sender_mutex d) b (m_sender d) (m_delay d) (network d).
Definition set_sender b d : D := mkDelayed (m_pending_messages d) (m_sender_mutex d) (m_socket d) b (m_delay d) (network d).
Definition put_delay n d : D := mkDelayed (m_pending_messages d) (m_sender_mutex d) (m_socket d) (m_sender d) n (network d).
Definition put_network lw d : D := mkDelayed (m_pending_messages d) (m_sender_mutex d) (m_socket d) (m_sender d) (m_delay d) lw.

Definition self : M W D := λ w, (Val (t_user w), w).

Definition change (f : D → D) : M W unit := λ w,
  (Val tt, mkTWorld (t_os w) (t_requests w) (t_timer w) (f (t_user w))).

Definition is_loop_initialized : M W bool := tcall (λ σ, (loop_initialized σ, σ)).

(** ** The sender *)

Definition sender_close_socket : M W unit :=
  change (set_pointer false);;
  Timer.close_socket.

Definition with_sender_lock {A} (body : M W A) : M W A :=
  d ← self;
  if m_sender_mutex d then halt (Fatal "deadlock: m_mutex of the sender is locked by this thread")
  else change (set_sender_mutex true);; finally body (change (set_sender_mutex false)).

(** [DelayedNetworkSocketListener::close_socket] before it calls the base. *)
Definition close_sender : M W unit :=
  initialized ← is_loop_initialized;
  d ← self;
  when (initialized && m_sender d) sender_close_socket.

Definition mark (b : bool) (lw : LW) : LW :=
  mkLWorld (l_listener lw) (l_trace lw) (l_loop lw) (b, (l_user lw).2).

(** The virtual functions as the base sees them: the overriding [close_socket]
    leaves its mark. *)
Definition overriding (cb : callbacks (K:=K) (U:=bool * U)) : callbacks := {|
  on_network_message := on_network_message cb;
  on_new_connection := on_new_connection cb;
  on_disconnect := on_disconnect cb;
  before_close := λ lw, (Val tt, mark true lw);
|}.

(** A call of the base class. If it went through the virtual [close_socket], the
    sender is closed with it (the callbacks do not look at the sender). *)
Definition on_network {A} (m : M LW A) : M W A := λ w,
  let '(o, lw) := m (network (t_user w)) in
  (when (l_user lw).1 close_sender;; lift o)
    (mkTWorld (t_os w) (t_requests w) (t_timer w) (put_network (mark false lw) (t_user w))).

Context (fuel : nat) (cb : callbacks (K:=K) (U:=bool * U)) (wait : M K unit).

(** Sending a delayed message now; the arguments for blocking and asynchronous
    sends take their default, false. *)
Definition transmit (it : delayed_message_t) : M LW unit :=
  if is_shared it
  then Listener.send_shared fuel (overriding cb) (dm_data it) (dm_length it) wait false false
  else Listener.send_unique fuel (overriding cb) (dm_data it) (dm_length it) wait false false.

Definition on_time_event : M W unit :=
  with_sender_lock (
    d ← self;
    match m_pending_messages d with
    | [] => halt (UB "no pending message")
    | it :: _ =>
        valid ← (if m_socket d then on_network Listener.is_valid else mret false);
        when valid (on_network (transmit it));;
        change (λ d, set_pending (tail (m_pending_messages d)) d)
    end).

(** The three overloads of [DelayedMessageSender::schedule]. *)
Definition schedule_message (it : delayed_message_t) (delay : Z) : M W unit :=
  with_sender_lock (
    change (λ d, set_pending (m_pending_messages d ++ [it]) d);;
    Timer.schedule delay;;
    mret tt).

Definition schedule_raw (data : list byte) (length delay : Z) (blocking : bool) : M W unit :=
  copy ← read_slice 0 length data;
  schedule_message (mkDelayedMessage false copy length blocking) delay.

(** ** The listener *)

Definition close_socket : M W unit :=
  close_sender;;
  on_network (Listener.close_socket cb).

(** ** Destruction *)

(** The virtual functions while the destructor runs: the part of the application
    is gone, and the library's do nothing. *)
Definition base_callbacks : callbacks (K:=K) (U:=bool * U) := {|
  on_network_message := λ _, mret tt;
  on_new_connection := λ _, mret tt;
  on_disconnect := mret tt;
  before_close := mret tt;
|}.

Definition asks_to_unregister (e : levent sk_child) : bool :=
  match e with Unregistered _ => true | _ => false end.

(** [shared_from_this()], which a call of the base evaluates before it asks the
    event loop to unregister the listener: no shared pointer owns an object that
    is being destroyed. *)
Definition without_owner {A} (m : M LW A) : M LW A := λ lw,
  let '(o, lw') := m lw in
  if existsb asks_to_unregister (drop (length (l_trace lw)) (l_trace lw'))
  then (Exn (runtime_error "bad_weak_ptr"), lw')
  else (o, lw').

(** The destructor, which is [noexcept]. *)
Definition destroy : M W unit :=
  catch (close_sender;; on_network (without_owner (Listener.close_socket base_callbacks)))
    (λ _, halt (Fatal "terminate")).

Definition sender_call (m : M W unit) : M W unit :=
  d ← self;
  if m_sender d then m else halt (UB "m_sender is null").

Definition send_shared (data : list byte) (length : Z) (blocking async : bool) : M W unit :=
  d ← self;
  if m_delay d =? 0
  then on_network (Listener.send_shared fuel (overriding cb) data length wait blocking async)
  else sender_call (schedule_message (mkDelayedMessage true data length blocking) (m_delay d)).

Definition send_unique (data : list byte) (length : Z) (blocking async : bool) : M W unit :=
  d ← self;
  if m_delay d =? 0
  then on_network (Listener.send_unique fuel (overriding cb) data length wait blocking async)
  else sender_call (schedule_message (mkDelayedMessage false data length blocking) (m_delay d)).

Definition send_raw (data : list byte) (length : Z) (blocking async : bool) : M W unit :=
  d ← self;
  if m_delay d =? 0
  then on_network (Listener.send_raw fuel (overriding cb) data length wait blocking async)
  else sender_call (schedule_raw data length (m_delay d) blocking).

Definition set_delay (delay : Z) : M W unit := change (put_delay delay).

(** [make_event_listener] builds a sender and registers it. *)
Definition set_socket (socket : K) (type : SocketType) : M W unit :=
  initialized ← is_loop_initialized;
  if negb initialized then throw (runtime_error "Event loop not initialized (yet)!") else
  Timer.construct;;
  change (λ d, set_pending [] (set_sender_mutex false (set_pointer true d)));;
  Timer.re_register true;;
  change (set_sender true);;
  on_network (Listener.set_socket socket type).

(** The constructors. *)
Definition new_delayed (delay : Z) (loop : bool) (u : U) : D :=
  mkDelayed [] false false false delay (mkLWorld new_listener [] loop (false, u)).

Definition construct_with (socket : option K) (type : SocketType) : M W unit :=
  match socket with
  | None => mret tt
  | Some k => set_socket k type
  end.
End delayed.
