(* ===== verification/DelayedProps.v ===== *)
(** What a delayed listener does with the messages it holds back. *)
From Stdlib Require Import Sorting.Sorted.
From S2P Require Import Prelude Machine Slicer Listener ListenerProps Timer Delayed.
Local Open Scope Z_scope.

Section props.
Context {Σ K U : Type} `{SteadyClock Σ} `{Socket K}.
Abbreviation LW := (lworld K sk_child (bool * U)).
Abbreviation D := (delayed K sk_child U).
Abbreviation W := (tworld Σ D).
Implicit Types (w : W) (d : D) (lw : LW).
Context (fuel : nat) (cb : callbacks (K:=K) (U:=bool * U)) (wait : M K unit).

Abbreviation queue w := (m_queued_events (t_timer w)).
Abbreviation msgs w := (m_pending_messages (t_user w)).



(** A sender between two events, attached to its listener. *)
Definition attached d : Prop :=
  m_sender_mutex d = false ∧ m_socket d = true ∧ (l_user (network d)).1 = false.

Definition with_user d w : W := mkTWorld (t_os w) (t_requests w) (t_timer w) d.




Lemma wp_self w (Q : outcome D → W → Prop) : Q (Val (t_user w)) w → wp self w Q.
Proof. done. Qed.

Lemma wp_change f w (Q : outcome unit → W → Prop) :
  Q (Val tt) (with_user (f (t_user w)) w) → wp (change f) w Q.
Proof. done. Qed.

Lemma wp_sender_lock {A} (body : M W A) w (Q : outcome A → W → Prop) :
  m_sender_mutex (t_user w) = false →
  wp body (with_user (set_sender_mutex true (t_user w)) w) (λ o w',
    match o with
    | Halt h => Q (Halt h) w'
    | _ => Q o (with_user (set_sender_mutex false (t_user w')) w')
    end) →
  wp (with_sender_lock body) w Q.
Proof.
  intros Hm Hbody. unfold with_sender_lock. wp_step. apply wp_self. cbn [seq_post]. rewrite Hm.
  wp_step. apply wp_change. cbn [seq_post]. unfold wp, finally in *.
  destruct (body _) as [[a|e|h] w']; exact Hbody.
Qed.






Lemma multiset_insert_last t q : Forall (λ x, x ≤ t) q → multiset_insert t q = q ++ [t].
Proof.
  induction 1 as [|x q Hx _ IH]; simpl; [done|].
  rewrite (proj2 (Z.ltb_ge t x)) by done. by rewrite IH.
Qed.

Lemma multiset_insert_first t q : Forall (λ x, t < x) q → multiset_insert t q = t :: q.
Proof. intros [|x q' Hx _]; simpl; [done|]. by rewrite (proj2 (Z.ltb_lt t x)). Qed.

Lemma wp_same {A} (m m' : M W A) w Q : m w = m' w → wp m' w Q → wp m w Q.
Proof. unfold wp. by intros ->. Qed.

(** The two overloads that keep the array. *)
Definition send_kept (shared : bool) data length blocking async : M W unit :=
  if shared then send_shared fuel cb wait data length blocking async
  else send_unique fuel cb wait data length blocking async.

(** With a delay, [send] never touches the socket: the message goes to the end
    of the queue, whether the caller asked to block or not, and its deadline,
    [m_delay] milliseconds after the time of the call, into the timer's. With the
    same delay as before the deadline comes last as well, so that messages keep
    their order and their delay. With a delay shorter than what is left of the
    others, the deadline comes first although the message comes last: the oldest
    message will be sent for it, too early, and the new one too late. *)
Theorem delayed_send_queues shared data length blocking async w :
  timer_ok w → 0 ≤ m_fd (t_timer w) → attached (t_user w) → m_sender (t_user w) = true →
  0 < m_delay (t_user w) < two32 →
  wp (send_kept shared data length blocking async) w (λ o w', o = Val tt ∧
    timer_ok w' ∧ attached (t_user w') ∧ network (t_user w') = network (t_user w) ∧
    msgs w' = msgs w ++ [mkDelayedMessage shared data length blocking] ∧
    ∃ now, clock (t_os w) / 1000000 ≤ now ∧
      let t := now + m_delay (t_user w) in
      (Forall (λ x, x ≤ t) (queue w) → queue w' = queue w ++ [t]) ∧
      (Forall (λ x, t < x) (queue w) → queue w' = t :: queue w)).
Proof.
  intros [Hwf Harm] Hfd (Hm & Hk & Hf) Hsender Hdelay.
  assert (send_kept shared data length blocking async w =
    schedule_message (mkDelayedMessage shared data length blocking) (m_delay (t_user w)) w) as Hrun.
  { destruct shared; unfold send_kept, send_shared, send_unique, sender_call, mbind, M_bind, self;
      cbn [fst snd]; rewrite (proj2 (Z.eqb_neq _ _)) by lia; by rewrite Hsender. }
  apply (wp_same _ _ _ _ Hrun). clear Hrun.
  apply wp_sender_lock; [done|]. wp_step. apply wp_change. cbn [seq_post]. wp_step.
  set (w1 := with_user _ _).
  eapply wp_mono; [apply (schedule_spec (m_delay (t_user w)) w1); [unfold MAX_DELAY, two32 in *; lia|done]|].
  intros ? w2 (-> & now & Hs). cbn [seq_post]. wp_step.
  pose proof (scheduled_wf _ _ w1 _ Hwf Hs) as Hwf2. pose proof (scheduled_armed _ _ w1 _ Harm Hs) as Harm2.
  destruct Hs as (Hn & _ & Hq & _ & _ & _ & Hu & _).
  split; [done|]. split; [by split|]. cbn [with_user t_user t_timer]. rewrite Hu, Hq.
  split; [by split_and!|]. split; [done|]. split; [done|]. exists now. split; [exact Hn|].
  split; intros Hall; [by apply multiset_insert_last|by apply multiset_insert_first].
Qed.

(** Destroying a listener that has not been told of its end, while the event loop
    exists, ends the process: the destructor asks for a shared pointer to an
    object that no longer has an owner. A listener that has disconnected is
    destroyed quietly. *)
Definition without_sender d : Prop :=
  m_sender d = false ∧ Listener.m_mutex (l_listener (network d)) = false ∧
  Listener.m_socket (l_listener (network d)) = None.

Lemma wp_close_sender_none w (Q : outcome unit → W → Prop) :
  m_sender (t_user w) = false → Q (Val tt) w → wp close_sender w Q.
Proof.
  intros Hs HQ. unfold wp, close_sender, is_loop_initialized, tcall, self, when, mbind, M_bind.
  cbn. rewrite Hs, andb_false_r. by destruct w.
Qed.

Lemma destroy_unused w :
  without_sender (t_user w) → l_loop (network (t_user w)) = true →
  m_has_disconnected (l_listener (network (t_user w))) = false →
  wp destroy w (λ o _, o = Halt (Fatal "terminate")).
Proof.
  intros (Hs & Hm & Hk) Hloop Hd. apply wp_catch. wp_step. apply wp_close_sender_none; [done|].
  destruct w as [σ r t [q b p se dl [[lm sm so ty fn dc md] tr lo [fl u]]]]. simpl in *. subst.
  unfold wp, on_network, without_owner, Listener.close_socket, locked, lock_mutex, unlock_mutex,
    close_socket_internal, finally, this, update, when, emit, unregister, mbind, M_bind, mret, M_ret.
  cbn. case_bool_decide; cbn; rewrite <- ?app_assoc, drop_app_length; cbn; (destruct fl; [|done]);
    unfold close_sender, is_loop_initialized, tcall, self, when, mbind, M_bind, mret, M_ret; cbn;
    by rewrite andb_false_r.
Qed.

Lemma destroy_ended w :
  without_sender (t_user w) → (l_user (network (t_user w))).1 = false →
  m_has_disconnected (l_listener (network (t_user w))) = true →
  wp destroy w (λ o _, o = Val tt).
Proof.
  intros (Hs & Hm & Hk) Hf Hd. apply wp_catch. wp_step. apply wp_close_sender_none; [done|].
  destruct w as [σ r t [q b p se dl [[lm sm so ty fn dc md] tr lo [fl u]]]]. simpl in *. subst.
  unfold wp, on_network, without_owner, Listener.close_socket, locked, lock_mutex, unlock_mutex,
    close_socket_internal, finally, this, update, when, emit, unregister, mbind, M_bind, mret, M_ret.
  cbn. by rewrite drop_all.
Qed.
End props.

(** * Witnesses *)

(** A socket that takes everything and notes what it was given. *)
#[local] Instance note_socket : Socket (list (list byte)) := {|
  sk_child := unit;
  sk_is_valid := λ _, true;
  sk_is_connected := λ _, true;
  sk_is_listening := λ _, false;
  sk_has_messages := λ _, false;
  sk_get_fileno := λ _, 7;
  sk_wait_connection_established := λ _, true;
  sk_accept := mret [];
  sk_receive := mret None;
  sk_send_shared := λ data _ _ k, (Val false, k ++ [data]);
  sk_send_unique := λ data _ _ k, (Val false, k ++ [data]);
  sk_send_raw := λ data _ _ k, (Val false, k ++ [data]);
  sk_do_send := mret false;
  sk_close := λ _, mret true;
|}.

Definition silent : callbacks (K:=list (list byte)) (U:=bool * unit) :=
  mkCallbacks (λ _, mret tt) (λ _, mret tt) (mret tt) (mret tt).

Definition note (b : byte) : delayed_message_t := mkDelayedMessage false [b] 1 false.





(** A second message, after the delay has been set from 1000 to 10. *)
Definition hurried : tworld simtime (delayed (list (list byte)) unit unit) :=
  mkTWorld {| sim_clock := 1000 * 1000000; sim_pending := Some (2000 * 1000000); sim_loop := true |} []
    {| m_fileno := 5; m_fd := 5; m_queued_events := [2000] |}
    (mkDelayed [note x61] false true true 10
      (mkLWorld (put_type Connection 7 (put_socket (Some []) new_listener)) [] true (false, tt))).

Lemma hurried_ok : timer_ok hurried.
Proof.
  split; [|by intros _ _]. split; [repeat constructor|]. unfold MAX_TIME. repeat constructor; lia.
Qed.

Lemma delayed_send_queues_witness :
  wp (send_kept 5 silent (mret tt) false [x62] 1 true false) hurried (λ o w', o = Val tt ∧
    timer_ok w' ∧ m_pending_messages (t_user w') = [note x61; mkDelayedMessage false [x62] 1 true] ∧
    m_queued_events (t_timer w') = [1010; 2000]).
Proof.
  pose proof (delayed_send_queues 5 silent (mret tt) false [x62] 1 true false hurried hurried_ok
    ltac:(done) ltac:(by split_and!) eq_refl ltac:(done)) as Hspec. unfold wp in *.
  destruct (send_kept 5 silent (mret tt) false [x62] 1 true false hurried) as [o w'] eqn:E. vm_compute in E. injection E as <- <-.
  cbn [fst snd] in *. split; [done|]. split; [|by split]. apply Hspec.
Defined.
