(* ===== verification/DelayedThreads.v ===== *)
(** Several threads on one [DelayedMessageSender]: threads that call [send] and
    [close_socket] of a [DelayedNetworkSocketListener], and workers that run
    [on_time_event] (src/DelayedNetworkSocketListener.cpp), on top of the threads on
    its timer (TimerThreads.v).

    A thread has a control point in the sender, and one in the timer: while the
    sender calls [TimeEventListener::schedule] or [close_socket], and between the
    calls of [on_time_event], the timer's code goes on. Sending on the listener is
    one step (Dispatch.v interleaves its steps). *)
From S2P Require Import Prelude Machine Timer Mutex Delayed TimerThreads.
Local Open Scope Z_scope.

(** [DelayedMessageSender::m_mutex]. *)
Inductive sender_lock := SenderMutex.

#[export] Instance sender_lock_eq_dec : EqDecision sender_lock.
Proof. solve_decision. Defined.

(** Control points. *)
Inductive spc :=
| Outside                                          (* not in the sender *)
(* [schedule] *)
| SendLock (m : delayed_message_t) (delay : Z)
| SendPush (m : delayed_message_t) (delay : Z)     (* [emplace_back] *)
| SendSchedule (delay : Z)                         (* [TimeEventListener::schedule(delay)] *)
| SendWait                                         (* in it *)
| SendUnlock
(* [on_time_event] *)
| EventLock
| EventTest                                        (* [m_socket == nullptr] *)
| EventValid                                       (* [m_socket->is_valid()] *)
| EventSend                                        (* [m_socket->send(...)] *)
| EventErase                                       (* [m_pending_messages.erase(it)] *)
| EventUnlock
| EventDone
(* [close_socket], from [on_time_event] when the send has failed, or from outside *)
| CloseClear (event : bool)                        (* [m_socket = nullptr] *)
| CloseCall (event : bool)                         (* [TimeEventListener::close_socket()] *)
| CloseWait (event : bool)                         (* in it *)
| Crashed (msg : string).                          (* undefined behaviour *)

#[export] Instance delayed_message_eq_dec : EqDecision delayed_message_t.
Proof. solve_decision. Defined.
#[export] Instance spc_eq_dec : EqDecision spc.
Proof. solve_decision. Defined.

(** The members of the sender; [n_valid] is what [m_socket->is_valid()] would say.
    [n_pushed] and [n_handled] note the messages that were put into the list, and
    those taken from it. *)
Record senders (Σ : Type) := mkSenders {
  n_timers : timers Σ;
  n_pending : list delayed_message_t;
  n_pointer : bool;
  n_valid : bool;
  n_owner : sender_lock → option nat;
  n_pcs : list spc;
  n_pushed : list delayed_message_t;
  n_handled : list delayed_message_t;
}.
Arguments mkSenders {Σ}.
Arguments n_timers {Σ}.
Arguments n_pending {Σ}.
Arguments n_pointer {Σ}.
Arguments n_valid {Σ}.
Arguments n_owner {Σ}.
Arguments n_pcs {Σ}.
Arguments n_pushed {Σ}.
Arguments n_handled {Σ}.

Section senders.
Context {Σ : Type} `{TimerLaws Σ}.
Abbreviation N := (senders Σ).
Implicit Types (n : N) (p : spc) (q : pc) (i : nat).

(** ** Changes of the state, with the next control point of thread [i] *)

Definition goto i p n : N :=
  mkSenders (n_timers n) (n_pending n) (n_pointer n) (n_valid n) (n_owner n) (<[i := p]> (n_pcs n))
    (n_pushed n) (n_handled n).
Definition own o n : N :=
  mkSenders (n_timers n) (n_pending n) (n_pointer n) (n_valid n) (set_owner SenderMutex o (n_owner n))
    (n_pcs n) (n_pushed n) (n_handled n).
Definition push m n : N :=
  mkSenders (n_timers n) (n_pending n ++ [m]) (n_pointer n) (n_valid n) (n_owner n) (n_pcs n)
    (n_pushed n ++ [m]) (n_handled n).
Definition erase m rest n : N :=
  mkSenders (n_timers n) rest (n_pointer n) (n_valid n) (n_owner n) (n_pcs n)
    (n_pushed n) (n_handled n ++ [m]).
Definition clear_pointer n : N :=
  mkSenders (n_timers n) (n_pending n) false (n_valid n) (n_owner n) (n_pcs n) (n_pushed n) (n_handled n).
Definition invalidate n : N :=
  mkSenders (n_timers n) (n_pending n) (n_pointer n) false (n_owner n) (n_pcs n) (n_pushed n) (n_handled n).
Definition put_timers t n : N :=
  mkSenders t (n_pending n) (n_pointer n) (n_valid n) (n_owner n) (n_pcs n) (n_pushed n) (n_handled n).

(** The call [c] of the timer by thread [i]. *)
Definition timer_call i c k n : N :=
  put_timers (mkTimers (t_shared (n_timers n)) (t_owner (n_timers n))
    (<[i := enter c k]> (t_pcs (n_timers n)))) n.

(** [m_mutex.lock()]. *)
Definition lock_sender i p n : option N :=
  match n_owner n SenderMutex with
  | Some _ => None
  | None => Some (goto i p (own (Some i) n))
  end.

(** ** One step of a thread *)

(** The timer's code goes on; when it has come to [on_time_event], the sender's
    code begins. *)
Definition timer_step i p n : option N :=
  t ← advance i (n_timers n);
  let p' := match t_pcs t !! i, p with Some (Callback _ _), Outside => EventLock | _, _ => p end in
  Some (goto i p' (put_timers t n)).

(** After a call of the timer. *)
Definition timer_returned i p next n : option N :=
  q ← t_pcs (n_timers n) !! i;
  match user_code q with
  | Some _ => Some (goto i next n)
  | None => timer_step i p n
  end.

Definition sender_code i p n : option N :=
  match p with
  | Outside =>
      q ← t_pcs (n_timers n) !! i;
      match user_code q with Some _ => None | None => timer_step i Outside n end
  | SendLock m delay => lock_sender i (SendPush m delay) n
  | SendPush m delay => Some (goto i (SendSchedule delay) (push m n))
  | SendSchedule delay => Some (goto i SendWait (timer_call i (CallSchedule delay) FromApp n))
  | SendWait => timer_returned i SendWait SendUnlock n
  | SendUnlock => Some (goto i Outside (own None n))
  | EventLock => lock_sender i EventTest n
  | EventTest => Some (goto i (if n_pointer n then EventValid else EventErase) n)
  | EventValid =>
      Some (goto i (if n_pointer n then if n_valid n then EventSend else EventErase
                    else Crashed "m_socket is null") n)
  | EventSend =>
      Some (goto i (if n_pointer n then
                      match n_pending n with [] => Crashed "no pending message" | _ :: _ => EventErase end
                    else Crashed "m_socket is null") n)
  | EventErase =>
      Some (match n_pending n with
            | [] => goto i (Crashed "no pending message") n
            | m :: rest => goto i EventUnlock (erase m rest n)
            end)
  | EventUnlock => Some (goto i EventDone (own None n))
  | EventDone => timer_step i Outside n
  | CloseClear event => Some (goto i (CloseCall event) (clear_pointer n))
  | CloseCall event =>
      q ← t_pcs (n_timers n) !! i;
      k ← user_code q;
      Some (goto i (CloseWait event) (timer_call i CallClose k n))
  | CloseWait event => timer_returned i (CloseWait event) (if event then EventErase else Outside) n
  | Crashed _ => None
  end.

Definition is_crashed p : bool := match p with Crashed _ => true | _ => false end.

(** The process has ended, in the sender or in the timer. *)
Definition ended n : bool := existsb is_crashed (n_pcs n) || dead (n_timers n).

Definition sender_advance i n : option N :=
  if ended n then None else
  p ← n_pcs n !! i;
  sender_code i p n.

(** A step of the system: a thread goes on, an idle thread of the application sends
    or closes, the send of a delayed message fails, so that the listener closes
    itself, a worker gets an event, time passes, or the listener is closed for
    another reason. [closes]: [close_socket] is called from outside; [settable]:
    somebody sets the clock. *)
Inductive sstep (closes settable : bool) n : N → Prop :=
| sstep_run i n' : sender_advance i n = Some n' → sstep closes settable n n'
| sstep_send i m delay :
    ended n = false → n_pcs n !! i = Some Outside → t_pcs (n_timers n) !! i = Some Idle →
    0 < delay < 4294967296 →
    sstep closes settable n (goto i (SendLock m delay) n)
| sstep_close i :
    closes = true → ended n = false → n_pcs n !! i = Some Outside → t_pcs (n_timers n) !! i = Some Idle →
    sstep closes settable n (goto i (CloseClear false) n)
| sstep_fails i :
    ended n = false → n_pcs n !! i = Some EventSend → n_pointer n = true → n_pending n ≠ [] →
    sstep closes settable n (goto i (CloseClear true) (invalidate n))
| sstep_event i :
    ended n = false → t_pcs (n_timers n) !! i = Some Poll → expired (t_shared (n_timers n)) →
    sstep closes settable n (put_timers (mkTimers
      (mkShared (s_world (t_shared (n_timers n))) (s_registered (t_shared (n_timers n))) Disabled)
      (t_owner (n_timers n)) (<[i := Find]> (t_pcs (n_timers n)))) n)
| sstep_time σ :
    clock (t_os (s_world (t_shared (n_timers n)))) ≤ clock σ →
    pending σ = pending (t_os (s_world (t_shared (n_timers n)))) →
    sstep closes settable n (put_timers (mkTimers (put_system σ (t_shared (n_timers n))) (t_owner (n_timers n))
      (t_pcs (n_timers n))) n)
| sstep_set σ :
    settable = true → set_clock (t_os (s_world (t_shared (n_timers n)))) σ →
    sstep closes settable n (put_timers (mkTimers (put_system σ (t_shared (n_timers n))) (t_owner (n_timers n))
      (t_pcs (n_timers n))) n)
| sstep_invalid : sstep closes settable n (invalidate n).

Inductive sreach (closes settable : bool) n0 : N → Prop :=
| sreach_start : sreach closes settable n0 n0
| sreach_step n n' : sreach closes settable n0 n → sstep closes settable n n' → sreach closes settable n0 n'.

(** [set_socket] has built the sender for a valid listener, and registers it. *)
Definition new_sender (apps workers : nat) (w : tworld Σ (list note)) : N :=
  mkSenders (registering apps workers w) [] true true (λ _, None)
    (replicate (Datatypes.S (apps + workers)) Outside) [] [].

(** ** Executable schedules *)

Inductive sender_choice :=
| RunThread (i : nat)
| SendMessage (i : nat) (m : delayed_message_t) (delay : Z)
| CloseOutside (i : nat)
| SendFails (i : nat)
| WakeUp (i : nat)
| PassTime (σ : Σ)
| SetTime (σ : Σ).

(** Thread [i] is in none of the calls. *)
Definition free_thread i n : bool :=
  match n_pcs n !! i, t_pcs (n_timers n) !! i with Some Outside, Some Idle => true | _, _ => false end.

Definition sender_choose (c : sender_choice) n : option N :=
  if ended n then None else
  match c with
  | RunThread i => sender_advance i n
  | SendMessage i m delay =>
      if free_thread i n && (0 <? delay) && (delay <? 4294967296) then Some (goto i (SendLock m delay) n) else None
  | CloseOutside i => if free_thread i n then Some (goto i (CloseClear false) n) else None
  | SendFails i =>
      match n_pcs n !! i, n_pointer n, n_pending n with
      | Some EventSend, true, _ :: _ => Some (goto i (CloseClear true) (invalidate n))
      | _, _, _ => None
      end
  | WakeUp i => t ← choose (Event i) (n_timers n); Some (put_timers t n)
  | PassTime σ => t ← choose (Time σ) (n_timers n); Some (put_timers t n)
  | SetTime σ => t ← choose (SetClock σ) (n_timers n); Some (put_timers t n)
  end.

Fixpoint sender_play (cs : list sender_choice) n : option N :=
  match cs with
  | [] => Some n
  | c :: rest => n' ← sender_choose c n; sender_play rest n'
  end.
End senders.
Arguments sender_choice : clear implicits.
