(* ===== verification/DelayedThreadsProps.v ===== *)
(** Threads on a delayed sender (DelayedThreads.v): messages leave in the order in
    which they came, one for each call of [on_time_event], which always finds one;
    no deadlock; and what goes wrong when the listener is closed meanwhile. *)
From Stdlib Require Import Sorting.Sorted.
From stdpp Require Import relations.
From S2P Require Import Prelude Machine Timer Mutex Delayed TimerThreads TimerThreadsProps TimerThreadsLive DelayedThreads.
Local Open Scope Z_scope.

(** * What a step of the timer's code does *)

(** Calls of [schedule], and those that returned [false]. *)
Definition scheduled_calls (tr : list note) : nat :=
  sum_list_with (λ e, match e with Scheduled _ _ _ _ => 1%nat | _ => 0%nat end) tr.

(** Not in a call of the application, nor in [on_time_event]. *)
Definition plain (q : pc) : bool :=
  match q with
  | Callback _ _ | SchedLock _ _ | Sched _ _ | SchedUnlock _ | UnschedLock _ | Unsched _ | UnschedUnlock _
  | CloseLock _ | Close _ | CloseUnlock _ _ | CloseUnreg _ => false
  | _ => true
  end.

Definition quiet (l : list note) : Prop := fired l = 0%nat ∧ scheduled_calls l = 0%nat ∧ dropped l = [].

(** Where a thread can go from [q], noting [l]. *)
Definition next_ok (q q' : pc) (l : list note) : Prop :=
  match q with
  | Fire now (S n) => q' = Callback now n ∧ l = [Fired]
  | Callback now count => q' = Fire now count ∧ l = []
  | SchedLock delay k => q' = Sched delay k ∧ l = []
  | Sched delay k => q' = SchedUnlock k ∧ fired l = 0%nat ∧ scheduled_calls l = 1%nat ∧ dropped l = []
  | SchedUnlock k => q' = back k ∧ l = []
  | CloseLock k => q' = Close k ∧ l = []
  | Close k => (∃ b, q' = CloseUnlock b k) ∧ l = []
  | CloseUnlock _ k => (q' = CloseUnreg k ∨ q' = back k) ∧ l = []
  | CloseUnreg k => q' = back k ∧ l = []
  | UnschedLock _ | Unsched _ | UnschedUnlock _ => True
  | _ => plain q' = true ∧ quiet l
  end.

Section effect.
Context {Σ : Type} `{SteadyClock Σ}.
Abbreviation W := (tworld Σ (list note)).
Abbreviation S := (shared Σ).
Implicit Types (w : W) (s : S) (q : pc) (t : timers Σ) (i : nat).

Definition effect q (u : list note) (o : outcome pc) (u' : list note) : Prop :=
  match o with Val q' => ∃ l, u' = u ++ l ∧ next_ok q q' l | _ => True end.

Lemma effect_none q u q' : next_ok q q' [] → effect q u (Val q') u.
Proof. intros Hn. exists []. by rewrite app_nil_r. Qed.

Lemma schedule_section_effect delay k w :
  wp (schedule_section delay k) w (λ o w', effect (Sched delay k) (t_user w) o (t_user w')).
Proof.
  unfold schedule_section, schedule. wp_step. wp_step. cbn [seq_post]. wp_step. wp_step. apply wp_timer.
  cbn [seq_post].
  assert (∀ b w', t_user w' = t_user w →
    seq_post (λ ok, after ← get;
      observe (Scheduled (clock (t_os w) / 1000000) delay ok
        (added (m_queued_events (t_timer w)) (m_queued_events (t_timer after))));;
      mret (SchedUnlock k)) (λ o w', effect (Sched delay k) (t_user w) o (t_user w')) (Val b) w') as Hend.
  { intros b w' Hu. cbn [seq_post]. wp_step. wp_step. cbn [seq_post]. wp_step. apply wp_observe.
    cbn [seq_post]. wp_step. rewrite <- Hu. eexists. split; [done|]. by split_and!. }
  destruct (_ <? 0); [wp_step; by apply Hend|].
  wp_step. apply wp_tcall. intros now σ _. cbn [seq_post]. wp_step. apply wp_set_events. cbn [seq_post].
  destruct (if inserted_first _ _ then _ else _); [wp_step; by apply Hend|].
  apply wp_internal_schedule. intros b σ'. by apply Hend.
Qed.

Lemma read_section_effect w : wp read_section w (λ o w', effect Read (t_user w) o (t_user w')).
Proof.
  unfold read_section. wp_step. apply wp_timer. cbn [seq_post]. wp_step. apply wp_tcall. intros r σ _.
  cbn [seq_post]. destruct r as [buf|]; [|by wp_step].
  destruct (buf =? 1); [|wp_step; by apply effect_none].
  wp_step. apply wp_tcall. intros now σ' _. cbn [seq_post]. wp_step. apply wp_timer. cbn [seq_post t_timer].
  destruct (erase_due _ _ _) as [rest count].
  wp_step. apply wp_set_events. cbn [seq_post]. wp_step. apply wp_observe. cbn [seq_post]. apply wp_ret.
  eexists. split; [done|]. by split_and!.
Qed.

Lemma rearm_section_effect now w : wp (rearm_section now) w (λ o w', effect (Rearm now) (t_user w) o (t_user w')).
Proof.
  unfold rearm_section, rearm. wp_step. wp_step. apply wp_timer. cbn [seq_post].
  destruct (m_queued_events (t_timer w)) as [|next rest]; [wp_step; cbn [seq_post]; wp_step; by apply effect_none|].
  destruct (0 <=? _); [|wp_step; cbn [seq_post]; wp_step; by apply effect_none].
  destruct (next <? now); [by wp_step|].
  wp_step. apply wp_internal_schedule. intros b σ. cbn [seq_post]. wp_step. cbn [seq_post]. wp_step.
  by apply effect_none.
Qed.

Lemma access_effect q ready m s :
  code q = Access ready m →
  wp m s (λ o s', effect q (t_user (s_world s)) o (t_user (s_world s'))).
Proof.
  intros Hcode. destruct q as [| | |msg| | | |now c|now c|now c|now|now| |b|b|b v|b|b|d k|d k|k|k|k|k|k|k|b k|k];
    try discriminate; injection Hcode as <- <-.
  - wp_step. wp_step. cbn [seq_post]. apply wp_ret, effect_none. by destruct (s_registered s).
  - apply wp_on_world, read_section_effect.
  - destruct c as [|c]; [by apply wp_ret, effect_none|].
    wp_step. apply wp_on_world, wp_observe. cbn [seq_post]. apply wp_ret. eexists. by split.
  - by apply wp_ret, effect_none.
  - apply wp_on_world, rearm_section_effect.
  - wp_step. apply wp_on_world. unfold is_valid. wp_step. apply wp_timer. cbn [seq_post]. apply wp_ret.
    cbn [seq_post]. by apply wp_ret, effect_none.
  - unfold find_registered. wp_step. wp_step. cbn [seq_post]. wp_step. apply wp_on_world, wp_request.
    cbn [seq_post]. apply wp_ret, effect_none. by destruct (s_registered s), b.
  - wp_step. wp_step. cbn [seq_post]. wp_step. unfold wp at 1. cbn [put_registration fst snd seq_post].
    apply wp_ret, effect_none. by destruct b.
  - apply wp_on_world, schedule_section_effect.
  - apply wp_on_world. unfold unschedule_section, unschedule. wp_step. apply wp_timer. cbn [seq_post].
    wp_step. wp_step. apply wp_timer. cbn [seq_post]. wp_step. apply wp_set_events. cbn [seq_post].
    wp_step. cbn [seq_post]. wp_step. apply wp_observe. cbn [seq_post]. apply wp_ret. by eexists.
  - unfold close_fd. wp_step. apply wp_on_world. unfold close_section. wp_step. apply wp_timer. cbn [seq_post].
    destruct (_ <? 0).
    + apply wp_ret. cbn [seq_post]. wp_step. wp_step. cbn [seq_post]. wp_step.
      unfold wp at 1. cbn [put_registration fst snd seq_post]. apply wp_ret, effect_none. split; [by eexists|done].
    + wp_step. apply wp_tcall. intros ? σ _. cbn [seq_post]. wp_step. apply wp_request. cbn [seq_post].
      wp_step. unfold wp at 1. cbn [set_timer fst snd seq_post]. apply wp_ret. cbn [seq_post].
      wp_step. wp_step. cbn [seq_post]. wp_step. unfold wp at 1. cbn [put_registration fst snd seq_post].
      apply wp_ret, effect_none. split; [by eexists|done].
  - unfold unregister. wp_step. wp_step. cbn [seq_post]. wp_step. apply wp_on_world, wp_request.
    cbn [seq_post]. wp_step. unfold wp at 1. cbn [put_registration fst snd seq_post]. by apply wp_ret, effect_none.
Qed.

Lemma back_plain k : match k with FromApp => back k = Idle | FromEvent now c => back k = Callback now c end.
Proof. by destruct k. Qed.

(** The thread at [q] goes on. *)
Lemma advance_effect i t t' q :
  advance i t = Some t' → t_pcs t !! i = Some q → dead t' = false →
  ∃ q' l, t_pcs t' = <[i := q']> (t_pcs t) ∧
    t_user (s_world (t_shared t')) = t_user (s_world (t_shared t)) ++ l ∧ next_ok q q' l.
Proof.
  intros Hadv Hi Hdead. unfold advance in Hadv. destruct (dead t); [done|]. rewrite Hi in Hadv. simpl in Hadv.
  destruct (code q) as [|next|next|ready m] eqn:Hcode; [done|..].
  - destruct (t_owner t TimerMutex); [done|]. injection Hadv as <-. exists next, []. rewrite app_nil_r.
    split_and!; [done|done|]. by destruct q; try done; injection Hcode as <-.
  - injection Hadv as <-. exists next, []. rewrite app_nil_r. split_and!; [done|done|].
    destruct q as [| | |msg| | | |now c|now c|now c|now|now| |b|b|b v|b|b|d k|d k|k|k|k|k|k|k|b k|k];
      try done; injection Hcode as <-; try done; [by destruct v, b|destruct b; split; auto].
  - destruct (ready (t_shared t)); [|done].
    pose proof (access_effect q ready m (t_shared t) Hcode) as Heff. unfold wp in Heff.
    destruct (m (t_shared t)) as [[q'|e|e] s']; injection Hadv as <-; simpl in *.
    + destruct Heff as (l & Hl & Hn). by exists q', l.
    + by rewrite (aborted_dead t i q) in Hdead.
    + by rewrite (aborted_dead t i q) in Hdead.
Qed.
End effect.

(** * The control points of the sender *)

(** Which point of the timer's code goes with a point of the sender's. *)
Definition closing_for (event : bool) (q : pc) : Prop :=
  match q with
  | Idle => event = false
  | Callback _ _ => event = true
  | CloseLock k | Close k | CloseUnlock _ k | CloseUnreg k => in_worker k = event
  | _ => False
  end.

Definition couple (p : spc) (q : pc) : Prop :=
  match p with
  | Outside => plain q = true
  | SendLock _ delay | SendPush _ delay | SendSchedule delay => q = Idle ∧ 0 < delay < 4294967296
  | SendWait =>
      match q with SchedLock _ FromApp | Sched _ FromApp | SchedUnlock FromApp | Idle => True | _ => False end
  | SendUnlock | CloseClear false | CloseCall false => q = Idle
  | CloseWait event => closing_for event q
  | Crashed _ => True
  | _ => match q with Callback _ _ => True | _ => False end
  end.

(** Between [emplace_back] and the critical section of the timer's [schedule]. *)
Definition between (p : spc) (q : pc) : nat :=
  match p with
  | SendSchedule _ => 1
  | SendWait => match q with SchedLock _ _ | Sched _ _ => 1 | _ => 0 end
  | _ => 0
  end.

(** In [on_time_event], before [erase]. *)
Definition owed (p : spc) : nat :=
  match p with
  | EventLock | EventTest | EventValid | EventSend | EventErase
  | CloseClear true | CloseCall true | CloseWait true => 1
  | _ => 0
  end.

Definition sender_holds (l : sender_lock) (p : spc) : bool :=
  match p with
  | SendPush _ _ | SendSchedule _ | SendWait | SendUnlock
  | EventTest | EventValid | EventSend | EventErase | EventUnlock => true
  | CloseClear event | CloseCall event | CloseWait event => event
  | _ => false
  end.

(** [m_socket] has been tested. *)
Definition uses_pointer (p : spc) : bool := match p with EventValid | EventSend => true | _ => false end.

(** [close_socket] from outside. *)
Definition closes_outside (p : spc) : bool :=
  match p with CloseClear false | CloseCall false => true | _ => false end.

Section sender_invariant.
Context {Σ : Type} `{SteadyClock Σ} (closes : bool) (apps : nat).
Abbreviation N := (senders Σ).
Implicit Types (n : N) (p : spc) (q : pc) (i j : nat) (t : timers Σ).

Abbreviation trace t := (t_user (s_world (t_shared t))).
Abbreviation sum_between n := (sum_list (zip_with between (n_pcs n) (t_pcs (n_timers n)))).
Abbreviation sum_owed n := (sum_list_with owed (n_pcs n)).

Record sinv n : Prop := {
  s_timer : tinv closes apps (n_timers n);
  s_length : length (n_pcs n) = length (t_pcs (n_timers n));
  s_lock : lock_inv sender_holds (n_owner n) (n_pcs n);
  s_couple i p q : n_pcs n !! i = Some p → t_pcs (n_timers n) !! i = Some q → couple p q;
  s_pointer i p : n_pcs n !! i = Some p → uses_pointer p = true → closes = false → n_pointer n = true;
  s_outside i p : n_pcs n !! i = Some p → closes_outside p = true → closes = true;
  s_fifo : n_pushed n = n_handled n ++ n_pending n;
  s_pushed : length (n_pushed n) = (scheduled_calls (trace (n_timers n)) + sum_between n)%nat;
  s_handled : (length (n_handled n) + sum_owed n)%nat = fired (trace (n_timers n));
  s_dropped : dropped (trace (n_timers n)) = [];
  s_alive : ended n = false;
}.

(** ** Counting *)

Lemma sum_between_at ps qs i p q :
  ps !! i = Some p → qs !! i = Some q →
  ∃ r, sum_list (zip_with between ps qs) = (r + between p q)%nat ∧
    ∀ p' q', sum_list (zip_with between (<[i := p']> ps) (<[i := q']> qs)) = (r + between p' q')%nat.
Proof.
  intros Hp Hq.
  assert (zip_with between ps qs !! i = Some (between p q)) as Hz.
  { apply lookup_zip_with_Some. by exists p, q. }
  destruct (sum_list_with_at id _ _ _ Hz) as (r & Hr & Hins). exists r.
  split; [done|]. intros p' q'. rewrite <- insert_zip_with. apply Hins.
Qed.

Lemma scheduled_split tr :
  Forall sound tr → scheduled_calls tr = (length (accepted tr) + rejected tr)%nat.
Proof.
  induction 1 as [|e tr He _ IH]; [done|]. unfold scheduled_calls, accepted, rejected in *.
  rewrite bind_cons, length_app. cbn [sum_list_with]. rewrite IH. destruct e as [time delay [] ds|now ds| |ds]; simpl; [| |lia..].
  - destruct He as (d & -> & _). simpl. lia.
  - simpl in He. subst ds. simpl. lia.
Qed.

(** What the list of pending messages holds. *)
Lemma pending_length n :
  sinv n →
  length (n_pending n) = (length (m_queued_events (t_timer (s_world (t_shared (n_timers n))))) +
    rejected (trace (n_timers n)) + sum_list_with in_flight (t_pcs (n_timers n)) +
    sum_owed n + sum_between n)%nat.
Proof.
  intros Hinv. pose proof (s_pushed n Hinv) as Hp. pose proof (s_handled n Hinv) as Hh.
  destruct (ok_history _ _ _ _ (inv_shared _ _ _ (s_timer n Hinv))) as (Hperm & _ & Hf & Hs & _).
  apply Permutation_length in Hperm. rewrite (s_dropped n Hinv), !length_app in Hperm. simpl in Hperm.
  rewrite (scheduled_split _ Hs) in Hp. rewrite (s_fifo n Hinv), length_app in Hp. lia.
Qed.

Lemma pending_found n i p : sinv n → n_pcs n !! i = Some p → owed p = 1%nat → n_pending n ≠ [].
Proof.
  intros Hinv Hi Ho Hnil. pose proof (pending_length n Hinv) as Hl. rewrite Hnil in Hl.
  destruct (sum_list_with_at owed _ _ _ Hi) as (r & Hr & _). rewrite Hr, Ho in Hl. simpl in Hl. lia.
Qed.

(** ** One thread has moved *)

Lemma ended_false n : ended n = false ↔ existsb is_crashed (n_pcs n) = false ∧ dead (n_timers n) = false.
Proof. apply orb_false_iff. Qed.

Lemma crashed_insert ps i p :
  existsb is_crashed ps = false → is_crashed p = false → existsb is_crashed (<[i := p]> ps) = false.
Proof.
  intros Hps Hp. apply not_true_iff_false. intros (x & Hx & Hc)%existsb_exists.
  apply list_elem_of_In, list_elem_of_lookup in Hx as [j Hj].
  apply list_lookup_insert_Some in Hj as [(_ & <- & _)|[_ Hj]]; [congruence|].
  assert (existsb is_crashed ps = true); [|congruence].
  apply existsb_exists. exists x. split; [|done]. by apply list_elem_of_In, (list_elem_of_lookup_2 _ j).
Qed.

(** Thread [i] has moved from [p] and [q] to [p'] and [q']. *)
Lemma sinv_after n n' i p q p' q' :
  sinv n → n_pcs n !! i = Some p → t_pcs (n_timers n) !! i = Some q →
  tinv closes apps (n_timers n') → t_pcs (n_timers n') = <[i := q']> (t_pcs (n_timers n)) →
  n_pcs n' = <[i := p']> (n_pcs n) → is_crashed p' = false → couple p' q' →
  (∀ l, n_owner n' l = Some i ↔ sender_holds l p' = true) →
  (∀ l j, j ≠ i → n_owner n' l = Some j ↔ n_owner n l = Some j) →
  (uses_pointer p' = true → closes = false → n_pointer n' = true) →
  (n_pointer n' = n_pointer n ∨ closes = true ∨ sender_holds SenderMutex p = true) →
  (closes_outside p' = true → closes = true) →
  n_pushed n' = n_handled n' ++ n_pending n' →
  (length (n_pushed n') + scheduled_calls (trace (n_timers n)) + between p q =
   length (n_pushed n) + scheduled_calls (trace (n_timers n')) + between p' q')%nat →
  (length (n_handled n') + owed p' + fired (trace (n_timers n)) =
   length (n_handled n) + owed p + fired (trace (n_timers n')))%nat →
  dropped (trace (n_timers n')) = [] →
  sinv n'.
Proof.
  intros Hinv Hp Hq Ht Hqs Hps Hc Hcouple Hself Hother Huses Hptr Hout Hfifo Hpush Hhand Hdrop.
  pose proof (lookup_lt_Some _ _ _ Hp) as Hlt. pose proof (lookup_lt_Some _ _ _ Hq) as Hlt'.
  split; try done.
  - rewrite Hps, Hqs, !length_insert. apply Hinv.
  - apply (lock_inv_move sender_holds (n_owner n) (n_pcs n) _ _ i p'); try done; [apply Hinv|..]; rewrite Hps.
    + by apply list_lookup_insert_eq.
    + intros l j Hne. by rewrite list_lookup_insert_ne.
  - intros j pj qj. rewrite Hps, Hqs. destruct (decide (j = i)) as [->|Hne].
    + rewrite !list_lookup_insert_eq by done. by intros [= <-] [= <-].
    + rewrite !list_lookup_insert_ne by done. by apply Hinv.
  - intros j pj. rewrite Hps. destruct (decide (j = i)) as [->|Hne].
    + rewrite list_lookup_insert_eq by done. intros [= <-]. auto.
    + rewrite list_lookup_insert_ne by done. intros Hj Hu Hcl.
      destruct Hptr as [->|[?|Hh]]; [by apply (s_pointer n Hinv j pj)|congruence|].
      destruct Hne. eapply (holds_unique sender_holds _ _ SenderMutex j i pj p); try done; [apply Hinv|by destruct pj].
  - intros j pj. rewrite Hps. destruct (decide (j = i)) as [->|Hne].
    + rewrite list_lookup_insert_eq by done. by intros [= <-].
    + rewrite list_lookup_insert_ne by done. by apply Hinv.
  - destruct (sum_between_at _ _ _ _ _ Hp Hq) as (r & Hr & Hins). pose proof (s_pushed n Hinv) as Hold.
    rewrite Hps, Hqs, Hins. lia.
  - destruct (sum_list_with_at owed _ _ _ Hp) as (r & Hr & Hins). pose proof (s_handled n Hinv) as Hold.
    rewrite Hps, Hins. lia.
  - apply ended_false. split; [|apply Ht]. rewrite Hps. apply crashed_insert; [|done].
    by apply ended_false, Hinv.
Qed.

(** The timer has not moved. *)
Lemma sinv_goes n n' i p q p' :
  sinv n → n_pcs n !! i = Some p → t_pcs (n_timers n) !! i = Some q →
  n_timers n' = n_timers n → n_pcs n' = <[i := p']> (n_pcs n) → is_crashed p' = false → couple p' q →
  (∀ l, n_owner n' l = Some i ↔ sender_holds l p' = true) →
  (∀ l j, j ≠ i → n_owner n' l = Some j ↔ n_owner n l = Some j) →
  (uses_pointer p' = true → closes = false → n_pointer n' = true) →
  (n_pointer n' = n_pointer n ∨ closes = true ∨ sender_holds SenderMutex p = true) →
  (closes_outside p' = true → closes = true) →
  n_pushed n' = n_handled n' ++ n_pending n' →
  (length (n_pushed n') + between p q = length (n_pushed n) + between p' q)%nat →
  (length (n_handled n') + owed p' = length (n_handled n) + owed p)%nat →
  sinv n'.
Proof.
  intros Hinv Hp Hq Ht Hps Hc Hcouple Hself Hother Huses Hptr Hout Hfifo Hpush Hhand.
  apply (sinv_after n n' i p q p' q); try done; rewrite ?Ht; try done; try lia.
  - apply Hinv.
  - by rewrite list_insert_id.
  - apply Hinv.
Qed.

(** ** The timer's code goes on *)

Lemma timer_moved n i p q p' q' l t :
  sinv n → n_pcs n !! i = Some p → t_pcs (n_timers n) !! i = Some q →
  tinv closes apps t → t_pcs t = <[i := q']> (t_pcs (n_timers n)) →
  trace t = trace (n_timers n) ++ l →
  is_crashed p' = false → couple p' q' → (∀ k, sender_holds k p' = sender_holds k p) →
  uses_pointer p' = false → closes_outside p' = false →
  (scheduled_calls l + between p' q' = between p q)%nat → (owed p' = owed p + fired l)%nat →
  dropped l = [] →
  sinv (goto i p' (put_timers t n)).
Proof.
  intros Hinv Hp Hq Ht Hqs Htr Hc Hcouple Hh Hu Hout Hb Ho Hd.
  pose proof (λ k, holds_owner sender_holds _ _ k i _ (s_lock n Hinv) Hp) as Hown.
  apply (sinv_after n _ i p q p' q'); try done; cbn [goto put_timers n_timers n_pushed n_handled n_pointer]; rewrite ?Htr.
  - intros k. rewrite Hh. apply Hown.
  - by rewrite Hu.
  - by left.
  - by rewrite Hout.
  - apply Hinv.
  - unfold scheduled_calls in *. rewrite sum_list_with_app. lia.
  - rewrite fired_app. lia.
  - unfold dropped in *. rewrite bind_app, Hd, app_nil_r. apply Hinv.
Qed.

(** The points at which the timer's code goes on. *)
Definition in_timer (p : spc) (q : pc) : bool :=
  match p with
  | Outside | SendWait | CloseWait _ => match user_code q with Some _ => false | None => true end
  | EventDone => true
  | _ => false
  end.

Lemma timer_step_safe n i p q n' :
  sinv n → n_pcs n !! i = Some p → t_pcs (n_timers n) !! i = Some q → in_timer p q = true →
  timer_step i (if p is EventDone then Outside else p) n = Some n' →
  (ended n' = true ∧ closes = true) ∨ sinv n'.
Proof.
  intros Hinv Hp Hq Hin Hstep. unfold timer_step in Hstep.
  destruct (advance i (n_timers n)) as [t|] eqn:Hadv; [|done]. simpl in Hstep. injection Hstep as <-.
  destruct (timer_advance_safe _ _ _ _ _ (s_timer n Hinv) Hadv) as [[Hd Hc]|Ht].
  { left. split; [|done]. unfold ended. cbn [goto put_timers n_timers]. by rewrite Hd, orb_true_r. }
  right. destruct (advance_effect i _ t q Hadv Hq (inv_alive _ _ _ Ht)) as (q' & l & Hqs & Htr & Hnext).
  assert (t_pcs t !! i = Some q') as Hq' by (rewrite Hqs; apply list_lookup_insert_eq; by eapply lookup_lt_Some).
  rewrite Hq'. pose proof (s_couple n Hinv i p q Hp Hq) as Hcouple.
  assert (∀ p', is_crashed p' = false → couple p' q' → (∀ k, sender_holds k p' = sender_holds k p) →
    uses_pointer p' = false → closes_outside p' = false →
    (scheduled_calls l + between p' q' = between p q)%nat → (owed p' = owed p + fired l)%nat →
    dropped l = [] → sinv (goto i p' (put_timers t n))) as Hmoved.
  { intros p'. by apply (timer_moved n i p q p' q' l t). }
  destruct p as [|m d|m d|d| | | | | | | | | |b|b|b|msg]; try done; simpl in Hin, Hcouple.
  - destruct q as [| | |msg| | | |now c|now c|now c|now|now| |b|b|b v|b|b|d k|d k|k|k|k|k|k|k|b k|k]; try done.
    all: try (destruct Hnext as [Hpl (Hf & Hs & Hdr)]; destruct q'; try done; by apply Hmoved; rewrite ?Hf, ?Hs).
    destruct c as [|c].
    + destruct Hnext as [Hpl (Hf & Hs & Hdr)]. destruct q'; try done; by apply Hmoved; rewrite ?Hf, ?Hs.
    + destruct Hnext as [-> ->]. by apply Hmoved.
  - destruct q as [| | |msg| | | |now c|now c|now c|now|now| |b|b|b v|b|b|d k|d k|k|k|k|k|k|k|b k|k]; try done;
      destruct k; try done.
    + destruct Hnext as [-> ->]. by apply Hmoved.
    + destruct Hnext as (-> & Hf & Hs & Hdr). by apply Hmoved; rewrite ?Hf, ?Hs.
    + destruct Hnext as [-> ->]. by apply Hmoved.
  - destruct q; try done. destruct Hnext as [-> ->]. by apply Hmoved.
  - destruct q as [| | |msg| | | |now c|now c|now c|now|now| |?|?|? v|?|?|d k|d k|k|k|k|k|k|k|cl k|k]; try done.
    + destruct Hnext as [-> ->]. by apply Hmoved.
    + destruct Hnext as [[cl ->] ->]. by apply Hmoved.
    + destruct Hnext as [[->| ->] ->]; [by apply Hmoved|]. by destruct k; simpl in Hcouple; subst b; apply Hmoved.
    + destruct Hnext as [-> ->]. by destruct k; simpl in Hcouple; subst b; apply Hmoved.
Qed.

(** ** Every step *)

Lemma sender_acquires n i p q p' n' :
  sinv n → n_pcs n !! i = Some p → t_pcs (n_timers n) !! i = Some q → lock_sender i p' n = Some n' →
  sender_holds SenderMutex p = false → sender_holds SenderMutex p' = true → is_crashed p' = false →
  couple p' q → uses_pointer p' = false → closes_outside p' = false → between p' q = between p q →
  owed p' = owed p → sinv n'.
Proof.
  intros Hinv Hp Hq Hlock Hh Hh' Hc Hcouple Hu Hout Hb Ho. unfold lock_sender in Hlock.
  destruct (n_owner n SenderMutex) eqn:Hfree; [done|]. injection Hlock as <-.
  pose proof (λ l, holds_owner sender_holds _ _ l i _ (s_lock n Hinv) Hp) as Hown.
  destruct (set_owner_acquire sender_holds SenderMutex i (n_owner n) p p') as [Hs Hot]; [done..|by intros []|].
  apply (sinv_goes n _ i p q p'); try done; cbn; try (rewrite ?Hu, ?Hout; done); try lia; [by left|apply Hinv].
Qed.

Lemma sender_releases n i p q p' :
  sinv n → n_pcs n !! i = Some p → t_pcs (n_timers n) !! i = Some q →
  sender_holds SenderMutex p = true → sender_holds SenderMutex p' = false → is_crashed p' = false →
  couple p' q → uses_pointer p' = false → closes_outside p' = false → between p' q = between p q →
  owed p' = owed p → sinv (goto i p' (own None n)).
Proof.
  intros Hinv Hp Hq Hh Hh' Hc Hcouple Hu Hout Hb Ho.
  pose proof (λ l, holds_owner sender_holds _ _ l i _ (s_lock n Hinv) Hp) as Hown.
  destruct (set_owner_release sender_holds SenderMutex i (n_owner n) p p') as [Hs Hot]; [done..|by intros []|].
  apply (sinv_goes n _ i p q p'); try done; cbn; try (rewrite ?Hu, ?Hout; done); try lia; [by left|apply Hinv].
Qed.

(** A step that only goes on, or marks the listener as closed. *)
Lemma sender_goes n n' i p q p' :
  sinv n → n_pcs n !! i = Some p → t_pcs (n_timers n) !! i = Some q →
  n' = goto i p' n ∨ n' = goto i p' (invalidate n) →
  (∀ l, sender_holds l p' = sender_holds l p) → is_crashed p' = false →
  couple p' q → (uses_pointer p' = true → closes = false → n_pointer n = true) →
  (closes_outside p' = true → closes = true) → between p' q = between p q → owed p' = owed p → sinv n'.
Proof.
  intros Hinv Hp Hq Hn Hh Hc Hcouple Hu Hout Hb Ho.
  pose proof (λ l, holds_owner sender_holds _ _ l i _ (s_lock n Hinv) Hp) as Hown.
  destruct Hn as [-> | ->]; (apply (sinv_goes n _ i p q p'); try done; cbn; try lia;
    [intros l; by rewrite Hh|by left|apply Hinv]).
Qed.

(** The sender calls the timer. *)
Lemma sender_calls n i p q p' c k :
  sinv n → n_pcs n !! i = Some p → t_pcs (n_timers n) !! i = Some q → user_code q = Some k →
  allowed closes c k → (∀ l, sender_holds l p' = sender_holds l p) → is_crashed p' = false →
  couple p' (enter c k) → uses_pointer p' = false → closes_outside p' = false →
  between p' (enter c k) = between p q → owed p' = owed p →
  sinv (goto i p' (timer_call i c k n)).
Proof.
  intros Hinv Hp Hq Hk Hall Hh Hc Hcouple Hu Hout Hb Ho.
  apply (timer_moved n i p q p' (enter c k) []); try done; [|by rewrite app_nil_r|cbn; lia].
  by apply (call_safe _ _ _ _ q), Hall; [apply Hinv|..].
Qed.

Lemma crashed_ends n i p msg : n_pcs n !! i = Some p → ended (goto i (Crashed msg) n) = true.
Proof.
  intros Hi. unfold ended. apply orb_true_iff. left. cbn. apply existsb_exists. exists (Crashed msg).
  split; [|done]. apply list_elem_of_In, (list_elem_of_lookup_2 _ i), list_lookup_insert_eq. by eapply lookup_lt_Some.
Qed.

Lemma sender_advance_safe n i n' :
  sinv n → sender_advance i n = Some n' → (ended n' = true ∧ closes = true) ∨ sinv n'.
Proof.
  intros Hinv Hadv. unfold sender_advance in Hadv. rewrite (s_alive n Hinv) in Hadv.
  destruct (n_pcs n !! i) as [p|] eqn:Hp; [|done]. simpl in Hadv.
  destruct (lookup_lt_is_Some_2 (t_pcs (n_timers n)) i) as [q Hq].
  { rewrite <- (s_length n Hinv). by eapply lookup_lt_Some. }
  pose proof (s_couple n Hinv i p q Hp Hq) as Hcouple.
  destruct p as [|m d|m d|d| | | | | | | | | |b|b|b|msg]; simpl in Hadv, Hcouple.
  - rewrite Hq in Hadv. simpl in Hadv. destruct (user_code q) eqn:Hu; [done|].
    apply (timer_step_safe n i Outside q); try done. simpl. by rewrite Hu.
  - right. destruct Hcouple as [-> Hd]. by apply (sender_acquires n i (SendLock m d) Idle (SendPush m d)).
  - right. injection Hadv as <-. destruct Hcouple as [-> Hd].
    pose proof (λ l, holds_owner sender_holds _ _ l i _ (s_lock n Hinv) Hp) as Hown.
    apply (sinv_goes n _ i (SendPush m d) Idle (SendSchedule d)); try done; cbn; try lia.
    + by rewrite (s_fifo n Hinv), <- app_assoc.
    + rewrite length_app. simpl. lia.
  - right. injection Hadv as <-. destruct Hcouple as [-> Hd].
    apply (sender_calls n i (SendSchedule d) Idle SendWait); try done. simpl. unfold MAX_DELAY. lia.
  - unfold timer_returned in Hadv. rewrite Hq in Hadv. simpl in Hadv. destruct (user_code q) eqn:Hu.
    + right. injection Hadv as <-. destruct q; try done.
      apply (sender_goes n _ i SendWait Idle SendUnlock); try done. by left.
    + apply (timer_step_safe n i SendWait q); try done. simpl. by rewrite Hu.
  - right. injection Hadv as <-. subst q. by apply (sender_releases n i SendUnlock Idle Outside).
  - right. destruct q; try done. by apply (sender_acquires n i EventLock (Callback now count) EventTest).
  - right. injection Hadv as <-. destruct q; try done. destruct (n_pointer n) eqn:Hptr.
    + apply (sender_goes n _ i EventTest (Callback now count) EventValid); try done. by left.
    + apply (sender_goes n _ i EventTest (Callback now count) EventErase); try done. by left.
  - destruct q; try done. destruct (n_pointer n) eqn:Hptr.
    + right. injection Hadv as <-. destruct (n_valid n).
      * apply (sender_goes n _ i EventValid (Callback now count) EventSend); try done. by left.
      * apply (sender_goes n _ i EventValid (Callback now count) EventErase); try done. by left.
    + left. injection Hadv as <-. split; [by eapply crashed_ends|].
      apply not_false_iff_true. intros Hc. pose proof (s_pointer n Hinv i _ Hp eq_refl Hc). congruence.
  - destruct q; try done. pose proof (pending_found n i _ Hinv Hp eq_refl) as Hne.
    destruct (n_pointer n) eqn:Hptr; injection Hadv as <-.
    + right. destruct (n_pending n) eqn:Hpe; [done|].
      apply (sender_goes n _ i EventSend (Callback now count) EventErase); try done. by left.
    + left. split; [by eapply crashed_ends|].
      apply not_false_iff_true. intros Hc. pose proof (s_pointer n Hinv i _ Hp eq_refl Hc). congruence.
  - right. destruct q; try done. pose proof (pending_found n i _ Hinv Hp eq_refl) as Hne.
    pose proof (λ l, holds_owner sender_holds _ _ l i _ (s_lock n Hinv) Hp) as Hown.
    destruct (n_pending n) as [|m rest] eqn:Hpe; [done|]. injection Hadv as <-.
    apply (sinv_goes n _ i EventErase (Callback now count) EventUnlock); try done; cbn; try lia.
    + by rewrite (s_fifo n Hinv), Hpe, <- app_assoc.
    + rewrite length_app. simpl. lia.
  - right. injection Hadv as <-. destruct q; try done.
    by apply (sender_releases n i EventUnlock (Callback now count) EventDone).
  - by apply (timer_step_safe n i EventDone q).
  - right. injection Hadv as <-.
    pose proof (λ l, holds_owner sender_holds _ _ l i _ (s_lock n Hinv) Hp) as Hown.
    assert (closes_outside (CloseClear b) = true → closes = true) as Hout by (by apply (s_outside n Hinv i)).
    apply (sinv_goes n _ i (CloseClear b) q (CloseCall b)); try done; cbn; try lia; [|apply Hinv].
    right. destruct b; [by right|left]. by apply Hout.
  - right. rewrite Hq in Hadv. simpl in Hadv. destruct (user_code q) as [k|] eqn:Hu; [|done]. injection Hadv as <-.
    pose proof (s_outside n Hinv i _ Hp) as Hout.
    apply (sender_calls n i (CloseCall b) q (CloseWait b)); try done.
    + destruct b; [right; by destruct q, k|left; by apply Hout].
    + destruct b; [|subst q; by injection Hu as <-]. destruct q; try done. by injection Hu as <-.
  - unfold timer_returned in Hadv. rewrite Hq in Hadv. simpl in Hadv. destruct (user_code q) as [k|] eqn:Hu.
    + right. injection Hadv as <-. destruct b.
      * destruct q; try done. apply (sender_goes n _ i (CloseWait true) (Callback now count) EventErase); try done. by left.
      * destruct q; try done. apply (sender_goes n _ i (CloseWait false) Idle Outside); try done. by left.
    + apply (timer_step_safe n i (CloseWait b) q); try done. simpl. by rewrite Hu.
  - done.
Qed.
End sender_invariant.
