(* ===== verification/DelayedThreadsLive.v ===== *)
(** Threads on a delayed sender (DelayedThreads.v): what the invariant of
    DelayedThreadsProps.v gives, and an interleaving that goes wrong. *)
From stdpp Require Import relations.
From S2P Require Import Prelude Machine Timer Mutex Delayed TimerThreads TimerThreadsProps TimerThreadsLive.
From S2P Require Import DelayedThreads DelayedThreadsProps.
Local Open Scope Z_scope.

(** What a thread still has to do in the sender; a step in the timer is worth 20. *)
Definition sender_rank (p : spc) : nat :=
  match p with
  | Outside | Crashed _ => 0
  | EventDone => 1 | EventUnlock => 2 | EventErase => 3 | EventSend => 4 | EventValid => 5
  | EventTest => 6 | EventLock => 7
  | SendUnlock => 1 | SendWait => 2 | SendSchedule _ => 130 | SendPush _ _ => 131 | SendLock _ _ => 132
  | CloseWait _ => 4 | CloseCall _ => 90 | CloseClear _ => 91
  end.

Section sender_live.
Context {Σ : Type} `{SteadyClock Σ}.
Abbreviation N := (senders Σ).
Implicit Types (n : N) (p : spc) (q : pc) (i : nat) (t : timers Σ).

Definition sender_work n : nat := sum_list_with sender_rank (n_pcs n) + 20 * timer_work (n_timers n).

Definition sender_goes_on n n' : Prop := ∃ i, sender_advance i n = Some n'.

(** * Every step is one towards the end *)

Lemma call_work i c k q t :
  t_pcs t !! i = Some q → user_code q = Some k →
  (timer_work (mkTimers (t_shared t) (t_owner t) (<[i := enter c k]> (t_pcs t))) + timer_rank q =
   timer_work t + timer_rank (enter c k))%nat.
Proof.
  intros Hi _. destruct (sum_list_with_at timer_rank _ _ _ Hi) as (r & Hr & Hins).
  unfold timer_work. cbn [t_pcs t_shared]. rewrite Hr, Hins. lia.
Qed.

Lemma user_rank q k : user_code q = Some k → timer_rank q = caller_rank k.
Proof. destruct q; try done; by intros [= <-]. Qed.

Lemma timer_step_work i p n n' :
  n_pcs n !! i = Some p → (p = Outside ∨ p = SendWait ∨ (∃ b, p = CloseWait b) ∨ p = EventDone) →
  timer_step i (if p is EventDone then Outside else p) n = Some n' → (sender_work n' < sender_work n)%nat.
Proof.
  intros Hp Hcase Hstep. unfold timer_step in Hstep.
  destruct (advance i (n_timers n)) as [t|] eqn:Hadv; [|done]. simpl in Hstep. injection Hstep as <-.
  assert (timer_work t < timer_work (n_timers n))%nat as Hlt by (apply timer_goes_on_work; by exists i).
  destruct (sum_list_with_at sender_rank _ _ _ Hp) as (r & Hr & Hins).
  unfold sender_work. cbn [goto put_timers n_pcs n_timers]. rewrite Hr, Hins.
  enough (∀ p', (p' = EventLock ∨ sender_rank p' ≤ sender_rank p)%nat → r + sender_rank p' + 20 * timer_work t <
    r + sender_rank p + 20 * timer_work (n_timers n))%nat as Hend.
  { apply Hend. destruct Hcase as [->|[->|[[b ->]| ->]]]; simpl; destruct (t_pcs t !! i) as [[]|]; simpl; auto with lia. }
  intros p' [->|Hle]; simpl; lia.
Qed.

Lemma sender_goes_on_work closes apps n n' :
  sinv closes apps n → sender_goes_on n n' → (sender_work n' < sender_work n)%nat.
Proof.
  intros Hinv [i Hadv]. unfold sender_advance in Hadv. destruct (ended n); [done|].
  destruct (n_pcs n !! i) as [p|] eqn:Hp; [|done]. simpl in Hadv.
  destruct (sum_list_with_at sender_rank _ _ _ Hp) as (r & Hr & Hins).
  assert (∀ m p', n_pcs m = n_pcs n → n_timers m = n_timers n → (sender_rank p' < sender_rank p)%nat →
    (sender_work (goto i p' m) < sender_work n)%nat) as Hgo.
  { intros m p' Hm Ht Hlt. unfold sender_work. cbn [goto n_pcs n_timers]. rewrite Hm, Ht, Hins, Hr. lia. }
  assert (∀ c k q p', t_pcs (n_timers n) !! i = Some q → user_code q = Some k →
    (sender_rank p' + 20 * timer_rank (enter c k) < sender_rank p + 20 * caller_rank k)%nat →
    (sender_work (goto i p' (timer_call i c k n)) < sender_work n)%nat) as Hcall.
  { intros c k q p' Hq Hu Hlt. pose proof (call_work i c k q _ Hq Hu) as Hw. rewrite (user_rank q k Hu) in Hw.
    unfold sender_work. cbn [goto timer_call put_timers n_pcs n_timers]. rewrite Hins, Hr. lia. }
  assert (∀ p', lock_sender i p' n = Some n' → (sender_rank p' < sender_rank p)%nat →
    (sender_work n' < sender_work n)%nat) as Hlock.
  { intros p' Hl Hlt. unfold lock_sender in Hl. destruct (n_owner n SenderMutex); [done|]. injection Hl as <-. by apply Hgo. }
  destruct p as [|m d|m d|d| | | | | | | | | |b|b|b|msg]; simpl in Hadv; try (by eapply Hlock; [done|simpl; lia]).
  - destruct (t_pcs (n_timers n) !! i) as [q|]; [|done]. simpl in Hadv. destruct (user_code q); [done|].
    by apply (timer_step_work i Outside n); [|left|].
  - injection Hadv as <-. apply (Hgo (push m n)); simpl; [done|done|lia].
  - injection Hadv as <-. destruct (lookup_lt_is_Some_2 (t_pcs (n_timers n)) i) as [q Hq].
    { rewrite <- (s_length _ _ n Hinv). by eapply lookup_lt_Some. }
    destruct (s_couple _ _ n Hinv i _ q Hp Hq) as [-> _]. by apply (Hcall _ FromApp Idle); [| |simpl; lia].
  - unfold timer_returned in Hadv. destruct (t_pcs (n_timers n) !! i) as [q|] eqn:Hq; [|done]. simpl in Hadv.
    destruct (user_code q); [injection Hadv as <-; apply Hgo; simpl; done || lia|].
    by apply (timer_step_work i SendWait n); [|right; left|].
  - injection Hadv as <-. apply (Hgo (own None n)); simpl; [done|done|lia].
  - injection Hadv as <-. apply Hgo; [done|done|]. destruct (n_pointer n); simpl; lia.
  - injection Hadv as <-. apply Hgo; [done|done|]. destruct (n_pointer n), (n_valid n); simpl; lia.
  - injection Hadv as <-. apply Hgo; [done|done|]. destruct (n_pointer n), (n_pending n); simpl; lia.
  - injection Hadv as <-. destruct (n_pending n) as [|m rest]; [apply Hgo; simpl; done || lia|].
    apply (Hgo (erase m rest n)); simpl; [done|done|lia].
  - injection Hadv as <-. apply (Hgo (own None n)); simpl; [done|done|lia].
  - by apply (timer_step_work i EventDone n); [|do 3 right|].
  - injection Hadv as <-. apply (Hgo (clear_pointer n)); simpl; [done|done|lia].
  - destruct (t_pcs (n_timers n) !! i) as [q|] eqn:Hq; [|done]. simpl in Hadv.
    destruct (user_code q) as [k|] eqn:Hu; [|done]. injection Hadv as <-. by apply (Hcall _ k q); [| |simpl; lia].
  - unfold timer_returned in Hadv. destruct (t_pcs (n_timers n) !! i) as [q|] eqn:Hq; [|done]. simpl in Hadv.
    destruct (user_code q); [injection Hadv as <-; apply Hgo; [done|done|destruct b; simpl; lia]|].
    apply (timer_step_work i (CloseWait b) n); [done| |done]. right. right. left. by exists b.
  - done.
Qed.

(** * When nobody goes on *)

Lemma not_crashed n i p msg : ended n = false → n_pcs n !! i = Some p → p ≠ Crashed msg.
Proof.
  intros [Ha _]%ended_false Hp ->. apply not_true_iff_false in Ha. apply Ha, existsb_exists.
  exists (Crashed msg). split; [|done]. by apply list_elem_of_In, (list_elem_of_lookup_2 _ i).
Qed.

Section sender_rest.
Context (closes : bool) (apps : nat).

Lemma sender_step_safe n n' :
  sinv closes apps n → sstep closes false n n' → (ended n' = true ∧ closes = true) ∨ sinv closes apps n'.
Proof.
  intros Hinv [i n'' Hadv|i m d Ha Hp Hq Hd|i Hc Ha Hp Hq|i Ha Hp Hptr Hpe|i Ha Hq He|σ Hc Hpe|σ [=]|].
  - by apply (sender_advance_safe closes apps n i).
  - right. apply (sender_goes closes apps n _ i Outside Idle (SendLock m d)); try done. by left.
  - right. apply (sender_goes closes apps n _ i Outside Idle (CloseClear false)); try done. by left.
  - right. destruct (lookup_lt_is_Some_2 (t_pcs (n_timers n)) i) as [q Hq].
    { rewrite <- (s_length _ _ n Hinv). by eapply lookup_lt_Some. }
    pose proof (s_couple _ _ n Hinv i _ q Hp Hq) as Hcouple. simpl in Hcouple. destruct q; try done.
    apply (sender_goes closes apps n _ i EventSend (Callback now count) (CloseClear true)); try done. by right.
  - right. destruct (lookup_lt_is_Some_2 (n_pcs n) i) as [p Hp].
    { rewrite (s_length _ _ n Hinv). by eapply lookup_lt_Some. }
    pose proof (s_couple _ _ n Hinv i p Poll Hp Hq) as Hcouple.
    assert (p = Outside ∨ ∃ msg, p = Crashed msg) as [->|[msg ->]].
    { destruct p as [| | | | | | | | | | | | |[]|[]|[]|]; try done; try (by left); try (by destruct Hcouple); right; eauto. }
    + assert (goto i Outside (put_timers (mkTimers
        (mkShared (s_world (t_shared (n_timers n))) (s_registered (t_shared (n_timers n))) Disabled)
        (t_owner (n_timers n)) (<[i := Find]> (t_pcs (n_timers n)))) n) = put_timers (mkTimers
        (mkShared (s_world (t_shared (n_timers n))) (s_registered (t_shared (n_timers n))) Disabled)
        (t_owner (n_timers n)) (<[i := Find]> (t_pcs (n_timers n)))) n) as <-.
      { unfold goto, put_timers. cbn. by rewrite (list_insert_id _ _ _ Hp). }
      apply (timer_moved closes apps n i Outside Poll Outside Find []); try done; [|by rewrite app_nil_r].
      apply event_safe; [apply Hinv|done|done].
    + by destruct (not_crashed n i _ msg Ha Hp).
  - right. split; try apply Hinv.
    by apply time_safe; [apply Hinv|..].
  - right. split; apply Hinv.
Qed.

Lemma ended_stays n n' : ended n = true → sstep closes false n n' → ended n' = true.
Proof.
  intros He [i n'' Hadv|i m d Ha Hp Hq Hd|i Hc Ha Hp Hq|i Ha Hp Hptr Hpe|i Ha Hq Hex|σ Hc Hpe|σ [=]|]; try congruence; [|done..].
  unfold sender_advance in Hadv. by rewrite He in Hadv.
Qed.

Lemma between_outside k qs : sum_list (zip_with between (replicate k Outside) qs) = 0%nat.
Proof. revert qs. by induction k as [|k IH]; intros [|q qs]; simpl; [..|apply IH]. Qed.

Lemma new_sender_inv workers w : new_timer w → sinv closes apps (new_sender apps workers w).
Proof.
  intros Hw. pose proof (registering_inv closes apps workers w Hw) as Ht.
  assert (∀ i p, n_pcs (new_sender apps workers w) !! i = Some p → p = Outside) as Hout
    by (by intros i p [-> _]%lookup_replicate).
  assert (∀ i q, t_pcs (registering apps workers w) !! i = Some q → plain q = true) as Hplain.
  { intros [|i] q Hi; cbn in Hi; [by injection Hi as <-|]. apply list_elem_of_lookup_2 in Hi.
    by apply elem_of_app in Hi as [[-> _]%elem_of_replicate|[-> _]%elem_of_replicate]. }
  destruct Hw as (_ & _ & Hu). split; try done.
  - cbn. by rewrite length_app, !length_replicate.
  - apply lock_inv_start. by intros l p [-> _]%elem_of_replicate.
  - intros i p q Hp%Hout Hq. subst p. by apply (Hplain i).
  - by intros i p ->%Hout.
  - cbn [n_pushed new_sender n_pcs n_timers]. rewrite between_outside. cbn. by rewrite Hu.
  - cbn [n_handled new_sender n_pcs n_timers]. rewrite sum_replicate_zero by done. cbn. by rewrite Hu.
  - cbn. by rewrite Hu.
  - apply ended_false. split; [|apply Ht]. apply not_true_iff_false.
    by intros (p & [-> _]%list_elem_of_In%elem_of_replicate & Hc)%existsb_exists.
Qed.

Lemma sender_reach_inv workers w n :
  new_timer w → sreach closes false (new_sender apps workers w) n →
  (ended n = true ∧ closes = true) ∨ sinv closes apps n.
Proof.
  intros Hw. induction 1 as [|n n' _ [[He Hc]|IH] Hstep]; [right; by apply new_sender_inv| |].
  - left. split; [by apply (ended_stays n)|done].
  - by apply (sender_step_safe n).
Qed.

(** A thread whose point in the timer is not the application's code goes on there. *)
Lemma in_timer_goes_on n i p q :
  sinv closes apps n → n_pcs n !! i = Some p → t_pcs (n_timers n) !! i = Some q → user_code q = None →
  is_Some (advance i (n_timers n)) → is_Some (sender_advance i n).
Proof.
  intros Hinv Hp Hq Hu [t Hadv]. pose proof (s_couple _ _ n Hinv i p q Hp Hq) as Hcouple.
  assert (∀ p', is_Some (timer_step i p' n)) as Hstep by (intros p'; unfold timer_step; rewrite Hadv; by eexists).
  pose proof (λ msg, not_crashed n i p msg (s_alive _ _ n Hinv) Hp) as Hc.
  unfold sender_advance. rewrite (s_alive _ _ n Hinv), Hp. simpl.
  destruct p as [|m d|m d|d| | | | | | | | | |b|b|b|msg]; simpl in Hcouple |- *; unfold timer_returned;
    rewrite ?Hq; simpl; rewrite ?Hu; try done; try (by destruct (Hc msg)).
  all: try (by destruct q); try (by destruct b, q); by destruct Hcouple as [-> _].
Qed.

(** A thread inside the sender's mutex, while nobody is inside the timer's, or
    outside of both. *)
Lemma sender_holder_goes_on n i p q :
  sinv closes apps n → n_pcs n !! i = Some p → t_pcs (n_timers n) !! i = Some q → is_Some (user_code q) →
  (p = Outside → at_rest q = false) → (n_owner n SenderMutex = None ∨ sender_holds SenderMutex p = true) →
  is_Some (sender_advance i n).
Proof.
  intros Hinv Hp Hq [k Hu] Hout Hfree. pose proof (s_couple _ _ n Hinv i p q Hp Hq) as Hcouple.
  pose proof (λ msg, not_crashed n i p msg (s_alive _ _ n Hinv) Hp) as Hc.
  unfold sender_advance. rewrite (s_alive _ _ n Hinv), Hp. simpl.
  destruct p as [|m d|m d|d| | | | | | | | | |b|b|b|msg]; simpl in Hcouple |- *; unfold timer_returned, lock_sender;
    rewrite ?Hq; simpl; rewrite ?Hu; try (by eexists).
  - destruct q; try done. by specialize (Hout eq_refl).
  - destruct Hfree as [->|?]; [by eexists|done].
  - destruct Hfree as [->|?]; [by eexists|done].
  - unfold timer_step, advance. destruct q; try done. rewrite Hq.
    pose proof (inv_alive _ _ _ (s_timer _ _ n Hinv)) as ->. by eexists.
  - by destruct (Hc msg).
Qed.

Lemma sender_rests n :
  sinv closes apps n → (∀ n', ¬ sender_goes_on n n') →
  Forall (λ p, p = Outside) (n_pcs n) ∧ Forall (λ q, at_rest q = true) (t_pcs (n_timers n)).
Proof.
  intros Hinv Hrest. pose proof (s_timer _ _ n Hinv) as Ht.
  assert (∀ i, ¬ is_Some (sender_advance i n)) as Hnone.
  { intros i [n' Hadv]. apply (Hrest n'). by exists i. }
  assert (∀ i q, t_pcs (n_timers n) !! i = Some q → ∃ p, n_pcs n !! i = Some p) as Hlook.
  { intros i q Hq. apply lookup_lt_is_Some_2. rewrite (s_length _ _ n Hinv). by eapply lookup_lt_Some. }
  assert (t_owner (n_timers n) TimerMutex = None) as Hfree.
  { destruct (lock_free holds _ _ TimerMutex (inv_lock _ _ _ Ht)) as [Ho|(i & q & Hq & Hh)]; [done|].
    destruct (Hlook i q Hq) as [p Hp]. destruct (Hnone i).
    apply (in_timer_goes_on n i p q); try done; [by destruct q|]. by apply (holder_goes_on closes apps _ i q). }
  assert (∀ i q, t_pcs (n_timers n) !! i = Some q → user_code q = None → at_rest q = true) as Hq.
  { intros i q Hq Hu. destruct (Hlook i q Hq) as [p Hp]. apply not_false_iff_true. intros Hr. apply (Hnone i).
    apply (in_timer_goes_on n i p q); try done. by apply (free_goes_on closes apps _ i q). }
  assert (n_owner n SenderMutex = None) as Hsfree.
  { destruct (lock_free sender_holds _ _ SenderMutex (s_lock _ _ n Hinv)) as [Ho|(i & p & Hp & Hh)]; [done|].
    destruct (lookup_lt_is_Some_2 (t_pcs (n_timers n)) i) as [q Hqi].
    { rewrite <- (s_length _ _ n Hinv). by eapply lookup_lt_Some. }
    destruct (Hnone i). destruct (user_code q) as [k|] eqn:Hu.
    - apply (sender_holder_goes_on n i p q); [done..|by exists k|by intros ->|by right].
    - pose proof (Hq i q Hqi Hu) as Hr. pose proof (s_couple _ _ n Hinv i p q Hp Hqi) as Hc.
      destruct q; try done; destruct p as [| | | | | | | | | | | | |[]|[]|[]|]; try done; by destruct Hc. }
  assert (∀ i p q, n_pcs n !! i = Some p → t_pcs (n_timers n) !! i = Some q → p = Outside ∧ at_rest q = true) as Hboth.
  { intros i p q Hp Hqi. destruct (user_code q) as [k|] eqn:Hu.
    - assert (¬ (p = Outside → at_rest q = false)) as Hn.
      { intros Hout. apply (Hnone i), (sender_holder_goes_on n i p q); [done..|by exists k|done|by left]. }
      assert (p = Outside) as -> by (destruct p; [done|by destruct Hn..]).
      split; [done|]. apply not_false_iff_true. intros Hr. by destruct Hn.
    - pose proof (Hq i q Hqi Hu) as Hr. split; [|done]. pose proof (s_couple _ _ n Hinv i p q Hp Hqi) as Hc.
      pose proof (λ msg, not_crashed n i p msg (s_alive _ _ n Hinv) Hp) as Hcr.
      destruct q; try done; destruct p as [| | | | | | | | | | | | |[]|[]|[]|msg]; try done;
        solve [by destruct Hc | by destruct (Hcr msg)]. }
  split; apply Forall_lookup_2.
  - intros i p Hp. destruct (lookup_lt_is_Some_2 (t_pcs (n_timers n)) i) as [q Hqi].
    { rewrite <- (s_length _ _ n Hinv). by eapply lookup_lt_Some. }
    by destruct (Hboth i p q Hp Hqi).
  - intros i q Hqi. destruct (Hlook i q Hqi) as [p Hp]. by destruct (Hboth i p q Hp Hqi).
Qed.

(** * Properties *)

(** C15: delayed sending between threads: whatever the interleaving of [send],
    [close_socket] and wake-ups, messages leave the list in the order in which they
    were put into it; each call of [on_time_event] takes one; a message in the list
    belongs to a deadline the timer has queued, to a call of [on_time_event] that is
    due or under way, to a [send] about to schedule it, or to one the closed timer
    has refused; and [on_time_event] always finds a message. *)
Theorem delayed_threads_fifo workers w n :
  new_timer w → sreach closes false (new_sender apps workers w) n → ended n = false →
  let t := n_timers n in
  let owes := sum_list_with owed (n_pcs n) in
  let trace := t_user (s_world (t_shared t)) in
  n_pushed n = n_handled n ++ n_pending n ∧
  (length (n_handled n) + owes)%nat = fired trace ∧
  length (n_pending n) = (length (m_queued_events (t_timer (s_world (t_shared t)))) + rejected trace +
    sum_list_with in_flight (t_pcs t) + owes + sum_list (zip_with between (n_pcs n) (t_pcs t)))%nat ∧
  (∀ i p, n_pcs n !! i = Some p → owed p = 1%nat → n_pending n ≠ []).
Proof.
  intros Hw Hreach He. destruct (sender_reach_inv workers w n Hw Hreach) as [[? _]|Hinv]; [congruence|].
  split; [apply Hinv|]. split; [apply Hinv|]. split; [by apply (pending_length closes apps)|].
  intros i p. by apply (pending_found closes apps).
Qed.

(** C14: no delayed message is forgotten: whenever all threads rest and the timer has
    not been closed, as many messages wait as deadlines are queued, each call of
    [on_time_event] has taken its message, and the event loop watches the timer,
    which is set for the first deadline or later if messages wait (by a clock that
    nobody sets). *)
Theorem delayed_threads_rest workers w n :
  new_timer w → sreach closes false (new_sender apps workers w) n →
  Forall (λ p, p = Outside) (n_pcs n) → Forall (λ q, at_rest q = true) (t_pcs (n_timers n)) →
  let s := t_shared (n_timers n) in
  0 ≤ m_fd (t_timer (s_world s)) →
  length (n_pending n) = length (m_queued_events (t_timer (s_world s))) ∧
  length (n_handled n) = fired (t_user (s_world s)) ∧
  s_registered s = true ∧ s_interest s = Armed ∧
  (n_pending n ≠ [] → ∃ next rest e, m_queued_events (t_timer (s_world s)) = next :: rest ∧
     pending (t_os (s_world s)) = Some e ∧ next * 1000000 ≤ e).
Proof.
  intros Hw Hreach Hout Hrest s Hfd.
  destruct (sender_reach_inv workers w n Hw Hreach) as [[He _]|Hinv].
  { apply orb_true_iff in He as [He|He]; apply existsb_exists in He as (p & Hp%list_elem_of_In & Hc).
    - by rewrite (proj1 (Forall_forall _ _) Hout p Hp) in Hc.
    - pose proof (proj1 (Forall_forall _ _) Hrest p Hp). by destruct p. }
  pose proof (inv_shared _ _ _ (s_timer _ _ n Hinv)) as Hok.
  destruct (ok_history _ _ _ _ Hok) as (_ & _ & _ & _ & Hrej). fold s in Hok, Hrej.
  assert (fd_open s = true) as Ho by (by apply fd_open_spec).
  pose proof (λ f, rest_sum f _ Hrest) as Hsum.
  assert (sum_list_with owed (n_pcs n) = 0%nat) as Howed.
  { clear -Hout. induction Hout as [|p ps -> _ IH]; [done|]. simpl. by rewrite IH. }
  assert (sum_list (zip_with between (n_pcs n) (t_pcs (n_timers n))) = 0%nat) as Hbetween.
  { clear -Hout. generalize (t_pcs (n_timers n)).
    induction Hout as [|p ps -> _ IH]; intros [|q qs]; [done..|]. simpl. apply IH. }
  pose proof (pending_length closes apps n Hinv) as Hlen. pose proof (s_handled _ _ n Hinv) as Hh.
  fold s in Hlen, Hh. rewrite Hrej, Howed, Hbetween, Hsum in Hlen by done. rewrite Howed in Hh. rewrite !Hsum in Hok by done.
  split; [lia|]. split; [lia|]. split; [by apply Hok|]. split.
  - pose proof (ok_watched _ _ _ _ Hok Ho) as Ha. unfold armed in Ha. by case_decide.
  - intros Hne. pose proof (ok_set _ _ _ _ Hok Ho eq_refl) as Hs. unfold set_ok in Hs.
    destruct (m_queued_events _) as [|next rest]; [by destruct (n_pending n)|].
    destruct Hs as (e & He & Hle). by exists next, rest, e.
Qed.

(** C16: no deadlock between the sender's mutex, which is held during calls of the
    timer, and the timer's: once no further calls are made and no further events
    arrive, every execution is finite, with a bound that is known in advance, and
    ends with every call returned; nothing undefined happens and the process is not
    aborted, unless the listener is closed by another thread. As for the timer, this
    takes a clock that nobody sets ([delayed_races] has the other case). *)
Theorem delayed_threads_finish workers w n :
  new_timer w → sreach closes false (new_sender apps workers w) n → ended n = false →
  ∀ k n', nsteps sender_goes_on k n n' →
    (k ≤ sender_work n)%nat ∧
    (ended n' = true → closes = true) ∧
    (ended n' = true ∨ (∃ n'', sender_goes_on n' n'') ∨
     Forall (λ p, p = Outside) (n_pcs n') ∧ Forall (λ q, at_rest q = true) (t_pcs (n_timers n'))).
Proof.
  intros Hw Hreach He k n' Hsteps.
  assert (sreach closes false (new_sender apps workers w) n' ∧ (k + sender_work n' ≤ sender_work n)%nat) as [Hreach' Hk].
  { clear He. induction Hsteps as [n|k n n1 n2 Hs _ IH]; [by split; [|lia]|].
    assert (sinv closes apps n) as Hinv.
    { destruct (sender_reach_inv workers w n Hw Hreach) as [[He _]|Hinv]; [|done].
      destruct Hs as [i Hadv]. unfold sender_advance in Hadv. by rewrite He in Hadv. }
    pose proof (sender_goes_on_work _ _ _ _ Hinv Hs). destruct IH as [? ?]; [|split; [done|lia]].
    destruct Hs as [i Hadv]. eapply sreach_step; [done|]. by eapply sstep_run. }
  split; [lia|].
  destruct (sender_reach_inv workers w n' Hw Hreach') as [[He' Hc]|Hinv]; [by auto|].
  split; [rewrite (s_alive _ _ n' Hinv); done|right].
  destruct (decide (Exists (λ i, is_Some (sender_advance i n')) (seq 0 (length (n_pcs n'))))) as [Hex|Hno].
  - left. apply Exists_exists in Hex as (i & _ & n'' & Hadv). by exists n'', i.
  - right. apply sender_rests; [done|]. intros n'' [i Hadv]. apply Hno, Exists_exists. exists i.
    split; [|by eexists]. apply elem_of_seq. split; [lia|]. simpl. unfold sender_advance in Hadv.
    destruct (ended n'); [done|]. destruct (n_pcs n' !! i) eqn:Hi; [|done]. by eapply lookup_lt_Some.
Qed.
End sender_rest.
End sender_live.

(** * Following a schedule *)

Section sender_schedules.
Context {Σ : Type} `{SteadyClock Σ}.
Implicit Types n : senders Σ.

Definition sender_choice_ok (closes settable : bool) (c : sender_choice Σ) : bool :=
  match c with CloseOutside _ => closes | SetTime _ => settable | _ => true end.

Lemma free_thread_spec i n :
  free_thread i n = true → n_pcs n !! i = Some Outside ∧ t_pcs (n_timers n) !! i = Some Idle.
Proof. unfold free_thread. by destruct (n_pcs n !! i) as [[]|], (t_pcs (n_timers n) !! i) as [[]|]. Qed.

Lemma sender_choose_step closes settable c n n' :
  sender_choice_ok closes settable c = true → sender_choose c n = Some n' → sstep closes settable n n'.
Proof.
  intros Hok Hc. unfold sender_choose in Hc. destruct (ended n) eqn:He; [done|].
  destruct c as [i|i m d|i|i|i|σ|σ].
  - by eapply sstep_run.
  - destruct (free_thread i n) eqn:Hf; [|done]. apply free_thread_spec in Hf as [Hp Hq]. simpl in Hc.
    destruct (_ && _) eqn:Hd; [|done]. injection Hc as <-. bool_to_prop. by apply sstep_send.
  - destruct (free_thread i n) eqn:Hf; [|done]. apply free_thread_spec in Hf as [Hp Hq].
    injection Hc as <-. by apply sstep_close.
  - destruct (n_pcs n !! i) as [[]|] eqn:Hp; try done. destruct (n_pointer n) eqn:Hptr; [|done].
    destruct (n_pending n) eqn:Hpe; [done|]. injection Hc as <-. apply sstep_fails; try done. by rewrite Hpe.
  - destruct (choose _ _) as [t|] eqn:Hch; [|done]. injection Hc as <-. simpl in Hch.
    destruct (t_pcs (n_timers n) !! i) as [[]|] eqn:Hi; try done.
    destruct (s_interest _) eqn:Ha; try done. destruct (pending _) as [e|] eqn:Hp; [|done].
    destruct (negb _ && _) eqn:Hle; [|done]. injection Hch as <-. apply sstep_event; [done..|].
    split; [done|]. exists e. by apply andb_true_iff in Hle as [_ ?%Z.leb_le].
  - destruct (choose _ _) as [t|] eqn:Hch; [|done]. injection Hc as <-. simpl in Hch.
    destruct (_ <=? _) eqn:Hle; [|done]. case_bool_decide; [|done]. injection Hch as <-. bool_to_prop.
    by apply sstep_time.
  - destruct (choose _ _) as [t|] eqn:Hch; [|done]. injection Hc as <-. simpl in Hch.
    case_bool_decide; [|done]. injection Hch as <-. by apply sstep_set.
Qed.

(** A schedule that can be followed to a state with [P]. *)
Lemma sender_played closes settable cs n0 (P : senders Σ → bool) :
  forallb (sender_choice_ok closes settable) cs = true →
  match sender_play cs n0 with Some n => P n | None => false end = true →
  ∃ n, sreach closes settable n0 n ∧ P n = true.
Proof.
  assert (∀ n, sreach closes settable n0 n → forallb (sender_choice_ok closes settable) cs = true →
    match sender_play cs n with Some n' => P n' | None => false end = true →
    ∃ n', sreach closes settable n0 n' ∧ P n' = true) as Hgen.
  { induction cs as [|c cs IH]; simpl; intros n Hreach Hok Hp; [by exists n|].
    apply andb_true_iff in Hok as [Hc Hok]. destruct (sender_choose c n) as [n1|] eqn:Hstep; [|done].
    apply (IH n1); [|done|done]. eapply sreach_step; [done|]. by apply (sender_choose_step closes settable c). }
  apply Hgen. constructor.
Qed.
End sender_schedules.

(** * Concrete interleavings *)

Definition run_thread (i k : nat) : list (sender_choice simtime) := replicate k (RunThread i).

Definition pass_ms (ms : Z) (e : option Z) : sender_choice simtime :=
  PassTime {| sim_clock := ms * 1000000; sim_pending := e; sim_loop := true |}.

Definition sample_message : delayed_message_t :=
  {| is_shared := true; dm_data := []; dm_length := 0; dm_blocking := false |}.

(** Thread 0 has registered the sender, thread 1 sent a message that is delayed by
    100 ms, the time has come, and worker 2 is in [on_time_event]. *)
Definition message_due : list (sender_choice simtime) :=
  run_thread 0 5 ++ [SendMessage 1 sample_message 100] ++ run_thread 1 8 ++
  [pass_ms 1100 (Some 1100000000); WakeUp 2] ++ run_thread 2 5.

Definition sample_senders : senders simtime := new_sender 1 1 sample_timer.

Definition crashed_with (msg : string) (n : senders simtime) : bool :=
  existsb (λ p, match p with Crashed msg' => bool_decide (msg' = msg) | _ => false end) (n_pcs n).

Definition sender_at_rest (n : senders simtime) : bool :=
  forallb (λ p, match p with Outside => true | _ => false end) (n_pcs n) &&
  forallb at_rest (t_pcs (n_timers n)).

(** Everybody rests, the timer is closed, and a message is left. *)
Definition left_behind (n : senders simtime) : bool :=
  sender_at_rest n && (m_fd (t_timer (s_world (t_shared (n_timers n)))) <? 0) &&
  (length (n_pending n) =? 1)%nat.

(** C32: what goes wrong when the listener is closed by another thread. Its
    [close_socket] sets [m_socket] to null without [m_mutex], so that a worker that
    has just compared it with null calls a method of a null pointer. And a message
    that is sent afterwards stays in the list for ever. And without any close, when
    the clock is set back while a worker is in [on_time_event] and another thread
    sends, the worker aborts the process. *)
Theorem delayed_races :
  (∃ n, sreach true false sample_senders n ∧ crashed_with "m_socket is null" n = true) ∧
  (∃ n, sreach true false sample_senders n ∧ left_behind n = true) ∧
  (∃ n, sreach false true sample_senders n ∧ ended n = true).
Proof.
  split_and!.
  - apply (sender_played true false (message_due ++ run_thread 2 2 ++ [CloseOutside 1] ++ run_thread 1 1 ++
      run_thread 2 1)); by vm_compute.
  - apply (sender_played true false (run_thread 0 5 ++ [CloseOutside 1] ++ run_thread 1 7 ++
      [SendMessage 1 sample_message 100] ++ run_thread 1 8)); by vm_compute.
  - apply (sender_played false true (message_due ++ [SetTime {| sim_clock := 500000000; sim_pending := None; sim_loop := true |}] ++
      [SendMessage 1 sample_message 100] ++ run_thread 1 8 ++ run_thread 2 10)); by vm_compute.
Qed.

(** ** Witnesses *)

Lemma at_rest_spec n :
  sender_at_rest n = true →
  Forall (λ p, p = Outside) (n_pcs n) ∧ Forall (λ q, at_rest q = true) (t_pcs (n_timers n)).
Proof.
  intros [Hp Hq]%andb_true_iff. rewrite forallb_forall in Hp, Hq.
  split; apply Forall_forall; intros x Hx%list_elem_of_In; [|by apply Hq].
  specialize (Hp x Hx). by destruct x.
Qed.

(** A message that waits for its time. *)
Lemma sample_waits :
  ∃ n, sreach false false sample_senders n ∧
    sender_at_rest n && negb (ended n) && (0 <=? m_fd (t_timer (s_world (t_shared (n_timers n))))) &&
    bool_decide (m_queued_events (t_timer (s_world (t_shared (n_timers n)))) = [1100]) = true.
Proof.
  apply (sender_played false false (run_thread 0 5 ++ [SendMessage 1 sample_message 100] ++ run_thread 1 8)
    sample_senders (λ n, _)); by vm_compute.
Qed.

(** A worker in [on_time_event]. *)
Lemma sample_due :
  ∃ n, sreach false false sample_senders n ∧
    bool_decide (ended n = false ∧ n_pcs n = [Outside; Outside; EventLock] ∧ sender_work n = 207%nat) = true.
Proof. apply (sender_played false false message_due); by vm_compute. Qed.

Lemma delayed_threads_fifo_witness :
  ∃ n, sreach false false sample_senders n ∧ n_pcs n = [Outside; Outside; EventLock] ∧ n_pending n ≠ [] ∧
    n_pushed n = n_handled n ++ n_pending n.
Proof.
  destruct sample_due as (n & Hreach & (He & Hp & _)%bool_decide_eq_true). exists n.
  destruct (delayed_threads_fifo false 1 1 sample_timer n sample_timer_new Hreach He) as (Hf & _ & _ & Hfound).
  split_and!; [done|done| |done]. apply (Hfound 2%nat EventLock); [by rewrite Hp|done].
Defined.

Lemma delayed_threads_rest_witness :
  ∃ n, sreach false false sample_senders n ∧ length (n_pending n) = 1%nat ∧
    s_interest (t_shared (n_timers n)) = Armed ∧
    ∃ e, pending (t_os (s_world (t_shared (n_timers n)))) = Some e ∧ 1100 * 1000000 ≤ e.
Proof.
  destruct sample_waits as (n & Hreach & Hp). exists n. rewrite !andb_true_iff in Hp.
  destruct Hp as [[[Hr _] Ho%Z.leb_le] Hq%bool_decide_eq_true]. apply at_rest_spec in Hr as [Hout Hrest].
  destruct (delayed_threads_rest false 1 1 sample_timer n sample_timer_new Hreach Hout Hrest Ho)
    as (Hl & _ & _ & Ha & Hs). rewrite Hq in Hl, Hs.
  split; [done|]. split; [done|]. split; [done|].
  destruct Hs as (next & rest & e & [= <- <-] & He & Hle); [by intros Hn; rewrite Hn in Hl|]. by exists e.
Defined.

Lemma delayed_threads_finish_witness :
  ∃ n, sreach false false sample_senders n ∧ n_pcs n = [Outside; Outside; EventLock] ∧
    ∀ k n', nsteps sender_goes_on k n n' → (k ≤ 207)%nat ∧ ended n' = false.
Proof.
  destruct sample_due as (n & Hreach & (He & Hp & Hw)%bool_decide_eq_true). exists n.
  split; [done|]. split; [done|]. intros k n' Hsteps.
  destruct (delayed_threads_finish false 1 1 sample_timer n sample_timer_new Hreach He k n' Hsteps) as (Hk & Hd & _).
  rewrite Hw in Hk. split; [done|]. destruct (ended n'); [by specialize (Hd eq_refl)|done].
Defined.
