(* ===== verification/Inherited.v ===== *)
(** Member functions of [TcpSocket] as a derived class inherits them: they work on
    the base part of the object, and their calls of the virtual [close] and
    [pull_messages] go to the overriding functions. *)
From S2P Require Import Prelude Machine Buffer Slicer Inet Sys TcpSocket.
Local Open Scope Z_scope.

(** An object of a derived class: the base object with its system, and the fields
    of the derived class. *)
Record derived (Σ T D : Type) := mkDerived {
  d_base : world Σ T;
  d_own : D;
}.
Arguments mkDerived {Σ T D}.
Arguments d_base {Σ T D}.
Arguments d_own {Σ T D}.

Section inherited.
Context {Σ T D : Type} `{Sys Σ} `{Inet} `{MessageSlicer T}.

Abbreviation W := (derived Σ T D).
Implicit Types w : W.

(** A member function of the base class that calls no overridden one. *)
Definition base {A} (m : M (world Σ T) A) : M W A :=
  zoom d_base (λ b w, mkDerived b (d_own w)) m.

Definition own : M W D := λ w, (Val (d_own w), w).

Definition set_own (f : D → D) : M W unit := λ w,
  (Val tt, mkDerived (d_base w) (f (d_own w))).

(** The buffer of the slicer, which [TcpSocket::pull_messages] fills. *)
Definition slicer_buf : M W buffer_t :=
  s ← base sock; mret (slicer_buffer (m_slicer s)).

Definition set_slicer_buf (b : buffer_t) : M W unit :=
  base (upd (λ s, set_slicer (slicer_set_buffer b (m_slicer s)) s)).

(** ** With an overriding [close] *)

Section virtual.
Context (vclose : bool → M W bool).

Definition connect (tail : list byte) (address : Address) (name : string) : M W bool :=
  if PortNumber address =? 0 then
    throw (invalid_argument "Need to specify a port number")
  else
  base (if String.eqb name "" then
     upd (set_is_ipv6 (IPv6 address));;
     created ← create_fd;
     require_fd created
   else
     my_addr ← lift (resolve_URL tail name 0 (IPv6 address));
     bound ← bind_socket my_addr;
     require_fd bound);;
  base (set_nonblocking false);;
  s ← base sock;
  let sock_addr :=
    if m_is_ipv6 s then SaIn6 (get_sock_address6 address uninit_in6).2
    else SaIn (get_sock_address address uninit_in).2 in
  r ← base (os_call (sys_connect (m_fd s) sock_addr));
  match r with
  | Some _ => vclose false;; mret false
  | None =>
      base (set_nonblocking true);;
      base calculate_remote_address;;
      base update_port_number;;
      base (upd (set_state Connected));;
      mret true
  end.

Definition internal_accept : M W (option Z) :=
  s ← base sock;
  r ← base (os_call (sys_accept (m_fd s)));
  match r with
  | inl fd => base (log (Opened fd));; mret (Some fd)
  | inr e =>
      if negb (bool_decide (e = EAGAIN)) then
        vclose false;;
        throw (socket_error ("Failed to accept new connection; " +:+ strerror e))
      else mret None
  end.

(** One [recv] into a buffer of the caller's choice. *)
Definition receive_data (buffer : M W buffer_t) (put : buffer_t → M W unit) : M W bool :=
  s ← base sock;
  b ← buffer;
  if negb (is_valid_sock s) then mret false
  else if buf_is_valid b then
    throw (runtime_error "TcpSocket::receive_data failed: Still have data queued up in buffer")
  else
    put (buf_set_data (zero_bytes MAX_SIZE) b);;
    x ← base (os_call (sys_recv (m_fd s) MAX_SIZE));
    match x with
    | inl [] => vclose true;; mret false
    | inl bs =>
        base (log (Received (m_fd s) bs));;
        data ← write_slice 0 bs (zero_bytes MAX_SIZE);
        put (buf_set_position 0 (buf_set_size (Z.of_nat (length bs)) (buf_set_data data b)));;
        mret true
    | inr e =>
        match e with
        | EAGAIN => mret false
        | ECONNRESET => vclose true;; mret false
        | _ =>
            vclose true;;
            throw (socket_error ("Failed to receive data; " +:+ strerror e))
        end
    end.

Definition write_step : M W (option (option bool)) :=
  s ← base sock;
  match m_current_message s with
  | None => halt (UB "no current message")
  | Some message =>
      if negb (mo_sent_pos message <? mo_length message) then mret (Some None) else
      bytes ← base (read_slice (mo_sent_pos message)
                (u32 (mo_length message - mo_sent_pos message)) (mo_data message));
      r ← base (os_call (sys_write (m_fd s) bytes));
      match r with
      | inl n =>
          if 0 <? n then
            base (log (Wrote (m_fd s) (take (Z.to_nat n) bytes)));;
            base (upd (set_current_message (Some
              {| mo_length := mo_length message; mo_sent_pos := u32 (mo_sent_pos message + n);
                 mo_is_shared := mo_is_shared message; mo_data := mo_data message |})));;
            mret None
          else vclose true;; mret (Some (Some false))
      | inr e =>
          match e with
          | EAGAIN => mret (Some (Some true))
          | ECONNRESET | EPIPE => vclose true;; mret (Some (Some false))
          | _ => vclose true;; throw (socket_error (strerror e))
          end
      end
  end.

Definition send_step (fuel : nat) : M W (option bool) :=
  more ← base next_message;
  if negb more then mret (Some false) else
  valid ← base is_valid;
  if negb valid then throw (socket_error "Socket is closed") else
  r ← iter fuel write_step;
  match r with
  | Some b => mret (Some b)
  | None => base (upd (set_current_message None));; mret None
  end.

Definition do_send (fuel : nat) : M W bool := iter fuel (send_step fuel).
End virtual.

(** [TcpSocket::receive] with the overriding [pull_messages]. *)
Definition receive (vpull : M W unit) : M W (option message_in_t) :=
  vpull;;
  s ← base sock;
  if slicer_has_messages (m_slicer s) then
    res ← base (on_slicer slicer_get_message);
    match res with
    | None => throw (socket_error "failed to get message")
    | Some msg => mret (Some msg)
    end
  else mret None.
End inherited.

(** * Following the base class

    A member of the derived class follows one of [TcpSocket] when it has the same
    outcome and the same effect on the base part, and changes its own fields only
    along [R]. If [close] follows [TcpSocket::close], so does every member that
    calls it. *)

Section follows.
Context {Σ T D : Type} `{Sys Σ} `{Inet} `{SlicerLaws T}.
Context (P : D → Prop) (R : relation D) `{!PreOrder R}.
Context (kept : ∀ o o', P o → R o o' → P o').
Abbreviation W := (derived Σ T D).

Definition follows {A} (mv : M W A) (m : M (world Σ T) A) : Prop :=
  ∀ w, P (d_own w) → ∃ o', R (d_own w) o' ∧
    mv w = ((m (d_base w)).1, mkDerived (m (d_base w)).2 o').

Lemma follows_base {A} (m : M (world Σ T) A) : follows (base m) m.
Proof.
  intros [b o] _. exists o. split; [done|]. unfold base, zoom. simpl. by destruct (m b).
Qed.

Lemma follows_local {A} (mv : M W A) (m : M (world Σ T) A) r :
  (∀ w, mv w = (r, w)) → (∀ b, m b = (r, b)) → follows mv m.
Proof. intros Hv Hm [b o] _. exists o. by rewrite Hv, Hm. Qed.

Lemma follows_ret {A} (a : A) : follows (mret a) (mret a).
Proof. by eapply follows_local. Qed.

Lemma follows_throw {A} e : follows (A:=A) (throw e) (throw e).
Proof. by eapply follows_local. Qed.

Lemma follows_halt {A} h : follows (A:=A) (halt h) (halt h).
Proof. by eapply follows_local. Qed.

Lemma follows_bind {A B} (mv : M W A) m (kv : A → M W B) k :
  follows mv m → (∀ a, follows (kv a) (k a)) → follows (mv ≫= kv) (m ≫= k).
Proof.
  intros Hm Hk w HP. destruct (Hm w HP) as (o1 & HR & Heq). unfold mbind, M_bind. rewrite Heq.
  destruct (m (d_base w)) as [[a|e|h] b]; simpl; [|by exists o1..].
  destruct (Hk a (mkDerived b o1) (kept _ _ HP HR)) as (o2 & HR2 & Heq2). exists o2.
  split; [by transitivity o1|done].
Qed.

Lemma follows_iter {A} n (mv : M W (option A)) m : follows mv m → follows (iter n mv) (iter n m).
Proof.
  intros Hm. induction n as [|n IH]; simpl; [apply follows_halt|].
  apply follows_bind; [done|]. intros [a|]; [apply follows_ret|done].
Qed.
End follows.

(** Compare two programs step by step. *)
Ltac follows_step kept :=
  first
  [ apply follows_base; exact _
  | apply follows_ret; exact _
  | apply follows_throw; exact _
  | apply follows_halt; exact _
  | apply (follows_bind _ _ kept); [|intros ?]
  | assumption
  | match goal with
    | |- follows _ _ _ (if ?b then _ else _) => destruct b
    | |- follows _ _ _ (match ?x with _ => _ end) => destruct x
    end ].

Section members.
Context {Σ T D : Type} `{Sys Σ} `{Inet} `{SlicerLaws T}.
Context (P : D → Prop) (R : relation D) `{!PreOrder R}.
Context (kept : ∀ o o', P o → R o o' → P o').
Abbreviation W := (derived Σ T D).
Implicit Types (vclose : bool → M W bool).

Lemma connect_follows vclose tail address name :
  follows P R (vclose false) (close false) →
  follows P R (connect vclose tail address name) (TcpSocket.connect tail address name).
Proof. intros Hc. unfold connect, TcpSocket.connect. repeat follows_step kept. Qed.

Lemma internal_accept_follows vclose :
  follows P R (vclose false) (close false) →
  follows P R (internal_accept vclose) TcpSocket.internal_accept.
Proof. intros Hc. unfold internal_accept, TcpSocket.internal_accept. repeat follows_step kept. Qed.

Lemma do_send_follows vclose fuel :
  follows P R (vclose true) (close true) →
  follows P R (do_send vclose fuel) (TcpSocket.do_send fuel).
Proof.
  intros Hc. unfold do_send, TcpSocket.do_send. apply (follows_iter _ _ kept).
  unfold send_step, TcpSocket.send_step, write_message. repeat follows_step kept.
  apply (follows_iter _ _ kept). unfold write_step, TcpSocket.write_step.
  repeat follows_step kept.
Qed.

Lemma receive_data_follows vclose :
  follows P R (vclose true) (close true) →
  follows P R (receive_data vclose slicer_buf set_slicer_buf) TcpSocket.receive_data.
Proof.
  intros Hc [b o] HP. unfold receive_data, TcpSocket.receive_data.
  unfold slicer_buf, set_slicer_buf, base at 1, zoom, mbind, M_bind, sock at 1 2. simpl.
  destruct (negb (is_valid_sock (w_sock b))); [by exists o|].
  destruct (buf_is_valid (slicer_buffer (m_slicer (w_sock b)))); [by exists o|].
  unfold base, zoom, os_call, upd. simpl. destruct sys_recv as [[[|x l]|e] σ]; simpl.
  - match goal with |- context [vclose true ?w] => destruct (Hc w HP) as (o' & HR & ->) end.
    exists o'. simpl. by destruct (close true _) as [[] ?].
  - unfold write_slice, log, upd, sock. destruct in_range; [|by exists o].
    exists o. split; [done|]. simpl. unfold set_slicer at 2. simpl. by rewrite set_buffer_twice.
  - destruct e; try (by exists o);
      match goal with |- context [vclose true ?w] => destruct (Hc w HP) as (o' & HR & ->) end;
      exists o'; simpl; by destruct (close true _) as [[] ?].
Qed.

(** The member functions that a class derived from [TcpSocket] inherits do on its
    base part, step for step and with the same result, what they do in [TcpSocket]
    itself, as long as the overriding [close] does what [TcpSocket::close] does and
    a change [R] of the fields of the derived class; they change these fields
    along [R] only. What is proved of [TcpSocket]'s members holds of the inherited
    ones. *)
Theorem inherited_members_follow vclose fuel :
  (∀ fast, follows P R (vclose fast) (close fast)) →
  (∀ tail address name,
     follows P R (connect vclose tail address name) (TcpSocket.connect tail address name)) ∧
  follows P R (internal_accept vclose) TcpSocket.internal_accept ∧
  follows P R (receive_data vclose slicer_buf set_slicer_buf) TcpSocket.receive_data ∧
  follows P R (do_send vclose fuel) (TcpSocket.do_send fuel).
Proof.
  intros Hc. pose proof (Hc false). pose proof (Hc true).
  split; [intros; by apply connect_follows|]. split; [by apply internal_accept_follows|].
  split; [by apply receive_data_follows|by apply do_send_follows].
Qed.
End members.
