(* ===== verification/Tls.v ===== *)
(** [TlsSocket] and [TlsContext] of include/yael/network/TlsSocket.h,
    src/network/TlsSocket.cpp, TlsContext.h and TlsContext.cpp, with TlsPolicy.h,
    ClientCredentials.h and ServerCredentials.h. The cryptographic library Botan is
    a parameter: a channel runs, and calls back. *)
From S2P Require Import Prelude Machine Buffer Slicer Inet Sys TcpSocket Inherited.
Local Open Scope Z_scope.

(** * The cryptographic library *)

Inductive alert := CLOSE_NOTIFY | OtherAlert (code : Z).

Inductive protocol_version := TLS_V12.

(** A store of trusted certificates, read from a directory. *)
Inductive certificate_store := Certificate_Store_In_Memory (dir : string).

(** The calls of [Botan::TLS::Callbacks] that a channel makes. *)
Inductive callback :=
| EmitData (data : list byte)
| RecordReceived (seq_no : Z) (data : list byte)
| AlertReceived (a : alert)
| VerifyCertChain (cert_chain : list (list byte)) (hostname : string)
| SessionEstablished.

(** How a callback came back to the channel. *)
Inductive answer := Returned (b : bool) | Raised (e : exn).

(** What a call of a channel does: it returns or throws with a new state of the
    channel, or calls back, in a state [c] that the callback may change by calling
    the channel again, and goes on from the answer. *)
Inductive run (C : Type) :=
| Returns (c : C)
| Throws (e : exn) (c : C)
| Calls (cb : callback) (c : C) (k : answer → C → run C).
Arguments Returns {C} c.
Arguments Throws {C} e c.
Arguments Calls {C} cb c k.

(** [Botan::Credentials_Manager]: keys [PK] and certificates [X]. *)
Record credentials (PK X : Type) := mkCredentials {
  trusted_certificate_authorities : string → string → list certificate_store;
  cert_chain : list string → string → string → list X;
  private_key_for : X → string → string → option PK;
}.
Arguments mkCredentials {PK X}.
Arguments trusted_certificate_authorities {PK X}.
Arguments cert_chain {PK X}.
Arguments private_key_for {PK X}.

(** [Botan::TLS::Policy], as far as it is overridden. *)
Record policy := mkPolicy { allowed_signature_methods : list string }.

(** [Botan::TLS::Server_Information] *)
Record server_information := mkServerInformation { si_hostname : string; si_port : Z }.

(** Channels of type [C]: the constructors, the calls, and the loading of keys and
    certificates from files. *)
Class Botan (C : Type) := {
  private_key : Type;
  certificate : Type;
  load_key : string → exn + private_key;
  load_certificate : string → exn + certificate;
  new_server : credentials private_key certificate → policy → run C;
  new_client : credentials private_key certificate → policy → server_information →
    protocol_version → run C;
  ch_send : list byte → C → run C;
  ch_received_data : list byte → C → run C;
  ch_close : C → run C;
}.

(** * Data *)

Module Tls.
Inductive State := Unknown | Listening | Setup | Connected | Shutdown | Closed.
End Tls.

#[export] Instance tls_state_eq_dec : EqDecision Tls.State.
Proof. solve_decision. Defined.

(** [m_mutex] is true while a call of this object holds it; [m_cond_var] counts
    the notifications; [m_channel] is the channel behind the pointer. *)
Record TlsContext (C : Type) := mkTlsContext {
  m_mutex : bool;
  m_cond_var : nat;
  m_channel : option C;
}.
Arguments mkTlsContext {C}.
Arguments m_mutex {C}.
Arguments m_cond_var {C}.
Arguments m_channel {C}.

(** The fields of [TlsSocket] beyond those of [TcpSocket]. [m_new_context] is the
    context whose constructor is running, before [m_tls_context] points to it. *)
Record TlsSocket (C : Type) := mkTlsSocket {
  m_key_path : string;
  m_cert_path : string;
  m_tls_context : option (TlsContext C);
  m_new_context : option (TlsContext C);
  m_buffer : buffer_t;
  m_state : Tls.State;
}.
Arguments mkTlsSocket {C}.
Arguments m_key_path {C}.
Arguments m_cert_path {C}.
Arguments m_tls_context {C}.
Arguments m_new_context {C}.
Arguments m_buffer {C}.
Arguments m_state {C}.

Section updates.
Context {C : Type}.
Implicit Types (c : TlsContext C) (o : TlsSocket C).

Definition put_mutex b c : TlsContext C := mkTlsContext b (m_cond_var c) (m_channel c).
Definition put_channel ch c : TlsContext C := mkTlsContext (m_mutex c) (m_cond_var c) ch.
Definition notify c : TlsContext C := mkTlsContext (m_mutex c) (S (m_cond_var c)) (m_channel c).

Definition put_context x o : TlsSocket C := mkTlsSocket (m_key_path o) (m_cert_path o)
  x (m_new_context o) (m_buffer o) (m_state o).
Definition put_new_context x o : TlsSocket C := mkTlsSocket (m_key_path o) (m_cert_path o)
  (m_tls_context o) x (m_buffer o) (m_state o).
Definition put_buffer b o : TlsSocket C := mkTlsSocket (m_key_path o) (m_cert_path o)
  (m_tls_context o) (m_new_context o) b (m_state o).
Definition put_state st o : TlsSocket C := mkTlsSocket (m_key_path o) (m_cert_path o)
  (m_tls_context o) (m_new_context o) (m_buffer o) st.
End updates.

(** ** Policy and credentials *)

Definition TlsPolicy : policy := {| allowed_signature_methods := ["RSA"] |}.

Definition ClientCredentials {PK X} : credentials PK X := {|
  trusted_certificate_authorities _ _ := [Certificate_Store_In_Memory "cas"];
  cert_chain _ _ _ := [];
  private_key_for _ _ _ := None;
|}.

(** The members [m_key] and [m_certificate], loaded by the constructor below. *)
Definition ServerCredentials {PK X} (key : PK) (cert : X) : credentials PK X := {|
  trusted_certificate_authorities _ _ := [];
  cert_chain _ _ _ := [cert];
  private_key_for _ _ _ := Some key;
|}.

Definition load_credentials {S C} `{Botan C} (key_path cert_path : string)
    : M S (credentials private_key certificate) :=
  match load_key key_path with
  | inl e => throw e
  | inr key =>
      match load_certificate cert_path with
      | inl e => throw e
      | inr cert => mret (ServerCredentials key cert)
      end
  end.

(** * Operations *)

Section Tls.
Context {Σ T C : Type} `{Sys Σ} `{Inet} `{MessageSlicer T} `{Botan C}.

Abbreviation W := (derived Σ T (TlsSocket C)).
Implicit Types w : W.

Definition is_connected : M W bool :=
  o ← own; mret (bool_decide (m_state o = Tls.Connected)).

Definition set_tls_state (st : Tls.State) : M W unit := set_own (put_state st).

(** ** TlsContext *)

(** The object a member function of [TlsContext] runs on: the one the socket owns,
    or the one that is being constructed. *)
Definition the_context (owned : bool) (o : TlsSocket C) : option (TlsContext C) :=
  if owned then m_tls_context o else m_new_context o.

Definition context (owned : bool) : M W (TlsContext C) :=
  o ← own;
  match the_context owned o with
  | Some c => mret c
  | None => halt (UB "m_tls_context is null")
  end.

Definition set_context (owned : bool) (f : TlsContext C → TlsContext C) : M W unit :=
  set_own (λ o,
    if owned then put_context (f <$> m_tls_context o) o
    else put_new_context (f <$> m_new_context o) o).

(** [std::unique_lock lock(m_mutex)] to the end of the scope. *)
Definition lock (owned : bool) : M W unit :=
  c ← context owned;
  if m_mutex c then halt (Fatal "deadlock: m_mutex is locked by this thread")
  else set_context owned (put_mutex true).

Definition unlock (owned : bool) : M W unit := set_context owned (put_mutex false).

Definition locked {A} (owned : bool) (body : M W A) : M W A :=
  lock owned;; finally body (unlock owned).

Definition channel : M W C :=
  c ← context true;
  match m_channel c with
  | Some ch => mret ch
  | None => halt (UB "m_channel is null")
  end.

(** A call of a channel, with [handle] for its callbacks. A channel that is owned
    sits in [m_channel] while a callback runs; one that is being constructed is not
    reachable from there yet. *)
Fixpoint interp (owned : bool) (handle : callback → M W bool) (r : run C) : M W C :=
  match r with
  | Returns c => mret c
  | Throws e c => when owned (set_context true (put_channel (Some c)));; throw e
  | Calls cb c k =>
      when owned (set_context true (put_channel (Some c)));;
      a ← catch (b ← handle cb; mret (Returned b)) (λ e, mret (Raised e));
      c' ← (if owned then channel else mret c);
      interp owned handle (k a c')
  end.

Definition on_channel (handle : callback → M W bool) (call : C → run C) : M W unit :=
  c ← channel;
  c' ← interp true handle (call c);
  set_context true (put_channel (Some c')).

Section callbacks.
Context (vclose : bool → M W bool) (fuel : nat).

(** The loop of [tls_emit_data], with [sent] bytes written. *)
Fixpoint emit_loop (n : nat) (data : list byte) (sent : Z) : M W unit :=
  match n with
  | O => halt OutOfFuel
  | S n' =>
      let size := Z.of_nat (length data) in
      if negb (sent <? size) then mret tt else
      s ← base sock;
      bytes ← base (read_slice sent (size - sent) data);
      r ← base (os_call (sys_write (m_fd s) bytes));
      match r with
      | inl k =>
          if 0 <? k then
            base (log (Wrote (m_fd s) (take (Z.to_nat k) bytes)));;
            emit_loop n' data (u32 (sent + k))
          else vclose false;; mret tt
      | inr e =>
          base (set_errno e);;
          match e with
          | EAGAIN | ECONNRESET => emit_loop n' data sent
          | EPIPE => vclose false;; mret tt
          | _ =>
              vclose false;;
              e' ← base get_errno;
              throw (socket_error (strerror e'))
          end
      end
  end.

Definition tls_emit_data (data : list byte) : M W unit := emit_loop fuel data 0.

(** The loop of [tls_record_received], from position [pos]. *)
Fixpoint record_loop (n : nat) (data : list byte) (pos : Z) : M W unit :=
  match n with
  | O => halt OutOfFuel
  | S n' =>
      let size := Z.of_nat (length data) in
      if negb (pos <? size) then mret tt else
      b ← slicer_buf;
      if buf_is_valid b then throw (runtime_error "Invalid state") else
      let cpy_size := Z.min MAX_SIZE (size - pos) in
      bytes ← base (read_slice pos cpy_size data);
      array ← base (write_slice 0 bytes (Buffer.m_data b));
      set_slicer_buf (buf_set_position 0 (buf_set_size cpy_size (buf_set_data array b)));;
      base (on_slicer slicer_process_buffer);;
      record_loop n' data (pos + cpy_size)
  end.

(** Every iteration takes at least one byte. *)
Definition tls_record_received (owned : bool) (data : list byte) : M W unit :=
  locked owned (record_loop (S (length data)) data 0).

Definition tls_alert (a : alert) : M W unit :=
  match a with
  | CLOSE_NOTIFY => vclose true;; mret tt
  | OtherAlert _ => mret tt
  end.

Definition tls_session_established (owned : bool) : M W bool :=
  locked owned (
    set_tls_state Tls.Connected;;
    set_context owned notify;;
    mret false).

(** Certificates are not checked. *)
Definition tls_verify_cert_chain (cert_chain : list (list byte)) (hostname : string) : M W unit :=
  mret tt.

(** The virtual functions of [TlsContext]. *)
Definition handle (owned : bool) (cb : callback) : M W bool :=
  match cb with
  | EmitData data => tls_emit_data data;; mret false
  | RecordReceived _ data => tls_record_received owned data;; mret false
  | AlertReceived a => tls_alert a;; mret false
  | VerifyCertChain cs hostname => tls_verify_cert_chain cs hostname;; mret false
  | SessionEstablished => tls_session_established owned
  end.

(** [TlsContext::close] *)
Definition context_close : M W unit := on_channel (handle true) ch_close.

(** [TlsContext::send]: the header, then the data. *)
Definition context_send (data : list byte) (length : Z) : M W unit :=
  locked true (
    let header := u32 (length + 4) in
    on_channel (handle true) (ch_send (le_bytes 4 header));;
    bytes ← base (read_slice 0 length data);
    on_channel (handle true) (ch_send bytes)).

Definition tls_process_data (b : buffer_t) : M W unit :=
  c ← context true;
  match m_channel c with
  | Some _ =>
      bytes ← base (read_slice 0 (m_size b) (Buffer.m_data b));
      on_channel (handle true) (ch_received_data bytes)
  | None => mret tt
  end.

(** [make_unique] of a [TlsServer] or [TlsClient] for [m_tls_context]; [m_channel]
    is set when the constructor of the channel returns. *)
Definition make_context (creds : M W (credentials private_key certificate))
    (new : credentials private_key certificate → run C) : M W unit :=
  set_own (put_new_context (Some (mkTlsContext false 0 None)));;
  catch (
    cs ← creds;
    ch ← interp false (handle false) (new cs);
    set_context false (put_channel (Some ch));;
    o ← own;
    set_own (put_context (m_new_context o));;
    set_own (put_new_context None))
  (λ e, set_own (put_new_context None);; throw e).

Definition TlsServer (key_path cert_path : string) : M W unit :=
  make_context (load_credentials key_path cert_path) (λ cs, new_server cs TlsPolicy).

Definition TlsClient : M W unit :=
  make_context (mret ClientCredentials) (λ cs, new_client cs TlsPolicy
    {| si_hostname := "botan.randombit.net"; si_port := 443 |} TLS_V12).
End callbacks.

(** ** TlsSocket::close

    [depth] bounds how often the channel, called by [close], closes the socket
    again from its callbacks. *)
Fixpoint close (fuel depth : nat) (fast : bool) : M W bool :=
  match depth with
  | O => halt OutOfFuel
  | S d =>
      o ← own;
      if bool_decide (is_Some (m_tls_context o)) &&
         bool_decide (m_state o = Tls.Connected) && negb fast then
        set_tls_state Tls.Shutdown;;
        context_close (close fuel d) fuel;;
        mret false
      else
        set_tls_state Tls.Closed;;
        base (TcpSocket.close fast)
  end.

Section socket.
Context (fuel depth : nat).

Definition do_send : M W bool := Inherited.do_send (close fuel depth) fuel.

(** [send] of a raw pointer; the other two overloads call it. *)
Definition send (data : list byte) (length : Z) (async : bool) : M W bool :=
  o ← own;
  if negb (bool_decide (m_state o = Tls.Connected)) then mret false else
  sent ← catch (context_send (close fuel depth) fuel data length;; mret true)
    (λ e, close fuel depth false;; mret false);
  if negb sent then mret false else
  if async then mret true else do_send.

Definition send_unique (data : list byte) (len : Z) (async : bool) : M W bool :=
  send data len async.

Definition send_shared (data : list byte) (len : Z) (async : bool) : M W bool :=
  send data len async.

Definition connect (tail : list byte) (address : Address) (name : string) : M W bool :=
  connected ← Inherited.connect (close fuel depth) tail address name;
  if negb connected then mret false else
  TlsClient (close fuel depth) fuel;;
  mret true.

Definition listen (address : Address) (backlog : Z) : M W bool :=
  set_tls_state Tls.Listening;;
  base (TcpSocket.listen address backlog).

(** [Socket::listen] by name calls the override. *)
Definition listen_name (tail : list byte) (name : string) (port backlog : Z) : M W bool :=
  addr ← lift (resolve_URL tail name port false);
  listen addr backlog.

(** One iteration of [pull_messages]: [m_buffer] to the channel. *)
Definition pull_step : M W (option unit) :=
  res ← receive_data (close fuel depth) (o ← own; mret (m_buffer o)) (λ b, set_own (put_buffer b));
  if negb res then mret (Some tt) else
  o ← own;
  tls_process_data (close fuel depth) fuel (m_buffer o);;
  set_own (λ o, put_buffer (buf_reset (m_buffer o)) o);;
  mret None.

Definition pull_messages : M W unit := iter fuel pull_step.

Definition receive : M W (option message_in_t) := Inherited.receive pull_messages.

(** The destructors of [TlsSocket], of its members and of [TcpSocket]. *)
Definition destroy : M W unit :=
  close fuel depth true;;
  set_own (put_context None);;
  base TcpSocket.destroy.

(** *** Accepting *)

(** A socket as [accept] returns it. *)
Definition child_t : Type := (TcpSocket T * TlsSocket C)%type.

(** Run [m] on another socket of the same system. *)
Definition on_child {A} (c : child_t) (m : M W A) : M W A := λ w,
  let b := d_base w in
  let '(o, w') := m (mkDerived (mkWorld (w_os b) (w_errno b) (w_trace b) c.1) c.2) in
  let b' := d_base w' in
  (o, mkDerived (mkWorld (w_os b') (w_errno b') (w_trace b') (w_sock b)) (d_own w)).

(** The members of a new socket before the body of its constructor. *)
Definition new_tls_socket (junk : list byte) (key_path cert_path : string) : TlsSocket C :=
  mkTlsSocket key_path cert_path None None (buf_new junk) Tls.Unknown.

(** The constructor of an accepted socket. When its body throws, the base object
    is destroyed. *)
Definition construct_child (slicer : T) (junk : list byte) (fd max : Z)
    (key_path cert_path : string) : M W child_t :=
  on_child (new_socket slicer max, new_tls_socket junk key_path cert_path) (
    base (child_socket fd);;
    set_tls_state Tls.Setup;;
    catch (TlsServer (close fuel depth) fuel key_path cert_path)
      (λ e, base TcpSocket.destroy;; throw e);;
    s ← base sock;
    o ← own;
    mret (s, o)).

Definition accept_step (slicer : T) (junk : list byte) (acc : list child_t)
    : M W (list child_t * bool) :=
  fd ← internal_accept (close fuel depth);
  match fd with
  | Some fd =>
      s ← base sock;
      o ← own;
      child ← construct_child slicer junk fd (m_max_send_queue_size s)
        (m_key_path o) (m_cert_path o);
      mret (acc ++ [child], true)
  | None => mret (acc, false)
  end.

Fixpoint destroy_all (cs : list child_t) : M W unit :=
  match cs with
  | [] => mret tt
  | c :: cs' => on_child c destroy;; destroy_all cs'
  end.

Fixpoint accept_loop (n : nat) (slicer : T) (junk : list byte) (acc : list child_t)
    : M W (list child_t) :=
  match n with
  | O => halt OutOfFuel
  | S n' =>
      '(acc, more) ← catch (accept_step slicer junk acc) (λ e, destroy_all acc;; throw e);
      if more : bool then accept_loop n' slicer junk acc else mret acc
  end.

Definition accept (slicer : T) (junk : list byte) : M W (list child_t) :=
  listening ← base is_listening;
  if negb listening then
    throw (socket_error "Cannot accept on connected TcpTcpSocket")
  else accept_loop fuel slicer junk [].

(** ** Waiting for the handshake

    [wait] is what other threads do while this one sleeps in [m_cond_var], which
    releases the mutex. *)
Definition wait_connected (wait : M W unit) : M W unit :=
  locked true (
    iter fuel (
      connected ← is_connected;
      if connected : bool then mret (Some tt) else
      unlock true;;
      wait;;
      lock true;;
      mret None)).

Definition wait_connection_established (wait : M W unit) : M W bool :=
  wait_connected wait;;
  is_connected.
End socket.
End Tls.
