(* ===== verification/TlsBase.v ===== *)
(** Rules for the primitives of Tls.v, what its calls of the base class do to the
    send queue, and the rule for runs of a channel. *)
From S2P Require Import Prelude Machine Buffer Slicer Inet Sys TcpSocket TcpBase TcpSend TcpLife.
From S2P Require Import Inherited Tls.
Local Open Scope Z_scope.

(** * What is assumed of the library *)

Inductive calls_only {C} (ok : callback → Prop) : run C → Prop :=
| only_returns c : calls_only ok (Returns c)
| only_throws e c : calls_only ok (Throws e c)
| only_calls cb c k :
    ok cb → (∀ a c', calls_only ok (k a c')) → calls_only ok (Calls cb c k).

Definition emits (cb : callback) : Prop := ∃ data, cb = EmitData data.

(** Documented behaviour of [Botan::TLS::Channel]: sending, closing and the
    constructors only produce data for the peer; records, alerts and the end of the
    handshake are reported while received data is processed. *)
Class BotanLaws (C : Type) `{Botan C} := {
  server_emits cs p : calls_only emits (new_server cs p);
  client_emits cs p s v : calls_only emits (new_client cs p s v);
  send_emits bs c : calls_only emits (ch_send bs c);
  close_emits c : calls_only emits (ch_close c);
}.

Section rules.
Context {Σ T C : Type} `{Sys Σ} `{Inet} `{MessageSlicer T} `{Botan C}.
Abbreviation W := (derived Σ T (TlsSocket C)).
Implicit Types w : W.

Definition with_own (o : TlsSocket C) w : W := mkDerived (d_base w) o.
Definition with_base (b : world Σ T) w : W := mkDerived b (d_own w).

Lemma wp_base {A} (m : M (world Σ T) A) w (Q : outcome A → W → Prop) :
  wp m (d_base w) (λ o b, Q o (with_base b w)) → wp (base m) w Q.
Proof. intros HQ. unfold base. apply wp_zoom. exact HQ. Qed.

Lemma wp_own w (Q : outcome (TlsSocket C) → W → Prop) : Q (Val (d_own w)) w → wp own w Q.
Proof. done. Qed.

Lemma wp_set_own f w (Q : outcome unit → W → Prop) :
  Q (Val tt) (with_own (f (d_own w)) w) → wp (set_own f) w Q.
Proof. done. Qed.

Lemma wp_slicer_buf w (Q : outcome buffer_t → W → Prop) :
  Q (Val (slicer_buffer (TcpSocket.m_slicer (w_sock (d_base w))))) w → wp slicer_buf w Q.
Proof. by destruct w. Qed.

Lemma wp_is_connected w (Q : outcome bool → W → Prop) :
  Q (Val (bool_decide (m_state (d_own w) = Tls.Connected))) w → wp is_connected w Q.
Proof. done. Qed.

Lemma wp_set_tls_state st w (Q : outcome unit → W → Prop) :
  Q (Val tt) (with_own (put_state st (d_own w)) w) → wp (set_tls_state st) w Q.
Proof. done. Qed.

Lemma wp_context owned w c (Q : outcome (TlsContext C) → W → Prop) :
  the_context owned (d_own w) = Some c → Q (Val c) w → wp (context owned) w Q.
Proof. intros Hc HQ. unfold wp, context, mbind, M_bind, own. by rewrite Hc. Qed.

(** The object with its context changed. *)
Definition with_context (owned : bool) (f : TlsContext C → TlsContext C) w : W :=
  with_own (if owned then put_context (f <$> m_tls_context (d_own w)) (d_own w)
            else put_new_context (f <$> m_new_context (d_own w)) (d_own w)) w.

Lemma wp_set_context owned f w (Q : outcome unit → W → Prop) :
  Q (Val tt) (with_context owned f w) → wp (set_context owned f) w Q.
Proof. done. Qed.

Lemma wp_context_locked {A} owned (body : M W A) w c Q :
  the_context owned (d_own w) = Some c → m_mutex c = false →
  wp body (with_context owned (put_mutex true) w) (λ o w',
    match o with
    | Halt h => Q (Halt h) w'
    | _ => Q o (with_context owned (put_mutex false) w')
    end) →
  wp (locked owned body) w Q.
Proof.
  intros Hc Hm Hb. unfold locked, lock. apply wp_bind, wp_bind. eapply wp_context; [done|].
  cbn [seq_post]. rewrite Hm. apply wp_set_context. cbn [seq_post]. unfold wp, finally in *.
  destruct (body _) as [[a|e|h] w']; exact Hb.
Qed.

(** The context is there, and no call holds its mutex. *)
Definition ready w : Prop := ∃ x, m_tls_context (d_own w) = Some x ∧ m_mutex x = false.

(** Taking and releasing the mutex leaves the object as it was. *)
Lemma relocked w w' x :
  m_tls_context (d_own w) = Some x → m_mutex x = false →
  d_own w' = d_own (with_context true (put_mutex true) w) →
  with_context true (put_mutex false) w' = mkDerived (d_base w') (d_own w).
Proof.
  destruct w as [b [? ? cx ? ? ?]]. simpl. intros -> Hm. destruct w' as [b' o']. simpl.
  intros ->. simpl. unfold with_context, with_own. simpl. destruct x. simpl in *. by subst.
Qed.

Lemma wp_channel w c ch (Q : outcome C → W → Prop) :
  m_tls_context (d_own w) = Some c → m_channel c = Some ch → Q (Val ch) w → wp channel w Q.
Proof.
  intros Hc Hch HQ. unfold channel. apply wp_bind. eapply wp_context; [done|]. cbn [seq_post].
  rewrite Hch. by apply wp_ret.
Qed.

(** One level of [close]. *)
Lemma close_unfold fuel d fast :
  close fuel (S d) fast =
    (o ← own;
     if bool_decide (is_Some (m_tls_context o)) &&
        bool_decide (m_state o = Tls.Connected) && negb fast then
       set_tls_state Tls.Shutdown;; context_close (close fuel d) fuel;; mret false
     else set_tls_state Tls.Closed;; base (TcpSocket.close fast)) :> M W bool.
Proof. done. Qed.

(** Whether [close] asks the channel to tell the peer. *)
Definition orderly (fast : bool) (o : TlsSocket C) : bool :=
  bool_decide (is_Some (m_tls_context o)) && bool_decide (m_state o = Tls.Connected) && negb fast.

Lemma close_run fuel d fast w :
  close fuel (S d) fast w =
    if orderly fast (d_own w) then
      (context_close (close fuel d) fuel;; mret false)
        (with_own (put_state Tls.Shutdown (d_own w)) w)
    else base (TcpSocket.close fast) (with_own (put_state Tls.Closed (d_own w)) w).
Proof.
  rewrite close_unfold. unfold mbind at 1, M_bind at 1, own at 1. unfold orderly.
  by destruct (bool_decide _ && _ && _).
Qed.

Lemma orderly_connected fast o :
  orderly fast o = true → fast = false ∧ m_state o = Tls.Connected.
Proof.
  unfold orderly. intros [[_ Hst]%andb_true_iff Hf]%andb_true_iff.
  split; [by apply negb_true_iff|by apply bool_decide_eq_true in Hst].
Qed.

Lemma not_orderly fast o : m_state o ≠ Tls.Connected → orderly fast o = false.
Proof. intros Hst. unfold orderly. by rewrite (bool_decide_eq_false_2 _ Hst), andb_false_r. Qed.

Lemma not_orderly_fast o : orderly true o = false.
Proof. unfold orderly. apply andb_false_r. Qed.
End rules.

(** [tcp_step] extended with the primitives of the derived class. *)
Ltac tls_step :=
  first
  [ lazymatch goal with
    | |- wp (base _) _ _ => apply wp_base
    | |- wp own _ _ => apply wp_own
    | |- wp (set_own _) _ _ => apply wp_set_own
    | |- wp slicer_buf _ _ => apply wp_slicer_buf
    | |- wp (set_slicer_buf _) _ _ => apply wp_base, wp_upd
    | |- wp is_connected _ _ => apply wp_is_connected
    | |- wp (set_tls_state _) _ _ => apply wp_set_tls_state
    | |- wp (set_context _ _) _ _ => apply wp_set_context
    end
  | tcp_step ].

(** * The send queue

    TlsSocket does not use the send queue of TcpSocket; the calls of the base class
    that it makes leave the queue as it is. *)

Section queue.
Context {Σ T : Type} `{Sys Σ} `{Inet} `{MessageSlicer T}.

(** What there is to send. *)
Definition to_send (s : TcpSocket T) : list message_out * option message_out * Z * Z :=
  (m_send_queue s, m_current_message s, m_send_queue_size s, m_max_send_queue_size s).

Definition queue_kept (w w' : world Σ T) : Prop := to_send (w_sock w') = to_send (w_sock w).

#[export] Instance queue_kept_preorder : PreOrder queue_kept.
Proof. split; [done|]. unfold queue_kept. intros w1 w2 w3 E1 E2. by rewrite E2, E1. Qed.

Definition keeps {A} (m : M (world Σ T) A) : Prop := along queue_kept m.

Lemma keeps_local {A} (m : M (world Σ T) A) : (∀ w, w_sock (m w).2 = w_sock w) → keeps m.
Proof. intros Hm w. unfold queue_kept. by rewrite Hm. Qed.

Lemma keeps_upd f : (∀ s, to_send (f s) = to_send s) → keeps (upd f).
Proof. intros Hf w. apply Hf. Qed.

Lemma keeps_os_call {A} (f : Σ → A * Σ) : keeps (os_call f).
Proof. intros w. unfold os_call. by destruct (f (w_os w)). Qed.

Lemma keeps_bind {A B} (m : M (world Σ T) A) (k : A → M _ B) :
  keeps m → (∀ a, keeps (k a)) → keeps (m ≫= k).
Proof. exact (along_bind _ m k). Qed.
End queue.

Ltac keeps_step :=
  first
  [ apply keeps_local; intros ?; reflexivity
  | apply keeps_os_call
  | apply keeps_upd; intros ?; reflexivity
  | apply keeps_bind; [|intros ?]
  | assumption
  | progress (unfold when, reset_buffer, require_fd, set_nonblocking, update_port_number)
  | match goal with
    | |- keeps (if ?b then _ else _) => destruct b
    | |- keeps (match ?x with _ => _ end) => destruct x
    end ].

Section keeping.
Context {Σ T : Type} `{Sys Σ} `{Inet} `{MessageSlicer T}.

Lemma keeps_close fast : keeps (Σ:=Σ) (T:=T) (TcpSocket.close fast).
Proof. unfold TcpSocket.close. repeat keeps_step. Qed.

Lemma keeps_create_fd : keeps (Σ:=Σ) (T:=T) create_fd.
Proof. unfold create_fd. repeat keeps_step. Qed.

Lemma keeps_bind_socket address : keeps (Σ:=Σ) (T:=T) (bind_socket address).
Proof. pose proof keeps_create_fd. unfold bind_socket. repeat keeps_step. Qed.

Lemma keeps_calculate : keeps (Σ:=Σ) (T:=T) calculate_remote_address.
Proof. unfold calculate_remote_address. repeat keeps_step. Qed.

Lemma keeps_listen address backlog : keeps (Σ:=Σ) (T:=T) (TcpSocket.listen address backlog).
Proof. pose proof (keeps_bind_socket address). unfold TcpSocket.listen. repeat keeps_step. Qed.

Lemma keeps_connect tail address name :
  keeps (Σ:=Σ) (T:=T) (TcpSocket.connect tail address name).
Proof.
  pose proof (λ a, keeps_bind_socket a). pose proof keeps_calculate. pose proof keeps_create_fd.
  pose proof (keeps_close false). unfold TcpSocket.connect. repeat keeps_step.
Qed.

Lemma keeps_internal_accept : keeps (Σ:=Σ) (T:=T) TcpSocket.internal_accept.
Proof. pose proof (keeps_close false). unfold TcpSocket.internal_accept. repeat keeps_step. Qed.

Lemma keeps_on_slicer {A} (m : M T A) : keeps (Σ:=Σ) (on_slicer m).
Proof. intros w. unfold on_slicer, zoom. by destruct (m _). Qed.
End keeping.

(** * Changes of a field

    [moves f R m]: however the call [m] ends, what [f] sees of the object has
    changed along [R] only. *)

Section moves.
Context {Σ T C X : Type} `{Sys Σ} `{Inet} `{MessageSlicer T} `{Botan C}.
Context (f : TlsSocket C → X) (R : relation X) `{!PreOrder R}.
Abbreviation W := (derived Σ T (TlsSocket C)).

Definition moved (w w' : W) : Prop := R (f (d_own w)) (f (d_own w')).

#[export] Instance moved_preorder : PreOrder moved.
Proof.
  split; [intros w; by unfold moved|]. intros w1 w2 w3. unfold moved. apply transitivity.
Qed.

Definition moves {A} (m : M W A) : Prop := along moved m.

Lemma moves_still {A} (m : M W A) : (∀ w, d_own (m w).2 = d_own w) → moves m.
Proof. intros Hm w. unfold moved. by rewrite Hm. Qed.

Lemma moves_set_own g : (∀ o, R (f o) (f (g o))) → moves (set_own g).
Proof. intros Hg w. apply Hg. Qed.

Lemma moves_base {A} (m : M (world Σ T) A) : moves (base m).
Proof. intros w. unfold moved, base, zoom. by destruct (m _). Qed.

Lemma moves_bind {A B} (m : M W A) (k : A → M W B) :
  moves m → (∀ a, moves (k a)) → moves (m ≫= k).
Proof. exact (along_bind _ m k). Qed.

Lemma moves_catch {A} (m : M W A) h : moves m → (∀ e, moves (h e)) → moves (catch m h).
Proof. exact (along_catch _ m h). Qed.

Lemma moves_finally {A} (m : M W A) k : moves m → moves k → moves (finally m k).
Proof. exact (along_finally _ m k). Qed.

Lemma moves_iter {A} n (m : M W (option A)) : moves m → moves (iter n m).
Proof. exact (along_iter _ n m). Qed.

Lemma moves_write_slice {A} off (src l : list A) : moves (write_slice off src l).
Proof. apply moves_still. intros w. unfold write_slice. by destruct in_range. Qed.

Lemma moves_on_child {A} c (m : M W A) : moves (on_child c m).
Proof. apply moves_still. intros w. unfold on_child. by destruct (m _). Qed.

End moves.

Ltac moves_step :=
  first
  [ lazymatch goal with
    | |- moves _ _ (_ ≫= _) => apply moves_bind; [exact _|..|intros ?]
    | |- moves _ _ (base _) => apply moves_base; exact _
    | |- moves _ _ (write_slice _ _ _) => apply moves_write_slice; exact _
    | |- moves _ _ (set_own _) => solve [apply moves_set_own; intros ?; simpl; reflexivity]
    | |- moves _ _ (catch _ _) => apply moves_catch; [exact _|..|intros ?]
    | |- moves _ _ (finally _ _) => apply moves_finally; [exact _|..]
    | |- moves _ _ (iter _ _) => apply moves_iter; [exact _|]
    | |- moves _ _ (on_child _ _) => apply moves_on_child; exact _
    | |- moves _ _ (if ?b then _ else _) => destruct b
    | |- moves _ _ (match ?x with _ => _ end) => destruct x
    end
  | assumption
  | match goal with
    | H : ∀ _, moves _ _ _ |- _ => apply H
    | H : ∀ _ _, moves _ _ _ |- _ => apply H
    | H : ∀ _ _ _ _, moves _ _ _ |- _ => apply H
    end
  | solve [apply moves_set_own; intros ?; simpl; reflexivity]
  | apply moves_still; [exact _|intros ?; reflexivity]
  | apply moves_bind; [exact _|..|intros ?]
  | apply moves_base; exact _ ].

Section moving.
Context {Σ T C X : Type} `{Sys Σ} `{Inet} `{MessageSlicer T} `{BotanLaws C}.
Abbreviation W := (derived Σ T (TlsSocket C)).
Context (f : TlsSocket C → X) (R : relation X) `{!PreOrder R}.
Implicit Types (vclose : bool → M W bool).
Abbreviation drifts := (moves (Σ:=Σ) (T:=T) f R).

(** What closing does to the fields. *)
Record falling : Prop := {
  fall_context x o : R (f o) (f (put_context x o));
  fall_shutdown o : m_state o = Tls.Connected → R (f o) (f (put_state Tls.Shutdown o));
  fall_closed o : R (f o) (f (put_state Tls.Closed o));
}.

(** What processing received data does to them besides. *)
Record rising : Prop := {
  rise_falling : falling;
  rise_connected o : R (f o) (f (put_state Tls.Connected o));
}.

Lemma emit_moves vclose fuel data :
  drifts (vclose false) → drifts (tls_emit_data vclose fuel data).
Proof.
  intros Hc. unfold tls_emit_data. generalize 0. induction fuel as [|n IH]; intros sent; simpl;
    repeat moves_step.
Qed.

Lemma emits_moves vclose fuel owned cb :
  emits cb → drifts (vclose false) → drifts (handle vclose fuel owned cb).
Proof. intros [data ->] Hc. simpl. pose proof (emit_moves vclose fuel data Hc). repeat moves_step. Qed.

Lemma interp_moves owned hdl (ok : callback → Prop) r :
  (∀ x o, R (f o) (f (put_context x o))) → calls_only ok r →
  (∀ cb, ok cb → drifts (hdl cb)) → drifts (interp owned hdl r).
Proof.
  intros Hctx Hr Hh.
  assert (∀ g, drifts (set_context true g)) as Hset.
  { intros g. apply moves_set_own. intros o. apply Hctx. }
  induction Hr as [c|e c|cb c k Hcb _ IH]; simpl; unfold when, channel, context.
  - repeat moves_step.
  - repeat moves_step.
  - pose proof (Hh cb Hcb). repeat moves_step.
Qed.

Lemma on_channel_moves hdl (ok : callback → Prop) call :
  (∀ x o, R (f o) (f (put_context x o))) → (∀ c, calls_only ok (call c)) →
  (∀ cb, ok cb → drifts (hdl cb)) → drifts (on_channel hdl call).
Proof.
  intros Hctx Hr Hh. unfold on_channel, channel, context. repeat moves_step.
  - by eapply interp_moves.
  - apply moves_set_own. intros o. apply Hctx.
Qed.

Lemma close_moves fuel d fast : falling → drifts (close fuel d fast).
Proof.
  intros [Hctx Hsh Hcl]. revert fast. induction d as [|d IH]; intros fast; [repeat moves_step|].
  assert (drifts (context_close (close fuel d) fuel)) as Hcc.
  { eapply on_channel_moves; [done|apply close_emits|]. intros cb Hcb. by apply emits_moves. }
  intros w. unfold moved. rewrite close_run. destruct (orderly fast (d_own w)) eqn:Ho.
  - etransitivity; [by apply (Hsh (d_own w)), (orderly_connected fast)|].
    assert (drifts (context_close (close fuel d) fuel;; mret false)) as Hm by repeat moves_step.
    exact (Hm (with_own (put_state Tls.Shutdown (d_own w)) w)).
  - etransitivity; [apply (Hcl (d_own w))|].
    exact (moves_base f R (TcpSocket.close fast) (with_own (put_state Tls.Closed (d_own w)) w)).
Qed.

Lemma locked_moves {A} (body : M W A) :
  (∀ x o, R (f o) (f (put_context x o))) → drifts body → drifts (locked true body).
Proof.
  intros Hctx Hb. unfold locked, lock, unlock, context. repeat moves_step;
    apply moves_set_own; intros o; apply Hctx.
Qed.

Lemma handle_moves vclose fuel cb :
  rising → (∀ fast, drifts (vclose fast)) → drifts (handle vclose fuel true cb).
Proof.
  intros [[Hctx Hsh Hcl] Hco] Hc. pose proof (λ d, emit_moves vclose fuel d (Hc false)) as Hemit.
  assert (∀ n data pos, drifts (record_loop n data pos)) as Hrec.
  { intros n data. induction n as [|n IH]; intros pos; simpl; repeat moves_step. }
  destruct cb; simpl; unfold tls_record_received, tls_session_established, tls_alert.
  - repeat moves_step.
  - pose proof (locked_moves _ Hctx (Hrec (S (length data)) data 0)). repeat moves_step.
  - repeat moves_step.
  - repeat moves_step.
  - apply locked_moves; [done|].
    repeat first [apply moves_set_own; intros o; (apply Hco || apply Hctx) | moves_step].
Qed.
End moving.

(** * TlsSocket as a TcpSocket *)

Section inherits.
Context {Σ T C : Type} `{Sys Σ} `{Inet} `{SlicerLaws T} `{Botan C}.
Context (d : nat).

(** TlsSocket's own [close] with [true] is that of TcpSocket and a change of state. *)
Definition closes_own (o o' : TlsSocket C) : Prop := o' = o ∨ o' = put_state Tls.Closed o.

#[export] Instance closes_preorder : PreOrder (closes_own).
Proof.
  split; [by left|]. intros o1 o2 o3 [->| ->] [->| ->]; [by left|by right..].
Qed.

Lemma close_true_follows n :
  follows (Σ:=Σ) (T:=T) (λ _ : TlsSocket C, True) closes_own (close n (S d) true) (TcpSocket.close true).
Proof.
  intros w _. exists (put_state Tls.Closed (d_own w)). split; [by right|].
  rewrite close_run, not_orderly_fast. unfold base, zoom. simpl.
  by destruct (TcpSocket.close true (d_base w)).
Qed.

(** A socket that is not connected closes the way TcpSocket does. *)
Lemma close_false_follows n :
  follows (Σ:=Σ) (T:=T) (λ o : TlsSocket C, m_state o ≠ Tls.Connected) closes_own
    (close n (S d) false) (TcpSocket.close false).
Proof.
  intros w Hst. exists (put_state Tls.Closed (d_own w)). split; [by right|].
  rewrite close_run, (not_orderly _ _ Hst). unfold base, zoom. simpl.
  by destruct (TcpSocket.close false (d_base w)).
Qed.

Lemma not_connected_kept (o o' : TlsSocket C) :
  m_state o ≠ Tls.Connected → closes_own o o' → m_state o' ≠ Tls.Connected.
Proof. by intros ? [->| ->]. Qed.

Lemma closes_own_context o o' : closes_own o o' → m_tls_context o' = m_tls_context o.
Proof. by intros [->| ->]. Qed.

End inherits.
