(* ===== verification/TlsLife.v ===== *)
(** Every sequence of calls of a TLS socket: the invariant of the object, and that
    no call aborts the process or leaves an object. *)
From S2P Require Import Prelude Machine Buffer Slicer Inet Sys TcpSocket TcpBase TcpSend TcpRecv TcpLife.
From S2P Require Import Inherited Tls TlsBase.
Local Open Scope Z_scope.

(** A call that may wait for the network for ever, with what holds otherwise. *)
Definition tame {S A} (P : S → Prop) (o : outcome A) (s : S) : Prop :=
  match o with Halt h => h = OutOfFuel | _ => P s end.

Lemma tame_mono {S A} (P P' : S → Prop) (o : outcome A) s :
  tame P o s → (P s → P' s) → tame P' o s.
Proof. unfold tame. destruct o; auto. Qed.

Lemma wp_tame_bind {S A B} (m : M S A) (k : A → M S B) s (P : S → Prop) :
  wp m s (tame P) → (∀ a s', P s' → wp (k a) s' (tame P)) → wp (m ≫= k) s (tame P).
Proof.
  intros Hm Hk. apply wp_bind. eapply wp_mono; [exact Hm|].
  intros [a|e|h] s' HP; cbn [seq_post]; [by apply Hk|exact HP..].
Qed.

Section life.
Context {Σ T C : Type} `{SysLaws Σ} {host : Host Σ} `{SlicerLaws T} `{InetLaws} `{BotanLaws C}.
Abbreviation W := (derived Σ T (TlsSocket C)).
Implicit Types (w : W) (K : option (TlsContext C) → Prop).

(** The context between calls, and while a call of the channel runs with the mutex
    as given. *)
Definition idle (c : option (TlsContext C)) : Prop :=
  ∀ x, c = Some x → m_mutex x = false ∧ is_Some (m_channel x).

Definition busy (held : bool) (c : option (TlsContext C)) : Prop :=
  ∃ x, c = Some x ∧ m_mutex x = held ∧ is_Some (m_channel x).

(** A condition on the context that calls of the channel respect. *)
Definition stable K : Prop :=
  ∀ x, K (Some x) → is_Some (m_channel x) ∧ ∀ ch, K (Some (put_channel (Some ch) x)).

Lemma idle_stable : stable idle.
Proof. intros x Hx. destruct (Hx x eq_refl) as [? ?]. split; [done|]. by intros ? ? [= <-]. Qed.

Lemma busy_stable held : stable (busy held).
Proof. intros x (? & [= <-] & ? & ?). split; [done|]. intros ch. by eexists. Qed.

Definition queue_empty (s : TcpSocket T) : Prop :=
  m_send_queue s = [] ∧ m_current_message s = None.

Definition tls_ok K w : Prop :=
  life_ok (w_sock (d_base w)) ∧ queue_empty (w_sock (d_base w)) ∧
  K (m_tls_context (d_own w)) ∧ buf_wf (m_buffer (d_own w)) ∧
  (m_state (d_own w) = Tls.Connected → is_Some (m_tls_context (d_own w))).

(** ** Calls of the base class *)

Lemma keeps_empty {A} (m : M (world Σ T) A) b o b' :
  keeps m → m b = (o, b') → queue_empty (w_sock b) → queue_empty (w_sock b').
Proof.
  intros Hk Hm. specialize (Hk b). rewrite Hm in Hk. unfold to_send, queue_empty in *. simpl in Hk.
  injection Hk as -> -> _ _. done.
Qed.

(** A call of the base class that is safe there. *)
Lemma base_ok K {A} (m : M (world Σ T) A) w :
  keeps m → tls_ok K w → wp m (d_base w) patient_post → wp (base m) w (tame (tls_ok K)).
Proof.
  intros Hk (Hl & Hq & HK & Hb & Hc) Hm. apply wp_base. unfold wp in *.
  destruct (m (d_base w)) as [o b] eqn:E. simpl in *.
  pose proof (keeps_empty m _ _ _ Hk E Hq). by destruct o.
Qed.

Lemma base_close_ok K fast w :
  tls_ok K w → wp (base (TcpSocket.close fast)) w (tame (tls_ok K)).
Proof.
  intros Hok. apply base_ok; [apply keeps_close|done|].
  eapply wp_mono; [apply close_safe, Hok|]. by intros [] ? [].
Qed.

(** The system changes, but not the socket. *)
Lemma same_ok K w w' :
  tls_ok K w → w_sock (d_base w') = w_sock (d_base w) → d_own w' = d_own w → tls_ok K w'.
Proof. unfold tls_ok. by intros ? -> ->. Qed.

Lemma own_state_ok K st w :
  (st = Tls.Connected → is_Some (m_tls_context (d_own w))) →
  tls_ok K w → tls_ok K (with_own (put_state st (d_own w)) w).
Proof. intros Hst (? & ? & ? & ? & _). by split_and!. Qed.

Lemma set_context_ok K K' f w x :
  m_tls_context (d_own w) = Some x → K' (Some (f x)) → tls_ok K w →
  tls_ok K' (with_context true f w).
Proof.
  intros Hx Hf (? & ? & ? & ? & Hc). unfold with_context, tls_ok. simpl. rewrite Hx. simpl.
  by split_and!.
Qed.

(** ** Emitting *)

Lemma emit_loop_ok K vclose n data sent w :
  (∀ w, tls_ok K w → wp (vclose false) w (tame (tls_ok K))) →
  0 ≤ sent → tls_ok K w → wp (emit_loop vclose n data sent) w (tame (tls_ok K)).
Proof.
  intros Hclose. revert sent w. induction n as [|n IH]; intros sent w Hs Hok; simpl; [done|].
  destruct (sent <? Z.of_nat (length data)) eqn:Hlt; cbn [negb]; bool_to_prop; [|by tls_step].
  tls_step. tls_step. tls_step. cbn [seq_post]. tls_step. tls_step.
  apply wp_read_slice; [lia..|]. cbn [seq_post]. tls_step. tls_step. apply wp_os_call.
  intros a σ Hw. cbn [seq_post].
  destruct a as [k|e].
  - destruct (0 <? k) eqn:Hk; bool_to_prop.
    + tls_step. tls_step. tls_step. cbn [seq_post]. apply IH; [apply u32_bound|].
      by apply (same_ok K w).
    + apply wp_tame_bind; [apply Hclose; by apply (same_ok K w)|]. intros b w' Hw'. by tls_step.
  - tls_step. tls_step. tls_step. cbn [seq_post].
    destruct e; try (apply IH; [done|by apply (same_ok K w)]);
      (apply wp_tame_bind; [apply Hclose; by apply (same_ok K w)|]; intros b w' Hw');
      repeat (tls_step; cbn [seq_post]); by apply (same_ok K w').
Qed.

Lemma emit_ok K vclose fuel data w :
  (∀ w, tls_ok K w → wp (vclose false) w (tame (tls_ok K))) →
  tls_ok K w → wp (tls_emit_data vclose fuel data) w (tame (tls_ok K)).
Proof. intros Hc Hok. by apply emit_loop_ok. Qed.

(** ** Calls of the channel *)

(** The state of the channel is put back before every callback and taken again
    after it; [K] makes sure it is there. *)
Lemma interp_ok K hdl (ok : callback → Prop) r w :
  stable K → (∀ c, K c → is_Some c) → calls_only ok r →
  (∀ cb w, ok cb → tls_ok K w → wp (hdl cb) w (tame (tls_ok K))) →
  tls_ok K w → wp (interp true hdl r) w (tame (tls_ok K)).
Proof.
  intros HK Hsome Hr Hh. revert w. induction Hr as [c|e c|cb c k Hcb _ IH]; intros w Hok; simpl.
  - by tls_step.
  - assert (tls_ok K (with_context true (put_channel (Some c)) w)) as Hok'.
    { destruct (Hsome _ (proj1 (proj2 (proj2 Hok)))) as [x Hx].
      eapply set_context_ok; [done| |done]. apply HK. rewrite <- Hx. apply Hok. }
    tls_step. tls_step. cbn [seq_post]. by tls_step.
  - assert (tls_ok K (with_context true (put_channel (Some c)) w)) as Hok'.
    { destruct (Hsome _ (proj1 (proj2 (proj2 Hok)))) as [x Hx].
      eapply set_context_ok; [done| |done]. apply HK. rewrite <- Hx. apply Hok. }
    tls_step. tls_step. cbn [seq_post].
    apply wp_tame_bind.
    { apply wp_catch. apply wp_bind. eapply wp_mono; [by apply Hh|].
      intros [b|e|h] w' Hw'; cbn [seq_post]; [by tls_step|by tls_step|done]. }
    intros a w1 Hok1. destruct (Hsome _ (proj1 (proj2 (proj2 Hok1)))) as [x Hx].
    destruct (HK x) as [[ch Hch] _]; [rewrite <- Hx; apply Hok1|].
    tls_step. eapply wp_channel; [done..|]. cbn [seq_post]. by apply IH.
Qed.

Lemma on_channel_ok K hdl (ok : callback → Prop) call w :
  stable K → (∀ c, K c → is_Some c) → (∀ c, calls_only ok (call c)) →
  (∀ cb w, ok cb → tls_ok K w → wp (hdl cb) w (tame (tls_ok K))) →
  tls_ok K w → wp (on_channel hdl call) w (tame (tls_ok K)).
Proof.
  intros HK Hsome Hr Hh Hok. unfold on_channel.
  destruct (Hsome _ (proj1 (proj2 (proj2 Hok)))) as [x Hx].
  destruct (HK x) as [[ch Hch] _]; [rewrite <- Hx; apply Hok|].
  tls_step. eapply wp_channel; [done..|]. cbn [seq_post]. apply wp_tame_bind.
  { by apply (interp_ok K hdl ok). }
  intros ch' w1 Hok1. tls_step. destruct (Hsome _ (proj1 (proj2 (proj2 Hok1)))) as [x1 Hx1].
  eapply set_context_ok; [done| |done]. apply HK. rewrite <- Hx1. apply Hok1.
Qed.

(** ** Closing *)

Definition present K (c : option (TlsContext C)) : Prop := K c ∧ is_Some c.

Lemma present_stable K : stable K → stable (present K).
Proof. intros HK x [Hx _]. split; [by apply HK|]. intros ch. split; [by apply HK|done]. Qed.

Lemma present_ok K w :
  tls_ok (present K) w ↔ tls_ok K w ∧ is_Some (m_tls_context (d_own w)).
Proof. unfold tls_ok, present. tauto. Qed.

Lemma emits_ok K vclose fuel owned cb w :
  (∀ w, tls_ok K w → wp (vclose false) w (tame (tls_ok K))) →
  emits cb → tls_ok K w → wp (handle vclose fuel owned cb) w (tame (tls_ok K)).
Proof.
  intros Hc [data ->] Hok. simpl. apply wp_tame_bind; [by apply emit_ok|].
  intros [] w' Hw'. by tls_step.
Qed.

Lemma close_ok K fuel d fast w :
  stable K → tls_ok K w → wp (close fuel d fast) w (tame (tls_ok K)).
Proof.
  revert K fast w. induction d as [|d IH]; intros K fast w HK Hok; simpl; [done|].
  tls_step. tls_step. cbn [seq_post].
  destruct (bool_decide (is_Some (m_tls_context (d_own w))) &&
            bool_decide (m_state (d_own w) = Tls.Connected) && negb fast) eqn:E.
  - apply andb_true_iff in E as [[Hs _]%andb_true_iff _]. apply bool_decide_eq_true in Hs.
    assert (stable (present K)) as HK' by by apply present_stable.
    tls_step. tls_step. cbn [seq_post].
    eapply wp_mono with (P := tame (tls_ok (present K))).
    2:{ intros o w' Hw'. eapply tame_mono; [exact Hw'|]. by intros [? _]%present_ok. }
    apply wp_tame_bind; [|intros [] w' Hw'; by tls_step].
    eapply (on_channel_ok _ _ emits); [done|by intros c [_ ?]|apply close_emits| |].
    + intros cb w' Hcb Hw'. apply emits_ok; [|done..]. intros w2 Hw2. by apply IH.
    + apply own_state_ok; [done|]. by apply present_ok.
  - tls_step. tls_step. cbn [seq_post]. apply base_close_ok. by apply own_state_ok.
Qed.

(** ** Callbacks while received data is processed *)

Lemma record_loop_ok K n data pos w :
  0 ≤ pos → tls_ok K w → wp (record_loop n data pos) w (tame (tls_ok K)).
Proof.
  revert pos w. induction n as [|n IH]; intros pos w H0' Hok; simpl; [done|].
  destruct (pos <? Z.of_nat (length data)) eqn:Hlt; cbn [negb]; bool_to_prop; [|by tls_step].
  tls_step. tls_step. cbn [seq_post]. set (b := slicer_buffer _).
  pose proof Hok as (((Hwf & Hrest) & Hd) & Hq & HK).
  pose proof (wf_buffer _ Hwf) as [Hlen _]. fold b in Hlen.
  destruct (buf_is_valid b); [by tls_step|]. set (k := Z.min MAX_SIZE _).
  assert (0 < k ≤ MAX_SIZE ∧ pos + k ≤ Z.of_nat (length data)) as [Hk1 Hk2].
  { unfold k, MAX_SIZE in *. lia. }
  tls_step. tls_step. apply wp_read_slice; [lia..|]. cbn [seq_post].
  set (bytes := slice _ _ _).
  assert (Z.of_nat (length bytes) = k) as Hbytes.
  { unfold bytes. rewrite length_slice by lia. lia. }
  tls_step. tls_step. apply wp_write_slice; [lia..|]. cbn [seq_post].
  tls_step. tls_step. cbn [seq_post].
  destruct (buf_load_wf bytes (Buffer.m_data b) b) as (Hwf' & Hv' & _); [lia..|].
  rewrite Hbytes in Hwf', Hv'. set (b' := buf_set_position 0 _) in *.
  set (s := w_sock (d_base w)) in *.
  match goal with |- wp _ ?w' _ => assert (tls_ok K w') as Hok1 end.
  { split; [|done]. split; [|exact Hd]. split; [|exact Hrest]. simpl.
    by apply set_buffer_fresh; [|apply Hwf'|right]. }
  apply wp_tame_bind; [|intros [] w2 Hw2; apply IH; [lia|done]].
  apply base_ok; [apply keeps_on_slicer|done|]. tcp_step.
  destruct Hok1 as [[[Hwf1 Hrest1] Hd1] _].
  eapply wp_mono; [apply process_buffer_spec; [exact Hwf1|]|].
  { simpl. by rewrite set_buffer_buffer. }
  intros o t' ([->|[e ->]] & Hwf2 & _); by split; [split|].
Qed.

(** Leaving the scope of the lock. *)
Lemma unlock_ok {A} (o : outcome A) w :
  tame (tls_ok (busy true)) o w →
  match o with
  | Halt h => tame (tls_ok (busy false)) (Halt (A:=A) h) w
  | _ => tame (tls_ok (busy false)) o (with_context true (put_mutex false) w)
  end.
Proof.
  intros Hw. destruct o; try done; pose proof Hw as (?&?&(x&Hx&?&?)&?);
    (eapply set_context_ok; [done| |exact Hw]); by eexists.
Qed.

Lemma handle_ok fuel d cb w :
  tls_ok (busy false) w → wp (handle (close fuel d) fuel true cb) w (tame (tls_ok (busy false))).
Proof.
  intros Hok. pose proof Hok as (_ & _ & (x & Hx & Hm & Hch) & _).
  assert (∀ w, tls_ok (busy false) w →
    wp (close fuel d false) w (tame (tls_ok (busy false)))) as Hclose.
  { intros w' Hw'. apply close_ok; [apply busy_stable|done]. }
  assert (tls_ok (busy true) (with_context true (put_mutex true) w)) as Hlocked.
  { eapply set_context_ok; [done| |done]. by eexists. }
  destruct cb; simpl.
  - apply wp_tame_bind; [by apply emit_ok|]. intros [] w' Hw'. by tls_step.
  - apply wp_tame_bind; [|intros [] w' Hw'; by tls_step]. unfold tls_record_received.
    eapply wp_context_locked; [done..|]. eapply wp_mono; [by apply record_loop_ok|].
    intros o w'. apply unlock_ok.
  - apply wp_tame_bind; [|intros [] w' Hw'; by tls_step]. destruct a; simpl; [|by tls_step].
    apply wp_tame_bind; [by apply close_ok; [apply busy_stable|]|].
    intros b w' Hw'. by tls_step.
  - by repeat tls_step.
  - unfold tls_session_established. eapply wp_context_locked; [done..|].
    repeat (tls_step; cbn [seq_post]). apply (unlock_ok (Val false)).
    eapply (set_context_ok (busy true)); [simpl; by rewrite Hx|by eexists|].
    apply own_state_ok; [simpl; by rewrite Hx|exact Hlocked].
Qed.
End life.

(** * The calls *)

#[local] Arguments close : simpl never.

Section calls.
Context {Σ T C : Type} `{SysLaws Σ} {host : Host Σ} `{SlicerLaws T} `{InetLaws} `{BotanLaws C}.
Abbreviation W := (derived Σ T (TlsSocket C)).
Implicit Types (w : W).
Context (fuel d : nat).

Abbreviation ok := (tls_ok idle).

Lemma idle_busy w : ok w → is_Some (m_tls_context (d_own w)) → tls_ok (busy false) w.
Proof.
  intros (Hl & Hq & Hi & Hrest) [x Hx]. destruct (Hi x Hx).
  refine (conj Hl (conj Hq (conj _ Hrest))). by exists x.
Qed.

Lemma busy_idle w : tls_ok (busy false) w → ok w.
Proof.
  intros (Hl & Hq & (x & Hx & ? & ?) & Hrest). refine (conj Hl (conj Hq (conj _ Hrest))).
  rewrite Hx. by intros ? [= <-].
Qed.

Lemma tame_busy_idle {A} (m : M W A) w : wp m w (tame (tls_ok (busy false))) → wp m w (tame ok).
Proof.
  intros Hm. eapply wp_mono; [exact Hm|]. intros o w' Hw'. eapply tame_mono; [exact Hw'|].
  apply busy_idle.
Qed.

Lemma calls_any (r : run C) : calls_only (λ _, True) r.
Proof. by induction r; constructor. Qed.

(** *** Sending *)

Lemma context_send_ok e data len w :
  0 ≤ len ≤ Z.of_nat (length data) → tls_ok (busy false) w →
  wp (context_send (close fuel e) fuel data len) w (tame (tls_ok (busy false))).
Proof.
  intros Hlen Hok. pose proof Hok as (_ & _ & (x & Hx & Hm & Hch) & _).
  unfold context_send. eapply wp_context_locked; [done..|].
  eapply wp_mono; [|intros o w'; apply unlock_ok].
  assert (∀ bs w, tls_ok (busy true) w →
    wp (on_channel (handle (close fuel e) fuel true) (ch_send bs)) w (tame (tls_ok (busy true))))
    as Hsend.
  { intros bs w' Hw'. apply (on_channel_ok _ _ emits); try done.
    - apply busy_stable.
    - by intros ? (? & -> & _).
    - apply send_emits.
    - intros cb w2 Hcb Hw2. apply emits_ok; [|done..]. intros. apply close_ok; [apply busy_stable|done]. }
  apply wp_tame_bind.
  { apply Hsend. eapply set_context_ok; [done| |done]. by eexists. }
  intros [] w1 Hw1. tls_step. tls_step. apply wp_read_slice; [lia..|]. cbn [seq_post].
  apply Hsend. by apply (same_ok _ w1).
Qed.

Definition unchanged w w' : Prop :=
  w_sock (d_base w') = w_sock (d_base w) ∧ d_own w' = d_own w.

(** Nothing waits to be sent. *)
Lemma do_send_idle w :
  (0 < fuel)%nat → queue_empty (w_sock (d_base w)) →
  wp (do_send fuel (S d)) w (λ o w', o = Val false ∧ unchanged w w').
Proof.
  intros Hf [Hq Hc].
  unfold do_send, Inherited.do_send. destruct fuel as [|n]; [lia|]. simpl.
  unfold Inherited.send_step. tls_step. tls_step. tls_step. unfold next_message.
  tls_step. tls_step. cbn [seq_post]. rewrite Hc, Hq. tls_step. cbn [seq_post negb].
  tls_step. cbn [seq_post]. by tls_step.
Qed.

Lemma do_send_ok w : (0 < fuel)%nat → ok w → wp (do_send fuel (S d)) w (tame ok).
Proof.
  intros Hf Hok. eapply wp_mono; [apply do_send_idle; [done|apply Hok]|].
  intros o w' [-> [Hs Ho]]. by apply (same_ok _ w).
Qed.

Lemma send_ok data len async w :
  (0 < fuel)%nat → 0 ≤ len ≤ Z.of_nat (length data) → ok w →
  wp (send fuel (S d) data len async) w (tame ok).
Proof.
  intros Hf Hlen Hok. unfold send. tls_step. tls_step. cbn [seq_post].
  destruct (bool_decide (m_state (d_own w) = Tls.Connected)) eqn:Hst; cbn [negb]; [|by tls_step].
  apply bool_decide_eq_true in Hst. pose proof Hok as (_ & _ & _ & _ & Hsome).
  apply wp_tame_bind.
  - apply wp_catch. apply wp_bind.
    eapply wp_mono; [apply context_send_ok; [done|apply idle_busy; auto]|].
    intros [[]|e|h] w1 Hw1; cbn [seq_post]; [|apply busy_idle in Hw1|done].
    + tls_step. by apply busy_idle.
    + apply wp_tame_bind; [apply close_ok; [apply idle_stable|done]|].
      intros b w2 Hw2. by tls_step.
  - intros [|] w1 Hw1; cbn [negb]; [|by tls_step].
    destruct async; [by tls_step|by apply do_send_ok].
Qed.

(** *** Receiving *)

Lemma buf_wf_read b : buf_wf b → buf_is_valid b = true → 0 ≤ m_size b ≤ Z.of_nat (length (Buffer.m_data b)).
Proof. intros Hb Hv. pose proof (buf_valid_pos b Hb Hv). destruct Hb as [-> _]. lia. Qed.

Lemma process_data_ok e b w :
  buf_wf b → buf_is_valid b = true → tls_ok (busy false) w →
  wp (tls_process_data (close fuel e) fuel b) w (tame (tls_ok (busy false))).
Proof.
  intros Hb Hv Hok.
  pose proof Hok as (_ & _ & (x & Hx & Hm & [ch Hch]) & _). unfold tls_process_data.
  tls_step. eapply wp_context; [done|]. cbn [seq_post]. rewrite Hch.
  pose proof (buf_wf_read b Hb Hv). tls_step. tls_step. apply wp_read_slice; [lia..|].
  cbn [seq_post]. apply (on_channel_ok _ _ (λ _, True)).
  - apply busy_stable.
  - by intros ? (? & -> & _).
  - intros c. apply calls_any.
  - intros cb w' _ Hw'. by apply handle_ok.
  - by apply (same_ok _ w).
Qed.

Lemma own_buffer_ok K b w w' :
  tls_ok K w → buf_wf b → w_sock (d_base w') = w_sock (d_base w) →
  d_own w' = put_buffer b (d_own w) → tls_ok K w'.
Proof.
  unfold tls_ok. intros (? & ? & ? & _ & ?) Hb -> ->. by repeat (split; [done|]).
Qed.

Lemma receive_data_ok K w :
  stable K → tls_ok K w →
  wp (receive_data (close fuel (S d)) (o ← own; mret (m_buffer o)) (λ b, set_own (put_buffer b))) w
    (λ o w', tame (tls_ok K) o w' ∧ (o = Val true → buf_is_valid (m_buffer (d_own w')) = true)).
Proof.
  intros HK Hok. pose proof Hok as (_ & _ & _ & Hb & _).
  unfold receive_data. tls_step. tls_step. tls_step. cbn [seq_post]. tls_step. tls_step. tls_step.
  cbn [seq_post]. tls_step. cbn [seq_post]. simpl.
  destruct (is_valid_sock _); cbn [negb]; [|tls_step; split; [by apply (same_ok _ w)|done]].
  destruct (buf_is_valid (m_buffer (d_own w))) eqn:Hv;
    [tls_step; split; [by apply (same_ok _ w)|done]|].
  tls_step. tls_step. cbn [seq_post]. tls_step. tls_step. apply wp_os_call. simpl.
  intros r σ Hr. cbn [seq_post].
  match goal with |- wp _ ?w' _ => assert (tls_ok K w') as Hok1 end.
  { eapply own_buffer_ok; [exact Hok|by apply zeroed_wf|done..]. }
  destruct r as [[|x l]|e].
  - apply wp_bind. eapply wp_mono; [by apply close_ok|].
    intros [b|e|h] w2 Hw2; cbn [seq_post]; [by tls_step|by split|by split].
  - assert (0 < Z.of_nat (length (x :: l)) ≤ MAX_SIZE) as Hlen.
    { split; [simpl; lia|]. eapply recv_bound; [|done]. unfold MAX_SIZE. lia. }
    tls_step. tls_step. tls_step. cbn [seq_post]. tls_step.
    apply wp_write_slice; [lia|rewrite length_zero_bytes; unfold MAX_SIZE in *; lia|].
    cbn [seq_post]. tls_step. tls_step. cbn [seq_post]. tls_step.
    destruct (buf_fill_wf (x :: l) (m_buffer (d_own w)) Hlen) as (Hfw & Hfv & _).
    split; [|done]. by eapply own_buffer_ok.
  - destruct e; [by tls_step|..]; (apply wp_bind; eapply wp_mono; [by apply close_ok|];
      intros [b|e|h] w2 Hw2; cbn [seq_post]; try tls_step; by split).
Qed.

Lemma pull_messages_ok w :
  tls_ok (busy false) w → wp (pull_messages fuel (S d)) w (tame (tls_ok (busy false))).
Proof.
  intros Hok. unfold pull_messages. apply wp_iter_partial with (I := tls_ok (busy false)); [done| |done].
  clear w Hok. intros w Hok. unfold pull_step. apply wp_bind.
  eapply wp_mono; [by apply receive_data_ok; [apply busy_stable|]|].
  intros [[|]|e|h] w1 [Hok1 Hv1]; cbn [seq_post negb]; [|by tls_step|done..].
  tls_step. tls_step. cbn [seq_post]. pose proof Hok1 as (_ & _ & _ & Hb1 & _).
  apply wp_bind. eapply wp_mono; [apply process_data_ok; auto|].
  intros [[]|e|h] w2 Hw2; cbn [seq_post]; [|done..].
  tls_step. tls_step. cbn [seq_post]. tls_step. pose proof Hw2 as (_ & _ & _ & Hb2 & _).
  eapply own_buffer_ok; [exact Hw2| |done..]. apply buf_reset_wf, Hb2.
Qed.

Lemma receive_ok w :
  is_Some (m_tls_context (d_own w)) → ok w → wp (receive fuel (S d)) w (tame ok).
Proof.
  intros Hs Hok. apply tame_busy_idle. unfold receive, Inherited.receive.
  apply wp_tame_bind; [by apply pull_messages_ok, idle_busy|]. intros [] w1 Hok1.
  tls_step. tls_step. tls_step. cbn [seq_post].
  destruct (slicer_has_messages _); [|tls_step; by apply (same_ok _ w1)].
  apply wp_tame_bind.
  - apply base_ok; [apply keeps_on_slicer|by apply (same_ok _ w1)|]. tcp_step.
    pose proof Hok1 as (((Hwf & Hrest) & Hd) & _).
    eapply wp_mono; [by apply get_message_spec|]. intros o t' (Hwf' & _ & _ & Ho).
    assert (life_ok (set_slicer t' (w_sock (d_base w1)))) as Hl by by split; [split|].
    destruct (delivered _); destruct Ho as [-> _]; exact Hl.
  - intros [m|] w2 Hw2; by tls_step.
Qed.

(** *** Setting up *)

Lemma follows_ok {A} (P : TlsSocket C → Prop) (mv : M W A) m K w (Q : outcome A → _ → Prop) :
  follows P closes_own mv m → P (d_own w) → keeps m → tls_ok K w →
  wp m (d_base w) (λ o b, patient_post o b ∧ Q o b) →
  wp mv w (λ o w', tame (tls_ok K) o w' ∧ Q o (d_base w') ∧ closes_own (d_own w) (d_own w')).
Proof.
  intros Hf HP Hk (Hl & Hq & HK & Hb & Hc) Hm. destruct (Hf w HP) as (o' & Ho & Heq).
  unfold wp in *. rewrite Heq. simpl. destruct (m (d_base w)) as [o b] eqn:E. simpl in *.
  destruct Hm as [Hp HQ]. pose proof (keeps_empty m _ _ _ Hk E Hq) as Hq'.
  split; [|by split]. destruct o; [| |done].
  all: destruct Ho as [->| ->]; by refine (conj Hp (conj Hq' (conj HK (conj Hb _)))).
Qed.

Lemma listen_ok address backlog w :
  dormant (w_sock (d_base w)) → ok w → wp (listen address backlog) w (tame ok).
Proof.
  intros Hd Hok. unfold listen. tls_step. tls_step. cbn [seq_post].
  apply base_ok; [apply keeps_listen|by apply own_state_ok|].
  eapply wp_mono; [apply listen_safe; [apply Hok|done]|]. by intros [].
Qed.

(** The constructor of a channel. *)
Lemma interp_new_ok hdl r w :
  calls_only emits r → (∀ cb, emits cb → moves m_new_context (=) (hdl cb)) →
  (∀ cb w, emits cb → ok w → wp (hdl cb) w (tame ok)) → ok w →
  wp (interp false hdl r) w (λ o w',
    tame ok o w' ∧ m_new_context (d_own w') = m_new_context (d_own w)).
Proof.
  intros Hr Hnew Hh. revert w. induction Hr as [c|e c|cb c k Hcb _ IH]; intros w Hok; simpl.
  - by tls_step.
  - tls_step. tls_step. cbn [seq_post]. by tls_step.
  - tls_step. tls_step. cbn [seq_post]. tls_step.
    apply wp_mono with (P := λ o w', tame ok o w' ∧
      m_new_context (d_own w') = m_new_context (d_own w)).
    { pose proof (eq_sym (Hnew cb Hcb w)) as Hn. simpl in Hn. apply wp_catch, wp_bind.
      eapply wp_mono.
      { apply wp_conj with (Q := λ _ w', m_new_context (d_own w') = m_new_context (d_own w));
          [by apply Hh|exact Hn]. }
      intros [b|e|h] w' [Hw' Hn']; cbn [seq_post]; [by tls_step|by tls_step|done]. }
    intros [a|e|h] w1 [Hok1 Hn1]; cbn [seq_post]; [|done..].
    tls_step. tls_step. cbn [seq_post]. rewrite <- Hn1. by apply IH.
Qed.

Lemma new_context_ok x w : ok w → ok (with_own (put_new_context x (d_own w)) w).
Proof. done. Qed.

Lemma make_context_ok e creds new w :
  (∀ w, wp creds w (λ o w', w' = w ∧ match o with Halt _ => False | _ => True end)) →
  (∀ cs, calls_only emits (new cs)) → ok w →
  wp (make_context (close fuel e) fuel creds new) w (tame ok).
Proof.
  intros Hcreds Hnew Hok. unfold make_context. tls_step. tls_step. cbn [seq_post].
  set (w0 := with_own _ _). assert (ok w0) as Hok0 by by apply new_context_ok.
  apply wp_catch. apply wp_bind. eapply wp_mono; [apply Hcreds|].
  intros [cs|x|h] ? [-> Ho]; cbn [seq_post]; [|by repeat (tls_step; cbn [seq_post])|done].
  apply wp_bind. eapply wp_mono; [apply interp_new_ok; [apply Hnew| | |exact Hok0]|].
  - intros cb Hcb. apply emits_moves; [exact _|exact Hcb|]. apply close_moves; [exact _|by constructor].
  - intros cb w' Hcb Hw'. apply emits_ok; [|done..]. intros. apply close_ok; [apply idle_stable|done].
  - intros [ch|x|h] w1 [Hok1 Hn1]; cbn [seq_post]; [|by repeat (tls_step; cbn [seq_post])|done].
    repeat (tls_step; cbn [seq_post]). simpl. rewrite Hn1. simpl.
    destruct Hok1 as (Hl & Hq & _ & Hb & _).
    refine (conj Hl (conj Hq (conj _ (conj Hb _)))); [|by eexists].
    intros ? [= <-]. by split; [|eexists].
Qed.

Lemma client_ok e w : ok w → wp (TlsClient (close fuel e) fuel) w (tame ok).
Proof. intros Hok. apply make_context_ok; [done| |done]. intros cs. apply client_emits. Qed.

Lemma server_ok e key cert w : ok w → wp (TlsServer (close fuel e) fuel key cert) w (tame ok).
Proof.
  intros Hok. apply make_context_ok; [|intros cs; apply server_emits|done].
  intros w'. unfold load_credentials.
  destruct (load_key key); [done|]. by destruct (load_certificate cert).
Qed.

Lemma connect_ok tail address name w :
  dormant (w_sock (d_base w)) → m_state (d_own w) ≠ Tls.Connected →
  (∀ h, resolve_URL tail name 0 (IPv6 address) ≠ Halt h) → ok w →
  wp (connect fuel (S d) tail address name) w (tame ok).
Proof.
  intros Hd Hst Hres Hok. unfold connect. apply wp_bind. eapply wp_mono.
  { eapply follows_ok with (P := λ o, m_state o ≠ Tls.Connected) (Q := λ _ _, True); [|exact Hst|apply keeps_connect|exact Hok|].
    - apply (connect_follows _ _ not_connected_kept). apply close_false_follows.
    - eapply wp_mono; [apply connect_safe; [apply Hok|done..]|]. by intros []. }
  intros [[|]|e|h] w1 [Hok1 _]; cbn [seq_post negb]; [|by tls_step|done..].
  apply wp_tame_bind; [by apply client_ok|]. intros [] w2 Hw2. by tls_step.
Qed.

(** *** Destroying and accepting *)

Lemma destroy_run w :
  life_ok (w_sock (d_base w)) → wp (destroy fuel (S d)) w (λ o w', o = Val tt).
Proof.
  intros Hl. unfold destroy. apply wp_bind. rewrite close_unfold. tls_step. tls_step. cbn [seq_post].
  rewrite andb_false_r. tls_step. tls_step. cbn [seq_post]. tls_step.
  eapply wp_mono; [by apply close_safe|]. simpl.
  intros o b [Hsafe Hval]. destruct (Hval (or_introl eq_refl)) as (-> & _). cbn [seq_post].
  tls_step. tls_step. cbn [seq_post]. tls_step. unfold TcpSocket.destroy. tcp_step.
  eapply wp_mono; [by apply close_safe|]. intros o b' [_ Hval'].
  destruct (Hval' (or_introl eq_refl)) as (-> & _). cbn [seq_post]. by tcp_step.
Qed.

Definition child_ok (c : child_t (T:=T) (C:=C)) : Prop :=
  ∀ (σ : Σ) e tr, ok (mkDerived (mkWorld σ e tr c.1) c.2).

Lemma wp_on_child {A} (c : child_t (T:=T) (C:=C)) (m : M W A) w (Q : outcome A → W → Prop) :
  wp m (mkDerived (mkWorld (w_os (d_base w)) (w_errno (d_base w)) (w_trace (d_base w)) c.1) c.2)
    (λ o w', Q o (mkDerived (mkWorld (w_os (d_base w')) (w_errno (d_base w')) (w_trace (d_base w'))
      (w_sock (d_base w))) (d_own w))) →
  wp (on_child c m) w Q.
Proof. unfold wp, on_child. by destruct (m _). Qed.

Lemma destroy_children_run cs w :
  Forall child_ok cs →
  wp (destroy_all fuel (S d) cs) w (λ o w', o = Val tt ∧ unchanged w w').
Proof.
  intros Hcs. revert w. induction Hcs as [|c cs Hc _ IH]; intros w; simpl; [by tls_step|].
  apply wp_bind, wp_on_child. eapply wp_mono; [apply destroy_run, Hc|].
  intros o w' ->. cbn [seq_post]. eapply wp_mono; [apply IH|]. done.
Qed.

Lemma construct_child_ok slicer junk fd max key cert w :
  slicer_wf slicer → Z.of_nat (length junk) = MAX_SIZE → 0 < fd → 0 ≤ max ≤ two64 - two32 →
  wp (construct_child fuel (S d) slicer junk fd max key cert) w (λ o w', unchanged w w' ∧
    match o with Val c => child_ok c | Halt h => h = OutOfFuel | Exn _ => True end).
Proof.
  intros Hsl Hjunk Hfd Hmax. unfold construct_child. apply wp_on_child.
  apply wp_mono with (P := λ o _,
    match o with Val c => child_ok c | Halt h => h = OutOfFuel | Exn _ => True end);
    [|intros o w' Ho; by split].
  tls_step. tls_step. eapply wp_mono; [apply child_socket_run|].
  intros o b (-> & (p & Hs) & _). cbn [seq_post]. tls_step. tls_step. cbn [seq_post].
  match goal with |- wp _ ?w' _ => assert (ok w') as Hok1 end.
  { unfold tls_ok. simpl. rewrite Hs. split; [|split; [done|split; [done|split; [|done]]]].
    - eapply accepted_socket_ok; [exact Hsl|exact Hfd|exact Hmax|]. by split_and!.
    - by apply buf_reset_wf. }
  apply wp_bind, wp_catch. eapply wp_mono; [by apply server_ok|].
  intros [[]|e|h] w1 Hok2; cbn [seq_post]; [| |done].
  - tls_step. tls_step. tls_step. cbn [seq_post]. tls_step. tls_step. cbn [seq_post].
    tls_step. intros σ e tr. by apply (same_ok _ w1).
  - tls_step. tls_step. unfold TcpSocket.destroy. tcp_step.
    eapply wp_mono; [apply close_safe, Hok2|]. intros o b' [_ Hval].
    destruct (Hval (or_introl eq_refl)) as (-> & _). cbn [seq_post]. tcp_step. cbn [seq_post].
    by tls_step.
Qed.

Definition accept_ok acc w : Prop :=
  ok w ∧ TcpSocket.m_state (w_sock (d_base w)) = Listening ∧
  m_state (d_own w) ≠ Tls.Connected ∧ Forall child_ok acc.

Lemma accept_step_ok slicer junk acc w :
  slicer_wf slicer → Z.of_nat (length junk) = MAX_SIZE → accept_ok acc w →
  wp (accept_step fuel (S d) slicer junk acc) w (λ o w', tame ok o w' ∧
    match o with Val (acc', _) => accept_ok acc' w' | _ => True end).
Proof.
  intros Hsl Hjunk (Hok & Hst & Hnc & Hacc). unfold accept_step. apply wp_bind. eapply wp_mono.
  { eapply follows_ok with (P := λ o, m_state o ≠ Tls.Connected) (Q := λ o b, match o with
      | Val (Some fd) => 0 < fd ∧ w_sock b = w_sock (d_base w)
      | Val None => w_sock b = w_sock (d_base w) | _ => True end);
      [|exact Hnc|apply keeps_internal_accept|exact Hok|].
    - apply (internal_accept_follows _ _ not_connected_kept). apply close_false_follows.
    - eapply wp_mono; [apply internal_accept_safe; [apply Hok|done]|].
      intros [[fd|]|e|h] b [Hl Hval]; by split. }
  intros [[fd|]|e|h] w1 (Hok1 & HQ & Hown); cbn [seq_post]; [| |by split..].
  - destruct HQ as [Hfd Hs1]. tls_step. tls_step. tls_step. cbn [seq_post]. tls_step. tls_step.
    cbn [seq_post]. apply wp_bind. eapply wp_mono; [apply construct_child_ok; try done; apply Hok1|].
    intros [c|e|h] w2 [[Hs2 Ho2] Hc]; cbn [seq_post]; [tls_step|by split; [apply (same_ok _ w1)|]|done].
    assert (ok w2) as Hok2 by by apply (same_ok _ w1).
    split; [done|]. split; [done|]. rewrite Hs2, Ho2. simpl. rewrite Hs1. split; [done|]. split.
    + by eapply not_connected_kept.
    + apply Forall_app_2; [done|]. by constructor.
  - tls_step. split; [done|]. split; [done|]. rewrite HQ. split; [done|]. split; [|done].
    by eapply not_connected_kept.
Qed.

Lemma accept_loop_ok n slicer junk acc w :
  slicer_wf slicer → Z.of_nat (length junk) = MAX_SIZE → accept_ok acc w →
  wp (accept_loop fuel (S d) n slicer junk acc) w (λ o w', tame ok o w' ∧
    match o with Val cs => Forall child_ok cs | _ => True end).
Proof.
  intros Hsl Hjunk. revert acc w. induction n as [|n IH]; intros acc w Hacc; simpl; [done|].
  apply wp_bind, wp_catch. eapply wp_mono; [by apply accept_step_ok|].
  intros [[acc' more]|e|h] w1 [Hok1 Hacc1]; cbn [seq_post]; [| |done].
  - destruct more; [by apply IH|]. tls_step. split; [done|]. apply Hacc1.
  - apply wp_bind. eapply wp_mono; [apply destroy_children_run, Hacc|].
    intros o w2 [-> [Hs Ho]]. cbn [seq_post]. tls_step. split; [|done]. by apply (same_ok _ w1).
Qed.

Lemma tls_accept_ok slicer junk w :
  slicer_wf slicer → Z.of_nat (length junk) = MAX_SIZE → m_state (d_own w) ≠ Tls.Connected →
  ok w →
  wp (accept fuel (S d) slicer junk) w (λ o w', tame ok o w' ∧
    match o with Val cs => Forall child_ok cs | _ => True end).
Proof.
  intros Hsl Hjunk Hnc Hok. unfold accept, is_listening. tls_step. tls_step. tls_step. tls_step.
  cbn [seq_post]. tls_step. cbn [seq_post].
  destruct (bool_decide _) eqn:Hst; cbn [negb];
    [|tls_step; split; [by apply (same_ok _ w)|done]].
  apply bool_decide_eq_true in Hst. by apply accept_loop_ok.
Qed.

(** ** Every sequence of calls *)

Inductive call :=
| CListen (address : Address) (backlog : Z)
| CConnect (tail : list byte) (address : Address) (name : string)
| CAccept
| CReceive
| CSend (data : list byte) (len : Z) (async : bool)
| CDoSend
| CClose (fast : bool).

Definition ignore {A} (m : M W A) : M W unit := m;; mret tt.

Definition perform (slicer : T) (junk : list byte) (c : call) : M W unit :=
  match c with
  | CListen address backlog => ignore (listen address backlog)
  | CConnect tail address name => ignore (connect fuel (S d) tail address name)
  | CAccept => ignore (accept fuel (S d) slicer junk)
  | CReceive => ignore (receive fuel (S d))
  | CSend data len async => ignore (send fuel (S d) data len async)
  | CDoSend => ignore (do_send fuel (S d))
  | CClose fast => ignore (close fuel (S d) fast)
  end.

(** What the documentation asks of a caller: open a socket once and not while it is
    connected, read from connections, pass arrays that hold the bytes. *)
Definition allowed (c : call) w : Prop :=
  match c with
  | CListen _ _ => dormant (w_sock (d_base w))
  | CConnect tail address name =>
      dormant (w_sock (d_base w)) ∧ m_state (d_own w) ≠ Tls.Connected ∧
      ∀ h, resolve_URL tail name 0 (IPv6 address) ≠ Halt h
  | CAccept => m_state (d_own w) ≠ Tls.Connected
  | CReceive => is_Some (m_tls_context (d_own w))
  | CSend data len _ => 0 ≤ len ≤ Z.of_nat (length data)
  | CDoSend | CClose _ => True
  end.

(** Sockets an application can hold: new, accepted, or after a permitted call that
    returned or threw. *)
Inductive reachable (slicer : T) (junk : list byte) : W → Prop :=
| reachable_new σ e tr max key cert :
    0 ≤ max ≤ two64 - two32 →
    reachable slicer junk (mkDerived (mkWorld σ e tr (new_socket slicer max))
      (new_tls_socket junk key cert))
| reachable_accepted w w' cs c σ e tr :
    reachable slicer junk w → m_state (d_own w) ≠ Tls.Connected →
    accept fuel (S d) slicer junk w = (Val cs, w') → c ∈ cs →
    reachable slicer junk (mkDerived (mkWorld σ e tr c.1) c.2)
| reachable_call w c o w' :
    reachable slicer junk w → allowed c w → perform slicer junk c w = (o, w') →
    (∀ h, o ≠ Halt h) → reachable slicer junk w'.

Lemma perform_ok slicer junk c w :
  (0 < fuel)%nat → slicer_wf slicer → Z.of_nat (length junk) = MAX_SIZE → allowed c w → ok w →
  wp (perform slicer junk c) w (tame ok).
Proof.
  intros Hf Hsl Hjunk Ha Hok. destruct c; simpl in *; unfold ignore;
    (apply wp_tame_bind; [|intros ? w' Hw'; by tls_step]).
  - by apply listen_ok.
  - destruct Ha as (? & ? & ?). by apply connect_ok.
  - eapply wp_mono; [by apply tls_accept_ok|]. by intros o w' [? _].
  - by apply receive_ok.
  - by apply send_ok.
  - by apply do_send_ok.
  - apply close_ok; [apply idle_stable|done].
Qed.

Lemma reachable_tls_ok slicer junk w :
  (0 < fuel)%nat → slicer_wf slicer → Z.of_nat (length junk) = MAX_SIZE →
  reachable slicer junk w → ok w.
Proof.
  intros Hf Hsl Hjunk. induction 1 as [σ e tr max key cert Hmax|w w' cs c σ e tr _ IH Hnc Hrun Hc
    |w c o w' _ IH Ha Hrun Ho].
  - unfold tls_ok. simpl. split; [|split; [done|split; [done|split; [|done]]]].
    + split; [|intros _; by right]. unfold core_ok, send_wf. simpl.
      split_and!; try done; unfold two64, two32 in *; lia.
    + by apply buf_reset_wf.
  - pose proof (tls_accept_ok slicer junk w Hsl Hjunk Hnc IH) as Hw. unfold wp in Hw.
    rewrite Hrun in Hw. destruct Hw as [_ Hcs]. simpl in Hcs. rewrite Forall_forall in Hcs.
    by apply (Hcs c).
  - pose proof (perform_ok slicer junk c w Hf Hsl Hjunk Ha IH) as Hw. unfold wp in Hw.
    rewrite Hrun in Hw. destruct o; try done. by destruct (Ho h).
Qed.

(** C18: from every state of a TLS socket that an application can reach, and
    whatever the library, the peer and the system do, a permitted call never
    aborts the process, never deadlocks on the mutex of the context, never
    follows a null pointer and never leaves an array: it returns, throws, or waits
    for the network. *)
Theorem tls_calls_never_abort slicer junk w c :
  (0 < fuel)%nat → slicer_wf slicer → Z.of_nat (length junk) = MAX_SIZE →
  reachable slicer junk w → allowed c w →
  wp (perform slicer junk c) w (λ o w',
    match o with Halt h => h = OutOfFuel | _ => True end).
Proof.
  intros Hf Hsl Hjunk Hr Ha.
  eapply wp_mono; [apply perform_ok; try done; by eapply reachable_tls_ok|].
  by intros [].
Qed.

(** In every state of a TLS socket that an application can reach, nothing
    ever waits in the send queue it inherits, so that [do_send] returns [false] at
    once and [wait_send_queue_empty] does not sleep; the mutex of the context is
    free; and the socket counts as connected only with a context and its channel. *)
Theorem tls_invariant slicer junk w :
  (0 < fuel)%nat → slicer_wf slicer → Z.of_nat (length junk) = MAX_SIZE →
  reachable slicer junk w →
  (∃ w', do_send fuel (S d) w = (Val false, w') ∧ unchanged w w') ∧
  (must_wait_send_queue (d_base w)).1 = Val false ∧
  (m_fd (w_sock (d_base w)) ≤ 0 → dormant (w_sock (d_base w))) ∧
  (∀ x, m_tls_context (d_own w) = Some x → m_mutex x = false ∧ is_Some (m_channel x)) ∧
  (m_state (d_own w) = Tls.Connected → is_Some (m_tls_context (d_own w))).
Proof.
  intros Hf Hsl Hjunk Hr.
  destruct (reachable_tls_ok slicer junk w Hf Hsl Hjunk Hr) as ([Hcore Hd] & [Hq Hc] & Hi & _ & Hst).
  split_and!; [| |done..].
  - pose proof (do_send_idle w Hf (conj Hq Hc)) as Hw. unfold wp in Hw.
    destruct (do_send fuel (S d) w) as [o w']. destruct Hw as [Ho Hw]. simpl in *. subst o.
    by exists w'.
  - unfold must_wait_send_queue, sock, mbind, M_bind. simpl.
    rewrite (core_ok_size _ Hcore), Hq. done.
Qed.
End calls.
