(* ===== verification/TlsProps.v ===== *)
(** What the members of [TlsSocket] and [TlsContext] do: the states of a TLS socket,
    closing, and writing the data the library produces. *)
From S2P Require Import Prelude Machine Buffer Slicer Inet Sys TcpSocket TcpBase TcpSend TcpRecv TcpLife.
From S2P Require Import Inherited Tls TlsBase TlsLife.
Local Open Scope Z_scope.

(** * The states of a socket *)

(** What closing does to the state. *)
Definition falls (s s' : Tls.State) : Prop :=
  s' = s ∨ s' = Tls.Closed ∨ (s = Tls.Connected ∧ s' = Tls.Shutdown).

#[export] Instance falls_preorder : PreOrder falls.
Proof.
  split; [by left|]. unfold falls. intros s1 s2 s3 [->|[->|[-> ->]]] [->|[->|[? ->]]]; auto; done.
Qed.

(** What received data does to it. *)
Definition turns (s s' : Tls.State) : Prop :=
  s' = s ∨ s' = Tls.Connected ∨ s' = Tls.Shutdown ∨ s' = Tls.Closed.

#[export] Instance turns_preorder : PreOrder turns.
Proof. split; [by left|]. unfold turns. intros s1 s2 s3 [->|[->|[->| ->]]] ?; tauto. Qed.

(** The transitions that a call may make. *)
Definition next (c : call) (s s' : Tls.State) : Prop :=
  match c with
  | CListen _ _ => s' = Tls.Listening
  | CConnect _ _ _ | CAccept => falls s s'
  | CReceive => turns s s'
  | CSend _ _ _ => falls s s' ∧ (s ≠ Tls.Connected → s' = s)
  | CDoSend => s' = s ∨ s' = Tls.Closed
  | CClose fast => s' = Tls.Closed ∨ (fast = false ∧ s = Tls.Connected ∧ s' = Tls.Shutdown)
  end.

Section states.
Context {Σ T C : Type} `{Sys Σ} `{Inet} `{MessageSlicer T} `{BotanLaws C}.
Abbreviation W := (derived Σ T (TlsSocket C)).
Implicit Types (w : W).
Context (fuel d : nat).

#[local] Arguments close : simpl never.

Abbreviation falling_state := (moves (Σ:=Σ) (T:=T) (C:=C) m_state falls).
Abbreviation turning_state := (moves (Σ:=Σ) (T:=T) (C:=C) m_state turns).

Lemma state_falling : falling (C:=C) m_state falls.
Proof.
  split; [by left|intros o Hst; right; right; done|intros o; right; by left].
Qed.

Lemma state_rising : rising (C:=C) m_state turns.
Proof.
  unfold turns. split; [split|]; simpl; auto.
Qed.

Lemma close_falls e fast : falling_state (close fuel e fast).
Proof. apply close_moves; [exact _|apply state_falling]. Qed.

Lemma context_send_falls e data len : falling_state (context_send (close fuel e) fuel data len).
Proof.
  pose proof state_falling as [Hctx _ _].
  assert (∀ bs, falling_state (on_channel (handle (close fuel e) fuel true) (ch_send bs))) as Hs.
  { intros bs. eapply on_channel_moves; [exact _|exact Hctx|apply send_emits|].
    intros cb Hcb. by apply emits_moves; [exact _| |apply close_falls]. }
  unfold context_send. apply locked_moves; [exact _|exact Hctx|]. repeat moves_step.
Qed.

Lemma do_send_falls : falling_state (do_send fuel (S d)).
Proof.
  pose proof (close_falls (S d) true).
  unfold do_send, Inherited.do_send, Inherited.send_step, Inherited.write_step. repeat moves_step.
Qed.

Lemma send_falls data len async : falling_state (send fuel (S d) data len async).
Proof.
  pose proof (close_falls (S d) false). pose proof (context_send_falls (S d) data len).
  pose proof do_send_falls. unfold send. repeat moves_step.
Qed.

Lemma make_context_falls e creds new :
  falling_state creds → (∀ cs, calls_only emits (new cs)) →
  falling_state (make_context (close fuel e) fuel creds new).
Proof.
  intros Hcr Hnew. pose proof state_falling as [Hctx _ _].
  assert (∀ cs, falling_state (interp false (handle (close fuel e) fuel false) (new cs))) as Hi.
  { intros cs. eapply interp_moves; [exact _|exact Hctx|apply Hnew|].
    intros cb Hcb. by apply emits_moves; [exact _| |apply close_falls]. }
  unfold make_context. repeat moves_step.
Qed.

Lemma connect_falls tail address name : falling_state (connect fuel (S d) tail address name).
Proof.
  pose proof (close_falls (S d) false).
  assert (falling_state (TlsClient (close fuel (S d)) fuel)).
  { apply make_context_falls; [repeat moves_step|]. intros cs. apply client_emits. }
  unfold connect, Inherited.connect. repeat moves_step.
Qed.

Lemma accept_falls slicer junk : falling_state (accept fuel (S d) slicer junk).
Proof.
  pose proof (close_falls (S d) false).
  assert (∀ cs, falling_state (destroy_all fuel (S d) cs)) as Hdes.
  { intros cs. induction cs as [|c cs IH]; simpl; repeat moves_step. }
  assert (∀ fd max key cert,
    falling_state (construct_child fuel (S d) slicer junk fd max key cert)) as Hchild.
  { intros. apply moves_on_child. exact _. }
  assert (∀ n acc, falling_state (accept_loop fuel (S d) n slicer junk acc)) as Hloop.
  { intros n. induction n as [|n IH]; intros acc; simpl; unfold accept_step, internal_accept;
      repeat moves_step. }
  unfold accept. repeat moves_step.
Qed.

Lemma receive_turns : turning_state (receive fuel (S d)).
Proof.
  assert (∀ fast, turning_state (close fuel (S d) fast)) as Hc.
  { intros fast. apply close_moves; [exact _|apply state_rising]. }
  assert (∀ b, turning_state (tls_process_data (close fuel (S d)) fuel b)) as Hp.
  { intros b. assert (∀ bs, turning_state (on_channel (handle (close fuel (S d)) fuel true)
      (ch_received_data bs))) as Hch.
    { intros bs. eapply on_channel_moves; [exact _|apply state_rising|intros c; apply calls_any|].
      intros cb _. apply handle_moves; [exact _|apply state_rising|done]. }
    unfold tls_process_data, context. repeat moves_step. }
  assert (turning_state (receive_data (close fuel (S d)) (o ← own; mret (m_buffer o))
    (λ b, set_own (put_buffer b)))) by (unfold receive_data; repeat moves_step).
  assert (turning_state (pull_messages fuel (S d))) by
    (unfold pull_messages, pull_step; repeat moves_step).
  unfold receive, Inherited.receive. repeat moves_step.
Qed.

Lemma do_send_state w :
  let s' := m_state (d_own (do_send fuel (S d) w).2) in
  s' = m_state (d_own w) ∨ s' = Tls.Closed.
Proof.
  simpl. assert (moves (Σ:=Σ) (T:=T) (C:=C) m_state (λ s s', s' = s ∨ s' = Tls.Closed)
    (do_send fuel (S d))) as Hm; [|exact (Hm w)].
  assert (PreOrder (λ s s' : Tls.State, s' = s ∨ s' = Tls.Closed)).
  { split; [by left|]. intros s1 s2 s3 [->| ->] [->| ->]; auto. }
  assert (moves (Σ:=Σ) (T:=T) (C:=C) m_state (λ s s', s' = s ∨ s' = Tls.Closed)
    (close fuel (S d) true)) as Hc.
  { intros w'. rewrite close_run, not_orderly_fast. right. unfold base, zoom. simpl.
    by destruct (TcpSocket.close true _). }
  unfold do_send, Inherited.do_send, Inherited.send_step, Inherited.write_step. repeat moves_step.
Qed.

Lemma close_state fast w :
  let s' := m_state (d_own (close fuel (S d) fast w).2) in
  s' = Tls.Closed ∨ (fast = false ∧ m_state (d_own w) = Tls.Connected ∧ s' = Tls.Shutdown).
Proof.
  simpl. rewrite close_run. destruct (orderly fast (d_own w)) eqn:Ho.
  - apply orderly_connected in Ho as [Hfast Hst]. pose proof state_falling as [Hctx _ _].
    assert (falling_state (context_close (close fuel d) fuel;; mret false)) as Hm.
    { assert (falling_state (context_close (close fuel d) fuel)); [|repeat moves_step].
      eapply on_channel_moves; [exact _|exact Hctx|apply close_emits|].
      intros cb Hcb. by apply emits_moves; [exact _| |apply close_falls]. }
    destruct (Hm (with_own (put_state Tls.Shutdown (d_own w)) w)) as [E|[E|[? _]]];
      [right; auto|by left|done].
  - left. unfold base, zoom. simpl. by destruct (TcpSocket.close fast _).
Qed.

Lemma ignore_own {A} (m : M W A) w : d_own (ignore m w).2 = d_own (m w).2.
Proof. unfold ignore, mbind, M_bind. by destruct (m w) as [[] ?]. Qed.

(** C19: every call, from every state of the object and however it ends, changes
    the state of the connection along this table only: [listen] to [Listening];
    [connect] and [accept] not at all or to [Closed]; [send] does nothing unless the
    socket is connected, and then may close it; [close] to [Closed], or, orderly
    and from [Connected], to [Shutdown]; only [receive], that is the library
    reporting the end of the handshake, makes a socket connected. *)
Theorem tls_state_machine slicer junk c w :
  next c (m_state (d_own w)) (m_state (d_own (perform fuel d slicer junk c w).2)).
Proof.
  destruct c; simpl; rewrite ignore_own.
  - unfold listen, mbind, M_bind, set_tls_state, set_own, base, zoom. simpl.
    by destruct (TcpSocket.listen _ _ _) as [[] ?].
  - apply connect_falls.
  - apply accept_falls.
  - apply receive_turns.
  - split; [apply send_falls|]. intros Hst. unfold send, own, mbind, M_bind.
    by rewrite bool_decide_eq_false_2.
  - apply do_send_state.
  - apply close_state.
Qed.
End states.

(** * Closing from within a call of the channel *)

Section depth.
Context {Σ T C : Type} `{Sys Σ} `{Inet} `{MessageSlicer T} `{BotanLaws C}.
Abbreviation W := (derived Σ T (TlsSocket C)).
Implicit Types (w : W) (vclose : bool → M W bool).

#[local] Arguments close : simpl never.

(** Two programs that do the same as long as the socket is not connected, and do
    not connect it. *)
Definition agree {A} (m1 m2 : M W A) : Prop :=
  ∀ w, m_state (d_own w) ≠ Tls.Connected →
    m1 w = m2 w ∧ m_state (d_own (m1 w).2) ≠ Tls.Connected.

Lemma agree_refl {A} (m : M W A) :
  moves m_state (=) m → agree m m.
Proof. intros Hm w Hst. split; [done|]. by rewrite <- (Hm w). Qed.

Lemma agree_bind {A B} (m1 m2 : M W A) (k1 k2 : A → M W B) :
  agree m1 m2 → (∀ a, agree (k1 a) (k2 a)) → agree (m1 ≫= k1) (m2 ≫= k2).
Proof.
  intros Hm Hk w Hst. destruct (Hm w Hst) as [Heq Hst']. unfold mbind, M_bind. rewrite <- Heq.
  destruct (m1 w) as [[a|e|h] w']; [by apply Hk|done|done].
Qed.

Lemma agree_catch {A} (m1 m2 : M W A) h1 h2 :
  agree m1 m2 → (∀ e, agree (h1 e) (h2 e)) → agree (catch m1 h1) (catch m2 h2).
Proof.
  intros Hm Hh w Hst. destruct (Hm w Hst) as [Heq Hst']. unfold catch. rewrite <- Heq.
  destruct (m1 w) as [[a|e|h] w']; [done|by apply Hh|done].
Qed.

Lemma emit_agree vclose1 vclose2 fuel data :
  agree (vclose1 false) (vclose2 false) →
  agree (tls_emit_data vclose1 fuel data) (tls_emit_data vclose2 fuel data).
Proof.
  intros Hc. unfold tls_emit_data. generalize 0. induction fuel as [|n IH]; intros sent; simpl.
  { apply agree_refl. repeat moves_step. }
  destruct (negb _); [apply agree_refl; repeat moves_step|].
  repeat (apply agree_bind; [apply agree_refl; repeat moves_step|intros ?]).
  destruct a1 as [k|e].
  - destruct (0 <? k); (apply agree_bind; [|intros ?]); try done;
      apply agree_refl; repeat moves_step.
  - apply agree_bind; [apply agree_refl; repeat moves_step|intros ?].
    destruct e; try done; (apply agree_bind; [done|intros ?]); apply agree_refl; repeat moves_step.
Qed.

Lemma interp_agree owned hdl1 hdl2 (r : run C) :
  calls_only emits r → (∀ cb, emits cb → agree (hdl1 cb) (hdl2 cb)) →
  agree (interp owned hdl1 r) (interp owned hdl2 r).
Proof.
  intros Hr Hh. induction Hr as [c|e c|cb c k Hcb _ IH]; simpl.
  - apply agree_refl. repeat moves_step.
  - apply agree_refl. unfold when. repeat moves_step.
  - apply agree_bind; [apply agree_refl; unfold when; repeat moves_step|intros _].
    apply agree_bind.
    { apply agree_catch; [|intros ?; apply agree_refl; repeat moves_step].
      apply agree_bind; [by apply Hh|intros ?]. apply agree_refl. repeat moves_step. }
    intros a. apply agree_bind; [|intros ?; apply IH].
    apply agree_refl. unfold channel, context. repeat moves_step.
Qed.

Lemma on_channel_agree hdl1 hdl2 call :
  (∀ c : C, calls_only emits (call c)) → (∀ cb, emits cb → agree (hdl1 cb) (hdl2 cb)) →
  agree (on_channel hdl1 call) (on_channel hdl2 call).
Proof.
  intros Hr Hh. unfold on_channel.
  apply agree_bind; [apply agree_refl; unfold channel, context; repeat moves_step|intros c].
  apply agree_bind; [by apply interp_agree|intros c'].
  apply agree_refl. repeat moves_step.
Qed.

Lemma close_agree fuel d1 d2 fast :
  agree (close fuel (S d1) fast) (close fuel (S d2) fast).
Proof.
  intros w Hst. rewrite !close_run, (not_orderly _ _ Hst).
  split; [done|]. unfold base, zoom. simpl. by destruct (TcpSocket.close fast _).
Qed.

(** [close] of a TLS socket calls the channel, which writes through
    [tls_emit_data], which closes the socket when the write fails: this goes one
    level deep at most, because the state is no longer [Connected] then. A bound of
    two calls of [close] inside each other is enough, whatever the channel and the
    system do. *)
Theorem close_reenters_once fuel d fast w :
  close (Σ:=Σ) (T:=T) (C:=C) fuel (S (S d)) fast w = close fuel 2 fast w.
Proof.
  rewrite !close_run. destruct (orderly fast (d_own w)) eqn:Ho; [|done].
  assert (agree (context_close (close fuel (S d)) fuel;; mret false)
    (context_close (close fuel 1) fuel;; mret false)) as Ha.
  { apply agree_bind; [|intros _; apply agree_refl; repeat moves_step].
    apply on_channel_agree; [apply close_emits|]. intros cb [data ->]. simpl.
    apply agree_bind; [|intros _; apply agree_refl; repeat moves_step].
    apply emit_agree, close_agree. }
  by destruct (Ha (with_own (put_state Tls.Shutdown (d_own w)) w)).
Qed.
End depth.

(** * Writing what the library produces *)

Section emitting.
Context {Σ T C : Type} `{SysLaws Σ} `{Inet} `{MessageSlicer T} `{Botan C}.
Abbreviation W := (derived Σ T (TlsSocket C)).
Implicit Types (w : W) (vclose : bool → M W bool).

Definition fd_of w : Z := m_fd (w_sock (d_base w)).

(** [w'] is [w] after the bytes [p] have been written, in some number of calls. *)
Definition wrote (p : list byte) w w' : Prop :=
  unchanged w w' ∧ ∃ chunks, concat chunks = p ∧
    w_trace (d_base w') = w_trace (d_base w) ++ (Wrote (fd_of w) <$> chunks).

(** The ways [tls_emit_data] goes on after the last [write]: everything is
    written; the connection is gone; another error. *)
Definition emit_end vclose (all : bool) w1 (r : outcome unit * W) : Prop :=
  (all = true ∧ r = (Val tt, w1)) ∨ r = (Halt OutOfFuel, w1) ∨
  r = (vclose false;; mret tt) w1 ∨
  r = (vclose false;; e ← base get_errno; throw (socket_error (strerror e))) w1.

Lemma wrote_refl w : wrote [] w w.
Proof. split; [done|]. exists []. simpl. by rewrite app_nil_r. Qed.

Lemma wrote_same p w w1 w2 :
  wrote p w w1 → unchanged w1 w2 → w_trace (d_base w2) = w_trace (d_base w1) → wrote p w w2.
Proof.
  intros [[Hs Ho] (ch & Hch & Ht)] [Hs' Ho'] Ht'. split; [split; congruence|].
  exists ch. by rewrite Ht', Ht.
Qed.

Lemma wrote_more p c w w1 w2 :
  wrote p w w1 → unchanged w1 w2 →
  w_trace (d_base w2) = w_trace (d_base w1) ++ [Wrote (fd_of w) c] → wrote (p ++ c) w w2.
Proof.
  intros [[Hs Ho] (ch & Hch & Ht)] [Hs' Ho'] Ht'. split; [split; congruence|].
  exists (ch ++ [c]). rewrite concat_app, Hch, Ht', Ht, fmap_app, <- app_assoc. simpl.
  by rewrite app_nil_r.
Qed.

Definition emit_post vclose data w0 (o : outcome unit) w' : Prop :=
  ∃ p w1, p `prefix_of` data ∧ wrote p w0 w1 ∧
    emit_end vclose (bool_decide (p = data)) w1 (o, w').

Lemma emit_loop_writes vclose n data sent w w0 :
  Z.of_nat (length data) < two32 → 0 ≤ sent ≤ Z.of_nat (length data) →
  wrote (take (Z.to_nat sent) data) w0 w →
  wp (emit_loop vclose n data sent) w (emit_post vclose data w0).
Proof.
  intros H32. revert sent w. induction n as [|n IH]; intros sent w Hs Hw; simpl.
  { exists (take (Z.to_nat sent) data), w. split; [apply prefix_take|]. split; [done|].
    right. by left. }
  destruct (sent <? Z.of_nat (length data)) eqn:Hlt; cbn [negb]; bool_to_prop.
  2:{ tls_step. exists data, w. rewrite take_ge in Hw by lia. split; [done|]. split; [done|].
      left. by rewrite bool_decide_eq_true_2. }
  tls_step. tls_step. tls_step. cbn [seq_post]. tls_step. tls_step.
  apply wp_read_slice; [lia..|]. cbn [seq_post]. set (bytes := slice _ _ _).
  assert (bytes = drop (Z.to_nat sent) data) as Hb.
  { unfold bytes, slice. apply take_ge. rewrite length_drop. lia. }
  tls_step. tls_step. apply wp_os_call. simpl. intros r σ Hr. cbn [seq_post].
  match goal with |- wp _ ?w' _ => assert (wrote (take (Z.to_nat sent) data) w0 w') as Hw1 end.
  { by eapply wrote_same. }
  destruct r as [k|e].
  - pose proof (write_bound _ _ _ _ _ Hr) as Hk. rewrite Hb, length_drop in Hk.
    destruct (0 <? k) eqn:Hk0; bool_to_prop.
    + tls_step. tls_step. tls_step. cbn [seq_post]. unfold two32 in H32.
      rewrite u32_small by lia. apply IH; [lia|].
      replace (take (Z.to_nat (sent + k)) data)
        with (take (Z.to_nat sent) data ++ take (Z.to_nat k) bytes).
      2:{ rewrite Hb, take_take_drop. f_equal. lia. }
      eapply wrote_more; [exact Hw|done|]. simpl. unfold fd_of.
      by destruct Hw as [[-> _] _].
    + apply wp_outcome. intros o w' Heq. eexists _, _. split; [apply prefix_take|].
      split; [exact Hw1|]. right. right. by left.
  - tls_step. tls_step. tls_step. cbn [seq_post].
    match goal with |- wp _ ?w' _ => assert (wrote (take (Z.to_nat sent) data) w0 w') as Hw2 end.
    { by eapply wrote_same. }
    destruct e; try (apply IH; [lia|exact Hw2]); (apply wp_outcome; intros o w' Heq;
      eexists _, _; split; [apply prefix_take|]; split; [exact Hw2|]; right; right; auto).
Qed.

(** [tls_emit_data] writes the bytes of the library to the descriptor of the
    socket in order, nothing else, and touches nothing of the socket. It returns
    when all are written; it closes the socket, with a part written, when the peer
    is gone, and throws a [socket_error] as well for any other error; or it goes on
    retrying. *)
Theorem emit_data_writes vclose fuel data w :
  Z.of_nat (length data) < two32 →
  wp (tls_emit_data vclose fuel data) w (λ o w', ∃ p w1, p `prefix_of` data ∧ unchanged w w1 ∧
    (∃ chunks, concat chunks = p ∧
       w_trace (d_base w1) = w_trace (d_base w) ++ (Wrote (fd_of w) <$> chunks)) ∧
    ((p = data ∧ (o, w') = (Val tt, w1)) ∨ (o, w') = (Halt OutOfFuel, w1) ∨
     (o, w') = (vclose false;; mret tt) w1 ∨
     (o, w') = (vclose false;; e ← base get_errno; throw (socket_error (strerror e))) w1)).
Proof.
  intros H32. eapply wp_mono; [apply emit_loop_writes with (w0 := w); [done|lia|]|].
  { apply wrote_refl. }
  intros o w' (p & w1 & Hp & [Hu Hch] & Hend). exists p, w1. split; [done|]. split; [done|].
  split; [done|]. destruct Hend as [[Hall%bool_decide_eq_true Heq]|Hend]; [by left|by right].
Qed.

(** A system that takes all of [bs] in [n] calls of [write], some of which ask to
    try again, as [tls_emit_data] makes them. *)
Inductive takes (fd : Z) : nat → list byte → Σ → Prop :=
| takes_all σ : takes fd 0 [] σ
| takes_some n bs k σ σ' :
    sys_write fd bs σ = (inl k, σ') → 0 < k → takes fd n (drop (Z.to_nat k) bs) σ' →
    takes fd (S n) bs σ
| takes_later n bs e σ σ' :
    bs ≠ [] → sys_write fd bs σ = (inr e, σ') → e = EAGAIN ∨ e = ECONNRESET →
    takes fd n bs σ' → takes fd (S n) bs σ.

Lemma emit_loop_takes vclose n fuel data sent w w0 :
  Z.of_nat (length data) < two32 → 0 ≤ sent ≤ Z.of_nat (length data) →
  takes (fd_of w) n (drop (Z.to_nat sent) data) (w_os (d_base w)) → (n < fuel)%nat →
  wrote (take (Z.to_nat sent) data) w0 w →
  wp (emit_loop vclose fuel data sent) w (λ o w', o = Val tt ∧ wrote data w0 w').
Proof.
  intros H32 Hs Ht. remember (drop (Z.to_nat sent) data) as bs eqn:Hbs.
  remember (w_os (d_base w)) as σ eqn:Hσ. remember (fd_of w) as fd eqn:Hfd.
  revert fuel sent w Hs Hbs Hσ Hfd.
  induction Ht as [σ|n bs k σ σ' Hr Hk _ IH|n bs e σ σ' Hne Hr He _ IH];
    intros fuel sent w Hs Hbs Hσ Hfd Hlt Hw; (destruct fuel as [|fuel]; [lia|]); simpl.
  - assert (Z.of_nat (length data) ≤ sent) as Hge.
    { apply (f_equal length) in Hbs. rewrite length_drop in Hbs. simpl in Hbs. lia. }
    rewrite (proj2 (Z.ltb_ge _ _) Hge). simpl. tls_step. split; [done|].
    by rewrite take_ge in Hw by lia.
  - pose proof (write_bound _ _ _ _ _ Hr) as Hkb. rewrite Hbs, length_drop in Hkb.
    rewrite (proj2 (Z.ltb_lt sent (Z.of_nat (length data)))) by lia. cbn [negb].
    tls_step. tls_step. tls_step. cbn [seq_post]. tls_step. tls_step.
    apply wp_read_slice; [lia..|]. cbn [seq_post].
    replace (slice _ _ data) with bs by (unfold slice; rewrite <- Hbs, take_ge;
      [done|rewrite Hbs, length_drop; lia]).
    tls_step. tls_step. apply wp_os_call. simpl. fold (fd_of w). rewrite <- Hfd, <- Hσ, Hr.
    intros ? ? [= <- <-]. cbn [seq_post]. rewrite (proj2 (Z.ltb_lt _ _) Hk).
    tls_step. tls_step. tls_step. cbn [seq_post]. unfold two32 in H32.
    rewrite u32_small by lia. apply IH; try done; [lia| |lia|].
    + rewrite Hbs, drop_drop. f_equal. lia.
    + replace (take (Z.to_nat (sent + k)) data)
        with (take (Z.to_nat sent) data ++ take (Z.to_nat k) bs).
      2:{ rewrite Hbs, take_take_drop. f_equal. lia. }
      eapply wrote_more; [exact Hw|done|]. simpl. rewrite Hfd. unfold fd_of.
      by destruct Hw as [[-> _] _].
  - assert (sent < Z.of_nat (length data)) as Hlt'.
    { apply length_pos in Hne. rewrite Hbs, length_drop in Hne. lia. }
    rewrite (proj2 (Z.ltb_lt _ _) Hlt'). cbn [negb].
    tls_step. tls_step. tls_step. cbn [seq_post]. tls_step. tls_step.
    apply wp_read_slice; [lia..|]. cbn [seq_post].
    replace (slice _ _ data) with bs by (unfold slice; rewrite <- Hbs, take_ge;
      [done|rewrite Hbs, length_drop; lia]).
    tls_step. tls_step. apply wp_os_call. simpl. fold (fd_of w). rewrite <- Hfd, <- Hσ, Hr.
    intros ? ? [= <- <-]. cbn [seq_post]. tls_step. tls_step. tls_step. cbn [seq_post].
    destruct He as [-> | ->]; (apply IH; try done; try lia; by eapply wrote_same).
Qed.

(** [tls_emit_data] ends once the system has taken everything, however often
    it asked to try again; as long as the system keeps answering [EAGAIN] or
    [ECONNRESET], it does not end: unlike [TcpSocket::do_send] it waits for the peer
    in a busy loop. *)
Theorem emit_data_ends vclose data w :
  Z.of_nat (length data) < two32 →
  (∀ n fuel, takes (fd_of w) n data (w_os (d_base w)) → (n < fuel)%nat →
    wp (tls_emit_data vclose fuel data) w (λ o w', o = Val tt ∧ unchanged w w' ∧
      ∃ chunks, concat chunks = data ∧
        w_trace (d_base w') = w_trace (d_base w) ++ (Wrote (fd_of w) <$> chunks))) ∧
  (∀ e fuel, data ≠ [] → e = EAGAIN ∨ e = ECONNRESET →
    sys_write (fd_of w) data (w_os (d_base w)) = (inr e, w_os (d_base w)) →
    (tls_emit_data vclose fuel data w).1 = Halt OutOfFuel).
Proof.
  intros H32. split.
  - intros n fuel Ht Hf. apply emit_loop_takes with (n := n) (w0 := w); try done; try lia.
    apply wrote_refl.
  - intros e fuel Hne He Hstuck. unfold tls_emit_data.
    assert (∀ w', fd_of w' = fd_of w → w_os (d_base w') = w_os (d_base w) →
      wp (emit_loop vclose fuel data 0) w' (λ o _, o = Halt OutOfFuel)) as Hw; [|by apply Hw].
    induction fuel as [|n IH]; intros w' Hfd Hos; simpl; [done|].
    apply length_pos in Hne as Hpos.
    rewrite (proj2 (Z.ltb_lt 0 (Z.of_nat (length data)))) by lia. cbn [negb].
    tls_step. tls_step. tls_step. cbn [seq_post]. tls_step. tls_step.
    apply wp_read_slice; [lia..|]. cbn [seq_post].
    replace (slice _ _ data) with data by (unfold slice; rewrite take_ge; [done|rewrite length_drop; lia]).
    tls_step. tls_step. apply wp_os_call. simpl. fold (fd_of w'). rewrite Hfd, Hos, Hstuck.
    intros ? ? [= <- <-]. cbn [seq_post]. tls_step. tls_step. tls_step. cbn [seq_post].
    by destruct He as [-> | ->]; apply IH.
Qed.
End emitting.
