(* ===== verification/TlsChannel.v ===== *)
(** What the channel of a TLS socket has been given: an observation of its state that
    only certain calls change, followed through every call of the socket. *)
From S2P Require Import Prelude Machine Buffer Slicer Inet Sys TcpSocket TcpBase TcpSend TcpLife.
From S2P Require Import Inherited Tls TlsBase.
Local Open Scope Z_scope.

(** * Observations of a channel *)

(** A call of a channel that leaves an observation at [before] until it returns, with
    [after]; the channel may be called again from its callbacks as long as these
    calls do not change it. *)
Inductive accepts {C X} (obs : C → X) (before after : X) : run C → Prop :=
| accepts_returns c : obs c = after → accepts obs before after (Returns c)
| accepts_throws e c : obs c = before → accepts obs before after (Throws e c)
| accepts_calls cb c k :
    obs c = before →
    (∀ a c', obs c' = before → accepts obs before after (k a c')) →
    accepts obs before after (Calls cb c k).

#[local] Arguments close : simpl never.

Section observing.
Context {Σ T C X : Type} `{Sys Σ} `{Inet} `{MessageSlicer T} `{BotanLaws C}.
Context (obs : C → X) (close_keeps : ∀ c, accepts obs (obs c) (obs c) (ch_close c)).
Abbreviation W := (derived Σ T (TlsSocket C)).
Implicit Types (w : W) (h : X).
Context (fuel : nat).

(** What is observed of the channel of a socket. *)
Definition observed (o : TlsSocket C) : option X :=
  x ← m_tls_context o; obs <$> m_channel x.

(** If it was [h], it stays [h]. *)
Definition stays h (x y : option X) : Prop := x = Some h → y = Some h.

#[export] Instance stays_preorder h : PreOrder (stays h).
Proof. split; unfold stays; repeat intro; auto. Qed.

Abbreviation quiet h := (moves (Σ:=Σ) (T:=T) (C:=C) observed (stays h)).

Lemma observed_channel o h :
  observed o = Some h → ∃ x c, m_tls_context o = Some x ∧ m_channel x = Some c ∧ obs c = h.
Proof.
  unfold observed. destruct (m_tls_context o) as [x|]; [|done]. simpl.
  destruct (m_channel x) as [c|] eqn:E; [|done]. intros [= <-]. by exists x, c.
Qed.

Lemma observed_put_channel w c h :
  observed (d_own w) = Some h →
  observed (d_own (with_context true (put_channel (Some c)) w)) = Some (obs c).
Proof.
  intros (x & c' & Hx & _ & _)%observed_channel. unfold observed. simpl. by rewrite Hx.
Qed.

(** Changes of the context that leave the channel alone. *)
Lemma observed_context f w :
  (∀ x, m_channel (f x) = m_channel x) →
  observed (d_own (with_context true f w)) = observed (d_own w).
Proof.
  intros Hf. unfold observed. simpl. destruct (m_tls_context (d_own w)) as [x|]; [|done]. simpl.
  by rewrite Hf.
Qed.

Lemma quiet_context h f :
  (∀ x, m_channel (f x) = m_channel x) → quiet h (set_context true f).
Proof.
  intros Hf w Hw. rewrite <- Hw. exact (observed_context f w Hf).
Qed.

Lemma quiet_locked {A} h (body : M W A) : quiet h body → quiet h (locked true body).
Proof.
  intros Hb. unfold locked, lock, unlock, context. repeat moves_step; by apply quiet_context.
Qed.

Lemma interp_accepts (ok : callback → Prop) hdl r h h' w :
  calls_only ok r → accepts obs h h' r → (∀ cb, ok cb → quiet h (hdl cb)) →
  observed (d_own w) = Some h →
  wp (interp true hdl r) w (λ o w', observed (d_own w') = Some h ∧
    ∀ c, o = Val c → obs c = h').
Proof.
  intros Hr Ha Hh. revert w. induction Ha as [c Hc|e c Hc|cb c k Hc _ IH]; intros w Hw; simpl.
  - tls_step. split; [done|]. by intros ? [= <-].
  - tls_step. tls_step. tls_step. cbn [seq_post]. tls_step. by rewrite (observed_put_channel w c h), Hc.
  - inversion Hr as [| |? ? ? Hcb Hk]; subst. tls_step. tls_step. tls_step. cbn [seq_post].
    set (w1 := with_context _ _ _). assert (observed (d_own w1) = Some (obs c)) as Hw1.
    { by eapply observed_put_channel. }
    assert (quiet (obs c) (catch (b ← hdl cb; mret (Returned b)) (λ e, mret (Raised e)))) as Hq.
    { pose proof (Hh cb Hcb). repeat moves_step. }
    specialize (Hq w1 Hw1). apply wp_bind.
    eapply (wp_mono _ _ (λ _ w', observed (d_own w') = Some (obs c))).
    { unfold wp. by destruct (catch _ _ w1). }
    intros [a|e|x] w2 Hw2; cbn [seq_post]; [|by split..].
    apply observed_channel in Hw2 as Hch. destruct Hch as (x & c' & Hx & Hc' & Hacc).
    apply wp_bind. eapply wp_channel; [done..|]. cbn [seq_post]. by apply IH.
Qed.

Lemma on_channel_accepts (ok : callback → Prop) hdl call h h' w :
  (∀ c, calls_only ok (call c)) →
  (∀ c, obs c = h → accepts obs h h' (call c)) →
  (∀ cb, ok cb → quiet h (hdl cb)) → observed (d_own w) = Some h →
  wp (on_channel hdl call) w (λ o w',
    observed (d_own w') = Some (match o with Val _ => h' | _ => h end)).
Proof.
  intros Hr Ha Hh Hw. unfold on_channel.
  apply observed_channel in Hw as Hch. destruct Hch as (x & c & Hx & Hc & Hacc).
  tls_step. eapply wp_channel; [done..|]. cbn [seq_post]. apply wp_bind.
  eapply wp_mono; [apply (interp_accepts ok hdl _ h h'); auto|].
  intros [c'|e|hh] w1 [Hw1 Hval]; cbn [seq_post]; [|done..]. tls_step.
  rewrite <- (Hval c' eq_refl). by eapply observed_put_channel.
Qed.

Lemma quiet_close n fast h : quiet h (close fuel n fast).
Proof.
  revert fast. induction n as [|n IH]; intros fast; [repeat moves_step|].
  intros w Hw. rewrite close_run. destruct (orderly fast (d_own w)).
  - assert (wp (context_close (close fuel n) fuel) (with_own (put_state Tls.Shutdown (d_own w)) w)
      (λ o w', observed (d_own w') = Some (match o with Val _ => h | _ => h end))) as Hcl.
    { apply (on_channel_accepts emits); [apply close_emits|by intros c <-; apply close_keeps| |done].
      intros cb Hcb. by apply emits_moves; [exact _|..]. }
    unfold wp in Hcl. unfold mbind, M_bind.
    by destruct (context_close _ _ _) as [[] ?].
  - unfold base, zoom. simpl. by destruct (TcpSocket.close fast (d_base w)).
Qed.

Lemma unlocked_ready w h :
  observed (d_own w) = Some h → ready (with_context true (put_mutex false) w).
Proof.
  intros (x & c & Hx & _)%observed_channel. exists (put_mutex false x). simpl. by rewrite Hx.
Qed.

(** No callback changes what is observed, unless it calls the channel again. *)
Lemma handle_quiet n h cb : quiet h (handle (close fuel n) fuel true cb).
Proof.
  pose proof (λ fast, quiet_close n fast h) as Hc.
  assert (∀ k data pos, quiet h (record_loop k data pos)) as Hrec.
  { intros k data. induction k as [|k IH]; intros pos; simpl; repeat moves_step. }
  destruct cb; simpl; unfold tls_record_received, tls_alert, tls_session_established.
  - apply moves_bind; [exact _| |intros _; repeat moves_step]. by apply emit_moves; [exact _|].
  - pose proof (quiet_locked h _ (Hrec (S (length data)) data 0)). repeat moves_step.
  - repeat moves_step.
  - repeat moves_step.
  - apply quiet_locked. repeat first [by apply quiet_context | moves_step].
Qed.
End observing.
