(* ===== verification/TlsInput.v ===== *)
(** The receiving side below the records: [pull_messages] of a TLS socket gives what
    the descriptor delivers to the library. *)
From S2P Require Import Prelude Machine Buffer Slicer Inet Sys TcpSocket TcpBase TcpSend TcpRecv TcpLife.
From S2P Require Import Inherited Tls TlsBase TlsLife TlsChannel.
Local Open Scope Z_scope.

(** The bytes for which [received_data] has returned, in order. *)
Class SecureInput (C : Type) `{Botan C} := {
  fed : C → list byte;
  received_feeds bs c : accepts fed (fed c) (fed c ++ bs) (ch_received_data bs c);
  close_feeds c : accepts fed (fed c) (fed c) (ch_close c);
}.

Abbreviation input := (observed fed).

#[local] Arguments close : simpl never.

(** * Calls that read nothing *)

Section deaf.
Context {Σ T C : Type} `{Sys Σ} `{Inet} `{MessageSlicer T} `{BotanLaws C}.
Abbreviation W := (derived Σ T (TlsSocket C)).
Implicit Types (w : W).
Context (fuel : nat).

Definition heard w : list byte := arrived (w_trace (d_base w)).

Definition same_heard w w' : Prop := heard w' = heard w.

#[export] Instance same_heard_preorder : PreOrder same_heard.
Proof. split; [done|]. unfold same_heard. intros w1 w2 w3 E1 E2. by rewrite E2, E1. Qed.

Abbreviation deaf := (along same_heard).

Definition quiet_base {A} (m : M (world Σ T) A) : Prop :=
  ∀ b, arrived (w_trace (m b).2) = arrived (w_trace b).

Lemma deaf_base {A} (m : M (world Σ T) A) : quiet_base m → deaf (base m).
Proof.
  intros Hm w. unfold same_heard, heard, base, zoom. specialize (Hm (d_base w)).
  by destruct (m (d_base w)).
Qed.

Lemma quiet_os_call {A} (f : Σ → A * Σ) : quiet_base (os_call f).
Proof. intros b. unfold os_call. by destruct (f (w_os b)). Qed.

Lemma quiet_log e : (∀ fd bs, e ≠ Received fd bs) → quiet_base (log e).
Proof.
  intros He b. simpl. rewrite arrived_app. destruct e; simpl; rewrite ?app_nil_r; try done.
  by destruct (He fd bs).
Qed.

Lemma quiet_on_slicer {A} (m : M T A) : quiet_base (on_slicer m).
Proof. intros b. unfold on_slicer, zoom. by destruct (m _). Qed.

Lemma quiet_slice {A} off n (l : list A) : quiet_base (read_slice off n l).
Proof. intros b. unfold read_slice. by destruct (in_range _ _ _). Qed.

Lemma quiet_write {A} off (src l : list A) : quiet_base (write_slice off src l).
Proof. intros b. unfold write_slice. by destruct (in_range _ _ _). Qed.

Lemma quiet_base_bind {A B} (m : M (world Σ T) A) (k : A → M _ B) :
  quiet_base m → (∀ a, quiet_base (k a)) → quiet_base (m ≫= k).
Proof.
  intros Hm Hk b. specialize (Hm b). unfold mbind, M_bind.
  destruct (m b) as [[a|e|h] b']; [|done..]. rewrite Hk. exact Hm.
Qed.

Lemma quiet_tcp_close fast : quiet_base (TcpSocket.close fast).
Proof.
  unfold TcpSocket.close. repeat first
    [ apply quiet_os_call | by apply quiet_log
    | apply quiet_base_bind; [|intros ?]
    | match goal with
      | |- quiet_base (if ?b then _ else _) => destruct b
      | |- quiet_base (match ?x with _ => _ end) => destruct x
      | |- quiet_base _ => intros ?; reflexivity
      end ].
Qed.
End deaf.

Ltac deaf_step :=
  first
  [ lazymatch goal with
    | |- along _ (_ ≫= _) => apply along_bind; [exact _|..|intros ?]
    | |- along _ (base _) => apply deaf_base;
        first [ apply quiet_os_call | by apply quiet_log | apply quiet_on_slicer | apply quiet_slice
              | apply quiet_write
              | apply quiet_tcp_close | intros ?; reflexivity ]
    | |- along _ (catch _ _) => apply along_catch; [exact _|..|intros ?]
    | |- along _ (finally _ _) => apply along_finally; [exact _|..]
    | |- along _ (if ?b then _ else _) => destruct b
    | |- along _ (match ?x with _ => _ end) => destruct x
    end
  | assumption
  | match goal with
    | H : ∀ _, along _ _ |- _ => apply H
    | H : ∀ _ _, along _ _ |- _ => apply H
    | H : ∀ _ _ _, along _ _ |- _ => apply H
    end
  | intros ?; reflexivity ].

Section feeding.
Context {Σ T C : Type} `{SysLaws Σ} `{Inet} `{MessageSlicer T} `{BotanLaws C}.
Abbreviation W := (derived Σ T (TlsSocket C)).
Implicit Types (w : W).
Context (fuel : nat).

Abbreviation deaf := (along (same_heard (Σ:=Σ) (T:=T) (C:=C))).

Lemma emit_deaf vclose n data sent : deaf (vclose false) → deaf (emit_loop vclose n data sent).
Proof.
  intros Hc. revert sent. induction n as [|n IH]; intros sent; simpl; repeat deaf_step.
Qed.

Lemma interp_deaf owned hdl (ok : callback → Prop) (r : run C) :
  calls_only ok r → (∀ cb, ok cb → deaf (hdl cb)) → deaf (interp owned hdl r).
Proof.
  intros Hr Hh. induction Hr as [c|e c|cb c k Hcb _ IH]; simpl; unfold when, channel, context.
  - repeat deaf_step.
  - repeat deaf_step.
  - pose proof (Hh cb Hcb). repeat deaf_step.
Qed.

Lemma on_channel_deaf hdl (ok : callback → Prop) call :
  (∀ c : C, calls_only ok (call c)) → (∀ cb, ok cb → deaf (hdl cb)) → deaf (on_channel hdl call).
Proof.
  intros Hr Hh. unfold on_channel, channel, context.
  pose proof (λ c, interp_deaf true hdl ok (call c) (Hr c) Hh). repeat deaf_step.
Qed.

Lemma close_deaf n fast : deaf (close fuel n fast).
Proof.
  revert fast. induction n as [|n IH]; intros fast; [repeat deaf_step|].
  assert (deaf (context_close (close fuel n) fuel)).
  { eapply on_channel_deaf; [apply close_emits|]. intros cb [data ->]. simpl.
    pose proof (emit_deaf _ fuel data 0 (IH false)). repeat deaf_step. }
  rewrite close_unfold. repeat deaf_step.
Qed.

Lemma handle_deaf n cb : deaf (handle (close fuel n) fuel true cb).
Proof.
  pose proof (close_deaf n) as Hc.
  pose proof (λ data, emit_deaf (close fuel n) fuel data 0 (Hc false)) as Hemit.
  assert (∀ k data pos, deaf (record_loop k data pos)) as Hrec.
  { intros k data. induction k as [|k IH]; intros pos; simpl; unfold slicer_buf, set_slicer_buf;
      repeat deaf_step. }
  destruct cb; simpl; unfold tls_emit_data, tls_record_received, tls_alert, tls_session_established,
    locked, lock, unlock, context; repeat deaf_step.
Qed.
End feeding.

(** * Pulling *)

Section pulling.
Context {Σ T C : Type} `{SysLaws Σ} `{Inet} `{MessageSlicer T} `{BotanLaws C} {inp : SecureInput C}.
Abbreviation W := (derived Σ T (TlsSocket C)).
Implicit Types (w : W) (F : list byte).
Context (fuel d : nat).

(** The library has been fed [F], and [bs] have arrived since. *)
Definition fed_up F bs w0 w : Prop :=
  input (d_own w) = Some F ∧ heard w = heard w0 ++ bs.

Lemma close_feeds_nothing n fast w F bs w0 :
  fed_up F bs w0 w → wp (close fuel n fast) w (λ _ w', fed_up F bs w0 w').
Proof.
  intros [Hi Hh]. split.
  - by apply (quiet_close fed close_feeds fuel n fast F w).
  - pose proof (close_deaf fuel n fast w) as Hd. unfold same_heard in Hd. by rewrite Hd.
Qed.

(** A chunk in the buffer, or nothing new. *)
Definition chunk_post F bs w0 (o : outcome bool) w : Prop :=
  match o with
  | Val true => ∃ chunk b, fed_up F (bs ++ chunk) w0 w ∧
      m_buffer (d_own w) = buf_fill chunk b ∧ 0 < Z.of_nat (length chunk) ≤ MAX_SIZE
  | _ => fed_up F bs w0 w
  end.

Lemma receive_chunk n F bs w0 w :
  fed_up F bs w0 w →
  wp (receive_data (close fuel n) (o ← own; mret (m_buffer o)) (λ b, set_own (put_buffer b))) w
    (chunk_post F bs w0).
Proof.
  intros Hf. unfold receive_data. tls_step. tls_step. tls_step. cbn [seq_post]. tls_step. tls_step.
  tls_step. cbn [seq_post]. tls_step. cbn [seq_post].
  destruct (negb _); [by tls_step|]. destruct (buf_is_valid _); [by tls_step|].
  tls_step. tls_step. cbn [seq_post]. tls_step. tls_step. apply wp_os_call. intros r σ Hr.
  cbn [seq_post]. destruct r as [[|x l]|e].
  - apply wp_bind. eapply wp_mono; [by apply (close_feeds_nothing n true _ F bs w0)|].
    intros [b|e|h] w1 Hw1; cbn [seq_post]; [by tls_step|exact Hw1..].
  - assert (Z.of_nat (length (x :: l)) ≤ MAX_SIZE) as Hlen.
    { eapply recv_bound; [|exact Hr]. unfold MAX_SIZE. lia. }
    tls_step. tls_step. tls_step. cbn [seq_post]. tls_step.
    apply wp_write_slice; [lia|rewrite length_zero_bytes; unfold MAX_SIZE in *; lia|].
    cbn [seq_post]. tls_step. tls_step. cbn [seq_post]. tls_step.
    destruct Hf as [Hi Hh]. exists (x :: l), (m_buffer (d_own w)).
    split; [split; [exact Hi|]|split; [done|simpl length in *; lia]].
    unfold heard in *. simpl. rewrite arrived_app. simpl. rewrite app_nil_r, Hh.
    by rewrite <- app_assoc.
  - destruct e; [by tls_step|..]; (apply wp_bind;
      eapply wp_mono; [by apply (close_feeds_nothing n true _ F bs w0)|];
      intros [b|e|h] w1 Hw1; cbn [seq_post]; [by tls_step|exact Hw1..]).
Qed.

(** The bytes of a filled buffer. *)
Lemma read_filled chunk b w (Q : outcome (list byte) → W → Prop) :
  0 < Z.of_nat (length chunk) ≤ MAX_SIZE → Q (Val chunk) w →
  wp (base (read_slice 0 (m_size (buf_fill chunk b)) (Buffer.m_data (buf_fill chunk b)))) w Q.
Proof.
  intros Hlen HQ. destruct (buf_fill_wf chunk b Hlen) as (Hwf & Hv & Hrest).
  pose proof (buf_valid_pos _ Hwf Hv) as [Hsz _]. destruct Hwf as [Hd _].
  tls_step. apply wp_read_slice; [lia..|].
  change (slice (Z.to_nat 0) (Z.to_nat (m_size (buf_fill chunk b) - 0))
    (Buffer.m_data (buf_fill chunk b)) = chunk) in Hrest.
  rewrite Z.sub_0_r in Hrest. rewrite Hrest. by destruct w.
Qed.

(** Feeding what is in the buffer. *)
Lemma process_chunk n F bs chunk b w0 w :
  0 < Z.of_nat (length chunk) ≤ MAX_SIZE → fed_up F (bs ++ chunk) w0 w →
  wp (tls_process_data (close fuel n) fuel (buf_fill chunk b)) w (λ o w',
    fed_up (match o with Val _ => F ++ chunk | _ => F end) (bs ++ chunk) w0 w').
Proof.
  intros Hlen [Hi Hh]. unfold tls_process_data.
  apply observed_channel in Hi as Hch. destruct Hch as (x & c & Hx & Hc & _).
  apply wp_bind. eapply wp_context; [done|]. cbn [seq_post]. rewrite Hc.
  apply wp_bind. apply read_filled; [done|]. cbn [seq_post]. unfold fed_up.
  assert (wp (on_channel (handle (close fuel n) fuel true) (ch_received_data chunk)) w
    (λ o w', input (d_own w') = Some (match o with Val _ => F ++ chunk | _ => F end))) as Hw.
  { apply (on_channel_accepts fed (λ _, True)); [intros; apply calls_any| | |done].
    - intros c' <-. apply received_feeds.
    - intros cb _. apply handle_quiet, close_feeds. }
  assert (along same_heard (on_channel (handle (close fuel n) fuel true) (ch_received_data chunk)))
    as Hd.
  { apply (on_channel_deaf _ (λ _, True)); [intros; apply calls_any|].
    intros cb _. apply handle_deaf. }
  specialize (Hd w). unfold same_heard in Hd. unfold wp in *. by rewrite Hd.
Qed.

(** [pull_messages] of a TLS socket gives every byte that the descriptor
    delivers to the library, once and in order, whatever the library does with it
    and however it writes to or closes the socket in its callbacks: when it returns,
    everything that has arrived has been fed; when it throws, or waits for the
    network, all but the last chunk at most. *)
Theorem tls_pull_feeds F w :
  input (d_own w) = Some F →
  wp (pull_messages fuel (S d)) w (λ o w', ∃ bs, heard w' = heard w ++ bs ∧
    match o with
    | Val _ => input (d_own w') = Some (F ++ bs)
    | _ => ∃ before last, bs = before ++ last ∧ Z.of_nat (length last) ≤ MAX_SIZE ∧
        input (d_own w') = Some (F ++ before)
    end).
Proof.
  intros Hw. unfold pull_messages.
  apply wp_iter_partial with (I := λ w', ∃ bs, fed_up (F ++ bs) bs w w').
  - intros w' (bs & Hi & Hh). exists bs. split; [done|]. exists bs, []. by rewrite app_nil_r.
  - intros w1 (bs & Hf). unfold pull_step. apply wp_bind.
    eapply wp_mono; [by apply receive_chunk|].
    intros [[|]|e|h] w2; cbn [seq_post negb].
    + intros (chunk & b & Hf2 & Hb & Hlen). tls_step. tls_step. cbn [seq_post]. rewrite Hb.
      apply wp_bind. eapply wp_mono; [by apply process_chunk|].
      intros [[]|e|h] w3 [Hi3 Hh3]; cbn [seq_post].
      * tls_step. tls_step. cbn [seq_post]. tls_step. exists (bs ++ chunk). split; [|done].
        rewrite app_assoc. exact Hi3.
      * exists (bs ++ chunk). split; [done|]. exists bs, chunk. split; [done|]. by split; [lia|].
      * exists (bs ++ chunk). split; [done|]. exists bs, chunk. split; [done|]. by split; [lia|].
    + intros [Hi2 Hh2]. tls_step. exists bs. by split.
    + intros [Hi2 Hh2]. exists bs. split; [done|]. exists bs, []. by rewrite app_nil_r.
    + intros [Hi2 Hh2]. exists bs. split; [done|]. exists bs, []. by rewrite app_nil_r.
  - exists []. split; [by rewrite app_nil_r|by rewrite app_nil_r].
Qed.
End pulling.
