(* ===== verification/TlsRecords.v ===== *)
(** Messages over TLS: what [TlsContext::send] gives the library, what
    [tls_record_received] makes of the records, and both together. *)
From S2P Require Import Prelude Machine Buffer Framing Slicer Stream Datagram Inet Sys TcpSocket.
From S2P Require Import TcpBase TcpSend TcpRecv TcpLife EndToEnd Inherited Tls TlsBase TlsLife TlsProps.
Local Open Scope Z_scope.

(** * Pieces of a framed message *)

(** A proper beginning of a frame completes nothing; the whole frame completes the
    message. *)
Lemma parse_beginning p a b :
  sendable p → encode p = a ++ b →
  (parse (InHeader []) a).2 = (if decide (b = []) then [p] else []) ∧
  parse (parse (InHeader []) a).1 b = (InHeader [], if decide (b = []) then [] else [p]).
Proof.
  intros Hp He. pose proof (parse_encode_one p Hp) as Hone. rewrite He, parse_app in Hone.
  pose proof (f_equal length He) as Hlen. rewrite length_app in Hlen.
  pose proof (length_encode p) as Hle.
  destruct (parse (parse (InHeader []) a).1 b) as [v2 out2] eqn:E2. simpl in Hone.
  pose proof (parse_cost (InHeader []) a) as [_ Hc1].
  pose proof (parse_cost (parse (InHeader []) a).1 b) as [_ Hc2]. rewrite E2 in Hc2. simpl in Hc2.
  destruct (decide (b = [])) as [->|Hb].
  - simpl in E2. injection E2 as <- <-. rewrite app_nil_r in Hone. by injection Hone as -> ->.
  - apply length_pos in Hb. destruct (parse (InHeader []) a) as [v1 out1]. simpl in *.
    destruct out1 as [|x out1]; [by injection Hone as -> ->|].
    injection Hone as -> -> [-> ->]%app_eq_nil. simpl in *. pose proof (parse_cost v1 []). simpl in *. lia.
Qed.

Lemma parse_message p rest :
  sendable p → parse (InHeader []) (encode p ++ rest) =
    ((parse (InHeader []) rest).1, p :: (parse (InHeader []) rest).2).
Proof. intros Hp. by rewrite parse_app, (parse_encode_one p Hp). Qed.

(** The parser is not back at the start before the first message is complete. *)
Lemma parse_nothing p used left rest :
  sendable p → parse (InHeader []) used = (InHeader [], []) → used ++ left = encode p ++ rest →
  used = [].
Proof.
  intros Hp Hpu He. apply app_eq_app in He as [l [[-> ->]|[He ->]]].
  - by rewrite parse_message in Hpu.
  - destruct (parse_beginning p _ _ Hp He) as [_ Hrest]. rewrite Hpu in Hrest. simpl in Hrest.
    pose proof (parse_cost (InHeader []) l) as [_ Hcost]. rewrite Hrest in Hcost. simpl in Hcost.
    destruct (decide (l = [])) as [->|Hl].
    { rewrite app_nil_r in He. subst used. rewrite (parse_encode_one p Hp) in Hpu. done. }
    simpl in Hcost. pose proof (length_encode p). apply (f_equal length) in He.
    rewrite length_app in He. apply length_zero_iff_nil. lia.
Qed.

(** [process_buffer] on bytes that lie within one message. *)
Lemma process_piece p a c b d :
  sendable p → encode p = a ++ c ++ b → c ≠ [] →
  datagram_wf d → buf_is_valid (Datagram.m_buffer d) = true → unread (Datagram.m_buffer d) = c →
  datagram_view d = (parse (InHeader []) a).1 →
  wp process_buffer d (λ o d', o = Val tt ∧ datagram_wf d' ∧
    buf_is_valid (Datagram.m_buffer d') = false ∧
    datagram_view d' = (parse (InHeader []) (a ++ c)).1 ∧
    datagram_delivered d' = datagram_delivered d ++ (if decide (b = []) then [p] else [])).
Proof.
  intros Hp He Hc Hwf Hv Hun Hview.
  eapply wp_mono; [by apply datagram_process_buffer_spec|]. rewrite Hview, Hun.
  intros o d' (Ho & Hwf' & Hprog & out & used & Hdel & _ & Hused & Hpu & Hval & Hexn).
  set (left := unread (Datagram.m_buffer d')) in *.
  destruct (parse_beginning p a (c ++ b) Hp He) as [Ha _].
  rewrite decide_False in Ha by (intros [? _]%app_eq_nil; done).
  assert (encode p = (a ++ used) ++ (left ++ b)) as He' by (by rewrite He, Hused, <- !app_assoc).
  destruct (parse_beginning p _ _ Hp He') as [Hau Hrest].
  assert (parse (InHeader []) (a ++ used) = (datagram_view d', out)) as Hpau.
  { rewrite parse_app, Ha, Hpu. done. }
  rewrite Hpau in Hau, Hrest. simpl in Hau, Hrest.
  assert (used ≠ []) as Hune.
  { intros ->. simpl in Hused. destruct Hprog as [Hlt|Hinv]; [rewrite Hused in Hlt; lia|].
    apply Hc. rewrite Hused. unfold left. by apply unread_invalid. }
  apply length_pos in Hune.
  assert (o = Val tt) as ->.
  { destruct Ho as [->|[-> Hv']]; [done|exfalso]. specialize (Hexn ltac:(done)). subst out.
    rewrite Hv' in Hrest. destruct (decide (left ++ b = [])); [done|].
    pose proof (parse_cost (InHeader []) (left ++ b)) as [_ Hcost]. rewrite Hrest in Hcost.
    simpl in Hcost. pose proof (length_encode p). apply (f_equal length) in He'.
    rewrite !length_app in He'. rewrite !length_app in Hcost. lia. }
  assert (buf_is_valid (Datagram.m_buffer d') = false) as Hinv.
  { destruct (buf_is_valid (Datagram.m_buffer d')) eqn:E; [exfalso|done].
    destruct (Hval eq_refl eq_refl) as [Hl Ho']. fold left in Hl.
    rewrite decide_False in Hau; [done|]. by intros [? _]%app_eq_nil. }
  assert (left = []) as Hl by (by apply unread_invalid).
  rewrite Hl, app_nil_r in Hused. rewrite Hl in Hau. subst used.
  split; [done|]. split; [done|]. split; [done|]. rewrite Hpau, Hdel. simpl in *. by rewrite Hau.
Qed.

(** A size field without room for a payload: [process_buffer] throws and leaves the
    buffer valid. *)
Lemma process_bad_size hdr more d :
  length hdr = 4%nat → le_value hdr ≤ HEADER_SIZE →
  datagram_wf d → buf_is_valid (Datagram.m_buffer d) = true →
  unread (Datagram.m_buffer d) = hdr ++ more → datagram_view d = InHeader [] →
  wp process_buffer d (λ o d', o = Exn (runtime_error "Not a valid message") ∧
    buf_is_valid (Datagram.m_buffer d') = true ∧ datagram_delivered d' = datagram_delivered d).
Proof.
  intros Hlen Hsz Hwfd Hv Hun Hview. pose proof Hwfd as (Hwf & _). rewrite unread_valid in Hun by done.
  unfold process_buffer. apply wp_bind. eapply wp_mono; [by apply take_current_spec|].
  intros ? d0 (msg & -> & Hm & Hmv & Hhas & Hb & Hmsgs). cbn [seq_post]. rewrite Hview in Hmv.
  assert (Msg.read_pos msg = 0) as Hrp.
  { unfold msg_view in Hmv. destruct (Z.ltb_spec (Msg.read_pos msg) HEADER_SIZE); [|done].
    injection Hmv as Hmv%(f_equal length). rewrite length_take, length_le_bytes in Hmv.
    change (length []) with 0%nat in Hmv.
    destruct Hm as [[[? _] _]|[? _]]; unfold HEADER_SIZE in *; lia. }
  rewrite Hrp. cbn [Z.ltb Z.compare HEADER_SIZE]. rewrite <- Hb in *. apply wp_bind.
  eapply wp_mono; [apply read_header_spec; [done|by rewrite Hrp|done|done]|].
  unfold header_post. rewrite Hrp, Hun, length_app, Hlen. rewrite Z.min_l by (unfold HEADER_SIZE; lia).
  change (Z.to_nat (HEADER_SIZE - 0)) with 4%nat. rewrite take_app_length' by done.
  intros [msg'|e|h] d1 [-> Ho]; cbn [seq_post]; [exfalso|destruct Ho as (-> & _ & _)|done].
  - destruct Ho as (_ & Hrp' & Hparse). rewrite Hmv in Hparse. unfold HEADER_SIZE in Hrp'.
    rewrite parse_header_full in Hparse by (simpl; unfold HEADER_SIZE; lia). simpl in Hparse.
    rewrite (proj2 (Z.leb_le _ _)) in Hparse by done.
    rewrite msg_view_body in Hparse by (unfold HEADER_SIZE; lia). done.
  - split; [done|]. split; [|unfold datagram_delivered; simpl; by rewrite Hmsgs].
    apply buf_advance; [done..|]. rewrite Hun, length_app, Hlen. unfold HEADER_SIZE. lia.
Qed.

(** * Records *)

Section records.
Context {Σ C : Type} `{SysLaws Σ} `{Inet} `{Botan C}.
Abbreviation W := (derived Σ DatagramMessageSlicer (TlsSocket C)).
Implicit Types (w : W).

Definition slicer_of w : DatagramMessageSlicer := m_slicer (w_sock (d_base w)).

(** The slicer between two records: its buffer is free, it has parsed up to [st] and
    holds the messages [ps]. *)
Definition parsed (st : pstate) (ps : list (list byte)) w : Prop :=
  datagram_wf (slicer_of w) ∧ buf_is_valid (Datagram.m_buffer (slicer_of w)) = false ∧
  datagram_view (slicer_of w) = st ∧ datagram_delivered (slicer_of w) = ps.

(** Copying the next bytes of a record into the buffer. *)
Definition loaded (bytes : list byte) w w' : Prop :=
  d_own w' = d_own w ∧ datagram_wf (slicer_of w') ∧
  buf_is_valid (Datagram.m_buffer (slicer_of w')) = true ∧
  unread (Datagram.m_buffer (slicer_of w')) = bytes ∧
  datagram_view (slicer_of w') = datagram_view (slicer_of w) ∧
  datagram_delivered (slicer_of w') = datagram_delivered (slicer_of w).

(** One iteration of the loop up to [process_buffer]. *)
Lemma record_loop_step n data pos w Q :
  0 ≤ pos < Z.of_nat (length data) → datagram_wf (slicer_of w) →
  buf_is_valid (Datagram.m_buffer (slicer_of w)) = false →
  (∀ k w1, k = Z.min MAX_SIZE (Z.of_nat (length data) - pos) →
   loaded (take (Z.to_nat k) (drop (Z.to_nat pos) data)) w w1 →
   wp (base (on_slicer slicer_process_buffer);; record_loop n data (pos + k)) w1 Q) →
  wp (record_loop (S n) data pos) w Q.
Proof.
  intros Hpos Hwf Hv Hk. simpl. rewrite (proj2 (Z.ltb_lt pos (Z.of_nat (length data)))) by lia.
  cbn [negb]. tls_step. tls_step. cbn [seq_post]. simpl. fold (slicer_of w). rewrite Hv.
  set (k := Z.min _ _) in *. assert (0 < k ≤ MAX_SIZE) as Hk0 by (unfold k, MAX_SIZE; lia).
  tls_step. tls_step. apply wp_read_slice; [lia..|]. cbn [seq_post].
  set (bytes := slice _ _ data). pose proof (proj1 (proj1 Hwf)) as Hlen.
  assert (Z.of_nat (length bytes) = k) as Hb.
  { unfold bytes. rewrite length_slice by lia. lia. }
  tls_step. tls_step. apply wp_write_slice; [lia..|]. cbn [seq_post]. tls_step. tls_step.
  cbn [seq_post]. apply Hk; [done|]. unfold loaded, slicer_of. simpl. fold (slicer_of w).
  destruct (buf_load_wf bytes (Buffer.m_data (Datagram.m_buffer (slicer_of w)))
    (Datagram.m_buffer (slicer_of w))) as (Hwf' & Hv' & Hr'); [lia|done|]. rewrite Hb in *.
  change (Z.to_nat 0) with 0%nat. split; [done|]. split; [split; [done|apply Hwf]|].
  split; [done|]. split; [|done]. unfold unread. rewrite Hv'. exact Hr'.
Qed.

(** A record, whatever its size, that lies within one message. *)
Lemma record_piece n p a r b pos w :
  sendable p → encode p = a ++ r ++ b → 0 ≤ pos ≤ Z.of_nat (length r) →
  (Z.to_nat (Z.of_nat (length r) - pos) < n)%nat →
  parsed (parse (InHeader []) (a ++ take (Z.to_nat pos) r)).1 (datagram_delivered (slicer_of w)) w →
  wp (record_loop n r pos) w (λ o w', o = Val tt ∧ d_own w' = d_own w ∧
    parsed (parse (InHeader []) (a ++ r)).1
      (datagram_delivered (slicer_of w) ++
         if decide (pos = Z.of_nat (length r)) then [] else if decide (b = []) then [p] else []) w').
Proof.
  intros Hp He. revert pos w. induction n as [|n IH]; intros pos w Hpos Hn Hw; [lia|].
  destruct (decide (pos = Z.of_nat (length r))) as [->|Hne].
  { simpl. rewrite Z.ltb_irrefl. simpl. tls_step. split; [done|]. split; [done|].
    rewrite app_nil_r. by rewrite take_ge in Hw by lia. }
  destruct Hw as (Hwf & Hv & Hview & _). apply record_loop_step; [lia|done|done|].
  set (k := Z.min _ _). assert (0 < k ∧ k ≤ MAX_SIZE ∧ pos + k ≤ Z.of_nat (length r)) as (Hk0&Hk&Hkr).
  { unfold k, MAX_SIZE. lia. }
  set (c := take (Z.to_nat k) (drop (Z.to_nat pos) r)).
  assert (r = take (Z.to_nat pos) r ++ c ++ drop (Z.to_nat (pos + k)) r) as Hr.
  { unfold c. replace (Z.to_nat (pos + k)) with (Z.to_nat pos + Z.to_nat k)%nat by lia.
    rewrite <- drop_drop, take_drop, take_drop. done. }
  assert (take (Z.to_nat (pos + k)) r = take (Z.to_nat pos) r ++ c) as Htk.
  { unfold c. rewrite take_take_drop. f_equal. lia. }
  assert (c ≠ []) as Hc.
  { apply length_pos. unfold c. rewrite length_take, length_drop. lia. }
  intros ? w1 -> (Hown1 & Hwf1 & Hv1 & Hu1 & Hview1 & Hdel1).
  apply wp_bind. tls_step. tls_step.
  eapply wp_mono.
  { apply (process_piece p (a ++ take (Z.to_nat pos) r) c (drop (Z.to_nat (pos + k)) r ++ b));
      try done.
    - rewrite He. rewrite Hr at 1. by rewrite <- !app_assoc.
    - etransitivity; [exact Hview1|exact Hview]. }
  intros o t (-> & Hwft & Hvt & Hviewt & Hdelt). cbn [seq_post].
  match goal with |- wp _ ?w' _ => set (w2 := w') end.
  assert (datagram_delivered (slicer_of w2) = datagram_delivered (slicer_of w) ++
    (if decide (drop (Z.to_nat (pos + k)) r ++ b = []) then [p] else [])) as Hdel2.
  { unfold w2, slicer_of. simpl. rewrite Hdelt. unfold slicer_of in Hdel1. by rewrite Hdel1. }
  eapply wp_mono; [apply IH; [lia|lia|]|].
  - unfold parsed. rewrite Htk, app_assoc. by split_and!.
  - rewrite Hdel2. intros o w' (-> & Hown & Hpar). split; [done|]. split; [by rewrite Hown|].
    revert Hpar. rewrite <- app_assoc. destruct (decide (pos + k = _)) as [Hend|Hend].
    + rewrite app_nil_r. rewrite drop_ge by lia. simpl. done.
    + rewrite (decide_False (P := _ ++ b = [])); [done|].
      intros [Hd _]%app_eq_nil. apply (f_equal length) in Hd. rewrite length_drop in Hd. simpl in Hd. lia.
Qed.

(** ** Sequences of records *)

(** A record within one message, of which [a] has been received. *)
Lemma record_within p a r b ds w :
  sendable p → encode p = a ++ r ++ b → ready w →
  parsed (parse (InHeader []) a).1 (ds ++ (parse (InHeader []) a).2) w →
  wp (tls_record_received true r) w (λ o w', o = Val tt ∧ d_own w' = d_own w ∧
    parsed (parse (InHeader []) (a ++ r)).1 (ds ++ (parse (InHeader []) (a ++ r)).2) w').
Proof.
  intros Hp He (x & Hx & Hm) Hw. pose proof Hw as (_ & _ & _ & Hdel).
  unfold tls_record_received. eapply wp_context_locked; [done..|]. eapply wp_mono.
  { apply (record_piece _ p a r b); [done|done|lia|lia|]. change (slicer_of _) with (slicer_of w).
    simpl. rewrite app_nil_r. by rewrite Hdel. }
  intros o w' (-> & Hown & Hpar). rewrite (relocked w w' x) by done. split; [done|]. split; [done|].
  replace (ds ++ (parse (InHeader []) (a ++ r)).2) with
    (datagram_delivered (slicer_of (with_context true (put_mutex true) w)) ++
     (if decide (0 = Z.of_nat (length r)) then [] else if decide (b = []) then [p] else [])); [done|].
  change (slicer_of (with_context true (put_mutex true) w)) with (slicer_of w). rewrite Hdel.
  rewrite app_assoc in He. destruct (parse_beginning p (a ++ r) b Hp He) as [-> _].
  case_decide as Hr.
  - assert (r = []) as -> by (by apply length_zero_iff_nil; lia). rewrite app_nil_r in *.
    destruct (parse_beginning p a b Hp He) as [-> _]. done.
  - rewrite <- app_assoc in He. destruct (parse_beginning p a (r ++ b) Hp He) as [-> _].
    rewrite decide_False; [by rewrite app_nil_r|]. intros [-> _]%app_eq_nil. by apply Hr.
Qed.

(** The library reports the records [rs], one after another. *)
Fixpoint receive_records (rs : list (list byte)) : M W unit :=
  match rs with
  | [] => mret tt
  | r :: rs' => tls_record_received true r;; receive_records rs'
  end.

Lemma receive_records_app rs1 rs2 w (Q : outcome unit → W → Prop) :
  wp (receive_records rs1) w (seq_post (λ _, receive_records rs2) Q) →
  wp (receive_records (rs1 ++ rs2)) w Q.
Proof.
  revert w. induction rs1 as [|r rs1 IH]; intros w Hw; simpl; [exact Hw|].
  apply wp_bind. simpl in Hw. apply wp_bind_inv in Hw. eapply wp_mono; [exact Hw|].
  intros [[]|e|h] w' Hw'; cbn [seq_post] in *; [by apply IH|done..].
Qed.

(** The records of one message, or of a beginning of it. *)
Lemma message_records p a rs b ds w :
  sendable p → encode p = a ++ concat rs ++ b → ready w →
  parsed (parse (InHeader []) a).1 (ds ++ (parse (InHeader []) a).2) w →
  wp (receive_records rs) w (λ o w', o = Val tt ∧ d_own w' = d_own w ∧
    parsed (parse (InHeader []) (a ++ concat rs)).1
      (ds ++ (parse (InHeader []) (a ++ concat rs)).2) w').
Proof.
  intros Hp. revert a w. induction rs as [|r rs IH]; intros a w He Hr Hw; simpl in *.
  { tls_step. by rewrite app_nil_r. }
  rewrite <- app_assoc in He. apply wp_bind. eapply wp_mono.
  { eapply record_within; [done|exact He|exact Hr|exact Hw]. }
  intros o w1 (-> & Hown & Hpar). cbn [seq_post]. rewrite app_assoc. eapply wp_mono.
  - apply (IH (a ++ r)); [by rewrite He, <- !app_assoc| |exact Hpar]. unfold ready. by rewrite Hown.
  - intros o w' (-> & Hown' & Hpar'). by rewrite Hown'.
Qed.

(** ** Records the receiver cannot take *)

(** Bytes left over in the buffer of the slicer. *)
Definition stuck w : Prop := buf_is_valid (Datagram.m_buffer (slicer_of w)) = true.

(** From then on nothing is received: every record is refused and changes nothing. *)
Definition wedged w : Prop :=
  ∀ r, r ≠ [] → tls_record_received true r w = (Exn (runtime_error "Invalid state"), w).

Lemma stuck_wedged w : ready w → stuck w → wedged w.
Proof.
  intros (x & Hx & Hm) Hst r Hr. apply length_pos in Hr.
  assert (wp (tls_record_received true r) w
    (λ o w', (o, w') = (Exn (runtime_error "Invalid state"), w))) as Hw.
  { unfold tls_record_received. eapply wp_context_locked; [done..|]. cbn [record_loop].
    rewrite (proj2 (Z.ltb_lt 0 (Z.of_nat (length r)))) by lia. cbn [negb].
    tls_step. tls_step. cbn [seq_post]. simpl. fold (slicer_of w). unfold stuck in Hst.
    rewrite Hst. tls_step. rewrite (relocked w _ x) by done. by destruct w. }
  unfold wp in Hw. by destruct (tls_record_received true r w).
Qed.

(** One record that fits the buffer, up to the call of [process_buffer]. *)
Lemma short_record r w Q :
  0 < Z.of_nat (length r) ≤ MAX_SIZE → ready w → datagram_wf (slicer_of w) →
  buf_is_valid (Datagram.m_buffer (slicer_of w)) = false →
  (∀ t, datagram_wf t → buf_is_valid (Datagram.m_buffer t) = true →
   unread (Datagram.m_buffer t) = r → datagram_view t = datagram_view (slicer_of w) →
   datagram_delivered t = datagram_delivered (slicer_of w) →
   wp process_buffer t (λ o t', ∀ w', d_own w' = d_own w → slicer_of w' = t' →
     match o with Halt _ => False | _ => Q o w' end)) →
  wp (tls_record_received true r) w Q.
Proof.
  intros Hlen (x & Hx & Hm) Hwf Hv Hproc. unfold tls_record_received.
  eapply wp_context_locked; [done..|]. apply record_loop_step; [lia|done|done|].
  intros k w1 -> (Hown1 & Hwf1 & Hv1 & Hu1 & Hview1 & Hdel1).
  rewrite Z.sub_0_r, Z.min_r by lia. rewrite Z.min_r, drop_0, take_ge in Hu1 by lia.
  apply wp_bind. tls_step. tls_step. eapply wp_mono; [by apply Hproc|].
  intros o t Hend.
  assert (∀ b, slicer_of (mkDerived b (d_own w1)) = t →
    match o with Halt _ => False | _ => Q o (mkDerived b (d_own w)) end) as Hend'.
  { intros b Hb. by apply Hend. }
  destruct o as [[]|e|h]; cbn [seq_post].
  - destruct (length r) as [|n] eqn:Hr; [lia|]. cbn [record_loop]. rewrite Hr, Z.ltb_irrefl.
    cbn [negb]. tls_step. rewrite (relocked w _ x) by done. by apply Hend'.
  - rewrite (relocked w _ x) by done. by apply Hend'.
  - match goal with |- context [with_base ?b _] => by destruct (Hend' b) end.
Qed.

(** A record with the end of one message and another message in it (which this
    sender does not produce, but TLS allows) breaks the receiver: the first message
    is queued, the rest stays in the buffer, since [process_buffer] is called only
    once, and every record after it is refused with a [runtime_error]: no message
    arrives any more. *)
Theorem second_message_in_record_wedges p q more ds w :
  sendable p → sendable q →
  Z.of_nat (length (encode p ++ encode q ++ more)) ≤ MAX_SIZE →
  ready w → parsed (InHeader []) ds w →
  wp (tls_record_received true (encode p ++ encode q ++ more)) w (λ o w', o = Val tt ∧
    datagram_delivered (slicer_of w') = ds ++ [p] ∧ wedged w').
Proof.
  intros Hp Hq Hlen Hr (Hwf & Hv & Hview & Hdel). rewrite <- Hdel.
  apply short_record; [|done..|].
  { split; [|done]. pose proof (length_encode p). rewrite length_app. unfold HEADER_SIZE in *. lia. }
  intros t Hwft Hvt Hut Hviewt Hdelt. rewrite Hview in Hviewt.
  eapply wp_mono; [by apply datagram_process_buffer_spec|]. rewrite Hviewt, Hut.
  intros o t' (Ho & Hwf' & Hprog & out & used & Hdel' & Hone & Hused & Hpu & Hval & Hexn) w' Hown Ht'.
  pose proof (used_parse _ _ _ _ _ _ Hused Hpu) as Hall.
  rewrite !parse_message in Hall by done. injection Hall as _ Hout.
  assert (buf_is_valid (Datagram.m_buffer t') = true ∨ o ≠ Val tt) as Hleft.
  { destruct (buf_is_valid (Datagram.m_buffer t')) eqn:E; [by left|].
    rewrite (unread_invalid _ E) in Hout. simpl in Hout. rewrite app_nil_r in Hout. subst out.
    simpl in Hone. lia. }
  assert (o = Val tt) as ->.
  { destruct Ho as [->|[-> Hv']]; [done|exfalso]. specialize (Hexn ltac:(done)). subst out.
    rewrite Hv' in Hpu. symmetry in Hused.
    rewrite (parse_nothing p _ _ _ Hp Hpu Hused), app_nil_l in Hused. rewrite Hused in Hprog.
    destruct Hprog as [Hlt|Hinv]; [lia|]. apply unread_invalid in Hinv. rewrite Hinv in Hused.
    pose proof (length_encode p). apply (f_equal length) in Hused. rewrite length_app in Hused.
    unfold HEADER_SIZE in *. rewrite length_nil in Hused. lia. }
  destruct Hleft as [Hvalid|?]; [|done]. destruct (Hval eq_refl Hvalid) as [Hl Hne].
  assert (out = [p]) as ->.
  { destruct out as [|y [|z out]]; [done| |simpl in Hone; lia]. by injection Hout as ->. }
  split; [done|]. split; [by rewrite Ht', Hdel', Hdelt|].
  apply stuck_wedged; [unfold ready; by rewrite Hown|unfold stuck; by rewrite Ht'].
Qed.

(** A record that begins a message with a size field of at most four, such as
    [TlsContext::send] makes of an empty message, is refused with a [runtime_error]
    and delivers nothing; the rest of the record (the size itself, when nothing
    follows) stays in the buffer, and every record after it is refused. *)
Theorem empty_message_wedges hdr more ds w :
  length hdr = 4%nat → le_value hdr ≤ HEADER_SIZE →
  Z.of_nat (length (hdr ++ more)) ≤ MAX_SIZE → ready w → parsed (InHeader []) ds w →
  wp (tls_record_received true (hdr ++ more)) w (λ o w',
    o = Exn (runtime_error "Not a valid message") ∧
    datagram_delivered (slicer_of w') = ds ∧ wedged w').
Proof.
  intros Hlen Hsz Hmax Hr (Hwf & Hv & Hview & Hdel). rewrite <- Hdel.
  apply short_record; [|done..|].
  { split; [|done]. rewrite length_app. lia. }
  intros t Hwft Hvt Hut Hviewt Hdelt. rewrite Hview in Hviewt.
  eapply wp_mono; [by eapply process_bad_size|].
  intros o t' (-> & Hval & Hdel') w' Hown Ht'. split; [done|].
  split; [by rewrite Ht', Hdel', Hdelt|].
  apply stuck_wedged; [unfold ready; by rewrite Hown|unfold stuck; by rewrite Ht'].
Qed.
End records.
