(* ===== verification/TlsEndToEnd.v ===== *)
(** A message from the sending to the receiving TLS socket: what [TlsContext::send]
    hands to the library, and what the peer makes of it. *)
From S2P Require Import Prelude Machine Buffer Framing Slicer Stream Datagram Inet Sys TcpSocket.
From S2P Require Import TcpBase TcpSend TcpRecv TcpLife EndToEnd Inherited Tls TlsBase TlsLife TlsProps.
From S2P Require Import TlsChannel TlsRecords.
Local Open Scope Z_scope.

(** * What a channel has taken *)

(** The pieces of plaintext whose [send] has returned, in order. *)
Class SecurePipe (C : Type) `{Botan C} := {
  accepted : C → list (list byte);
  send_accepts bs c : accepts accepted (accepted c) (accepted c ++ [bs]) (ch_send bs c);
  close_accepts c : accepts accepted (accepted c) (accepted c) (ch_close c);
}.

(** What the channel of a socket has taken. *)
Abbreviation history := (observed accepted).

#[local] Arguments close : simpl never.

Section sending.
Context {Σ T C : Type} `{Sys Σ} `{Inet} `{MessageSlicer T} `{BotanLaws C} {pipe : SecurePipe C}.
Abbreviation W := (derived Σ T (TlsSocket C)).
Implicit Types (w : W).
Context (fuel d : nat).

Lemma channel_send_accepts n bs h w :
  history (d_own w) = Some h →
  wp (on_channel (handle (close fuel n) fuel true) (ch_send bs)) w (λ o w',
    history (d_own w') = Some (match o with Val _ => h ++ [bs] | _ => h end)).
Proof.
  intros Hw. apply (on_channel_accepts accepted emits);
    [apply send_emits|by intros c <-; apply send_accepts| |done].
  intros cb _. apply handle_quiet, close_accepts.
Qed.

(** The two pieces of a message. *)
Definition pieces (p : list byte) : list (list byte) :=
  [le_bytes 4 (Z.of_nat (length p) + HEADER_SIZE); p].

Lemma pieces_encode p : concat (pieces p) = encode p.
Proof. unfold pieces, encode. simpl. by rewrite app_nil_r. Qed.

Definition sent_whole (h : list (list byte)) (p : list byte) w : Prop :=
  history (d_own w) = Some (h ++ pieces p).

(** No message, or only its header. *)
Definition sent_part (h : list (list byte)) (p : list byte) w : Prop :=
  history (d_own w) = Some h ∨ history (d_own w) = Some (h ++ take 1 (pieces p)).

Lemma context_send_accepts n data len h w :
  0 ≤ len ≤ Z.of_nat (length data) → len + HEADER_SIZE < two32 →
  ready w → history (d_own w) = Some h →
  wp (context_send (close fuel n) fuel data len) w (λ o w',
    match o with Val _ => sent_whole h (take (Z.to_nat len) data) w' ∧ ready w'
    | _ => sent_part h (take (Z.to_nat len) data) w' end).
Proof.
  intros Hlen H32 (x & Hx & Hm) Hw. unfold context_send, sent_whole, sent_part.
  set (p := take _ _). assert (Z.of_nat (length p) = len) as Hp by (unfold p; rewrite length_take; lia).
  unfold pieces. rewrite Hp. unfold HEADER_SIZE in *. eapply wp_context_locked; [done..|].
  apply wp_bind. eapply wp_mono; [apply (channel_send_accepts n _ h); by rewrite observed_context by done|].
  unfold two32 in H32. rewrite u32_small by lia.
  intros [[]|e|hh] w1 Hw1; cbn [seq_post]; [|by left; rewrite ?observed_context by done..].
  tls_step. tls_step. apply wp_read_slice; [lia..|]. cbn [seq_post].
  eapply wp_mono; [by eapply channel_send_accepts|].
  change (slice (Z.to_nat 0) (Z.to_nat len) data) with (take (Z.to_nat len) (drop 0 data)).
  rewrite drop_0. fold p.
  intros [[]|e|hh] w2 Hw2; rewrite ?observed_context by done.
  - split; [by rewrite Hw2, <- app_assoc|by eapply unlocked_ready].
  - by right.
  - by right.
Qed.

(** The header alone, or nothing: what a [send] that fails leaves behind. *)
Lemma sent_part_close n h p :
  moves (Σ:=Σ) (T:=T) (C:=C) (λ o, history o = Some h ∨ history o = Some (h ++ take 1 (pieces p)))
    impl (close fuel n false).
Proof.
  intros w. unfold moved, impl.
  intros [Hw|Hw]; [left|right]; by apply (quiet_close accepted close_accepts fuel n false _ w).
Qed.

(** C27: what an asynchronous [send] of the first [len] bytes of an array hands to the
    library, whatever the library, the peer and the system do: when it returns
    [true], two pieces, which are together byte for byte what the slicer's
    [prepare_message] would have put on a plain TCP connection; otherwise not the
    message, and at most the header. A socket that is not connected is left as it
    was, and the message is dropped. *)
Theorem tls_send_frames data len h (t : DatagramMessageSlicer) w :
  0 ≤ len ≤ Z.of_nat (length data) → len + HEADER_SIZE < two32 →
  ready w → history (d_own w) = Some h →
  let hdr := le_bytes 4 (len + HEADER_SIZE) in
  let payload := take (Z.to_nat len) data in
  Datagram.prepare_message data len t = (Val (hdr ++ payload, len + HEADER_SIZE), t) ∧
  wp (send fuel (S d) data len true) w (λ o w',
    match o with
    | Val true => history (d_own w') = Some (h ++ [hdr; payload]) ∧ ready w'
    | _ => history (d_own w') = Some h ∨ history (d_own w') = Some (h ++ [hdr])
    end) ∧
  (m_state (d_own w) ≠ Tls.Connected → send fuel (S d) data len true w = (Val false, w)).
Proof.
  intros Hlen H32 Hr Hw hdr p.
  assert (hdr = le_bytes 4 (Z.of_nat (length p) + HEADER_SIZE)) as ->.
  { unfold hdr, p. rewrite length_take. do 2 f_equal. lia. }
  split; [rewrite prepare_message_encode by lia; done|]. split.
  2:{ intros Hst. unfold send, mbind, M_bind, own. by rewrite bool_decide_eq_false_2. }
  unfold send. tls_step. tls_step. cbn [seq_post].
  destruct (negb _); [tls_step; by left|]. apply wp_bind, wp_catch, wp_bind.
  eapply wp_mono; [by eapply context_send_accepts|].
  intros [[]|e|hh] w1 Hw1; cbn [seq_post].
  - tls_step. cbn [seq_post negb]. by tls_step.
  - apply wp_bind. pose proof (sent_part_close (S d) h p w1 Hw1) as Hcl. unfold wp.
    destruct (close fuel (S d) false w1) as [[b|e'|hh] w2]; exact Hcl.
  - exact Hw1.
Qed.
End sending.

(** * From sender to receiver *)

Section transport.
Context {Σ C : Type} `{SysLaws Σ} `{Inet} `{BotanLaws C} {pipe : SecurePipe C}.
Abbreviation W := (derived Σ DatagramMessageSlicer (TlsSocket C)).
Implicit Types (w : W).
Context (fuel d : nat).

(** The application sends [ps] and stops at the first that is not taken. *)
Fixpoint send_all (ps : list (list byte)) : M W bool :=
  match ps with
  | [] => mret true
  | p :: ps' =>
      sent ← send fuel (S d) p (Z.of_nat (length p)) true;
      if sent : bool then send_all ps' else mret false
  end.

Lemma send_all_pieces ps h w :
  Forall sendable ps → ready w → history (d_own w) = Some h →
  wp (send_all ps) w (λ o w', o = Val true →
    history (d_own w') = Some (h ++ concat (pieces <$> ps))).
Proof.
  intros Hps. revert h w. induction Hps as [|p ps Hp _ IH]; intros h w Hr Hw; simpl.
  { tls_step. by rewrite app_nil_r. }
  apply wp_bind. unfold send. tls_step. tls_step. cbn [seq_post].
  destruct (negb _); [tls_step; cbn [seq_post]; by tls_step|]. apply wp_bind, wp_catch, wp_bind.
  eapply wp_mono; [eapply context_send_accepts; [|apply Hp|done..]; lia|].
  rewrite Nat2Z.id, firstn_all. intros [[]|e|hh] w1 Hw1; cbn [seq_post].
  - tls_step. cbn [seq_post negb]. tls_step. cbn [seq_post]. destruct Hw1 as [Hw1 Hr1].
    eapply wp_mono; [by eapply IH|]. intros o w' Ho Hval. rewrite (Ho Hval). simpl.
    by rewrite <- !app_assoc.
  - apply wp_bind. unfold wp.
    by destruct (close fuel (S d) false w1) as [[b|e'|hh] w2].
  - done.
Qed.

(** Records that are cut from the frames of [ps], up to any point. *)
Lemma prefix_delivers ps rss rs k ds w :
  Forall sendable ps → Forall2 (λ p rs, concat rs = encode p) ps rss →
  rs ++ k = concat rss → ready w → parsed (InHeader []) ds w →
  wp (receive_records rs) w (λ o w', o = Val tt ∧ d_own w' = d_own w ∧
    ∃ ps', datagram_delivered (slicer_of w') = ds ++ ps' ∧ ps' `prefix_of` ps ∧
      (k = [] → ps' = ps)).
Proof.
  intros Hps Hcut. revert rs ds w.
  induction Hcut as [|p rp ps rss Hrp _ IH]; intros rs ds w Hrs Hr Hw.
  { apply app_eq_nil in Hrs as [-> ->]. simpl. tls_step. split; [done|]. split; [done|].
    exists []. rewrite app_nil_r. by split; [apply Hw|]. }
  apply Forall_cons in Hps as [Hp Hps]. simpl in Hrs.
  assert ((∃ l, rs = rp ++ l ∧ l ++ k = concat rss) ∨ (∃ l, rp = rs ++ l ∧ l ≠ [] ∧ k ≠ []))
    as [(l & -> & Hl)|(l & -> & Hl & Hk)].
  { apply app_eq_app in Hrs as [l [[-> Hl]|[-> ->]]]; [left; exists l; by rewrite Hl|].
    destruct l as [|x l]; [left; exists []; by rewrite !app_nil_r|right; by exists (x :: l)]. }
  - apply receive_records_app.
    eapply wp_mono; [apply (message_records p [] rp [] ds); try done|].
    { by rewrite Hrp, app_nil_r. }
    { simpl. by rewrite app_nil_r. }
    intros o w1 (-> & Hown & Hpar). cbn [seq_post]. simpl in Hpar. rewrite Hrp in Hpar.
    rewrite (parse_encode_one p Hp) in Hpar. simpl in Hpar. eapply wp_mono.
    + apply (IH Hps l (ds ++ [p])); [done| |exact Hpar]. unfold ready. by rewrite Hown.
    + intros o w' (-> & Hown' & ps' & Hdel & Hpre & Hall). split; [done|].
      split; [by rewrite Hown'|]. exists (p :: ps'). split; [by rewrite Hdel, <- app_assoc|].
      split; [by apply prefix_cons|]. intros ?. by rewrite Hall.
  - rewrite concat_app in Hrp.
    eapply wp_mono; [apply (message_records p [] rs (concat l) ds); try done|].
    { simpl. by rewrite app_nil_r. }
    intros o w' (-> & Hown & (_ & _ & _ & Hdel)). split; [done|]. split; [done|].
    simpl in Hdel. destruct (parse_beginning p _ _ Hp (eq_sym Hrp)) as [Hout _].
    rewrite Hout in Hdel. eexists. split; [exact Hdel|]. split; [|done].
    case_decide; [by apply prefix_cons, prefix_nil|apply prefix_nil].
Qed.

(** Records cut from the pieces are cut from the frames. *)
Lemma group_records ps rss :
  Forall2 (λ x rs, concat rs = x) (concat (pieces <$> ps)) rss →
  ∃ groups, concat groups = concat rss ∧ Forall2 (λ p rs, concat rs = encode p) ps groups.
Proof.
  revert rss. induction ps as [|p ps IH]; intros rss Hrss; simpl in Hrss.
  { apply Forall2_nil_inv_l in Hrss as ->. exists []. by split. }
  apply Forall2_cons_inv_l in Hrss as (r1 & rss1 & Hr1 & Hrss & ->).
  apply Forall2_cons_inv_l in Hrss as (r2 & rss2 & Hr2 & Hrss & ->).
  destruct (IH rss2 Hrss) as (groups & Hg & Hall). exists ((r1 ++ r2) :: groups).
  split; [simpl; by rewrite Hg, <- app_assoc|]. constructor; [|done].
  by rewrite concat_app, Hr1, Hr2.
Qed.

(** C17: two TLS sockets: when every [send] of [ps] has been taken, and the records
    that the receiver's library reports are the plaintext the sender's library took,
    in order and cut anywhere into records up to any point, then the receiver queues
    a prefix of [ps], message by message, and all of [ps] once everything has
    arrived; no record makes it throw. *)
Theorem tls_end_to_end ps h ds w1 w2 :
  Forall sendable ps → ready w1 → history (d_own w1) = Some h →
  ready w2 → parsed (InHeader []) ds w2 →
  wp (send_all ps) w1 (λ o w1', o = Val true →
    ∀ taken rss rs later, history (d_own w1') = Some (h ++ taken) →
    Forall2 (λ piece records, concat records = piece) taken rss → rs ++ later = concat rss →
    wp (receive_records rs) w2 (λ o w2', o = Val tt ∧ d_own w2' = d_own w2 ∧
      ∃ ps', datagram_delivered (slicer_of w2') = ds ++ ps' ∧ ps' `prefix_of` ps ∧
        (later = [] → ps' = ps))).
Proof.
  intros Hps Hr1 Hw1 Hr2 Hw2. eapply wp_mono; [by apply send_all_pieces|].
  intros o w1' Ho Hval taken rss rs later Htaken Hrss Hrs.
  rewrite (Ho Hval) in Htaken. injection Htaken as <-%(inj (app h)).
  destruct (group_records _ _ Hrss) as (groups & Hg & Hall).
  eapply prefix_delivers; [done|exact Hall|by rewrite Hrs, Hg|done..].
Qed.
End transport.
