(* ===== verification/TlsSamples.v ===== *)
(** A channel without cryptography and TLS sockets on the scripted system, and the
    theorems about TLS sockets at concrete inputs. *)
From S2P Require Import Prelude Machine Buffer Framing Slicer Stream Datagram Inet Sys TcpSocket.
From S2P Require Import Samples TcpBase TcpSend TcpRecv TcpLife TcpConn EndToEnd.
From S2P Require Import Inherited Tls TlsBase TlsLife TlsProps TlsChannel TlsInput.
From S2P Require Import TlsRecords TlsEndToEnd.
Local Open Scope Z_scope.

#[local] Existing Instances no_hosts no_hosts_laws.

(** * A channel in plain text

    Every record is a tag and its bytes: a greeting, which is answered, data, or the
    end. *)

Record plain := mkPlain { pl_taken : list (list byte); pl_fed : list byte }.

Definition fresh : plain := mkPlain [] [].

Definition take_in (bs : list byte) (c : plain) : plain := mkPlain (pl_taken c ++ [bs]) (pl_fed c).
Definition eat (bs : list byte) (c : plain) : plain := mkPlain (pl_taken c) (pl_fed c ++ bs).

(** Make a callback and go on with [next]; what the callback throws passes through. *)
Definition call_back (cb : callback) (c : plain) (next : plain → run plain) : run plain :=
  Calls cb c (λ a c', match a with Raised e => Throws e c' | Returned _ => next c' end).

#[export] Instance plain_botan : Botan plain := {|
  private_key := string;
  certificate := string;
  load_key path := if String.eqb path "" then inl (socket_error "cannot read key") else inr path;
  load_certificate path := inr path;
  new_server _ _ := Returns fresh;
  new_client _ _ _ _ := call_back (EmitData [x00]) fresh Returns;
  ch_send bs c := call_back (EmitData (x01 :: bs)) c (λ c', Returns (take_in bs c'));
  ch_close c := call_back (EmitData [x02]) c Returns;
  ch_received_data bs c :=
    let done := λ c', Returns (eat bs c') in
    match bs with
    | x00 :: _ => call_back (EmitData [x03]) c (λ c', call_back SessionEstablished c' done)
    | x01 :: data => call_back (RecordReceived 0 data) c done
    | x02 :: _ => call_back (AlertReceived CLOSE_NOTIFY) c done
    | _ => Throws (socket_error "bad record") c
    end;
|}.

Lemma calls_back ok cb c next :
  ok cb → (∀ c', calls_only ok (next c')) → calls_only ok (call_back cb c next).
Proof. intros Hcb Hnext. constructor; [done|]. intros [b|e] c'; [apply Hnext|constructor]. Qed.

#[export] Instance plain_laws : BotanLaws plain.
Proof. split; intros; simpl; try (apply calls_back; [by eexists|]; intros); constructor. Qed.

Lemma call_accepts {X} (obs : plain → X) before after cb c next :
  obs c = before → (∀ c', obs c' = before → accepts obs before after (next c')) →
  accepts obs before after (call_back cb c next).
Proof. intros Hc Hnext. constructor; [done|]. intros [b|e] c' Hc'; [by apply Hnext|by constructor]. Qed.

#[export] Instance plain_pipe : SecurePipe plain.
Proof.
  refine {| accepted := pl_taken |}; intros; apply call_accepts; try done; intros c' Hc';
    constructor; simpl; congruence.
Defined.

#[export] Instance plain_input : SecureInput plain.
Proof.
  refine {| fed := pl_fed |}.
  - intros bs c. simpl. destruct bs as [|[] bs]; try (by constructor);
      repeat (apply call_accepts; [done|intros ? ?]); constructor; simpl; congruence.
  - intros c. apply call_accepts; [done|]. intros c' Hc'. by constructor.
Defined.

(** * Sockets *)

Definition junk : list byte := zero_bytes MAX_SIZE.

Lemma junk_length : Z.of_nat (length junk) = MAX_SIZE.
Proof. by vm_compute. Qed.

Abbreviation W := (derived script DatagramMessageSlicer (TlsSocket plain)).

(** A socket as its constructor leaves it. *)
Definition new_sample (σ : script) : W :=
  mkDerived (mkWorld σ EAGAIN [] (new_socket junk_slicer DEFAULT_MAX_SEND_QUEUE_SIZE))
    (new_tls_socket junk "key" "cert").

(** The connection attempt, the peer's greeting, a message of the peer. *)
Definition sample_script : script :=
  scripted [inl [x00]; inr EAGAIN; inl (x01 :: encode hi)] [inl 1; inl 1; inl 100; inl 100; inl 100; inl 100] [].

Definition connecting : W :=
  (perform 100 1 junk_slicer junk (CConnect [] loopback "") (new_sample sample_script)).2.

(** After the greeting. *)
Definition connected : W := (perform 100 1 junk_slicer junk CReceive connecting).2.

Lemma connecting_reachable : reachable 100 1 junk_slicer junk connecting.
Proof.
  eapply (reachable_call _ _ _ _ (new_sample sample_script) (CConnect [] loopback "") (Val tt)).
  - apply reachable_new. unfold DEFAULT_MAX_SEND_QUEUE_SIZE, two64, two32. lia.
  - split; [|by split]. unfold dormant. simpl. by auto.
  - unfold connecting. vm_compute. reflexivity.
  - done.
Qed.

Lemma connected_reachable_tls : reachable 100 1 junk_slicer junk connected.
Proof.
  eapply (reachable_call _ _ _ _ connecting CReceive (Val tt)).
  - apply connecting_reachable.
  - vm_compute. eauto.
  - unfold connected. vm_compute. reflexivity.
  - done.
Qed.

Lemma connected_state : m_state (d_own connected) = Tls.Connected.
Proof. by vm_compute. Qed.

(** * The theorems at these sockets *)

(** The rest of a call after its result has been computed. *)
Ltac compute_call E :=
  lazymatch goal with
  | |- context [match ?m ?w with _ => _ end] => destruct (m w) as [o w'] eqn:E
  end; vm_compute in E; injection E as <- <-.

Lemma tls_calls_never_abort_witness :
  match (perform 100 1 junk_slicer junk CReceive connected).1 with
  | Halt h => h = OutOfFuel | _ => True
  end.
Proof.
  pose proof (tls_calls_never_abort 100 1 junk_slicer junk connected CReceive ltac:(lia)
    junk_slicer_wf junk_length connected_reachable_tls ltac:(vm_compute; eauto)) as Hspec.
  unfold wp in Hspec. by destruct (perform _ _ _ _ _ connected).
Defined.

Lemma tls_invariant_witness :
  (∃ w', do_send 100 2 connected = (Val false, w') ∧ unchanged connected w') ∧
  is_Some (m_tls_context (d_own connected)).
Proof.
  destruct (tls_invariant 100 1 junk_slicer junk connected ltac:(lia) junk_slicer_wf junk_length
    connected_reachable_tls) as (Hsend & _ & _ & _ & Hctx).
  split; [exact Hsend|]. apply Hctx, connected_state.
Defined.

(** An orderly close of a connected socket, and what another [receive] makes of it. *)
Lemma tls_state_machine_witness :
  m_state (d_own (perform 100 1 junk_slicer junk (CClose false) connected).2) = Tls.Shutdown ∧
  next (CClose false) Tls.Connected Tls.Shutdown.
Proof.
  pose proof (tls_state_machine 100 1 junk_slicer junk (CClose false) connected) as Hspec.
  rewrite connected_state in Hspec.
  assert (m_state (d_own (perform 100 1 junk_slicer junk (CClose false) connected).2) =
    Tls.Shutdown) as E by by vm_compute.
  rewrite E in Hspec. split; [exact E|exact Hspec].
Defined.

Lemma close_reenters_once_witness :
  close 100 (S (S 5)) false connected = close 100 2 false connected.
Proof. exact (close_reenters_once 100 5 false connected). Defined.

(** A descriptor that takes one byte, is busy twice, and takes the rest. *)
Definition slow : W := mkDerived
  (sample_world (scripted [] [inl 1; inr EAGAIN; inr ECONNRESET; inl 100] []) 7 Connected)
  (new_tls_socket junk "key" "cert").

(** A descriptor that never takes anything. *)
Definition full : W := mkDerived (sample_world Sys.idle 7 Connected) (new_tls_socket junk "key" "cert").

Lemma emit_data_writes_witness :
  ∃ w1 chunks, concat chunks `prefix_of` encode hi ∧ unchanged slow w1 ∧
    w_trace (d_base w1) = Wrote 7 <$> chunks.
Proof.
  pose proof (emit_data_writes (close 9 2) 9 (encode hi) slow ltac:(by vm_compute)) as Hspec.
  unfold wp in Hspec. destruct (tls_emit_data (close 9 2) 9 (encode hi) slow).
  destruct Hspec as (p & w1 & Hp & Hu & (chunks & <- & Ht) & _). by exists w1, chunks.
Defined.

Lemma slow_takes : takes 7 4 (encode hi) (w_os (d_base slow)).
Proof.
  eapply takes_some; [reflexivity|done|].
  eapply takes_later; [done|reflexivity|by left|]. eapply takes_later; [done|reflexivity|by right|].
  eapply takes_some; [reflexivity|done|]. apply takes_all.
Qed.

(** One system takes everything after two more tries, another one never. *)
Lemma emit_data_ends_witness :
  (∃ chunks, concat chunks = encode hi ∧
     w_trace (d_base (tls_emit_data (close 9 2) 9 (encode hi) slow).2) = Wrote 7 <$> chunks) ∧
  (tls_emit_data (close 9 2) 9 (encode hi) full).1 = Halt OutOfFuel.
Proof.
  split.
  - pose proof (proj1 (emit_data_ends (close 9 2) (encode hi) slow ltac:(by vm_compute)) 4%nat 9%nat
      slow_takes ltac:(lia)) as Hspec. unfold wp in Hspec.
    destruct (tls_emit_data (close 9 2) 9 (encode hi) slow) as [o w'].
    destruct Hspec as (_ & _ & Hch). exact Hch.
  - apply (proj2 (emit_data_ends (close 9 2) (encode hi) full ltac:(by vm_compute))
      EAGAIN 9%nat); [done|by left|]. done.
Defined.

(** ** Messages *)

Lemma connected_parsed : parsed (InHeader []) [] connected.
Proof.
  assert (slicer_of connected = junk_slicer) as Hs by (vm_compute; reflexivity).
  unfold parsed. rewrite Hs. clear Hs. split; [apply junk_slicer_wf|done].
Qed.

Lemma connected_ready : ready connected.
Proof. vm_compute. eauto. Qed.

Lemma connected_history : history (d_own connected) = Some [].
Proof. by vm_compute. Qed.

Lemma empty_message_wedges_witness :
  wp (tls_record_received true (le_bytes 4 4 ++ [])) connected (λ o w',
    datagram_delivered (slicer_of w') = [] ∧
    tls_record_received true (encode hi) w' = (Exn (runtime_error "Invalid state"), w')).
Proof.
  pose proof (empty_message_wedges (le_bytes 4 4) [] [] connected eq_refl ltac:(by vm_compute)
    ltac:(by vm_compute) connected_ready connected_parsed) as Hspec.
  eapply wp_mono; [exact Hspec|]. intros o w' (_ & Hdel & Hw). split; [exact Hdel|by apply Hw].
Defined.

Lemma connected_sends : (send 9 2 (hi ++ [x00]) 2 true connected).1 = Val true.
Proof. by vm_compute. Qed.

Lemma tls_send_frames_witness :
  history (d_own (send 9 2 (hi ++ [x00]) 2 true connected).2) =
    Some ([] ++ [le_bytes 4 (2 + HEADER_SIZE); hi]).
Proof.
  exact (proj1 (wp_result _ _ _ _ (proj1 (proj2 (tls_send_frames 9 1 (hi ++ [x00]) 2 [] junk_slicer
    connected ltac:(simpl; lia) ltac:(unfold HEADER_SIZE, two32; lia) connected_ready
    connected_history))) connected_sends)).
Defined.

(** The greeting and a message arrive; the library has been fed both. *)
Lemma connecting_input : input (d_own connecting) = Some [].
Proof. by vm_compute. Qed.

Lemma connecting_pulls : (pull_messages 100 2 connecting).1 = Val tt.
Proof. by vm_compute. Qed.

Lemma tls_pull_feeds_witness :
  ∃ bs, heard (pull_messages 100 2 connecting).2 = heard connecting ++ bs ∧
    input (d_own (pull_messages 100 2 connecting).2) = Some ([] ++ bs).
Proof.
  exact (wp_result _ _ _ _ (tls_pull_feeds 100 1 [] connecting connecting_input) connecting_pulls).
Defined.

(** Two messages, the frames cut into records inside and between the pieces. *)
Definition sample_messages : list (list byte) := [hi; [x21]].

Definition sample_records : list (list (list byte)) :=
  [[[x06; x00]; [x00; x00]]; [[x68]; [x69]]; [[x05; x00; x00; x00]]; [[]; [x21]]].

Lemma sample_cut : Forall2 (λ x rs, concat rs = x) (concat (pieces <$> sample_messages)) sample_records.
Proof. by repeat constructor. Qed.

Lemma sample_messages_sent :
  let r := send_all 9 1 sample_messages connected in
  r.1 = Val true ∧ history (d_own r.2) = Some ([] ++ concat (pieces <$> sample_messages)).
Proof. by vm_compute. Qed.

Lemma tls_end_to_end_witness :
  wp (receive_records (concat sample_records)) connected (λ o w', o = Val tt ∧
    datagram_delivered (slicer_of w') = sample_messages).
Proof.
  pose proof (tls_end_to_end 9 1 sample_messages [] [] connected connected
    ltac:(by repeat constructor) connected_ready connected_history connected_ready connected_parsed)
    as Hspec.
  pose proof (wp_result _ _ _ _ Hspec (proj1 sample_messages_sent) eq_refl _ _
    (concat sample_records) [] (proj2 sample_messages_sent) sample_cut) as Hrecv.
  eapply wp_mono; [apply Hrecv; by rewrite app_nil_r|].
  intros o' w2 (-> & _ & ps' & Hdel & _ & Hall). split; [done|]. by rewrite Hdel, Hall.
Defined.

(** A TLS socket that is not connected closes, and so connects, like a TcpSocket. *)
Lemma inherited_members_follow_witness :
  follows (λ o : TlsSocket plain, m_state o ≠ Tls.Connected) closes_own
    (Inherited.connect (close (Σ:=script) (T:=DatagramMessageSlicer) 9 2) [] loopback "")
    (TcpSocket.connect [] loopback "").
Proof.
  apply (inherited_members_follow _ _ not_connected_kept _ 9).
  intros [|]; [|apply close_false_follows]. intros w _. by apply close_true_follows.
Defined.

(** ** A handshake that ends after the connection is gone *)

(** The peer has reset the connection when the greeting is answered. *)
Definition reset_script : script :=
  {| sc_recv := [inl [x00]]; sc_write := [inl 1; inr EPIPE]; sc_accept := []; sc_notconn := true;
     sc_connect := None; sc_socket := inl 7; sc_flags := 0; sc_peer := None |}.

Definition answering : W :=
  (perform 100 1 junk_slicer junk (CConnect [] loopback "") (new_sample reset_script)).2.

Definition resurrected : W := (perform 100 1 junk_slicer junk CReceive answering).2.

Lemma answering_reachable : reachable 100 1 junk_slicer junk answering.
Proof.
  eapply (reachable_call _ _ _ _ (new_sample reset_script) (CConnect [] loopback "") (Val tt)).
  - apply reachable_new. unfold DEFAULT_MAX_SEND_QUEUE_SIZE, two64, two32. lia.
  - split; [|by split]. unfold dormant. simpl. by auto.
  - unfold answering. vm_compute. reflexivity.
  - done.
Qed.

(** A socket can count as connected without a descriptor: when the peer resets
    the connection during the handshake, [tls_emit_data] closes the socket and
    returns, the library goes on to report the end of the handshake, and
    [tls_session_established] sets the state to [Connected] whatever it was. *)
Theorem session_established_after_close :
  reachable 100 1 junk_slicer junk resurrected ∧
  is_connected resurrected = (Val true, resurrected) ∧
  is_valid (d_base resurrected) = (Val false, d_base resurrected) ∧
  TcpSocket.m_state (w_sock (d_base resurrected)) = Closed.
Proof.
  split; [|by vm_compute].
  eapply (reachable_call _ _ _ _ answering CReceive (Val tt)); [apply answering_reachable| | |done].
  - vm_compute. eauto.
  - unfold resurrected. vm_compute. reflexivity.
Qed.
